(* ===== verification/_CoqProject ===== *)
-Q . S2P
Prelude.v
MachineInt.v
Decimal.v
Lts.v
Adapter.v
AtomicRingBuffer.v
RingProtocol.v
RingInvariant.v
RingMachine.v
QueueSpec.v
RingRefinement.v
RingTheorems.v
RingWrap.v
RingTSO.v
RingRobust.v
RingBatch.v
RingAlone.v
RingClient.v
LockInterface.v
Spinlock.v
SpinlockBench.v
Monitor.v
MonitorAdapter.v
MutexQueue.v
MutexPool.v
SpscRingBuffer.v
SpscInvariant.v
SpscTheorems.v
SpscTSO.v
SpscAdapter.v
IndexPool.v
RingAdapter.v
LibAdapter.v
AtomicFutex.v
ThreadGate.v
ThreadPool.v
PoolInvariant.v
PoolTheorems.v
PoolProgress.v
TaskQueue.v
CondvarPool.v
ThreadPoolBench.v
Timer.v
DebugFunc.v
BenchHarness.v
Double.v
BenchStats.v
Watchdog.v
BenchReport.v
BenchProcess.v
Printf.v
WakeLatency.v
RunPinned.v
QueueBench.v
PingPong.v
QueueCompetitors.v
IndexPoolBench.v
PoolCompetitors.v
QueueMain.v
IndexPoolMain.v
SpinlockMain.v
ThreadPoolMain.v
PoolTSO.v
WorkerTSO.v
Layout.v
Demo.v
