(* ===== verification/Prelude.v ===== *)
(** * AstraLib: a verification development

    AstraLib ([src/include/AstraLib]) is a header-only C++20 library of
    concurrency primitives for x86-64 Linux: two ring buffers, a spin lock, a
    futex wrapper, an index pool, a thread pool, a cycle timer and a logging
    function, with benchmarks ([src/bench]) that measure them.  This development
    models the code and proves what it is meant to guarantee.

    ** How the code is modelled

    A component is a [machine] ([Lts.v]): a state, and an executable partial
    function that performs one action of one thread.  An action is one access to
    shared memory, a call, a return, or a system call; the local variables of a
    thread are in its program counter.  A schedule is a list of actions, so every
    interleaving is a run and every witness evaluates one.  [None] is an action
    that is not enabled, or undefined behaviour; progress theorems say that it
    does not occur where the code goes on.  Interleavings are sequentially
    consistent, except in [RingTSO.v], [SpscTSO.v], [PoolTSO.v] and [WorkerTSO.v].
    Integers have the width of the source and wrap or overflow as C++20 says
    ([MachineInt.v]).  Records carry, next to the program's data, a few fields that no
    code reads (values in ticket order, executed tasks, values popped); each is marked
    where it is declared.  Where the code is a template over a class or calls a
    library, the model is a client of a type class that states what it needs ([Lock],
    [Adapter], [TaskPool], [LibQueue]), and the implementations are its instances.
    Invariants are proved by rule induction over [reachable]; contracts are
    abstract machines and forward simulations ([Lts.simulates]); termination is a
    measure that every step except a failing spin decreases, and theorems of the
    form "boundedly many steps lead to ..." ([Lts.measure_completes]).

    ** The parts and their files

    - [Prelude]: notation, automation, lemmas on lists and sums.  [MachineInt]:
      integers at their width.  [Decimal]: printing and reading numbers.  [Lts]:
      machines, runs, reachability, simulation, completion.
    - [AtomicRingBuffer] models [Buffers/atomicRingBuffer.hpp]: the tickets, the
      slots with their sequence numbers and the lifetime of their objects, the
      three enqueue functions, [dequeue], [batchDequeue], [isEmpty],
      [clearBuffer].  It is generic in the arithmetic: [machine_arith] is the code,
      [ticket_arith] has unbounded tickets and compares counters as the code does,
      [ideal_arith] has no wrap-around at all.  [RingProtocol] is the protocol of
      tickets and sequence numbers, [RingInvariant] the invariant of the code,
      [RingMachine] the passage between the first two arithmetics, [RingWrap] to the third, [QueueSpec] the
      abstract FIFO queue, [RingRefinement] the simulation, [RingTheorems] the
      theorems, [RingBatch] those on [batchDequeue], [RingAlone] those on a thread
      that runs without interference, [RingClient] what code that uses the buffer
      gets: conservation of values, and what a deadlock would look like.
      [RingTSO] is the same code (without [clearBuffer], which is for quiescent use)
      with the store buffers of x86, [RingRobust] the simulation of it by the
      interleaving code.
    - [SpscRingBuffer], [SpscInvariant], [SpscTheorems]:
      [Buffers/spscRingBuffer.hpp], refinement of a FIFO queue of bounded capacity.
      [SpscTSO]: the same buffer with the store buffers of x86, for plain words.
    - [LockInterface]: the class [Lock] of what a lock promises, and a client (the
      worker loop of [bench/SpinlockComparisonBench.cpp]) proved against it.
      [Spinlock] ([Atomic/spinlock.hpp]) and the other locks of that benchmark
      ([SpinlockBench]) are instances.
    - [AtomicFutex]: [Atomic/atomicFutex.hpp] over the futex system call.
    - [IndexPool]: [Pools/threadSafeIndexPool.hpp], a client of the ring buffer.
    - [ThreadGate], [ThreadPool], [PoolInvariant], [PoolTheorems], [PoolProgress]:
      [Threading/ThreadPool.hpp]: the gate, the workers, the dispatcher, the
      clients and the destructors, with accesses to memory that interleave; the last
      file is the measure of the work left.  [TaskQueue]: the ring buffer, used as the
      pool uses it, implements the queue operations of [ThreadPool].  [PoolTSO]: the
      dispatcher's gate, [assignTask] and [~ThreadPool] with the store buffers of x86.
      [WorkerTSO]: the same for the hand-over of tasks to a worker of a running pool.
    - [Timer]: [Time/timer.hpp] and [Time/timeNow.hpp], with binary64 arithmetic.
    - [DebugFunc]: [Debug/debugFunc.hpp], with the state of [std::cout].
    - [Layout]: sizes and alignment of [PaddedAtomic], [Slot] and [spscSlot].
    - [BenchHarness], [RunPinned], [BenchStats], [Watchdog] ([bench/benchCommon.hpp]):
      the harness: knobs and placement; the pinned parallel run; statistics, tables and
      calibration, over [Double], the arithmetic of [double] and how far it rounds; the
      watchdog thread.  [BenchReport]: what the four programs share: a run is the
      list of what it did, and the outcome of a measurement is an argument.
      [BenchProcess]: the process, in which [main] goes through that list beside the
      watchdog, which may end it.
      [Printf]: the text of the preamble and of the tables.
    - [Adapter]: the class of what the templates of the queue and index-pool
      benchmarks use ([push], [pop], the steps inside them), with the laws
      [Conserves] and [Progresses].  Its instances: [RingAdapter] and [SpscAdapter]
      (the library's own buffers and the index pool), [MonitorAdapter] (a list behind
      a lock, over [Monitor]; [MutexQueue] and [MutexPool] are the two baselines) and
      [LibAdapter] (the adapters over third-party containers, which are parameters
      with their documented contracts, [LibQueue] and [FrontQueue]).
    - [QueueBench], [PingPong] ([bench/QueueComparisonBench.cpp]) and
      [IndexPoolBench] ([bench/IndexPoolComparisonBench.cpp]): [throughput],
      [pingPong] and [run], over every [Adapter].  [QueueCompetitors],
      [PoolCompetitors]: all competitors meet the laws.
    - [CondvarPool], [ThreadPoolBench], [WakeLatency]
      ([bench/ThreadPoolComparisonBench.cpp]): the condition-variable pool; the class
      [TaskPool] of what the measurements need of a pool, with that pool and
      [ThreadPool] as instances; [burst] and [wakeLatency] over every [TaskPool].
    - [QueueMain], [IndexPoolMain], [SpinlockMain], [ThreadPoolMain]: the [main]
      functions of the four benchmarks.
    - [Demo]: the two programs of [src/demo].

    ** What the theorems show

    - Ring buffers: histories are those of an atomic FIFO queue; no undefined
      behaviour and no data race on a slot, which justifies sequential
      consistency for the data; the 64-bit counters may wrap around; threads block
      only on a full or an empty buffer; calls return.  The single-producer buffer,
      which has no locked instruction, is a FIFO queue on x86-TSO too; of the
      other one the store buffers of x86 cannot be observed at all, so every theorem
      on its histories holds there.
    - Spin lock, futex, index pool: mutual exclusion and an exact counter behind
      the lock; a waiter returns only after a wake-up and is not left behind; no
      index is handed out twice and none is lost.
    - Thread pool: tasks run at most once and in round-robin hand-over without a
      race on the task; under sequential consistency no wake-up is lost, every task
      gets executed after boundedly many steps, and the destructor does not deadlock;
      an empty function disables its worker.  On x86-TSO the store of the dispatcher's
      [taskGate.reset()] can be delayed: then a wake-up can be lost, or the destructor
      waits for ever; both have no other cause.  The hand-over to the workers is safe
      there.  The task queue of the model is what the ring provides.
    - Timer, [debugMessage], layout: exact cycle counts across a wrap-around; lines
      that are never mixed, if only [debugMessage] uses [std::cout] and its arguments
      are plain values, with a time stamp that reads back for a clock past the epoch;
      one cache line per shared variable.
    - Benchmarks: no thread starts before all are ready and the reported time
      spans all bodies; threads are pinned to different cores; the competitors
      are interleaved.  The accounting checks pass and the measurements end, for
      every queue that conserves values, every lock and every pool that runs its
      tasks, and all competitors are such.  A round trip of [pingPong] brings back the
      value that was sent; the task of a wake-up never outlives the variable it
      writes, and a sample is that of its own task.  The statistics are the order
      statistics they should be, rates are numbers, and no index computed in [double]
      is out of range; a printed number is within half a unit of its last digit.  The
      [main] of each program has no undefined behaviour if there is at least one
      repetition (and, for the spin locks, no overflow of the duration), makes exactly
      the calls that its tables, the cores and the knobs determine, keeps each under a
      deadline, and returns 0 if the calls that return have the outcome of a finished
      execution.  The process ends with that status, or with 3 by the watchdog, which
      ends a run that hangs and does not fire before a deadline is over.  On x86 a call
      of [burst] on [ThreadPool] may be such a run.  The mutex-protected queue is
      linearizable behind every lock.  The condition-variable pool executes every task,
      also those queued when it is destroyed, and stops after boundedly many steps.

    ** Bounds and fuel

    Theorems about the ring buffer hold for every [SIZE] up to [2^30] that passes the
    static assertions (a larger one overflows the [int] of [prepareBuffer] or of an
    index), every [BATCH_SIZE] up to [INT_MAX] ([RingInvariant.params_ok]) and every
    number of threads with [SIZE * threads < 2^64], so that two tickets in use are less
    than [2^64] apart.  Fuel occurs in
    [initializeIndexes_from] ([SIZE] rounds of at most five steps, shown
    sufficient in [pool_constructed]), in [RingAlone.run_alone] (the [work] of the
    call), in [MutexVecPool.fill] ([SIZE] rounds) and in [Decimal.show_digits] (the
    binary length of the number).  [LibAdapter.fill] takes the choices of the
    container as a list, one per attempt.  The competitors are
    shown to meet the laws for up to eight threads, as many as the benchmarks start;
    the check of [throughput] holds for fewer than [2^32] values, beyond which [expect] overflows.  The
    theorems on the benchmark programs assume that clocks do not go backwards, that
    the counter of time stamps was calibrated to a number of a plausible magnitude
    ([BenchReport.init_ok] shows that it was, on a clock that goes on), and that the
    latency samples fit in memory; those on the process, that the clock stays away from
    the end of [int64_t] ([BenchProcess.clock_ok]).

    ** Not modelled

    Memory orders weaker than sequential consistency, except the store buffers of
    [RingTSO], [SpscTSO], [PoolTSO] and [WorkerTSO], which leave out [clearBuffer],
    [~Worker] and empty tasks; compilers that assume that the plain [bool]s [running]
    do not change; the scheduler's fairness (theorems say what steps are possible and how
    many are needed); exceptions thrown by tasks, by element types or by stream
    insertions, except the one of a call of an empty function in [CondvarPool]; the
    contents of tasks (a task is a number, and its call one step).  Of the benchmarks:
    the code of the third-party libraries, the lines printed under [g_verbose], the
    text of the messages of failed checks, and [doNotOptimize], which has no effect on
    values; the readings of [nowNs] and [__rdtsc] are arguments.  The tests, and the
    header that only includes the others. *)

From stdpp Require Export base tactics numbers list list_numbers.
From stdpp Require Import options.

(** ** Notations *)

Declare Scope astra_scope.
Delimit Scope astra_scope with astra.

(** Sequencing of partial computations: [None] is undefined behaviour, or a
    step that is not enabled. *)
Notation "'let?' x := e 'in' k" := (match e with Some x => k | None => None end)
  (at level 10, x pattern, e at level 100, k at level 200) : astra_scope.

(** ** Automation *)

(** [astra] collects the lemmas that close the common side conditions:
    lengths of updated lists, ranges of wrapped integers, lookups. *)
Create HintDb astra.
Create Rewrite HintDb astra.

(** Split the [match]es that decide whether a partial computation in [H] is
    [Some _], innermost first, and substitute the equations this gives. *)
Ltac destr_inner x :=
  lazymatch x with
  | match ?y with _ => _ end => destr_inner y
  | _ => let E := fresh "E" in destruct x eqn:E
  end.

Ltac step_inv H :=
  repeat (lazymatch type of H with
          | Some _ = Some _ => fail
          | match ?x with _ => _ end = _ => destr_inner x; simpl in H; try discriminate H
          end); simplify_eq/=.

(** ** Lists *)

Section Lists.
Context {A : Type}.
Implicit Types (l : list A) (i j n : nat) (x y : A).

(** A lookup in an updated list, by cases on the index. *)
Lemma lookup_insert_cases l i j x y :
  <[i:=x]> l !! j = Some y →
  (i = j ∧ x = y ∧ (i < length l)%nat) ∨ (i ≠ j ∧ l !! j = Some y).
Proof.
  intros H. destruct (decide (i = j)) as [->|Hne].
  - left. pose proof (lookup_lt_Some _ _ _ H) as Hlt.
    rewrite length_insert in Hlt.
    rewrite list_lookup_insert_eq in H by done. naive_solver.
  - right. by rewrite list_lookup_insert_ne in H.
Qed.

Lemma lookup_snoc_cases l i x y :
  (l ++ [x]) !! i = Some y →
  (l !! i = Some y ∧ (i < length l)%nat) ∨ (i = length l ∧ x = y).
Proof.
  intros H. destruct (decide (i < length l)%nat) as [Hlt|Hge].
  - left. by rewrite lookup_app_l in H.
  - right. pose proof (lookup_lt_Some _ _ _ H) as Hl.
    rewrite length_app in Hl. simpl in Hl.
    assert (i = length l) as -> by lia.
    rewrite list_lookup_middle in H; naive_solver.
Qed.

Lemma lookup_snoc_old l i x y : l !! i = Some y → (l ++ [x]) !! i = Some y.
Proof. intros H. by apply lookup_app_l_Some. Qed.

Lemma lookup_snoc_new l x : (l ++ [x]) !! length l = Some x.
Proof. by apply list_lookup_middle. Qed.

Lemma drop_snoc_le l n x :
  (n ≤ length l)%nat → drop n (l ++ [x]) = drop n l ++ [x].
Proof. intros H. by rewrite drop_app_le. Qed.

Lemma drop_snoc_gt l n x :
  (length l < n)%nat → drop n (l ++ [x]) = [].
Proof. intros H. apply drop_ge. rewrite length_app. simpl. lia. Qed.
End Lists.

(** Two functions that agree away from the updated positions. *)
Section FmapInsert.
Context {A B : Type} (f g : A → B).
Implicit Types (l : list A).

Lemma fmap_insert_ext l t x :
  (∀ j y, l !! j = Some y → j ≠ t → f y = g y) →
  f <$> <[t := x]> l = <[t := f x]> (g <$> l).
Proof.
  intros H. apply list_eq. intros j. rewrite list_fmap_insert.
  destruct (decide (j = t)) as [->|Hne].
  - destruct (decide (t < length l)%nat).
    + by rewrite !list_lookup_insert_eq by (by rewrite length_fmap).
    + by rewrite !lookup_ge_None_2 by (rewrite length_insert, length_fmap; lia).
  - rewrite !list_lookup_insert_ne, !list_lookup_fmap by done.
    destruct (l !! j) as [y|] eqn:E; [|done]. simpl. f_equal. eauto.
Qed.

Lemma fmap_insert2_ext l t x j y :
  t ≠ j → l !! j = Some y →
  (∀ i z, l !! i = Some z → i ≠ t → i ≠ j → f z = g z) →
  f <$> <[t := x]> l = <[j := f y]> (<[t := f x]> (g <$> l)).
Proof.
  intros Hne Hj H. apply list_eq. intros i. rewrite list_fmap_insert.
  pose proof (lookup_lt_Some _ _ _ Hj).
  destruct (decide (i = j)) as [->|Hij].
  - rewrite list_lookup_insert_ne, list_lookup_fmap, Hj by done.
    by rewrite list_lookup_insert_eq by (by rewrite length_insert, length_fmap).
  - rewrite (list_lookup_insert_ne _ j) by done. destruct (decide (i = t)) as [->|Hit].
    + destruct (decide (t < length l)%nat).
      * by rewrite !list_lookup_insert_eq by (by rewrite length_fmap).
      * by rewrite !lookup_ge_None_2 by (rewrite length_insert, length_fmap; lia).
    + rewrite !list_lookup_insert_ne, !list_lookup_fmap by done.
      destruct (l !! i) as [z|] eqn:E; [|done]. simpl. f_equal. eauto.
Qed.
End FmapInsert.

Lemma sum_list_insert (l : list nat) t x y :
  l !! t = Some x → (sum_list (<[t := y]> l) + x = sum_list l + y)%nat.
Proof.
  revert t. induction l as [|z l IH]; intros [|t] H; simplify_eq/=; [lia|].
  specialize (IH t H). lia.
Qed.

(** A sum over a list in which one element changes. *)
Lemma sum_fmap_insert {A} (f : A → nat) (l : list A) t x y :
  l !! t = Some x → (sum_list (f <$> <[t := y]> l) + f x = sum_list (f <$> l) + f y)%nat.
Proof. intros H. rewrite list_fmap_insert. apply sum_list_insert. by rewrite list_lookup_fmap, H. Qed.

Lemma sum_fmap_cons {A} (f : A → nat) (x : A) (l : list A) :
  sum_list (f <$> x :: l) = (f x + sum_list (f <$> l))%nat.
Proof. done. Qed.

(** A positive sum has a positive summand. *)
Lemma sum_fmap_pos {A} (f : A → nat) (l : list A) :
  (0 < sum_list (f <$> l))%nat → ∃ t x, l !! t = Some x ∧ (0 < f x)%nat.
Proof.
  induction l as [|x l IH]; intros H; [simpl in H; lia|]. rewrite sum_fmap_cons in H. destruct (f x) eqn:E.
  - destruct IH as (t & y & ? & ?); [lia|by exists (S t), y].
  - exists 0%nat, x. split; [done|lia].
Qed.

Lemma sum_fmap_ge {A} (f : A → nat) (l : list A) t x :
  l !! t = Some x → (f x ≤ sum_list (f <$> l))%nat.
Proof.
  revert t. induction l as [|y l IH]; intros [|t] H; simplify_eq; rewrite sum_fmap_cons; simplify_eq/=; [lia|].
  specialize (IH t H). lia.
Qed.

Lemma sum_fmap_ge2 {A} (f : A → nat) (l : list A) i j x y :
  i ≠ j → l !! i = Some x → l !! j = Some y → (f x + f y ≤ sum_list (f <$> l))%nat.
Proof.
  revert i j. induction l as [|z l IH]; intros [|i] [|j] Hne Hi Hj; try done;
    rewrite sum_fmap_cons; simplify_eq/=.
  - pose proof (sum_fmap_ge f l j y Hj). lia.
  - pose proof (sum_fmap_ge f l i x Hi). lia.
  - specialize (IH i j ltac:(congruence) Hi Hj). lia.
Qed.

(** Replacing one of the lists that are concatenated. *)
Lemma concat_insert {A} (ls : list (list A)) t x y :
  ls !! t = Some x → x ++ concat (<[t := y]> ls) ≡ₚ y ++ concat ls.
Proof.
  revert t. induction ls as [|z ls IH]; intros [|t] H; simplify_eq/=.
  - by rewrite !app_assoc, (Permutation_app_comm x y).
  - rewrite !app_assoc, (Permutation_app_comm x z), (Permutation_app_comm y z), <- !app_assoc.
    by rewrite (IH t H).
Qed.

Lemma concat_fmap_insert {A B} (f : A → list B) (l : list A) t x y :
  l !! t = Some x → f x ++ concat (f <$> <[t := y]> l) ≡ₚ f y ++ concat (f <$> l).
Proof.
  intros H. rewrite list_fmap_insert. apply concat_insert. by rewrite list_lookup_fmap, H.
Qed.

Lemma concat_fmap_same {A B} (f : A → list B) (l : list A) t x y :
  l !! t = Some x → f y = f x → concat (f <$> <[t := y]> l) = concat (f <$> l).
Proof.
  intros H He. rewrite list_fmap_insert, list_insert_id; [done|]. by rewrite list_lookup_fmap, H, He.
Qed.

(** The items of one owner, and those of the others. *)
Lemma concat_fmap_split {A B} (f : A → list B) (l : list A) t x :
  l !! t = Some x → ∃ rest, f x ++ rest ≡ₚ concat (f <$> l) ∧ ∀ y, f y ++ rest ≡ₚ concat (f <$> <[t := y]> l).
Proof.
  revert t. induction l as [|z l IH]; intros [|t] H; simpl in H; simplify_eq.
  - by exists (concat (f <$> l)).
  - destruct (IH t H) as (rest & H1 & H2). exists (f z ++ rest). simpl. split.
    + rewrite <- H1. by rewrite !app_assoc, (Permutation_app_comm (f z)).
    + intros y. rewrite <- H2. by rewrite !app_assoc, (Permutation_app_comm (f z)).
Qed.

(** Moving items between a pool [q], finished ones [e] and the hand of one owner:
    its old hand [x] becomes [y], and the hands of all change accordingly. *)
Lemma perm_hand {A} (q q' e x y cs cs' : list A) :
  x ++ cs' ≡ₚ y ++ cs → e ++ q' ++ y ≡ₚ q ++ x → q ++ cs ≡ₚ e ++ q' ++ cs'.
Proof.
  intros Hc Hq. apply (Permutation_app_inv_l x).
  rewrite (Permutation_app_swap_app x e), (Permutation_app_swap_app x q'), Hc.
  rewrite (app_assoc q' y cs), (app_assoc e (q' ++ y) cs), Hq.
  by rewrite <- app_assoc, Permutation_app_swap_app.
Qed.

Lemma concat_nils {A} (l : list (list A)) : (∀ i x, l !! i = Some x → x = []) → concat l = [].
Proof.
  induction l as [|y l IH]; intros H; [done|]. simpl. rewrite (H 0%nat y eq_refl). apply IH.
  intros i. apply (H (S i)).
Qed.

Lemma concat_fmap_nil {A B} (f : A → list B) (l : list A) :
  (∀ i x, l !! i = Some x → f x = []) → concat (f <$> l) = [].
Proof. intros H. apply concat_nils. intros i x (y & -> & Hy)%list_lookup_fmap_Some. by eapply H. Qed.

(** The concatenation when every element contributes one more item. *)
Lemma concat_fmap_snoc {A B} (f : A → list B) (g : A → B) (l : list A) :
  concat ((λ x, f x ++ [g x]) <$> l) ≡ₚ concat (f <$> l) ++ (g <$> l).
Proof.
  induction l as [|x l IH]; [done|]. rewrite !fmap_cons. cbn [concat]. rewrite IH, <- !app_assoc.
  apply Permutation_app_head. simpl. by rewrite Permutation_middle.
Qed.

Lemma elem_of_concat_fmap {A B} (f : A → list B) (l : list A) t x b :
  l !! t = Some x → b ∈ f x → b ∈ concat (f <$> l).
Proof.
  revert t. induction l as [|y l IH]; intros [|t] Ht Hb; simplify_eq/=; apply elem_of_app; [by left|right; eauto].
Qed.

(** No duplicates in a concatenation: an item comes from one element. *)
Lemma concat_NoDup_unique {A B} (f : A → list B) (l : list A) t t' x x' b :
  NoDup (concat (f <$> l)) → l !! t = Some x → l !! t' = Some x' → b ∈ f x → b ∈ f x' → t = t'.
Proof.
  revert t t'. induction l as [|y l IH]; intros t t' Hnd Ht Ht' Hb Hb'; [done|].
  rewrite fmap_cons in Hnd. cbn [concat] in Hnd. apply NoDup_app in Hnd as (_ & Hdis & Hnd).
  destruct t as [|t], t' as [|t']; simplify_eq/=; [done| | |by f_equal; eapply IH];
    exfalso; eapply Hdis; [|by eapply elem_of_concat_fmap| |by eapply elem_of_concat_fmap]; done.
Qed.

(** Remove one occurrence. *)
Fixpoint take_out `{EqDecision A} (x : A) (l : list A) : option (list A) :=
  match l with
  | [] => None
  | y :: l' =>
      if decide (x = y) then Some l'
      else match take_out x l' with Some k => Some (y :: k) | None => None end
  end.

Lemma take_out_perm `{EqDecision A} (x : A) l k : take_out x l = Some k → l ≡ₚ x :: k.
Proof.
  revert k. induction l as [|y l IH]; intros k H; simpl in H; [done|].
  destruct (decide (x = y)) as [->|]; [by simplify_eq|].
  destruct (take_out x l) as [k'|]; [|done]. simplify_eq. by rewrite (IH k' eq_refl), Permutation_swap.
Qed.

(** Sums of integers. *)
Definition sumZ (l : list Z) : Z := foldr Z.add 0%Z l.

Lemma sumZ_insert (l : list Z) t x y :
  l !! t = Some x → sumZ (<[t := y]> l) = (sumZ l - x + y)%Z.
Proof.
  revert t. induction l as [|z l IH]; intros [|t] H; simplify_eq/=; [lia|].
  rewrite (IH t H). lia.
Qed.

Lemma sumZ_app l k : sumZ (l ++ k) = (sumZ l + sumZ k)%Z.
Proof. induction l as [|x l IH]; simpl; [done|]. unfold sumZ in *. simpl. lia. Qed.

#[export] Instance sumZ_perm : Proper ((≡ₚ) ==> (=)) sumZ.
Proof. induction 1; unfold sumZ in *; simpl; lia. Qed.

(** Sums of bounded numbers. *)
Section SumBounds.
Local Open Scope Z_scope.
Implicit Types (l : list Z) (k x : Z).

Lemma sumZ_cons x l : sumZ (x :: l) = x + sumZ l.
Proof. done. Qed.

Lemma sumZ_le l k : (∀ i x, l !! i = Some x → x <= k) → sumZ l <= k * Z.of_nat (length l).
Proof.
  induction l as [|x l IH]; intros H; [simpl; lia|]. rewrite sumZ_cons. cbn [length].
  specialize (IH (λ i, H (S i))). specialize (H 0%nat x eq_refl). lia.
Qed.

Lemma sumZ_lt l k i x :
  (∀ i x, l !! i = Some x → x <= k) → l !! i = Some x → x < k → sumZ l < k * Z.of_nat (length l).
Proof.
  revert i. induction l as [|y l IH]; intros i H Hi Hx; [done|]. rewrite sumZ_cons. cbn [length].
  pose proof (H 0%nat y eq_refl). destruct i as [|i].
  - injection Hi as ->. pose proof (sumZ_le l k (λ i, H (S i))). lia.
  - specialize (IH i (λ i, H (S i)) Hi Hx). lia.
Qed.

Lemma sumZ_nonneg l : Forall (λ x, 0 <= x) l → 0 <= sumZ l.
Proof. induction 1; [done|]. rewrite sumZ_cons. lia. Qed.

Lemma sumZ_elem l i x : Forall (λ x, 0 <= x) l → l !! i = Some x → 0 <= x <= sumZ l.
Proof.
  intros Hl. revert i. induction Hl as [|y l Hy Hl IH]; intros i Hi; [done|]. rewrite sumZ_cons.
  pose proof (sumZ_nonneg l Hl). destruct i as [|i]; [by injection Hi as ->; lia|]. specialize (IH i Hi). lia.
Qed.
End SumBounds.

(** The sum of the numbers from [1] to [n]. *)
Lemma sumZ_seqZ n : (0 <= n)%Z → (2 * sumZ (seqZ 1 n) = n * (n + 1))%Z.
Proof.
  intros Hn. pattern n. apply natlike_ind; [done| |done].
  intros m Hm IH. unfold Z.succ. rewrite seqZ_app, sumZ_app by lia. simpl. lia.
Qed.

(** If each of [m] items has an owner in [os] and no owner has two items,
    then there are at most as many items as owners. *)
Lemma pigeonhole_list {B} (os : list B) (m : nat) (P : nat → B → Prop) :
  (∀ k, (k < m)%nat → ∃ j, j ∈ os ∧ P k j) →
  (∀ k k' j, P k j → P k' j → k = k') → (m ≤ length os)%nat.
Proof.
  intros Hex Hinj.
  assert (∃ js : list B, length js = m ∧
    ∀ k j, js !! k = Some j → j ∈ os ∧ P k j) as (js & Hlen & Hjs).
  { clear Hinj. induction m as [|m IH]; [by exists []|].
    destruct IH as (js & Hl & Hjs); [intros; apply Hex; lia|].
    destruct (Hex m) as (j & ? & ?); [lia|]. exists (js ++ [j]).
    split; [rewrite length_app; simpl; lia|].
    intros k j' [[? _]|[-> <-]]%lookup_snoc_cases; [by apply Hjs|by rewrite Hl]. }
  rewrite <- Hlen. apply submseteq_length, NoDup_submseteq.
  - apply NoDup_alt. intros i j x Hi Hj. eapply Hinj; [apply (Hjs _ _ Hi)|apply (Hjs _ _ Hj)].
  - intros j [k Hk]%list_elem_of_lookup. apply (Hjs _ _ Hk).
Qed.

Lemma pigeonhole (n m : nat) (P : nat → nat → Prop) :
  (∀ k, (k < m)%nat → ∃ j, (j < n)%nat ∧ P k j) →
  (∀ k k' j, P k j → P k' j → k = k') → (m ≤ n)%nat.
Proof.
  intros Hex Hinj. rewrite <- (length_seq n 0). eapply pigeonhole_list; [|done].
  intros k (j & ? & ?)%Hex. exists j. split; [|done]. apply elem_of_seq. lia.
Qed.

#[export] Hint Resolve lookup_snoc_old lookup_snoc_new : astra.
#[export] Hint Rewrite @length_insert @length_app @length_replicate : astra.
