(* ===== verification/MachineInt.v ===== *)
(** * Integers at their C++ width

    The headers mix [int], [int64_t], [uint64_t] and [std::size_t].  An integer
    of width [w] is a [Z] in the range of its type; a conversion between the
    types is [uwrap]/[swrap] (C++20: two's complement, modular), and the
    arithmetic of unsigned types and of [std::atomic<int64_t>::fetch_add] is
    arithmetic on [Z] followed by the conversion. *)

From Stdlib Require Import ZArith Lia.
From S2P Require Import Prelude.
Local Open Scope Z_scope.

Definition uwrap (w x : Z) : Z := x mod 2 ^ w.
Definition swrap (w x : Z) : Z := (x + 2 ^ (w - 1)) mod 2 ^ w - 2 ^ (w - 1).

Abbreviation to_u64 := (uwrap 64).
Abbreviation to_i64 := (swrap 64).
Abbreviation to_u32 := (uwrap 32).
Abbreviation to_i32 := (swrap 32).

Definition INT_MAX : Z := 2 ^ 31 - 1.
Definition INT_MIN : Z := - 2 ^ 31.

(** The result of a signed [int] computation: out of range is undefined. *)
Definition int_op (x : Z) : option Z :=
  if (INT_MIN <=? x) && (x <=? INT_MAX) then Some x else None.

Section Wrap.
Context (w : Z) (Hw : 0 < w).

Lemma pow_pos : 0 < 2 ^ w.
Proof. apply Z.pow_pos_nonneg; lia. Qed.

Lemma pow_half : 2 ^ w = 2 * 2 ^ (w - 1).
Proof. replace w with (Z.succ (w - 1)) at 1 by lia. apply Z.pow_succ_r. lia. Qed.

Lemma uwrap_range x : 0 <= uwrap w x < 2 ^ w.
Proof. apply Z.mod_pos_bound, pow_pos. Qed.

Lemma swrap_range x : - 2 ^ (w - 1) <= swrap w x < 2 ^ (w - 1).
Proof.
  unfold swrap. pose proof (Z.mod_pos_bound (x + 2 ^ (w - 1)) (2 ^ w) pow_pos).
  pose proof pow_half. lia.
Qed.

Lemma uwrap_small x : 0 <= x < 2 ^ w → uwrap w x = x.
Proof. apply Z.mod_small. Qed.

Lemma swrap_small x : - 2 ^ (w - 1) <= x < 2 ^ (w - 1) → swrap w x = x.
Proof.
  intros H. unfold swrap. rewrite Z.mod_small; [lia|]. pose proof pow_half. lia.
Qed.

(** Both wraps only depend on, and only keep, the residue modulo [2^w]. *)
Lemma uwrap_add_mul x k : uwrap w (x + k * 2 ^ w) = uwrap w x.
Proof. unfold uwrap. apply Z.mod_add. pose proof pow_pos. lia. Qed.

Lemma uwrap_cong x : ∃ k, uwrap w x = x + k * 2 ^ w.
Proof.
  exists (- (x / 2 ^ w)). unfold uwrap. rewrite Z.mod_eq; [lia|].
  pose proof pow_pos. lia.
Qed.

Lemma swrap_cong x : ∃ k, swrap w x = x + k * 2 ^ w.
Proof.
  exists (- ((x + 2 ^ (w - 1)) / 2 ^ w)). unfold swrap. rewrite Z.mod_eq; [lia|].
  pose proof pow_pos. lia.
Qed.

Lemma uwrap_eq_cong x y k : x = y + k * 2 ^ w → uwrap w x = uwrap w y.
Proof. intros ->. apply uwrap_add_mul. Qed.

Lemma swrap_eq_cong x y k : x = y + k * 2 ^ w → swrap w x = swrap w y.
Proof.
  intros ->. unfold swrap. f_equal.
  replace (y + k * 2 ^ w + 2 ^ (w - 1)) with (y + 2 ^ (w - 1) + k * 2 ^ w) by lia.
  apply Z.mod_add. pose proof pow_pos. lia.
Qed.

Lemma uwrap_uwrap x : uwrap w (uwrap w x) = uwrap w x.
Proof. destruct (uwrap_cong x) as [k E]. by apply (uwrap_eq_cong _ _ k). Qed.

Lemma uwrap_swrap x : uwrap w (swrap w x) = uwrap w x.
Proof. destruct (swrap_cong x) as [k E]. by apply (uwrap_eq_cong _ _ k). Qed.

Lemma swrap_uwrap x : swrap w (uwrap w x) = swrap w x.
Proof. destruct (uwrap_cong x) as [k E]. by apply (swrap_eq_cong _ _ k). Qed.

Lemma swrap_swrap x : swrap w (swrap w x) = swrap w x.
Proof. destruct (swrap_cong x) as [k E]. by apply (swrap_eq_cong _ _ k). Qed.

Lemma uwrap_add_l x y : uwrap w (uwrap w x + y) = uwrap w (x + y).
Proof. destruct (uwrap_cong x) as [k E]. apply (uwrap_eq_cong _ _ k). lia. Qed.

Lemma swrap_swrap_add x y : swrap w (swrap w x + y) = swrap w (x + y).
Proof. destruct (swrap_cong x) as [k E]. apply (swrap_eq_cong _ _ k). lia. Qed.

Lemma swrap_uwrap_add x y : swrap w (uwrap w x + y) = swrap w (x + y).
Proof. destruct (uwrap_cong x) as [k E]. apply (swrap_eq_cong _ _ k). lia. Qed.

(** Equal residues of integers less than [2^w] apart are equal integers. *)
Lemma uwrap_inj x y : Z.abs (x - y) < 2 ^ w → uwrap w x = uwrap w y → x = y.
Proof.
  intros Hd He. destruct (uwrap_cong x) as [k Hk], (uwrap_cong y) as [k' Hk'].
  pose proof pow_pos as Hp. set (m := 2 ^ w) in *.
  destruct (Z.lt_trichotomy k k') as [|[]]; nia.
Qed.

Lemma swrap_eqb x y :
  Z.abs (x - y) < 2 ^ w → (swrap w x =? swrap w y) = (x =? y).
Proof.
  intros Hd. destruct (Z.eqb_spec x y) as [->|Hne]; [by rewrite Z.eqb_refl|].
  apply Z.eqb_neq. contradict Hne. apply uwrap_inj; [done|].
  by rewrite <- (uwrap_swrap x), <- (uwrap_swrap y), Hne.
Qed.

Lemma uwrap_eqb x y :
  Z.abs (x - y) < 2 ^ w → (uwrap w x =? uwrap w y) = (x =? y).
Proof.
  intros Hd. destruct (Z.eqb_spec x y) as [->|Hne]; [by rewrite Z.eqb_refl|].
  apply Z.eqb_neq. contradict Hne. by apply uwrap_inj.
Qed.
End Wrap.

(** Masking with a power of two minus one is the remainder. *)
Lemma land_pow2_mask x k : 0 <= k → Z.land x (2 ^ k - 1) = x mod 2 ^ k.
Proof.
  intros Hk. rewrite <- Z.land_ones by lia. by rewrite Z.ones_equiv, Z.sub_1_r.
Qed.

Lemma uwrap_mod_pow2 w k x : 0 <= k <= w → uwrap w x mod 2 ^ k = x mod 2 ^ k.
Proof.
  intros Hk. unfold uwrap.
  replace (2 ^ w) with (2 ^ k * 2 ^ (w - k)) by (rewrite <- Z.pow_add_r; [f_equal; lia|lia|lia]).
  rewrite Z.rem_mul_r by (try apply Z.pow_nonzero; try apply Z.pow_pos_nonneg; lia).
  rewrite (Z.mul_comm (2 ^ k)), Z.mod_add by (apply Z.pow_nonzero; lia).
  apply Z.mod_mod, Z.pow_nonzero; lia.
Qed.
