(* ===== verification/Decimal.v ===== *)
(** * Decimal text

    How the program's numbers are printed ([operator<<] of an integer) and read
    ([strtoull] with base 10, and the [%u] of [fscanf]), over lists of
    characters. *)

From Stdlib Require Import ZArith Lia Ascii String.
From S2P Require Import Prelude MachineInt.
Local Open Scope Z_scope.

Abbreviation text := (list ascii).
Abbreviation str := list_ascii_of_string.

(** ** Printing *)

Definition digit (d : Z) : ascii := ascii_of_nat (Z.to_nat (48 + d)).

Fixpoint show_digits (fuel : nat) (n : Z) : text :=
  if n <? 10 then [digit n]
  else match fuel with O => [] | S f => show_digits f (n / 10) ++ [digit (n mod 10)] end.

(** A number has at most as many decimal as binary digits. *)
Definition show (n : Z) : text :=
  if n <? 0 then str "-" ++ show_digits (Z.to_nat (Z.log2 (- n))) (- n)
  else show_digits (Z.to_nat (Z.log2 n)) n.

Definition digit_value (c : ascii) : Z := Z.of_nat (nat_of_ascii c) - 48.
Definition is_digit (c : ascii) : bool := (0 <=? digit_value c) && (digit_value c <? 10).
Definition parse (l : text) : Z := foldl (λ a c, 10 * a + digit_value c) 0 l.

(** ** Reading *)

Definition is_space (c : ascii) : bool :=
  let n := nat_of_ascii c in ((9 <=? n) && (n <=? 13) || (n =? 32))%nat.

Fixpoint skip_space (l : text) : text :=
  match l with c :: l' => if is_space c then skip_space l' else l | [] => [] end.

(** The longest prefix of digits. *)
Fixpoint digits_prefix (l : text) : text :=
  match l with c :: l' => if is_digit c then c :: digits_prefix l' else [] | [] => [] end.

(** White space, an optional sign, digits: the sign and the magnitude. *)
Definition scan (l : text) : option (bool * Z) :=
  let l := skip_space l in
  let '(neg, l) := match l with
                   | "-"%char :: l' => (true, l')
                   | "+"%char :: l' => (false, l')
                   | _ => (false, l)
                   end in
  match digits_prefix l with [] => None | ds => Some (neg, parse ds) end.

(** Out of range gives [ULLONG_MAX]; a minus sign negates modulo 2^64. *)
Definition strtoull (l : text) : Z :=
  match scan l with
  | Some (neg, v) => if 2 ^ 64 <=? v then 2 ^ 64 - 1 else if neg then to_u64 (- v) else v
  | None => 0
  end.

(** The conversion [%u]. *)
Definition scan_u (l : text) : option Z :=
  match scan l with Some (neg, v) => Some (to_u32 (if neg then - v else v)) | None => None end.

(** ** Round trips *)

Lemma digit_value_digit d : 0 <= d < 10 → digit_value (digit d) = d.
Proof. intros H. unfold digit_value, digit. rewrite nat_ascii_embedding; lia. Qed.

Lemma is_digit_digit d : 0 <= d < 10 → is_digit (digit d) = true.
Proof. intros H. unfold is_digit. rewrite digit_value_digit by done. lia. Qed.

Lemma parse_snoc l c : parse (l ++ [c]) = 10 * parse l + digit_value c.
Proof. unfold parse. by rewrite foldl_app. Qed.

(** [show_digits] prints digits that read back as the number; [k] digits are
    enough below [10^k]. *)
Lemma show_digits_spec fuel n :
  0 <= n < 10 ^ (Z.of_nat fuel + 1) →
  parse (show_digits fuel n) = n ∧ forallb is_digit (show_digits fuel n) = true ∧
  ∀ k, 0 < k → n < 10 ^ k → Z.of_nat (length (show_digits fuel n)) <= k.
Proof.
  revert n. induction fuel as [|f IH]; intros n Hn; simpl; destruct (Z.ltb_spec n 10).
  2: { change (10 ^ (Z.of_nat 0 + 1)) with 10 in Hn. lia. }
  1, 2: (split; [unfold parse; cbn [foldl]; rewrite digit_value_digit; lia|]);
    cbn [forallb length]; rewrite is_digit_digit by lia; split; [done|lia].
  destruct (IH (n / 10)) as (Hp & Hd & Hl).
  { split; [apply Z.div_pos; lia|]. apply Z.div_lt_upper_bound; [lia|].
    replace (Z.of_nat (S f) + 1) with (Z.succ (Z.of_nat f + 1)) in Hn by lia.
    rewrite Z.pow_succ_r in Hn; lia. }
  pose proof (Z.mod_pos_bound n 10 ltac:(lia)). pose proof (Z.div_mod n 10 ltac:(lia)).
  split_and!.
  - rewrite parse_snoc, Hp, digit_value_digit by lia. lia.
  - rewrite forallb_app, Hd. simpl. by rewrite is_digit_digit.
  - intros k Hk Hnk. rewrite length_app. simpl.
    assert (k ≠ 1) by (intros ->; change (10 ^ 1) with 10 in Hnk; lia).
    enough (Z.of_nat (length (show_digits f (n / 10))) <= k - 1) by lia.
    apply Hl; [lia|]. apply Z.div_lt_upper_bound; [lia|].
    replace k with (Z.succ (k - 1)) in Hnk by lia. rewrite Z.pow_succ_r in Hnk; lia.
Qed.

Lemma log2_fuel n : 0 <= n → n < 10 ^ (Z.of_nat (Z.to_nat (Z.log2 n)) + 1).
Proof.
  intros Hn. pose proof (Z.log2_nonneg n). rewrite Z2Nat.id by done.
  destruct (Z.eq_dec n 0) as [->|]; [done|]. destruct (Z.log2_spec n ltac:(lia)) as [_ Hlt].
  eapply Z.lt_le_trans; [exact Hlt|]. apply Z.pow_le_mono_l. lia.
Qed.

Lemma show_nonneg n :
  0 <= n → parse (show n) = n ∧ forallb is_digit (show n) = true ∧
  ∀ k, 0 < k → n < 10 ^ k → Z.of_nat (length (show n)) <= k.
Proof.
  intros Hn. unfold show. destruct (Z.ltb_spec n 0); [lia|].
  apply show_digits_spec. split; [done|]. by apply log2_fuel.
Qed.

Lemma parse_zeros k l : parse (replicate k "0"%char ++ l) = parse l.
Proof. unfold parse. rewrite foldl_app. f_equal. by induction k. Qed.

Lemma is_digit_not_space c : is_digit c = true → is_space c = false ∧ c ≠ "-"%char ∧ c ≠ "+"%char.
Proof.
  unfold is_digit, digit_value, is_space. intros H. apply andb_true_iff in H as [H1 H2].
  split; [|split; intros ->; vm_compute in H1; done].
  apply orb_false_iff. split; [apply andb_false_iff; right|]; apply Nat.leb_gt || apply Nat.eqb_neq; lia.
Qed.

Lemma digits_prefix_app l k :
  forallb is_digit l = true → match k with c :: _ => is_digit c = false | [] => True end →
  digits_prefix (l ++ k) = l.
Proof.
  intros Hl Hk. induction l as [|c l IH]; simpl in *.
  - destruct k; [done|]. simpl. by rewrite Hk.
  - apply andb_true_iff in Hl as [-> Hl]. by rewrite IH.
Qed.

Lemma show_nonempty n : 0 <= n → show n ≠ [].
Proof.
  intros Hn. unfold show. destruct (Z.ltb_spec n 0); [lia|].
  destruct (Z.to_nat (Z.log2 n)) as [|f] eqn:E; simpl; destruct (Z.ltb_spec n 10); try done.
  - pose proof (log2_fuel n Hn) as H'. rewrite E in H'. simpl in H'. lia.
  - by destruct (show_digits f (n / 10)).
Qed.

(** Reading what was printed, whatever follows the digits. *)
Lemma scan_show n k :
  0 <= n → match k with c :: _ => is_digit c = false | [] => True end →
  scan (show n ++ k) = Some (false, n).
Proof.
  intros Hn Hk. destruct (show_nonneg n Hn) as (Hp & Hd & _). pose proof (show_nonempty n Hn) as Hne.
  pose proof (digits_prefix_app _ _ Hd Hk) as Hpre. unfold scan.
  destruct (show n) as [|c l] eqn:E; [done|]. simpl in Hd. apply andb_true_iff in Hd as [Hc _].
  destruct (is_digit_not_space c Hc) as (Hs & Hm & Hpl). simpl app in *. cbn [skip_space]. rewrite Hs.
  replace (match c :: l ++ k with "-"%char :: l' => (true, l') | "+"%char :: l' => (false, l') | _ => (false, c :: l ++ k) end)
    with (false, c :: l ++ k).
  2: { destruct c as [[] [] [] [] [] [] [] []]; try done; by destruct Hm || by destruct Hpl. }
  rewrite Hpre. by rewrite Hp.
Qed.

Lemma strtoull_show n k :
  0 <= n < 2 ^ 64 → match k with c :: _ => is_digit c = false | [] => True end →
  strtoull (show n ++ k) = n.
Proof. intros Hn Hk. unfold strtoull. rewrite scan_show by (done || lia). by destruct (Z.leb_spec (2 ^ 64) n); [lia|]. Qed.

Lemma scan_u_show n k :
  0 <= n < 2 ^ 32 → match k with c :: _ => is_digit c = false | [] => True end →
  scan_u (show n ++ k) = Some n.
Proof. intros Hn Hk. unfold scan_u. rewrite scan_show by (done || lia). by rewrite uwrap_small. Qed.

Lemma strtoull_range l : 0 <= strtoull l < 2 ^ 64.
Proof.
  unfold strtoull. destruct (scan l) as [[neg v]|] eqn:E; [|done].
  destruct (Z.leb_spec (2 ^ 64) v); [done|]. destruct neg; [apply uwrap_range; lia|].
  split; [|done]. unfold scan in E. destruct (match skip_space l with [] => _ | _ => _ end) as [neg l'].
  assert (∀ ds a, 0 <= a → forallb is_digit ds = true → 0 <= foldl (λ a c, 10 * a + digit_value c) a ds) as Hp.
  { induction ds as [|c ds IH]; intros a Ha Hd; simpl in *; [done|]. apply andb_true_iff in Hd as [Hc Hd].
    apply IH; [|done]. unfold is_digit in Hc. lia. }
  assert (forallb is_digit (digits_prefix l') = true) as Hd.
  { clear. induction l' as [|c l' IH]; [done|]. simpl. destruct (is_digit c) eqn:Hc; [|done]. simpl. by rewrite Hc. }
  destruct (digits_prefix l') as [|c ds] eqn:Eds; [done|]. injection E as _ <-. by apply Hp.
Qed.
