(* ===== verification/Lts.v ===== *)
(** * Executions of concurrent code

    Every component is a [machine]: a state, and an executable partial function
    that performs one action of one thread (a call, or one atomic step of the
    code).  A schedule is a list of actions, so an interleaving of threads is a
    list that a witness can evaluate.  [None] means that the action is not
    enabled or is undefined behaviour in C++; progress theorems say which
    actions of reachable states are not [None].

    A [spec] is an abstract labelled transition system; [simulates] is the
    forward simulation that gives inclusion of observable traces. *)

From S2P Require Import Prelude.

Record machine := Machine {
  m_state : Type;
  m_act : Type;
  m_exec : m_state → m_act → option m_state;
}.

Section Executions.
Context (M : machine) (I : m_state M → Prop).
Implicit Types (s : m_state M) (a : m_act M) (σ : list (m_act M)).

(** Run a schedule. *)
Fixpoint run s σ : option (m_state M) :=
  match σ with
  | [] => Some s
  | a :: σ' => match m_exec M s a with Some s' => run s' σ' | None => None end
  end.

Inductive reachable : m_state M → Prop :=
| reach_init s : I s → reachable s
| reach_step s a s' : reachable s → m_exec M s a = Some s' → reachable s'.

Lemma run_app s σ1 σ2 :
  run s (σ1 ++ σ2) = match run s σ1 with Some s' => run s' σ2 | None => None end.
Proof. revert s. induction σ1 as [|a σ1 IH]; intros s; simpl; [done|]. by destruct (m_exec M s a). Qed.

Lemma run_reachable s σ s' : reachable s → run s σ = Some s' → reachable s'.
Proof.
  revert s. induction σ as [|a σ IH]; intros s Hs Hr; simpl in Hr; simplify_eq; [done|].
  destruct (m_exec M s a) as [s1|] eqn:E; [|done].
  apply (IH s1); [|done]. by apply reach_step with s a.
Qed.

Lemma reachable_run s : reachable s → ∃ s0 σ, I s0 ∧ run s0 σ = Some s.
Proof.
  induction 1 as [s Hs|s a s' _ (s0 & σ & H0 & Hr) He].
  - by exists s, [].
  - exists s0, (σ ++ [a]). split; [done|]. rewrite run_app, Hr. simpl. by rewrite He.
Qed.

(** Whether a schedule can be run, as a boolean that evaluates. *)
Definition runs s σ : bool := match run s σ with Some _ => true | None => false end.

Lemma run_default s σ d : runs s σ = true → run s σ = Some (default d (run s σ)).
Proof. unfold runs. by destruct (run s σ). Qed.

(** Invariants by rule induction. *)
Lemma invariant (P : m_state M → Prop) :
  (∀ s, I s → P s) →
  (∀ s a s', reachable s → P s → m_exec M s a = Some s' → P s') →
  ∀ s, reachable s → P s.
Proof. intros Hi Hs s. induction 1; eauto. Qed.

(** Termination of a fair schedule: if from every state that satisfies [P] and
    is not [done] some action decreases a measure, then [done] is reached within
    as many steps as the measure says. *)
Lemma measure_completes (P done : m_state M → Prop) (w : m_state M → nat) :
  (∀ s a s', P s → m_exec M s a = Some s' → P s') →
  (∀ s, P s → done s ∨ ∃ a s', m_exec M s a = Some s' ∧ w s' < w s) →
  ∀ s, P s → ∃ σ s', run s σ = Some s' ∧ length σ ≤ w s ∧ done s'.
Proof.
  intros Hstep Hmove s Hs. remember (w s) as k eqn:Hk. revert s Hk Hs.
  induction k as [k IH] using lt_wf_ind. intros s Hk Hs.
  destruct (Hmove s Hs) as [Hd|(a & s1 & He & Hlt)]; [exists [], s; split_and!; [done|simpl; lia|done]|].
  destruct (IH (w s1) ltac:(lia) s1 eq_refl) as (σ & s' & Hr & Hl & Hd); [by eapply Hstep|].
  exists (a :: σ), s'. simpl. rewrite He. split_and!; [done|lia|done].
Qed.
End Executions.

Arguments run {M} _ _.
Arguments runs {M} _ _.
Arguments run_default {M} _ _ _ _.
Arguments reachable {M} _ _.
Arguments invariant {M} _ _ _ _ _.

(** ** Abstract specifications and simulation *)

Record spec := Spec {
  sp_state : Type;
  sp_event : Type;
  sp_step : sp_state → list sp_event → sp_state → Prop;
}.

Section Simulation.
Context (S : spec).

(** [sp_run q τ q']: from [q] the specification can reach [q'] showing
    exactly the events [τ]; a step that shows [[]] is internal. *)
Inductive sp_run : sp_state S → list (sp_event S) → sp_state S → Prop :=
| sp_nil q : sp_run q [] q
| sp_cons q e q1 τ q' : sp_step S q e q1 → sp_run q1 τ q' → sp_run q (e ++ τ) q'.

Lemma sp_one q e q' : sp_step S q e q' → sp_run q e q'.
Proof. intros H. rewrite <- (app_nil_r e). econstructor; [done|constructor]. Qed.

Lemma sp_trans q τ q1 τ' q2 : sp_run q τ q1 → sp_run q1 τ' q2 → sp_run q (τ ++ τ') q2.
Proof.
  induction 1 as [|q e q1' τ q3 Hs _ IH]; intros H2; simpl; [done|].
  rewrite <- app_assoc. econstructor; eauto.
Qed.

Context (M : machine) (obs : m_state M → m_act M → list (sp_event S)).

(** The observable trace of a schedule. *)
Fixpoint run_obs (s : m_state M) (σ : list (m_act M)) : list (sp_event S) :=
  match σ with
  | [] => []
  | a :: σ' =>
      obs s a ++ match m_exec M s a with Some s' => run_obs s' σ' | None => [] end
  end.

(** A forward simulation: every action is matched by specification steps
    that show the same events. *)
Definition simulates (R : m_state M → sp_state S → Prop) : Prop :=
  ∀ s a s' q, R s q → m_exec M s a = Some s' →
    ∃ q', sp_run q (obs s a) q' ∧ R s' q'.

Lemma simulates_run R s σ s' q :
  simulates R → R s q → run s σ = Some s' →
  ∃ q', sp_run q (run_obs s σ) q' ∧ R s' q'.
Proof.
  intros Hsim. revert s q. induction σ as [|a σ IH]; intros s q HR Hr; simpl in *; simplify_eq.
  - exists q. split; [constructor|done].
  - destruct (m_exec M s a) as [s1|] eqn:E; [|done].
    destruct (Hsim s a s1 q HR E) as (q1 & H1 & HR1).
    destruct (IH s1 q1 HR1 Hr) as (q2 & H2 & HR2).
    exists q2. split; [by eapply sp_trans|done].
Qed.
End Simulation.

Arguments sp_run {S} _ _ _.
Arguments simulates {S M} _ _.
Arguments run_obs {S M} _ _ _.
