(* ===== verification/Adapter.v ===== *)
(** * What the measurements ask of a queue

    [src/bench/QueueComparisonBench.cpp] and
    [src/bench/IndexPoolComparisonBench.cpp] wrap every competitor in an adapter
    with a blocking [push(v)] and a blocking [pop()] ([put] and [get] for a pool)
    and are templates over it.  [Adapter] is the interface of these templates: the
    calls, the steps inside them and the returns.  [Conserves] is what the
    accounting checks rely on (no value is lost, duplicated or made up, in any
    order), [Progresses] what their termination relies on.  [RingAdapter.v],
    [SpscAdapter.v], [MonitorAdapter.v] and [LibAdapter.v] provide the
    implementations. *)

From Stdlib Require Import ZArith Lia.
From S2P Require Import Prelude MachineInt Lts.
Local Open Scope Z_scope.

(** Where a thread is: not using the queue, inside a call, about to return. *)
Inductive phase := Outside | Pushing | Pushed | Popping | Popped (v : Z).

Definition busy (p : phase) : bool := match p with Pushing | Popping => true | _ => false end.
Definition returns (p : phase) : bool := match p with Pushed | Popped _ => true | _ => false end.
(** What a return hands to the caller. *)
Definition handed (p : phase) : list Z := match p with Popped v => [v] | _ => [] end.
(** A step inside a call stays in the call. *)
Definition goes_on (p p' : phase) : bool :=
  match p, p' with Pushing, (Pushing | Pushed) | Popping, (Popping | Popped _) => true | _, _ => false end.

(** [ad_run q t a] is a step of thread [t] inside its call; [a] is what the
    queue leaves open. *)
Class Adapter (Q : Type) := {
  ad_choice : Type;
  ad_push : Q → nat → Z → option Q;
  ad_pop : Q → nat → option Q;
  ad_run : Q → nat → ad_choice → option Q;
  ad_ret : Q → nat → option Q;
  ad_thr : Q → list phase;
}.
Arguments ad_choice Q {_}.

(** Which threads push and which pop. *)
Record roles := mkRoles { pushes : nat → bool; pops : nat → bool }.

(** [ad_flow q held total]: the values in the queue, those of the calls in
    progress and those [held] by the callers are together exactly [total]. *)
Class Conserves (Q : Type) `{!Adapter Q} (n : nat) (R : roles) := {
  ad_flow : Q → list Z → list Z → Prop;

  ad_flow_perm q held held' total total' :
    held ≡ₚ held' → total ≡ₚ total' → ad_flow q held total → ad_flow q held' total';
  ad_flow_held q held total : ad_flow q held total → ∃ rest, rest ++ held ≡ₚ total;
  ad_flow_threads q held total : ad_flow q held total → length (ad_thr q) = n;

  (** A value that is pushed comes from the caller's holdings or is new. *)
  ad_flow_push q t v q' held held' total total' :
    ad_flow q held total → pushes R t = true → ad_push q t v = Some q' →
    (∀ rest, rest ++ held ≡ₚ total → v :: rest ++ held' ≡ₚ total') → ad_flow q' held' total';
  ad_flow_pop q t q' held total :
    ad_flow q held total → pops R t = true → ad_pop q t = Some q' → ad_flow q' held total;
  ad_flow_run q t a q' held total : ad_flow q held total → ad_run q t a = Some q' → ad_flow q' held total;
  ad_flow_ret q t p q' held total :
    ad_flow q held total → ad_thr q !! t = Some p → ad_ret q t = Some q' → ad_flow q' (handed p ++ held) total;

  (** The threads. *)
  push_thr q t v q' : ad_push q t v = Some q' → ad_thr q' = <[t := Pushing]> (ad_thr q);
  pop_thr q t q' : ad_pop q t = Some q' → ad_thr q' = <[t := Popping]> (ad_thr q);
  run_thr q t a p q' held total : ad_flow q held total → ad_run q t a = Some q' → ad_thr q !! t = Some p →
    ∃ p', ad_thr q' = <[t := p']> (ad_thr q) ∧ goes_on p p' = true;
  ret_thr q t q' : ad_ret q t = Some q' → ad_thr q' = <[t := Outside]> (ad_thr q);

  (** A call can be made, and a finished one returns. *)
  can_push q t v held total :
    ad_flow q held total → pushes R t = true → ad_thr q !! t = Some Outside → is_Some (ad_push q t v);
  can_pop q t held total :
    ad_flow q held total → pops R t = true → ad_thr q !! t = Some Outside → is_Some (ad_pop q t);
  can_ret q t p held total :
    ad_flow q held total → ad_thr q !! t = Some p → returns p = true → is_Some (ad_ret q t);
}.

(** Nobody inside can go on: all wait for a value and there is none, or all wait
    for room and more than [cap] values are in the queue or on the way in. *)
Definition stuck (cap : Z) (thr : list phase) (held total : list Z) : Prop :=
  ∀ t p, thr !! t = Some p → busy p = true →
    (p = Popping ∧ held ≡ₚ total ∧ ∀ t' p', thr !! t' = Some p' → busy p' = true → p' = Popping) ∨
    (p = Pushing ∧ cap + Z.of_nat (length held) < Z.of_nat (length total) ∧
       ∀ t' p', thr !! t' = Some p' → busy p' = true → p' = Pushing).

(** [cap] is the room for values that pushes can rely on; a call adds at most
    [cost] to the work. *)
Class Progresses (Q : Type) `{!Adapter Q} (n : nat) (R : roles) `{!Conserves Q n R} (cap : Z) := {
  ad_work : Q → nat;
  cost : nat;
  cap_nonneg : 0 <= cap;
  push_work q t v q' : ad_push q t v = Some q' → (ad_work q' <= ad_work q + cost)%nat;
  pop_work q t q' : ad_pop q t = Some q' → (ad_work q' <= ad_work q + cost)%nat;
  ret_work q t q' : ad_ret q t = Some q' → (ad_work q' <= ad_work q)%nat;
  moves q held total :
    ad_flow q held total → (∀ t p, ad_thr q !! t = Some p → returns p = false) →
    (∃ t p a q', ad_thr q !! t = Some p ∧ busy p = true ∧ ad_run q t a = Some q' ∧ (ad_work q' < ad_work q)%nat) ∨
    stuck cap (ad_thr q) held total;
}.

Section Facts.
Context {Q : Type} `{!Adapter Q} (n : nat) (R : roles) `{!Conserves Q n R}.

Lemma ad_flow_thread q held total t p : ad_flow q held total → ad_thr q !! t = Some p → (t < n)%nat.
Proof. intros Hf Hp. rewrite <- (ad_flow_threads q held total Hf). by eapply lookup_lt_Some. Qed.

#[global] Instance ad_flow_proper q : Proper ((≡ₚ) ==> (≡ₚ) ==> iff) (ad_flow q).
Proof. intros h h' Hh t t' Ht. split; by apply ad_flow_perm. Qed.

(** A client that is not [finished] and not waiting inside the queue, or none. *)
Lemma outside_or_busy {B} (finished : B → bool) (thr : list B) (qthr : list phase) :
  (∀ t p, thr !! t = Some p → ∃ r, qthr !! t = Some r) →
  (∃ t p r, thr !! t = Some p ∧ finished p = false ∧ qthr !! t = Some r ∧ busy r = false) ∨
  (∀ t p r, thr !! t = Some p → qthr !! t = Some r → finished p = false → busy r = true).
Proof.
  revert qthr. induction thr as [|p thr IH]; intros rs H; [by right|].
  destruct (H 0%nat p eq_refl) as [r Hr]. destruct rs as [|r' rs]; [done|]. injection Hr as ->.
  destruct (finished p) eqn:Hf.
  2: destruct (busy r) eqn:Ha; [|left; by exists 0%nat, p, r].
  all: destruct (IH rs (λ t, H (S t))) as [(t & p' & r' & ?)|Hall]; [left; by exists (S t), p', r'|right].
  all: intros [|t] q x Hq Hx; simpl in Hq, Hx; [|by eapply Hall]; intros; congruence.
Qed.
End Facts.

(** Every thread may do everything; one producer and one consumer. *)
Definition mpmc : roles := mkRoles (λ _, true) (λ _, true).
Definition one_to_one (producer consumer : nat) : roles := mkRoles (Nat.eqb producer) (Nat.eqb consumer).
(** The threads of [throughput]: [P] producers, then consumers. *)
Definition split_roles (P : nat) : roles := mkRoles (λ t, t <? P)%nat (λ t, P <=? t)%nat.

Lemma split_pushes P t : pushes (split_roles P) t = true ↔ (t < P)%nat.
Proof. apply Nat.ltb_lt. Qed.

Lemma split_pops P t : pops (split_roles P) t = true ↔ (P <= t)%nat.
Proof. apply Nat.leb_le. Qed.

(** [fresh] describes a queue that nobody uses yet and that holds [vals]. *)
Definition starts_with {Q} `{!Adapter Q} {n R} `{!Conserves Q n R} (fresh : Q → Prop) (vals : list Z) : Prop :=
  ∀ q, fresh q → ad_flow q [] vals ∧ ad_thr q = replicate n Outside.
