(* ===== verification/AtomicRingBuffer.v ===== *)
(** * AtomicRingBuffer: the code

    Model of [src/include/AstraLib/Buffers/atomicRingBuffer.hpp].  *)

From Stdlib Require Import ZArith Lia.
From S2P Require Import Prelude MachineInt Lts.
Local Open Scope Z_scope.
Local Open Scope astra_scope.

(** ** Template parameters and element type *)

(** The static assertions on [SIZE]. *)
Definition valid_size (SIZE : Z) : bool :=
  (negb (SIZE =? 0) && (Z.land SIZE (SIZE - 1) =? 0)) && (2 <=? SIZE).

(** The arithmetic of tickets and sequence numbers: the conversions to [uint64_t]
    (tickets), [int64_t] (sequence numbers and the two counters) and [int] (an index),
    and the value of a counter in a comparison.  [machine_arith] is the one of the
    source.  [ideal_arith] has no wrap-around at all.  [ticket_arith], which the proofs
    use, has unbounded tickets too, but compares counters as [int64_t] values, so that
    it answers [isEmpty] as the source does; [ring_wraparound_harmless] relates all
    three. *)
Record arith := Arith {
  u64 : Z → Z;
  i64 : Z → Z;
  i32 : Z → Z;
  cmp : Z → Z;
}.

Definition machine_arith : arith := Arith to_u64 to_i64 to_i32 (λ x, x).
Definition ideal_arith : arith := Arith (λ x, x) (λ x, x) (λ x, x) (λ x, x).
Definition ticket_arith : arith := Arith (λ x, x) (λ x, x) (λ x, x) to_i64.

(** The element type: the state a moved-from value is left in, and whether
    the destructor is trivial ([std::is_trivially_destructible_v<A>]). *)
Class Elem (A : Type) := {
  moved_from : A → A;
  trivially_destructible : bool;
}.

Section Code.
Context {A : Type} `{!Elem A}.
Context (ar : arith) (SIZE BATCH_SIZE : Z).

(** [data = None]: the slot holds no live object (between the destructor
    call and the placement new of [emplaceEnqueue]). *)
Record Slot := mkSlot { seq : Z; data : option A }.

Record ring := mkRing {
  batchDequeueArray : list A;
  buffer : list Slot;
  writeTicket : Z;
  readTicket : Z;
}.

(** Accesses to [buffer[index]]: out of bounds is undefined behaviour. *)
Definition get_slot (r : ring) (index : Z) : option Slot :=
  if index <? 0 then None else buffer r !! Z.to_nat index.

Definition set_slot (r : ring) (index : Z) (s : Slot) : ring :=
  mkRing (batchDequeueArray r) (<[Z.to_nat index := s]> (buffer r))
         (writeTicket r) (readTicket r).

Definition seq_load (r : ring) (index : Z) : option Z :=
  let? s := get_slot r index in Some (seq s).

Definition seq_store (r : ring) (index v : Z) : option ring :=
  let? s := get_slot r index in Some (set_slot r index (mkSlot (i64 ar v) (data s))).

(** [writeTicket.value.fetch_add(1)] and the same on [readTicket]: the old
    value, converted to the [uint64_t ticket]. *)
Definition fetch_add_write (r : ring) : Z * ring :=
  (u64 ar (writeTicket r),
   mkRing (batchDequeueArray r) (buffer r) (i64 ar (writeTicket r + 1)) (readTicket r)).

Definition fetch_add_read (r : ring) : Z * ring :=
  (u64 ar (readTicket r),
   mkRing (batchDequeueArray r) (buffer r) (writeTicket r) (i64 ar (readTicket r + 1))).

(** [int index = ticket & (SIZE - 1)] *)
Definition slot_index (ticket : Z) : Z := i32 ar (Z.land ticket (SIZE - 1)).

(** The two comparisons promote the [int64_t] sequence number to
    [uint64_t]; [ticket + 1] is [uint64_t] arithmetic. *)
Definition writable (s ticket : Z) : bool := u64 ar s =? ticket.
Definition readable (s ticket : Z) : bool := u64 ar s =? u64 ar (ticket + 1).

(** [buffer[index].data = v]: needs a live object. *)
Definition data_assign (r : ring) (index : Z) (v : A) : option ring :=
  let? s := get_slot r index in
  match data s with
  | Some _ => Some (set_slot r index (mkSlot (seq s) (Some v)))
  | None => None
  end.

(** [buffer[index].data.~A()]: needs a live object, leaves none. *)
Definition data_destroy (r : ring) (index : Z) : option ring :=
  let? s := get_slot r index in
  match data s with
  | Some _ => Some (set_slot r index (mkSlot (seq s) None))
  | None => None
  end.

(** [new (&buffer[index].data) A(...)]: over a live object this is only
    allowed when the destructor is trivial. *)
Definition data_construct (r : ring) (index : Z) (v : A) : option ring :=
  let? s := get_slot r index in
  match data s with
  | Some _ => if trivially_destructible
              then Some (set_slot r index (mkSlot (seq s) (Some v))) else None
  | None => Some (set_slot r index (mkSlot (seq s) (Some v)))
  end.

(** [std::move(buffer[index].data)]: the value, and what is left behind. *)
Definition data_move (r : ring) (index : Z) : option (A * ring) :=
  let? s := get_slot r index in
  match data s with
  | Some v => Some (v, set_slot r index (mkSlot (seq s) (Some (moved_from v))))
  | None => None
  end.

(** [batchDequeueArray[i] = v] *)
Definition batch_store (r : ring) (i : Z) (v : A) : option ring :=
  if (0 <=? i) && (i <? Z.of_nat (length (batchDequeueArray r)))
  then Some (mkRing (<[Z.to_nat i := v]> (batchDequeueArray r)) (buffer r)
                    (writeTicket r) (readTicket r))
  else None.

(** [if(count > BATCH_SIZE) count = BATCH_SIZE;] with [int count]: the
    comparison is made in [std::size_t]. *)
Definition batch_clamp (count : Z) : Z :=
  if BATCH_SIZE <? to_u64 count then to_i32 BATCH_SIZE else count.

(** ** Operations and program counters *)

(** [enqueue(A&&)], [enqueue(const A&)] and [emplaceEnqueue(args...)], the
    last with the value [A(args...)]. *)
Inductive enq_kind := EnqMove | EnqCopy | EnqEmplace.

(** The operands of [==] in [isEmpty] are loaded in either order. *)
Inductive op :=
| OpEnqueue (k : enq_kind) (v : A)
| OpDequeue
| OpBatchDequeue (count : Z)
| OpIsEmpty (write_first : bool).

(** Where a thread is in one of the member functions, with the local
    variables that are live there. *)
Inductive pc :=
| Idle
| EnqTicket (k : enq_kind) (v : A)
| EnqSpin (k : enq_kind) (v : A) (ticket : Z)
| EnqWrite (k : enq_kind) (v : A) (ticket : Z)
| EnqConstruct (v : A) (ticket : Z)
| EnqPublish (ticket : Z)
| EnqReturn
| DeqTicket
| DeqSpin (ticket : Z)
| DeqMove (ticket : Z)
| DeqPublish (ticket : Z) (v : A)
| DeqReturn (ticket : Z) (v : A)
| BatchLoop (i count : Z)
| BatchSpin (i count ticket : Z)
| BatchMove (i count ticket : Z)
| BatchPublish (i count ticket : Z)
| BatchReturn (count : Z)
| EmptyFirst (write_first : bool)
| EmptySecond (write_first : bool) (x : Z)
| EmptyReturn (b : bool).

(** The arguments have their C++ type: [int count]. *)
Definition op_typed (o : op) : bool :=
  match o with
  | OpBatchDequeue count => (INT_MIN <=? count) && (count <=? INT_MAX)
  | _ => true
  end.

Definition call (o : op) : pc :=
  match o with
  | OpEnqueue k v => EnqTicket k v
  | OpDequeue => DeqTicket
  | OpBatchDequeue count => BatchLoop 0 (batch_clamp count)
  | OpIsEmpty b => EmptyFirst b
  end.

(** One step of the three [enqueue] functions. *)
Definition step_enqueue (r : ring) (p : pc) : option (ring * pc) :=
  match p with
  | EnqTicket k v =>
      let '(ticket, r') := fetch_add_write r in Some (r', EnqSpin k v ticket)
  | EnqSpin k v ticket =>
      let? s := seq_load r (slot_index ticket) in
      Some (r, if writable s ticket then EnqWrite k v ticket else EnqSpin k v ticket)
  | EnqWrite (EnqMove | EnqCopy) v ticket =>
      let? r' := data_assign r (slot_index ticket) v in Some (r', EnqPublish ticket)
  | EnqWrite EnqEmplace v ticket =>
      if trivially_destructible
      then let? r' := data_construct r (slot_index ticket) v in Some (r', EnqPublish ticket)
      else let? r' := data_destroy r (slot_index ticket) in Some (r', EnqConstruct v ticket)
  | EnqConstruct v ticket =>
      let? r' := data_construct r (slot_index ticket) v in Some (r', EnqPublish ticket)
  | EnqPublish ticket =>
      let? r' := seq_store r (slot_index ticket) (u64 ar (ticket + 1)) in Some (r', EnqReturn)
  | _ => None
  end.

(** One step of [dequeue]. *)
Definition step_dequeue (r : ring) (p : pc) : option (ring * pc) :=
  match p with
  | DeqTicket =>
      let '(ticket, r') := fetch_add_read r in Some (r', DeqSpin ticket)
  | DeqSpin ticket =>
      let? s := seq_load r (slot_index ticket) in
      Some (r, if readable s ticket then DeqMove ticket else DeqSpin ticket)
  | DeqMove ticket =>
      let? vr := data_move r (slot_index ticket) in
      Some (vr.2, DeqPublish ticket vr.1)
  | DeqPublish ticket v =>
      let? r' := seq_store r (slot_index ticket) (u64 ar (ticket + SIZE)) in
      Some (r', DeqReturn ticket v)
  | _ => None
  end.

(** One step of [batchDequeue]; the [for] test and the [fetch_add] of the
    next round are one step. *)
Definition step_batch (r : ring) (p : pc) : option (ring * pc) :=
  match p with
  | BatchLoop i count =>
      if i <? count
      then let '(ticket, r') := fetch_add_read r in Some (r', BatchSpin i count ticket)
      else Some (r, BatchReturn count)
  | BatchSpin i count ticket =>
      let? s := seq_load r (slot_index ticket) in
      Some (r, if readable s ticket then BatchMove i count ticket else BatchSpin i count ticket)
  | BatchMove i count ticket =>
      let? vr := data_move r (slot_index ticket) in
      let? r' := batch_store vr.2 i vr.1 in
      Some (r', BatchPublish i count ticket)
  | BatchPublish i count ticket =>
      let? r' := seq_store r (slot_index ticket) (u64 ar (ticket + SIZE)) in
      Some (r', BatchLoop (i + 1) count)
  | _ => None
  end.

(** One step of [isEmpty]; for [machine_arith] the counters already are in range. *)
Definition step_isEmpty (r : ring) (p : pc) : option (ring * pc) :=
  match p with
  | EmptyFirst wf =>
      Some (r, EmptySecond wf (if wf then writeTicket r else readTicket r))
  | EmptySecond wf x =>
      Some (r, EmptyReturn (cmp ar x =? cmp ar (if wf then readTicket r else writeTicket r)))
  | _ => None
  end.

Definition step_ring (r : ring) (p : pc) : option (ring * pc) :=
  match p with
  | EnqTicket _ _ | EnqSpin _ _ _ | EnqWrite _ _ _ | EnqConstruct _ _ | EnqPublish _ =>
      step_enqueue r p
  | DeqTicket | DeqSpin _ | DeqMove _ | DeqPublish _ _ => step_dequeue r p
  | BatchLoop _ _ | BatchSpin _ _ _ | BatchMove _ _ _ | BatchPublish _ _ _ => step_batch r p
  | EmptyFirst _ | EmptySecond _ _ => step_isEmpty r p
  | _ => None
  end.

(** ** Construction and whole-buffer operations *)

(** [for(int i = 0; i < SIZE; i++) buffer[i].seq.store(i);] from [i] on: the
    comparison is made in [std::size_t], [i++] is [int] arithmetic.  [fuel]
    bounds the number of rounds. *)
Fixpoint prepareBuffer_from (fuel : nat) (i : Z) (r : ring) : option ring :=
  if to_u64 i <? SIZE then
    match fuel with
    | O => None
    | S fuel' =>
        let? r' := seq_store r i i in
        let? i' := int_op (i + 1) in
        prepareBuffer_from fuel' i' r'
    end
  else Some r.

Definition prepareBuffer (r : ring) : option ring :=
  prepareBuffer_from (Z.to_nat SIZE) 0 r.

Definition clearBuffer (r : ring) : option ring :=
  prepareBuffer (mkRing (batchDequeueArray r) (buffer r) 0 0).

(** The members before the constructor body runs: the default element
    [a0], sequence numbers and tickets 0. *)
Definition members_init (a0 : A) : ring :=
  mkRing (replicate (Z.to_nat BATCH_SIZE) a0)
         (replicate (Z.to_nat SIZE) (mkSlot 0 (Some a0))) 0 0.

Definition AtomicRingBuffer (a0 : A) : option ring := prepareBuffer (members_init a0).

(** [&buffer[index].data], as the position of the slot. *)
Definition claimPtrNoSync (r : ring) (index : Z) : option Z :=
  let? _ := get_slot r index in Some index.

(** ** Threads *)

(** A configuration: the shared object, the threads that use it, and two
    records that no code reads: the values of all [enqueue] calls in the
    order in which they took their tickets, and the number of read tickets
    taken. *)
Record cfg := mkCfg {
  c_ring : ring;
  c_thr : list pc;
  c_hist : list A;
  c_reads : nat;
}.

(** [Clear] is a call of [clearBuffer]; it resets the counters and the
    sequence numbers one store at a time, so it is an action of its own only
    while no thread is inside a member function. *)
Inductive act :=
| Call (t : nat) (o : op)
| Run (t : nat)
| Ret (t : nat)
| Clear.

Definition log_ticket (p : pc) (h : list A) : list A :=
  match p with EnqTicket _ v => h ++ [v] | _ => h end.

Definition log_read (p : pc) (k : nat) : nat :=
  match p with
  | DeqTicket => S k
  | BatchLoop i count => if i <? count then S k else k
  | _ => k
  end.

Definition returning (p : pc) : bool :=
  match p with
  | EnqReturn | DeqReturn _ _ | BatchReturn _ | EmptyReturn _ => true
  | _ => false
  end.

Definition idle (p : pc) : bool := match p with Idle => true | _ => false end.

Definition exec (c : cfg) (a : act) : option cfg :=
  match a with
  | Clear =>
      if forallb idle (c_thr c)
      then let? r' := clearBuffer (c_ring c) in Some (mkCfg r' (c_thr c) [] 0) else None
  | Call t o =>
      match c_thr c !! t with
      | Some Idle =>
          if op_typed o
          then Some (mkCfg (c_ring c) (<[t := call o]> (c_thr c)) (c_hist c) (c_reads c)) else None
      | _ => None
      end
  | Run t =>
      let? p := c_thr c !! t in
      let? rp := step_ring (c_ring c) p in
      Some (mkCfg rp.1 (<[t := rp.2]> (c_thr c)) (log_ticket p (c_hist c))
                  (log_read p (c_reads c)))
  | Ret t =>
      let? p := c_thr c !! t in
      if returning p
      then Some (mkCfg (c_ring c) (<[t := Idle]> (c_thr c)) (c_hist c) (c_reads c)) else None
  end.

Definition ring_machine : machine := Machine cfg act exec.

(** A freshly constructed buffer used by [n] threads. *)
Definition init_cfg (a0 : A) (n : nat) : option cfg :=
  let? r := AtomicRingBuffer a0 in Some (mkCfg r (replicate n Idle) [] 0).
End Code.

Arguments Slot : clear implicits.
Arguments ring : clear implicits.
Arguments pc : clear implicits.
Arguments op : clear implicits.
Arguments cfg : clear implicits.
Arguments act : clear implicits.

(** ** Element types used by the library and by the examples *)

(** [int]: copying and moving are the same, the destructor is trivial. *)
#[export] Instance elem_int : Elem Z := {| moved_from v := v; trivially_destructible := true |}.

(** An owning handle ([std::function], [std::unique_ptr]): a moved-from handle
    is empty, and the destructor is not trivial. *)
#[export] Instance elem_handle {B} : Elem (option B) :=
  {| moved_from _ := None; trivially_destructible := false |}.
