(* ===== verification/RingProtocol.v ===== *)
(** * The ticket protocol of AtomicRingBuffer

    What the member functions of [AtomicRingBuffer] do to the slots, without
    the control flow around it: a thread holds a write ticket or a read ticket
    ([view]), and [pstep] lists the ways a thread changes the slots, the
    counters and its ticket.  Tickets are unbounded here; [AtomicRingBuffer.v]
    instantiated with [ticket_arith] takes only these steps, and the machine
    arithmetic is related to it afterwards.

    The invariant [pinv] is proved for every step of the protocol. *)

From Stdlib Require Import ZArith Lia.
From S2P Require Import Prelude MachineInt Lts AtomicRingBuffer.
Local Open Scope Z_scope.

(** Two tickets of the same slot are equal or at least [SIZE] apart. *)
Lemma same_slot_apart S t t' :
  0 < S → t mod S = t' mod S → t < t' → t + S <= t'.
Proof.
  intros HS He Hlt.
  pose proof (Z.div_mod t S ltac:(lia)). pose proof (Z.div_mod t' S ltac:(lia)).
  assert (t / S < t' / S) by nia. nia.
Qed.

Lemma succ_other_slot S t : 2 <= S → (t + 1) mod S ≠ t mod S.
Proof.
  intros HS He. pose proof (same_slot_apart S t (t + 1) ltac:(lia) (eq_sym He)). lia.
Qed.

Section Protocol.
Context {A : Type} (SIZE : Z) (HS : 2 <= SIZE).

(** The phase of a writer: spinning, allowed to write, after the destructor
    call of [emplaceEnqueue], after the write. *)
Inductive wphase := WWait (v : A) | WOwn (v : A) | WRaw (v : A) | WDone.
(** The phase of a reader: spinning, allowed to read, after the move. *)
Inductive rphase := RWait | ROwn | RDone.

Inductive view :=
| VNone
| VW (ph : wphase) (t : Z)
| VR (ph : rphase) (r : Z).

Record pstate := PState {
  p_buf : list (Slot A);
  p_W : Z;
  p_R : Z;
  p_hist : list A;
  p_views : list view;
}.

Definition pos (t : Z) : nat := Z.to_nat (t mod SIZE).
Definition slot_at (b : list (Slot A)) (t : Z) : option (Slot A) := b !! pos t.
Definition set_at (b : list (Slot A)) (t : Z) (s : Slot A) : list (Slot A) := <[pos t := s]> b.
Definition val_at (h : list A) (t : Z) : option A := h !! Z.to_nat t.

(** One step of thread [j]. *)
Inductive pstep (j : nat) : pstate → pstate → Prop :=
| p_claimW b W R h vs v :
    vs !! j = Some VNone →
    pstep j (PState b W R h vs) (PState b (W + 1) R (h ++ [v]) (<[j := VW (WWait v) W]> vs))
| p_seeW b W R h vs v t s :
    vs !! j = Some (VW (WWait v) t) → slot_at b t = Some s → seq s = t →
    pstep j (PState b W R h vs) (PState b W R h (<[j := VW (WOwn v) t]> vs))
| p_destroy b W R h vs v t s :
    vs !! j = Some (VW (WOwn v) t) → slot_at b t = Some s →
    pstep j (PState b W R h vs)
            (PState (set_at b t (mkSlot (seq s) None)) W R h (<[j := VW (WRaw v) t]> vs))
| p_write b W R h vs v t s ph :
    vs !! j = Some (VW ph t) → ph = WOwn v ∨ ph = WRaw v → slot_at b t = Some s →
    pstep j (PState b W R h vs)
            (PState (set_at b t (mkSlot (seq s) (Some v))) W R h (<[j := VW WDone t]> vs))
| p_pubW b W R h vs t s :
    vs !! j = Some (VW WDone t) → slot_at b t = Some s →
    pstep j (PState b W R h vs)
            (PState (set_at b t (mkSlot (t + 1) (data s))) W R h (<[j := VNone]> vs))
| p_claimR b W R h vs :
    vs !! j = Some VNone →
    pstep j (PState b W R h vs) (PState b W (R + 1) h (<[j := VR RWait R]> vs))
| p_seeR b W R h vs r s :
    vs !! j = Some (VR RWait r) → slot_at b r = Some s → seq s = r + 1 →
    pstep j (PState b W R h vs) (PState b W R h (<[j := VR ROwn r]> vs))
| p_move b W R h vs r s v' :
    vs !! j = Some (VR ROwn r) → slot_at b r = Some s →
    pstep j (PState b W R h vs)
            (PState (set_at b r (mkSlot (seq s) (Some v'))) W R h (<[j := VR RDone r]> vs))
| p_pubR b W R h vs r s :
    vs !! j = Some (VR RDone r) → slot_at b r = Some s →
    pstep j (PState b W R h vs)
            (PState (set_at b r (mkSlot (r + SIZE) (data s))) W R h (<[j := VNone]> vs)).

Definition owns_w (ph : wphase) : Prop := match ph with WWait _ => False | _ => True end.
Definition owns_r (ph : rphase) : Prop := match ph with RWait => False | _ => True end.

(** What a writer knows about its slot [s] and its value. *)
Definition wphase_ok (h : list A) (t : Z) (s : Slot A) (ph : wphase) : Prop :=
  match ph with
  | WWait v => val_at h t = Some v
  | WOwn v => val_at h t = Some v
  | WRaw v => val_at h t = Some v ∧ data s = None
  | WDone => data s = val_at h t
  end.

(** The sequence number of slot [i] belongs to some ticket [t] of that
    slot: [t] itself (free for writer [t]) or [t + 1] (filled by it). *)
Definition slot_ok (W R : Z) (i : nat) (s : Slot A) : Prop :=
  ∃ t, 0 <= t ∧ pos t = i ∧ (SIZE <= t → t - SIZE < R ∧ t - SIZE < W) ∧
       (seq s = t ∨ (seq s = t + 1 ∧ t < W)).

Record pinv (p : pstate) : Prop := {
  pi_len : length (p_buf p) = Z.to_nat SIZE;
  pi_W : p_W p = Z.of_nat (length (p_hist p));
  pi_R : 0 <= p_R p;
  pi_slot : ∀ i s, p_buf p !! i = Some s → slot_ok (p_W p) (p_R p) i s;
  pi_wr : ∀ j ph t s, p_views p !! j = Some (VW ph t) → slot_at (p_buf p) t = Some s →
    0 <= t < p_W p ∧ seq s <= t ∧ (owns_w ph → seq s = t) ∧ wphase_ok (p_hist p) t s ph;
  pi_rd : ∀ j ph r s, p_views p !! j = Some (VR ph r) → slot_at (p_buf p) r = Some s →
    0 <= r < p_R p ∧ seq s <= r + 1 ∧ (owns_r ph → seq s = r + 1);
  pi_wuniq : ∀ j j' ph ph' t,
    p_views p !! j = Some (VW ph t) → p_views p !! j' = Some (VW ph' t) → j = j';
  pi_runiq : ∀ j j' ph ph' r,
    p_views p !! j = Some (VR ph r) → p_views p !! j' = Some (VR ph' r) → j = j';
  pi_wex : ∀ t s, 0 <= t < p_W p → slot_at (p_buf p) t = Some s → seq s <= t →
    ∃ j ph, p_views p !! j = Some (VW ph t);
  pi_rex : ∀ r s, 0 <= r < p_R p → slot_at (p_buf p) r = Some s → seq s <= r + 1 →
    ∃ j ph, p_views p !! j = Some (VR ph r);
  pi_data : ∀ t s, 0 <= t → slot_at (p_buf p) t = Some s → seq s = t + 1 →
    data s = val_at (p_hist p) t ∨ ∃ j, p_views p !! j = Some (VR RDone t);
  pi_live : ∀ t s, slot_at (p_buf p) t = Some s → data s = None →
    ∃ j v t', p_views p !! j = Some (VW (WRaw v) t') ∧ pos t' = pos t;
}.

(** ** Slots and tickets *)

Lemma pos_eq t t' : pos t = pos t' ↔ t mod SIZE = t' mod SIZE.
Proof using HS.
  unfold pos. pose proof (Z.mod_pos_bound t SIZE ltac:(lia)).
  pose proof (Z.mod_pos_bound t' SIZE ltac:(lia)). lia.
Qed.

Lemma pos_lt t : (pos t < Z.to_nat SIZE)%nat.
Proof using HS. unfold pos. pose proof (Z.mod_pos_bound t SIZE ltac:(lia)). lia. Qed.

Lemma same_pos_cases t t' :
  pos t = pos t' → t = t' ∨ t + SIZE <= t' ∨ t' + SIZE <= t.
Proof using HS.
  intros He%pos_eq. destruct (Z.lt_trichotomy t t') as [Hlt|[->|Hlt]]; [|by left|];
    right; [left|right]; apply same_slot_apart; (done || lia).
Qed.

Lemma slot_at_total b t :
  length b = Z.to_nat SIZE → ∃ s, slot_at b t = Some s.
Proof using HS.
  intros Hl. apply lookup_lt_is_Some_2. rewrite Hl. apply pos_lt.
Qed.

Lemma slot_at_set_cases b t t' s s' :
  slot_at (set_at b t s) t' = Some s' →
  (pos t = pos t' ∧ s = s') ∨ (pos t ≠ pos t' ∧ slot_at b t' = Some s').
Proof. by intros [(?&?&?)|(?&?)]%lookup_insert_cases; [left|right]. Qed.

Lemma slot_at_same_pos b t t' : pos t = pos t' → slot_at b t = slot_at b t'.
Proof. unfold slot_at. by intros ->. Qed.

Lemma val_at_lt (h : list A) t v : val_at h t = Some v → (Z.to_nat t < length h)%nat.
Proof. apply lookup_lt_Some. Qed.

Lemma val_at_snoc h t x :
  0 <= t < Z.of_nat (length h) → val_at (h ++ [x]) t = val_at h t.
Proof. intros Ht. unfold val_at. apply lookup_app_l. lia. Qed.

Lemma val_at_snoc_new h x : val_at (h ++ [x]) (Z.of_nat (length h)) = Some x.
Proof. unfold val_at. rewrite Nat2Z.id. apply lookup_snoc_new. Qed.

Lemma val_at_some (h : list A) t :
  0 <= t < Z.of_nat (length h) → ∃ v, val_at h t = Some v.
Proof. intros Ht. apply lookup_lt_is_Some_2. lia. Qed.
End Protocol.

(** Case analysis on lookups in updated view lists and updated buffers. *)
Ltac views :=
  repeat match goal with
  | H : <[_ := _]> _ !! _ = Some _ |- _ =>
      apply lookup_insert_cases in H as [(?&?&?)|(?&?)]; simplify_eq
  | H : slot_at _ (set_at _ _ _ _) _ = Some _ |- _ =>
      apply slot_at_set_cases in H as [(?&?)|(?&?)]; simplify_eq/=
  end.

(** Tickets of one slot are equal or a whole round apart; then [lia]. *)
Ltac apart :=
  repeat match goal with
  | H : pos ?S ?t = pos ?S ?t' |- _ =>
      lazymatch goal with
      | _ : t = t' ∨ t + S <= t' ∨ _ |- _ => fail
      | _ => pose proof (same_pos_cases S ltac:(lia) t t' H)
      end
  end; lia.

Section Preservation.
Context {A : Type} (SIZE : Z) (HS : 2 <= SIZE).
Implicit Types (b : list (Slot A)) (h : list A) (vs : list (@view A)).

Lemma ex_view_other vs j x j0 w :
  vs !! j0 = Some w → j ≠ j0 → <[j:=x]> vs !! j0 = Some w.
Proof. intros. by rewrite list_lookup_insert_ne. Qed.

Lemma ex_view_self vs j x w : vs !! j = Some w → <[j:=x]> vs !! j = Some x.
Proof. intros H%lookup_lt_Some. by apply list_lookup_insert_eq. Qed.

(** A slot's sequence number never passes the next ticket of the slot. *)
Lemma seq_le_next b W R h vs t s :
  pinv SIZE (PState b W R h vs) → slot_at SIZE b t = Some s →
  (0 <= t → W <= t → seq s <= t) ∧ (0 <= t → R <= t → seq s <= t + 1).
Proof using HS.
  intros Hi Hs. destruct (pi_slot _ _ Hi _ _ Hs) as (t0 & H0 & Hp & Hr & Hc). simpl in *.
  pose proof (same_pos_cases SIZE HS _ _ Hp) as Hap.
  split; intros; destruct (Z.le_gt_cases SIZE t0) as [Hge|Hlt]; try specialize (Hr Hge); lia.
Qed.

Lemma pinv_claimW b W R h vs j v :
  pinv SIZE (PState b W R h vs) → vs !! j = Some VNone →
  pinv SIZE (PState b (W + 1) R (h ++ [v]) (<[j := VW (WWait v) W]> vs)).
Proof using HS.
  intros Hi Hj. pose proof (seq_le_next b W R h vs W) as Hnext.
  destruct (Hi) as [Hlen HW HR Hslot Hwr Hrd Hwu Hru Hwe Hre Hd Hl]; simpl in *.
  subst W. constructor; simpl; try done.
  - rewrite length_app; simpl; lia.
  - intros i s Hs. destruct (Hslot i s Hs) as (t & ? & ? & ? & ?). exists t. split_and!; try done; lia.
  - intros j' ph t s Hv Hs. views.
    + destruct (Hnext _ Hi Hs) as [Hn _]. split_and!; try (done || lia).
      apply val_at_snoc_new.
    + destruct (Hwr _ _ _ _ H0 Hs) as (?&?&?&Hok). split_and!; try (done || lia).
      destruct ph; simpl in *; rewrite ?val_at_snoc by lia; done.
  - intros j' ph r s Hv Hs. views. eauto.
  - intros j1 j2 ph ph' t H1 H2. views; eauto;
      match goal with H : vs !! _ = Some (VW _ ?W) |- _ =>
        destruct (slot_at_total SIZE HS b W Hlen) as [s Hs]; destruct (Hwr _ _ _ _ H Hs); lia end.
  - intros j1 j2 ph ph' r H1 H2. views. eauto.
  - intros t s Ht Hs Hle. destruct (decide (t = Z.of_nat (length h))) as [->|Hne].
    + eexists j, _. by eapply ex_view_self.
    + destruct (Hwe t s) as (j0 & ph & ?); [lia|done..|].
      exists j0, ph. apply ex_view_other; [done|congruence].
  - intros r s Hr Hs Hle. destruct (Hre r s) as (j0 & ph & ?); [done..|].
    exists j0, ph. apply ex_view_other; [done|congruence].
  - intros t s Ht Hs Hsq. destruct (Hd t s) as [?|(j0 & ?)]; [done..| |].
    + left. destruct (Hslot _ _ Hs) as (t0 & ? & ? & ? & Hc).
      rewrite val_at_snoc; [done|]. apart.
    + right. exists j0. apply ex_view_other; [done|congruence].
  - intros t s Hs Hn. destruct (Hl t s Hs Hn) as (j0 & v0 & t' & ? & ?).
    exists j0, v0, t'. split; [|done]. apply ex_view_other; [done|congruence].
Qed.
Lemma pinv_claimR b W R h vs j :
  pinv SIZE (PState b W R h vs) → vs !! j = Some VNone →
  pinv SIZE (PState b W (R + 1) h (<[j := VR RWait R]> vs)).
Proof using HS.
  intros Hi Hj. pose proof (seq_le_next b W R h vs R) as Hnext.
  destruct (Hi) as [Hlen HW HR Hslot Hwr Hrd Hwu Hru Hwe Hre Hd Hl]; simpl in *.
  constructor; simpl; try done.
  - lia.
  - intros i s Hs. destruct (Hslot i s Hs) as (t & ? & ? & ? & ?). exists t.
    split_and!; try done; lia.
  - intros j' ph t s Hv Hs. views. eauto.
  - intros j' ph r s Hv Hs. views.
    + destruct (Hnext _ Hi Hs) as [_ Hn]. split_and!; try (done || lia).
    + destruct (Hrd _ _ _ _ H0 Hs) as (?&?&?). split_and!; try (done || lia).
  - intros j1 j2 ph ph' t H1 H2. views. eauto.
  - intros j1 j2 ph ph' r H1 H2. views; eauto;
      match goal with H : vs !! _ = Some (VR _ ?x) |- _ =>
        destruct (slot_at_total SIZE HS b x Hlen) as [s Hs]; destruct (Hrd _ _ _ _ H Hs); lia end.
  - intros t s Ht Hs Hle. destruct (Hwe t s) as (j0 & ph & ?); [done..|].
    exists j0, ph. apply ex_view_other; [done|congruence].
  - intros r s Hr Hs Hle. destruct (decide (r = R)) as [->|Hne].
    + eexists j, _. by eapply ex_view_self.
    + destruct (Hre r s) as (j0 & ph & ?); [lia|done..|].
      exists j0, ph. apply ex_view_other; [done|congruence].
  - intros t s Ht Hs Hsq. destruct (Hd t s) as [?|(j0 & ?)]; [done..|by left|].
    right. exists j0. apply ex_view_other; [done|congruence].
  - intros t s Hs Hn. destruct (Hl t s Hs Hn) as (j0 & v0 & t' & ? & ?).
    exists j0, v0, t'. split; [|done]. apply ex_view_other; [done|congruence].
Qed.

(** A writer that owns slot [t] changes the data of the slot and its own
    phase, not the sequence number. *)
Lemma pinv_wphase b W R h vs j ph ph' t s s' :
  pinv SIZE (PState b W R h vs) → vs !! j = Some (VW ph t) → slot_at SIZE b t = Some s →
  seq s = t → seq s' = t → owns_w ph' → wphase_ok h t s' ph' →
  (data s' = None → ∃ v, ph' = WRaw v) →
  pinv SIZE (PState (set_at SIZE b t s') W R h (<[j := VW ph' t]> vs)).
Proof using HS.
  intros Hi Hj Hs Hsq Hsq' Hown Hok Hraw.
  destruct (Hi) as [Hlen HW HR Hslot Hwr Hrd Hwu Hru Hwe Hre Hd Hl]; simpl in *.
  assert (Hsame : ∀ t0 s0, slot_at SIZE (set_at SIZE b t s') t0 = Some s0 →
    ∃ s1, slot_at SIZE b t0 = Some s1 ∧ seq s0 = seq s1).
  { intros t0 s0 H. views; [|eauto]. exists s.
    rewrite <- (slot_at_same_pos SIZE b _ _ H). by split; [|lia]. }
  constructor; simpl; try done.
  - unfold set_at. by rewrite length_insert.
  - intros i s0 H. apply lookup_insert_cases in H as [(<-&<-&_)|(?&?)]; [|by apply Hslot].
    destruct (Hslot _ _ Hs) as (t0 & ? & ? & ? & ?). exists t0. split_and!; try done; lia.
  - intros j' ph0 t0 s0 Hv H0. apply lookup_insert_cases in Hv as [(<-&[= <- <-]&_)|(Hne&Hv)].
    + destruct (Hwr _ _ _ _ Hj Hs) as (?&?&?&?). views. split_and!; try (done || lia).
    + assert (t ≠ t0) by (intros ->; eauto).
      apply slot_at_set_cases in H0 as [(Hp&<-)|(_&H0)]; [|by apply (Hwr _ _ _ _ Hv)].
      rewrite (slot_at_same_pos SIZE b _ _ Hp) in Hs.
      destruct (Hwr _ _ _ _ Hv Hs) as (?&?&Ho&Hk).
      destruct ph0; simpl in *; split_and!; try (done || lia); try (specialize (Ho I); lia).
  - intros j' ph0 r s0 Hv H0. destruct (Hsame _ _ H0) as (s1 & H1 & Heq). rewrite Heq.
    views; eauto.
  - intros j1 j2 ph1 ph2 t0 H1 H2. views; eauto; exfalso; eauto.
  - intros j1 j2 ph1 ph2 r H1 H2. views. eauto.
  - intros t0 s0 Ht H0 Hle. destruct (Hsame _ _ H0) as (s1 & H1 & Heq).
    destruct (Hwe t0 s1) as (j0 & ph0 & ?); [done|done|lia|].
    destruct (decide (j = j0)) as [<-|Hne]; simplify_eq.
    + exists j, ph'. by eapply ex_view_self.
    + exists j0, ph0. by apply ex_view_other.
  - intros r s0 Hr H0 Hle. destruct (Hsame _ _ H0) as (s1 & H1 & Heq).
    destruct (Hre r s1) as (j0 & ph0 & ?); [done|done|lia|].
    exists j0, ph0. apply ex_view_other; [done|congruence].
  - intros t0 s0 Ht H0 Hq. views; [apart|].
    destruct (Hd t0 s0) as [?|(j0 & ?)]; [done..|by left|].
    right. exists j0. apply ex_view_other; [done|congruence].
  - intros t0 s0 H0 Hn. views.
    + destruct (Hraw Hn) as [v ->]. eexists j, v, _. split; [by eapply ex_view_self|done].
    + destruct (Hl t0 s0) as (j0 & v0 & t' & ? & ?); [done..|].
      exists j0, v0, t'. split; [|done]. apply ex_view_other; [done|congruence].
Qed.

(** The same for a reader that owns slot [r]. *)
Lemma pinv_rphase b W R h vs j ph ph' r s s' :
  pinv SIZE (PState b W R h vs) → vs !! j = Some (VR ph r) → slot_at SIZE b r = Some s →
  seq s = r + 1 → seq s' = r + 1 → ph ≠ RDone → ph' = RDone ∨ s' = s → data s' ≠ None →
  pinv SIZE (PState (set_at SIZE b r s') W R h (<[j := VR ph' r]> vs)).
Proof using HS.
  intros Hi Hj Hs Hsq Hsq' Hph Hch Hlive.
  destruct (Hi) as [Hlen HW HR Hslot Hwr Hrd Hwu Hru Hwe Hre Hd Hl]; simpl in *.
  assert (Hsame : ∀ t0 s0, slot_at SIZE (set_at SIZE b r s') t0 = Some s0 →
    ∃ s1, slot_at SIZE b t0 = Some s1 ∧ seq s0 = seq s1).
  { intros t0 s0 H. views; [|eauto]. exists s.
    rewrite <- (slot_at_same_pos SIZE b _ _ H). by split; [|lia]. }
  constructor; simpl; try done.
  - unfold set_at. by rewrite length_insert.
  - intros i s0 H. apply lookup_insert_cases in H as [(<-&<-&_)|(?&?)]; [|by apply Hslot].
    destruct (Hslot _ _ Hs) as (t0 & ? & ? & ? & ?). exists t0. split_and!; try done; lia.
  - intros j' ph0 t0 s0 Hv H0. apply lookup_insert_cases in Hv as [(<-&[=]&_)|(Hne&Hv)].
    apply slot_at_set_cases in H0 as [(Hp&<-)|(_&H0)]; [|by apply (Hwr _ _ _ _ Hv)].
    rewrite (slot_at_same_pos SIZE b _ _ Hp) in Hs.
    destruct (Hwr _ _ _ _ Hv Hs) as (?&?&Ho&Hk).
    destruct ph0; simpl in *; split_and!; try (done || lia); try (specialize (Ho I); apart).
  - intros j' ph0 r0 s0 Hv H0. destruct (Hsame _ _ H0) as (s1 & H1 & Heq). rewrite Heq.
    apply lookup_insert_cases in Hv as [(<-&[= <- <-]&_)|(Hne&Hv)]; [|eauto].
    destruct (Hrd _ _ _ _ Hj H1) as (?&?&?). split_and!; try (done || lia).
    intros _. rewrite H1 in Hs. by simplify_eq.
  - intros j1 j2 ph1 ph2 t0 H1 H2. views. eauto.
  - intros j1 j2 ph1 ph2 t0 H1 H2. views; eauto; exfalso; eauto.
  - intros t0 s0 Ht H0 Hle. destruct (Hsame _ _ H0) as (s1 & H1 & Heq).
    destruct (Hwe t0 s1) as (j0 & ph0 & ?); [done|done|lia|].
    exists j0, ph0. apply ex_view_other; [done|congruence].
  - intros r0 s0 Hr H0 Hle. destruct (Hsame _ _ H0) as (s1 & H1 & Heq).
    destruct (Hre r0 s1) as (j0 & ph0 & ?); [done|done|lia|].
    destruct (decide (j = j0)) as [<-|Hne]; simplify_eq.
    + exists j, ph'. by eapply ex_view_self.
    + exists j0, ph0. by apply ex_view_other.
  - intros t0 s0 Ht H0 Hq. apply slot_at_set_cases in H0 as [(Hp&<-)|(Hp&H0)].
    + assert (t0 = r) as -> by apart. destruct Hch as [->| ->].
      * right. exists j. by eapply ex_view_self.
      * destruct (Hd r s) as [?|(j0 & ?)]; [done..|by left|].
        right. exists j0. apply ex_view_other; [done|]. intros <-. congruence.
    + destruct (Hd t0 s0) as [?|(j0 & ?)]; [done..|by left|].
      right. exists j0. apply ex_view_other; [done|]. intros <-. congruence.
  - intros t0 s0 H0 Hn. views.
    destruct (Hl t0 s0) as (j0 & v0 & t' & ? & ?); [done..|].
    exists j0, v0, t'. split; [|done]. apply ex_view_other; [done|congruence].
Qed.

Lemma pinv_pubW b W R h vs j t s :
  pinv SIZE (PState b W R h vs) → vs !! j = Some (VW WDone t) → slot_at SIZE b t = Some s →
  pinv SIZE (PState (set_at SIZE b t (mkSlot (t + 1) (data s))) W R h (<[j := VNone]> vs)).
Proof using HS.
  intros Hi Hj Hs.
  destruct (Hi) as [Hlen HW HR Hslot Hwr Hrd Hwu Hru Hwe Hre Hd Hl]; simpl in *.
  destruct (Hwr _ _ _ _ Hj Hs) as (Ht & _ & Hsq & Hok). specialize (Hsq I). simpl in Hok.
  assert (Hold : ∀ t0 s0, slot_at SIZE (set_at SIZE b t (mkSlot (t + 1) (data s))) t0 = Some s0 →
    ∃ s1, slot_at SIZE b t0 = Some s1 ∧ data s0 = data s1 ∧
          ((pos SIZE t = pos SIZE t0 ∧ seq s1 = t ∧ seq s0 = t + 1) ∨ (pos SIZE t ≠ pos SIZE t0 ∧ s0 = s1))).
  { intros t0 s0 [(Hp&<-)|(Hp&H0)]%slot_at_set_cases; [exists s|exists s0; auto].
    rewrite <- (slot_at_same_pos SIZE b _ _ Hp). simpl. auto 10. }
  constructor; simpl; try done.
  - unfold set_at. by rewrite length_insert.
  - intros i s0 H. apply lookup_insert_cases in H as [(<-&<-&_)|(?&?)]; [|by apply Hslot].
    destruct (Hslot _ _ Hs) as (t0 & ? & ? & ? & ?). exists t. simpl. split_and!; try done; apart.
  - intros j' ph0 t0 s0 [(_&?&_)|(Hne&Hv)]%lookup_insert_cases Hs0; [done|].
    destruct (Hold _ _ Hs0) as (s1 & H1 & Hdt & [(Hp&?&?)|(?&->)]); [|by apply (Hwr _ _ _ _ Hv)].
    assert (t ≠ t0) by (intros ->; eauto).
    destruct (Hwr _ _ _ _ Hv H1) as (?&?&Ho&Hk).
    destruct ph0; simpl in *; split_and!; try (done || apart); try (specialize (Ho I); apart).
  - intros j' ph0 r s0 [(_&?&_)|(Hne&Hv)]%lookup_insert_cases Hs0; [done|].
    destruct (Hold _ _ Hs0) as (s1 & H1 & Hdt & [(Hp&?&?)|(?&->)]); [|by apply (Hrd _ _ _ _ Hv)].
    destruct (Hrd _ _ _ _ Hv H1) as (?&?&Ho).
    split_and!; try (done || apart). intros Hph; specialize (Ho Hph); apart.
  - intros j1 j2 ph1 ph2 t0 H1 H2. views. eauto.
  - intros j1 j2 ph1 ph2 t0 H1 H2. views. eauto.
  - intros t0 s0 Ht0 H0 Hle. destruct (Hold _ _ H0) as (s1 & H1 & Hdt & Hc).
    assert (seq s1 <= t0) as Hle' by (destruct Hc as [(?&?&?)|(?&->)]; lia).
    destruct (Hwe t0 s1 Ht0 H1 Hle') as (j0 & ph0 & Hv).
    exists j0, ph0. apply ex_view_other; [done|]. intros <-.
    assert (t0 = t) as -> by congruence. destruct Hc as [(?&?&?)|(?&?)]; [lia|done].
  - intros r s0 Hr H0 Hle. destruct (Hold _ _ H0) as (s1 & H1 & Hdt & Hc).
    destruct (Hre r s1) as (j0 & ph0 & ?); [done|done|destruct Hc as [(?&?&?)|(?&->)]; lia|].
    exists j0, ph0. apply ex_view_other; [done|congruence].
  - intros t0 s0 Ht0 H0 Hq. destruct (Hold _ _ H0) as (s1 & H1 & Hdt & [(Hp&?&?)|(?&->)]).
    + left. assert (t0 = t) as -> by lia. rewrite H1 in Hs. simplify_eq. congruence.
    + destruct (Hd t0 s1) as [?|(j0 & ?)]; [done..|by left|].
      right. exists j0. apply ex_view_other; [done|congruence].
  - intros t0 s0 H0 Hn. destruct (Hold _ _ H0) as (s1 & H1 & Hdt & Hc).
    destruct (Hl t0 s1) as (j0 & v0 & t' & ? & ?); [done|congruence|].
    exists j0, v0, t'. split; [|done]. apply ex_view_other; [done|congruence].
Qed.

Lemma pinv_pubR b W R h vs j r s :
  pinv SIZE (PState b W R h vs) → vs !! j = Some (VR RDone r) → slot_at SIZE b r = Some s →
  pinv SIZE (PState (set_at SIZE b r (mkSlot (r + SIZE) (data s))) W R h (<[j := VNone]> vs)).
Proof using HS.
  intros Hi Hj Hs.
  destruct (Hi) as [Hlen HW HR Hslot Hwr Hrd Hwu Hru Hwe Hre Hd Hl]; simpl in *.
  destruct (Hrd _ _ _ _ Hj Hs) as (Hr & _ & Hsq). specialize (Hsq I).
  assert (Hold : ∀ t0 s0, slot_at SIZE (set_at SIZE b r (mkSlot (r + SIZE) (data s))) t0 = Some s0 →
    ∃ s1, slot_at SIZE b t0 = Some s1 ∧ data s0 = data s1 ∧
          ((pos SIZE r = pos SIZE t0 ∧ seq s1 = r + 1 ∧ seq s0 = r + SIZE) ∨ (pos SIZE r ≠ pos SIZE t0 ∧ s0 = s1))).
  { intros t0 s0 [(Hp&<-)|(Hp&H0)]%slot_at_set_cases; [exists s|exists s0; auto].
    rewrite <- (slot_at_same_pos SIZE b _ _ Hp). simpl. auto 10. }
  constructor; simpl; try done.
  - unfold set_at. by rewrite length_insert.
  - intros i s0 H. apply lookup_insert_cases in H as [(<-&<-&_)|(?&?)]; [|by apply Hslot].
    destruct (Hslot _ _ Hs) as (t0 & ? & ? & ? & ?). exists (r + SIZE). simpl.
    assert (pos SIZE (r + SIZE) = pos SIZE r).
    { apply pos_eq; [done|]. rewrite <- (Z.mul_1_l SIZE) at 1. apply Z.mod_add. lia. }
    split_and!; try (done || lia). apart.
  - intros j' ph0 t0 s0 [(_&?&_)|(Hne&Hv)]%lookup_insert_cases Hs0; [done|].
    destruct (Hold _ _ Hs0) as (s1 & H1 & Hdt & [(Hp&?&?)|(?&->)]); [|by apply (Hwr _ _ _ _ Hv)].
    destruct (Hwr _ _ _ _ Hv H1) as (?&?&Ho&Hk).
    destruct ph0; simpl in *; split_and!; try (done || apart); try (specialize (Ho I); apart).
  - intros j' ph0 r0 s0 [(_&?&_)|(Hne&Hv)]%lookup_insert_cases Hs0; [done|].
    destruct (Hold _ _ Hs0) as (s1 & H1 & Hdt & [(Hp&?&?)|(?&->)]); [|by apply (Hrd _ _ _ _ Hv)].
    assert (r ≠ r0) by (intros ->; eauto).
    destruct (Hrd _ _ _ _ Hv H1) as (?&?&Ho).
    split_and!; try (done || apart). intros Hph; specialize (Ho Hph); apart.
  - intros j1 j2 ph1 ph2 t0 H1 H2. views. eauto.
  - intros j1 j2 ph1 ph2 t0 H1 H2. views. eauto.
  - intros t0 s0 Ht0 H0 Hle. destruct (Hold _ _ H0) as (s1 & H1 & Hdt & Hc).
    destruct (Hwe t0 s1) as (j0 & ph0 & Hv); [done|done|destruct Hc as [(?&?&?)|(?&->)]; lia|].
    exists j0, ph0. apply ex_view_other; [done|congruence].
  - intros r0 s0 Hr0 H0 Hle. destruct (Hold _ _ H0) as (s1 & H1 & Hdt & Hc).
    assert (seq s1 <= r0 + 1) as Hle' by (destruct Hc as [(?&?&?)|(?&->)]; lia).
    destruct (Hre r0 s1 Hr0 H1 Hle') as (j0 & ph0 & Hv).
    exists j0, ph0. apply ex_view_other; [done|]. intros <-.
    assert (r0 = r) as -> by congruence. destruct Hc as [(?&?&?)|(?&?)]; [lia|done].
  - intros t0 s0 Ht0 H0 Hq. destruct (Hold _ _ H0) as (s1 & H1 & Hdt & [(Hp&?&?)|(Hp&->)]); [apart|].
    destruct (Hd t0 s1) as [?|(j0 & ?)]; [done..|by left|].
    right. exists j0. apply ex_view_other; [done|]. intros <-. congruence.
  - intros t0 s0 H0 Hn. destruct (Hold _ _ H0) as (s1 & H1 & Hdt & Hc).
    destruct (Hl t0 s1) as (j0 & v0 & t' & ? & ?); [done|congruence|].
    exists j0, v0, t'. split; [|done]. apply ex_view_other; [done|congruence].
Qed.

(** Every step of the protocol preserves the invariant. *)
Lemma pinv_step j (p p' : @pstate A) : pstep SIZE j p p' → pinv SIZE p → pinv SIZE p'.
Proof using HS.
  destruct 1 as [b W R h vs v Hj|b W R h vs v t s Hj Hs Hsq|b W R h vs v t s Hj Hs
    |b W R h vs v t s ph Hj Hph Hs|b W R h vs t s Hj Hs|b W R h vs Hj|b W R h vs r s Hj Hs Hsq
    |b W R h vs r s v' Hj Hs|b W R h vs r s Hj Hs]; intros Hi.
  - by apply pinv_claimW.
  - rewrite <- (list_insert_id b (pos SIZE t) s) by done.
    destruct (pi_wr _ _ Hi _ _ _ _ Hj Hs) as (?&?&?&?).
    eapply pinv_wphase; eauto; [done|]. intros Hn.
    destruct (pi_live _ _ Hi _ _ Hs Hn) as (j0 & v0 & t' & Hv & Hp).
    destruct (pi_wr _ _ Hi j0 _ t' s Hv) as (_&_&Ho&_); [by rewrite (slot_at_same_pos _ _ _ _ Hp)|].
    specialize (Ho I). assert (t' = t) as -> by congruence.
    assert (j = j0) as <- by (eapply (pi_wuniq _ _ Hi); eauto). simpl in *. congruence.
  - destruct (pi_wr _ _ Hi _ _ _ _ Hj Hs) as (?&?&Ho&?). specialize (Ho I).
    eapply pinv_wphase; eauto; done.
  - destruct (pi_wr _ _ Hi _ _ _ _ Hj Hs) as (?&?&Ho&Hok).
    assert (seq s = t) by (destruct Hph; subst; by apply Ho).
    eapply pinv_wphase; eauto; [done| |done]. simpl.
    destruct Hph; subst; simpl in Hok; [by rewrite Hok|by rewrite (proj1 Hok)].
  - by apply pinv_pubW.
  - by apply pinv_claimR.
  - rewrite <- (list_insert_id b (pos SIZE r) s) by done.
    eapply pinv_rphase; eauto. intros Hn.
    destruct (pi_live _ _ Hi _ _ Hs Hn) as (j0 & v0 & t' & Hv & Hp).
    destruct (pi_wr _ _ Hi j0 _ t' s Hv) as (_&_&Ho&_); [by rewrite (slot_at_same_pos _ _ _ _ Hp)|].
    specialize (Ho I). apart.
  - destruct (pi_rd _ _ Hi _ _ _ _ Hj Hs) as (?&?&Ho). specialize (Ho I).
    eapply pinv_rphase; eauto; done.
  - by apply pinv_pubR.
Qed.
End Preservation.

(** ** How far tickets and sequence numbers can be apart *)

Section Bounds.
Context {A : Type} (SIZE : Z) (HS : 2 <= SIZE).
Context (p : @pstate A) (Hi : pinv SIZE p).
Let n := length (p_views p).

Lemma seq_nonneg t s : slot_at SIZE (p_buf p) t = Some s → 0 <= seq s.
Proof using Hi. intros Hs. destruct (pi_slot _ _ Hi _ _ Hs) as (t0 & ? & ? & ? & ?). lia. Qed.

Lemma slot_at_round t k : slot_at SIZE (p_buf p) (t - SIZE * k) = slot_at SIZE (p_buf p) t.
Proof using HS.
  apply slot_at_same_pos, pos_eq; [done|].
  replace (t - SIZE * k) with (t + (- k) * SIZE) by lia. apply Z.mod_add. lia.
Qed.

(** A writer is behind by fewer rounds than there are threads: the earlier
    tickets of the slot that are still to be written are held by others. *)
Lemma writer_window j ph t s :
  p_views p !! j = Some (VW ph t) → slot_at SIZE (p_buf p) t = Some s →
  0 <= t - seq s < SIZE * Z.of_nat n.
Proof using HS Hi.
  intros Hj Hs. destruct (pi_wr _ _ Hi _ _ _ _ Hj Hs) as (Ht & Hle & _).
  pose proof (seq_nonneg _ _ Hs). split; [lia|].
  destruct (Z.lt_ge_cases (t - seq s) (SIZE * Z.of_nat n)) as [|Hge]; [done|exfalso].
  enough (S n ≤ n)%nat by lia.
  apply (pigeonhole n (S n) (λ k j', ∃ ph', p_views p !! j' = Some (VW ph' (t - SIZE * Z.of_nat k)))).
  - intros k Hk. assert (SIZE * Z.of_nat k <= SIZE * Z.of_nat n) by nia.
    destruct (pi_wex _ _ Hi (t - SIZE * Z.of_nat k) s) as (j' & ph' & Hv); [lia| |lia|].
    + by rewrite slot_at_round.
    + exists j'. split; [by eapply lookup_lt_Some|eauto].
  - intros k k' j' (ph1 & H1) (ph2 & H2). rewrite H1 in H2. simplify_eq. nia.
Qed.

Lemma reader_window j ph r s :
  p_views p !! j = Some (VR ph r) → slot_at SIZE (p_buf p) r = Some s →
  0 <= r + 1 - seq s <= SIZE * Z.of_nat n.
Proof using HS Hi.
  intros Hj Hs. destruct (pi_rd _ _ Hi _ _ _ _ Hj Hs) as (Ht & Hle & _).
  pose proof (seq_nonneg _ _ Hs). split; [lia|].
  destruct (Z.le_gt_cases (r + 1 - seq s) (SIZE * Z.of_nat n)) as [|Hge]; [done|exfalso].
  enough (S n ≤ n)%nat by lia.
  apply (pigeonhole n (S n) (λ k j', ∃ ph', p_views p !! j' = Some (VR ph' (r - SIZE * Z.of_nat k)))).
  - intros k Hk. assert (SIZE * Z.of_nat k <= SIZE * Z.of_nat n) by nia.
    destruct (pi_rex _ _ Hi (r - SIZE * Z.of_nat k) s) as (j' & ph' & Hv); [lia| |lia|].
    + by rewrite slot_at_round.
    + exists j'. split; [by eapply lookup_lt_Some|eauto].
  - intros k k' j' (ph1 & H1) (ph2 & H2). rewrite H1 in H2. simplify_eq. nia.
Qed.

(** Every ticket between the counters is held by a writer or is the
    content of a full slot. *)
Lemma unread_ticket t s :
  p_R p <= t < p_W p → slot_at SIZE (p_buf p) t = Some s →
  seq s = t + 1 ∨ ∃ j ph, p_views p !! j = Some (VW ph t).
Proof using HS Hi.
  intros Ht Hs. pose proof (pi_R _ _ Hi).
  destruct (Z.le_gt_cases (seq s) t) as [Hle|Hgt]; [right; eapply (pi_wex _ _ Hi); eauto; lia|].
  left. destruct (pi_slot _ _ Hi _ _ Hs) as (t0 & ? & Hp & Hr & Hc).
  destruct (Z.le_gt_cases SIZE t0) as [Hge|?]; [specialize (Hr Hge)|]; apart.
Qed.

(** The threads that hold a write ticket. *)
Definition is_writer (v : @view A) : bool := match v with VW _ _ => true | _ => false end.
Definition writers (vs : list (@view A)) : list nat :=
  filter (λ j, match vs !! j with Some v => is_writer v | None => false end = true)
         (List.seq 0 (length vs)).

Lemma elem_of_writers j ph t vs : vs !! j = Some (VW ph t) → j ∈ writers vs.
Proof.
  intros Hj. apply list_elem_of_filter. rewrite Hj. split; [done|].
  apply elem_of_seq. apply lookup_lt_Some in Hj. lia.
Qed.

(** The write counter is ahead of the read counter by at most the capacity
    and the writers in flight, and behind by at most the readers. *)
Lemma counters_window :
  p_W p - p_R p <= SIZE + Z.of_nat (length (writers (p_views p))) ∧ p_R p - p_W p <= Z.of_nat n.
Proof using HS Hi.
  pose proof (pi_R _ _ Hi) as HR. pose proof (pi_W _ _ Hi) as HW.
  split.
  - set (os := (inl <$> writers (p_views p)) ++ (inr <$> List.seq 0 (Z.to_nat SIZE)) : list (nat + nat)).
    assert (length os = length (writers (p_views p)) + Z.to_nat SIZE)%nat as Hos
      by (unfold os; by rewrite length_app, !length_fmap, length_seq).
    enough (Z.to_nat (p_W p - p_R p) ≤ length os)%nat by lia.
    apply (pigeonhole_list os _ (λ k o, match o with
       | inl j => ∃ ph, p_views p !! j = Some (VW ph (p_R p + Z.of_nat k))
       | inr i => ∃ s, i = pos SIZE (p_R p + Z.of_nat k) ∧
                   slot_at SIZE (p_buf p) (p_R p + Z.of_nat k) = Some s ∧
                   seq s = p_R p + Z.of_nat k + 1
       end)).
    + intros k Hk. destruct (slot_at_total SIZE HS (p_buf p) (p_R p + Z.of_nat k) (pi_len _ _ Hi)) as [s Hs].
      destruct (unread_ticket (p_R p + Z.of_nat k) s) as [Hq|(j & ph & Hv)]; [lia|done| |].
      * exists (inr (pos SIZE (p_R p + Z.of_nat k))). split; [|eauto].
        apply elem_of_app. right. apply list_elem_of_fmap. eexists. split; [done|].
        apply elem_of_seq. pose proof (pos_lt SIZE HS (p_R p + Z.of_nat k)). lia.
      * exists (inl j). split; [|eauto]. apply elem_of_app. left.
        apply list_elem_of_fmap. eexists. split; [done|]. by eapply elem_of_writers.
    + intros k k' [j|i]; [intros (ph & H1) (ph' & H2); rewrite H1 in H2; simplify_eq; lia|].
      intros (s & -> & Hs & Hq) (s' & Hp & Hs' & Hq').
      rewrite (slot_at_same_pos _ _ _ _ Hp), Hs' in Hs. simplify_eq. lia.
  - enough (Z.to_nat (p_R p - p_W p) ≤ n)%nat by lia.
    apply (pigeonhole _ _ (λ k j, ∃ ph, p_views p !! j = Some (VR ph (p_W p + Z.of_nat k)))).
    + intros k Hk. destruct (slot_at_total SIZE HS (p_buf p) (p_W p + Z.of_nat k) (pi_len _ _ Hi)) as [s Hs].
      destruct (pi_slot _ _ Hi _ _ Hs) as (t0 & ? & Hp & Hr & Hc).
      destruct (pi_rex _ _ Hi (p_W p + Z.of_nat k) s) as (j & ph & Hv); [lia|done| |].
      * destruct (Z.le_gt_cases SIZE t0) as [Hge|?]; [specialize (Hr Hge)|]; apart.
      * exists j. split; [by eapply lookup_lt_Some|eauto].
    + intros k k' j (ph & H1) (ph' & H2). rewrite H1 in H2. simplify_eq. lia.
Qed.
End Bounds.

(** ** Blocking *)

Section Blocking.
Context {A : Type} (SIZE : Z) (HS : 2 <= SIZE).
Context (p : @pstate A) (Hi : pinv SIZE p).

(** Nobody can move: every ticket holder spins on a slot that is not his. *)
Definition quiet : Prop := ∀ j v, p_views p !! j = Some v →
  match v with
  | VNone => True
  | VW (WWait _) t => ∀ s, slot_at SIZE (p_buf p) t = Some s → seq s ≠ t
  | VR RWait r => ∀ s, slot_at SIZE (p_buf p) r = Some s → seq s ≠ r + 1
  | _ => False
  end.

Context (Hq : quiet).

(** No free slot whose writer has arrived, no full slot whose reader has. *)
Lemma quiet_free t s :
  0 <= t → slot_at SIZE (p_buf p) t = Some s → seq s = t → p_W p <= t.
Proof using Hi Hq.
  intros H0 Hs Hsq. destruct (Z.le_gt_cases (p_W p) t) as [|Hlt]; [done|exfalso].
  destruct (pi_wex _ _ Hi t s) as (j & ph & Hj); [lia|done|lia|].
  specialize (Hq _ _ Hj). destruct ph; try done. by eapply Hq.
Qed.

Lemma quiet_full t s :
  0 <= t → slot_at SIZE (p_buf p) t = Some s → seq s = t + 1 → p_R p <= t.
Proof using Hi Hq.
  intros H0 Hs Hsq. destruct (Z.le_gt_cases (p_R p) t) as [|Hlt]; [done|exfalso].
  destruct (pi_rex _ _ Hi t s) as (j & ph & Hj); [lia|done|lia|].
  specialize (Hq _ _ Hj). destruct ph; try done. by eapply Hq.
Qed.

(** A blocked reader waits for a value that no writer has claimed. *)
Lemma quiet_reader j ph r : p_views p !! j = Some (VR ph r) → p_W p <= r.
Proof using HS Hi Hq.
  intros Hj. destruct (slot_at_total SIZE HS (p_buf p) r (pi_len _ _ Hi)) as [s Hs].
  destruct (pi_rd _ _ Hi _ _ _ _ Hj Hs) as (Hr & Hle & _).
  assert (seq s ≠ r + 1) as Hne by (specialize (Hq _ _ Hj); destruct ph; [by apply Hq|done..]).
  destruct (pi_slot _ _ Hi _ _ Hs) as (t0 & H0 & Hp & _ & Hc).
  pose proof (slot_at_same_pos SIZE (p_buf p) t0 r Hp) as Hs0. rewrite Hs in Hs0.
  pose proof (quiet_free t0 s H0 Hs0). pose proof (quiet_full t0 s H0 Hs0). apart.
Qed.

(** A blocked writer is a whole buffer ahead of the readers. *)
Lemma quiet_writer j ph t : p_views p !! j = Some (VW ph t) → p_R p + SIZE <= t.
Proof using HS Hi Hq.
  intros Hj. destruct (slot_at_total SIZE HS (p_buf p) t (pi_len _ _ Hi)) as [s Hs].
  destruct (pi_wr _ _ Hi _ _ _ _ Hj Hs) as (Ht & Hle & _).
  assert (seq s ≠ t) as Hne by (specialize (Hq _ _ Hj); destruct ph; [by apply Hq|done..]).
  destruct (pi_slot _ _ Hi _ _ Hs) as (t0 & H0 & Hp & _ & Hc).
  pose proof (slot_at_same_pos SIZE (p_buf p) t0 t Hp) as Hs0. rewrite Hs in Hs0.
  pose proof (quiet_free t0 s H0 Hs0). pose proof (quiet_full t0 s H0 Hs0). apart.
Qed.
End Blocking.
