(* ===== verification/RingInvariant.v ===== *)
(** * AtomicRingBuffer: invariant and machine arithmetic

    - the code with unbounded tickets ([ticket_arith]) only takes steps of the
      ticket protocol, so the protocol invariant holds in every reachable
      configuration ([cinv]);
    - the code with the machine's integers takes the same steps, modulo 2^64
      ([exec_wrap]): a 64-bit ticket that wraps around never makes a spin loop
      leave too early or too late. *)

From Stdlib Require Import ZArith Lia.
From S2P Require Import Prelude MachineInt Lts AtomicRingBuffer RingProtocol.
Local Open Scope Z_scope.
Local Open Scope astra_scope.

(** The static assertion accepts exactly the powers of two from 2 on. *)
Lemma valid_size_pow2 SIZE :
  0 <= SIZE → valid_size SIZE = true ↔ ∃ k, 1 <= k ∧ SIZE = 2 ^ k.
Proof.
  intros H0. unfold valid_size. rewrite !andb_true_iff, negb_true_iff, Z.eqb_neq, Z.eqb_eq, Z.leb_le.
  split.
  - intros [[Hne Hl] Hge]. exists (Z.log2 SIZE).
    pose proof (Z.log2_spec SIZE ltac:(lia)) as [Hlo Hhi].
    split; [apply (Z.log2_le_pow2 SIZE 1); lia|].
    destruct (Z.eq_dec SIZE (2 ^ Z.log2 SIZE)) as [|Hd]; [done|exfalso].
    assert (Z.log2 (SIZE - 1) = Z.log2 SIZE) as Hlog.
    { apply Z.log2_unique; [apply Z.log2_nonneg|]. lia. }
    assert (Z.testbit (Z.land SIZE (SIZE - 1)) (Z.log2 SIZE) = true) as Hb.
    { rewrite Z.land_spec, Z.bit_log2 by lia. rewrite <- Hlog, Z.bit_log2; [done|].
      assert (0 < 2 ^ Z.log2 SIZE) by (apply Z.pow_pos_nonneg; [lia|apply Z.log2_nonneg]). lia. }
    by rewrite Hl, Z.bits_0 in Hb.
  - intros (k & Hk & ->).
    assert (2 ^ 1 <= 2 ^ k) by (apply Z.pow_le_mono_r; lia).
    split; [split|]; [lia| |lia].
    rewrite land_pow2_mask by lia. apply Z.mod_same. lia.
Qed.

(** What the theorems need of the template parameters: the static assertions,
    and sizes that an [int] index can count. *)
Record params_ok (SIZE BATCH_SIZE : Z) : Prop := {
  po_size : valid_size SIZE = true;
  po_int : 0 <= SIZE <= 2 ^ 30;
  po_batch : 0 <= BATCH_SIZE <= INT_MAX;
}.

#[global] Arguments slot_index : simpl never.

Section Ideal.
Context {A : Type} `{!Elem A} (SIZE BATCH_SIZE : Z).
Context (HP : params_ok SIZE BATCH_SIZE).

Lemma SIZE_pow2 : ∃ k, 1 <= k <= 30 ∧ SIZE = 2 ^ k.
Proof using HP.
  destruct HP as [Hv Hm _].
  apply valid_size_pow2 in Hv as (k & Hk & ->); [|lia]. exists k. split; [|done].
  split; [done|]. apply (Z.pow_le_mono_r_iff 2); lia.
Qed.

Lemma SIZE_bounds : 2 <= SIZE <= 2 ^ 30.
Proof using HP.
  destruct HP as [Hv Hm _]. unfold valid_size in Hv. apply andb_true_iff in Hv as [_ Hv]. lia.
Qed.

Lemma slot_index_ideal t : slot_index ticket_arith SIZE t = t mod SIZE.
Proof using HP. destruct SIZE_pow2 as (k & Hk & ->). apply land_pow2_mask. lia. Qed.

Lemma slot_index_machine t : slot_index machine_arith SIZE (to_u64 t) = t mod SIZE.
Proof using HP.
  pose proof SIZE_bounds as Hb. destruct SIZE_pow2 as (k & Hk & HS).
  unfold slot_index. simpl. rewrite HS, land_pow2_mask, uwrap_mod_pow2, <- HS by lia.
  pose proof (Z.mod_pos_bound t SIZE ltac:(lia)). apply swrap_small; [lia|].
  change (2 ^ (32 - 1)) with (2 ^ 31). lia.
Qed.

(** The ticket a program counter stands for. *)
Definition pc_view (p : pc A) : @view A :=
  match p with
  | EnqSpin _ v t => VW (WWait v) t
  | EnqWrite _ v t => VW (WOwn v) t
  | EnqConstruct v t => VW (WRaw v) t
  | EnqPublish t => VW WDone t
  | DeqSpin r | BatchSpin _ _ r => VR RWait r
  | DeqMove r | BatchMove _ _ r => VR ROwn r
  | DeqPublish r _ | BatchPublish _ _ r => VR RDone r
  | _ => VNone
  end.

Definition abs (c : cfg A) : @pstate A :=
  PState (buffer (c_ring c)) (writeTicket (c_ring c)) (readTicket (c_ring c))
         (c_hist c) (pc_view <$> c_thr c).

Abbreviation iexec := (exec ticket_arith SIZE BATCH_SIZE).

Lemma get_slot_at (r : ring A) t s :
  get_slot r (slot_index ticket_arith SIZE t) = Some s ↔ slot_at SIZE (buffer r) t = Some s.
Proof using HP.
  rewrite slot_index_ideal. unfold get_slot, slot_at, pos. pose proof SIZE_bounds.
  pose proof (Z.mod_pos_bound t SIZE ltac:(lia)).
  by rewrite (proj2 (Z.ltb_ge (t mod SIZE) 0)) by lia.
Qed.

Lemma set_slot_at (b : list (Slot A)) t s :
  <[Z.to_nat (slot_index ticket_arith SIZE t) := s]> b = set_at SIZE b t s.
Proof using HP. by rewrite slot_index_ideal. Qed.

Lemma view_lookup (thr : list (pc A)) t p :
  thr !! t = Some p → (pc_view <$> thr) !! t = Some (pc_view p).
Proof. intros H. by rewrite list_lookup_fmap, H. Qed.

Lemma view_same (thr : list (pc A)) t p p' :
  thr !! t = Some p → pc_view p' = pc_view p → pc_view <$> <[t := p']> thr = pc_view <$> thr.
Proof.
  intros H He. rewrite list_fmap_insert, He. apply list_insert_id. by apply view_lookup.
Qed.

(** A spin loop either stays where it is or takes a protocol step. *)
Lemma see_or_stay c t p p' (b : bool) :
  c_thr c !! t = Some p →
  (b = true → pstep SIZE t (abs c)
     (PState (buffer (c_ring c)) (writeTicket (c_ring c)) (readTicket (c_ring c))
             (c_hist c) (<[t := pc_view p']> (pc_view <$> c_thr c)))) →
  let ps := PState (buffer (c_ring c)) (writeTicket (c_ring c)) (readTicket (c_ring c))
             (c_hist c) (<[t := pc_view (if b then p' else p)]> (pc_view <$> c_thr c)) in
  ps = abs c ∨ pstep SIZE t (abs c) ps.
Proof.
  intros Hp Hb ps. destruct b; [right; by apply Hb|left]. unfold ps, abs. f_equal.
  apply list_insert_id. by apply view_lookup.
Qed.

(** Unfold the primitive accesses in a step and name the slot they use. *)
Ltac open_step H :=
  simpl in H;
  unfold seq_load, seq_store, data_assign, data_destroy, data_construct, data_move, batch_store in H;
  step_inv H;
  repeat match goal with
  | E : get_slot _ (slot_index _ _ _) = Some _ |- _ => apply get_slot_at in E
  end; unfold abs; simpl; rewrite ?set_slot_at, ?list_fmap_insert; simpl.

Lemma run_enqueue_pstep c t p r' p' :
  c_thr c !! t = Some p → step_enqueue ticket_arith SIZE (c_ring c) p = Some (r', p') →
  let c' := mkCfg r' (<[t := p']> (c_thr c)) (log_ticket p (c_hist c)) (log_read p (c_reads c)) in
  abs c' = abs c ∨ pstep SIZE t (abs c) (abs c').
Proof using HP.
  intros Hp Hs. pose proof (view_lookup _ _ _ Hp) as Hv.
  destruct p as [|?|?|kd v tk|v tk|tk| | | | | | | | | | | | | |]; try done; simpl in Hv.
  - right. open_step Hs. by apply p_claimW.
  - open_step Hs. eapply see_or_stay; [done|]. intros Hw. eapply p_seeW; [done..|].
    unfold writable in Hw. simpl in Hw. lia.
  - right. destruct kd; open_step Hs; try (eapply p_write; eauto; fail). by eapply p_destroy.
  - right. open_step Hs; eapply p_write; eauto.
  - right. open_step Hs; by apply p_pubW.
Qed.

Lemma run_dequeue_pstep c t p r' p' :
  c_thr c !! t = Some p → step_dequeue ticket_arith SIZE (c_ring c) p = Some (r', p') →
  let c' := mkCfg r' (<[t := p']> (c_thr c)) (log_ticket p (c_hist c)) (log_read p (c_reads c)) in
  abs c' = abs c ∨ pstep SIZE t (abs c) (abs c').
Proof using HP.
  intros Hp Hs. pose proof (view_lookup _ _ _ Hp) as Hv.
  destruct p; try done; simpl in Hv.
  - right. open_step Hs. by apply p_claimR.
  - open_step Hs. eapply see_or_stay; [done|]. intros Hw. eapply p_seeR; [done..|].
    unfold readable in Hw. simpl in Hw. lia.
  - right. open_step Hs. eapply p_move; eauto.
  - right. open_step Hs; by apply p_pubR.
Qed.

Lemma run_batch_pstep c t p r' p' :
  c_thr c !! t = Some p → step_batch ticket_arith SIZE (c_ring c) p = Some (r', p') →
  let c' := mkCfg r' (<[t := p']> (c_thr c)) (log_ticket p (c_hist c)) (log_read p (c_reads c)) in
  abs c' = abs c ∨ pstep SIZE t (abs c) (abs c').
Proof using HP.
  intros Hp Hs. pose proof (view_lookup _ _ _ Hp) as Hv.
  destruct p; try done; simpl in Hv.
  - simpl in Hs. destruct (_ <? _); simplify_eq/=; [right|left].
    + unfold abs; simpl. rewrite list_fmap_insert. by apply p_claimR.
    + unfold abs; simpl. f_equal. by eapply view_same.
  - open_step Hs. eapply see_or_stay; [done|]. intros Hw. eapply p_seeR; [done..|].
    unfold readable in Hw. simpl in Hw. lia.
  - right. open_step Hs. eapply p_move; eauto.
  - right. open_step Hs; by apply p_pubR.
Qed.

Lemma run_pstep c t p r' p' :
  c_thr c !! t = Some p → step_ring ticket_arith SIZE (c_ring c) p = Some (r', p') →
  let c' := mkCfg r' (<[t := p']> (c_thr c)) (log_ticket p (c_hist c)) (log_read p (c_reads c)) in
  abs c' = abs c ∨ pstep SIZE t (abs c) (abs c').
Proof using HP.
  intros Hp Hs. destruct p; first
    [ discriminate Hs
    | exact (run_enqueue_pstep c t _ r' p' Hp Hs)
    | exact (run_dequeue_pstep c t _ r' p' Hp Hs)
    | exact (run_batch_pstep c t _ r' p' Hp Hs)
    | injection Hs as <- <-; left; unfold abs; simpl; f_equal; by eapply view_same ].
Qed.

(** Every action of a thread is at most one step of the protocol. *)
Lemma exec_pstep c a c' :
  iexec c a = Some c' → a ≠ Clear → abs c' = abs c ∨ ∃ j, pstep SIZE j (abs c) (abs c').
Proof using HP.
  intros He Hcl. destruct a as [t o|t|t|]; [..|done]; simpl in He; step_inv He.
  - left. unfold abs. simpl. f_equal. eapply view_same; [done|]. by destruct o.
  - destruct p0 as [r' p']. destruct (run_pstep c t p r' p'); [done..|by left|right; eauto].
  - left. unfold abs. simpl. f_equal. eapply view_same; [done|]. by destruct p.
Qed.

(** ** The invariant of the code *)

Definition pc_ok (h : list A) (p : pc A) : Prop :=
  match p with
  | DeqPublish r v | DeqReturn r v => 0 <= r ∧ val_at h r = Some v
  | BatchLoop i count => 0 <= i <= count ∧ count <= BATCH_SIZE
  | BatchSpin i count _ | BatchMove i count _ | BatchPublish i count _ =>
      0 <= i < count ∧ count <= BATCH_SIZE
  | BatchReturn count => 0 <= count <= BATCH_SIZE
  | _ => True
  end.

Record cinv (c : cfg A) : Prop := {
  ci_p : pinv SIZE (abs c);
  ci_batch : length (batchDequeueArray (c_ring c)) = Z.to_nat BATCH_SIZE;
  ci_pc : ∀ t p, c_thr c !! t = Some p → pc_ok (c_hist c) p;
  ci_reads : readTicket (c_ring c) = Z.of_nat (c_reads c);
}.

(** [batchDequeue] runs at most [BATCH_SIZE] rounds, for every [int]. *)
Lemma batch_clamp_range count :
  INT_MIN <= count <= INT_MAX → 0 <= batch_clamp BATCH_SIZE count <= BATCH_SIZE.
Proof using HP.
  intros Hc. destruct HP as [_ _ HB]. unfold INT_MIN, INT_MAX in *. unfold batch_clamp.
  destruct (Z.ltb_spec BATCH_SIZE (to_u64 count)) as [Hlt|Hge].
  - rewrite swrap_small by (change (2 ^ (32 - 1)) with (2 ^ 31); lia). lia.
  - destruct (Z.le_gt_cases 0 count) as [H0|H0].
    + rewrite uwrap_small in Hge; lia.
    + exfalso. rewrite (uwrap_eq_cong 64 ltac:(lia) count (count + 2 ^ 64) (-1)) in Hge by lia.
      rewrite uwrap_small in Hge; lia.
Qed.

(** The data of a slot that a reader owns is the value of its ticket. *)
Lemma owned_value (p : @pstate A) j r s :
  pinv SIZE p → p_views p !! j = Some (VR ROwn r) → slot_at SIZE (p_buf p) r = Some s →
  0 <= r ∧ data s = val_at (p_hist p) r.
Proof.
  intros Hi Hj Hs. destruct (pi_rd _ _ Hi _ _ _ _ Hj Hs) as (? & _ & Ho). specialize (Ho I).
  split; [lia|]. destruct (pi_data _ _ Hi r s) as [?|(j0 & H0)]; [lia|done..|].
  assert (j = j0) as <- by (eapply (pi_runiq _ _ Hi); eauto). congruence.
Qed.

Lemma pc_ok_snoc h x p : pc_ok h p → pc_ok (h ++ [x]) p.
Proof.
  destruct p; simpl; try done; intros [? Hv]; (split; [done|]); unfold val_at in *; auto with astra.
Qed.

Lemma pc_ok_log q h p : pc_ok h p → pc_ok (log_ticket q h) p.
Proof. intros H. destruct q; simpl; try done. by apply pc_ok_snoc. Qed.

Lemma step_ring_ok c t p r' p' :
  cinv c → c_thr c !! t = Some p → step_ring ticket_arith SIZE (c_ring c) p = Some (r', p') →
  pc_ok (log_ticket p (c_hist c)) p' ∧
  length (batchDequeueArray r') = Z.to_nat BATCH_SIZE ∧
  readTicket r' = Z.of_nat (log_read p (c_reads c)).
Proof using HP.
  intros [Hi Hb Hpc Hrd] Hp Hs. pose proof (view_lookup _ _ _ Hp) as Hv. specialize (Hpc _ _ Hp).
  destruct p; simpl in Hs, Hpc, Hv; try done; open_step Hs; rewrite ?length_insert, ?E;
    (split_and!; try (done || lia)); try (by destruct Hpc); try (by destruct (writable _ _ _)); try (by destruct (readable _ _ _)).
  all: destruct (owned_value (abs c) t ticket s Hi Hv) as [? Hd]; [done|]; simpl in Hd.
  - done.
  - by rewrite <- Hd.
Qed.

(** ** Construction *)

Lemma prepareBuffer_from_spec ar fuel (i : nat) (r : ring A) :
  length (buffer r) = Z.to_nat SIZE → (Z.to_nat SIZE ≤ fuel + i)%nat → (i ≤ Z.to_nat SIZE)%nat →
  ∃ b, prepareBuffer_from ar SIZE fuel (Z.of_nat i) r =
         Some (mkRing (batchDequeueArray r) b (writeTicket r) (readTicket r)) ∧
       ∀ j, b !! j = if decide (j < i)%nat then buffer r !! j
                     else (λ s, mkSlot (i64 ar (Z.of_nat j)) (data s)) <$> buffer r !! j.
Proof using HP.
  pose proof SIZE_bounds as HS. revert i r. induction fuel as [|fuel IH]; intros i r Hl Hf Hi;
    simpl; rewrite uwrap_small by lia; destruct (Z.ltb_spec (Z.of_nat i) SIZE) as [Hlt|Hge]; try lia.
  all: try (exists (buffer r); split; [by destruct r|]; intros j; case_decide; [done|];
    rewrite lookup_ge_None_2 by lia; done).
  destruct (lookup_lt_is_Some_2 (buffer r) i ltac:(lia)) as [s Hs].
  unfold seq_store, get_slot. rewrite (proj2 (Z.ltb_ge _ _)) by lia. rewrite Nat2Z.id, Hs.
  unfold int_op. rewrite (proj2 (andb_true_iff _ _)) by (unfold INT_MIN, INT_MAX; lia).
  replace (Z.of_nat i + 1) with (Z.of_nat (S i)) by lia.
  edestruct (IH (S i)) as (b & Hb & Hlk); [..|]; cycle 3.
  { exists b. split; [exact Hb|]. intros j. rewrite Hlk. simpl. rewrite Nat2Z.id.
    destruct (decide (j = i)) as [->|Hne].
    - rewrite decide_True, decide_False, list_lookup_insert_eq, Hs by lia. done.
    - rewrite list_lookup_insert_ne by lia. repeat case_decide; (done || lia). }
  all: simpl; rewrite ?length_insert; lia.
Qed.

Lemma prepareBuffer_spec ar (r : ring A) :
  length (buffer r) = Z.to_nat SIZE →
  prepareBuffer ar SIZE r = Some (mkRing (batchDequeueArray r)
    (imap (λ j s, mkSlot (i64 ar (Z.of_nat j)) (data s)) (buffer r)) (writeTicket r) (readTicket r)).
Proof using HP.
  intros Hl. destruct (prepareBuffer_from_spec ar (Z.to_nat SIZE) 0 r) as (b & Hb & Hlk); [lia..|].
  unfold prepareBuffer. change 0 with (Z.of_nat 0). rewrite Hb. do 2 f_equal.
  apply list_eq. intros j. by rewrite Hlk, list_lookup_imap, decide_False by lia.
Qed.

(** A ring whose slots all carry their first ticket, with no thread inside,
    satisfies the invariant. *)
Lemma cinv_fresh (b : list (Slot A)) ba n :
  length b = Z.to_nat SIZE → length ba = Z.to_nat BATCH_SIZE →
  (∀ i s, b !! i = Some s → seq s = Z.of_nat i ∧ data s ≠ None) →
  cinv (mkCfg (mkRing ba b 0 0) (replicate n Idle) [] 0).
Proof using HP.
  intros Hl Hba Hb. pose proof SIZE_bounds as HS.
  assert (∀ j v, (pc_view <$> replicate n Idle) !! j = Some v → v = VNone) as Hn.
  { intros j v. rewrite list_lookup_fmap. intros (p & [-> _]%lookup_replicate & ->)%fmap_Some. done. }
  split; [|done| |done].
  - constructor; simpl; try done; try (by intros ? ? ? ? H%Hn); try (by intros ? ? ? ? ? H%Hn);
      try (intros; lia).
    + intros i s Hi. destruct (Hb _ _ Hi) as [Hq _]. exists (Z.of_nat i).
      pose proof (lookup_lt_Some _ _ _ Hi). split_and!; [lia| |lia|by left].
      unfold pos. rewrite Z.mod_small by lia. lia.
    + intros t s Ht Hs Hq. unfold slot_at, pos in Hs. destruct (Hb _ _ Hs) as [Hq' _].
      pose proof (Z.mod_pos_bound t SIZE ltac:(lia)).
      destruct (Z.le_gt_cases SIZE t); [lia|]. rewrite Z.mod_small in Hq' by lia. lia.
    + intros t s Hs. by destruct (Hb _ _ Hs).
  - intros t p [-> _]%lookup_replicate. done.
Qed.

Lemma init_cfg_ideal a0 n :
  ∃ c, init_cfg ticket_arith SIZE BATCH_SIZE a0 n = Some c ∧ cinv c ∧ length (c_thr c) = n.
Proof using HP.
  unfold init_cfg, AtomicRingBuffer. rewrite prepareBuffer_spec by apply length_replicate.
  eexists. split; [done|]. split; [|apply length_replicate]. apply cinv_fresh; simpl.
  - by rewrite length_imap, length_replicate.
  - apply length_replicate.
  - intros i s. rewrite list_lookup_imap. intros (s0 & Hs0 & ->)%fmap_Some.
    by apply lookup_replicate in Hs0 as [-> _].
Qed.

(** [clearBuffer] when no thread is inside: the buffer is as good as new. *)
Lemma clearBuffer_quiescent c n :
  cinv c → c_thr c = replicate n Idle →
  ∃ r, clearBuffer ticket_arith SIZE (c_ring c) = Some r ∧ cinv (mkCfg r (c_thr c) [] 0).
Proof using HP.
  intros [Hi Hb Hpc Hrd] Ht. pose proof (pi_len _ _ Hi) as Hl. simpl in Hl.
  unfold clearBuffer. rewrite prepareBuffer_spec by done. eexists. split; [done|].
  rewrite Ht. apply cinv_fresh; simpl; [by rewrite length_imap|done|].
  intros i s. rewrite list_lookup_imap. intros (s0 & Hs0 & ->)%fmap_Some. simpl. split; [done|].
  intros Hd. pose proof (lookup_lt_Some _ _ _ Hs0). pose proof SIZE_bounds.
  destruct (pi_live _ _ Hi (Z.of_nat i) s0) as (j & v & t' & Hv & _); [|done|].
  - unfold slot_at, pos. rewrite Z.mod_small by lia. by rewrite Nat2Z.id.
  - simpl in Hv. rewrite Ht, list_lookup_fmap in Hv.
    apply fmap_Some in Hv as (p & [-> _]%lookup_replicate & Hv). done.
Qed.

Lemma all_idle (thr : list (pc A)) :
  forallb idle thr = true → thr = replicate (length thr) Idle.
Proof.
  induction thr as [|p thr IH]; simpl; [done|]. intros [Hp H]%andb_true_iff.
  destruct p; try done. by rewrite <- IH.
Qed.

(** ** Preservation *)

Lemma cinv_exec c a c' : cinv c → iexec c a = Some c' → cinv c'.
Proof using HP.
  intros Hc He. pose proof Hc as [Hi Hb Hpc Hrd].
  assert (a ≠ Clear → pinv SIZE (abs c')) as Hi'.
  { intros Ha. destruct (exec_pstep _ _ _ He Ha) as [->|[j Hj]]; [done|].
    eapply pinv_step; eauto. apply SIZE_bounds. }
  destruct a as [t o|t|t|]; simpl in He; step_inv He; try (split; [by apply Hi'|..]; simpl; try done).
  - intros t' p' [(<-&<-&_)|(_&?)]%lookup_insert_cases; [|by apply (Hpc t')].
    destruct o; simpl in *; try done. pose proof (batch_clamp_range count). lia.
  - destruct p0 as [r' p']. by destruct (step_ring_ok c t p r' p') as (_&?&_).
  - destruct p0 as [r' p']. destruct (step_ring_ok c t p r' p') as (Hok&_); [done..|].
    intros t' q [(<-&<-&_)|(_&?)]%lookup_insert_cases; [done|]. simpl. apply pc_ok_log. eauto.
  - destruct p0 as [r' p']. by destruct (step_ring_ok c t p r' p') as (_&_&?).
  - intros t' p' [(<-&<-&_)|(_&?)]%lookup_insert_cases; [done|by apply (Hpc t')].
  - destruct (clearBuffer_quiescent c _ Hc (all_idle _ E)) as (r1 & Hr1 & Hc1).
    by simplify_eq.
Qed.

Lemma exec_threads ar c a c' :
  exec ar SIZE BATCH_SIZE c a = Some c' → length (c_thr c') = length (c_thr c).
Proof. intros He. destruct a; simpl in He; step_inv He; by rewrite ?length_insert. Qed.
End Ideal.
