(* ===== verification/RingMachine.v ===== *)
(** * AtomicRingBuffer at machine width

    [wrap_cfg] reads a configuration with unbounded tickets at the width of
    the source: counters and sequence numbers as [int64_t], tickets as
    [uint64_t].  As long as [SIZE] times the number of threads stays below
    2^64, the machine code and the unbounded code take the same steps, so the
    invariant transfers; the 64-bit counters may wrap around any number of
    times. *)

From Stdlib Require Import ZArith Lia.
From S2P Require Import Prelude MachineInt Lts AtomicRingBuffer RingProtocol RingInvariant.
Local Open Scope Z_scope.
Local Open Scope astra_scope.

Section Machine.
Context {A : Type} `{!Elem A} (SIZE BATCH_SIZE : Z) (HP : params_ok SIZE BATCH_SIZE).

Definition wrap_slot (s : Slot A) : Slot A := mkSlot (to_i64 (seq s)) (data s).

Definition wrap_ring (r : ring A) : ring A :=
  mkRing (batchDequeueArray r) (wrap_slot <$> buffer r)
         (to_i64 (writeTicket r)) (to_i64 (readTicket r)).

Definition wrap_pc (p : pc A) : pc A :=
  match p with
  | EnqSpin k v t => EnqSpin k v (to_u64 t)
  | EnqWrite k v t => EnqWrite k v (to_u64 t)
  | EnqConstruct v t => EnqConstruct v (to_u64 t)
  | EnqPublish t => EnqPublish (to_u64 t)
  | DeqSpin t => DeqSpin (to_u64 t)
  | DeqMove t => DeqMove (to_u64 t)
  | DeqPublish t v => DeqPublish (to_u64 t) v
  | DeqReturn t v => DeqReturn (to_u64 t) v
  | BatchSpin i n t => BatchSpin i n (to_u64 t)
  | BatchMove i n t => BatchMove i n (to_u64 t)
  | BatchPublish i n t => BatchPublish i n (to_u64 t)
  | EmptySecond b x => EmptySecond b (to_i64 x)
  | p => p
  end.

Definition wrap_cfg (c : cfg A) : cfg A :=
  mkCfg (wrap_ring (c_ring c)) (wrap_pc <$> c_thr c) (c_hist c) (c_reads c).

Abbreviation iexec := (exec ticket_arith SIZE BATCH_SIZE).
Abbreviation mexec := (exec machine_arith SIZE BATCH_SIZE).

(** *** Slot accesses commute with wrapping *)

Lemma get_slot_wrap r t :
  get_slot (wrap_ring r) (slot_index machine_arith SIZE (to_u64 t)) =
  wrap_slot <$> get_slot r (slot_index ticket_arith SIZE t).
Proof using HP.
  rewrite (slot_index_machine _ _ HP), (slot_index_ideal _ _ HP). unfold get_slot. simpl.
  destruct (_ <? 0); [done|]. by rewrite list_lookup_fmap.
Qed.

Lemma set_slot_wrap r t s :
  set_slot (wrap_ring r) (slot_index machine_arith SIZE (to_u64 t)) (wrap_slot s) =
  wrap_ring (set_slot r (slot_index ticket_arith SIZE t) s).
Proof using HP.
  rewrite (slot_index_machine _ _ HP), (slot_index_ideal _ _ HP).
  unfold set_slot, wrap_ring. simpl. by rewrite list_fmap_insert.
Qed.

Lemma seq_load_wrap r t :
  seq_load (wrap_ring r) (slot_index machine_arith SIZE (to_u64 t)) =
  to_i64 <$> seq_load r (slot_index ticket_arith SIZE t).
Proof using HP. unfold seq_load. rewrite get_slot_wrap. by destruct (get_slot _ _). Qed.

Lemma seq_store_wrap r t x :
  seq_store machine_arith (wrap_ring r) (slot_index machine_arith SIZE (to_u64 t)) (to_u64 (to_u64 t + x)) =
  wrap_ring <$> seq_store ticket_arith r (slot_index ticket_arith SIZE t) (t + x).
Proof using HP.
  unfold seq_store. rewrite get_slot_wrap. destruct (get_slot _ _) as [s|]; [|done]. simpl.
  rewrite <- set_slot_wrap. unfold wrap_slot; simpl.
  by rewrite swrap_uwrap, swrap_uwrap_add by lia.
Qed.

Lemma data_assign_wrap r t v :
  data_assign (wrap_ring r) (slot_index machine_arith SIZE (to_u64 t)) v =
  wrap_ring <$> data_assign r (slot_index ticket_arith SIZE t) v.
Proof using HP.
  unfold data_assign. rewrite get_slot_wrap. destruct (get_slot _ _) as [[q [d|]]|]; [|done..].
  simpl. by rewrite <- set_slot_wrap.
Qed.

Lemma data_destroy_wrap r t :
  data_destroy (wrap_ring r) (slot_index machine_arith SIZE (to_u64 t)) =
  wrap_ring <$> data_destroy r (slot_index ticket_arith SIZE t).
Proof using HP.
  unfold data_destroy. rewrite get_slot_wrap. destruct (get_slot _ _) as [[q [d|]]|]; [|done..].
  simpl. by rewrite <- set_slot_wrap.
Qed.

Lemma data_construct_wrap r t v :
  data_construct (wrap_ring r) (slot_index machine_arith SIZE (to_u64 t)) v =
  wrap_ring <$> data_construct r (slot_index ticket_arith SIZE t) v.
Proof using HP.
  unfold data_construct. rewrite get_slot_wrap.
  destruct (get_slot _ _) as [[q [d|]]|]; simpl; [destruct trivially_destructible|..]; simpl;
    rewrite <- ?set_slot_wrap; done.
Qed.

Lemma data_move_wrap r t :
  data_move (wrap_ring r) (slot_index machine_arith SIZE (to_u64 t)) =
  prod_map (λ v, v) wrap_ring <$> data_move r (slot_index ticket_arith SIZE t).
Proof using HP.
  unfold data_move. rewrite get_slot_wrap. destruct (get_slot _ _) as [[q [d|]]|]; [|done..].
  simpl. unfold prod_map. simpl. by rewrite <- set_slot_wrap.
Qed.

Lemma batch_store_wrap r i v :
  batch_store (wrap_ring r) i v = wrap_ring <$> batch_store r i v.
Proof. unfold batch_store. simpl. by destruct (_ && _). Qed.

(** The spin loops decide as they would with unbounded tickets. *)
Lemma writable_wrap s t : Z.abs (s - t) < 2 ^ 64 →
  writable machine_arith (to_i64 s) (to_u64 t) = writable ticket_arith s t.
Proof.
  intros H. unfold writable. simpl. rewrite uwrap_swrap by lia. by apply uwrap_eqb.
Qed.

Lemma readable_wrap s t : Z.abs (s - (t + 1)) < 2 ^ 64 →
  readable machine_arith (to_i64 s) (to_u64 t) = readable ticket_arith s t.
Proof.
  intros H. unfold readable. simpl. rewrite uwrap_swrap, uwrap_add_l by lia. by apply uwrap_eqb.
Qed.

Definition map_step (o : option (ring A * pc A)) : option (ring A * pc A) :=
  prod_map wrap_ring wrap_pc <$> o.

(** One step of a thread. *)
Lemma step_wrap c t p :
  cinv SIZE BATCH_SIZE c → SIZE * Z.of_nat (length (c_thr c)) < 2 ^ 64 →
  c_thr c !! t = Some p →
  step_ring machine_arith SIZE (wrap_ring (c_ring c)) (wrap_pc p) =
  map_step (step_ring ticket_arith SIZE (c_ring c) p).
Proof using HP.
  intros Hc Hn Hp. pose proof (SIZE_bounds _ _ HP) as HS.
  pose proof (view_lookup _ _ _ Hp) as Hv. pose proof (ci_p _ _ _ Hc) as Hi.
  pose proof (writer_window SIZE (proj1 HS) _ Hi t) as Hww.
  pose proof (reader_window SIZE (proj1 HS) _ Hi t) as Hrw.
  simpl in Hww, Hrw. rewrite length_fmap in Hww, Hrw.
  destruct p; simpl in *; try done.
  - unfold map_step; simpl. unfold prod_map; simpl. unfold wrap_ring; simpl.
    by rewrite swrap_swrap_add, uwrap_swrap by lia.
  - rewrite seq_load_wrap. destruct (seq_load _ _) as [s|] eqn:E; [|done]. simpl.
    unfold seq_load in E. step_inv E. apply (get_slot_at _ _ HP) in E0.
    specialize (Hww _ _ _ Hv E0). rewrite writable_wrap by lia.
    unfold map_step; simpl. by destruct (writable _ _ _).
  - destruct k; [..|destruct trivially_destructible];
      rewrite ?data_assign_wrap, ?data_construct_wrap, ?data_destroy_wrap;
      unfold map_step; [destruct (data_assign _ _ _)..|destruct (data_construct _ _ _)|destruct (data_destroy _ _)]; done.
  - rewrite data_construct_wrap. unfold map_step. by destruct (data_construct _ _ _).
  - rewrite seq_store_wrap. unfold map_step. by destruct (seq_store _ _ _ _).
  - unfold map_step; simpl. unfold prod_map; simpl. unfold wrap_ring; simpl.
    by rewrite swrap_swrap_add, uwrap_swrap by lia.
  - rewrite seq_load_wrap. destruct (seq_load _ _) as [s|] eqn:E; [|done]. simpl.
    unfold seq_load in E. step_inv E. apply (get_slot_at _ _ HP) in E0.
    specialize (Hrw _ _ _ Hv E0). rewrite readable_wrap by lia.
    unfold map_step; simpl. by destruct (readable _ _ _).
  - rewrite data_move_wrap. unfold map_step. by destruct (data_move _ _).
  - rewrite seq_store_wrap. unfold map_step. by destruct (seq_store _ _ _ _).
  - destruct (_ <? _); [|done]. unfold map_step; simpl. unfold prod_map; simpl.
    unfold wrap_ring; simpl. by rewrite swrap_swrap_add, uwrap_swrap by lia.
  - rewrite seq_load_wrap. destruct (seq_load _ _) as [s|] eqn:E; [|done]. simpl.
    unfold seq_load in E. step_inv E. apply (get_slot_at _ _ HP) in E0.
    specialize (Hrw _ _ _ Hv E0). rewrite readable_wrap by lia.
    unfold map_step; simpl. by destruct (readable _ _ _).
  - rewrite data_move_wrap. unfold map_step. destruct (data_move _ _) as [[v r]|]; [|done]. simpl.
    rewrite batch_store_wrap. by destruct (batch_store _ _ _).
  - rewrite seq_store_wrap. unfold map_step. by destruct (seq_store _ _ _ _).
  - unfold map_step; simpl. by destruct write_first.
  - unfold map_step; simpl. by destruct write_first.
Qed.

Lemma wrap_pc_idle p : wrap_pc p = Idle ↔ p = Idle.
Proof. by destruct p. Qed.

Lemma log_ticket_wrap p (h : list A) : log_ticket (wrap_pc p) h = log_ticket p h.
Proof. by destruct p. Qed.

Lemma log_read_wrap p k : log_read (wrap_pc p) k = log_read p k.
Proof. by destruct p. Qed.

Lemma returning_wrap p : returning (wrap_pc p) = returning p.
Proof. by destruct p. Qed.

Lemma idle_wrap thr : forallb idle (wrap_pc <$> thr) = forallb idle thr.
Proof. induction thr as [|p thr IH]; [done|]. csimpl. rewrite IH. by destruct p. Qed.

Lemma clearBuffer_wrap (r : ring A) :
  length (buffer r) = Z.to_nat SIZE →
  clearBuffer machine_arith SIZE (wrap_ring r) = wrap_ring <$> clearBuffer ticket_arith SIZE r.
Proof using HP.
  intros Hl. unfold clearBuffer. rewrite !(prepareBuffer_spec _ _ HP) by (simpl; by rewrite ?length_fmap).
  simpl. unfold wrap_ring. simpl. do 2 f_equal.
  apply list_eq. intros i. rewrite list_lookup_fmap, !list_lookup_imap, list_lookup_fmap.
  by destruct (buffer r !! i).
Qed.

(** One action: the machine does what the unbounded code does. *)
Lemma exec_wrap c a :
  cinv SIZE BATCH_SIZE c → SIZE * Z.of_nat (length (c_thr c)) < 2 ^ 64 →
  mexec (wrap_cfg c) a = wrap_cfg <$> iexec c a.
Proof using HP.
  intros Hc Hn. destruct a as [t o|t|t|]; simpl.
  4: { rewrite idle_wrap, clearBuffer_wrap by apply (pi_len _ _ (ci_p _ _ _ Hc)).
       destruct (forallb _ _); [|done]. by destruct (clearBuffer _ _ _). }
  all: rewrite list_lookup_fmap; destruct (c_thr c !! t) as [p|] eqn:E; simpl; try done.
  - destruct p; simpl; try done. destruct (op_typed o); [|done].
    unfold wrap_cfg; simpl. rewrite list_fmap_insert. by destruct o.
  - rewrite (step_wrap c t p Hc Hn E). destruct (step_ring ticket_arith _ _ _) as [[r' p']|]; [|done].
    unfold wrap_cfg; simpl. by rewrite list_fmap_insert, log_ticket_wrap, log_read_wrap.
  - rewrite returning_wrap. destruct (returning p); [|done].
    unfold wrap_cfg; simpl. by rewrite list_fmap_insert.
Qed.
End Machine.
