(* ===== verification/QueueSpec.v ===== *)
(** * What a blocking MPMC queue promises

    The abstract FIFO queue that [AtomicRingBuffer] implements.  A thread calls
    an operation, the operation takes effect at one instant between call and
    return, and the thread returns: [queue_spec] is the canonical automaton
    whose traces are the linearizable histories of a FIFO queue with a blocking
    [dequeue].  [batchDequeue] is a sequence of such takes, each shown by the
    event that stores the item into the batch array; [isEmpty] is only promised
    to return (its result is characterised separately); [clearBuffer] empties
    the queue. *)

From Stdlib Require Import ZArith.
From S2P Require Import Prelude Lts AtomicRingBuffer.
Local Open Scope Z_scope.

Section QueueSpec.
Context {A : Type} (BATCH_SIZE : Z).

Inductive result :=
| RUnit
| RVal (v : A)
| RBatch (count : Z)
| RBool (b : bool).

Inductive event :=
| EvCall (t : nat) (o : op A)
| EvItem (t : nat) (i : Z) (v : A)
| EvRet (t : nat) (x : result)
| EvClear.

(** A client thread: the [Done]/[Got] states are after the instant at
    which the operation took effect. *)
Inductive athread :=
| AIdle
| AEnq (v : A)
| AEnqDone
| ADeq
| ADeqDone (v : A)
| ABatch (i count : Z)
| ABatchGot (i count : Z) (v : A)
| AEmpty.

Record qstate := QState { q_items : list A; q_thr : list athread }.

Definition acall (o : op A) : athread :=
  match o with
  | OpEnqueue _ v => AEnq v
  | OpDequeue => ADeq
  | OpBatchDequeue count => ABatch 0 (batch_clamp BATCH_SIZE count)
  | OpIsEmpty _ => AEmpty
  end.

Inductive qstep : qstate → list event → qstate → Prop :=
| q_call q ts t o :
    ts !! t = Some AIdle →
    qstep (QState q ts) [EvCall t o] (QState q (<[t := acall o]> ts))
| q_enq q ts t v :
    ts !! t = Some (AEnq v) →
    qstep (QState q ts) [] (QState (q ++ [v]) (<[t := AEnqDone]> ts))
| q_enq_ret q ts t :
    ts !! t = Some AEnqDone →
    qstep (QState q ts) [EvRet t RUnit] (QState q (<[t := AIdle]> ts))
| q_deq q ts t v :
    ts !! t = Some ADeq →
    qstep (QState (v :: q) ts) [] (QState q (<[t := ADeqDone v]> ts))
| q_deq_ret q ts t v :
    ts !! t = Some (ADeqDone v) →
    qstep (QState q ts) [EvRet t (RVal v)] (QState q (<[t := AIdle]> ts))
| q_take q ts t i count v :
    ts !! t = Some (ABatch i count) → i < count →
    qstep (QState (v :: q) ts) [] (QState q (<[t := ABatchGot i count v]> ts))
| q_item q ts t i count v :
    ts !! t = Some (ABatchGot i count v) →
    qstep (QState q ts) [EvItem t i v] (QState q (<[t := ABatch (i + 1) count]> ts))
| q_batch_ret q ts t count :
    ts !! t = Some (ABatch count count) →
    qstep (QState q ts) [EvRet t (RBatch count)] (QState q (<[t := AIdle]> ts))
| q_empty_ret q ts t b :
    ts !! t = Some AEmpty →
    qstep (QState q ts) [EvRet t (RBool b)] (QState q (<[t := AIdle]> ts))
| q_clear q ts :
    qstep (QState q ts) [EvClear] (QState [] ts).

Definition queue_spec : spec := Spec qstate event qstep.

(** The empty queue with [n] idle clients. *)
Definition queue_init (n : nat) : qstate := QState [] (replicate n AIdle).
End QueueSpec.

Arguments result : clear implicits.
Arguments event : clear implicits.
Arguments athread : clear implicits.
Arguments qstate : clear implicits.
