(* ===== verification/RingRefinement.v ===== *)
(** * AtomicRingBuffer implements the FIFO queue

    The abstraction function [aqueue] reads the abstract queue off a
    configuration: the items are the enqueued values from the read counter on,
    and a reader whose ticket is already covered by a write ticket has taken
    effect.  Every action of the code is a run of [queue_spec] with the same
    observable events. *)

From Stdlib Require Import ZArith Lia.
From S2P Require Import Prelude MachineInt Lts AtomicRingBuffer RingProtocol RingInvariant.
From S2P Require Import RingMachine QueueSpec.
Local Open Scope Z_scope.
Local Open Scope astra_scope.

Section Refinement.
Context {A : Type} `{!Elem A} (SIZE BATCH_SIZE : Z) (HP : params_ok SIZE BATCH_SIZE).

Abbreviation iexec := (exec ticket_arith SIZE BATCH_SIZE).

(** *** Observable events of the code *)

Definition ret_value (p : pc A) : list (result A) :=
  match p with
  | EnqReturn => [RUnit]
  | DeqReturn _ v => [RVal v]
  | BatchReturn count => [RBatch count]
  | EmptyReturn b => [RBool b]
  | _ => []
  end.

Definition obs (ar : arith) (c : cfg A) (a : act A) : list (event A) :=
  match a with
  | Call t o => [EvCall t o]
  | Run t =>
      match c_thr c !! t with
      | Some (BatchMove i _ ticket) =>
          match data_move (c_ring c) (slot_index ar SIZE ticket) with
          | Some (v, _) => [EvItem t i v]
          | None => []
          end
      | _ => []
      end
  | Ret t =>
      match c_thr c !! t with
      | Some p => EvRet t <$> ret_value p
      | None => []
      end
  | Clear => [EvClear]
  end.

(** *** The abstraction function *)

Definition athread_of (h : list A) (p : pc A) : athread A :=
  match p with
  | EnqTicket _ v => AEnq v
  | EnqSpin _ _ _ | EnqWrite _ _ _ | EnqConstruct _ _ | EnqPublish _ | EnqReturn => AEnqDone
  | DeqTicket => ADeq
  | DeqSpin r | DeqMove r =>
      match val_at h r with Some v => ADeqDone v | None => ADeq end
  | DeqPublish _ v | DeqReturn _ v => ADeqDone v
  | BatchLoop i count => ABatch i count
  | BatchSpin i count r | BatchMove i count r =>
      match val_at h r with Some v => ABatchGot i count v | None => ABatch i count end
  | BatchPublish i count _ => ABatch (i + 1) count
  | BatchReturn count => ABatch count count
  | EmptyFirst _ | EmptySecond _ _ | EmptyReturn _ => AEmpty
  | Idle => AIdle
  end.

Definition aqueue (c : cfg A) : qstate A :=
  QState (drop (Z.to_nat (readTicket (c_ring c))) (c_hist c))
         (athread_of (c_hist c) <$> c_thr c).

Abbreviation qrun := (@sp_run (@queue_spec A BATCH_SIZE)).

Lemma athread_lookup h (thr : list (pc A)) t p :
  thr !! t = Some p → (athread_of h <$> thr) !! t = Some (athread_of h p).
Proof. intros H. by rewrite list_lookup_fmap, H. Qed.

(** An action that changes neither the items nor what threads are seen to
    do is an empty run. *)
Lemma aqueue_same (r r' : ring A) thr h t p p' k k' :
  thr !! t = Some p → athread_of h p' = athread_of h p → readTicket r' = readTicket r →
  aqueue (mkCfg r' (<[t := p']> thr) h k') = aqueue (mkCfg r thr h k).
Proof.
  intros Hp He Hr. unfold aqueue. simpl. rewrite Hr, list_fmap_insert, He. f_equal.
  apply list_insert_id. by apply athread_lookup.
Qed.

(** The reader that waits for the ticket [W], when there is one. *)
Lemma waiting_reader (c : cfg A) :
  cinv SIZE BATCH_SIZE c → writeTicket (c_ring c) < readTicket (c_ring c) →
  ∃ j p, c_thr c !! j = Some p ∧
    (p = DeqSpin (writeTicket (c_ring c)) ∨ ∃ i count, p = BatchSpin i count (writeTicket (c_ring c)) ∧ i < count).
Proof using HP.
  intros [Hi _ Hpc _] Hlt. pose proof (SIZE_bounds _ _ HP) as [HS _].
  pose proof (pi_W _ _ Hi) as HW. simpl in HW.
  set (W := writeTicket (c_ring c)) in *.
  destruct (slot_at_total SIZE HS (buffer (c_ring c)) W (pi_len _ _ Hi)) as [s Hs].
  destruct (seq_le_next SIZE HS _ _ _ _ _ W s Hi Hs) as [Hsq _].
  destruct (pi_rex _ _ Hi W s) as (j & ph & Hv); [simpl; lia|done|simpl in *; lia|].
  simpl in Hv. rewrite list_lookup_fmap in Hv. apply fmap_Some in Hv as (p & Hp & Hv).
  destruct (pi_rd _ _ Hi j ph W s) as (_&_&Ho); [simpl; by rewrite list_lookup_fmap, Hp, Hv|done|].
  exists j, p. split; [done|]. specialize (Hpc _ _ Hp).
  assert (ph = RWait) as ->.
  { destruct ph; [done|..]; specialize (Ho I); simpl in Hsq; lia. }
  destruct p; simpl in *; simplify_eq; [by left|right]. do 2 eexists. split; [done|]. lia.
Qed.

(** A new value at ticket [length h] is only seen by the reader that holds
    that ticket. *)
Lemma athread_snoc h v p :
  (∀ ph r, pc_view p = VR ph r → 0 <= r ∧ r ≠ Z.of_nat (length h)) →
  athread_of (h ++ [v]) p = athread_of h p.
Proof.
  intros Hr.
  assert (∀ r, 0 <= r ∧ r ≠ Z.of_nat (length h) → val_at (h ++ [v]) r = val_at h r) as He.
  { intros r [? ?]. destruct (Z.lt_ge_cases r (Z.of_nat (length h))); [by rewrite val_at_snoc by lia|].
    unfold val_at. rewrite !lookup_ge_None_2; rewrite ?length_app; simpl; (done || lia). }
  destruct p; simpl in *; try done; by rewrite He by eauto.
Qed.

(** Taking a write ticket: the value enters the queue, and leaves it again
    at once when a reader is already waiting for this ticket. *)
Lemma sim_claimW c t k v n :
  cinv SIZE BATCH_SIZE c → c_thr c !! t = Some (EnqTicket k v) →
  let r := c_ring c in
  qrun (aqueue c) []
    (aqueue (mkCfg (mkRing (batchDequeueArray r) (buffer r) (writeTicket r + 1) (readTicket r))
                   (<[t := EnqSpin k v (writeTicket r)]> (c_thr c)) (c_hist c ++ [v]) n)).
Proof using HP.
  intros Hc Ht r. pose proof (ci_p _ _ _ Hc) as Hi.
  pose proof (pi_W _ _ Hi) as HW. pose proof (pi_R _ _ Hi) as HR. simpl in HW, HR. fold r in HW, HR.
  pose proof (athread_lookup (c_hist c) _ _ _ Ht) as Hat. simpl in Hat.
  pose proof (SIZE_bounds _ _ HP) as [HS _].
  assert (Hrd : ∀ j p ph x, c_thr c !! j = Some p → pc_view p = VR ph x → 0 <= x < readTicket r).
  { intros j p ph x Hp Hv. destruct (slot_at_total SIZE HS (buffer r) x (pi_len _ _ Hi)) as [s Hs].
    eapply (pi_rd _ _ Hi j ph x s); [|done]. simpl. by rewrite list_lookup_fmap, Hp, <- Hv. }
  unfold aqueue. simpl. fold r.
  destruct (Z.le_gt_cases (readTicket r) (writeTicket r)) as [Hle|Hgt].
  - rewrite drop_snoc_le by lia. rewrite (fmap_insert_ext _ (athread_of (c_hist c))).
    + apply (sp_one (queue_spec BATCH_SIZE)). by apply q_enq.
    + intros j p Hp Hne. apply athread_snoc. intros ph x Hv.
      pose proof (Hrd _ _ _ _ Hp Hv). lia.
  - destruct (waiting_reader c Hc Hgt) as (j & p & Hj & Hp). fold r in Hp.
    assert (t ≠ j) by (intros ->; destruct Hp as [->|(?&?&->&_)]; congruence).
    rewrite drop_snoc_gt, drop_ge by lia.
    rewrite (fmap_insert2_ext _ (athread_of (c_hist c)) _ _ _ _ _ ltac:(done) Hj).
    + assert (Hv : val_at (c_hist c ++ [v]) (writeTicket r) = Some v) by (rewrite HW; apply val_at_snoc_new).
      assert (Hn : val_at (c_hist c) (writeTicket r) = None) by (apply lookup_ge_None_2; lia).
      pose proof (athread_lookup (c_hist c) _ _ _ Hj) as Haj.
      eapply (sp_trans (queue_spec BATCH_SIZE) _ [] _ []); [apply sp_one, q_enq, Hat|].
      apply sp_one. destruct Hp as [->|(i & count & -> & ?)]; simpl; rewrite Hv; simpl in Haj; rewrite Hn in Haj.
      * apply q_deq. by rewrite list_lookup_insert_ne.
      * apply q_take; [|done]. by rewrite list_lookup_insert_ne.
    + intros i q Hq Hit Hij. apply athread_snoc. intros ph x Hx. split; [by eapply Hrd|].
      intros ->. apply Hij. eapply (pi_runiq _ _ Hi i j); simpl; rewrite list_lookup_fmap.
      * rewrite Hq, <- HW in *. simpl. by rewrite Hx.
      * rewrite Hj. simpl. by destruct Hp as [->|(? & ? & -> & _)].
Qed.

(** Taking a read ticket: the operation takes effect now if the value is
    there, and when the value arrives otherwise. *)
Lemma sim_claimR c t p p' n :
  cinv SIZE BATCH_SIZE c → c_thr c !! t = Some p →
  (p = DeqTicket ∧ p' = DeqSpin (readTicket (c_ring c)) ∨
   ∃ i count, p = BatchLoop i count ∧ i < count ∧ p' = BatchSpin i count (readTicket (c_ring c))) →
  let r := c_ring c in
  qrun (aqueue c) []
    (aqueue (mkCfg (mkRing (batchDequeueArray r) (buffer r) (writeTicket r) (readTicket r + 1))
                   (<[t := p']> (c_thr c)) (c_hist c) n)).
Proof using HP.
  intros Hc Ht Hp r. pose proof (ci_p _ _ _ Hc) as Hi.
  pose proof (pi_W _ _ Hi) as HW. pose proof (pi_R _ _ Hi) as HR. simpl in HW, HR. fold r in HW, HR.
  pose proof (athread_lookup (c_hist c) _ _ _ Ht) as Hat.
  unfold aqueue. simpl. fold r in Hp |- *. rewrite list_fmap_insert.
  replace (Z.to_nat (readTicket r + 1)) with (S (Z.to_nat (readTicket r))) by lia.
  destruct (c_hist c !! Z.to_nat (readTicket r)) as [v|] eqn:E.
  - rewrite (drop_S _ _ _ E). apply sp_one. unfold val_at.
    destruct Hp as [[-> ->]|(i & count & -> & ? & ->)]; simpl; unfold val_at; rewrite E.
    + by apply q_deq.
    + by apply q_take.
  - apply lookup_ge_None in E. rewrite !drop_ge by lia.
    rewrite list_insert_id; [constructor|]. rewrite Hat. f_equal.
    destruct Hp as [[-> ->]|(i & count & -> & ? & ->)]; simpl; unfold val_at;
      by rewrite lookup_ge_None_2 by lia.
Qed.

(** The steps on slots leave the counters alone. *)
Lemma slot_steps_counters ar (r r' : ring A) :
  (∃ i x, seq_store ar r i x = Some r') ∨ (∃ i v, data_assign r i v = Some r') ∨
  (∃ i, data_destroy r i = Some r') ∨ (∃ i v, data_construct r i v = Some r') ∨
  (∃ i v, data_move r i = Some (v, r')) ∨ (∃ i v, batch_store r i v = Some r') →
  writeTicket r' = writeTicket r ∧ readTicket r' = readTicket r.
Proof.
  unfold seq_store, data_assign, data_destroy, data_construct, data_move, batch_store.
  intros [(?&?&H)|[(?&?&H)|[(?&H)|[(?&?&H)|[(?&?&H)|(?&?&H)]]]]]; by step_inv H.
Qed.

(** The move of [batchDequeue] hands over the item of its ticket. *)
Lemma sim_item c t i count ticket v r1 r' n :
  cinv SIZE BATCH_SIZE c → c_thr c !! t = Some (BatchMove i count ticket) →
  data_move (c_ring c) (slot_index ticket_arith SIZE ticket) = Some (v, r1) →
  readTicket r' = readTicket (c_ring c) →
  qrun (aqueue c) [EvItem t i v]
    (aqueue (mkCfg r' (<[t := BatchPublish i count ticket]> (c_thr c)) (c_hist c) n)).
Proof using HP.
  intros Hc Ht Hm Hr. pose proof (ci_p _ _ _ Hc) as Hi.
  pose proof (athread_lookup (c_hist c) _ _ _ Ht) as Hat. simpl in Hat.
  unfold data_move in Hm. step_inv Hm. apply (get_slot_at _ _ HP) in E.
  destruct (owned_value SIZE (abs c) t ticket s Hi (view_lookup _ _ _ Ht)) as [_ Hd]; [done|].
  simpl in Hd. rewrite <- Hd, E0 in Hat.
  unfold aqueue. simpl. rewrite Hr, list_fmap_insert. simpl. by apply sp_one, q_item.
Qed.

Lemma sim_run c t p r' p' n :
  cinv SIZE BATCH_SIZE c → c_thr c !! t = Some p →
  step_ring ticket_arith SIZE (c_ring c) p = Some (r', p') →
  qrun (aqueue c) (obs ticket_arith c (Run t))
       (aqueue (mkCfg r' (<[t := p']> (c_thr c)) (log_ticket p (c_hist c)) n)).
Proof using HP.
  intros Hc Ht Hs. pose proof (ci_pc _ _ _ Hc _ _ Ht) as Hok.
  assert (Hstay : ∀ r2 p2, obs ticket_arith c (Run t) = [] → log_ticket p (c_hist c) = c_hist c →
    athread_of (c_hist c) p2 = athread_of (c_hist c) p → readTicket r2 = readTicket (c_ring c) →
    qrun (aqueue c) (obs ticket_arith c (Run t))
         (aqueue (mkCfg r2 (<[t := p2]> (c_thr c)) (log_ticket p (c_hist c)) n))).
  { intros r2 p2 -> -> He Hr. destruct c as [r thr h k]. simpl in *.
    rewrite (aqueue_same r r2 thr h t p p2 k); [constructor|done..]. }
  pose proof (slot_steps_counters ticket_arith (c_ring c)) as Hcnt.
  assert (obs ticket_arith c (Run t) =
    match p with
    | BatchMove i _ ticket =>
        match data_move (c_ring c) (slot_index ticket_arith SIZE ticket) with
        | Some (v, _) => [EvItem t i v] | None => [] end
    | _ => [] end) as Hobs by (simpl; by rewrite Ht).
  destruct p; simpl in Hs, Hok; try done;
    try (step_inv Hs; apply Hstay; try done; by edestruct Hcnt as [_ ?]; eauto 10; fail).
  - simplify_eq/=. rewrite Hobs. by apply sim_claimW.
  - step_inv Hs. apply Hstay; try done. by destruct (writable _ _ _).
  - simplify_eq/=. rewrite Hobs. eapply sim_claimR; eauto.
  - step_inv Hs. apply Hstay; try done. by destruct (readable _ _ _).
  - step_inv Hs. destruct p as [v r1]. simpl. apply Hstay; try done.
    + simpl. unfold data_move in E. step_inv E. apply (get_slot_at _ _ HP) in E0.
      destruct (owned_value SIZE (abs c) t ticket s (ci_p _ _ _ Hc) (view_lookup _ _ _ Ht)) as [_ Hd]; [done|].
      simpl in Hd. by rewrite <- Hd, E1.
    + edestruct Hcnt as [_ ?]; [|done]. eauto 10.
  - destruct (Z.ltb_spec i count); simplify_eq/=.
    + rewrite Hobs. eapply sim_claimR; eauto 8.
    + apply Hstay; try done. simpl. f_equal. lia.
  - step_inv Hs. apply Hstay; try done. by destruct (readable _ _ _).
  - step_inv Hs. destruct p as [v r1]. rewrite Hobs. eapply sim_item; eauto. simpl in *.
    destruct (slot_steps_counters ticket_arith r1 r') as [_ ->]; [eauto 10|].
    edestruct Hcnt as [_ ?]; [|done]. eauto 10.
Qed.

(** Every action of the unbounded code is matched by the queue. *)
Lemma sim_exec c a c' :
  cinv SIZE BATCH_SIZE c → iexec c a = Some c' →
  qrun (aqueue c) (obs ticket_arith c a) (aqueue c').
Proof using HP.
  intros Hc He. destruct a as [t o|t|t|]; simpl in He; step_inv He.
  - pose proof (athread_lookup (c_hist c) _ _ _ E) as Hat. simpl in Hat.
    unfold aqueue. simpl. rewrite list_fmap_insert.
    replace (athread_of (c_hist c) (call BATCH_SIZE o)) with (acall BATCH_SIZE o) by (by destruct o).
    by apply (sp_one (queue_spec BATCH_SIZE)), q_call.
  - destruct p0 as [r' p']. by eapply sim_run.
  - pose proof (athread_lookup (c_hist c) _ _ _ E) as Hat. simpl. rewrite E.
    unfold aqueue. simpl. rewrite list_fmap_insert. simpl.
    destruct p; simpl in *; try done; apply (sp_one (queue_spec BATCH_SIZE)).
    + by apply q_enq_ret.
    + by apply q_deq_ret.
    + by apply q_batch_ret.
    + by apply q_empty_ret.
  - apply (sp_one (queue_spec BATCH_SIZE)).
    unfold clearBuffer in E0. rewrite (prepareBuffer_spec _ _ HP) in E0 by apply (pi_len _ _ (ci_p _ _ _ Hc)).
    injection E0 as <-. unfold aqueue. simpl.
    apply all_idle in E. rewrite E, !fmap_replicate. simpl. apply q_clear.
Qed.

Lemma obs_wrap c a : obs machine_arith (wrap_cfg c) a = obs ticket_arith c a.
Proof using HP.
  destruct a as [t o|t|t|]; simpl; [done| | |done]; rewrite list_lookup_fmap;
    destruct (c_thr c !! t) as [p|]; simpl; try done; destruct p; simpl; try done.
  rewrite (data_move_wrap _ _ HP). by destruct (data_move _ _) as [[]|].
Qed.
End Refinement.
