(* ===== verification/RingTheorems.v ===== *)
(** * AtomicRingBuffer: the theorems

    All statements are about the code at machine width ([machine_arith]), run
    by [n] threads on a freshly constructed buffer, under every interleaving. *)

From Stdlib Require Import ZArith Lia.
From S2P Require Import Prelude MachineInt Lts AtomicRingBuffer RingProtocol RingInvariant.
From S2P Require Import RingMachine QueueSpec RingRefinement.
Local Open Scope Z_scope.
Local Open Scope astra_scope.

Section Theorems.
Context {A : Type} `{!Elem A} (SIZE BATCH_SIZE : Z) (HP : params_ok SIZE BATCH_SIZE).

(** A thread that is inside a member function and not about to return. *)
Definition active (p : pc A) : bool :=
  match p with Idle => false | _ => negb (returning p) end.

(** *** Facts about the unbounded code *)

Lemma live_slot (p : @pstate A) j t s :
  pinv SIZE p → slot_at SIZE (p_buf p) t = Some s →
  (∃ v, p_views p !! j = Some (VW (WOwn v) t)) ∨ p_views p !! j = Some (VR ROwn t) →
  ∃ d, data s = Some d.
Proof using HP.
  intros Hi Hs Hj. pose proof (SIZE_bounds _ _ HP) as [HS _].
  destruct (data s) as [d|] eqn:Hd; [eauto|exfalso].
  destruct (pi_live _ _ Hi _ _ Hs Hd) as (j0 & v0 & t' & Hv & Hp).
  destruct (pi_wr _ _ Hi j0 _ t' s Hv) as (_&_&Ho&_); [by rewrite (slot_at_same_pos _ _ _ _ Hp)|].
  specialize (Ho I). destruct Hj as [[v Hj]|Hj].
  - destruct (pi_wr _ _ Hi _ _ _ _ Hj Hs) as (_&_&Ho'&_). specialize (Ho' I).
    assert (t' = t) as -> by congruence.
    assert (j = j0) as <- by (eapply (pi_wuniq _ _ Hi); eauto). congruence.
  - destruct (pi_rd _ _ Hi _ _ _ _ Hj Hs) as (_&_&Ho'). specialize (Ho' I). apart.
Qed.

Lemma slot_total (c : cfg A) t :
  cinv SIZE BATCH_SIZE c →
  ∃ s, get_slot (c_ring c) (slot_index ticket_arith SIZE t) = Some s ∧
       slot_at SIZE (buffer (c_ring c)) t = Some s.
Proof using HP.
  intros [Hi _ _ _]. pose proof (SIZE_bounds _ _ HP) as [HS _].
  destruct (slot_at_total SIZE HS (buffer (c_ring c)) t (pi_len _ _ Hi)) as [s Hs].
  exists s. split; [by apply (get_slot_at _ _ HP)|done].
Qed.

Lemma step_total c t p :
  cinv SIZE BATCH_SIZE c → c_thr c !! t = Some p → active p = true →
  is_Some (step_ring ticket_arith SIZE (c_ring c) p).
Proof using HP.
  intros Hc Hp Ha. pose proof (ci_p _ _ _ Hc) as Hi. pose proof (view_lookup _ _ _ Hp) as Hv.
  pose proof (ci_pc _ _ _ Hc _ _ Hp) as Hok. pose proof (live_slot (abs c) t) as Hlive.
  assert (∀ tk, ∃ s, get_slot (c_ring c) (slot_index ticket_arith SIZE tk) = Some s ∧
       slot_at SIZE (buffer (c_ring c)) tk = Some s) as Hg by (intros; by apply slot_total).
  unfold is_Some. destruct p; try done; simpl in *; try (by eexists);
    try (destruct (Hg ticket) as (s & Hg1 & Hg2)); unfold seq_load, seq_store, data_assign,
    data_destroy, data_construct, data_move; try rewrite Hg1; try (by eexists).
  - destruct (Hlive ticket s Hi Hg2) as [d Hd]; [eauto|]. rewrite Hd.
    destruct k; [by eexists..|]. by destruct trivially_destructible; eexists.
  - destruct (pi_wr _ _ Hi _ _ _ _ Hv Hg2) as (_&_&_&[_ Hd]). rewrite Hd. by eexists.
  - destruct (Hlive ticket s Hi Hg2) as [d Hd]; [eauto|]. rewrite Hd. by eexists.
  - destruct (_ <? _); by eexists.
  - destruct (Hlive ticket s Hi Hg2) as [d Hd]; [eauto|]. rewrite Hd. simpl.
    unfold batch_store. simpl. rewrite (ci_batch _ _ _ Hc).
    rewrite (proj2 (Z.leb_le 0 i)), (proj2 (Z.ltb_lt _ _)) by lia. by eexists.
Qed.

(** A protocol-level reading of "no two threads touch the same slot": at
    most one thread owns a slot. *)
Definition owned (v : @view A) : option Z :=
  match v with
  | VW (WWait _) _ | VR RWait _ | VNone => None
  | VW _ t | VR _ t => Some t
  end.

Lemma owned_seq (p : @pstate A) j v t s :
  pinv SIZE p → p_views p !! j = Some v → owned v = Some t → slot_at SIZE (p_buf p) t = Some s →
  (∃ ph, v = VW ph t ∧ seq s = t) ∨ (∃ ph, v = VR ph t ∧ seq s = t + 1).
Proof.
  intros Hi Hj Ho Hs. destruct v as [|ph x|ph x]; [done|..].
  - left. exists ph. assert (x = t) as -> by (destruct ph; simpl in Ho; congruence).
    split; [done|]. destruct (pi_wr _ _ Hi _ _ _ _ Hj Hs) as (_&_&H&_). apply H. by destruct ph.
  - right. exists ph. assert (x = t) as -> by (destruct ph; simpl in Ho; congruence).
    split; [done|]. destruct (pi_rd _ _ Hi _ _ _ _ Hj Hs) as (_&_&H). apply H. by destruct ph.
Qed.

Lemma owner_unique (p : @pstate A) j j' v v' t t' :
  pinv SIZE p → p_views p !! j = Some v → p_views p !! j' = Some v' →
  owned v = Some t → owned v' = Some t' → pos SIZE t = pos SIZE t' → j = j'.
Proof using HP.
  intros Hi Hj Hj' Ho Ho' Hp. pose proof (SIZE_bounds _ _ HP) as [HS _].
  destruct (slot_at_total SIZE HS (p_buf p) t (pi_len _ _ Hi)) as [s Hs].
  pose proof Hs as Hs'. rewrite (slot_at_same_pos _ _ _ _ Hp) in Hs'.
  destruct (owned_seq _ _ _ _ _ Hi Hj Ho Hs) as [(ph&->&?)|(ph&->&?)],
    (owned_seq _ _ _ _ _ Hi Hj' Ho' Hs') as [(ph'&->&?)|(ph'&->&?)]; try apart.
  - assert (t = t') as -> by lia. eapply (pi_wuniq _ _ Hi); eauto.
  - assert (t = t') as -> by lia. eapply (pi_runiq _ _ Hi); eauto.
Qed.

(** *** Reachable configurations of the machine code *)

Context (a0 : A) (n : nat).

Definition fresh (m : cfg A) : Prop :=
  init_cfg machine_arith SIZE BATCH_SIZE a0 n = Some m.

Abbreviation machine := (ring_machine machine_arith SIZE BATCH_SIZE).
Abbreviation mexec := (exec machine_arith SIZE BATCH_SIZE).

Lemma init_wrap :
  ∃ c, fresh (wrap_cfg c) ∧ cinv SIZE BATCH_SIZE c ∧ length (c_thr c) = n ∧
       aqueue c = queue_init n ∧ c = mkCfg (c_ring c) (replicate n Idle) [] 0.
Proof using HP.
  destruct (init_cfg_ideal SIZE BATCH_SIZE HP a0 n) as (c & Hc & Hi & Hl).
  exists c. unfold fresh, init_cfg, AtomicRingBuffer in *.
  rewrite (prepareBuffer_spec _ _ HP) in Hc |- * by apply length_replicate.
  injection Hc as <-. split_and!; [|done|done| |done].
  - unfold wrap_cfg, wrap_ring. simpl. rewrite fmap_replicate. do 3 f_equal.
    apply list_eq. intros i. by rewrite list_lookup_fmap, !list_lookup_imap, <- option_fmap_compose.
  - unfold aqueue, queue_init. simpl. by rewrite fmap_replicate.
Qed.

Context (Hn : SIZE * Z.of_nat n < 2 ^ 64).

Lemma reach_wrap m :
  reachable (M := machine) fresh m →
  ∃ c, m = wrap_cfg c ∧ cinv SIZE BATCH_SIZE c ∧ length (c_thr c) = n.
Proof using HP Hn.
  revert m. apply invariant.
  - intros m Hm. destruct init_wrap as (c & Hc & Hi & Hl & _). unfold fresh in *.
    exists c. split_and!; [congruence|done..].
  - intros m a m' _ (c & -> & Hi & Hl) He. simpl in He.
    rewrite (exec_wrap _ _ HP) in He by (done || by rewrite Hl).
    apply fmap_Some in He as (c' & He & ->). exists c'. split_and!; [done| |].
    + by eapply cinv_exec.
    + by rewrite (exec_threads SIZE BATCH_SIZE _ _ _ _ He).
Qed.

(** *** Linearizability *)

Definition linked (m : cfg A) (q : qstate A) : Prop :=
  ∃ c, m = wrap_cfg c ∧ cinv SIZE BATCH_SIZE c ∧ length (c_thr c) = n ∧ q = aqueue c.

Lemma linked_simulates :
  simulates (S := queue_spec BATCH_SIZE) (M := machine) (obs SIZE machine_arith) linked.
Proof using HP Hn.
  intros m a m' q (c & -> & Hi & Hl & ->) He. simpl in He.
  rewrite (exec_wrap _ _ HP) in He by (done || by rewrite Hl).
  apply fmap_Some in He as (c' & He & ->). exists (aqueue c'). split.
  - rewrite (obs_wrap SIZE BATCH_SIZE HP). by apply sim_exec.
  - exists c'. split_and!; [done|by eapply cinv_exec| |done].
    by rewrite (exec_threads SIZE BATCH_SIZE _ _ _ _ He).
Qed.

(** C1. Linearizability: whatever the interleaving, the calls, returns and
    batch items that [n] threads observe on a fresh [AtomicRingBuffer] are a
    history of an atomic FIFO queue ([queue_spec]) in which every operation
    takes effect at one instant between its call and its return.  [queue_spec] lets
    [isEmpty] return either answer; [ring_isEmpty_exact] says what it returns. *)
Theorem ring_linearizable m0 σ m :
  fresh m0 → run (M := machine) m0 σ = Some m →
  ∃ q, sp_run (S := queue_spec BATCH_SIZE) (queue_init n)
         (run_obs (S := queue_spec BATCH_SIZE) (M := machine) (obs SIZE machine_arith) m0 σ) q ∧
       ∀ t, c_thr m !! t = Some Idle → q_thr q !! t = Some AIdle.
Proof using HP Hn.
  intros Hf Hr. destruct init_wrap as (c & Hc & Hi & Hl & Hq & _).
  assert (m0 = wrap_cfg c) as -> by (unfold fresh in *; congruence).
  destruct (simulates_run (queue_spec BATCH_SIZE) machine (obs SIZE machine_arith) linked
    (wrap_cfg c) σ m (queue_init n) linked_simulates) as (q & Hrun & (c' & -> & _ & _ & ->)); [|done|].
  { exists c. by rewrite Hq. }
  exists (aqueue c'). split; [done|]. intros t. simpl. rewrite !list_lookup_fmap.
  destruct (c_thr c' !! t) as [p|]; [|done]. by destruct p.
Qed.

(** *** No undefined behaviour *)

(** C3. No undefined behaviour: in every reachable configuration each thread
    inside a member function can take its next step; no slot or batch index
    is out of bounds, no dead object is assigned, destroyed or moved from,
    and no object is constructed over a live one that has a destructor. *)
Theorem ring_no_undefined_behaviour m t p :
  reachable (M := machine) fresh m → c_thr m !! t = Some p → active p = true →
  is_Some (mexec m (Run t)).
Proof using HP Hn.
  intros (c & -> & Hi & Hl)%reach_wrap Ht Ha. rewrite (exec_wrap _ _ HP) by (done || by rewrite Hl).
  simpl in Ht. rewrite list_lookup_fmap in Ht. apply fmap_Some in Ht as (p' & Hp & ->).
  destruct (step_total c t p' Hi Hp) as [[r2 p2] Hs]; [by destruct p'|].
  simpl. rewrite Hp, Hs. by eexists.
Qed.

(** *** No data race on the slots *)

(** The index of the slot whose [data] the next step reads or writes. *)
Definition touches (p : pc A) : option Z :=
  match p with
  | EnqWrite _ _ ticket | EnqConstruct _ ticket | DeqMove ticket | BatchMove _ _ ticket =>
      Some (slot_index machine_arith SIZE ticket)
  | _ => None
  end.

Lemma touches_owned p i :
  touches (wrap_pc p) = Some i → ∃ t, owned (pc_view p) = Some t ∧ i = t mod SIZE.
Proof using HP.
  destruct p; simpl; try done; intros [= <-]; eexists; (split; [done|]); by apply (slot_index_machine SIZE BATCH_SIZE HP).
Qed.

(** C4. No data race: two threads are never both about to read or write the
    [data] of the same slot. *)
Theorem ring_data_race_free m t t' p p' i :
  reachable (M := machine) fresh m → c_thr m !! t = Some p → c_thr m !! t' = Some p' →
  touches p = Some i → touches p' = Some i → t = t'.
Proof using HP Hn.
  intros (c & -> & Hi & Hl)%reach_wrap Hp Hp' Hi1 Hi2. simpl in Hp, Hp'.
  rewrite list_lookup_fmap in Hp, Hp'.
  apply fmap_Some in Hp as (q & Hq & ->). apply fmap_Some in Hp' as (q' & Hq' & ->).
  apply touches_owned in Hi1 as (x & Ho & Hx). apply touches_owned in Hi2 as (x' & Ho' & Hx').
  eapply (owner_unique (abs c)); [apply Hi|by apply view_lookup..|done|done|].
  unfold pos. congruence.
Qed.

(** *** First in, first out, by ticket *)

(** First in, first out: a [dequeue] that drew read ticket [r] returns
    exactly the value of the [enqueue] that drew write ticket [r]. *)
Theorem ring_fifo_by_ticket m t ticket v :
  reachable (M := machine) fresh m → c_thr m !! t = Some (DeqReturn ticket v) →
  ∃ r : nat, ticket = to_u64 (Z.of_nat r) ∧ c_hist m !! r = Some v.
Proof using HP Hn.
  intros (c & -> & Hi & Hl)%reach_wrap Hp. simpl in Hp. rewrite list_lookup_fmap in Hp.
  apply fmap_Some in Hp as (q & Hq & He). destruct q; simplify_eq/=.
  destruct (ci_pc _ _ _ Hi _ _ Hq) as [H0 Hv]. exists (Z.to_nat ticket0).
  by rewrite Z2Nat.id by done.
Qed.

(** *** Capacity *)

(** The threads between their write ticket and their publication. *)
Definition enqueuing (m : cfg A) : list nat := writers (pc_view <$> c_thr m).

Lemma enqueuing_wrap c : enqueuing (wrap_cfg c) = enqueuing c.
Proof.
  unfold enqueuing, writers. simpl. rewrite !length_fmap. apply list_filter_iff. intros j.
  rewrite !list_lookup_fmap. destruct (c_thr c !! j) as [p|]; [|done]. by destruct p.
Qed.

(** C18. Capacity: the counters are the numbers of tickets taken modulo 2^64,
    and enqueued values outnumber read tickets by at most [SIZE] plus the
    [enqueue] calls that have not published yet; an [enqueue] that returned
    never overran the buffer. *)
Theorem ring_capacity m :
  reachable (M := machine) fresh m →
  readTicket (c_ring m) = to_i64 (Z.of_nat (c_reads m)) ∧
  writeTicket (c_ring m) = to_i64 (Z.of_nat (length (c_hist m))) ∧
  Z.of_nat (length (c_hist m)) <= Z.of_nat (c_reads m) + SIZE + Z.of_nat (length (enqueuing m)).
Proof using HP Hn.
  intros (c & -> & Hi & Hl)%reach_wrap. pose proof (ci_p _ _ _ Hi) as Hp.
  pose proof (SIZE_bounds _ _ HP) as [HS _].
  destruct (counters_window SIZE HS _ Hp) as [Hw _]. rewrite enqueuing_wrap.
  pose proof (pi_W _ _ Hp) as HW. pose proof (ci_reads _ _ _ Hi) as HR. simpl in *.
  unfold enqueuing. rewrite <- HW, <- HR. split_and!; [done|done|]. lia.
Qed.

(** *** Blocking and termination *)

(** A thread whose next step leaves everything as it is. *)
Definition blocked (m : cfg A) (t : nat) : Prop := mexec m (Run t) = Some m.

Definition all_blocked (m : cfg A) : Prop :=
  ∀ t p, c_thr m !! t = Some p → active p = true → blocked m t.

(** What a blocked thread is doing. *)
Definition waiting (r : ring A) (p : pc A) : bool :=
  match p with
  | EnqSpin _ _ ticket =>
      match seq_load r (slot_index ticket_arith SIZE ticket) with
      | Some s => negb (writable ticket_arith s ticket) | None => false end
  | DeqSpin ticket | BatchSpin _ _ ticket =>
      match seq_load r (slot_index ticket_arith SIZE ticket) with
      | Some s => negb (readable ticket_arith s ticket) | None => false end
  | _ => false
  end.

Lemma step_changes (r r' : ring A) p p' :
  step_ring ticket_arith SIZE r p = Some (r', p') →
  (waiting r p = true ∧ r' = r ∧ p' = p) ∨ (waiting r p = false ∧ wrap_pc p' ≠ wrap_pc p).
Proof.
  intros Hs. destruct p; simpl in Hs |- *; try done; step_inv Hs; try (by right); try (by auto);
    try (destruct (writable _ _ _); simpl; [by right|by left]);
    try (destruct (readable _ _ _); simpl; [by right|by left]).
Qed.

Lemma blocked_waiting c t p :
  cinv SIZE BATCH_SIZE c → length (c_thr c) = n → c_thr c !! t = Some p → active p = true →
  blocked (wrap_cfg c) t ↔ waiting (c_ring c) p = true.
Proof using HP Hn.
  intros Hi Hl Hp Ha. unfold blocked. rewrite (exec_wrap _ _ HP) by (done || by rewrite Hl).
  destruct (step_total c t p Hi Hp Ha) as [[r' p'] Hs]. simpl. rewrite Hp, Hs. simpl.
  destruct (step_changes _ _ _ _ Hs) as [(Hw & -> & ->)|[-> Hne]].
  - split; [done|]. intros _. do 2 f_equal. rewrite list_insert_id by done.
    destruct c. by destruct p.
  - split; [|done]. intros [= _ _ _ _ Hf _]. exfalso. apply Hne.
    assert ((wrap_pc <$> <[t:=p']> (c_thr c)) !! t = (wrap_pc <$> c_thr c) !! t) as He by (by rewrite Hf).
    rewrite !list_lookup_fmap, Hp, list_lookup_insert_eq in He by (by eapply lookup_lt_Some).
    by simplify_eq.
Qed.

Lemma all_blocked_quiet c :
  cinv SIZE BATCH_SIZE c → length (c_thr c) = n → all_blocked (wrap_cfg c) →
  quiet SIZE (abs c) ∧
  ∀ t p, c_thr c !! t = Some p → active p = true → waiting (c_ring c) p = true.
Proof using HP Hn.
  intros Hi Hl Hb.
  assert (∀ t p, c_thr c !! t = Some p → active p = true → waiting (c_ring c) p = true) as Hw.
  { intros t p Hp Ha. eapply blocked_waiting; eauto. eapply (Hb t (wrap_pc p)); [|by destruct p].
    simpl. by rewrite list_lookup_fmap, Hp. }
  split; [|done]. intros j v Hv. simpl in Hv. rewrite list_lookup_fmap in Hv.
  apply fmap_Some in Hv as (p & Hp & ->). specialize (Hw _ _ Hp).
  destruct p; simpl in *; try done; try (by discriminate Hw); intros s Hs;
    apply (get_slot_at _ _ HP) in Hs; unfold seq_load in Hw; rewrite Hs in Hw; specialize (Hw eq_refl);
    unfold writable, readable in Hw; simpl in Hw; lia.
Qed.

Definition waits_to_write (p : pc A) : bool := match p with EnqSpin _ _ _ => true | _ => false end.
Definition waits_to_read (p : pc A) : bool :=
  match p with DeqSpin _ | BatchSpin _ _ _ => true | _ => false end.

(** Why a thread is blocked when all are. *)
Lemma blocked_cases c t p :
  cinv SIZE BATCH_SIZE c → length (c_thr c) = n → all_blocked (wrap_cfg c) →
  c_thr c !! t = Some p → active p = true →
  (waits_to_read p = true ∧ (length (c_hist c) < c_reads c)%nat ∧ athread_of (c_hist c) p = match p with
     DeqSpin _ => ADeq | BatchSpin i count _ => ABatch i count | _ => AIdle end) ∨
  (waits_to_write p = true ∧ Z.of_nat (c_reads c) + SIZE < Z.of_nat (length (c_hist c))).
Proof using HP Hn.
  intros Hi Hl Hb Ht Ha. destruct (all_blocked_quiet c Hi Hl Hb) as [Hq Hw].
  pose proof (ci_p _ _ _ Hi) as Hp. pose proof (pi_W _ _ Hp) as HW. simpl in HW.
  pose proof (SIZE_bounds _ _ HP) as [HS _]. pose proof (ci_reads _ _ _ Hi) as HR.
  pose proof (view_lookup _ _ _ Ht) as Hv. pose proof (Hw _ _ Ht Ha) as Hwp.
  destruct (slot_at_total SIZE HS (buffer (c_ring c)) (match p with EnqSpin _ _ x | DeqSpin x | BatchSpin _ _ x => x | _ => 0 end) (pi_len _ _ Hp)) as [s Hs].
  assert (∀ r, Z.of_nat (length (c_hist c)) <= r → val_at (c_hist c) r = None) as Hnone
    by (intros r Hr; apply lookup_ge_None_2; lia).
  destruct p; try done; simpl in Hv, Hs.
  - right. split; [done|]. pose proof (quiet_writer SIZE HS _ Hp Hq _ _ _ Hv) as Hx.
    destruct (pi_wr _ _ Hp _ _ _ _ Hv Hs) as [[_ Hlt] _]. simpl in Hx, Hlt. lia.
  - left. pose proof (quiet_reader SIZE HS _ Hp Hq _ _ _ Hv) as Hx. simpl in Hx.
    destruct (pi_rd _ _ Hp _ _ _ _ Hv Hs) as [[_ Hlt] _]. simpl in Hlt. simpl. rewrite Hnone by lia.
    split_and!; [done|lia|done].
  - left. pose proof (quiet_reader SIZE HS _ Hp Hq _ _ _ Hv) as Hx. simpl in Hx.
    destruct (pi_rd _ _ Hp _ _ _ _ Hv Hs) as [[_ Hlt] _]. simpl in Hlt. simpl. rewrite Hnone by lia.
    split_and!; [done|lia|done].
Qed.

(** C16. Deadlock freedom: if no thread can move, then every thread still
    inside the buffer is a reader and there are more readers than values, or
    is a writer and the buffer is full. *)
Theorem ring_blocks_only_when_full_or_empty m :
  reachable (M := machine) fresh m → all_blocked m →
  ∀ t p, c_thr m !! t = Some p → active p = true →
    (waits_to_read p = true ∧ (length (c_hist m) < c_reads m)%nat) ∨
    (waits_to_write p = true ∧ Z.of_nat (c_reads m) + SIZE < Z.of_nat (length (c_hist m))).
Proof using HP Hn.
  intros (c & -> & Hi & Hl)%reach_wrap Hb t q Ht Ha. simpl in Ht |- *. rewrite list_lookup_fmap in Ht.
  apply fmap_Some in Ht as (p & Ht & ->).
  destruct (blocked_cases c t p Hi Hl Hb Ht) as [(Hx & Hy & _)|[Hx Hy]]; [by destruct p|left|right];
    (split; [by destruct p|done]).
Qed.

(** The steps a thread still has to take, not counting spins. *)
Definition work (p : pc A) : nat :=
  match p with
  | EnqTicket _ _ => 5 | EnqSpin _ _ _ => 4 | EnqWrite _ _ _ => 3
  | EnqConstruct _ _ => 2 | EnqPublish _ => 1
  | DeqTicket => 4 | DeqSpin _ => 3 | DeqMove _ => 2 | DeqPublish _ _ => 1
  | BatchLoop i count => 4 * Z.to_nat (count - i) + 1
  | BatchSpin i count _ => 4 * Z.to_nat (count - i)
  | BatchMove i count _ => 4 * Z.to_nat (count - i) - 1
  | BatchPublish i count _ => 4 * Z.to_nat (count - i) - 2
  | EmptyFirst _ => 2 | EmptySecond _ _ => 1
  | _ => 0
  end.

Definition total_work (m : cfg A) : nat := sum_list (work <$> c_thr m).

Lemma total_work_wrap c : total_work (wrap_cfg c) = total_work c.
Proof.
  unfold total_work. simpl. rewrite <- list_fmap_compose. f_equal.
  apply list_fmap_ext. intros i p _. by destruct p.
Qed.

Lemma step_work c t p r' p' :
  cinv SIZE BATCH_SIZE c → c_thr c !! t = Some p → waiting (c_ring c) p = false →
  step_ring ticket_arith SIZE (c_ring c) p = Some (r', p') → (work p' < work p)%nat.
Proof.
  intros Hi Hp Hw Hs. pose proof (ci_pc _ _ _ Hi _ _ Hp) as Hok.
  destruct p; simpl in Hs, Hw, Hok |- *; try done; step_inv Hs; try lia;
    try (destruct (writable _ _ _); [simpl; lia|done]);
    try (destruct (readable _ _ _); [simpl; lia|done]).
Qed.

Lemma work_decreases c t c' :
  cinv SIZE BATCH_SIZE c → exec ticket_arith SIZE BATCH_SIZE c (Run t) = Some c' →
  c' = c ∨ (total_work c' < total_work c)%nat.
Proof.
  intros Hi He. simpl in He. step_inv He. destruct p0 as [r' p'].
  destruct (step_changes _ _ _ _ E0) as [(Hw & -> & ->)|[Hw _]]; simpl.
  - left. rewrite list_insert_id by done. destruct c. by destruct p.
  - right. pose proof (step_work _ _ _ _ _ Hi E Hw E0). unfold total_work. simpl.
    pose proof (sum_fmap_insert work (c_thr c) t p p' E). lia.
Qed.

(** Running the threads that can move reaches, within [total_work] steps, a
    configuration in which nobody can. *)
Lemma completes_aux w c :
  cinv SIZE BATCH_SIZE c → length (c_thr c) = n → (total_work c ≤ w)%nat →
  ∃ σ m', Forall (λ a, ∃ t, a = Run t) σ ∧ (length σ ≤ w)%nat ∧
    run (M := machine) (wrap_cfg c) σ = Some m' ∧ all_blocked m'.
Proof using HP Hn.
  revert c. induction w as [|w IH]; intros c Hi Hl Hw;
    destruct (list_find (λ p, active p && negb (waiting (c_ring c) p) = true) (c_thr c)) as [[t p]|] eqn:E.
  2, 4: (exists [], (wrap_cfg c); split_and!; [done|simpl; lia|done|];
    intros t q Hq Ha; simpl in Hq; rewrite list_lookup_fmap in Hq; apply fmap_Some in Hq as (p & Hp & ->);
    assert (active p = true) as Hap by (by destruct p);
    eapply blocked_waiting; eauto; eapply list_find_None, Forall_lookup in E; eauto;
    simpl in E; rewrite Hap in E; simpl in E; by apply not_true_is_false, negb_false_iff in E).
  all: apply list_find_Some in E as (Hp & [Ha Hwt%negb_true_iff]%andb_true_iff & _).
  all: destruct (step_total c t p Hi Hp Ha) as [[r' p'] Hs].
  all: pose proof (step_work c t p r' p' Hi Hp Hwt Hs) as Hlt.
  all: assert (exec ticket_arith SIZE BATCH_SIZE c (Run t) =
    Some (mkCfg r' (<[t := p']> (c_thr c)) (log_ticket p (c_hist c)) (log_read p (c_reads c)))) as He by (simpl; by rewrite Hp, Hs).
  all: pose proof (sum_fmap_insert work (c_thr c) t p p' Hp) as Hsum.
  all: unfold total_work in Hw; simpl in Hw.
  { lia. }
  destruct (IH (mkCfg r' (<[t := p']> (c_thr c)) (log_ticket p (c_hist c)) (log_read p (c_reads c)))) as (σ & m' & Hf & Hlen & Hr & Hb).
  - by eapply cinv_exec.
  - by rewrite (exec_threads SIZE BATCH_SIZE _ _ _ _ He).
  - unfold total_work. simpl. lia.
  - exists (Run t :: σ), m'. split_and!; [constructor; eauto|simpl; lia| |done].
    change (match mexec (wrap_cfg c) (Run t) with
            | Some s' => run (M := machine) s' σ | None => None end = Some m').
    rewrite (exec_wrap _ _ HP c (Run t)) by (done || by rewrite Hl). by rewrite He.
Qed.

(** C17. Termination: from every reachable configuration, at most
    [total_work] steps lead to one in which every operation has returned or
    is blocked (and blocked threads are blocked by a full or
    an empty buffer). *)
Theorem ring_operations_complete m :
  reachable (M := machine) fresh m →
  ∃ σ m', Forall (λ a, ∃ t, a = Run t) σ ∧ (length σ ≤ total_work m)%nat ∧
    run (M := machine) m σ = Some m' ∧ all_blocked m'.
Proof using HP Hn.
  intros (c & -> & Hi & Hl)%reach_wrap. rewrite total_work_wrap. by apply completes_aux.
Qed.

(** Only a failing spin test leaves the configuration unchanged; every
    other step of a thread uses up work, under every schedule. *)
Theorem ring_steps_bounded m t m' :
  reachable (M := machine) fresh m → mexec m (Run t) = Some m' →
  m' = m ∨ (total_work m' < total_work m)%nat.
Proof using HP Hn.
  intros (c & -> & Hi & Hl)%reach_wrap He.
  rewrite (exec_wrap _ _ HP) in He by (done || by rewrite Hl).
  apply fmap_Some in He as (c' & He & ->). rewrite !total_work_wrap.
  destruct (work_decreases _ _ _ Hi He) as [->|]; auto.
Qed.


(** *** isEmpty *)

Lemma writers_length (c : cfg A) : (length (writers (pc_view <$> c_thr c)) ≤ length (c_thr c))%nat.
Proof.
  rewrite <- (length_fmap pc_view), <- (length_seq (length (pc_view <$> c_thr c)) 0). apply length_filter.
Qed.

(** The two counters are never a multiple of 2^64 apart, unless they are equal. *)
Lemma counters_close (c : cfg A) :
  cinv SIZE BATCH_SIZE c → length (c_thr c) = n →
  Z.abs (writeTicket (c_ring c) - readTicket (c_ring c)) < 2 ^ 64.
Proof using HP Hn.
  intros Hi Hl. pose proof (ci_p _ _ _ Hi) as Hp. pose proof (SIZE_bounds _ _ HP) as HS.
  destruct (counters_window SIZE (proj1 HS) _ Hp) as [Hw1 Hw2]. simpl in Hw1, Hw2.
  rewrite length_fmap, Hl in Hw2. pose proof (writers_length c). rewrite Hl in *. nia.
Qed.

(** [isEmpty], run without interference and with the two loads in either
    order, returns true exactly when as many read tickets as write tickets
    have been taken; a wrapped-around counter cannot fake equality. *)
Theorem ring_isEmpty_exact m t wf :
  reachable (M := machine) fresh m → c_thr m !! t = Some Idle →
  ∃ m', run (M := machine) m [Call t (OpIsEmpty wf); Run t; Run t] = Some m' ∧
        c_thr m' !! t = Some (EmptyReturn (bool_decide (length (c_hist m) = c_reads m))).
Proof using HP Hn.
  intros (c & -> & Hi & Hl)%reach_wrap Ht. pose proof (counters_close c Hi Hl) as Hcl.
  pose proof (pi_W _ _ (ci_p _ _ _ Hi)) as HW. pose proof (ci_reads _ _ _ Hi) as HR. simpl in HW.
  pose proof (lookup_lt_Some _ _ _ Ht) as Hlt. simpl in Ht |- *. rewrite Ht. simpl.
  rewrite !list_lookup_insert_eq by (by rewrite ?length_insert). simpl.
  rewrite !list_lookup_insert_eq by (by rewrite ?length_insert). simpl.
  eexists. split; [done|]. simpl.
  rewrite !list_lookup_insert_eq by (by rewrite ?length_insert). do 2 f_equal.
  rewrite HW, HR in *. destruct wf; rewrite swrap_eqb by lia;
    destruct (Z.eqb_spec (Z.of_nat (length (c_hist c))) (Z.of_nat (c_reads c)));
    case_bool_decide; try done; lia.
Qed.

(** *** Machine integers *)

(** Under every schedule the code at machine width behaves as the code with unbounded
    tickets, read modulo 2^64. *)
Lemma ring_run_wrap σ :
  ∃ m0 c0, init_cfg machine_arith SIZE BATCH_SIZE a0 n = Some m0 ∧
    init_cfg ticket_arith SIZE BATCH_SIZE a0 n = Some c0 ∧
    run (M := machine) m0 σ =
    wrap_cfg <$> run (M := ring_machine ticket_arith SIZE BATCH_SIZE) c0 σ.
Proof using HP Hn.
  destruct (init_cfg_ideal SIZE BATCH_SIZE HP a0 n) as (c0 & Hc0 & Hi & Hl).
  destruct init_wrap as (c & Hf & _ & _ & _).
  exists (wrap_cfg c0), c0. split_and!; [|done|].
  - unfold init_cfg, AtomicRingBuffer in *.
    rewrite (prepareBuffer_spec _ _ HP) in Hc0 |- * by apply length_replicate.
    injection Hc0 as <-. unfold wrap_cfg, wrap_ring. simpl. rewrite fmap_replicate. do 3 f_equal.
    apply list_eq. intros i. by rewrite list_lookup_fmap, !list_lookup_imap, <- option_fmap_compose.
  - clear Hc0 Hf c. revert c0 Hi Hl. induction σ as [|a σ IH]; intros c Hi Hl; [done|].
    change (match mexec (wrap_cfg c) a with Some s' => run (M := machine) s' σ | None => None end =
      wrap_cfg <$> match exec ticket_arith SIZE BATCH_SIZE c a with
                   | Some s' => run (M := ring_machine ticket_arith SIZE BATCH_SIZE) s' σ | None => None end).
    rewrite (exec_wrap _ _ HP) by (done || by rewrite Hl).
    destruct (exec ticket_arith _ _ c a) as [c'|] eqn:E; simpl; [|done].
    apply IH; [by eapply cinv_exec|by rewrite (exec_threads SIZE BATCH_SIZE _ _ _ _ E)].
Qed.
End Theorems.

(** The static assertions on [SIZE] accept exactly the powers of two from
    2 on, which makes [ticket & (SIZE - 1)] the remainder of the ticket. *)
Theorem ring_size_assertion SIZE ticket :
  0 <= SIZE → valid_size SIZE = true →
  ∃ k, 1 <= k ∧ SIZE = 2 ^ k ∧ Z.land ticket (SIZE - 1) = ticket mod SIZE.
Proof.
  intros H0 Hv. apply valid_size_pow2 in Hv as (k & Hk & ->); [|done].
  exists k. split_and!; [done|done|]. apply land_pow2_mask. lia.
Qed.

(** ** A concrete run

    A buffer of two [int] slots and two threads: thread 1 asks first and spins,
    thread 0 enqueues 7, thread 1 gets it. *)

Lemma params_2_2 : params_ok 2 2.
Proof. by split. Qed.

Definition no_cfg : cfg Z := mkCfg (mkRing [] [] 0 0) [] [] 0.
Definition ex_init : cfg Z := default no_cfg (init_cfg machine_arith 2 2 0 2).
Definition ex_sched : list (act Z) :=
  [Call 1 OpDequeue; Run 1; Run 1; Call 0 (OpEnqueue EnqMove 7); Run 0; Run 0; Run 0; Run 0; Ret 0;
   Run 1; Run 1; Run 1; Ret 1].

(** The configuration after the first [k] actions. *)
Definition ex_at (k : nat) : cfg Z :=
  default no_cfg (run (M := ring_machine machine_arith 2 2) ex_init (take k ex_sched)).

Lemma ex_fresh : fresh 2 2 0 2 ex_init.
Proof. by vm_compute. Qed.

Lemma ex_reach k :
  run (M := ring_machine machine_arith 2 2) ex_init (take k ex_sched) = Some (ex_at k) →
  reachable (M := ring_machine machine_arith 2 2) (fresh 2 2 0 2) (ex_at k).
Proof. apply run_reachable. apply reach_init, ex_fresh. Qed.

Lemma ring_linearizable_witness :
  run_obs (S := queue_spec 2) (M := ring_machine machine_arith 2 2) (obs 2 machine_arith) ex_init ex_sched =
    [EvCall 1 OpDequeue; EvCall 0 (OpEnqueue EnqMove 7); EvRet 0 RUnit; EvRet 1 (RVal 7)] ∧
  ∃ q, sp_run (S := queue_spec 2) (queue_init 2)
    (run_obs (S := queue_spec 2) (M := ring_machine machine_arith 2 2) (obs 2 machine_arith) ex_init ex_sched) q.
Proof.
  split; [by vm_compute|].
  destruct (ring_linearizable 2 2 params_2_2 0 2 ltac:(lia) ex_init ex_sched (ex_at 13) ex_fresh
    ltac:(by vm_compute)) as (q & Hq & _).
  by exists q.
Defined.

Lemma ring_no_undefined_behaviour_witness :
  c_thr (ex_at 6) !! 0%nat = Some (EnqWrite EnqMove 7 0) ∧
  is_Some (exec machine_arith 2 2 (ex_at 6) (Run 0)).
Proof.
  split; [by vm_compute|].
  apply (ring_no_undefined_behaviour 2 2 params_2_2 0 2 ltac:(lia) (ex_at 6) 0 (EnqWrite EnqMove 7 0));
    [apply ex_reach; by vm_compute|by vm_compute|done].
Defined.

Lemma ring_data_race_free_witness :
  touches 2 (EnqWrite EnqMove 7 0) = Some 0 ∧ (0 = 0)%nat.
Proof.
  split; [by vm_compute|].
  apply (ring_data_race_free 2 2 params_2_2 0 2 ltac:(lia) (ex_at 6) 0 0
    (EnqWrite EnqMove 7 0) (EnqWrite EnqMove 7 0) 0);
    [apply ex_reach; by vm_compute|by vm_compute..].
Defined.

Lemma ring_fifo_by_ticket_witness :
  ∃ r : nat, 0 = to_u64 (Z.of_nat r) ∧ c_hist (ex_at 12) !! r = Some 7.
Proof.
  apply (ring_fifo_by_ticket 2 2 params_2_2 0 2 ltac:(lia) (ex_at 12) 1 0 7);
    [apply ex_reach; by vm_compute|by vm_compute].
Defined.

Lemma ring_capacity_witness :
  c_hist (ex_at 6) = [7] ∧ c_reads (ex_at 6) = 1%nat ∧ enqueuing (ex_at 6) = [0%nat] ∧
  readTicket (c_ring (ex_at 6)) = to_i64 (Z.of_nat (c_reads (ex_at 6))) ∧
  writeTicket (c_ring (ex_at 6)) = to_i64 (Z.of_nat (length (c_hist (ex_at 6)))) ∧
  Z.of_nat (length (c_hist (ex_at 6))) <=
    Z.of_nat (c_reads (ex_at 6)) + 2 + Z.of_nat (length (enqueuing (ex_at 6))).
Proof.
  split; [by vm_compute|]. split; [by vm_compute|]. split; [by vm_compute|].
  apply (ring_capacity 2 2 params_2_2 0 2 ltac:(lia)). apply ex_reach. by vm_compute.
Defined.

Lemma ring_blocks_only_when_full_or_empty_witness :
  c_thr (ex_at 3) !! 1%nat = Some (DeqSpin 0) ∧
  (length (c_hist (ex_at 3)) < c_reads (ex_at 3))%nat.
Proof.
  split; [by vm_compute|].
  destruct (ring_blocks_only_when_full_or_empty 2 2 params_2_2 0 2 ltac:(lia) (ex_at 3)) with
    (t := 1%nat) (p := DeqSpin (A := Z) 0) as [[_ H]|[H _]];
    [apply ex_reach; by vm_compute| |by vm_compute|done|exact H|discriminate H].
  intros [|[|t]] p Hp Ha; vm_compute in Hp; [|by vm_compute|discriminate Hp].
  injection Hp as <-. discriminate Ha.
Defined.

Lemma ring_operations_complete_witness :
  total_work (ex_at 4) = 8%nat ∧
  ∃ σ m', Forall (λ a, ∃ t, a = Run t) σ ∧ (length σ ≤ total_work (ex_at 4))%nat ∧
    run (M := ring_machine machine_arith 2 2) (ex_at 4) σ = Some m' ∧ all_blocked 2 2 m'.
Proof.
  split; [by vm_compute|].
  apply (ring_operations_complete 2 2 params_2_2 0 2 ltac:(lia)). apply ex_reach. by vm_compute.
Defined.

Lemma ring_steps_bounded_witness :
  ex_at 5 = ex_at 4 ∨ (total_work (ex_at 5) < total_work (ex_at 4))%nat.
Proof.
  apply (ring_steps_bounded 2 2 params_2_2 0 2 ltac:(lia) (ex_at 4) 0);
    [apply ex_reach; by vm_compute|by vm_compute].
Defined.

Lemma ring_isEmpty_exact_witness :
  ∃ m', run (M := ring_machine machine_arith 2 2) (ex_at 13) [Call 0 (OpIsEmpty false); Run 0; Run 0] = Some m' ∧
        c_thr m' !! 0%nat = Some (EmptyReturn (bool_decide (length (c_hist (ex_at 13)) = c_reads (ex_at 13)))).
Proof.
  apply (ring_isEmpty_exact 2 2 params_2_2 0 2 ltac:(lia) (ex_at 13) 0 false);
    [apply ex_reach; by vm_compute|by vm_compute].
Defined.

Lemma ring_size_assertion_witness :
  ∃ k, 1 <= k ∧ 1024 = 2 ^ k ∧ Z.land 5000 (1024 - 1) = 5000 mod 1024.
Proof. apply (ring_size_assertion 1024 5000); [lia|by vm_compute]. Defined.
