(* ===== verification/RingWrap.v ===== *)
(** * AtomicRingBuffer: wrap-around

    The counters and sequence numbers of
    [src/include/AstraLib/Buffers/atomicRingBuffer.hpp] are [int64_t] and wrap around.
    [RingTheorems.v] relates the code at machine width to unbounded tickets whose
    counters are compared as [int64_t] values; this file removes that comparison.
    Only [isEmpty] can see the difference, and only if 2^62 steps are made between
    its two loads. *)

From Stdlib Require Import ZArith Lia.
From S2P Require Import Prelude MachineInt Lts AtomicRingBuffer RingProtocol RingInvariant.
From S2P Require Import RingMachine QueueSpec RingRefinement RingTheorems.
Local Open Scope Z_scope.
Local Open Scope astra_scope.

Section Wrap.
Context {A : Type} `{!Elem A} (SIZE BATCH_SIZE : Z) (HP : params_ok SIZE BATCH_SIZE).
Context (a0 : A) (n : nat) (Hn : SIZE * Z.of_nat n < 2 ^ 64).

Abbreviation code ar := (ring_machine ar SIZE BATCH_SIZE).

(** The action is one of thread [t]. *)
Definition acts_on (t : nat) (a : act A) : bool :=
  match a with Call t' _ | Run t' | Ret t' => bool_decide (t' = t) | Clear => false end.

(** No call of [isEmpty] is suspended for 2^62 steps of other threads between its two
    loads. *)
Definition isEmpty_prompt (m0 : cfg A) (σ : list (act A)) : Prop :=
  ∀ σ1 t σ2 σ3 m1 wf, σ = σ1 ++ Run t :: σ2 ++ Run t :: σ3 → Forall (λ a, acts_on t a = false) σ2 →
    run (M := code machine_arith) m0 σ1 = Some m1 → c_thr m1 !! t = Some (EmptyFirst wf) →
    Z.of_nat (length σ2) < 2 ^ 62.

Definition counter (w : bool) (c : cfg A) : Z := if w then writeTicket (c_ring c) else readTicket (c_ring c).

(** A step of a thread takes at most one ticket. *)
Lemma step_counter ar (r r' : ring A) p p' :
  i64 ar = (λ x, x) → step_ring ar SIZE r p = Some (r', p') →
  (writeTicket r' = writeTicket r ∨ writeTicket r' = writeTicket r + 1) ∧
  (readTicket r' = readTicket r ∨ readTicket r' = readTicket r + 1).
Proof.
  intros Hi Hs. pose proof (slot_steps_counters ar r) as Hc.
  assert (∀ r'' : ring A, writeTicket r'' = writeTicket r ∧ readTicket r'' = readTicket r →
    (writeTicket r'' = writeTicket r ∨ writeTicket r'' = writeTicket r + 1) ∧
    (readTicket r'' = readTicket r ∨ readTicket r'' = readTicket r + 1)) as Hstay by (intros ? [-> ->]; auto).
  destruct p; simpl in Hs; try done; try (unfold fetch_add_write, fetch_add_read in Hs; rewrite ?Hi in Hs);
    step_inv Hs; auto; try (apply Hstay, Hc; eauto 10; done);
    try (destruct p as [v r1]; simpl; apply Hstay, Hc; eauto 10; done).
  destruct p as [v r1]. simpl in *. apply Hstay. destruct (slot_steps_counters ar r1 r') as [-> ->]; [eauto 10|].
  apply Hc. eauto 10.
Qed.

Abbreviation texec := (exec ticket_arith SIZE BATCH_SIZE).

Lemma exec_counter w c a c' t p :
  texec c a = Some c' → c_thr c !! t = Some p → idle p = false →
  Z.abs (counter w c' - counter w c) <= 1.
Proof.
  intros He Hp Hidle. unfold counter. destruct a as [t' o|t'|t'|]; simpl in He.
  - step_inv He. destruct w; lia.
  - step_inv He. destruct p1 as [r' p']. simpl.
    destruct (step_counter ticket_arith _ _ _ _ eq_refl E0) as [[H1|H1] [H2|H2]]; simpl in *; rewrite ?H1, ?H2; destruct w; lia.
  - step_inv He. destruct w; lia.
  - destruct (forallb idle (c_thr c)) eqn:E; [|done]. rewrite forallb_forall in E.
    specialize (E p). rewrite Hidle in E. exfalso. by discriminate E; apply list_elem_of_In, list_elem_of_lookup; eauto.
Qed.

Lemma exec_other t c a c' : texec c a = Some c' → acts_on t a = false → c_thr c' !! t = c_thr c !! t.
Proof.
  intros He Ha. destruct a as [t' o|t'|t'|]; simpl in He, Ha; step_inv He; try done;
    apply bool_decide_eq_false in Ha; by rewrite list_lookup_insert_ne.
Qed.

Lemma exec_second t c a c' wf x :
  texec c a = Some c' → acts_on t a = true → c_thr c' !! t = Some (EmptySecond wf x) →
  a = Run t ∧ c_thr c !! t = Some (EmptyFirst wf) ∧ x = counter wf c ∧ counter (negb wf) c' = counter (negb wf) c.
Proof.
  intros He Ha Ht. destruct a as [t' o|t'|t'|]; simpl in Ha; try done; apply bool_decide_eq_true in Ha as ->; simpl in He.
  - step_inv He. rewrite list_lookup_insert_eq in Ht by (by eapply lookup_lt_Some). by destruct o.
  - step_inv He. destruct p0 as [r' p']. simpl in Ht.
    rewrite list_lookup_insert_eq in Ht by (by eapply lookup_lt_Some). injection Ht as ->.
    destruct p; simpl in E0; try done; step_inv E0; try done; by repeat case_match.
  - step_inv He. rewrite list_lookup_insert_eq in Ht by (by eapply lookup_lt_Some). done.
Qed.

(** A thread between its two loads made the first one when it last moved. *)
Lemma first_load c0 σ c t wf x :
  run (M := code ticket_arith) c0 σ = Some c → (∀ p, c_thr c0 !! t = Some p → p = Idle) →
  c_thr c !! t = Some (EmptySecond wf x) →
  ∃ σ1 σ2 c1, σ = σ1 ++ Run t :: σ2 ∧ Forall (λ a, acts_on t a = false) σ2 ∧
    run (M := code ticket_arith) c0 σ1 = Some c1 ∧ c_thr c1 !! t = Some (EmptyFirst wf) ∧ x = counter wf c1 ∧
    Z.abs (counter (negb wf) c - counter (negb wf) c1) <= Z.of_nat (length σ2).
Proof.
  intros Hr H0. revert c Hr. induction σ as [|a σ IH] using rev_ind; intros c Hr Ht.
  { simpl in Hr. simplify_eq. by specialize (H0 _ Ht). }
  rewrite run_app in Hr. destruct (run _ σ) as [c1|] eqn:E1; [|done]. simpl in Hr.
  destruct (texec c1 a) as [c2|] eqn:E; [|done]. simplify_eq. specialize (IH c1 eq_refl).
  destruct (acts_on t a) eqn:Ha.
  - destruct (exec_second _ _ _ _ _ _ E Ha Ht) as (-> & Hp & -> & Hc).
    exists σ, [], c1. rewrite Hc. split_and!; try done. simpl. lia.
  - rewrite (exec_other _ _ _ _ E Ha) in Ht. destruct (IH Ht) as (σ1 & σ2 & c2 & -> & Hf & Hr1 & Hp & Hx & Hc).
    exists σ1, (σ2 ++ [a]), c2. split_and!; try done.
    + by rewrite <- app_assoc.
    + apply Forall_app. by repeat constructor.
    + rewrite length_app. simpl. pose proof (exec_counter (negb wf) _ _ _ _ _ E Ht eq_refl). lia.
Qed.

(** The two arithmetics differ in the comparison of [isEmpty] only. *)
Lemma exec_ideal c a :
  (∀ t wf x, a = Run t → c_thr c !! t = Some (EmptySecond wf x) → Z.abs (x - counter (negb wf) c) < 2 ^ 64) →
  exec ideal_arith SIZE BATCH_SIZE c a = texec c a.
Proof.
  intros H. destruct a as [t o|t|t|]; try done. simpl. destruct (c_thr c !! t) as [p|] eqn:E; [|done]. simpl.
  destruct p; try done. specialize (H t _ _ eq_refl E). unfold step_ring, step_isEmpty, counter in *. simpl.
  by destruct write_first; simpl in H; rewrite swrap_eqb.
Qed.

(** The two counters are always close to each other. *)
Lemma counters_near c0 σ c :
  cinv SIZE BATCH_SIZE c0 → length (c_thr c0) = n → run (M := code ticket_arith) c0 σ = Some c →
  Z.abs (writeTicket (c_ring c) - readTicket (c_ring c)) <= 2 ^ 30 + 2 ^ 63.
Proof using HP Hn.
  intros Hi Hl Hr. revert c0 Hi Hl Hr. induction σ as [|a σ IH]; intros c0 Hi Hl Hr; simpl in Hr.
  - simplify_eq. pose proof (SIZE_bounds _ _ HP) as HS. pose proof (po_int _ _ HP).
    destruct (counters_window SIZE (proj1 HS) _ (ci_p _ _ _ Hi)) as [Hw1 Hw2]. simpl in Hw1, Hw2.
    rewrite length_fmap in Hw2. pose proof (writers_length c). nia.
  - destruct (texec c0 a) as [c1|] eqn:E; [|done]. apply (IH c1); [by eapply cinv_exec| |done].
    by rewrite (exec_threads SIZE BATCH_SIZE _ _ _ _ E).
Qed.

Lemma run_snoc ar c σ a :
  run (M := code ar) c (σ ++ [a]) =
  match run (M := code ar) c σ with Some c' => exec ar SIZE BATCH_SIZE c' a | None => None end.
Proof. rewrite run_app. destruct (run c σ) as [c'|]; [|done]. simpl. by destruct (exec _ _ _ c' a). Qed.

(** C15. Overflow: the code with [int64_t] counters and sequence numbers and [uint64_t]
    tickets behaves, read modulo 2^64, as the code with unbounded integers, the
    comparison of [isEmpty] included, however often the counters wrap around: under
    every schedule in which no call of [isEmpty] is suspended for 2^62 steps of other
    threads between its two loads. *)
Theorem ring_wraparound_harmless :
  ∃ m0 c0, init_cfg machine_arith SIZE BATCH_SIZE a0 n = Some m0 ∧
    init_cfg ideal_arith SIZE BATCH_SIZE a0 n = Some c0 ∧
    ∀ σ, isEmpty_prompt m0 σ →
      run (M := code machine_arith) m0 σ = wrap_cfg <$> run (M := code ideal_arith) c0 σ.
Proof using HP Hn.
  destruct (init_cfg_ideal SIZE BATCH_SIZE HP a0 n) as (c0 & Hc0 & Hi & Hl).
  destruct (ring_run_wrap SIZE BATCH_SIZE HP a0 n Hn []) as (m0 & c0' & Hm & Hc0' & _).
  assert (∀ σ, run (M := code machine_arith) m0 σ = wrap_cfg <$> run (M := code ticket_arith) c0 σ) as Hw.
  { intros σ. destruct (ring_run_wrap SIZE BATCH_SIZE HP a0 n Hn σ) as (m1 & c1 & H1 & H2 & H3). by simplify_eq. }
  assert (c_thr c0 = replicate n Idle) as Hthr.
  { unfold init_cfg in Hc0. clear Hc0'. step_inv Hc0. by rewrite <- Hc0 at 1. }
  exists m0, c0. split_and!; [done|exact Hc0|]. intros σ Hp. rewrite Hw. f_equal. revert Hp.
  induction σ as [|a σ IH] using rev_ind; intros Hp; [done|]. rewrite !run_snoc.
  rewrite <- IH by (intros σ1 t σ2 σ3 m1 wf -> ; apply (Hp σ1 t σ2 (σ3 ++ [a])); by simplify_list_eq).
  destruct (run (M := code ticket_arith) c0 σ) as [c|] eqn:E; [|done]. symmetry. apply exec_ideal. intros t wf x -> Ht.
  destruct (first_load c0 σ c t wf x E) as (σ1 & σ2 & c1 & -> & Hf & Hr1 & Hp1 & -> & Hc); [..|done|].
  { intros p Hp0. rewrite Hthr in Hp0. by apply lookup_replicate in Hp0 as [-> _]. }
  assert (run (M := code machine_arith) m0 σ1 = Some (wrap_cfg c1)) as Hm1 by by rewrite Hw, Hr1.
  assert (Z.of_nat (length σ2) < 2 ^ 62) as Hlen.
  { apply (Hp σ1 t σ2 [] (wrap_cfg c1) wf); [by simplify_list_eq|done..|]. simpl. by rewrite list_lookup_fmap, Hp1. }
  pose proof (counters_near _ _ _ Hi Hl Hr1) as Hnear. unfold counter in *. destruct wf; simpl in *; lia.
Qed.
End Wrap.

(** Schedules of fewer than 2^62 steps. *)
Lemma short_prompt {A} `{!Elem A} SIZE BATCH_SIZE (m0 : cfg A) σ :
  Z.of_nat (length σ) < 2 ^ 62 → isEmpty_prompt SIZE BATCH_SIZE m0 σ.
Proof.
  intros Hl σ1 t σ2 σ3 m1 wf -> _ _ _. repeat (rewrite length_app in Hl || simpl in Hl). lia.
Qed.

(** An element goes through the buffer while thread 1 is between the loads of
    [isEmpty]. *)
Definition wrap_sched : list (act Z) :=
  [Call 0 (OpEnqueue EnqMove 7); Run 0; Call 1 (OpIsEmpty true); Run 1; Run 0; Run 0; Run 0; Ret 0;
   Call 0 OpDequeue; Run 0; Run 0; Run 1; Ret 1; Run 0; Run 0; Ret 0].

Lemma ring_wraparound_harmless_witness :
  ∃ m0 c0, init_cfg machine_arith 2 2 0 2 = Some m0 ∧ init_cfg ideal_arith 2 2 0 2 = Some c0 ∧
    run (M := ring_machine machine_arith 2 2) m0 wrap_sched =
    wrap_cfg <$> run (M := ring_machine ideal_arith 2 2) c0 wrap_sched ∧
    runs (M := ring_machine machine_arith 2 2) m0 wrap_sched = true.
Proof.
  destruct (ring_wraparound_harmless 2 2 params_2_2 0 2 ltac:(lia)) as (m0 & c0 & Hm & Hc & H).
  exists m0, c0. split; [exact Hm|]. split; [exact Hc|].
  split; [apply H, short_prompt; simpl; lia|]. vm_compute in Hm. injection Hm as <-. reflexivity.
Defined.
