(* ===== verification/RingTSO.v ===== *)
(** * AtomicRingBuffer under x86-TSO: the code

    [AtomicRingBuffer.v] interleaves the accesses to memory.  On x86 the plain
    stores of a thread (to the [data] and [seq] of a slot, to
    [batchDequeueArray]) go through the store buffer of the thread: they reach
    memory later, in order, and until then only the thread itself sees them.  The
    [fetch_add] on a counter is a locked instruction: it waits until the own buffer
    is empty and works on memory.  Everything else is the code of
    [AtomicRingBuffer.v], unchanged: a step runs on what its thread sees of memory,
    and its stores are appended to the buffer.

    The assignment of an element is one store here; the bytes it consists of are
    between the same two accesses to [seq] whatever their order.  [clearBuffer] is
    left out: it must not be called while others use the buffer. *)

From Stdlib Require Import ZArith Lia.
From S2P Require Import Prelude MachineInt Lts AtomicRingBuffer RingProtocol RingInvariant.
From S2P Require Import RingMachine QueueSpec RingRefinement RingTheorems.
Local Open Scope Z_scope.
Local Open Scope astra_scope.

Module RingTSO.

Section Code.
Context {A : Type} `{!Elem A} (ar : arith) (SIZE BATCH_SIZE : Z).

(** A store on its way: to [buffer[i].seq], to [buffer[i].data] ([None] after a
    destructor), to [batchDequeueArray[i]]. *)
Inductive write :=
| WSeq (i : nat) (x : Z)
| WData (i : nat) (d : option A)
| WBatch (i : nat) (v : A).

Definition commit (r : ring A) (w : write) : ring A :=
  match w with
  | WSeq i x => mkRing (batchDequeueArray r) (alter (λ s, mkSlot x (data s)) i (buffer r)) (writeTicket r) (readTicket r)
  | WData i d => mkRing (batchDequeueArray r) (alter (λ s, mkSlot (seq s) d) i (buffer r)) (writeTicket r) (readTicket r)
  | WBatch i v => mkRing (<[i := v]> (batchDequeueArray r)) (buffer r) (writeTicket r) (readTicket r)
  end.

(** The memory as a thread with buffer [ws] sees it. *)
Definition view (ws : list write) (r : ring A) : ring A := foldl commit r ws.

(** The next step is a locked instruction. *)
Definition locked (p : pc A) : bool :=
  match p with
  | EnqTicket _ _ | DeqTicket => true
  | BatchLoop i count => i <? count
  | _ => false
  end.

(** The stores of the next step of a thread that sees [r]. *)
Definition stores (r : ring A) (p : pc A) : list write :=
  let slot ticket := Z.to_nat (slot_index ar SIZE ticket) in
  match p with
  | EnqWrite EnqEmplace v ticket =>
      [WData (slot ticket) (if trivially_destructible then Some v else None)]
  | EnqWrite _ v ticket | EnqConstruct v ticket => [WData (slot ticket) (Some v)]
  | EnqPublish ticket => [WSeq (slot ticket) (i64 ar (u64 ar (ticket + 1)))]
  | DeqMove ticket =>
      match data_move r (slot_index ar SIZE ticket) with
      | Some (v, _) => [WData (slot ticket) (Some (moved_from v))]
      | None => []
      end
  | BatchMove i _ ticket =>
      match data_move r (slot_index ar SIZE ticket) with
      | Some (v, _) => [WData (slot ticket) (Some (moved_from v)); WBatch (Z.to_nat i) v]
      | None => []
      end
  | DeqPublish ticket _ | BatchPublish _ _ ticket => [WSeq (slot ticket) (i64 ar (u64 ar (ticket + SIZE)))]
  | _ => []
  end.

Record tcfg := mkTcfg {
  t_mem : ring A;
  t_buf : list (list write);
  t_thr : list (pc A);
  t_hist : list A;
  t_reads : nat;
}.

Inductive tact := TCall (t : nat) (o : op A) | TRun (t : nat) | TRet (t : nat) | TFlush (t : nat).

Definition texec (c : tcfg) (a : tact) : option tcfg :=
  match a with
  | TCall t o =>
      match t_thr c !! t with
      | Some Idle =>
          if op_typed o
          then Some (mkTcfg (t_mem c) (t_buf c) (<[t := call BATCH_SIZE o]> (t_thr c)) (t_hist c) (t_reads c))
          else None
      | _ => None
      end
  | TRun t =>
      let? p := t_thr c !! t in
      let? b := t_buf c !! t in
      if locked p
      then match b with
           | [] => let? rp := step_ring ar SIZE (t_mem c) p in
                   Some (mkTcfg rp.1 (t_buf c) (<[t := rp.2]> (t_thr c)) (log_ticket p (t_hist c)) (log_read p (t_reads c)))
           | _ => None
           end
      else let? rp := step_ring ar SIZE (view b (t_mem c)) p in
           Some (mkTcfg (t_mem c) (<[t := b ++ stores (view b (t_mem c)) p]> (t_buf c))
                        (<[t := rp.2]> (t_thr c)) (t_hist c) (t_reads c))
  | TRet t =>
      let? p := t_thr c !! t in
      if returning p
      then Some (mkTcfg (t_mem c) (t_buf c) (<[t := Idle]> (t_thr c)) (t_hist c) (t_reads c)) else None
  | TFlush t =>
      match t_buf c !! t with
      | Some (w :: b) => Some (mkTcfg (commit (t_mem c) w) (<[t := b]> (t_buf c)) (t_thr c) (t_hist c) (t_reads c))
      | _ => None
      end
  end.

Definition tso_machine : machine := Machine tcfg tact texec.

Definition tso_init (a0 : A) (n : nat) : option tcfg :=
  let? r := AtomicRingBuffer ar SIZE BATCH_SIZE a0 in
  Some (mkTcfg r (replicate n []) (replicate n Idle) [] 0).

(** Calls, returns and batch items, as in [RingRefinement.obs]. *)
Definition tobs (c : tcfg) (a : tact) : list (event A) :=
  match a with
  | TCall t o => [EvCall t o]
  | TRun t =>
      match t_thr c !! t, t_buf c !! t with
      | Some (BatchMove i _ ticket), Some b =>
          match data_move (view b (t_mem c)) (slot_index ar SIZE ticket) with
          | Some (v, _) => [EvItem t i v]
          | None => []
          end
      | _, _ => []
      end
  | TRet t => match t_thr c !! t with Some p => EvRet t <$> ret_value p | None => [] end
  | TFlush _ => []
  end.
End Code.

Arguments write : clear implicits.
Arguments tcfg : clear implicits.
Arguments tact : clear implicits.

(** ** What a buffer does to a slot *)

Section View.
Context {A : Type} `{!Elem A} (SIZE : Z).
Implicit Types (w : write A) (ws b : list (write A)) (r : ring A).

Definition on_slot (i : nat) w : bool :=
  match w with WSeq j _ | WData j _ => (j =? i)%nat | WBatch _ _ => false end.

Definition slot_upd (i : nat) (s : Slot A) w : Slot A :=
  match w with
  | WSeq j x => if (j =? i)%nat then mkSlot x (data s) else s
  | WData j d => if (j =? i)%nat then mkSlot (seq s) d else s
  | WBatch _ _ => s
  end.
Definition slot_view (i : nat) ws (s : Slot A) : Slot A := foldl (slot_upd i) s ws.

(** No store to slot [i]. *)
Definition clear_of (i : nat) ws : Prop := Forall (λ w, on_slot i w = false) ws.

Lemma commit_slot r w i : buffer (commit r w) !! i = (λ s, slot_upd i s w) <$> buffer r !! i.
Proof.
  destruct w as [j x|j d|j v]; simpl.
  1,2: destruct (Nat.eqb_spec j i) as [->|Hne];
    [by rewrite list_lookup_alter_eq|rewrite list_lookup_alter_ne by done; by destruct (buffer r !! i)].
  by destruct (buffer r !! i).
Qed.

Lemma tso_view_slot ws r i : buffer (view ws r) !! i = slot_view i ws <$> buffer r !! i.
Proof.
  revert r. induction ws as [|w ws IH]; intros r; simpl; [by destruct (buffer r !! i)|].
  rewrite IH, commit_slot. by destruct (buffer r !! i).
Qed.

Lemma view_counters ws r :
  writeTicket (view ws r) = writeTicket r ∧ readTicket (view ws r) = readTicket r ∧
  length (batchDequeueArray (view ws r)) = length (batchDequeueArray r) ∧
  length (buffer (view ws r)) = length (buffer r).
Proof.
  revert r. induction ws as [|w ws IH]; intros r; simpl; [done|].
  destruct (IH (commit r w)) as (-> & -> & -> & ->). destruct w; simpl; by rewrite ?length_alter, ?length_insert.
Qed.

Lemma slot_upd_other i w s : on_slot i w = false → slot_upd i s w = s.
Proof. destruct w; simpl; try done; by intros ->. Qed.

Lemma slot_view_clear i ws s : clear_of i ws → slot_view i ws s = s.
Proof.
  intros H. unfold slot_view. revert s. induction H as [|w ws Hw _ IH]; intros s; [done|].
  simpl. by rewrite slot_upd_other.
Qed.

Lemma slot_view_app i ws ws' s : slot_view i (ws ++ ws') s = slot_view i ws' (slot_view i ws s).
Proof. apply foldl_app. Qed.

(** Stores that leave the sequence numbers alone. *)
Definition no_seq w : Prop := match w with WSeq _ _ => False | _ => True end.

Lemma slot_view_seq i ws s : Forall no_seq ws → seq (slot_view i ws s) = seq s.
Proof.
  intros H. unfold slot_view. revert s. induction H as [|w ws Hw _ IH]; intros s; [done|].
  simpl. rewrite IH. destruct w; simpl; try done. by destruct (_ =? _)%nat.
Qed.

(** ** Steps and their stores *)

Lemma alter_insert_lookup {B} (f : B → B) (l : list B) i x :
  l !! i = Some x → alter f i l = <[i := f x]> l.
Proof.
  intros H. apply list_eq. intros j. destruct (decide (i = j)) as [->|Hne].
  - rewrite list_lookup_alter_eq, H, list_lookup_insert_eq by (by eapply lookup_lt_Some). done.
  - by rewrite list_lookup_alter_ne, list_lookup_insert_ne.
Qed.

Lemma get_slot_lookup r i s : get_slot r i = Some s → buffer r !! Z.to_nat i = Some s.
Proof. unfold get_slot. by destruct (i <? 0). Qed.

(** A step that is not locked changes memory by its stores and no more. *)
Lemma step_stores ar r p r' p' :
  locked p = false → step_ring ar SIZE r p = Some (r', p') → r' = view (stores ar SIZE r p) r.
Proof.
  intros Hl Hs. destruct p; simpl in Hl, Hs |- *; try done; try (rewrite Hl in Hs);
    unfold seq_load, seq_store, data_assign, data_destroy, data_construct, data_move, batch_store in *;
    step_inv Hs; repeat case_match; simplify_eq/=; try done;
    match goal with H : get_slot _ _ = Some _ |- _ =>
      apply get_slot_lookup in H; by rewrite (alter_insert_lookup _ _ _ _ H) end.
Qed.

(** The ticket whose slot the next step uses. *)
Definition pc_ticket (p : pc A) : option Z :=
  match p with
  | EnqSpin _ _ t | EnqWrite _ _ t | EnqConstruct _ t | EnqPublish t | DeqSpin t | DeqMove t
  | DeqPublish t _ | BatchSpin _ _ t | BatchMove _ _ t | BatchPublish _ _ t => Some t
  | _ => None
  end.

(** A step only depends on the counters and on its slot. *)
Lemma step_local ar r1 r2 p r1' p' :
  writeTicket r2 = writeTicket r1 → readTicket r2 = readTicket r1 →
  length (batchDequeueArray r2) = length (batchDequeueArray r1) →
  (∀ t, pc_ticket p = Some t → get_slot r2 (slot_index ar SIZE t) = get_slot r1 (slot_index ar SIZE t)) →
  step_ring ar SIZE r1 p = Some (r1', p') →
  stores ar SIZE r2 p = stores ar SIZE r1 p ∧ ∃ r2', step_ring ar SIZE r2 p = Some (r2', p').
Proof.
  intros HW HR Hb Hg Hs. destruct p; simpl in Hs, Hg |- *; try done; try (specialize (Hg _ eq_refl));
    unfold seq_load, seq_store, data_assign, data_destroy, data_construct, data_move, batch_store in *;
    rewrite ?Hg, ?HW, ?HR; simpl in *; step_inv Hs; simpl; rewrite ?Hb; simpl in *;
    repeat case_match; simplify_eq/=; try done; eauto.
Qed.
End View.
End RingTSO.
