(* ===== verification/RingRobust.v ===== *)
(** * AtomicRingBuffer under x86-TSO is sequentially consistent

    Every run with store buffers is matched by a run of the interleaving code in
    which each store takes effect when it is issued: a thread that spins on a stale
    sequence number is matched by a thread that does not move, every other step by
    itself.  So the threads observe nothing that they would not observe without
    store buffers, and what was proved for interleavings holds on x86. *)

From Stdlib Require Import ZArith Lia.
From S2P Require Import Prelude MachineInt Lts AtomicRingBuffer RingProtocol RingInvariant.
From S2P Require Import RingMachine QueueSpec RingRefinement RingTheorems RingTSO.
Import RingTSO.
Local Open Scope Z_scope.
Local Open Scope astra_scope.

Section Robust.
Context {A : Type} `{!Elem A} (SIZE BATCH_SIZE : Z) (HP : params_ok SIZE BATCH_SIZE).
Abbreviation pos := (RingProtocol.pos SIZE).
Abbreviation slot_at := (RingProtocol.slot_at SIZE).

(** A publication of ticket [τ] turns the sequence number [old] into [new]. *)
Definition publishes (τ old new : Z) : Prop :=
  (old = τ ∧ new = τ + 1) ∨ (old = τ + 1 ∧ new = τ + SIZE).

Definition data_of (τ : Z) (w : write A) : Prop :=
  no_seq w ∧ ∀ i, on_slot i w = true → i = pos τ.

(** The buffer of a thread.  While it spins the buffer is empty (it has just
    executed a locked instruction); while it owns a slot, the buffer holds stores to
    the data of that slot; after the publication, that store is the last one. *)
Definition pending (m : cfg A) (mem : ring A) (p : pc A) (b : list (write A)) : Prop :=
  match pc_view p with
  | VNone => b = [] ∨ ∃ τ old new ds sm s,
      b = ds ++ [WSeq (pos τ) (to_i64 new)] ∧ Forall (data_of τ) ds ∧ publishes τ old new ∧
      slot_at (buffer (c_ring m)) τ = Some sm ∧ seq sm = new ∧
      slot_at (buffer mem) τ = Some s ∧ seq s = to_i64 old
  | VW (WWait _) _ | VR RWait _ => b = []
  | VW _ τ | VR _ τ => Forall (data_of τ) b
  end.

(** No thread but [t] has a store to slot [i] on its way. *)
Definition quiet_for (c : tcfg A) (t i : nat) : Prop :=
  ∀ t' b', t' ≠ t → t_buf c !! t' = Some b' → clear_of i b'.

(** [m] is the interleaving code with unbounded tickets, with all stores done. *)
Record robust (c : tcfg A) (m : cfg A) : Prop := {
  rb_inv : cinv SIZE BATCH_SIZE m;
  rb_thr : t_thr c = wrap_pc <$> c_thr m;
  rb_hist : t_hist c = c_hist m;
  rb_reads : t_reads c = c_reads m;
  rb_W : writeTicket (t_mem c) = to_i64 (writeTicket (c_ring m));
  rb_R : readTicket (t_mem c) = to_i64 (readTicket (c_ring m));
  rb_batch : length (batchDequeueArray (t_mem c)) = length (batchDequeueArray (c_ring m));
  rb_len : length (buffer (t_mem c)) = length (buffer (c_ring m));
  rb_bufs : length (t_buf c) = length (c_thr m);
  rb_pend : ∀ t p b, c_thr m !! t = Some p → t_buf c !! t = Some b → pending m (t_mem c) p b;
  rb_excl : ∀ t b i, t_buf c !! t = Some b → ¬ clear_of i b →
    quiet_for c t i ∧ ∀ t' p τ, t' ≠ t → c_thr m !! t' = Some p → owned (pc_view p) = Some τ → pos τ ≠ i;
  rb_slot : ∀ t b i, t_buf c !! t = Some b → quiet_for c t i →
    slot_view i b <$> buffer (t_mem c) !! i = wrap_slot <$> buffer (c_ring m) !! i;
}.

Lemma clear_dec i (b : list (write A)) : clear_of i b ∨ ¬ clear_of i b.
Proof. unfold clear_of. destruct (decide (Forall (λ w, on_slot i w = false) b)); auto. Qed.

Lemma not_clear i (b : list (write A)) : ¬ clear_of i b → ∃ w, w ∈ b ∧ on_slot i w = true.
Proof.
  intros H. apply not_Forall_Exists in H; [|intros w; apply _]. apply Exists_exists in H as (w & Hw & Ho).
  exists w. split; [done|]. by apply not_false_is_true.
Qed.

Lemma data_clear τ i ds : Forall (data_of τ) ds → i ≠ pos τ → clear_of i ds.
Proof.
  intros Hd Hi. apply (Forall_impl _ _ _ Hd). intros w [_ Hw].
  destruct (on_slot i w) eqn:E; [|done]. by destruct Hi; apply Hw.
Qed.

Lemma data_no_seq τ ds : Forall (data_of τ) ds → Forall no_seq ds.
Proof. intros Hd. apply (Forall_impl _ _ _ Hd). by intros w [? _]. Qed.

(** The owner of a slot is the only one with stores to it. *)
Lemma owner_quiet c m t p τ :
  robust c m → c_thr m !! t = Some p → owned (pc_view p) = Some τ → quiet_for c t (pos τ).
Proof.
  intros H Hp Ho t' b' Hne Hb. destruct (clear_dec (pos τ) b') as [|Hc]; [done|].
  destruct (rb_excl _ _ H _ _ _ Hb Hc) as [_ Hx]. by destruct (Hx t p τ).
Qed.

(** What a thread with a store to slot [i] on its way did: memory still has the
    sequence number from before the publication. *)
Lemma holder c m t p b i :
  robust c m → c_thr m !! t = Some p → t_buf c !! t = Some b → ¬ clear_of i b →
  ∃ τ old sm s, pos τ = i ∧ buffer (t_mem c) !! i = Some s ∧ seq s = to_i64 old ∧
    buffer (c_ring m) !! i = Some sm ∧
    ((∃ ph, pc_view p = VW ph τ ∧ old = τ ∧ seq sm = τ) ∨ (∃ ph, pc_view p = VR ph τ ∧ old = τ + 1 ∧ seq sm = τ + 1) ∨
     publishes τ old (seq sm)).
Proof using HP.
  intros H Hp Hb Hc. pose proof (rb_pend _ _ H _ _ _ Hp Hb) as Hpend.
  destruct (not_clear _ _ Hc) as (w & Hw & Hon).
  destruct (rb_excl _ _ H _ _ _ Hb Hc) as [Hq _]. pose proof (rb_slot _ _ H _ _ _ Hb Hq) as Hs.
  pose proof (ci_p _ _ _ (rb_inv _ _ H)) as Hi. pose proof (SIZE_bounds _ _ HP) as [HS _].
  match goal with |- ?G => assert (∀ τ, owned (pc_view p) = Some τ → Forall (data_of τ) b → G) as Hown end.
  { intros τ Ho Hd. assert (i = pos τ) as ->.
    { rewrite Forall_forall in Hd. by apply (Hd w Hw). }
    destruct (slot_at_total SIZE HS (buffer (c_ring m)) τ (pi_len _ _ Hi)) as [sm Hsm].
    pose proof Hsm as Hsm'. unfold RingProtocol.slot_at in Hsm'. rewrite Hsm' in Hs.
    apply fmap_Some in Hs as (s & Hs & He).
    exists τ, (seq sm), sm, s. split_and!; try done.
    - rewrite <- (slot_view_seq (pos τ) b s) by (by eapply data_no_seq). by rewrite <- He.
    - destruct (owned_seq SIZE (abs m) t (pc_view p) τ sm Hi) as [(ph & E1 & E2)|(ph & E1 & E2)];
        [by apply view_lookup|done|done|left|right; left]; by exists ph. }
  unfold pending in Hpend. destruct (pc_view p) as [|[v|v|v|] τ|[| |] τ] eqn:Ev;
    try (subst; by apply not_elem_of_nil in Hw); try (by apply (Hown τ)).
  destruct Hpend as [->|(τ & old & new & ds & sm & s & -> & Hd & Hpub & Hsm & Hq1 & Hs1 & Hq2)]; [by apply not_elem_of_nil in Hw|].
  assert (pos τ = i) as <-.
  { apply elem_of_app in Hw as [Hw| ->%list_elem_of_singleton].
    - rewrite Forall_forall in Hd. symmetry. by apply (Hd w Hw).
    - simpl in Hon. by apply Nat.eqb_eq in Hon. }
  exists τ, old, sm, s. subst new. split_and!; try done. by right; right.
Qed.

Lemma ticket_wrap p : pc_ticket (wrap_pc p) = to_u64 <$> pc_ticket (A := A) p.
Proof. by destruct p. Qed.

Lemma locked_wrap p : locked (wrap_pc p) = locked (A := A) p.
Proof. by destruct p. Qed.

Lemma slot_index_nat_i τ : Z.to_nat (slot_index ticket_arith SIZE τ) = pos τ.
Proof using HP. by rewrite (slot_index_ideal _ _ HP). Qed.

Lemma slot_index_nat_m τ : Z.to_nat (slot_index machine_arith SIZE (to_u64 τ)) = pos τ.
Proof using HP. by rewrite (slot_index_machine _ _ HP). Qed.

Lemma get_slot_machine (r : ring A) τ : get_slot r (slot_index machine_arith SIZE (to_u64 τ)) = slot_at (buffer r) τ.
Proof using HP.
  rewrite (slot_index_machine _ _ HP). unfold get_slot. pose proof (SIZE_bounds _ _ HP).
  pose proof (Z.mod_pos_bound τ SIZE ltac:(lia)). by rewrite (proj2 (Z.ltb_ge _ _)) by lia.
Qed.

(** The stores of a step are to the slot that the thread owns. *)
Lemma stores_clear ar r (p : pc A) i :
  (∀ τ, pc_ticket p = Some τ → owned (pc_view p) = Some τ → Z.to_nat (slot_index ar SIZE τ) ≠ i) →
  clear_of i (stores ar SIZE r p).
Proof.
  intros H. unfold clear_of. destruct p; simpl; try done;
    repeat case_match; simplify_eq; try done;
    repeat (apply Forall_cons; split; [simpl; try done; apply Nat.eqb_neq; by apply H|]); apply Forall_nil_2.
Qed.

(** What the thread sees of its slot is what the interleaving code has there. *)
Lemma seen_slot c m t b τ :
  robust c m → t_buf c !! t = Some b → quiet_for c t (pos τ) →
  slot_at (buffer (view b (t_mem c))) τ = slot_at (buffer (wrap_ring (c_ring m))) τ.
Proof.
  intros H Hb Hq. unfold RingProtocol.slot_at. rewrite tso_view_slot. simpl. rewrite list_lookup_fmap.
  by apply (rb_slot _ _ H t).
Qed.

Context (n : nat) (Hn : SIZE * (Z.of_nat n + 1) < 2 ^ 64).

(** ** Spinning

    A spin loop that leaves on what memory says does so for the right reason: no
    store to the slot is on its way. *)

Lemma spin_quiet c m t p τ s :
  robust c m → length (c_thr m) = n → c_thr m !! t = Some p → slot_at (buffer (t_mem c)) τ = Some s →
  (∃ ph, pc_view p = VW ph τ ∧ writable machine_arith (seq s) (to_u64 τ) = true) ∨
  (∃ ph, pc_view p = VR ph τ ∧ readable machine_arith (seq s) (to_u64 τ) = true) →
  quiet_for c t (pos τ).
Proof using HP Hn.
  intros H Hl Hp Hs Hspin t' b' Hne Hb'. destruct (clear_dec (pos τ) b') as [|Hc]; [done|exfalso].
  pose proof (ci_p _ _ _ (rb_inv _ _ H)) as Hi. pose proof (SIZE_bounds _ _ HP) as [HS _].
  destruct (lookup_lt_is_Some_2 (c_thr m) t') as [p' Hp'].
  { rewrite <- (rb_bufs _ _ H). by eapply lookup_lt_Some. }
  destruct (holder c m t' p' b' (pos τ) H Hp' Hb' Hc) as (τ' & old & sm & s0 & Hpos & Hs0 & Hold & Hsm & Hcase).
  unfold RingProtocol.slot_at in Hs. assert (s0 = s) as -> by congruence.
  pose proof (view_lookup _ _ _ Hp) as Hv. pose proof (view_lookup _ _ _ Hp') as Hv'.
  pose proof (writer_window SIZE HS _ Hi t) as Hww. pose proof (reader_window SIZE HS _ Hi t) as Hrw.
  simpl in Hww, Hrw. rewrite length_fmap, Hl in Hww, Hrw.
  assert (Z.abs (old - seq sm) <= SIZE) as Hd.
  { destruct Hcase as [(?&_&?&?)|[(?&_&?&?)|[[??]|[??]]]]; lia. }
  destruct Hspin as [(ph & Ev & Hw)|(ph & Ev & Hw)]; rewrite Ev in Hv.
  - specialize (Hww _ _ _ Hv Hsm). destruct (pi_wr _ _ Hi _ _ _ _ Hv Hsm) as (_ & Hle & _).
    rewrite Hold, writable_wrap in Hw by lia. apply Z.eqb_eq in Hw. simpl in Hw. subst old.
    destruct Hcase as [(ph' & Ev' & <- & _)|[(ph' & _ & ? & _)|[[??]|[??]]]]; [|apart|lia|apart].
    rewrite Ev' in Hv'. destruct Hne. by eapply (pi_wuniq _ _ Hi).
  - specialize (Hrw _ _ _ Hv Hsm). destruct (pi_rd _ _ Hi _ _ _ _ Hv Hsm) as (_ & Hle & _).
    rewrite Hold, readable_wrap in Hw by lia. apply Z.eqb_eq in Hw. simpl in Hw. subst old.
    destruct Hcase as [(ph' & _ & ? & _)|[(ph' & Ev' & ? & _)|[[??]|[??]]]]; [apart| |apart|lia].
    assert (τ' = τ) as -> by lia. rewrite Ev' in Hv'. destruct Hne. by eapply (pi_runiq _ _ Hi).
Qed.

(** ** One step *)

(** A step that is not locked and not a failing spin: the interleaving code takes
    it too, with the same result and the same stores. *)
Lemma step_match c m t p b :
  robust c m → length (c_thr m) = n → c_thr m !! t = Some p → t_buf c !! t = Some b →
  active p = true → (∀ τ, pc_ticket p = Some τ → quiet_for c t (pos τ)) →
  ∃ r' p' rc, step_ring ticket_arith SIZE (c_ring m) p = Some (r', p') ∧
    step_ring machine_arith SIZE (view b (t_mem c)) (wrap_pc p) = Some (rc, wrap_pc p') ∧
    step_ring machine_arith SIZE (wrap_ring (c_ring m)) (wrap_pc p) = Some (wrap_ring r', wrap_pc p') ∧
    stores machine_arith SIZE (view b (t_mem c)) (wrap_pc p) =
    stores machine_arith SIZE (wrap_ring (c_ring m)) (wrap_pc p).
Proof using HP Hn.
  intros H Hl Hp Hb Ha Hq. pose proof (rb_inv _ _ H) as Hi. pose proof (SIZE_bounds _ _ HP) as [HS _].
  destruct (step_total SIZE BATCH_SIZE HP m t p Hi Hp Ha) as [[r' p'] Hs].
  pose proof (step_wrap SIZE BATCH_SIZE HP m t p Hi ltac:(rewrite Hl; lia) Hp) as Hw.
  rewrite Hs in Hw. unfold map_step in Hw. simpl in Hw.
  destruct (view_counters b (t_mem c)) as (HW & HR & HB & _).
  destruct (step_local SIZE machine_arith (wrap_ring (c_ring m)) (view b (t_mem c)) (wrap_pc p) (wrap_ring r') (wrap_pc p'))
    with (5 := Hw) as [Hst [rc Hrc]].
  - by rewrite HW, (rb_W _ _ H).
  - by rewrite HR, (rb_R _ _ H).
  - by rewrite HB, (rb_batch _ _ H).
  - intros τ'. rewrite ticket_wrap. intros (τ & Hτ & ->)%fmap_Some.
    rewrite !get_slot_machine. by eapply seen_slot; eauto.
  - exists r', p', rc. by split_and!.
Qed.

(** The pending store of another thread is not touched. *)
Lemma pending_other m m' mem mem' (p : pc A) b :
  pending m mem p b →
  (∀ i, ¬ clear_of i b → buffer (c_ring m') !! i = buffer (c_ring m) !! i ∧
     seq <$> buffer mem' !! i = seq <$> buffer mem !! i) →
  pending m' mem' p b.
Proof.
  intros Hp Hs. unfold pending in *. destruct (pc_view p); [|done..].
  destruct Hp as [->|(τ & old & new & ds & sm & s & -> & Hd & Hpub & Hsm & Hq1 & Hs1 & Hq2)]; [by left|right].
  unfold RingProtocol.slot_at in *. destruct (Hs (pos τ)) as [H1 H2].
  { intros Hc. apply Forall_app in Hc as [_ Hc]. apply Forall_cons in Hc as [Hc _]. simpl in Hc.
    by rewrite Nat.eqb_refl in Hc. }
  rewrite Hs1 in H2. apply fmap_Some in H2 as (s' & Hs' & He).
  exists τ, old, new, ds, sm, s'. unfold RingProtocol.slot_at. rewrite H1. split_and!; (done || congruence).
Qed.

(** The buffer of the thread that moves. *)
Lemma pending_step c m t p b r' p' :
  robust c m → c_thr m !! t = Some p → t_buf c !! t = Some b → locked p = false → active p = true →
  (∀ τ, pc_ticket p = Some τ → quiet_for c t (pos τ)) →
  step_ring ticket_arith SIZE (c_ring m) p = Some (r', p') →
  pending (mkCfg r' (<[t := p']> (c_thr m)) (c_hist m) (c_reads m)) (t_mem c) p'
    (b ++ stores machine_arith SIZE (wrap_ring (c_ring m)) (wrap_pc p)).
Proof using HP Hn.
  intros H Hp Hb Hlk Ha Hq Hs. pose proof (rb_pend _ _ H _ _ _ Hp Hb) as Hpend.
  pose proof (ci_p _ _ _ (rb_inv _ _ H)) as Hi. pose proof (view_lookup _ _ _ Hp) as Hv.
  assert (∀ τ ph x, (ph = VW WDone τ ∧ x = τ + 1) ∨ (ph = VR RDone τ ∧ x = τ + SIZE) →
    pc_view p = ph → pc_ticket p = Some τ → Forall (data_of τ) b → pc_view p' = VNone →
    seq_store ticket_arith (c_ring m) (slot_index ticket_arith SIZE τ) x = Some r' →
    pending (mkCfg r' (<[t := p']> (c_thr m)) (c_hist m) (c_reads m)) (t_mem c) p' (b ++ [WSeq (pos τ) (to_i64 x)])) as Hpub.
  { intros τ ph x Hx Ev Eτ Hd Ev' Hst. unfold pending. rewrite Ev'. right.
    unfold seq_store in Hst. step_inv Hst. apply (get_slot_at _ _ HP) in E.
    pose proof (rb_slot _ _ H t b (pos τ) Hb (Hq τ Eτ)) as Hsl.
    assert (RingProtocol.slot_at SIZE (buffer (c_ring m)) τ = Some s) as Es by done.
    unfold RingProtocol.slot_at in E. rewrite E in Hsl. apply fmap_Some in Hsl as (s1 & Hs1 & He).
    exists τ, (seq s), x, b, (mkSlot x (data s)), s1. split_and!; try done.
    - destruct Hx as [[Ex ->]|[Ex ->]]; [left|right]; (split; [|done]); rewrite Ex in Hv.
      + by destruct (pi_wr _ _ Hi _ _ _ _ Hv Es) as (_ & _ & Ho & _); apply Ho.
      + by destruct (pi_rd _ _ Hi _ _ _ _ Hv Es) as (_ & _ & Ho); apply Ho.
    - unfold RingProtocol.slot_at. simpl. rewrite slot_index_nat_i. apply list_lookup_insert_eq.
      by eapply lookup_lt_Some.
    - rewrite <- (slot_view_seq (pos τ) b s1) by (by eapply data_no_seq). by rewrite <- He. }
  assert (∀ τ d, data_of τ (WData (pos τ) d)) as Hwd.
  { intros τ d. split; [done|]. simpl. by intros i ?%Nat.eqb_eq. }
  unfold pending in Hpend. destruct p; simpl in Hs, Hlk, Hq, Hpub, Hpend |- *; try done;
    rewrite ?slot_index_nat_m; try (rewrite Hlk in Hs).
  all: try (step_inv Hs; rewrite ?app_nil_r; done).
  all: try (subst b; step_inv Hs; try destruct (writable _ _ _); try destruct (readable _ _ _); done).
  all: try (rewrite swrap_uwrap, swrap_uwrap_add by lia; step_inv Hs; eapply (Hpub ticket _ _); eauto; done).
  all: repeat case_match; step_inv Hs; unfold pending; simpl; rewrite ?app_nil_r; try done;
    apply Forall_app; (split; [done|]); repeat (apply Forall_cons; split; [done|]); apply Forall_nil_2.
Qed.

Lemma step_unlocked (r r' : ring A) p p' h k :
  locked p = false → step_ring ticket_arith SIZE r p = Some (r', p') →
  log_ticket p h = h ∧ log_read p k = k ∧ writeTicket r' = writeTicket r ∧ readTicket r' = readTicket r ∧
  length (batchDequeueArray r') = length (batchDequeueArray r) ∧ length (buffer r') = length (buffer r) ∧
  (∀ τ, owned (pc_view p') = Some τ → pc_ticket p = Some τ).
Proof.
  intros Hl Hs. rewrite (step_stores SIZE _ _ _ _ _ Hl Hs).
  destruct (view_counters (stores ticket_arith SIZE r p) r) as (-> & -> & -> & ->).
  destruct p; simpl in Hl, Hs |- *; try done; try rewrite Hl in *; split_and!; try done;
    unfold seq_load in Hs; step_inv Hs; intros τ Hτ; repeat case_match; simplify_eq/=; done.
Qed.

(** Where the thread does not own the slot, a step changes nothing. *)
Lemma step_clear m p r' p' i :
  locked p = false → step_ring ticket_arith SIZE (c_ring m) p = Some (r', p') →
  (∀ τ, owned (pc_view p) = Some τ → pos τ ≠ i) →
  clear_of i (stores machine_arith SIZE (wrap_ring (c_ring m)) (wrap_pc p)) ∧
  buffer r' !! i = buffer (c_ring m) !! i.
Proof using HP Hn.
  intros Hlk Hs Hi. split.
  - apply stores_clear. intros τ' Hτ' Ho. rewrite ticket_wrap in Hτ'. apply fmap_Some in Hτ' as (τ & Hτ & ->).
    rewrite slot_index_nat_m. apply Hi. destruct p; simpl in *; congruence.
  - rewrite (step_stores SIZE _ _ _ _ _ Hlk Hs), tso_view_slot.
    assert (clear_of i (stores ticket_arith SIZE (c_ring m) p)) as Hc.
    { apply stores_clear. intros τ Hτ Ho. rewrite slot_index_nat_i. by apply Hi. }
    destruct (buffer (c_ring m) !! i); simpl; [by rewrite slot_view_clear|done].
Qed.

Section Step.
Context (c : tcfg A) (m : cfg A) (t : nat) (p p' : pc A) (b : list (write A)) (r' : ring A).
Context (H : robust c m) (Hp : c_thr m !! t = Some p) (Hb : t_buf c !! t = Some b).
Context (Hlk : locked p = false) (Ha : active p = true).
Context (Hq : ∀ τ, pc_ticket p = Some τ → quiet_for c t (pos τ)).
Context (Hs : step_ring ticket_arith SIZE (c_ring m) p = Some (r', p')).

Abbreviation ws := (stores machine_arith SIZE (wrap_ring (c_ring m)) (wrap_pc p)).
Abbreviation c' := (mkTcfg (t_mem c) (<[t := b ++ ws]> (t_buf c)) (<[t := wrap_pc p']> (t_thr c)) (t_hist c) (t_reads c)).
Abbreviation m' := (mkCfg r' (<[t := p']> (c_thr m)) (c_hist m) (c_reads m)).

(** The stores of the thread that moves exclude the others from the slot. *)
Lemma step_excl_self i :
  ¬ clear_of i (b ++ ws) →
  quiet_for c t i ∧ ∀ t' p τ, t' ≠ t → c_thr m !! t' = Some p → owned (pc_view p) = Some τ → pos τ ≠ i.
Proof using HP Hn H Hp Hb Hlk Hs.
  intros Hc. pose proof (step_clear m p r' p' i Hlk Hs) as Hclear.
  destruct (clear_dec i b) as [Hcb|Hcb]; [|by apply (rb_excl _ _ H _ b)].
  destruct (owned (pc_view p)) as [τ|] eqn:Ho; cycle 1.
  { destruct Hc. apply Forall_app. split; [done|]. by apply Hclear. }
  destruct (decide (pos τ = i)) as [<-|Hnp]; cycle 1.
  { destruct Hc. apply Forall_app. split; [done|]. apply Hclear. intros ? [= <-]. done. }
  split; [by eapply owner_quiet|]. intros t' q τ' Hne Hq' Ho' He. apply Hne.
  apply (owner_unique SIZE BATCH_SIZE HP (abs m) t' t (pc_view q) (pc_view p) τ' τ); auto;
    [apply (rb_inv _ _ H)|by apply view_lookup..].
Qed.

Lemma step_excl t0 b0 i :
  t_buf c' !! t0 = Some b0 → ¬ clear_of i b0 →
  quiet_for c' t0 i ∧ ∀ t' p τ, t' ≠ t0 → c_thr m' !! t' = Some p → owned (pc_view p) = Some τ → pos τ ≠ i.
Proof using HP Hn H Hp Hb Hlk Hs Hq.
  destruct (step_unlocked _ _ _ _ (c_hist m) (c_reads m) Hlk Hs) as (_ & _ & _ & _ & _ & _ & Hown).
  intros [(<- & <- & _)|[Hne Hb0]]%lookup_insert_cases Hc.
  - destruct (step_excl_self i Hc) as [Hqt Hx]. split; simpl.
    + intros t' b' Hne Hb'. simpl in Hb'. rewrite list_lookup_insert_ne in Hb' by done. by apply (Hqt t').
    + intros t' q τ Hne Hq'. rewrite list_lookup_insert_ne in Hq' by done. by apply (Hx t').
  - destruct (rb_excl _ _ H _ _ _ Hb0 Hc) as [Hqt Hx]. split; simpl.
    + intros t' b' Hne' [(<- & <- & _)|[? Hb']]%lookup_insert_cases; [|by apply (Hqt t')].
      apply Forall_app. split; [by apply (Hqt t)|]. apply (step_clear m p r' p' i Hlk Hs). intros τ. by apply (Hx t p).
    + intros t' q τ Hne' [(<- & <- & _)|[? Hq']]%lookup_insert_cases Ho; [|by apply (Hx t' q)].
      intros <-. apply Hc. by apply (Hq τ (Hown τ Ho) t0).
Qed.

Lemma step_slot t0 b0 i :
  step_ring machine_arith SIZE (wrap_ring (c_ring m)) (wrap_pc p) = Some (wrap_ring r', wrap_pc p') →
  t_buf c' !! t0 = Some b0 → quiet_for c' t0 i →
  slot_view i b0 <$> buffer (t_mem c') !! i = wrap_slot <$> buffer (c_ring m') !! i.
Proof using H Hb Hlk.
  intros Hsw Hb0 Hqi. simpl. pose proof (step_stores SIZE _ _ _ _ _ ltac:(by rewrite locked_wrap) Hsw) as Hrw'.
  transitivity (buffer (wrap_ring r') !! i); [|simpl; by rewrite list_lookup_fmap].
  rewrite Hrw', tso_view_slot. simpl. rewrite list_lookup_fmap.
  apply lookup_insert_cases in Hb0 as [(<- & <- & _)|[Hne Hb0]].
  - rewrite <- (rb_slot _ _ H t b i Hb).
    + destruct (buffer (t_mem c) !! i); [|done]. simpl. by rewrite slot_view_app.
    + intros t' b' Hne Hb'. apply (Hqi t'); [done|]. simpl. by rewrite list_lookup_insert_ne.
  - assert (clear_of i (b ++ ws)) as [Hcb Hcw]%Forall_app.
    { apply (Hqi t); [done|]. simpl. apply list_lookup_insert_eq. by eapply lookup_lt_Some. }
    rewrite (rb_slot _ _ H t0 b0 i Hb0).
    + destruct (buffer (c_ring m) !! i); [|done]. simpl. by rewrite slot_view_clear.
    + intros t' b' Hne' Hb'. destruct (decide (t' = t)) as [->|]; [by simplify_eq|].
      apply (Hqi t'); [done|]. simpl. by rewrite list_lookup_insert_ne.
Qed.

(** A step that is not locked, and not a failing spin. *)
Lemma robust_step :
  cinv SIZE BATCH_SIZE m' →
  step_ring machine_arith SIZE (wrap_ring (c_ring m)) (wrap_pc p) = Some (wrap_ring r', wrap_pc p') →
  robust c' m'.
Proof using HP Hn H Hp Hb Hlk Hs Hq Ha.
  intros Hi' Hsw. destruct (step_unlocked _ _ _ _ (c_hist m) (c_reads m) Hlk Hs) as (_ & _ & HW & HR & HB & HL & _).
  split; simpl; try (by apply H); [done|..].
  - by rewrite list_fmap_insert, (rb_thr _ _ H).
  - by rewrite HW, (rb_W _ _ H).
  - by rewrite HR, (rb_R _ _ H).
  - by rewrite HB, (rb_batch _ _ H).
  - by rewrite HL, (rb_len _ _ H).
  - by rewrite !length_insert, (rb_bufs _ _ H).
  - intros t0 p0 b0 [(<- & <- & _)|[Hne Hp0]]%lookup_insert_cases Hb0.
    + rewrite list_lookup_insert_eq in Hb0 by (by eapply lookup_lt_Some). simplify_eq. by apply (pending_step c m t p b).
    + rewrite list_lookup_insert_ne in Hb0 by done. eapply pending_other; [by apply (rb_pend _ _ H t0)|].
      intros i Hc. split; [|done]. apply (step_clear m p r' p' i Hlk Hs). intros τ Ho.
      destruct (rb_excl _ _ H _ _ _ Hb0 Hc) as [_ Hx]. by apply (Hx t p).
  - exact step_excl.
  - intros t0 b0 i. by apply step_slot.
Qed.
End Step.

(** A call or a return: the thread moves between program points that own nothing. *)
Lemma robust_local c m t p p' h k :
  robust c m → c_thr m !! t = Some p → pc_view p = VNone → pc_view p' = VNone →
  cinv SIZE BATCH_SIZE (mkCfg (c_ring m) (<[t := p']> (c_thr m)) h k) →
  robust (mkTcfg (t_mem c) (t_buf c) (<[t := wrap_pc p']> (t_thr c)) h k)
         (mkCfg (c_ring m) (<[t := p']> (c_thr m)) h k).
Proof using HP.
  intros H Hp Hv Hv' Hi'. destruct H as [Hi Ht _ _ HW HR HB Hlen Hbl Hpend Hex Hsl].
  split; simpl; try done.
  - by rewrite list_fmap_insert, Ht.
  - by rewrite length_insert.
  - intros t0 p0 b0 [(<- & <- & _)|[Hne Hp0]]%lookup_insert_cases Hb0.
    + pose proof (Hpend _ _ _ Hp Hb0) as Hq. unfold pending in *. rewrite Hv' in *. by rewrite Hv in Hq.
    + by apply (Hpend t0).
  - intros t0 b0 i Hb0 Hc. destruct (Hex _ _ _ Hb0 Hc) as [Hq Hx]. split; [done|].
    intros t' q τ Hne [(<- & <- & _)|[? Hq']]%lookup_insert_cases Ho; [by rewrite Hv' in Ho|by apply (Hx t' q)].
Qed.

(** A locked [fetch_add], on an empty buffer: only the counters change. *)
Lemma robust_locked c m t p p' W R h k :
  robust c m → c_thr m !! t = Some p → t_buf c !! t = Some [] →
  (let r := c_ring m in
   let m' := mkCfg (mkRing (batchDequeueArray r) (buffer r) W R) (<[t := p']> (c_thr m)) h k in
   cinv SIZE BATCH_SIZE m' → owned (pc_view p') = None →
   robust (mkTcfg (mkRing (batchDequeueArray (t_mem c)) (buffer (t_mem c)) (to_i64 W) (to_i64 R))
             (t_buf c) (<[t := wrap_pc p']> (t_thr c)) h k) m').
Proof using HP.
  intros H Hp Hb r m' Hi' Hv'. destruct H as [Hi Ht _ _ HW HR HB Hlen Hbl Hpend Hex Hsl].
  split; simpl; try done.
  - by rewrite list_fmap_insert, Ht.
  - by rewrite length_insert.
  - intros t0 p0 b0 [(<- & <- & _)|[Hne Hp0]]%lookup_insert_cases Hb0.
    + simplify_eq. unfold pending. destruct (pc_view p') as [|[] ?|[] ?]; (done || by left).
    + eapply pending_other; [by apply (Hpend t0)|done].
  - intros t0 b0 i Hb0 Hc. destruct (Hex _ _ _ Hb0 Hc) as [Hq Hx]. split; [done|].
    intros t' q τ Hne [(<- & <- & _)|[? Hq']]%lookup_insert_cases Ho; [by rewrite Hv' in Ho|by apply (Hx t' q)].
Qed.

Lemma pending_flush m mem (p : pc A) w b : pending m mem p (w :: b) → pending m (commit mem w) p b.
Proof.
  unfold pending. intros Hp. destruct (pc_view p) as [|[] ?|[] ?]; try done; try (by apply Forall_cons in Hp as [_ ?]).
  destruct Hp as [?|(τ & old & new & ds & sm & s & Hb & Hd & Hpub & Hsm & Hq1 & Hs1 & Hq2)]; [done|].
  destruct ds as [|d ds]; simpl in Hb; simplify_eq; [by left|right]. apply Forall_cons in Hd as [[Hn0 _] Hd].
  exists τ, old, (seq sm), ds, sm, (slot_upd (pos τ) s d). split_and!; try done.
  - unfold RingProtocol.slot_at in *. by rewrite commit_slot, Hs1.
  - rewrite <- Hq2. apply (slot_view_seq (pos τ) [d] s). by constructor.
Qed.

(** A store reaches memory. *)
Lemma robust_flush c m t w b :
  robust c m → t_buf c !! t = Some (w :: b) →
  robust (mkTcfg (commit (t_mem c) w) (<[t := b]> (t_buf c)) (t_thr c) (t_hist c) (t_reads c)) m.
Proof using HP.
  intros H Hb. pose proof H as [Hi Ht Hh Hk HW HR HB Hlen Hbl Hpend Hex Hsl].
  assert (∀ t' b', t' ≠ t → <[t := b]> (t_buf c) !! t' = Some b' → t_buf c !! t' = Some b') as Hoth.
  { intros t' b' Hne. by rewrite list_lookup_insert_ne. }
  destruct (view_counters [w] (t_mem c)) as (HcW & HcR & HcB & HcL). simpl in HcW, HcR, HcB, HcL.
  split; simpl; try done; try congruence.
  - by rewrite length_insert.
  - intros t0 p0 b0 Hp0 [(<- & <- & _)|[Hne Hb0]]%lookup_insert_cases.
    + by apply pending_flush, (Hpend t).
    + eapply pending_other; [by apply (Hpend t0)|]. intros i Hc. split; [done|].
      destruct (Hex _ _ _ Hb0 Hc) as [Hq _]. specialize (Hq t (w :: b) Hne Hb). apply Forall_cons in Hq as [Hw _].
      rewrite commit_slot. destruct (buffer (t_mem c) !! i); [|done]. simpl. by rewrite slot_upd_other.
  - intros t0 b0 i Hb0 Hc.
    assert (∃ b1, t_buf c !! t0 = Some b1 ∧ ¬ clear_of i b1) as (b1 & Hb1 & Hc1).
    { apply lookup_insert_cases in Hb0 as [(<- & <- & _)|[Hne Hb0]]; [|eauto].
      exists (w :: b). split; [done|]. intros Hf. apply Hc. by apply Forall_cons in Hf as [_ ?]. }
    destruct (Hex _ _ _ Hb1 Hc1) as [Hq Hx]. split; [|done].
    intros t' b' Hne [(<- & <- & _)|[? Hb']]%lookup_insert_cases; [|by apply (Hq t')].
    specialize (Hq t (w :: b) Hne Hb). by apply Forall_cons in Hq as [_ ?].
  - intros t0 b0 i Hb0 Hq. rewrite commit_slot.
    apply lookup_insert_cases in Hb0 as [(<- & <- & _)|[Hne Hb0]].
    + rewrite <- (Hsl t (w :: b) i Hb); [by destruct (buffer (t_mem c) !! i)|].
      intros t' b' Hne Hb'. apply (Hq t'); [done|]. simpl. by rewrite list_lookup_insert_ne.
    + assert (clear_of i b) as Hcb.
      { apply (Hq t); [done|]. simpl. apply list_lookup_insert_eq. by eapply lookup_lt_Some. }
      destruct (on_slot i w) eqn:Ew.
      * destruct (Hex t (w :: b) i Hb) as [Hqt _]; [intros [? _]%Forall_cons; congruence|].
        rewrite <- (Hsl t (w :: b) i Hb Hqt). destruct (buffer (t_mem c) !! i); [|done]. simpl.
        by rewrite !slot_view_clear by (done || by apply (Hqt t0)).
      * rewrite <- (Hsl t0 b0 i Hb0).
        -- destruct (buffer (t_mem c) !! i); [|done]. simpl. by rewrite slot_upd_other.
        -- intros t' b' Hne' Hb'. destruct (decide (t' = t)) as [->|].
           ++ simplify_eq. by constructor.
           ++ apply (Hq t'); [done|]. simpl. by rewrite list_lookup_insert_ne.
Qed.

(** ** The simulation *)

Abbreviation iexec := (exec ticket_arith SIZE BATCH_SIZE).
Abbreviation mexec := (texec machine_arith SIZE BATCH_SIZE).

Lemma thr_lookup c m t q :
  robust c m → t_thr c !! t = Some q → ∃ p, c_thr m !! t = Some p ∧ q = wrap_pc p.
Proof. intros H. rewrite (rb_thr _ _ H), list_lookup_fmap. by intros (p & ? & ->)%fmap_Some; eauto. Qed.

Lemma buf_lookup c m t p : robust c m → c_thr m !! t = Some p → ∃ b, t_buf c !! t = Some b.
Proof. intros H Hp. apply lookup_lt_is_Some_2. rewrite (rb_bufs _ _ H). by eapply lookup_lt_Some. Qed.

Lemma step_active r p rq : step_ring machine_arith SIZE r (wrap_pc p) = Some rq → active (A := A) p = true.
Proof. by destruct p. Qed.

(** A step that is not locked is a failing spin, or the slot it uses is quiet. *)
Lemma spin_or_quiet c m t p b rc q :
  robust c m → length (c_thr m) = n → c_thr m !! t = Some p → t_buf c !! t = Some b →
  step_ring machine_arith SIZE (view b (t_mem c)) (wrap_pc p) = Some (rc, q) →
  (q = wrap_pc p ∧ stores machine_arith SIZE (view b (t_mem c)) (wrap_pc p) = []) ∨
  (∀ τ, pc_ticket p = Some τ → quiet_for c t (pos τ)).
Proof using HP Hn.
  intros H Hl Hp Hb Hs. pose proof (rb_pend _ _ H _ _ _ Hp Hb) as Hpend.
  pose proof (λ τ s, spin_quiet c m t p τ s H Hl Hp) as Hspin.
  unfold pending in Hpend. destruct (owned (pc_view p)) as [τ|] eqn:Ho.
  { right. intros τ' Hτ'. replace τ' with τ; [by eapply owner_quiet|]. destruct p; simpl in *; congruence. }
  destruct p; simpl in Hpend, Ho, Hs, Hspin |- *; try done; try (right; intros ? [=]; done); subst b;
    unfold seq_load in Hs; rewrite get_slot_machine in Hs; simpl in Hs;
    (destruct (slot_at (buffer (t_mem c)) ticket) as [s|] eqn:Es; [|done]); simplify_eq/=.
  - destruct (writable _ _ _) eqn:Ew; [right|by left]. intros ? [= <-]. apply (Hspin _ s Es). left. eauto.
  - destruct (readable _ _ _) eqn:Ew; [right|by left]. intros ? [= <-]. apply (Hspin _ s Es). right. eauto.
  - destruct (readable _ _ _) eqn:Ew; [right|by left]. intros ? [= <-]. apply (Hspin _ s Es). right. eauto.
Qed.

(** The item that [batchDequeue] hands over is the same. *)
Lemma obs_match c m t p b :
  robust c m → c_thr m !! t = Some p → t_buf c !! t = Some b →
  tobs machine_arith SIZE c (TRun t) = obs SIZE ticket_arith m (Run t).
Proof using HP.
  intros H Hp Hb. rewrite <- (obs_wrap SIZE BATCH_SIZE HP). simpl.
  rewrite (rb_thr _ _ H), list_lookup_fmap, Hp, Hb. simpl. destruct p; try done. simpl.
  unfold data_move. rewrite !get_slot_machine, (seen_slot c m t b) by (done || by eapply owner_quiet).
  by destruct (slot_at _ _) as [[? []]|].
Qed.

Lemma run_step m t p r' p' :
  c_thr m !! t = Some p → step_ring ticket_arith SIZE (c_ring m) p = Some (r', p') →
  iexec m (Run t) = Some (mkCfg r' (<[t := p']> (c_thr m)) (log_ticket p (c_hist m)) (log_read p (c_reads m))).
Proof. intros Hp Hs. simpl. by rewrite Hp, Hs. Qed.

(** A locked step. *)
Lemma sim_locked c m t p rc q :
  robust c m → c_thr m !! t = Some p → t_buf c !! t = Some [] → locked p = true →
  step_ring machine_arith SIZE (t_mem c) (wrap_pc p) = Some (rc, q) →
  ∃ m', iexec m (Run t) = Some m' ∧
    robust (mkTcfg rc (t_buf c) (<[t := q]> (t_thr c)) (log_ticket p (t_hist c)) (log_read p (t_reads c))) m'.
Proof using HP Hn.
  intros H Hp Hb Hlk Hs.
  assert (is_Some (step_ring ticket_arith SIZE (c_ring m) p)) as [[r' p'] Hi].
  { destruct p; try done; simpl in *. rewrite Hlk. by eexists. }
  eexists. split; [by eapply run_step|]. pose proof (cinv_exec SIZE BATCH_SIZE HP _ _ _ (rb_inv _ _ H) (run_step m t p r' p' Hp Hi)) as Hinv.
  rewrite (rb_hist _ _ H), (rb_reads _ _ H).
  destruct p; try done; simpl in Hlk, Hs, Hi; try rewrite Hlk in *; simplify_eq/=; rewrite (rb_W _ _ H), (rb_R _ _ H) in *;
    rewrite ?swrap_swrap_add, uwrap_swrap by lia; exact (robust_locked c m t _ _ _ _ _ _ H Hp Hb Hinv eq_refl).
Qed.

Lemma sim_unlocked c m t p b rc q :
  robust c m → length (c_thr m) = n → c_thr m !! t = Some p → t_buf c !! t = Some b → locked p = false →
  step_ring machine_arith SIZE (view b (t_mem c)) (wrap_pc p) = Some (rc, q) →
  let c' := mkTcfg (t_mem c) (<[t := b ++ stores machine_arith SIZE (view b (t_mem c)) (wrap_pc p)]> (t_buf c))
              (<[t := q]> (t_thr c)) (t_hist c) (t_reads c) in
  c' = c ∧ tobs machine_arith SIZE c (TRun t) = [] ∨ ∃ m', iexec m (Run t) = Some m' ∧ robust c' m'.
Proof using HP Hn.
  intros H Hl Hp Hb Hlk Hs c'. destruct (spin_or_quiet c m t p b rc q H Hl Hp Hb Hs) as [[-> Hst]|Hq]; [left|right].
  - subst c'. rewrite Hst, app_nil_r, !list_insert_id; [|by rewrite (rb_thr _ _ H), list_lookup_fmap, Hp|done].
    split; [by destruct c|]. simpl. rewrite (rb_thr _ _ H), list_lookup_fmap, Hp, Hb. simpl.
    destruct p; try done. simpl in Hst |- *. destruct (data_move _ _) as [[]|]; done.
  - destruct (step_match c m t p b H Hl Hp Hb) as (r' & p' & rc' & Hi & Hm & Hw & Hst); [by eapply step_active|done|].
    rewrite Hm in Hs. injection Hs as <- <-. subst c'. rewrite Hst.
    destruct (step_unlocked _ _ _ _ (c_hist m) (c_reads m) Hlk Hi) as (Hh & Hk & _).
    pose proof (run_step m t p r' p' Hp Hi) as He. rewrite Hh, Hk in He. eexists. split; [done|].
    apply (robust_step c m t p p' b r'); try done; [by eapply step_active|].
    eapply (cinv_exec SIZE BATCH_SIZE HP m (Run t)); [apply (rb_inv _ _ H)|done].
Qed.

(** Every action is matched by the same action of the interleaving code, or by
    none. *)
Lemma robust_exec c m a c' :
  robust c m → length (c_thr m) = n → mexec c a = Some c' →
  (robust c' m ∧ tobs machine_arith SIZE c a = []) ∨
  (∃ a' m', iexec m a' = Some m' ∧ robust c' m' ∧ tobs machine_arith SIZE c a = obs SIZE ticket_arith m a').
Proof using HP Hn.
  intros H Hl He. pose proof (rb_inv _ _ H) as Hi. destruct a as [t o|t|t|t]; simpl in He.
  - destruct (t_thr c !! t) as [q|] eqn:Eq; [|done]. destruct (thr_lookup c m t q H Eq) as (p & Hp & ->).
    destruct p; try done. simpl in He. destruct (op_typed o) eqn:Ety; [|done]. injection He as <-. right.
    assert (iexec m (Call t o) = Some (mkCfg (c_ring m) (<[t := call BATCH_SIZE o]> (c_thr m)) (c_hist m) (c_reads m))) as Hx
      by (simpl; by rewrite Hp, Ety).
    exists (Call t o). eexists. split; [exact Hx|]. split; [|done].
    rewrite (rb_hist _ _ H), (rb_reads _ _ H). replace (call BATCH_SIZE o) with (wrap_pc (call BATCH_SIZE o)) at 1 by (by destruct o).
    apply (robust_local c m t Idle); try done; [by destruct o|]. by eapply cinv_exec.
  - destruct (t_thr c !! t) as [q|] eqn:Eq; [|done]. destruct (thr_lookup c m t q H Eq) as (p & Hp & ->).
    destruct (t_buf c !! t) as [b|] eqn:Eb; [|done]. rewrite locked_wrap in He.
    rewrite (obs_match c m t p b) by done. rewrite log_ticket_wrap, log_read_wrap in He. destruct (locked p) eqn:Hlk.
    + destruct b; [|done]. destruct (step_ring _ _ (t_mem c) _) as [[rc q]|] eqn:Es; [|done]. injection He as <-. right.
      destruct (sim_locked c m t p rc q H Hp Eb Hlk Es) as (m' & Hx & Hr). exists (Run t), m'. by split_and!.
    + destruct (step_ring _ _ (view b _) _) as [[rc q]|] eqn:Es; [|done]. injection He as <-.
      destruct (sim_unlocked c m t p b rc q H Hl Hp Eb Hlk Es) as [[-> Ho]|(m' & Hx & Hr)].
      * left. split; [done|]. by rewrite (obs_match c m t p b) in Ho.
      * right. exists (Run t), m'. by split_and!.
  - destruct (t_thr c !! t) as [q|] eqn:Eq; [|done]. destruct (thr_lookup c m t q H Eq) as (p & Hp & ->).
    rewrite returning_wrap in He. destruct (returning p) eqn:Er; [|done]. injection He as <-. right.
    assert (iexec m (Ret t) = Some (mkCfg (c_ring m) (<[t := Idle]> (c_thr m)) (c_hist m) (c_reads m))) as Hx
      by (simpl; by rewrite Hp, Er).
    exists (Ret t). eexists. split; [exact Hx|]. split.
    + rewrite (rb_hist _ _ H), (rb_reads _ _ H). apply (robust_local c m t p Idle); try done; [by destruct p|]. by eapply cinv_exec.
    + simpl. rewrite Eq, Hp. by destruct p.
  - destruct (t_buf c !! t) as [[|w b]|] eqn:Eb; [done| |done]. injection He as <-. left. split; [|done]. by apply robust_flush.
Qed.

(** ** Theorems *)

Abbreviation sc := (ring_machine machine_arith SIZE BATCH_SIZE).
Abbreviation tso := (tso_machine machine_arith SIZE BATCH_SIZE).
Abbreviation spec := (queue_spec BATCH_SIZE).
Abbreviation sc_obs := (run_obs (S := spec) (M := sc) (obs SIZE machine_arith)).
Abbreviation tso_obs := (run_obs (S := spec) (M := tso) (tobs machine_arith SIZE)).

Lemma robust_run c m σ c' :
  robust c m → length (c_thr m) = n → run (M := tso) c σ = Some c' →
  ∃ σ' m', run (M := sc) (wrap_cfg m) σ' = Some (wrap_cfg m') ∧
    sc_obs (wrap_cfg m) σ' = tso_obs c σ ∧ robust c' m' ∧ length (c_thr m') = n.
Proof using HP Hn.
  revert c m. induction σ as [|a σ IH]; intros c m H Hl Hr; simpl in Hr.
  { injection Hr as <-. by exists [], m. }
  destruct (mexec c a) as [c1|] eqn:E; [|done]. cbn [run_obs]. change (m_exec tso c a) with (mexec c a). rewrite E.
  pose proof (SIZE_bounds _ _ HP). destruct (robust_exec c m a c1 H Hl E) as [[H1 ->]|(a' & m1 & He & H1 & ->)].
  - by apply IH.
  - assert (length (c_thr m1) = n) as Hl1 by (by rewrite (exec_threads SIZE BATCH_SIZE _ _ _ _ He)).
    destruct (IH c1 m1 H1 Hl1 Hr) as (σ' & m' & Hr' & Ho & H' & Hl').
    assert (exec machine_arith SIZE BATCH_SIZE (wrap_cfg m) a' = Some (wrap_cfg m1)) as Hx
      by (rewrite (exec_wrap _ _ HP) by (apply (rb_inv _ _ H) || (rewrite Hl; lia)); by rewrite He).
    exists (a' :: σ'), m'. cbn [run run_obs]. change (m_exec sc (wrap_cfg m) a') with (exec machine_arith SIZE BATCH_SIZE (wrap_cfg m) a').
    rewrite Hx. split_and!; [done| |done|done]. by rewrite Ho, (obs_wrap SIZE BATCH_SIZE HP).
Qed.

Context (a0 : A).

Definition tso_fresh (c : tcfg A) : Prop := tso_init machine_arith SIZE BATCH_SIZE a0 n = Some c.
Abbreviation fresh := (fresh SIZE BATCH_SIZE a0 n).

Lemma robust_init c :
  tso_fresh c → ∃ m, fresh (wrap_cfg m) ∧ robust c m ∧ length (c_thr m) = n ∧ aqueue m = queue_init n.
Proof using HP Hn.
  intros Hc. destruct (init_wrap SIZE BATCH_SIZE HP a0 n) as (m & Hf & Hi & Hl & Hq & Hm).
  exists m. split_and!; try done. pose proof Hf as Hf'. unfold RingTheorems.fresh, init_cfg in Hf'. unfold tso_fresh, tso_init in Hc.
  destruct (AtomicRingBuffer _ _ _ _) as [r|]; [|done]. injection Hc as <-. rewrite Hm in Hf' |- *. injection Hf' as Hr _.
  assert (∀ t b, replicate n ([] : list (write A)) !! t = Some b → b = []) as Hb.
  { intros t b Hb. by apply lookup_replicate in Hb as [-> _]. }
  split; simpl.
  - by rewrite <- Hm.
  - by rewrite fmap_replicate.
  - done.
  - done.
  - by rewrite Hr.
  - by rewrite Hr.
  - by rewrite Hr.
  - rewrite Hr. apply length_fmap.
  - by rewrite !length_replicate.
  - intros t p b [-> _]%lookup_replicate ->%Hb. by left.
  - intros t b i ->%Hb Hc. destruct Hc. apply Forall_nil_2.
  - intros t b i ->%Hb _. rewrite Hr. simpl. rewrite list_lookup_fmap. by destruct (buffer (c_ring m) !! i).
Qed.

(** C2. Robustness: store buffers cannot be observed.  For every schedule of [n]
    threads on x86-TSO there is a schedule of the interleaving code with the same
    calls, returns and batch items, which ends with the same threads and counters,
    and whose slots are what a thread sees of memory when no other thread has stores
    on their way. *)
Theorem ring_tso_robust c0 σ c :
  tso_fresh c0 → run (M := tso) c0 σ = Some c →
  ∃ m0 σ' m, fresh m0 ∧ run (M := sc) m0 σ' = Some m ∧ sc_obs m0 σ' = tso_obs c0 σ ∧
    c_thr m = t_thr c ∧ writeTicket (c_ring m) = writeTicket (t_mem c) ∧ readTicket (c_ring m) = readTicket (t_mem c) ∧
    ∀ t b, t_buf c !! t = Some b → (∀ t' b', t' ≠ t → t_buf c !! t' = Some b' → b' = []) →
      buffer (view b (t_mem c)) = buffer (c_ring m).
Proof using HP Hn.
  intros (m & Hf & H & Hl & _)%robust_init Hr. destruct (robust_run c0 m σ c H Hl Hr) as (σ' & m' & Hr' & Ho & H' & Hl').
  exists (wrap_cfg m), σ', (wrap_cfg m'). split_and!; try done; simpl.
  - by rewrite (rb_thr _ _ H').
  - by rewrite (rb_W _ _ H').
  - by rewrite (rb_R _ _ H').
  - intros t b Hb Hq. apply list_eq. intros i. rewrite tso_view_slot, list_lookup_fmap.
    apply (rb_slot _ _ H' t b i Hb). intros t' b' Hne Hb'. rewrite (Hq t' b' Hne Hb'). apply Forall_nil_2.
Qed.

(** Linearizability on x86: with store buffers too, the calls, returns and
    batch items of [n] threads are a history of an atomic FIFO queue. *)
Theorem ring_tso_linearizable c0 σ c :
  tso_fresh c0 → run (M := tso) c0 σ = Some c →
  ∃ q, sp_run (S := spec) (queue_init n) (tso_obs c0 σ) q ∧
       ∀ t, t_thr c !! t = Some Idle → q_thr q !! t = Some AIdle.
Proof using HP Hn.
  intros (m & Hf & H & Hl & Hq)%robust_init Hr. destruct (robust_run c0 m σ c H Hl Hr) as (σ' & m' & Hr' & Ho & H' & Hl').
  pose proof (SIZE_bounds _ _ HP).
  destruct (simulates_run spec sc (obs SIZE machine_arith) (linked SIZE BATCH_SIZE n)
    (wrap_cfg m) σ' (wrap_cfg m') (queue_init n)) as (q & Hrun & (c2 & E & _ & _ & ->)).
  - apply linked_simulates; [done|]. lia.
  - exists m. pose proof (rb_inv _ _ H). by rewrite Hq.
  - done.
  - exists (aqueue c2). rewrite <- Ho. split; [done|]. intros t Ht.
    assert ((wrap_pc <$> c_thr c2) !! t = Some Idle) as Hx.
    { rewrite <- Ht, (rb_thr _ _ H'). by injection E as _ _ _ _ ->. }
    simpl. rewrite list_lookup_fmap in Hx. rewrite list_lookup_fmap. destruct (c_thr c2 !! t) as [p|]; [|done]. by destruct p.
Qed.

Lemma robust_reachable c : reachable (M := tso) tso_fresh c → ∃ m, robust c m ∧ length (c_thr m) = n.
Proof using HP Hn.
  revert c. apply invariant.
  - intros c (m & _ & H & Hl & _)%robust_init. eauto.
  - intros c a c' _ (m & H & Hl) He. destruct (robust_exec c m a c' H Hl He) as [[? _]|(a' & m' & Hx & ? & _)]; [eauto|].
    exists m'. split; [done|]. by rewrite (exec_threads SIZE BATCH_SIZE _ _ _ _ Hx).
Qed.

(** No undefined behaviour on x86: in every reachable configuration each thread
    inside a member function can take its next step, or it is at a [fetch_add] and
    its buffer can be flushed. *)
Theorem ring_tso_no_undefined_behaviour c t p :
  reachable (M := tso) tso_fresh c → t_thr c !! t = Some p → active p = true →
  is_Some (mexec c (TRun t)) ∨ (locked p = true ∧ is_Some (mexec c (TFlush t))).
Proof using HP Hn.
  intros (m & H & Hl)%robust_reachable Hp Ha. destruct (thr_lookup c m t p H Hp) as (q & Hq & ->).
  destruct (buf_lookup c m t q H Hq) as [b Hb]. rewrite locked_wrap. simpl. rewrite Hp, Hb, locked_wrap.
  destruct (locked q) eqn:Hlk.
  - destruct b as [|w b]; [left|right; split; [done|by eexists]].
    destruct q; try done; simpl in *; [by eexists..|]. rewrite Hlk. by eexists.
  - left. assert (active q = true) as Ha' by (by destruct q).
    enough (is_Some (step_ring machine_arith SIZE (view b (t_mem c)) (wrap_pc q))) as [rp ->] by (by eexists).
    destruct (pc_ticket q) as [τ|] eqn:Eτ; cycle 1.
    { destruct (step_match c m t q b H Hl Hq Hb Ha') as (r' & p' & rc & _ & -> & _); [by rewrite Eτ|by eexists]. }
    destruct (owned (pc_view q)) as [τ'|] eqn:Ho.
    { destruct (step_match c m t q b H Hl Hq Hb Ha') as (r' & p' & rc & _ & -> & _); [|by eexists].
      intros τ1 E1. replace τ1 with τ' by (destruct q; simpl in *; congruence). by eapply owner_quiet. }
    assert (∃ s, slot_at (buffer (view b (t_mem c))) τ = Some s) as [s Hs].
    { apply (slot_at_total SIZE); [apply (SIZE_bounds _ _ HP)|]. destruct (view_counters b (t_mem c)) as (_ & _ & _ & ->).
      rewrite (rb_len _ _ H). apply (pi_len _ _ (ci_p _ _ _ (rb_inv _ _ H))). }
    destruct q; simpl in *; try done; simplify_eq; unfold seq_load; rewrite get_slot_machine, Hs; by eexists.
Qed.

Lemma stuck_waits c m t p :
  robust c m → length (c_thr m) = n → (∀ t b, t_buf c !! t = Some b → b = []) →
  c_thr m !! t = Some p → active p = true → mexec c (TRun t) = Some c → waiting SIZE (c_ring m) p = true.
Proof using HP Hn.
  intros H Hl He Hp Ha Hx. destruct (buf_lookup c m t p H Hp) as [b Hb]. pose proof (He _ _ Hb) as ->.
  destruct (step_match c m t p [] H Hl Hp Hb Ha) as (r' & p' & rc & Hi & Hm & _).
  { intros τ _ t' b' _ Hb'. rewrite (He _ _ Hb'). apply Forall_nil_2. }
  destruct (step_changes _ _ _ _ _ Hi) as [[? _]|[_ Hne]]; [done|destruct Hne].
  assert (t_thr c !! t = Some (wrap_pc p)) as Ht by (by rewrite (rb_thr _ _ H), list_lookup_fmap, Hp).
  enough (<[t := wrap_pc p']> (t_thr c) = t_thr c) as Hins.
  { pose proof (lookup_lt_Some _ _ _ Ht). rewrite <- Hins, list_lookup_insert_eq in Ht by done. by simplify_eq. }
  simpl in Hx, Hm. rewrite Ht, Hb in Hx. simpl in Hx. rewrite Hm in Hx. simpl in Hx.
  destruct (locked (wrap_pc p)); injection Hx as Hx; by apply (f_equal t_thr) in Hx.
Qed.

(** Deadlock freedom on x86: when all stores have reached memory and no thread
    can move, every thread still inside the buffer is a reader and there are more
    readers than values, or a writer and the buffer is full. *)
Theorem ring_tso_blocks_only_when_full_or_empty c :
  reachable (M := tso) tso_fresh c → (∀ t b, t_buf c !! t = Some b → b = []) →
  (∀ t p, t_thr c !! t = Some p → active p = true → mexec c (TRun t) = Some c) →
  ∀ t p, t_thr c !! t = Some p → active p = true →
    (waits_to_read p = true ∧ (length (t_hist c) < t_reads c)%nat) ∨
    (waits_to_write p = true ∧ Z.of_nat (t_reads c) + SIZE < Z.of_nat (length (t_hist c))).
Proof using HP Hn.
  intros (m & H & Hl)%robust_reachable He Hb t q Hq Ha. destruct (thr_lookup c m t q H Hq) as (p & Hp & ->).
  pose proof (SIZE_bounds _ _ HP). assert (SIZE * Z.of_nat n < 2 ^ 64) as Hn' by lia.
  rewrite (rb_hist _ _ H), (rb_reads _ _ H).
  destruct (blocked_cases SIZE BATCH_SIZE HP n Hn' m t p (rb_inv _ _ H) Hl) as [(Hx & Hy & _)|[Hx Hy]]; [|done|by destruct p|left|right].
  2, 3: (split; [by destruct p|done]).
  intros t' q' Hq' Ha'. simpl in Hq'. rewrite list_lookup_fmap in Hq'. apply fmap_Some in Hq' as (p' & Hp' & ->).
  assert (active p' = true) as Ha1 by (by destruct p').
  apply (blocked_waiting SIZE BATCH_SIZE HP n Hn' m t' p' (rb_inv _ _ H) Hl Hp' Ha1).
  apply (stuck_waits c m t' p'); try done. apply (Hb t' (wrap_pc p')); [|done].
  by rewrite (rb_thr _ _ H), list_lookup_fmap, Hp'.
Qed.
End Robust.

(** ** A run: two slots, the stores of an [enqueue] delayed past its return *)

Definition ex_tso_act : list (tact Z) :=
  [TCall 0 (OpEnqueue EnqMove 5); TRun 0; TRun 0; TRun 0; TRun 0; TRet 0;
   TCall 1 OpDequeue; TRun 1; TRun 1; TFlush 0; TRun 1; TCall 0 OpDequeue; TFlush 0; TRun 1; TRun 1].

Definition ex_tso0 : tcfg Z := default (mkTcfg (mkRing [] [] 0 0) [] [] [] 0) (tso_init (A := Z) machine_arith 2 0 0 2).
Definition ex_tso_end : tcfg Z := default ex_tso0 (run (M := tso_machine (A := Z) machine_arith 2 0) ex_tso0 ex_tso_act).

Lemma ex_params2 : params_ok 2 0.
Proof. split; [done|lia|unfold INT_MAX; lia]. Qed.

Lemma ex_tso_runs : run (M := tso_machine (A := Z) machine_arith 2 0) ex_tso0 ex_tso_act = Some ex_tso_end.
Proof. by apply (run_default (M := tso_machine (A := Z) machine_arith 2 0)); vm_compute. Qed.

Lemma ex_tso_reachable : reachable (M := tso_machine (A := Z) machine_arith 2 0) (tso_fresh (A := Z) 2 0 2 0) ex_tso_end.
Proof. eapply run_reachable; [|exact ex_tso_runs]. by apply reach_init. Qed.

(** Thread 1 has moved the value out; thread 0 is in its next call.  No two stores
    are seen in a wrong order. *)
Lemma ring_tso_robust_witness :
  t_thr ex_tso_end = [DeqTicket; DeqPublish 0 5] ∧
  ∃ m0 σ' m, RingTheorems.fresh 2 0 0 2 m0 ∧ run (M := ring_machine (A := Z) machine_arith 2 0) m0 σ' = Some m ∧
    c_thr m = [DeqTicket; DeqPublish 0 5].
Proof.
  split; [by vm_compute|].
  destruct (ring_tso_robust (A := Z) 2 0 ex_params2 2 ltac:(lia) 0 ex_tso0 ex_tso_act ex_tso_end)
    as (m0 & σ' & m & Hf & Hr & _ & Ht & _); [by vm_compute|exact ex_tso_runs|].
  exists m0, σ', m. split_and!; [exact Hf|exact Hr|]. rewrite Ht. by vm_compute.
Defined.

Lemma ring_tso_linearizable_witness :
  ∃ q, sp_run (S := queue_spec (A := Z) 0) (queue_init 2)
    [EvCall 0 (OpEnqueue EnqMove 5); EvRet 0 RUnit; EvCall 1 OpDequeue; EvCall 0 OpDequeue] q.
Proof.
  destruct (ring_tso_linearizable (A := Z) 2 0 ex_params2 2 ltac:(lia) 0 ex_tso0 ex_tso_act ex_tso_end) as (q & Hq & _);
    [by vm_compute|exact ex_tso_runs|]. exists q.
  by vm_compute in Hq |- *.
Defined.

Lemma ring_tso_no_undefined_behaviour_witness :
  is_Some (texec machine_arith 2 0 ex_tso_end (TRun 1)).
Proof.
  destruct (ring_tso_no_undefined_behaviour (A := Z) 2 0 ex_params2 2 ltac:(lia) 0 ex_tso_end 1 (DeqPublish 0 5) ex_tso_reachable)
    as [H|[H _]]; [by vm_compute|done|exact H|discriminate H].
Defined.

(** A reader on an empty buffer. *)
Definition ex_empty : list (tact Z) := [TCall 0 OpDequeue; TRun 0; TRun 0].
Definition ex_empty_end : tcfg Z := default ex_tso0 (run (M := tso_machine (A := Z) machine_arith 2 0) ex_tso0 ex_empty).

Lemma ring_tso_blocks_only_when_full_or_empty_witness : (length (t_hist ex_empty_end) < t_reads ex_empty_end)%nat.
Proof.
  destruct (ring_tso_blocks_only_when_full_or_empty (A := Z) 2 0 ex_params2 2 ltac:(lia) 0 ex_empty_end) with (t := 0%nat) (p := DeqSpin (A := Z) 0)
    as [[_ H]|[H _]]; [..|exact H|discriminate H].
  - eapply run_reachable; [apply reach_init; by vm_compute|]. apply (run_default (M := tso_machine (A := Z) machine_arith 2 0)). by vm_compute.
  - intros t b Hb. do 2 (destruct t as [|t]; [by vm_compute in Hb; injection Hb as <-|]). by vm_compute in Hb.
  - intros t p Hp Ha. do 2 (destruct t as [|t]; [vm_compute in Hp; injection Hp as <-; try done; by vm_compute|]). by vm_compute in Hp.
  - by vm_compute.
  - done.
Defined.
