(* ===== verification/RingBatch.v ===== *)
(** * batchDequeue with a single consumer

    The source allows [batchDequeue] "only in MPSC paths": one thread does all
    the dequeuing.  [mpsc_machine tc] is the buffer used that way by consumer
    [tc]; there the array that [batchDequeue] returns holds, in order, the next
    values of the queue. *)

From Stdlib Require Import ZArith Lia.
From S2P Require Import Prelude MachineInt Lts AtomicRingBuffer RingProtocol RingInvariant.
From S2P Require Import RingMachine QueueSpec RingRefinement RingTheorems.
Local Open Scope Z_scope.
Local Open Scope astra_scope.

(** The bound on [count], for every [int]: a count in [0, BATCH_SIZE] is
    kept, every other one becomes [BATCH_SIZE]; also the negative ones, because
    the comparison is made in [std::size_t]. *)
Theorem batch_count_clamped BATCH_SIZE count :
  0 <= BATCH_SIZE <= INT_MAX → INT_MIN <= count <= INT_MAX →
  batch_clamp BATCH_SIZE count =
    if (0 <=? count) && (count <=? BATCH_SIZE) then count else BATCH_SIZE.
Proof.
  unfold INT_MIN, INT_MAX. intros HB Hc. unfold batch_clamp.
  assert (to_i32 BATCH_SIZE = BATCH_SIZE) as ->
    by (apply swrap_small; [lia|change (2 ^ (32 - 1)) with (2 ^ 31); lia]).
  destruct (Z.leb_spec 0 count) as [H0|H0]; simpl.
  - rewrite uwrap_small by lia. destruct (Z.ltb_spec BATCH_SIZE count), (Z.leb_spec count BATCH_SIZE); lia.
  - rewrite (uwrap_eq_cong 64 ltac:(lia) count (count + 2 ^ 64) (-1)) by lia.
    rewrite uwrap_small by lia. destruct (Z.ltb_spec BATCH_SIZE (count + 2 ^ 64)); lia.
Qed.

Section Mpsc.
Context {A : Type} `{!Elem A} (SIZE BATCH_SIZE : Z) (HP : params_ok SIZE BATCH_SIZE).
Context (tc : nat).

(** Only [tc] calls [dequeue] and [batchDequeue]. *)
Definition mpsc (a : act A) : bool :=
  match a with
  | Call t (OpDequeue | OpBatchDequeue _) => bool_decide (t = tc)
  | _ => true
  end.

Definition mpsc_machine (ar : arith) : machine :=
  Machine (cfg A) (act A) (λ c a, if mpsc a then exec ar SIZE BATCH_SIZE c a else None).

Definition consuming (p : pc A) : bool :=
  match p with
  | DeqTicket | DeqSpin _ | DeqMove _ | DeqPublish _ _ | DeqReturn _ _
  | BatchLoop _ _ | BatchSpin _ _ _ | BatchMove _ _ _ | BatchPublish _ _ _ | BatchReturn _ => true
  | _ => false
  end.

(** The first [k] entries of the array are the values from [start] on. *)
Definition filled (ba h : list A) (start k : Z) : Prop :=
  0 <= start ∧ ∀ x, 0 <= x < k →
    ∃ v, ba !! Z.to_nat x = Some v ∧ val_at h (start + x) = Some v.

Definition batch_ok (ba h : list A) (reads : Z) (p : pc A) : Prop :=
  match p with
  | BatchLoop i _ => filled ba h (reads - i) i
  | BatchSpin i _ r | BatchMove i _ r => r = reads - 1 ∧ filled ba h (r - i) i
  | BatchPublish i _ r => r = reads - 1 ∧ filled ba h (r - i) (i + 1)
  | BatchReturn count => filled ba h (reads - count) count
  | _ => True
  end.

Record binv (c : cfg A) : Prop := {
  bi_others : ∀ t p, c_thr c !! t = Some p → t ≠ tc → consuming p = false;
  bi_batch : ∀ p, c_thr c !! tc = Some p →
    batch_ok (batchDequeueArray (c_ring c)) (c_hist c) (Z.of_nat (c_reads c)) p;
}.

Lemma filled_snoc ba h x start k : filled ba h start k → filled ba (h ++ [x]) start k.
Proof.
  intros [H0 Hf]. split; [done|]. intros y Hy. destruct (Hf y Hy) as (v & ? & Hv).
  exists v. split; [done|]. unfold val_at in *. auto with astra.
Qed.

Lemma batch_ok_log q ba h reads p : batch_ok ba h reads p → batch_ok ba (log_ticket q h) reads p.
Proof.
  destruct q; simpl; try done. destruct p; simpl; try done; try apply filled_snoc;
    intros [? ?]; (split; [done|]); by apply filled_snoc.
Qed.

(** A thread that is not the consumer touches neither the array nor the
    read counter. *)
Lemma producer_step (r r' : ring A) p p' reads :
  consuming p = false → step_ring ticket_arith SIZE r p = Some (r', p') →
  consuming p' = false ∧ batchDequeueArray r' = batchDequeueArray r ∧ log_read p reads = reads.
Proof.
  intros Hc Hs. destruct p; simpl in Hc, Hs; try done;
    unfold seq_load, seq_store, data_assign, data_destroy, data_construct in Hs; step_inv Hs; try done.
  by destruct (writable _ _ _).
Qed.

Lemma filled_store ba h start i v :
  0 <= i → (Z.to_nat i < length ba)%nat → val_at h (start + i) = Some v →
  filled ba h start i → filled (<[Z.to_nat i := v]> ba) h start (i + 1).
Proof.
  intros Hi Hl Hv [H0 Hf]. split; [done|]. intros x Hx. destruct (decide (x = i)) as [->|Hne].
  - exists v. split; [|done]. by apply list_lookup_insert_eq.
  - destruct (Hf x) as (w & ? & ?); [lia|]. exists w. split; [|done].
    rewrite list_lookup_insert_ne by lia. done.
Qed.

(** The consumer's own steps. *)
Lemma consumer_step c p r' p' :
  cinv SIZE BATCH_SIZE c → c_thr c !! tc = Some p →
  batch_ok (batchDequeueArray (c_ring c)) (c_hist c) (Z.of_nat (c_reads c)) p →
  step_ring ticket_arith SIZE (c_ring c) p = Some (r', p') →
  batch_ok (batchDequeueArray r') (log_ticket p (c_hist c)) (Z.of_nat (log_read p (c_reads c))) p'.
Proof using HP.
  intros Hi Hp Hb Hs. pose proof (ci_reads _ _ _ Hi) as HR.
  pose proof (ci_pc _ _ _ Hi _ _ Hp) as Hok.
  destruct p; simpl in Hs, Hb, Hok; try done; try (step_inv Hs; done).
  - step_inv Hs. by destruct (writable _ _ _).
  - step_inv Hs. by destruct (readable _ _ _).
  - simpl. destruct (Z.ltb_spec i count); simplify_eq/=.
    + split; [lia|]. by replace (readTicket (c_ring c) - i) with (Z.of_nat (c_reads c) - i) by lia.
    + by assert (i = count) as <- by lia.
  - step_inv Hs. by destruct (readable _ _ _).
  - unfold data_move, batch_store in Hs. step_inv Hs. destruct Hb as [-> Hf].
    apply (get_slot_at _ _ HP) in E.
    destruct (owned_value SIZE (abs c) tc _ s (ci_p _ _ _ Hi) (view_lookup _ _ _ Hp)) as [_ Hd]; [done|].
    simpl in Hd. split; [done|]. apply filled_store; [lia|lia| |done].
    rewrite Z.sub_add, <- Hd. done.
  - unfold seq_store in Hs. step_inv Hs. destruct Hb as [-> Hf].
    by replace (Z.of_nat (c_reads c) - (i + 1)) with (Z.of_nat (c_reads c) - 1 - i) by lia.
Qed.

Lemma binv_exec c a c' :
  cinv SIZE BATCH_SIZE c → binv c → mpsc a = true →
  exec ticket_arith SIZE BATCH_SIZE c a = Some c' → binv c'.
Proof using HP.
  intros Hi [Ho Hb] Ha He. destruct a as [t o|t|t|]; simpl in He; step_inv He.
  - split; simpl.
    + intros t' p [(<-&<-&_)|(_&?)]%lookup_insert_cases; [|by eauto].
      intros Hne. by destruct o; simpl in *; try case_bool_decide.
    + intros p [(->&<-&_)|(_&?)]%lookup_insert_cases; [|by eauto].
      destruct o; simpl; try done. split; [lia|]. intros; lia.
  - destruct p0 as [r' p']. simpl. destruct (decide (t = tc)) as [->|Hne].
    + split; simpl.
      * intros t' q [(<-&_)|(_&?)]%lookup_insert_cases; [done|by eauto].
      * intros q [(_&<-&_)|(?&?)]%lookup_insert_cases; [|done]. eapply consumer_step; eauto.
    + destruct (producer_step _ _ _ _ (c_reads c) (Ho _ _ E Hne) E0) as (? & Hba & Hlr). split; simpl.
      * intros t' q [(<-&<-&_)|(_&?)]%lookup_insert_cases; [done|by eauto].
      * intros q [(?&_)|(_&?)]%lookup_insert_cases; [done|]. rewrite Hba, Hlr.
        apply batch_ok_log. eauto.
  - split; simpl.
    + intros t' q [(<-&<-&_)|(_&?)]%lookup_insert_cases; [done|by eauto].
    + intros q [(_&<-&_)|(_&?)]%lookup_insert_cases; [done|by eauto].
  - apply all_idle in E. split; simpl.
    + intros t' q Hq _. rewrite E in Hq. by apply lookup_replicate in Hq as [-> _].
    + intros q Hq. rewrite E in Hq. by apply lookup_replicate in Hq as [-> _].
Qed.

Context (a0 : A) (n : nat) (Hn : SIZE * Z.of_nat n < 2 ^ 64).

Lemma mpsc_reach_wrap m :
  reachable (M := mpsc_machine machine_arith) (fresh SIZE BATCH_SIZE a0 n) m →
  ∃ c, m = wrap_cfg c ∧ cinv SIZE BATCH_SIZE c ∧ length (c_thr c) = n ∧ binv c.
Proof using HP Hn.
  revert m. apply invariant.
  - intros m Hm. destruct (init_wrap SIZE BATCH_SIZE HP a0 n) as (c & Hc & Hi & Hl & Hq & _).
    unfold fresh in *. exists c. split_and!; [congruence|done..|].
    unfold aqueue, queue_init in Hq. injection Hq as _ Hq.
    assert (∀ t p, c_thr c !! t = Some p → p = Idle) as Hidle.
    { intros t p Hp. assert ((athread_of (c_hist c) <$> c_thr c) !! t = Some (athread_of (c_hist c) p)) as H
        by (by rewrite list_lookup_fmap, Hp).
      rewrite Hq in H. apply lookup_replicate in H as [H _].
      destruct p; simpl in H; try done; by destruct (val_at _ _). }
    split; [by intros ? ? ->%Hidle|by intros ? ->%Hidle].
  - intros m a m' _ (c & -> & Hi & Hl & Hb) He. simpl in He.
    destruct (mpsc a) eqn:Ha; [|done].
    rewrite (exec_wrap _ _ HP) in He by (done || by rewrite Hl).
    apply fmap_Some in He as (c' & He & ->). exists c'. split_and!; [done|..].
    + by eapply cinv_exec.
    + by rewrite (exec_threads SIZE BATCH_SIZE _ _ _ _ He).
    + by eapply binv_exec.
Qed.

(** In MPSC use, when [batchDequeue] returns, the first [count] entries of
    its array are the next [count] enqueued values, in order. *)
Theorem batch_returns_next_values m count :
  reachable (M := mpsc_machine machine_arith) (fresh SIZE BATCH_SIZE a0 n) m →
  c_thr m !! tc = Some (BatchReturn count) →
  0 <= count <= BATCH_SIZE ∧ (Z.to_nat count ≤ c_reads m)%nat ∧
  take (Z.to_nat count) (batchDequeueArray (c_ring m)) =
  take (Z.to_nat count) (drop (c_reads m - Z.to_nat count) (c_hist m)).
Proof using HP Hn.
  intros (c & -> & Hi & Hl & Hb)%mpsc_reach_wrap Hp. simpl in Hp |- *.
  rewrite list_lookup_fmap in Hp. apply fmap_Some in Hp as (p & Hp & He).
  destruct p; simplify_eq/=. pose proof (ci_pc _ _ _ Hi _ _ Hp) as Hc. simpl in Hc.
  destruct (bi_batch _ Hb _ Hp) as [Hs Hf]. split_and!; [lia..|].
  apply list_eq. intros x. destruct (decide (x < Z.to_nat count0)%nat) as [Hx|Hx].
  - rewrite !lookup_take, !decide_True by done. rewrite lookup_drop.
    destruct (Hf (Z.of_nat x)) as (v & Hv & Hh); [lia|]. rewrite Nat2Z.id in Hv. rewrite Hv, <- Hh.
    unfold val_at. f_equal. lia.
  - by rewrite !lookup_take, !decide_False by done.
Qed.
End Mpsc.

(** ** A concrete run: producer 0, consumer 1 *)

Lemma batch_count_clamped_witness :
  batch_clamp 50 (-1) = 50 ∧ batch_clamp 50 (-1) = if (0 <=? -1) && (-1 <=? 50) then -1 else 50.
Proof.
  split; [by vm_compute|]. apply (batch_count_clamped 50 (-1)); unfold INT_MIN, INT_MAX; lia.
Defined.

Definition batch_sched : list (act Z) :=
  [Call 0 (OpEnqueue EnqCopy 5); Run 0; Run 0; Run 0; Run 0; Ret 0;
   Call 0 (OpEnqueue EnqEmplace 6); Run 0; Run 0; Run 0; Run 0; Ret 0;
   Call 1 (OpBatchDequeue 2); Run 1; Run 1; Run 1; Run 1; Run 1; Run 1; Run 1; Run 1; Run 1].

Definition batch_end : cfg Z :=
  default no_cfg (run (M := mpsc_machine 2 2 1 machine_arith) ex_init batch_sched).

Lemma batch_returns_next_values_witness :
  take 2 (batchDequeueArray (c_ring batch_end)) = [5; 6] ∧
  take (Z.to_nat 2) (batchDequeueArray (c_ring batch_end)) =
  take (Z.to_nat 2) (drop (c_reads batch_end - Z.to_nat 2) (c_hist batch_end)).
Proof.
  split; [by vm_compute|].
  apply (batch_returns_next_values 2 2 params_2_2 1 0 2 ltac:(lia) batch_end 2); [|by vm_compute].
  apply (run_reachable (mpsc_machine 2 2 1 machine_arith) _ ex_init batch_sched); [apply reach_init, ex_fresh|by vm_compute].
Defined.
