(* ===== verification/RingAlone.v ===== *)
(** * AtomicRingBuffer used by one thread at a time

    [run_alone] runs a member function to its end while the other threads are
    idle: the setting of constructors and of single-threaded clients.  [None]
    is a call that does not return (or is undefined). *)

From Stdlib Require Import ZArith Lia.
From S2P Require Import Prelude MachineInt Lts AtomicRingBuffer RingProtocol RingInvariant.
From S2P Require Import RingMachine QueueSpec RingRefinement RingTheorems.
Local Open Scope Z_scope.
Local Open Scope astra_scope.

Section Code.
Context {A : Type} `{!Elem A} (ar : arith) (SIZE BATCH_SIZE : Z).

(** Run thread [t] until its call returns; the result is in the last [pc]. *)
Fixpoint run_alone (fuel : nat) (t : nat) (c : cfg A) : option (cfg A * pc A) :=
  let? p := c_thr c !! t in
  if returning p
  then let? c' := exec ar SIZE BATCH_SIZE c (Ret t) in Some (c', p)
  else match fuel with
       | O => None
       | S f => let? c' := exec ar SIZE BATCH_SIZE c (Run t) in run_alone f t c'
       end.

Definition call_alone (fuel : nat) (t : nat) (o : op A) (c : cfg A) : option (cfg A * pc A) :=
  let? c' := exec ar SIZE BATCH_SIZE c (Call t o) in run_alone fuel t c'.

(** It is a schedule of the machine. *)
Lemma run_alone_run fuel t c c' p :
  run_alone fuel t c = Some (c', p) →
  ∃ σ, run (M := ring_machine ar SIZE BATCH_SIZE) c σ = Some c'.
Proof.
  revert c. induction fuel as [|f IH]; intros c H; cbn [run_alone] in H;
    destruct (c_thr c !! t) as [q|] eqn:Ht; try done; destruct (returning q) eqn:Hq; try done.
  - destruct (exec ar SIZE BATCH_SIZE c (Ret t)) as [c1|] eqn:E; [|done]. simplify_eq.
    exists [Ret t]. cbn [run m_exec ring_machine]. by rewrite E.
  - destruct (exec ar SIZE BATCH_SIZE c (Ret t)) as [c1|] eqn:E; [|done]. simplify_eq.
    exists [Ret t]. cbn [run m_exec ring_machine]. by rewrite E.
  - destruct (exec ar SIZE BATCH_SIZE c (Run t)) as [c1|] eqn:E; [|done].
    destruct (IH c1 H) as [σ Hσ]. exists (Run t :: σ). cbn [run m_exec ring_machine]. by rewrite E.
Qed.

Lemma call_alone_run fuel t o c c' p :
  call_alone fuel t o c = Some (c', p) →
  ∃ σ, run (M := ring_machine ar SIZE BATCH_SIZE) c σ = Some c'.
Proof.
  unfold call_alone. intros H. destruct (exec ar SIZE BATCH_SIZE c (Call t o)) as [c1|] eqn:E; [|done].
  apply run_alone_run in H as [σ Hσ]. exists (Call t o :: σ). cbn [run m_exec ring_machine]. by rewrite E.
Qed.
End Code.

Section Alone.
Context {A : Type} `{!Elem A} (SIZE BATCH_SIZE : Z) (HP : params_ok SIZE BATCH_SIZE).
Context (n : nat) (Hn : SIZE * Z.of_nat n < 2 ^ 64).

Abbreviation iexec := (exec ticket_arith SIZE BATCH_SIZE).

(** Thread [t], alone in the buffer, has room to write or a value to read. *)
Definition alone_ok (c : cfg A) (p : pc A) : Prop :=
  let W := Z.of_nat (length (c_hist c)) in
  let R := Z.of_nat (c_reads c) in
  match p with
  | EnqTicket _ _ => W < R + SIZE
  | EnqSpin _ _ t | EnqWrite _ _ t | EnqConstruct _ t | EnqPublish t => t < R + SIZE
  | EnqReturn => True
  | DeqTicket => R < W
  | DeqSpin r | DeqMove r | DeqPublish r _ | DeqReturn r _ => r = R - 1 ∧ R <= W
  | _ => False
  end.

Definition others_idle (c : cfg A) (t : nat) : Prop :=
  ∀ j p, j ≠ t → c_thr c !! j = Some p → p = Idle.

(** Alone, the only ticket holder is not kept waiting. *)
Lemma alone_not_waiting c t p :
  cinv SIZE BATCH_SIZE c → length (c_thr c) = n → c_thr c !! t = Some p → others_idle c t →
  alone_ok c p → waiting SIZE (c_ring c) p = false.
Proof using Elem0 HP Hn.
  intros Hi Hl Hp Hoth Hok. destruct (waiting SIZE (c_ring c) p) eqn:Hw; [exfalso|done].
  pose proof (ci_p _ _ _ Hi) as Hpi. pose proof (pi_W _ _ Hpi) as HW. simpl in HW.
  pose proof (ci_reads _ _ _ Hi) as HR. pose proof (SIZE_bounds _ _ HP) as [HS _].
  pose proof (view_lookup _ _ _ Hp) as Hv.
  assert (quiet SIZE (abs c)) as Hq.
  { eapply (all_blocked_quiet SIZE BATCH_SIZE HP n Hn); [done..|]. intros j q Hj Ha. simpl in Hj.
    rewrite list_lookup_fmap in Hj. apply fmap_Some in Hj as (q' & Hq' & ->).
    destruct (decide (j = t)) as [->|Hne]; [|by rewrite (Hoth _ _ Hne Hq') in Ha].
    rewrite Hp in Hq'. injection Hq' as <-. eapply (blocked_waiting SIZE BATCH_SIZE HP n Hn); [done..|by destruct p|done]. }
  destruct p; simpl in *; try done.
  - pose proof (quiet_writer SIZE HS _ Hpi Hq _ _ _ Hv) as Hx. simpl in Hx. lia.
  - pose proof (quiet_reader SIZE HS _ Hpi Hq _ _ _ Hv) as Hx. simpl in Hx. lia.
Qed.

(** One step of a thread alone. *)
Lemma alone_step c t p r' p' :
  cinv SIZE BATCH_SIZE c → c_thr c !! t = Some p → waiting SIZE (c_ring c) p = false →
  alone_ok c p → step_ring ticket_arith SIZE (c_ring c) p = Some (r', p') →
  alone_ok (mkCfg r' (<[t := p']> (c_thr c)) (log_ticket p (c_hist c)) (log_read p (c_reads c))) p'.
Proof.
  intros Hi Hp Hw Hok Hs. pose proof (pi_W _ _ (ci_p _ _ _ Hi)) as HW. simpl in HW.
  pose proof (ci_reads _ _ _ Hi) as HR.
  destruct p; simpl in Hs, Hok, Hw; try done; step_inv Hs; simpl; try lia;
    try (destruct (writable _ _ _); simpl; done); try (destruct (readable _ _ _); simpl; done).
Qed.

Definition dequeuing (p : pc A) : bool :=
  match p with
  | DeqTicket | DeqSpin _ | DeqMove _ | DeqPublish _ _ | DeqReturn _ _ => true
  | _ => false
  end.

(** A call takes one ticket, in its first step. *)
Lemma alone_logs c p r' p' :
  alone_ok c p → step_ring ticket_arith SIZE (c_ring c) p = Some (r', p') →
  log_ticket p' (log_ticket p (c_hist c)) = log_ticket p (c_hist c) ∧
  log_read p' (log_read p (c_reads c)) = log_read p (c_reads c) ∧ dequeuing p' = dequeuing p.
Proof.
  intros Hok Hs. destruct p; simpl in Hs, Hok; try done; step_inv Hs; simpl; try done;
    try (by destruct (writable _ _ _)); by destruct (readable _ _ _).
Qed.

(** What the finished call leaves behind. *)
Lemma run_alone_total fuel c t p :
  cinv SIZE BATCH_SIZE c → length (c_thr c) = n → c_thr c !! t = Some p → others_idle c t →
  alone_ok c p → (work p ≤ fuel)%nat →
  ∃ c' q, run_alone machine_arith SIZE BATCH_SIZE fuel t (wrap_cfg c) = Some (wrap_cfg c', wrap_pc q) ∧
    cinv SIZE BATCH_SIZE c' ∧ c_thr c' = <[t := Idle]> (c_thr c) ∧
    c_hist c' = log_ticket p (c_hist c) ∧ c_reads c' = log_read p (c_reads c) ∧
    alone_ok c' q ∧ pc_ok BATCH_SIZE (c_hist c') q ∧ returning q = true ∧ dequeuing q = dequeuing p.
Proof using HP Hn.
  revert c p. induction fuel as [|f IH]; intros c p Hi Hl Hp Hoth Hok Hf; cbn [run_alone].
  all: assert (c_thr (wrap_cfg c) !! t = Some (wrap_pc p)) as Hwp by (simpl; by rewrite list_lookup_fmap, Hp).
  all: rewrite Hwp, returning_wrap.
  all: destruct (returning p) eqn:Hret.
  1, 3: (rewrite (exec_wrap _ _ HP) by (done || by rewrite Hl);
    assert (iexec c (Ret t) = Some (mkCfg (c_ring c) (<[t := Idle]> (c_thr c)) (c_hist c) (c_reads c))) as He
      by (simpl; by rewrite Hp, Hret);
    rewrite He; eexists _, p; split; [done|]; split; [by eapply cinv_exec|];
    destruct p; try done; split_and!; try done; by apply (ci_pc _ _ _ Hi _ _ Hp)).
  { destruct p; simpl in *; try done; lia. }
  assert (active p = true) as Ha by (destruct p; done).
  pose proof (alone_not_waiting c t p Hi Hl Hp Hoth Hok) as Hw.
  destruct (step_total SIZE BATCH_SIZE HP c t p Hi Hp Ha) as [[r' p'] Hs].
  assert (iexec c (Run t) = Some (mkCfg r' (<[t := p']> (c_thr c)) (log_ticket p (c_hist c))
    (log_read p (c_reads c)))) as He by (simpl; by rewrite Hp, Hs).
  rewrite (exec_wrap _ _ HP) by (done || by rewrite Hl). rewrite He. cbn [fmap option_fmap option_map].
  destruct (IH (mkCfg r' (<[t := p']> (c_thr c)) (log_ticket p (c_hist c)) (log_read p (c_reads c))) p')
    as (c' & q & Hr & Hi' & Ht' & Hh' & Hrd' & Hrest).
  - by eapply cinv_exec.
  - by rewrite (exec_threads SIZE BATCH_SIZE _ _ _ _ He).
  - apply list_lookup_insert_eq. by eapply lookup_lt_Some.
  - intros j x Hne. simpl. rewrite list_lookup_insert_ne by done. by apply Hoth.
  - by eapply alone_step.
  - pose proof (step_work SIZE BATCH_SIZE n c t p r' p' Hi Hp Hw Hs). lia.
  - exists c', q. split; [exact Hr|]. split; [done|].
    simpl in Ht', Hh', Hrd'. rewrite list_insert_insert_eq in Ht'.
    destruct (alone_logs c p r' p' Hok Hs) as (Hlt & Hlr & <-).
    rewrite Hlt in Hh'. rewrite Hlr in Hrd'. done.
Qed.

(** The values in the buffer when no thread is inside. *)
Definition contents (c : cfg A) : list A := drop (c_reads c) (c_hist c).

Definition quiescent (c : cfg A) : bool := forallb idle (c_thr c).

Lemma quiescent_idle c t p : quiescent c = true → c_thr c !! t = Some p → p = Idle.
Proof.
  unfold quiescent. rewrite forallb_forall. intros H Hp.
  apply list_elem_of_lookup_2, list_elem_of_In, H in Hp. by destruct p.
Qed.

Lemma call_alone_total fuel c t o :
  cinv SIZE BATCH_SIZE c → length (c_thr c) = n → quiescent c = true → (t < n)%nat →
  op_typed o = true → alone_ok c (call BATCH_SIZE o) → (work (call BATCH_SIZE o) ≤ fuel)%nat →
  ∃ c' q, call_alone machine_arith SIZE BATCH_SIZE fuel t o (wrap_cfg c) = Some (wrap_cfg c', wrap_pc q) ∧
    cinv SIZE BATCH_SIZE c' ∧ c_thr c' = c_thr c ∧
    c_hist c' = log_ticket (call BATCH_SIZE o) (c_hist c) ∧
    c_reads c' = log_read (call BATCH_SIZE o) (c_reads c) ∧
    alone_ok c' q ∧ pc_ok BATCH_SIZE (c_hist c') q ∧ returning q = true ∧
    dequeuing q = dequeuing (call BATCH_SIZE o).
Proof using HP Hn.
  intros Hi Hl Hq Ht Ho Hok Hf. rewrite <- Hl in Ht. apply lookup_lt_is_Some in Ht as [p Hp].
  pose proof (quiescent_idle _ _ _ Hq Hp) as ->.
  set (c1 := mkCfg (c_ring c) (<[t := call BATCH_SIZE o]> (c_thr c)) (c_hist c) (c_reads c)).
  assert (iexec c (Call t o) = Some c1) as He by (simpl; by rewrite Hp, Ho).
  unfold call_alone. rewrite (exec_wrap _ _ HP) by (done || by rewrite Hl). rewrite He.
  destruct (run_alone_total fuel c1 t (call BATCH_SIZE o)) as (c' & q & Hr & Hi' & Hth & Hrest).
  - by eapply cinv_exec.
  - simpl. by rewrite length_insert.
  - simpl. apply list_lookup_insert_eq. by eapply lookup_lt_Some.
  - intros j x Hne. simpl. rewrite list_lookup_insert_ne by done. by apply quiescent_idle.
  - done.
  - done.
  - exists c', q. split; [exact Hr|]. split; [done|]. split; [|done].
    rewrite Hth. simpl. by rewrite list_insert_insert_eq, list_insert_id.
Qed.

Lemma quiescent_wrap c : quiescent (wrap_cfg c) = quiescent c.
Proof. apply idle_wrap. Qed.

(** When no thread is inside, the counters do not cross. *)
Lemma quiescent_window c :
  cinv SIZE BATCH_SIZE c → quiescent c = true → (c_reads c ≤ length (c_hist c))%nat.
Proof using HP.
  clear Hn n. intros Hi Hq. pose proof (SIZE_bounds _ _ HP) as [HS _]. pose proof (ci_p _ _ _ Hi) as Hp.
  pose proof (pi_W _ _ Hp) as HW. pose proof (ci_reads _ _ _ Hi) as HR. simpl in HW.
  destruct (decide (c_reads c ≤ length (c_hist c))%nat) as [|Hlt]; [done|exfalso].
  destruct (slot_at_total SIZE HS (buffer (c_ring c)) (readTicket (c_ring c) - 1) (pi_len _ _ Hp)) as [s Hs].
  destruct (pi_slot _ _ Hp _ _ Hs) as (t0 & H0 & Hpos & Hr & Hc).
  destruct (pi_rex _ _ Hp (readTicket (c_ring c) - 1) s) as (j & ph & Hv); [simpl; lia|done| |].
  - simpl in *. apart.
  - simpl in Hv. rewrite list_lookup_fmap in Hv. apply fmap_Some in Hv as (p & Hp' & Hv).
    by rewrite (quiescent_idle _ _ _ Hq Hp') in Hv.
Qed.

Lemma dequeue_total c t v rest :
  cinv SIZE BATCH_SIZE c → length (c_thr c) = n → quiescent c = true → (t < n)%nat →
  contents c = v :: rest →
  ∃ c' r, call_alone machine_arith SIZE BATCH_SIZE 4 t OpDequeue (wrap_cfg c) =
      Some (wrap_cfg c', DeqReturn (to_u64 r) v) ∧
    cinv SIZE BATCH_SIZE c' ∧ c_thr c' = c_thr c ∧ c_hist c' = c_hist c ∧ c_reads c' = S (c_reads c).
Proof using HP Hn.
  intros Hi Hl Hq Ht Hc. unfold contents in Hc.
  assert (c_hist c !! c_reads c = Some v) as Hv.
  { rewrite <- (Nat.add_0_r (c_reads c)), <- lookup_drop, Hc. done. }
  pose proof (lookup_lt_Some _ _ _ Hv) as Hlt.
  destruct (call_alone_total 4 c t OpDequeue)
    as (c' & q & Hr & Hi' & Hth & Hh & Hrd & Hok & Hpc & Hret & Hk); [done..|simpl; lia|simpl; lia|].
  destruct q as [| | | | | | | | | | |r v'| | | | | | | |]; try done. exists c', r. simpl in *.
  destruct Hok as [-> _]. destruct Hpc as [_ Hval]. unfold val_at in Hval. rewrite Hrd, Hh in Hval.
  replace (Z.to_nat (Z.of_nat (S (c_reads c)) - 1)) with (c_reads c) in Hval by lia. simplify_eq. done.
Qed.

Context (a0 : A).
Abbreviation machine := (ring_machine machine_arith SIZE BATCH_SIZE).

(** [enqueue] (every overload) alone in a buffer that is not full returns
    within 5 steps and appends its value to the contents. *)
Theorem ring_enqueue_returns m t k v :
  reachable (M := machine) (fresh SIZE BATCH_SIZE a0 n) m → quiescent m = true → (t < n)%nat →
  Z.of_nat (length (contents m)) < SIZE →
  ∃ m', call_alone machine_arith SIZE BATCH_SIZE 5 t (OpEnqueue k v) m = Some (m', EnqReturn) ∧
        quiescent m' = true ∧ contents m' = contents m ++ [v].
Proof using HP Hn.
  intros (c & -> & Hi & Hl)%reach_wrap Hq Ht Hlen; [|done..]. rewrite quiescent_wrap in Hq.
  pose proof (quiescent_window c Hi Hq) as Hw. unfold contents in *. simpl in Hlen.
  rewrite length_drop in Hlen.
  destruct (call_alone_total 5 c t (OpEnqueue k v))
    as (c' & q & Hr & _ & Hth & Hh & Hrd & Hok & _ & Hret & Hk); [done..|simpl; lia|simpl; lia|].
  exists (wrap_cfg c'). rewrite Hr, quiescent_wrap. unfold quiescent. rewrite Hth. simpl in Hh, Hrd |- *.
  split_and!; [|done|by rewrite Hh, Hrd, drop_snoc_le by lia].
  by destruct q.
Qed.

(** [dequeue] alone in a buffer that is not empty returns the oldest value
    within 4 steps and leaves the rest. *)
Theorem ring_dequeue_returns m t v rest :
  reachable (M := machine) (fresh SIZE BATCH_SIZE a0 n) m → quiescent m = true → (t < n)%nat →
  contents m = v :: rest →
  ∃ m' ticket, call_alone machine_arith SIZE BATCH_SIZE 4 t OpDequeue m = Some (m', DeqReturn ticket v) ∧
        quiescent m' = true ∧ contents m' = rest.
Proof using HP Hn.
  intros (c & -> & Hi & Hl)%reach_wrap Hq Ht Hc; [|done..]. rewrite quiescent_wrap in Hq.
  destruct (dequeue_total c t v rest Hi Hl Hq Ht Hc) as (c' & r & Hr & _ & Hth & Hh & Hrd).
  exists (wrap_cfg c'), (to_u64 r). rewrite Hr, quiescent_wrap. unfold quiescent, contents in *.
  rewrite Hth. split_and!; [done|done|]. simpl. simpl in Hc. rewrite Hh, Hrd.
  rewrite <- Nat.add_1_r, <- drop_drop, Hc. done.
Qed.
End Alone.

(** The example buffer of [RingTheorems] used by thread 1 alone. *)
Lemma ring_enqueue_returns_witness :
  ∃ m', call_alone machine_arith 2 2 5 1 (OpEnqueue EnqCopy 9) ex_init = Some (m', EnqReturn) ∧
        quiescent m' = true ∧ contents m' = [9].
Proof.
  apply (ring_enqueue_returns (A := Z) 2 2 params_2_2 2 ltac:(lia) 0 ex_init 1 EnqCopy 9);
    [apply reach_init, ex_fresh|by vm_compute|lia|by vm_compute].
Defined.

Definition ex_one : list (act Z) :=
  [Call 0 (OpEnqueue EnqMove 7); Run 0; Run 0; Run 0; Run 0; Ret 0].
Definition ex_filled : cfg Z := default no_cfg (run (M := ring_machine machine_arith 2 2) ex_init ex_one).

Lemma ring_dequeue_returns_witness :
  ∃ m' ticket, call_alone machine_arith 2 2 4 1 OpDequeue ex_filled = Some (m', DeqReturn ticket 7) ∧
    quiescent m' = true ∧ contents m' = [].
Proof.
  apply (ring_dequeue_returns (A := Z) 2 2 params_2_2 2 ltac:(lia) 0 ex_filled 1 7 []).
  - apply (run_reachable (ring_machine machine_arith 2 2) _ ex_init ex_one);
      [apply reach_init, ex_fresh|by vm_compute].
  - by vm_compute.
  - lia.
  - by vm_compute.
Defined.
