(* ===== verification/RingClient.v ===== *)
(** * Clients of the ring buffer: conservation of values

    What code that only enqueues and dequeues gets from the buffer, whatever
    the interleaving: the values in the queue, those carried by calls in
    progress and those the clients [held] are together exactly a [total] that
    changes only when a client adds a value.  The proofs go through the abstract
    queue ([QueueSpec]) that the buffer refines. *)

From Stdlib Require Import ZArith Lia.
From S2P Require Import Prelude MachineInt Lts AtomicRingBuffer RingProtocol RingInvariant.
From S2P Require Import RingMachine QueueSpec RingRefinement RingTheorems.
Local Open Scope Z_scope.

Section Flow.
Context {A : Type} (BATCH_SIZE : Z).
Implicit Types (held total rest : list A).

(** Threads that only enqueue and dequeue; the value a thread carries. *)
Definition client_thread (a : athread A) : bool :=
  match a with AIdle | AEnq _ | AEnqDone | ADeq | ADeqDone _ => true | _ => false end.
Definition carried (a : athread A) : list A :=
  match a with AEnq v | ADeqDone v => [v] | _ => [] end.

Record flow (q : qstate A) (held total : list A) : Prop := {
  fl_thr : ∀ t a, q_thr q !! t = Some a → client_thread a = true;
  fl_perm : q_items q ++ concat (carried <$> q_thr q) ++ held ≡ₚ total;
}.

(** Thread [t] changes from [a] to [a'], and the rest accordingly. *)
Lemma flow_move q held total q' held' total' ts t a a' :
  flow (QState q ts) held total → ts !! t = Some a → client_thread a' = true →
  (∀ rest, q ++ (carried a ++ rest) ++ held ≡ₚ total → q' ++ (carried a' ++ rest) ++ held' ≡ₚ total') →
  flow (QState q' (<[t := a']> ts)) held' total'.
Proof.
  intros [Ht Hp] Ha Hpt Hmove. split; simpl in *.
  - intros j x [(<-&<-&_)|(_&Hx)]%lookup_insert_cases; eauto.
  - destruct (concat_fmap_split carried ts t a Ha) as (rest & E1 & E2). rewrite <- E2. apply Hmove. by rewrite E1.
Qed.

(** The instants at which the operations take effect. *)
Lemma flow_step q q' held total : qstep BATCH_SIZE q [] q' → flow q held total → flow q' held total.
Proof.
  intros Hs Hok. inversion Hs; subst; clear Hs.
  - eapply flow_move; eauto. intros rest H'. rewrite <- H', <- !app_assoc. done.
  - eapply flow_move; eauto. intros rest H'. rewrite <- H'. simpl. by rewrite <- Permutation_middle.
  - by specialize (fl_thr _ _ _ Hok _ _ H).
Qed.

Lemma flow_run q q' held total :
  sp_run (S := queue_spec BATCH_SIZE) q [] q' → flow q held total → flow q' held total.
Proof.
  intros Hr. remember [] as τ eqn:Hτ. induction Hr as [|q e q1 τ q2 Hs Hr IH]; [done|].
  apply app_eq_nil in Hτ as [-> ->]. intros Hok. apply IH; [done|]. by eapply flow_step.
Qed.
End Flow.

Section RingFlow.
Context {A : Type} `{!Elem A} (SIZE BATCH_SIZE : Z) (HP : params_ok SIZE BATCH_SIZE).
Context (n : nat) (Hn : SIZE * Z.of_nat n < 2 ^ 64).
Implicit Types (held total rest : list A) (c m : cfg A).
Abbreviation mexec := (exec machine_arith SIZE BATCH_SIZE).

Lemma ring_action c a c1 :
  cinv SIZE BATCH_SIZE c → length (c_thr c) = n → mexec (wrap_cfg c) a = Some c1 →
  ∃ c', c1 = wrap_cfg c' ∧ exec ticket_arith SIZE BATCH_SIZE c a = Some c' ∧
    cinv SIZE BATCH_SIZE c' ∧ length (c_thr c') = n.
Proof using HP Hn.
  intros Hi Hl He. rewrite (exec_wrap _ _ HP) in He by (done || by rewrite Hl).
  apply fmap_Some in He as (c' & He & ->). exists c'. split_and!; try done.
  - by eapply cinv_exec.
  - by rewrite (exec_threads SIZE BATCH_SIZE _ _ _ _ He).
Qed.

(** Calls and returns change one thread of the abstract queue. *)
Lemma aqueue_local c t p :
  aqueue (mkCfg (c_ring c) (<[t := p]> (c_thr c)) (c_hist c) (c_reads c)) =
  QState (q_items (aqueue c)) (<[t := athread_of (c_hist c) p]> (q_thr (aqueue c))).
Proof. unfold aqueue. simpl. by rewrite list_fmap_insert. Qed.

Lemma aqueue_thread c t p :
  c_thr c !! t = Some p → q_thr (aqueue c) !! t = Some (athread_of (c_hist c) p).
Proof. intros H. simpl. by rewrite list_lookup_fmap, H. Qed.

(** The conservation law for the code at machine width. *)
Definition ring_flow m held total : Prop :=
  ∃ c, m = wrap_cfg c ∧ cinv SIZE BATCH_SIZE c ∧ length (c_thr c) = n ∧ flow (aqueue c) held total.

Lemma ring_flow_perm m held held' total total' :
  held ≡ₚ held' → total ≡ₚ total' → ring_flow m held total → ring_flow m held' total'.
Proof.
  intros Hh Ht (c & -> & Hi & Hl & [H1 H2]). exists c. split_and!; try done. split; [done|]. by rewrite <- Hh, <- Ht.
Qed.

Lemma ring_flow_init a0 m :
  init_cfg machine_arith SIZE BATCH_SIZE a0 n = Some m → ring_flow m [] [].
Proof using HP.
  intros Hm. destruct (init_wrap SIZE BATCH_SIZE HP a0 n) as (c & Hc & Hi & Hl & Hq & _).
  exists c. unfold fresh in Hc. split_and!; [congruence|done|done|]. rewrite Hq. split; simpl.
  - by intros t a [-> _]%lookup_replicate.
  - rewrite fmap_replicate, app_nil_r. simpl. clear. by induction n.
Qed.

(** A call or a return of thread [t]: only that thread and the holdings change. *)
Lemma ring_flow_local c t p p' a held held' total total' m' :
  cinv SIZE BATCH_SIZE c → length (c_thr c) = n → flow (aqueue c) held total →
  c_thr c !! t = Some p → client_thread (athread_of (c_hist c) p') = true →
  exec ticket_arith SIZE BATCH_SIZE c a =
    Some (mkCfg (c_ring c) (<[t := p']> (c_thr c)) (c_hist c) (c_reads c)) →
  (∀ q rest, q ++ (carried (athread_of (c_hist c) p) ++ rest) ++ held ≡ₚ total →
     q ++ (carried (athread_of (c_hist c) p') ++ rest) ++ held' ≡ₚ total') →
  mexec (wrap_cfg c) a = Some m' → ring_flow m' held' total'.
Proof using HP Hn.
  intros Hi Hl Hok Hp Hpt He Hmove Hm.
  apply ring_action in Hm as (c' & -> & He' & Hi' & Hl'); [|done..].
  rewrite He in He'. injection He' as <-. eexists. split_and!; [done..|].
  rewrite aqueue_local. change (aqueue c) with (QState (q_items (aqueue c)) (q_thr (aqueue c))) in Hok.
  eapply flow_move; [done|by apply aqueue_thread|done|]. intros rest. apply Hmove.
Qed.

Lemma exec_call c t o m' :
  mexec (wrap_cfg c) (Call t o) = Some m' →
  c_thr c !! t = Some Idle ∧ exec ticket_arith SIZE BATCH_SIZE c (Call t o) =
    Some (mkCfg (c_ring c) (<[t := call BATCH_SIZE o]> (c_thr c)) (c_hist c) (c_reads c)).
Proof.
  simpl. rewrite list_lookup_fmap. destruct (c_thr c !! t) as [p|]; [|done]. simpl.
  destruct p; try done. by destruct (op_typed o).
Qed.

(** [enqueue] takes a value from the holdings, or a new one. *)
Lemma ring_flow_enqueue m t k v held held' total total' m' :
  ring_flow m held total → mexec m (Call t (OpEnqueue k v)) = Some m' →
  (∀ rest, rest ++ held ≡ₚ total → v :: rest ++ held' ≡ₚ total') → ring_flow m' held' total'.
Proof using HP Hn.
  intros (c & -> & Hi & Hl & Hok) He Hmove. destruct (exec_call c t _ m' He) as [Hp Hx].
  eapply (ring_flow_local c t Idle (EnqTicket k v)); try done. intros q rest H. simpl in *.
  rewrite app_assoc in H. specialize (Hmove _ H). rewrite <- Permutation_middle. by rewrite app_assoc.
Qed.

Lemma ring_flow_dequeue m t held total m' :
  ring_flow m held total → mexec m (Call t OpDequeue) = Some m' → ring_flow m' held total.
Proof using HP Hn.
  intros (c & -> & Hi & Hl & Hok) He. destruct (exec_call c t _ m' He) as [Hp Hx].
  by eapply (ring_flow_local c t Idle DeqTicket).
Qed.

Lemma ring_flow_run m t held total m' :
  ring_flow m held total → mexec m (Run t) = Some m' → ring_flow m' held total.
Proof using HP Hn.
  intros (c & -> & Hi & Hl & Hok) He. apply ring_action in He as (c' & -> & He & Hi' & Hl'); [|done..].
  exists c'. split_and!; try done.
  pose proof (sim_exec SIZE BATCH_SIZE HP c (Run t) c' Hi He) as Hsim.
  eapply flow_run; [|exact Hok].
  replace (obs SIZE ticket_arith c (Run t)) with (@nil (event A)) in Hsim; [done|].
  simpl. destruct (c_thr c !! t) as [p|] eqn:Ht; [|done].
  pose proof (fl_thr _ _ _ Hok t _ (aqueue_thread _ _ _ Ht)) as Hpt. destruct p; try done.
  simpl in Hpt. by destruct (val_at _ _).
Qed.

(** What the actions do to the threads. *)
Lemma exec_call_thr m t o m' :
  mexec m (Call t o) = Some m' → c_thr m' = <[t := call BATCH_SIZE o]> (c_thr m).
Proof. simpl. intros H. step_inv H. done. Qed.

Lemma exec_ret_thr m t m' : mexec m (Ret t) = Some m' → c_thr m' = <[t := Idle]> (c_thr m).
Proof. simpl. intros H. step_inv H. done. Qed.

(** What a return hands to the client. *)
Definition ret_val (p : pc A) : list A := match p with DeqReturn _ v => [v] | _ => [] end.

Lemma ring_flow_return m t p held total m' :
  ring_flow m held total → c_thr m !! t = Some p → mexec m (Ret t) = Some m' →
  ring_flow m' (ret_val p ++ held) total.
Proof using HP Hn.
  intros (c & -> & Hi & Hl & Hok) Hp' He. simpl in Hp'. rewrite list_lookup_fmap in Hp'.
  apply fmap_Some in Hp' as (p0 & Hp & ->).
  assert (returning p0 = true ∧ exec ticket_arith SIZE BATCH_SIZE c (Ret t) =
    Some (mkCfg (c_ring c) (<[t := Idle]> (c_thr c)) (c_hist c) (c_reads c))) as [Hret Hx].
  { simpl in He |- *. rewrite list_lookup_fmap, Hp in He. rewrite Hp. simpl in He.
    rewrite returning_wrap in He. by destruct (returning p0). }
  eapply (ring_flow_local c t p0 Idle); try done. intros q rest. simpl.
  destruct p0; try done; simpl. intros H. rewrite <- H. by rewrite <- !Permutation_middle.
Qed.

(** Only the [n] threads use the buffer. *)
Lemma ring_flow_thread m held total t p : ring_flow m held total → c_thr m !! t = Some p → (t < n)%nat.
Proof.
  intros (c & -> & _ & Hl & _) Hp. apply lookup_lt_Some in Hp. simpl in Hp. rewrite length_fmap in Hp. lia.
Qed.

(** Work in the buffer after one thread changed. *)
Lemma work_insert m m' t r r' :
  c_thr m !! t = Some r → c_thr m' = <[t := r']> (c_thr m) →
  (total_work m' + work r = total_work m + work r')%nat.
Proof.
  intros Hr Hm. unfold total_work. rewrite Hm. by apply sum_fmap_insert.
Qed.

(** *** When nobody can move *)

(** Either a thread inside the buffer can make progress, or all are blocked. *)
Lemma ring_flow_moves m held total :
  ring_flow m held total →
  (∃ t p m', c_thr m !! t = Some p ∧ active p = true ∧ mexec m (Run t) = Some m' ∧
     (total_work m' < total_work m)%nat) ∨ all_blocked SIZE BATCH_SIZE m.
Proof using HP Hn.
  intros (c & -> & Hi & Hl & _).
  destruct (list_find (λ p, active p && negb (waiting SIZE (c_ring c) p) = true) (c_thr c)) as [[t p]|] eqn:E.
  - left. apply list_find_Some in E as (Hp & [Ha Hw%negb_true_iff]%andb_true_iff & _).
    destruct (step_total SIZE BATCH_SIZE HP c t p Hi Hp Ha) as [[r' p'] Hs].
    pose proof (step_work SIZE BATCH_SIZE n c t p r' p' Hi Hp Hw Hs) as Hlt.
    exists t, (wrap_pc p). eexists. rewrite (exec_wrap _ _ HP) by (done || by rewrite Hl). cbn [exec]. rewrite Hp, Hs.
    split_and!; [simpl; by rewrite list_lookup_fmap, Hp|by destruct p|done|].
    rewrite !total_work_wrap. unfold total_work. simpl.
    pose proof (sum_fmap_insert work (c_thr c) t p p' Hp). lia.
  - right. intros t q Hq Ha. simpl in Hq. rewrite list_lookup_fmap in Hq. apply fmap_Some in Hq as (p & Hp & ->).
    assert (active p = true) as Hap by (by destruct p).
    eapply blocked_waiting; eauto. eapply list_find_None, Forall_lookup in E; eauto.
    simpl in E. rewrite Hap in E. simpl in E. by apply not_true_is_false, negb_false_iff in E.
Qed.

(** If every thread inside the buffer is blocked and none is about to return,
    then either they all dequeue and every value is held by the clients, or they
    all enqueue and more than [SIZE] values are not. *)
Lemma ring_flow_stuck m held total t p :
  ring_flow m held total → all_blocked SIZE BATCH_SIZE m →
  (∀ t p, c_thr m !! t = Some p → returning p = false) →
  c_thr m !! t = Some p → p ≠ Idle →
  (waits_to_read p = true ∧ held ≡ₚ total ∧
     ∀ t' p', c_thr m !! t' = Some p' → p' ≠ Idle → waits_to_read p' = true) ∨
  (waits_to_write p = true ∧ SIZE + Z.of_nat (length held) < Z.of_nat (length total) ∧
     ∀ t' p', c_thr m !! t' = Some p' → p' ≠ Idle → waits_to_write p' = true).
Proof using HP Hn.
  intros (c & -> & Hi & Hl & [Hthr Hperm]) Hb Hnr Ht Hne. pose proof (ci_reads _ _ _ Hi) as HR.
  pose proof (SIZE_bounds _ _ HP) as [HS _].
  assert (∀ j q, (wrap_pc <$> c_thr c) !! j = Some q → q ≠ Idle → ∃ q0, c_thr c !! j = Some q0 ∧ active q0 = true ∧
    waits_to_read q = waits_to_read q0 ∧ waits_to_write q = waits_to_write q0) as Hact.
  { intros j q Hj Hq. specialize (Hnr j q Hj). rewrite list_lookup_fmap in Hj.
    apply fmap_Some in Hj as (q0 & Hj & ->). exists q0. split; [done|]. by destruct q0. }
  destruct (Hact t p Ht Hne) as (p0 & Ht0 & Ha0 & Er0 & Ew0).
  destruct (blocked_cases SIZE BATCH_SIZE HP n Hn c t p0 Hi Hl Hb Ht0 Ha0) as [(Hr & Hlt & _)|[Hw Hlt]].
  - left. split; [congruence|]. split.
    + rewrite <- Hperm. simpl. rewrite drop_ge by lia. rewrite concat_nils; [done|].
      intros j x Hj. rewrite !list_lookup_fmap in Hj. destruct (c_thr c !! j) as [q|] eqn:Hq; [|done].
      simpl in Hj. injection Hj as <-. pose proof (Hthr j (athread_of (c_hist c) q)) as Hcl. simpl in Hcl.
      rewrite list_lookup_fmap, Hq in Hcl. specialize (Hcl eq_refl).
      destruct (active q) eqn:Haq.
      * destruct (blocked_cases SIZE BATCH_SIZE HP n Hn c j q Hi Hl Hb Hq Haq) as [(_ & _ & ->)|[_ ?]]; [|lia].
        by destruct q.
      * specialize (Hnr j (wrap_pc q)). simpl in Hnr. rewrite list_lookup_fmap, Hq in Hnr.
        specialize (Hnr eq_refl). by destruct q.
    + intros t' p' Ht' Hne'. destruct (Hact t' p' Ht' Hne') as (q & Hq & Haq & -> & _).
      by destruct (blocked_cases SIZE BATCH_SIZE HP n Hn c t' q Hi Hl Hb Hq Haq) as [(? & _)|[_ ?]]; [|lia].
  - right. split; [congruence|]. split.
    + apply Permutation_length in Hperm. rewrite !length_app in Hperm. simpl in Hperm.
      rewrite length_drop in Hperm. lia.
    + intros t' p' Ht' Hne'. destruct (Hact t' p' Ht' Hne') as (q & Hq & Haq & _ & ->).
      by destruct (blocked_cases SIZE BATCH_SIZE HP n Hn c t' q Hi Hl Hb Hq Haq) as [(_ & ? & _)|[? _]]; [lia|].
Qed.
End RingFlow.
