(* ===== verification/LockInterface.v ===== *)
(** * What a lock promises to its clients

    [Lock] is the interface between a lock and the code it protects: the steps
    of [lock()], the effect of [unlock()], and the laws that make it a lock.
    The theorems of [LockClient] are proved against these laws only;
    [Spinlock.v] and [SpinlockBench.v] provide the implementations. *)

From Stdlib Require Import ZArith Lia.
From S2P Require Import Prelude MachineInt Lts.
Local Open Scope Z_scope.
Local Open Scope astra_scope.

(** [lk_step s p] is one step of a thread inside [lock()]: [inl p'] if it is
    still inside, [inr tt] if [lock()] returned. *)
Class Lock (L : Type) := {
  lk_pc : Type;
  lk_enter : lk_pc;
  lk_step : L → lk_pc → option (L * (lk_pc + unit));
  lk_unlock : L → L;

  (** The abstract state of the lock, and the invariant of a thread inside. *)
  lk_free : L → bool;
  lk_wf : L → Prop;
  lk_ok : L → lk_pc → Prop;
  (** Steps that a thread inside still needs once the lock is free. *)
  lk_rank : L → lk_pc → nat;

  lk_enter_ok s : lk_wf s → lk_ok s lk_enter;
  lk_total s p : lk_wf s → lk_ok s p → is_Some (lk_step s p);
  lk_acquire s p s' : lk_step s p = Some (s', inr tt) → lk_free s = true ∧ lk_free s' = false;
  lk_wait s p s' p' : lk_step s p = Some (s', inl p') → lk_free s' = lk_free s;
  lk_wait_ok s p s' p' : lk_ok s p → lk_step s p = Some (s', inl p') → lk_ok s' p';
  lk_step_wf s p s' x : lk_wf s → lk_step s p = Some (s', x) → lk_wf s';
  lk_step_ok s p s' x q : lk_ok s q → lk_step s p = Some (s', x) → lk_ok s' q;
  lk_unlock_free s : lk_free (lk_unlock s) = true;
  lk_unlock_wf s : lk_wf s → lk_wf (lk_unlock s);
  lk_unlock_ok s q : lk_ok s q → lk_ok (lk_unlock s) q;
  lk_progress s p s' p' :
    lk_free s = true → lk_ok s p → lk_step s p = Some (s', inl p') →
    lk_free s' = true ∧ (lk_rank s' p' < lk_rank s p)%nat;
}.

(** ** The workload *)

(** The loop of [work(iters)]: [i < iters], then [x += i] in [uint64_t] and [++i] in
    [unsigned]; [None] when it is over. *)
Definition work (iters i x : Z) : option (Z * Z) :=
  if i <? iters then Some (to_u32 (i + 1), to_u64 (x + i)) else None.

(** ** A counter behind a lock

    The worker loop of [runLock] in
    [src/bench/SpinlockComparisonBench.cpp]: lock, increment a plain shared
    counter, record the change of owner, work, unlock, count the acquisition, work
    a little outside the lock.  Loads and stores of the plain variables are separate steps, so a lock that
    admitted two threads would lose increments. *)

Record Shared := mkShared { counter : Z; handoffs : Z; owner : Z }.

(** [uint64_t counter = 0; uint64_t handoffs = 0; unsigned owner = ~0u;] *)
Definition shared_init : Shared := mkShared 0 0 (2 ^ 32 - 1).

Section Client.
Context {L : Type} `{!Lock L} (csIters : Z).

(** Where a worker is in its loop, with its local count [n]. *)
Inductive wpc :=
| WLoop (n : Z)
| WLock (p : lk_pc) (n : Z)
| WLoad (n : Z)
| WStore (n x : Z)
| WOwner (n : Z)
| WSetOwner (n : Z)
| WHandLoad (n : Z)
| WHandStore (n x : Z)
| WWork (n i x : Z)
| WUnlock (n : Z)
| WCount (n : Z)
| WGap (n i x : Z)
| WDone (n : Z).

Record wcfg := mkW { w_lock : L; w_shared : Shared; w_thr : list wpc }.

(** The loop test reads the clock: either outcome is possible. *)
Inductive wact := WGo (t : nat) | WStop (t : nat) | WRun (t : nat).

(** One step of worker [i] after the loop test. *)
Definition worker_step (i : nat) (l : L) (sh : Shared) (p : wpc) : option (L * Shared * wpc) :=
  match p with
  | WLock q n =>
      match lk_step l q with
      | Some (l', inl q') => Some (l', sh, WLock q' n)
      | Some (l', inr _) => Some (l', sh, WLoad n)
      | None => None
      end
  | WLoad n => Some (l, sh, WStore n (counter sh))
  | WStore n x => Some (l, mkShared (to_u64 (x + 1)) (handoffs sh) (owner sh), WOwner n)
  | WOwner n => Some (l, sh, if owner sh =? Z.of_nat i then WWork n 0 0 else WSetOwner n)
  | WSetOwner n => Some (l, mkShared (counter sh) (handoffs sh) (Z.of_nat i), WHandLoad n)
  | WHandLoad n => Some (l, sh, WHandStore n (handoffs sh))
  | WHandStore n x => Some (l, mkShared (counter sh) (to_u64 (x + 1)) (owner sh), WWork n 0 0)
  | WWork n i x => Some (l, sh, match work csIters i x with Some (i', x') => WWork n i' x' | None => WUnlock n end)
  | WUnlock n => Some (lk_unlock l, sh, WCount n)
  | WCount n => Some (l, sh, WGap (to_u64 (n + 1)) 0 0)
  | WGap n i x => Some (l, sh, match work 16 i x with Some (i', x') => WGap n i' x' | None => WLoop n end)
  | _ => None
  end.

Definition worker_exec (c : wcfg) (a : wact) : option wcfg :=
  match a with
  | WGo t =>
      match w_thr c !! t with
      | Some (WLoop n) => Some (mkW (w_lock c) (w_shared c) (<[t := WLock lk_enter n]> (w_thr c)))
      | _ => None
      end
  | WStop t =>
      match w_thr c !! t with
      | Some (WLoop n) => Some (mkW (w_lock c) (w_shared c) (<[t := WDone n]> (w_thr c)))
      | _ => None
      end
  | WRun t =>
      let? p := w_thr c !! t in
      let? r := worker_step t (w_lock c) (w_shared c) p in
      Some (mkW r.1.1 r.1.2 (<[t := r.2]> (w_thr c)))
  end.

Definition worker_machine : machine := Machine wcfg wact worker_exec.

Definition worker_init (l : L) (n : nat) (c : wcfg) : Prop :=
  c = mkW l shared_init (replicate n (WLoop 0)).

(** The critical section, and what a worker has added to the counter. *)
Definition in_cs (p : wpc) : bool :=
  match p with
  | WLoad _ | WStore _ _ | WOwner _ | WSetOwner _ | WHandLoad _ | WHandStore _ _ | WWork _ _ _ | WUnlock _ => true
  | _ => false
  end.

Definition added (p : wpc) : Z :=
  match p with
  | WLoop n | WLock _ n | WLoad n | WStore n _ | WGap n _ _ | WDone n => n
  | WOwner n | WSetOwner n | WHandLoad n | WHandStore n _ | WWork n _ _ | WUnlock n | WCount n => n + 1
  end.

Record winv (c : wcfg) : Prop := {
  wi_wf : lk_wf (w_lock c);
  wi_ok : ∀ t q n, w_thr c !! t = Some (WLock q n) → lk_ok (w_lock c) q;
  wi_free : lk_free (w_lock c) = true → ∀ t p, w_thr c !! t = Some p → in_cs p = false;
  wi_one : ∀ t t' p p', w_thr c !! t = Some p → w_thr c !! t' = Some p' →
    in_cs p = true → in_cs p' = true → t = t';
  wi_held : lk_free (w_lock c) = false → ∃ t p, w_thr c !! t = Some p ∧ in_cs p = true;
  wi_count : counter (w_shared c) = to_u64 (sumZ (added <$> w_thr c));
  wi_load : ∀ t n x, w_thr c !! t = Some (WStore n x) → x = counter (w_shared c);
}.

Lemma added_insert (ws : list wpc) t p p' :
  ws !! t = Some p → sumZ (added <$> <[t := p']> ws) = sumZ (added <$> ws) - added p + added p'.
Proof.
  intros Hp. rewrite list_fmap_insert. apply sumZ_insert. by rewrite list_lookup_fmap, Hp.
Qed.

(** Steps outside the critical section and the lock. *)
Lemma winv_local c t p p' :
  winv c → w_thr c !! t = Some p → in_cs p = false → in_cs p' = false →
  to_u64 (added p') = to_u64 (added p) → (∀ q n, p' = WLock q n → lk_ok (w_lock c) q) →
  winv (mkW (w_lock c) (w_shared c) (<[t := p']> (w_thr c))).
Proof.
  intros [Hwf Hok Hfr Hone Hheld Hcnt Hld] Hp Hc Hc' Ha Hq.
  split; simpl; try done.
  - intros t' q n [(<-&->&_)|(_&?)]%lookup_insert_cases; eauto.
  - intros Hf t' q [(<-&<-&_)|(_&?)]%lookup_insert_cases; eauto.
  - intros t1 t2 p1 p2 [(<-&<-&_)|(_&?)]%lookup_insert_cases
      [(<-&<-&_)|(_&?)]%lookup_insert_cases; try congruence; eauto.
  - intros Hf. destruct (Hheld Hf) as (t' & q & Hq' & Hcs). exists t', q.
    rewrite list_lookup_insert_ne by congruence. done.
  - rewrite (added_insert _ _ _ _ Hp), Hcnt.
    destruct (uwrap_cong 64 ltac:(lia) (added p)) as [k Hk], (uwrap_cong 64 ltac:(lia) (added p')) as [k' Hk'].
    apply (uwrap_eq_cong 64 ltac:(lia) _ _ (k' - k)). lia.
  - intros t' n x [(<-&->&_)|(_&?)]%lookup_insert_cases; [done|eauto].
Qed.

(** Steps inside the critical section. *)
Lemma winv_cs c t p p' sh' :
  winv c → w_thr c !! t = Some p → in_cs p = true → in_cs p' = true →
  counter sh' = to_u64 (sumZ (added <$> w_thr c) - added p + added p') →
  (∀ n x, p' = WStore n x → x = counter sh') →
  winv (mkW (w_lock c) sh' (<[t := p']> (w_thr c))).
Proof.
  intros [Hwf Hok Hfr Hone Hheld Hcnt Hld] Hp Hc Hc' Ha Hx.
  split; simpl; try done.
  - intros t' q n [(<-&->&_)|(_&?)]%lookup_insert_cases; [done|eauto].
  - intros Hf. specialize (Hfr Hf _ _ Hp). congruence.
  - intros t1 t2 p1 p2 [(<-&<-&_)|(_&?)]%lookup_insert_cases
      [(<-&<-&_)|(_&?)]%lookup_insert_cases; eauto.
  - intros _. exists t, p'. split; [|done]. apply list_lookup_insert_eq. by eapply lookup_lt_Some.
  - by rewrite (added_insert _ _ _ _ Hp).
  - intros t' n x [(<-&->&_)|(Hne&Hs)]%lookup_insert_cases; [eauto|].
    exfalso. apply Hne. by eapply Hone.
Qed.

Lemma winv_lock c t q n l' x :
  winv c → w_thr c !! t = Some (WLock q n) → lk_step (w_lock c) q = Some (l', x) →
  winv (mkW l' (w_shared c) (<[t := match x with inl q' => WLock q' n | inr _ => WLoad n end]> (w_thr c))).
Proof.
  intros [Hwf Hok Hfr Hone Hheld Hcnt Hld] Hp Hs.
  assert (∀ t' q' n', w_thr c !! t' = Some (WLock q' n') → lk_ok l' q') as Hok'.
  { intros. eapply lk_step_ok; eauto. }
  destruct x as [q'|[]].
  - pose proof (lk_wait _ _ _ _ Hs) as Hf. split; simpl; try rewrite Hf; try done.
    + by eapply lk_step_wf.
    + intros t' q0 n' [(<-&[= <- <-]&_)|(_&?)]%lookup_insert_cases; [by eapply lk_wait_ok; eauto|eauto].
    + intros Hfree t' p' [(<-&<-&_)|(_&?)]%lookup_insert_cases; eauto.
    + intros t1 t2 p1 p2 [(<-&<-&_)|(_&?)]%lookup_insert_cases
        [(<-&<-&_)|(_&?)]%lookup_insert_cases; try done; eauto.
    + intros Hh. destruct (Hheld Hh) as (t' & p' & Hp' & Hcs). exists t', p'.
      rewrite list_lookup_insert_ne by (by intros ->; simplify_eq). done.
    + rewrite (added_insert _ _ _ _ Hp). simpl. by rewrite Hcnt, Z.sub_add.
    + intros t' n' y [(<-&?&_)|(_&?)]%lookup_insert_cases; [done|eauto].
  - destruct (lk_acquire _ _ _ Hs) as [Hf Hf']. specialize (Hfr Hf). split; simpl; try done.
    + by eapply lk_step_wf.
    + intros t' q0 n' [(<-&?&_)|(_&?)]%lookup_insert_cases; [done|eauto].
    + rewrite Hf'. done.
    + intros t1 t2 p1 p2 [(<-&<-&_)|(_&H1)]%lookup_insert_cases
        [(<-&<-&_)|(_&H2)]%lookup_insert_cases ? ?; [done|..].
      all: first [pose proof (Hfr _ _ H1) | pose proof (Hfr _ _ H2)]; congruence.
    + intros _. eexists t, _. split; [apply list_lookup_insert_eq; by eapply lookup_lt_Some|done].
    + rewrite (added_insert _ _ _ _ Hp). simpl. by rewrite Hcnt, Z.sub_add.
    + intros t' n' y [(<-&?&_)|(_&?)]%lookup_insert_cases; [done|eauto].
Qed.

Lemma winv_unlock c t n :
  winv c → w_thr c !! t = Some (WUnlock n) →
  winv (mkW (lk_unlock (w_lock c)) (w_shared c) (<[t := WCount n]> (w_thr c))).
Proof.
  intros [Hwf Hok Hfr Hone Hheld Hcnt Hld] Hp.
  split; simpl; try done.
  - by apply lk_unlock_wf.
  - intros t' q n' [(<-&?&_)|(_&?)]%lookup_insert_cases; [done|]. apply lk_unlock_ok. eauto.
  - intros _ t' p' [(<-&<-&_)|(Hne&Hp')]%lookup_insert_cases; [done|].
    destruct (in_cs p') eqn:E; [|done]. exfalso. apply Hne. by eapply Hone.
  - intros t1 t2 p1 p2 [(<-&<-&_)|(_&?)]%lookup_insert_cases
      [(<-&<-&_)|(_&?)]%lookup_insert_cases; try done; eauto.
  - rewrite lk_unlock_free. done.
  - rewrite (added_insert _ _ _ _ Hp). simpl. by rewrite Hcnt, Z.sub_add.
  - intros t' n' y [(<-&?&_)|(_&?)]%lookup_insert_cases; [done|eauto].
Qed.

Lemma winv_exec c a c' : winv c → worker_exec c a = Some c' → winv c'.
Proof.
  intros Hi He. destruct a as [t|t|t]; simpl in He; step_inv He.
  - eapply winv_local; eauto. intros q n' [= <- _]. apply lk_enter_ok, Hi.
  - by eapply winv_local; eauto.
  - pose proof (wi_count _ Hi) as Hc.
    destruct w as [n|q n|n|n x|n|n|n|n x|n i x|n|n|n i x|n]; simpl in E0; try done.
    + step_inv E0; by eapply (winv_lock c t q n _ (inl _)) || by eapply (winv_lock c t q n _ (inr _)).
    + simplify_eq/=. eapply winv_cs; eauto; [|by intros ? ? [= _ ->]]. simpl. by rewrite Hc, Z.sub_add.
    + simplify_eq/=. eapply winv_cs; eauto; [|done]. simpl.
      rewrite (wi_load _ Hi _ _ _ E), Hc, uwrap_add_l by lia. f_equal. lia.
    + simplify_eq/=. destruct c as [l sh ws]. simpl in *.
      eapply (winv_cs (mkW l sh ws)); eauto; simpl; try (by destruct (_ =? _)).
      rewrite Hc. by destruct (_ =? _); simpl; rewrite Z.sub_add.
    + simplify_eq/=. eapply winv_cs; eauto; [|done]. simpl. by rewrite Hc, Z.sub_add.
    + simplify_eq/=. eapply winv_cs; eauto; [|done]. simpl. by rewrite Hc, Z.sub_add.
    + simplify_eq/=. eapply winv_cs; eauto; [|done]. simpl. by rewrite Hc, Z.sub_add.
    + simplify_eq/=. destruct (work csIters i x) as [[i' x']|];
        (eapply winv_cs; eauto; [|done]; simpl; by rewrite Hc, Z.sub_add).
    + simplify_eq/=. by apply winv_unlock.
    + simplify_eq/=. eapply winv_local; eauto; [|done]. simpl. by rewrite uwrap_uwrap by lia.
    + simplify_eq/=. destruct (work 16 i x) as [[i' x']|]; eapply winv_local; eauto; done.
Qed.

Lemma winv_init l n c :
  lk_wf l → lk_free l = true → worker_init l n c → winv c.
Proof.
  intros Hwf Hf ->.
  assert (∀ t p, replicate n (WLoop 0) !! t = Some p → p = WLoop 0) as Hr
    by (by intros t p [-> _]%lookup_replicate).
  split; simpl; try done; try (by intros ? ? ? ?%Hr).
  - by intros _ t p ->%Hr.
  - intros t t' p p' ->%Hr. done.
  - congruence.
  - rewrite fmap_replicate. simpl. clear. induction n as [|n IH]; [done|].
    simpl. rewrite Z.add_0_l. done.
Qed.

Lemma winv_reachable l n c :
  lk_wf l → lk_free l = true → reachable (M := worker_machine) (worker_init l n) c → winv c.
Proof.
  intros Hwf Hf. apply (invariant (M := worker_machine)).
  - intros s Hs. by eapply winv_init.
  - intros s a s' _ Hi He. by eapply winv_exec.
Qed.

(** A thread inside [lock()] on a free lock gets it by running alone. *)
Lemma lock_solo k c t q n :
  winv c → w_thr c !! t = Some (WLock q n) → lk_free (w_lock c) = true →
  (lk_rank (w_lock c) q ≤ k)%nat →
  ∃ j c', (1 ≤ j ≤ S k)%nat ∧ run (M := worker_machine) c (replicate j (WRun t)) = Some c' ∧
          w_thr c' !! t = Some (WLoad n).
Proof.
  revert c q. induction k as [|k IH]; intros c q Hi Hp Hf Hk;
    pose proof (lookup_lt_Some _ _ _ Hp) as Hlt;
    pose proof (wi_ok _ Hi _ _ _ Hp) as Hok;
    destruct (lk_total (w_lock c) q (wi_wf _ Hi) Hok) as [[l' [q'|[]]] Hs].
  2, 4: (eexists 1%nat, _; split; [lia|]; simpl; rewrite Hp; simpl; rewrite Hs; simpl;
    split; [done|]; by apply list_lookup_insert_eq).
  all: destruct (lk_progress _ _ _ _ Hf Hok Hs) as [Hf' Hr]; try lia.
  destruct (IH (mkW l' (w_shared c) (<[t := WLock q' n]> (w_thr c))) q') as (j & c' & Hj & Hrun & Hc').
  - by eapply (winv_lock c t q n _ (inl _)).
  - by apply list_lookup_insert_eq.
  - done.
  - simpl. lia.
  - exists (S j), c'. split; [lia|]. split; [|done]. simpl. rewrite Hp. simpl. rewrite Hs. exact Hrun.
Qed.

(** ** The accounting of the benchmark *)

(** [uint64_t total = 0, lo = UINT64_MAX, hi = 0; for (auto& p : per) ...] over
    the counts the workers stored in [per[i].count]. *)
Fixpoint tally_from (acc : Z * Z * Z) (per : list Z) : Z * Z * Z :=
  match per with
  | [] => acc
  | n :: per' =>
      let '(total, lo, hi) := acc in
      tally_from (to_u64 (total + n), Z.min lo n, Z.max hi n) per'
  end.
Definition tally (per : list Z) : Z * Z * Z := tally_from (0, 2 ^ 64 - 1, 0) per.

(** [per], once every worker has left its loop. *)
Definition per_thread (ws : list wpc) : option (list Z) :=
  mapM (λ p, match p with WDone n => Some n | _ => None end) ws.

Lemma tally_total acc per :
  (tally_from (to_u64 acc.1.1, acc.1.2, acc.2) per).1.1 = to_u64 (acc.1.1 + sumZ per).
Proof.
  revert acc. induction per as [|n per IH]; intros [[total lo] hi]; simpl in *.
  - by rewrite Z.add_0_r.
  - rewrite uwrap_add_l by lia. etrans; [apply (IH (total + n, Z.min lo n, Z.max hi n))|].
    simpl. by rewrite Z.add_assoc.
Qed.

Lemma per_thread_added ws per : per_thread ws = Some per → added <$> ws = per.
Proof.
  intros H%mapM_Some. induction H as [|p n ws per Hp Hf IH]; [done|].
  rewrite fmap_cons, IH. by destruct p; simplify_eq/=.
Qed.

(** What the [BENCH_CHECK] of the benchmark verifies. *)
Lemma counter_total l n c per :
  lk_wf l → lk_free l = true → reachable (M := worker_machine) (worker_init l n) c →
  per_thread (w_thr c) = Some per → counter (w_shared c) = (tally per).1.1.
Proof.
  intros Hwf Hf Hr Hper. rewrite (wi_count _ (winv_reachable _ _ _ Hwf Hf Hr)).
  rewrite (per_thread_added _ _ Hper). symmetry. exact (tally_total (0, 2 ^ 64 - 1, 0) per).
Qed.

(** No two threads between [lock()] and [unlock()]. *)
Lemma lock_exclusive l n c t t' p p' :
  lk_wf l → lk_free l = true → reachable (M := worker_machine) (worker_init l n) c →
  w_thr c !! t = Some p → w_thr c !! t' = Some p' → in_cs p = true → in_cs p' = true → t = t'.
Proof. intros Hwf Hf Hr. exact (wi_one _ (winv_reachable _ _ _ Hwf Hf Hr) t t' p p'). Qed.

(** No worker is ever stuck. *)
Lemma worker_live l n c t p :
  lk_wf l → lk_free l = true → reachable (M := worker_machine) (worker_init l n) c →
  w_thr c !! t = Some p →
  (∃ k, p = WLoop k) ∨ (∃ k, p = WDone k) ∨ is_Some (worker_exec c (WRun t)).
Proof.
  intros Hwf Hf Hr Hp. pose proof (winv_reachable _ _ _ Hwf Hf Hr) as Hi.
  destruct p as [k|q k|k|k x|k|k|k|k x|k i x|k|k|k i x|k]; simpl; rewrite Hp; simpl; eauto.
  destruct (lk_total (w_lock c) q (wi_wf _ Hi) (wi_ok _ Hi _ _ _ Hp)) as [[l' [q'|[]]] Hs];
    rewrite Hs; eauto.
Qed.

(** ** The benchmark ends

    The workers look at the clock before every round, so that from some point on all
    of them leave at their next test.  Until then one after the other has to get
    through its round: first the one that holds the lock. *)

Definition w_rank (l : L) (p : wpc) : nat :=
  let gap i := Z.to_nat (16 - i) in
  let cs i := (22 + Z.to_nat (csIters - i))%nat in
  match p with
  | WDone _ => 0
  | WLoop _ => 1
  | WGap _ i _ => 2 + gap i
  | WCount _ => 20
  | WUnlock _ => 21
  | WWork _ i _ => cs i
  | WHandStore _ _ => 1 + cs 0
  | WHandLoad _ => 2 + cs 0
  | WSetOwner _ => 3 + cs 0
  | WOwner _ => 4 + cs 0
  | WStore _ _ => 5 + cs 0
  | WLoad _ => 6 + cs 0
  | WLock q _ => 7 + cs 0 + lk_rank l q
  end.

(** The counters of the delay loops. *)
Definition counting (p : wpc) : Prop := match p with WWork _ i _ | WGap _ i _ => 0 <= i | _ => True end.

Lemma work_counts iters i x i' x' :
  iters < 2 ^ 32 → 0 <= i → work iters i x = Some (i', x') → 0 <= i' ∧ (Z.to_nat (iters - i') < Z.to_nat (iters - i))%nat.
Proof.
  unfold work. intros Hit Hi H. destruct (Z.ltb_spec i iters); [|done]. simplify_eq. rewrite uwrap_small; lia.
Qed.

Lemma counting_step i l sh p l' sh' p' :
  worker_step i l sh p = Some (l', sh', p') → csIters < 2 ^ 32 → counting p → counting p'.
Proof.
  intros Hs Hcs Hp. destruct p; simpl in Hs; try done; step_inv Hs; try done; try (by destruct (_ =? _)).
  - destruct (work csIters _ _) as [[i' x']|] eqn:E; [|done]. by eapply work_counts in E as [? _].
  - destruct (work 16 _ _) as [[i' x']|] eqn:E; [|done]. eapply (work_counts 16) in E as [? _]; [done|lia|done].
Qed.

Lemma counting_exec c a c' :
  csIters < 2 ^ 32 → Forall counting (w_thr c) → worker_exec c a = Some c' → Forall counting (w_thr c').
Proof.
  intros Hcs Hf He. destruct a as [t|t|t]; simpl in He; step_inv He; simpl; apply Forall_insert; try done.
  destruct p as [[l' sh'] p']. eapply counting_step; eauto. by eapply Forall_lookup_1.
Qed.

(** A step of a worker that need not wait for the lock. *)
Lemma worker_advances c t p :
  csIters < 2 ^ 32 → winv c → w_thr c !! t = Some p → counting p → (lk_free (w_lock c) = true ∨ in_cs p = true) →
  (∃ n, p = WDone n) ∨
  ∃ a c' p', worker_exec c a = Some c' ∧ w_thr c' = <[t := p']> (w_thr c) ∧
    (w_rank (w_lock c') p' < w_rank (w_lock c) p)%nat ∧ (lk_free (w_lock c') = true ∨ in_cs p' = true).
Proof.
  intros Hcs Hi Hp Hk Hor.
  assert (∀ l' sh' p', worker_step t (w_lock c) (w_shared c) p = Some (l', sh', p') →
    (w_rank l' p' < w_rank (w_lock c) p)%nat → (lk_free l' = true ∨ in_cs p' = true) →
    ∃ a c' p', worker_exec c a = Some c' ∧ w_thr c' = <[t := p']> (w_thr c) ∧
      (w_rank (w_lock c') p' < w_rank (w_lock c) p)%nat ∧ (lk_free (w_lock c') = true ∨ in_cs p' = true)) as Hgo.
  { intros l' sh' p' Hs Hr Hx. exists (WRun t). simpl. rewrite Hp. simpl. rewrite Hs. simpl. eauto 10. }
  destruct p as [n|q n|n|n x|n|n|n|n x|n i x|n|n|n i x|n]; [right..|by left; eauto].
  - exists (WStop t). simpl. rewrite Hp. eexists _, _. split; [done|]. split; [done|]. simpl. split; [lia|done].
  - destruct Hor as [Hfr|]; [|done]. pose proof (wi_ok _ Hi _ _ _ Hp) as Hok.
    destruct (lk_total (w_lock c) q (wi_wf _ Hi) Hok) as [[l' [q'|[]]] Hs].
    + destruct (lk_progress _ _ _ _ Hfr Hok Hs) as [Hf' Hr]. eapply Hgo; [simpl; by rewrite Hs|simpl; lia|by left].
    + eapply Hgo; [simpl; by rewrite Hs|simpl; lia|by right].
  - eapply Hgo; [done|simpl; lia|by right].
  - eapply Hgo; [done|simpl; lia|by right].
  - eapply Hgo; [done|simpl; destruct (_ =? _); simpl; lia|destruct (_ =? _); by right].
  - eapply Hgo; [done|simpl; lia|by right].
  - eapply Hgo; [done|simpl; lia|by right].
  - eapply Hgo; [done|simpl; lia|by right].
  - destruct (work csIters i x) as [[i' x']|] eqn:E.
    + eapply work_counts in E as Hw; [|done|done]. eapply Hgo; [simpl; by rewrite E|simpl; lia|by right].
    + eapply Hgo; [simpl; by rewrite E|simpl; lia|by right].
  - eapply Hgo; [done|simpl; lia|left; apply lk_unlock_free].
  - destruct Hor as [Hfr|]; [|done]. eapply Hgo; [done|simpl; lia|by left].
  - destruct Hor as [Hfr|]; [|done]. destruct (work 16 i x) as [[i' x']|] eqn:E.
    + eapply (work_counts 16) in E as Hw; [|lia|done]. eapply Hgo; [simpl; by rewrite E|simpl; lia|by left].
    + eapply Hgo; [simpl; by rewrite E|simpl; lia|by left].
Qed.

Definition is_done (p : wpc) : bool := match p with WDone _ => true | _ => false end.

(** Running alone, such a worker gets to its end and leaves the lock free. *)
Lemma worker_finishes c t p :
  csIters < 2 ^ 32 → winv c → Forall counting (w_thr c) → w_thr c !! t = Some p →
  (lk_free (w_lock c) = true ∨ in_cs p = true) →
  ∃ σ c' n, run (M := worker_machine) c σ = Some c' ∧ winv c' ∧ Forall counting (w_thr c') ∧
    w_thr c' = <[t := WDone n]> (w_thr c) ∧ lk_free (w_lock c') = true.
Proof.
  intros Hcs. remember (w_rank (w_lock c) p) as k eqn:Ek. revert c p Ek.
  induction k as [k IH] using lt_wf_ind. intros c p Ek Hi Hf Hp Hor.
  pose proof (Forall_lookup_1 _ _ _ _ Hf Hp) as Hk.
  destruct (worker_advances c t p Hcs Hi Hp Hk Hor) as [[n ->]|(a & c1 & p1 & He & Ht & Hr & Hor')].
  - exists [], c, n. split_and!; [done|done|done|by rewrite list_insert_id|]. by destruct Hor.
  - assert (t < length (w_thr c))%nat as Hlt by (by eapply lookup_lt_Some).
    destruct (IH (w_rank (w_lock c1) p1)) with (c := c1) (p := p1) as (σ & c' & n & Hrun & Hi' & Hf' & Ht' & Hfr);
      [lia|done|by eapply winv_exec|by eapply counting_exec|by rewrite Ht, list_lookup_insert_eq|done|].
    exists (a :: σ), c', n. split_and!; try done; [simpl; by rewrite He|]. by rewrite Ht', Ht, list_insert_insert_eq.
Qed.

(** One after the other. *)
Lemma workers_finish c k :
  csIters < 2 ^ 32 → winv c → Forall counting (w_thr c) → lk_free (w_lock c) = true → (k <= length (w_thr c))%nat →
  ∃ σ c', run (M := worker_machine) c σ = Some c' ∧ winv c' ∧ Forall counting (w_thr c') ∧
    length (w_thr c') = length (w_thr c) ∧ lk_free (w_lock c') = true ∧
    ∀ t p, (t < k)%nat → w_thr c' !! t = Some p → is_done p = true.
Proof.
  intros Hcs Hi Hf Hfr. induction k as [|k IH]; intros Hk.
  { exists [], c. split_and!; try done. intros; lia. }
  destruct IH as (σ & c1 & Hr & Hi1 & Hf1 & Hl & Hfr1 & Hd); [lia|].
  destruct (lookup_lt_is_Some_2 (w_thr c1) k) as [p Hp]; [lia|].
  destruct (worker_finishes c1 k p Hcs Hi1 Hf1 Hp (or_introl Hfr1)) as (σ' & c' & n & Hr' & Hi' & Hf' & Ht & Hfr').
  exists (σ ++ σ'), c'. split_and!; try done; [by rewrite run_app, Hr|by rewrite Ht, length_insert|].
  intros t q Hlt. rewrite Ht. intros [(<-&<-&_)|(Hne&Hq)]%lookup_insert_cases; [done|]. apply (Hd t); [lia|done].
Qed.

(** [runLock] can always end: no worker is stuck behind another. *)
Lemma locks_complete l n c :
  csIters < 2 ^ 32 → lk_wf l → lk_free l = true → reachable (M := worker_machine) (worker_init l n) c →
  ∃ σ c' per, run (M := worker_machine) c σ = Some c' ∧ per_thread (w_thr c') = Some per.
Proof.
  intros Hcs Hwf Hf Hr. pose proof (winv_reachable _ _ _ Hwf Hf Hr) as Hi.
  assert (Forall counting (w_thr c)) as Hk.
  { clear Hi. revert c Hr. apply (invariant (M := worker_machine)).
    - intros c ->. by apply Forall_replicate.
    - intros c a c' _ IH He. by eapply counting_exec. }
  assert (∃ σ c1, run (M := worker_machine) c σ = Some c1 ∧ winv c1 ∧ Forall counting (w_thr c1) ∧ lk_free (w_lock c1) = true)
    as (σ & c1 & Hr1 & Hi1 & Hk1 & Hf1).
  { destruct (lk_free (w_lock c)) eqn:E; [by exists [], c|].
    destruct (wi_held _ Hi E) as (t & p & Hp & Hcs').
    destruct (worker_finishes c t p Hcs Hi Hk Hp (or_intror Hcs')) as (σ & c' & m & ? & ? & ? & _ & ?). eauto 10. }
  destruct (workers_finish c1 (length (w_thr c1)) Hcs Hi1 Hk1 Hf1 ltac:(done)) as (σ' & c' & Hr' & _ & _ & Hl & _ & Hd).
  assert (is_Some (per_thread (w_thr c'))) as [per Hper].
  { apply mapM_is_Some_2, Forall_forall. intros p (t & Ht)%list_elem_of_lookup_1.
    specialize (Hd t p ltac:(rewrite <- Hl; by eapply lookup_lt_Some) Ht). destruct p; try done. by eexists. }
  exists (σ ++ σ'), c', per. split; [by rewrite run_app, Hr1|done].
Qed.
End Client.
