(* ===== verification/Spinlock.v ===== *)
(** * Spinlock and SpinlockGuard

    Model of [src/include/AstraLib/Atomic/spinlock.hpp]. *)

From Stdlib Require Import ZArith Lia.
From S2P Require Import Prelude MachineInt Lts LockInterface.
Local Open Scope Z_scope.
Local Open Scope astra_scope.

Module Spinlock.

(** [PaddedAtomic<bool> atomic; int64_t waitTime = 1000;] *)
Record t := mk { atomic : bool; waitTime : Z }.

(** The two constructors. *)
Definition create : t := mk false 1000.
Definition create_wait (waitTime_ : Z) : t := mk false waitTime_.

(** Inside [lock()]: at the [exchange], or in the pause loop with its [int i]. *)
Inductive pc := Exchange | Pause (i : Z).

(** One step of [lock()].  [i < waitTime] compares [int] with [int64_t];
    [++i] is [int] arithmetic, undefined beyond [INT_MAX]. *)
Definition lock_step (s : t) (p : pc) : option (t * (pc + unit)) :=
  match p with
  | Exchange =>
      let old := atomic s in
      Some (mk true (waitTime s), if old then inl (Pause 0) else inr tt)
  | Pause i =>
      if i <? waitTime s
      then let? i' := int_op (i + 1) in Some (s, inl (Pause i'))
      else Some (s, inl Exchange)
  end.

Definition unlock (s : t) : t := mk false (waitTime s).

(** [lock()] run by a single thread, with fuel for its steps. *)
Fixpoint lock_from (fuel : nat) (s : t) (p : pc) : option t :=
  match fuel with
  | O => None
  | S f =>
      match lock_step s p with
      | Some (s', inr _) => Some s'
      | Some (s', inl p') => lock_from f s' p'
      | None => None
      end
  end.
Definition lock (fuel : nat) (s : t) : option t := lock_from fuel s Exchange.

(** [SpinlockGuard] holds a reference to a lock of the store; its constructor
    locks it and its destructor unlocks it. *)
Record SpinlockGuard := mkGuard { lock_ref : nat }.

Definition SpinlockGuard_ctor (fuel : nat) (m : list t) (l : nat) : option (list t * SpinlockGuard) :=
  let? s := m !! l in
  let? s' := lock fuel s in
  Some (<[l := s']> m, mkGuard l).

Definition SpinlockGuard_dtor (m : list t) (g : SpinlockGuard) : option (list t) :=
  let? s := m !! lock_ref g in Some (<[lock_ref g := unlock s]> m).

(** A block that declares a guard on lock [l] and then runs [body]. *)
Definition guarded {A} (fuel : nat) (m : list t) (l : nat)
    (body : list t → option (list t * A)) : option (list t * A) :=
  let? r := SpinlockGuard_ctor fuel m l in
  let? b := body r.1 in
  let? m' := SpinlockGuard_dtor b.1 r.2 in
  Some (m', b.2).

(** The backoff loop counts up to [waitTime] and stays within [int]. *)
Definition pc_ok (s : t) (p : pc) : Prop :=
  match p with Exchange => True | Pause i => 0 <= i <= Z.max 0 (waitTime s) end.

Definition rank (s : t) (p : pc) : nat :=
  match p with Exchange => 0 | Pause i => S (Z.to_nat (waitTime s - i)) end.

Lemma pause_in_range s i :
  waitTime s <= INT_MAX → 0 <= i < waitTime s → int_op (i + 1) = Some (i + 1).
Proof.
  intros Hw Hi. unfold int_op. unfold INT_MIN, INT_MAX in *.
  by rewrite (proj2 (Z.leb_le _ _)), (proj2 (Z.leb_le _ _)) by lia.
Qed.

(** [Spinlock] is a lock, for a [waitTime] that fits in an [int]. *)
#[export, refine] Instance spinlock_lock : Lock t := {|
  lk_pc := pc;
  lk_enter := Exchange;
  lk_step := lock_step;
  lk_unlock := unlock;
  lk_free s := negb (atomic s);
  lk_wf s := waitTime s <= INT_MAX;
  lk_ok := pc_ok;
  lk_rank := rank;
|}.
Proof.
  - done.
  - intros s [|i] Hw Hok; simpl in *; [by eexists|].
    destruct (Z.ltb_spec i (waitTime s)); [|by eexists]. rewrite (pause_in_range s) by lia. by eexists.
  - intros s [|i] s' Hs; simpl in Hs; [|by step_inv Hs]. by destruct (atomic s) eqn:Ha; simplify_eq/=.
  - intros s [|i] s' p' Hs; simpl in Hs; [|by step_inv Hs]. by destruct (atomic s) eqn:Ha; simplify_eq/=.
  - intros s [|i] s' p' Hok Hs; simpl in *.
    + destruct (atomic s); simplify_eq/=. lia.
    + unfold int_op in Hs. step_inv Hs; [|done]. lia.
  - intros s [|i] s' x Hw Hs; simpl in *; step_inv Hs; done.
  - intros s [|i] s' x [|j] Hok Hs; simpl in *; step_inv Hs; done.
  - done.
  - done.
  - by intros s [|j].
  - intros s [|i] s' p' Hf Hok Hs; simpl in *.
    + by destruct (atomic s); simplify_eq/=.
    + unfold int_op in Hs. step_inv Hs; (split; [done|]); simpl; lia.
Defined.

(** The backoff loop of [lock()] terminates: while another thread holds the
    lock, a thread in [lock()] is back at its next [exchange] after exactly
    [waitTime + 2] steps ([2] for a negative [waitTime]), and the pause counter
    does not overflow as long as [waitTime] fits in an [int]. *)
Theorem backoff_returns_to_exchange (s : t) :
  atomic s = true → waitTime s <= INT_MAX →
  Nat.iter (Z.to_nat (waitTime s) + 2)
    (λ o, match o with Some (s', inl p) => lock_step s' p | _ => None end)
    (Some (s, inl Exchange)) = Some (s, inl Exchange).
Proof.
  intros Ha Hw.
  assert (∀ k, (k ≤ Z.to_nat (waitTime s))%nat → Nat.iter (S k)
    (λ o, match o with Some (s', inl p) => lock_step s' p | _ => None end)
    (Some (s, inl Exchange)) = Some (s, inl (Pause (Z.of_nat k)))) as Hk.
  { intros k Hle. induction k as [|k IH].
    - simpl. rewrite Ha. by destruct s; simplify_eq/=.
    - change (Nat.iter (S (S k)) ?f ?x) with (f (Nat.iter (S k) f x)). rewrite IH by lia. simpl.
      rewrite (proj2 (Z.ltb_lt _ _)), (pause_in_range s) by lia.
      by rewrite Nat2Z.inj_succ, <- Z.add_1_r. }
  rewrite Nat.add_comm. change (2 + ?n)%nat with (S (S n)).
  change (Nat.iter (S (S ?n)) ?f ?x) with (f (Nat.iter (S n) f x)). rewrite Hk by done. simpl.
  by rewrite (proj2 (Z.ltb_ge _ _)) by lia.
Qed.

Lemma backoff_returns_to_exchange_witness :
  Nat.iter 5 (λ o, match o with Some (s', inl p) => lock_step s' p | _ => None end)
    (Some (mk true 3, inl Exchange)) = Some (mk true 3, inl Exchange).
Proof. apply (backoff_returns_to_exchange (mk true 3)); [done|unfold INT_MAX; simpl; lia]. Defined.

(** [waitTime] never changes after construction. *)
Lemma wait_fixed cs w n c :
  reachable (M := worker_machine cs) (worker_init (create_wait w) n) c → waitTime (w_lock c) = w.
Proof.
  revert c. apply (invariant (M := worker_machine cs)); [by intros c ->|].
  intros c a c' _ <- He. destruct a as [t|t|t]; simpl in He; step_inv He; [done..|].
  destruct w; simpl in E0; step_inv E0; try done.
  all: destruct p0; simpl in *; unfold lock_step in *; by step_inv E1.
Qed.

(** C19. Mutual exclusion: in every interleaving of any number of workers that
    lock, touch plain shared data and unlock, at most one worker is between
    [lock()] and [unlock()], for any [waitTime] that fits in an [int]. *)
Theorem mutual_exclusion (cs w : Z) (n : nat) (c : wcfg) (t1 t2 : nat) (p1 p2 : wpc) :
  w <= INT_MAX → reachable (M := worker_machine cs) (worker_init (create_wait w) n) c →
  w_thr c !! t1 = Some p1 → w_thr c !! t2 = Some p2 → in_cs p1 = true → in_cs p2 = true →
  t1 = t2.
Proof. intros Hw. by apply lock_exclusive. Qed.

(** Two workers, the second spinning while the first is inside. *)
Definition ex_sched : list wact := [WGo 0; WGo 1; WRun 0; WRun 1; WRun 0; WRun 1].
Definition ex_cfg : wcfg :=
  mkW (mk true 3) (mkShared 0 0 (2 ^ 32 - 1)) [WStore 0 0; WLock (Pause 1) 0].

Lemma ex_reachable : reachable (M := worker_machine 0) (worker_init (create_wait 3) 2) ex_cfg.
Proof.
  apply (run_reachable (worker_machine 0) _ (mkW (create_wait 3) shared_init [WLoop 0; WLoop 0]) ex_sched);
    [by apply reach_init|done].
Qed.

Lemma mutual_exclusion_witness :
  w_thr ex_cfg !! 0%nat = Some (WStore 0 0) ∧ w_thr ex_cfg !! 1%nat = Some (WLock (Pause 1) 0) ∧ (0 = 0)%nat.
Proof.
  split; [done|]. split; [done|].
  apply (mutual_exclusion 0 3 2 ex_cfg 0 0 (WStore 0 0) (WStore 0 0)); try done. exact ex_reachable.
Defined.

(** The plain counter that the workers increment under the lock loses no
    update: when every worker has left its loop, it equals the (64-bit) sum of
    the acquisitions they counted, so the benchmark's check passes. *)
Theorem counter_exact (cs w : Z) (n : nat) (c : wcfg) (per : list Z) :
  w <= INT_MAX → reachable (M := worker_machine cs) (worker_init (create_wait w) n) c →
  per_thread (w_thr c) = Some per → counter (w_shared c) = (tally per).1.1.
Proof. intros Hw. by apply counter_total. Qed.

Definition ex_done : wcfg := mkW (mk false 0) (mkShared 2 2 1) [WDone 1; WDone 1].

(** The two workers in turn; the second finds the lock taken first. *)
Definition ex_done_sched : list wact :=
  [WGo 0; WGo 1; WRun 0; WRun 1] ++ replicate 8 (WRun 0) ++ replicate 28 (WRun 1) ++
  replicate 18 (WRun 0) ++ [WStop 0; WStop 1].

Lemma counter_exact_witness :
  reachable (M := worker_machine 0) (worker_init (create_wait 0) 2) ex_done ∧
  counter (w_shared ex_done) = (tally [1; 1]).1.1.
Proof.
  assert (reachable (M := worker_machine 0) (worker_init (create_wait 0) 2) ex_done) as Hr.
  { apply (run_reachable (worker_machine 0) _ (mkW (create_wait 0) shared_init [WLoop 0; WLoop 0])
      ex_done_sched); [by apply reach_init|reflexivity]. }
  split; [done|]. apply (counter_exact 0 0 2); [unfold INT_MAX; lia|done|done].
Defined.

(** A worker inside [lock()] is never stuck, and if the lock is free it
    acquires it within [waitTime + 2] of its own steps when it runs alone. *)
Theorem lock_acquires (cs w : Z) (n : nat) (c : wcfg) (t : nat) (p : pc) (k : Z) :
  w <= INT_MAX → reachable (M := worker_machine cs) (worker_init (create_wait w) n) c →
  w_thr c !! t = Some (WLock p k) → atomic (w_lock c) = false →
  ∃ j c', (1 ≤ j ≤ Z.to_nat w + 2)%nat ∧
    run (M := worker_machine cs) c (replicate j (WRun t)) = Some c' ∧ w_thr c' !! t = Some (WLoad k).
Proof.
  intros Hw Hr Hp Hf. pose proof (winv_reachable cs (create_wait w) _ _ Hw eq_refl Hr) as Hi.
  destruct (lock_solo cs (Z.to_nat w + 1) c t p k Hi Hp) as (j & c' & Hj & Hx).
  - simpl. by rewrite Hf.
  - pose proof (wi_ok _ Hi _ _ _ Hp) as Hok. pose proof (wait_fixed _ _ _ _ Hr) as Hwt.
    destruct p as [|i]; simpl in *; lia.
  - exists j, c'. split; [lia|done].
Qed.

Lemma lock_acquires_witness :
  ∃ j c', (1 ≤ j ≤ 3)%nat ∧
    run (M := worker_machine 0) (mkW (mk false 1) (mkShared 1 1 0) [WCount 0; WLock (Pause 0) 0])
      (replicate j (WRun 1)) = Some c' ∧ w_thr c' !! 1%nat = Some (WLoad 0).
Proof.
  apply (lock_acquires 0 1 2 _ _ (Pause 0)); [unfold INT_MAX; lia| |done|done].
  apply (run_reachable (worker_machine 0) _ (mkW (create_wait 1) shared_init [WLoop 0; WLoop 0])
    ([WGo 0; WGo 1; WRun 0; WRun 1] ++ replicate 8 (WRun 0))); [by apply reach_init|reflexivity].
Defined.

(** A [SpinlockGuard] on a free lock acquires it in one step, the body runs
    with the lock held, and leaving the block releases it: the locks are as the
    body left them except that this one is free.  On a lock that stays held,
    the constructor does not return, however long it runs. *)
Theorem guard_scope {A} (fuel : nat) (m : list t) (l : nat) (s : t)
    (body : list t → option (list t * A)) :
  m !! l = Some s → waitTime s <= INT_MAX →
  (atomic s = false → ∀ m' s' a, body (<[l := mk true (waitTime s)]> m) = Some (m', a) →
     m' !! l = Some s' →
     guarded (S fuel) m l body = Some (<[l := mk false (waitTime s')]> m', a)) ∧
  (atomic s = true → guarded fuel m l body = None).
Proof.
  intros Hl Hw. split.
  - intros Ha m' s' a Hb Hl'. unfold guarded, SpinlockGuard_ctor, SpinlockGuard_dtor.
    rewrite Hl. simpl. unfold lock. simpl. rewrite Ha. simpl. rewrite Hb. simpl. by rewrite Hl'.
  - intros Ha. unfold guarded, SpinlockGuard_ctor. rewrite Hl.
    assert (∀ f p, lock_from f s p = None) as Hn.
    { induction f as [|f IH]; intros [|i]; simpl; try done.
      - rewrite Ha. replace (mk true (waitTime s)) with s by (destruct s; simplify_eq/=; done). apply IH.
      - destruct (_ <? _); [|apply IH]. by destruct (int_op _). }
    unfold lock. by rewrite Hn.
Qed.

Lemma guard_scope_witness :
  guarded 1 [mk false 16; mk true 16] 0 (λ m, Some (m, 7)) = Some ([mk false 16; mk true 16], 7) ∧
  guarded 50 [mk false 16; mk true 16] 1 (λ m, Some (m, 7)) = None.
Proof.
  split.
  - by apply (proj1 (guard_scope 0 [mk false 16; mk true 16] 0 (mk false 16)
      (λ m, Some (m, 7)) eq_refl ltac:(done)) eq_refl [mk true 16; mk true 16] (mk true 16) 7).
  - by apply (proj2 (guard_scope 50 [mk false 16; mk true 16] 1 (mk true 16)
      (λ m, Some (m, 7)) eq_refl ltac:(done))).
Defined.

End Spinlock.
