(* ===== verification/SpinlockBench.v ===== *)
(** * The locks of the spinlock benchmark

    The adapters of [src/bench/SpinlockComparisonBench.cpp]: the two configurations
    of [Spinlock], the benchmark's own test-and-test-and-set lock, [PthreadSpin] over
    the spin lock of the C library, which is any instance of [Lock], and [StdMutex]
    over [std::mutex]. *)

From Stdlib Require Import ZArith Lia.
From S2P Require Import Prelude MachineInt Lts LockInterface Spinlock.
Local Open Scope Z_scope.

(** [Spinlock l;] and [Spinlock l{16};] *)
Definition AstraDefault : Spinlock.t := Spinlock.create.
Definition AstraShortWait : Spinlock.t := Spinlock.create_wait 16.

Module TTAS.

(** [std::atomic<bool> f{false};] *)
Record t := mk { f : bool }.
Definition create : t := mk false.

(** At the [exchange], or in the read-only spin. *)
Inductive pc := Exchange | Spin.

Definition lock_step (s : t) (p : pc) : option (t * (pc + unit)) :=
  match p with
  | Exchange => Some (mk true, if f s then inl Spin else inr tt)
  | Spin => Some (s, inl (if f s then Spin else Exchange))
  end.

Definition unlock (s : t) : t := mk false.

#[export, refine] Instance ttas_lock : Lock t := {|
  lk_pc := pc;
  lk_enter := Exchange;
  lk_step := lock_step;
  lk_unlock := unlock;
  lk_free s := negb (f s);
  lk_wf s := True;
  lk_ok s p := True;
  lk_rank s p := match p with Exchange => 0%nat | Spin => 1%nat end;
|}.
Proof.
  all: try done.
  - intros s [|] _ _; by eexists.
  - intros s [|] s' H; simpl in H; by destruct (f s) eqn:E; simplify_eq/=.
  - intros s [|] s' p' H; simpl in H; by destruct (f s) eqn:E; simplify_eq/=; rewrite ?E.
  - intros s [|] s' p' Hf _ H; simpl in *; destruct (f s) eqn:E; simplify_eq/=.
    split; [by rewrite E|lia].
Defined.

End TTAS.

(** [PthreadSpin]: every member is a call of the C library, whose lock [S] is only
    known to be one; [init] is its state after [pthread_spin_init]. *)
Module PthreadSpin.

Record t (S : Type) := mk { s : S }.
Arguments mk {_} _.
Arguments s {_} _.

Section Adapter.
Context {S : Type} `{!Lock S}.

Definition create (init : S) : t S := mk init.
Definition lock_step (c : t S) (p : lk_pc (L := S)) : option (t S * (lk_pc (L := S) + unit)) :=
  match lk_step (s c) p with Some (s', x) => Some (mk s', x) | None => None end.
Definition unlock (c : t S) : t S := mk (lk_unlock (s c)).

#[export, refine] Instance pthread_lock : Lock (t S) := {|
  lk_pc := lk_pc (L := S);
  lk_enter := lk_enter;
  lk_step := lock_step;
  lk_unlock := unlock;
  lk_free c := lk_free (s c);
  lk_wf c := lk_wf (s c);
  lk_ok c := lk_ok (s c);
  lk_rank c := lk_rank (s c);
|}.
Proof.
  all: unfold lock_step, unlock; simpl.
  - intros c. apply lk_enter_ok.
  - intros c p Hwf Hok. destruct (lk_total (s c) p Hwf Hok) as [[s' x] ->]. by eexists.
  - intros c p c' H. step_inv H. by eapply lk_acquire.
  - intros c p c' p' H. step_inv H. by eapply lk_wait.
  - intros c p c' p' Hok H. step_inv H. by eapply lk_wait_ok.
  - intros c p c' x Hwf H. step_inv H. by eapply lk_step_wf.
  - intros c p c' x q Hok H. step_inv H. by eapply lk_step_ok.
  - intros c. apply lk_unlock_free.
  - intros c. apply lk_unlock_wf.
  - intros c q. apply lk_unlock_ok.
  - intros c p c' p' Hf Hok H. step_inv H. by eapply lk_progress.
Defined.
End Adapter.
End PthreadSpin.

(** [StdMutex]: [m.lock()] blocks until the mutex is not owned and then owns it. *)
Module StdMutex.

Record t := mk { owned : bool }.
Definition create : t := mk false.
Definition lock_step (c : t) (p : unit) : option (t * (unit + unit)) :=
  Some (if owned c then (c, inl tt) else (mk true, inr tt)).
Definition unlock (c : t) : t := mk false.

#[export, refine] Instance mutex_lock : Lock t := {|
  lk_pc := unit;
  lk_enter := tt;
  lk_step := lock_step;
  lk_unlock := unlock;
  lk_free c := negb (owned c);
  lk_wf c := True;
  lk_ok c p := True;
  lk_rank c p := 0%nat;
|}.
Proof.
  all: try done; unfold lock_step; intros [[|]]; simpl; intros; simplify_eq; try done; by eexists.
Defined.
End StdMutex.

#[local] Existing Instances Spinlock.spinlock_lock TTAS.ttas_lock PthreadSpin.pthread_lock StdMutex.mutex_lock.

(** A template argument of [runLock]: the type [L] and [std::make_unique<L>()]. *)
Record lock_impl := mkLockImpl { li_type : Type; li_lock : Lock li_type; li_new : li_type }.
#[global] Existing Instance li_lock.
Arguments mkLockImpl _ {_} _.

(** Those of the competitors; [init] is the lock of the C library. *)
Definition locks {S} `{!Lock S} (init : S) : list lock_impl :=
  [mkLockImpl Spinlock.t AstraDefault; mkLockImpl Spinlock.t AstraShortWait; mkLockImpl TTAS.t TTAS.create;
   mkLockImpl (PthreadSpin.t S) (PthreadSpin.create init); mkLockImpl StdMutex.t StdMutex.create].

Definition lock_sound (I : lock_impl) : Prop := lk_wf (li_new I) ∧ lk_free (li_new I) = true.

Lemma locks_sound {S} `{!Lock S} (init : S) : lk_wf init → lk_free init = true → Forall lock_sound (locks init).
Proof. intros Hwf Hf. by repeat constructor. Qed.

(** Every lock of the benchmark satisfies its accounting: the plain counter equals
    the summed acquisition counts when all workers are done; and they can always get
    there. *)
Theorem bench_locks_exact {S} `{!Lock S} (init : S) (cs : Z) (n : nat) I :
  lk_wf init → lk_free init = true → cs < 2 ^ 32 → I ∈ locks init →
  ∀ c, reachable (M := worker_machine cs) (worker_init (li_new I) n) c →
    (∀ per, per_thread (w_thr c) = Some per → counter (w_shared c) = (tally per).1.1) ∧
    ∃ σ c' per, run (M := worker_machine cs) c σ = Some c' ∧ per_thread (w_thr c') = Some per.
Proof.
  intros Hwf Hf Hcs HI c Hr. pose proof (locks_sound init Hwf Hf) as Hs. rewrite Forall_forall in Hs.
  destruct (Hs I HI) as [Hwf' Hf']. split; [|by eapply locks_complete].
  intros per. by apply (counter_total cs (li_new I) n).
Qed.

Lemma bench_locks_exact_witness :
  let c := mkW (TTAS.mk false) (mkShared 1 1 1) [WDone 0; WDone 1] in
  reachable (M := worker_machine 0) (worker_init TTAS.create 2) c ∧
  counter (w_shared c) = (tally [0; 1]).1.1.
Proof.
  intros c. assert (reachable (M := worker_machine 0) (worker_init TTAS.create 2) c) as Hr.
  { apply (run_reachable (worker_machine 0) _ (mkW TTAS.create shared_init [WLoop 0; WLoop 0])
      ([WGo 1] ++ replicate 27 (WRun 1) ++ [WStop 1; WStop 0])); [by apply reach_init|reflexivity]. }
  split; [done|].
  apply (bench_locks_exact TTAS.create 0 2 (mkLockImpl TTAS.t TTAS.create)) with (c := c) (per := [0; 1]); try done.
  by apply (list_elem_of_lookup_2 _ 2).
Defined.
