(* ===== verification/Monitor.v ===== *)
(** * Data behind a lock

    Code of the form "take the lock, work on the data, release the lock", for any
    implementation of the interface [Lock]: [std::lock_guard<std::mutex> g(m);]
    and what follows it up to the end of its block.  A client gives the state of the
    data, the local state of a thread, its steps inside and outside the block, and
    a lock invariant: what holds of the data whenever the lock is free, and what a
    thread inside knows.  [guarded_inv] is the rule for lock invariants: the client
    shows that its own steps keep it, and the laws of [Lock] do the rest. *)

From Stdlib Require Import Lia.
From S2P Require Import Prelude Lts LockInterface.
Local Open Scope astra_scope.

Section Monitor.
Context {L : Type} `{!Lock L}.

(** The data [D], the local states [K], the actions [E] outside the block. *)
Context {D K E : Type}.

(** Outside: the new local state, and whether the thread now goes for the lock. *)
Context (out_step : E → K → option (K * bool)).
(** Inside: the new data and local state, and whether the block ends. *)
Context (cs_step : D → K → option (D * K * bool)).

Inductive mpc :=
| MOut (k : K)
| MLock (p : lk_pc) (k : K)
| MIn (k : K)
| MRelease (k : K).

Record mcfg := mkM { m_lock : L; m_data : D; m_thr : list mpc }.

Inductive mact := MAct (t : nat) (e : E) | MRun (t : nat).

Definition monitor_step (l : L) (d : D) (p : mpc) : option (L * D * mpc) :=
  match p with
  | MLock q k =>
      match lk_step l q with
      | Some (l', inl q') => Some (l', d, MLock q' k)
      | Some (l', inr _) => Some (l', d, MIn k)
      | None => None
      end
  | MIn k => let? r := cs_step d k in Some (l, r.1.1, if r.2 then MRelease r.1.2 else MIn r.1.2)
  | MRelease k => Some (lk_unlock l, d, MOut k)
  | MOut _ => None
  end.

Definition monitor_exec (c : mcfg) (a : mact) : option mcfg :=
  match a with
  | MAct t e =>
      match m_thr c !! t with
      | Some (MOut k) =>
          let? r := out_step e k in
          Some (mkM (m_lock c) (m_data c) (<[t := if r.2 then MLock lk_enter r.1 else MOut r.1]> (m_thr c)))
      | _ => None
      end
  | MRun t =>
      let? p := m_thr c !! t in
      let? r := monitor_step (m_lock c) (m_data c) p in
      Some (mkM r.1.1 r.1.2 (<[t := r.2]> (m_thr c)))
  end.

Definition monitor_machine : machine := Machine mcfg mact monitor_exec.

Definition holds_lock (p : mpc) : bool := match p with MIn _ | MRelease _ => true | _ => false end.

(** ** The lock invariant *)

(** [J]: of the data while nobody is inside; [Jin]: of the data and the thread
    inside. *)
Context (J : D → Prop) (Jin : D → K → Prop).

Definition inside_ok (d : D) (p : mpc) : Prop :=
  match p with MIn k => Jin d k | MRelease _ => J d | _ => True end.

Record guarded (c : mcfg) : Prop := {
  gu_wf : lk_wf (m_lock c);
  gu_ok : ∀ t q k, m_thr c !! t = Some (MLock q k) → lk_ok (m_lock c) q ∧ ∀ d, J d → Jin d k;
  gu_free : lk_free (m_lock c) = true → J (m_data c) ∧ ∀ t p, m_thr c !! t = Some p → holds_lock p = false;
  gu_one : ∀ t t' p p', m_thr c !! t = Some p → m_thr c !! t' = Some p' →
    holds_lock p = true → holds_lock p' = true → t = t';
  gu_held : lk_free (m_lock c) = false → ∃ t p, m_thr c !! t = Some p ∧ holds_lock p = true;
  gu_in : ∀ t p, m_thr c !! t = Some p → inside_ok (m_data c) p;
}.

(** The client's obligations. *)
Context (J_enter : ∀ e k0 k d, out_step e k0 = Some (k, true) → J d → Jin d k).
Context (J_step : ∀ d k d' k' (last : bool), Jin d k → cs_step d k = Some (d', k', last) → if last then J d' else Jin d' k').

(** A thread that does not hold the lock changes its place. *)
Lemma guarded_local c t p p' :
  guarded c → m_thr c !! t = Some p → holds_lock p = false → holds_lock p' = false →
  (∀ q k, p' = MLock q k → lk_ok (m_lock c) q ∧ ∀ d, J d → Jin d k) →
  guarded (mkM (m_lock c) (m_data c) (<[t := p']> (m_thr c))).
Proof.
  intros [Hwf Hok Hfr Hone Hheld Hin] Hp Hh Hh' Hq. split; simpl; try done.
  - intros t' q k [(<-&->&_)|(_&?)]%lookup_insert_cases; eauto.
  - intros Hf. destruct (Hfr Hf) as [HJ Hno]. split; [done|].
    intros t' q [(<-&<-&_)|(_&?)]%lookup_insert_cases; eauto.
  - intros t1 t2 p1 p2 [(<-&<-&_)|(_&?)]%lookup_insert_cases [(<-&<-&_)|(_&?)]%lookup_insert_cases;
      try congruence; eauto.
  - intros Hf. destruct (Hheld Hf) as (t' & q & Hq' & Hh''). exists t', q.
    rewrite list_lookup_insert_ne by congruence. done.
  - intros t' q [(<-&<-&_)|(_&?)]%lookup_insert_cases; [by destruct p'|eauto].
Qed.

(** A thread takes a step of [lock()]. *)
Lemma guarded_lock c t q k l' x :
  guarded c → m_thr c !! t = Some (MLock q k) → lk_step (m_lock c) q = Some (l', x) →
  guarded (mkM l' (m_data c) (<[t := match x with inl q' => MLock q' k | inr _ => MIn k end]> (m_thr c))).
Proof.
  intros [Hwf Hok Hfr Hone Hheld Hin] Hp Hs. destruct (Hok _ _ _ Hp) as [Hlk HJin].
  assert (∀ t' q' k', m_thr c !! t' = Some (MLock q' k') → lk_ok l' q' ∧ ∀ d, J d → Jin d k') as Hok'.
  { intros t' q' k' Hq'. destruct (Hok _ _ _ Hq'). split; [by eapply lk_step_ok|done]. }
  destruct x as [q'|[]].
  - pose proof (lk_wait _ _ _ _ Hs) as Hf. split; simpl; try rewrite Hf.
    + by eapply lk_step_wf.
    + intros t' q0 k' [(<-&[= <- <-]&_)|(_&?)]%lookup_insert_cases; [split; [by eapply lk_wait_ok|done]|eauto].
    + intros Hfree. destruct (Hfr Hfree) as [HJ Hno]. split; [done|].
      intros t' p' [(<-&<-&_)|(_&?)]%lookup_insert_cases; eauto.
    + intros t1 t2 p1 p2 [(<-&<-&_)|(_&?)]%lookup_insert_cases [(<-&<-&_)|(_&?)]%lookup_insert_cases; try done; eauto.
    + intros Hh. destruct (Hheld Hh) as (t' & p' & Hp' & Hh'). exists t', p'.
      rewrite list_lookup_insert_ne by (by intros ->; simplify_eq). done.
    + intros t' p' [(<-&<-&_)|(_&?)]%lookup_insert_cases; [done|eauto].
  - destruct (lk_acquire _ _ _ Hs) as [Hf Hf']. destruct (Hfr Hf) as [HJ Hno]. split; simpl.
    + by eapply lk_step_wf.
    + intros t' q0 k' [(<-&?&_)|(_&?)]%lookup_insert_cases; [done|eauto].
    + by rewrite Hf'.
    + intros t1 t2 p1 p2 [(<-&<-&_)|(_&H1)]%lookup_insert_cases [(<-&<-&_)|(_&H2)]%lookup_insert_cases ? ?; [done|..].
      all: first [pose proof (Hno _ _ H1) | pose proof (Hno _ _ H2)]; congruence.
    + intros _. eexists t, _. split; [apply list_lookup_insert_eq; by eapply lookup_lt_Some|done].
    + intros t' p' [(<-&<-&_)|(_&?)]%lookup_insert_cases; [by apply HJin|eauto].
Qed.

(** The thread inside moves. *)
Lemma guarded_inside c t p p' d' :
  guarded c → m_thr c !! t = Some p → holds_lock p = true → holds_lock p' = true → inside_ok d' p' →
  guarded (mkM (m_lock c) d' (<[t := p']> (m_thr c))).
Proof.
  intros [Hwf Hok Hfr Hone Hheld Hin] Hp Hh Hh' Hd. split; simpl; try done.
  - intros t' q k [(<-&->&_)|(_&?)]%lookup_insert_cases; [done|eauto].
  - intros Hf. destruct (Hfr Hf) as [_ Hno]. specialize (Hno _ _ Hp). congruence.
  - intros t1 t2 p1 p2 [(<-&<-&_)|(_&?)]%lookup_insert_cases [(<-&<-&_)|(_&?)]%lookup_insert_cases; eauto.
  - intros _. exists t, p'. split; [|done]. apply list_lookup_insert_eq. by eapply lookup_lt_Some.
  - intros t' q [(<-&<-&_)|(Hne&Hq)]%lookup_insert_cases; [done|].
    destruct (holds_lock q) eqn:Eh; [|by destruct q]. destruct Hne. by eapply Hone.
Qed.

Lemma guarded_release c t k :
  guarded c → m_thr c !! t = Some (MRelease k) →
  guarded (mkM (lk_unlock (m_lock c)) (m_data c) (<[t := MOut k]> (m_thr c))).
Proof.
  intros [Hwf Hok Hfr Hone Hheld Hin] Hp. pose proof (Hin _ _ Hp) as HJ. simpl in HJ.
  assert (∀ t' p', t' ≠ t → m_thr c !! t' = Some p' → holds_lock p' = false) as Hno.
  { intros t' p' Hne Hp'. destruct (holds_lock p') eqn:Eh; [|done]. destruct Hne. by eapply Hone. }
  split; simpl.
  - by apply lk_unlock_wf.
  - intros t' q k' [(<-&?&_)|(_&Hq)]%lookup_insert_cases; [done|]. destruct (Hok _ _ _ Hq). split; [by apply lk_unlock_ok|done].
  - intros _. split; [done|]. intros t' p' [(<-&<-&_)|(?&?)]%lookup_insert_cases; eauto.
  - intros t1 t2 p1 p2 [(<-&<-&_)|(_&?)]%lookup_insert_cases [(<-&<-&_)|(_&?)]%lookup_insert_cases; try done; eauto.
  - by rewrite lk_unlock_free.
  - intros t' p' [(<-&<-&_)|(_&?)]%lookup_insert_cases; [done|eauto].
Qed.

Lemma guarded_exec c a c' : guarded c → monitor_exec c a = Some c' → guarded c'.
Proof using J_enter J_step.
  intros Hg He. destruct a as [t e|t]; simpl in He; step_inv He.
  - destruct p as [k' []]; simpl; eapply guarded_local; eauto; try done.
    intros q k0 [= <- <-]. split; [apply lk_enter_ok, Hg|eauto].
  - destruct m as [k|q k|k|k]; simpl in E1; try done.
    + step_inv E1; by eapply (guarded_lock c t q k _ (inl _)) || by eapply (guarded_lock c t q k _ (inr _)).
    + destruct (cs_step (m_data c) k) as [[[d' k'] last]|] eqn:Es; [|done]. simplify_eq/=.
      pose proof (J_step _ _ _ _ _ (gu_in _ Hg _ _ E0) Es) as Hd.
      eapply guarded_inside; [done|exact E0|done|by destruct last|by destruct last].
    + simplify_eq/=. by apply guarded_release.
Qed.

(** The rule for lock invariants. *)
Lemma guarded_inv l d ks c :
  lk_wf l → lk_free l = true → J d →
  reachable (M := monitor_machine) (λ c, c = mkM l d (MOut <$> ks)) c → guarded c.
Proof using J_enter J_step.
  intros Hwf Hf HJ. revert c. apply invariant; [|intros c a c' _; apply guarded_exec].
  assert (∀ t p, (MOut <$> ks) !! t = Some p → ∃ k, p = MOut k) as Hout.
  { intros t p. rewrite list_lookup_fmap. intros (k & _ & ->)%fmap_Some. eauto. }
  intros c ->. split; simpl.
  - done.
  - intros t q k Hp. by destruct (Hout _ _ Hp).
  - intros _. split; [done|]. intros t p Hp. by destruct (Hout _ _ Hp) as [k ->].
  - intros t t' p p' Hp. by destruct (Hout _ _ Hp) as [k ->].
  - by rewrite Hf.
  - intros t p Hp. by destruct (Hout _ _ Hp) as [k ->].
Qed.

(** What holds inside and outside holds always. *)
Lemma guarded_always (I : D → Prop) c :
  (∀ d, J d → I d) → (∀ d k, Jin d k → I d) → guarded c → I (m_data c).
Proof.
  intros HJ HJin Hg. destruct (lk_free (m_lock c)) eqn:Ef; [by apply HJ, (gu_free _ Hg)|].
  destruct (gu_held _ Hg Ef) as (t & p & Hp & Hh). pose proof (gu_in _ Hg _ _ Hp) as Hi.
  destruct p; try done; simpl in Hi; eauto.
Qed.

(** A thread at [lock()] always has a next step. *)
Lemma guarded_total c t q k :
  guarded c → m_thr c !! t = Some (MLock q k) → is_Some (monitor_exec c (MRun t)).
Proof.
  intros Hg Hp. simpl. rewrite Hp. simpl. destruct (gu_ok _ Hg _ _ _ Hp) as [Hok _].
  destruct (lk_total _ _ (gu_wf _ Hg) Hok) as [[l' [q'|[]]] ->]; by eexists.
Qed.
End Monitor.

Arguments mpc : clear implicits.
Arguments mpc _ {_} _.
Arguments mcfg : clear implicits.
Arguments mcfg _ {_} _ _.
Arguments mact : clear implicits.
