(* ===== verification/MonitorAdapter.v ===== *)
(** * Containers behind a lock as adapters

    The adapters [MutexDeque] and [MutexVecPool] of the benchmarks are lists behind
    a mutex ([Monitor]).  This file shows once that such a container conserves
    values: what is in the list, what the threads inside calls carry and what the
    callers hold is always the same. *)

From Stdlib Require Import ZArith Lia.
From S2P Require Import Prelude MachineInt Lts LockInterface Monitor Adapter.
Local Open Scope Z_scope.
Local Open Scope astra_scope.

(** The events of a client and what its local states mean: [k_phase k] is the
    phase of a thread at [k] outside the block, [k_carried k] the value it carries. *)
Record container (K E : Type) := mkContainer {
  e_push : Z → E;
  e_pop : E;
  e_pause : E;
  e_return : E;
  k_phase : K → phase;
  k_carried : K → list Z;
}.
Arguments mkContainer {_ _} _ _ _ _ _ _.
Arguments e_push {_ _} _ _.
Arguments e_pop {_ _} _.
Arguments e_pause {_ _} _.
Arguments e_return {_ _} _.
Arguments k_phase {_ _} _ _.
Arguments k_carried {_ _} _ _.

(** What the steps of the client do to the list and to what is carried. *)
Record container_ok {K E} (B : container K E) (out_step : E → K → option (K * bool))
    (cs_step : list Z → K → option (list Z * K * bool)) (J : list Z → Prop) (Jin : list Z → K → Prop) : Prop := {
  ct_push v k k' b : out_step (e_push B v) k = Some (k', b) →
    b = true ∧ k_phase B k = Outside ∧ k_phase B k' = Pushing ∧ k_carried B k = [] ∧ k_carried B k' = [v];
  ct_pop k k' b : out_step (e_pop B) k = Some (k', b) →
    b = true ∧ k_phase B k = Outside ∧ k_phase B k' = Popping ∧ k_carried B k = [] ∧ k_carried B k' = [];
  ct_pause k k' b : out_step (e_pause B) k = Some (k', b) →
    b = true ∧ busy (k_phase B k) = true ∧ k_phase B k' = k_phase B k ∧ k_carried B k' = k_carried B k;
  ct_return k k' b : out_step (e_return B) k = Some (k', b) →
    b = false ∧ k_phase B k' = Outside ∧ k_carried B k' = [] ∧ k_carried B k = handed (k_phase B k);
  ct_can_push v k : k_phase B k = Outside → is_Some (out_step (e_push B v) k);
  ct_can_pop k : k_phase B k = Outside → is_Some (out_step (e_pop B) k);
  ct_can_return k : returns (k_phase B k) = true → is_Some (out_step (e_return B) k);
  ct_inside d k d' k' last : Jin d k → cs_step d k = Some (d', k', last) →
    d ++ k_carried B k ≡ₚ d' ++ k_carried B k';
  ct_phase d k d' k' last : cs_step d k = Some (d', k', last) →
    if last then goes_on (k_phase B k) (k_phase B k') = true else k_phase B k' = k_phase B k ∧ busy (k_phase B k) = true;
  ct_enter e k0 k d : out_step e k0 = Some (k, true) → J d → Jin d k;
  ct_step d k d' k' (last : bool) : Jin d k → cs_step d k = Some (d', k', last) → if last then J d' else Jin d' k';
}.

(** A container behind a lock [L]. *)
Record locked {K E} (B : container K E) (out_step : E → K → option (K * bool))
    (cs_step : list Z → K → option (list Z * K * bool)) (L : Type) `{!Lock L} := mkLocked { mon : mcfg L (list Z) K }.
Arguments mkLocked {_ _ _ _ _ _ _} _.
Arguments mon {_ _ _ _ _ _ _} _.

(** Inside its block a thread has not returned yet. *)
Definition unfinished (p : phase) : phase :=
  match p with Pushed => Pushing | Popped _ => Popping | _ => p end.

Section Adapter.
Context {K E : Type} {B : container K E} {out_step : E → K → option (K * bool)}.
Context {cs_step : list Z → K → option (list Z * K * bool)} {L : Type} `{!Lock L}.
Implicit Types (c : locked B out_step cs_step L).

Definition phase_of (p : mpc L K) : phase :=
  match p with MOut k => k_phase B k | MLock _ k | MIn k | MRelease k => unfinished (k_phase B k) end.

Abbreviation act c a := (mkLocked <$> monitor_exec out_step cs_step (mon c) a).

#[global] Instance locked_adapter : Adapter (locked B out_step cs_step L) := {
  ad_choice := unit;
  ad_push c t v := act c (MAct t (e_push B v));
  ad_pop c t := act c (MAct t (e_pop B));
  ad_run c t _ :=
    match m_thr (mon c) !! t with
    | Some (MOut _) => act c (MAct t (e_pause B))
    | _ => act c (MRun t)
    end;
  ad_ret c t := act c (MAct t (e_return B));
  ad_thr c := phase_of <$> m_thr (mon c);
}.
End Adapter.

Section Laws.
Context {K E : Type} (B : container K E) (out_step : E → K → option (K * bool)).
Context (cs_step : list Z → K → option (list Z * K * bool)) (J : list Z → Prop) (Jin : list Z → K → Prop).
Context (HB : container_ok B out_step cs_step J Jin) {L : Type} `{!Lock L} (n : nat) (R : roles).
Implicit Types (c : locked B out_step cs_step L).

Definition carried_at (p : mpc L K) : list Z :=
  match p with MOut k | MLock _ k | MIn k | MRelease k => k_carried B k end.

(** A thread on its way into the block, or in it, is inside its call. *)
Definition settled (p : mpc L K) : Prop :=
  match p with MLock _ k | MIn k => busy (k_phase B k) = true | MRelease k => k_phase B k ≠ Outside | MOut _ => True end.

Record locked_flow c (held total : list Z) : Prop := {
  mf_len : length (m_thr (mon c)) = n;
  mf_guard : guarded J Jin (mon c);
  mf_busy : ∀ t p, m_thr (mon c) !! t = Some p → settled p;
  mf_perm : m_data (mon c) ++ concat (carried_at <$> m_thr (mon c)) ++ held ≡ₚ total;
}.

Lemma locked_inv (o : option (mcfg L (list Z) K)) c : mkLocked <$> o = Some c → o = Some (mon c).
Proof. destruct o; simpl; [|done]. by intros [= <-]. Qed.

Lemma locked_thr c t p : ad_thr c !! t = Some p → ∃ r, m_thr (mon c) !! t = Some r ∧ p = phase_of (B := B) r.
Proof. simpl. rewrite list_lookup_fmap. intros (r & ? & ->)%fmap_Some. eauto. Qed.

(** Thread [t] goes from [p] to [p'], the list from [m_data] to [d']. *)
Lemma locked_move (m m' : mcfg L (list Z) K) t p p' held held' total total' :
  locked_flow (mkLocked m) held total → m_thr m !! t = Some p → m_thr m' = <[t := p']> (m_thr m) →
  guarded J Jin m' → settled p' →
  (∀ rest, m_data m ++ (carried_at p ++ rest) ++ held ≡ₚ total → m_data m' ++ (carried_at p' ++ rest) ++ held' ≡ₚ total') →
  locked_flow (mkLocked m') held' total'.
Proof.
  intros [Hl Hg Hb Hp] Ht Hm Hg' Hs Hmove. simpl in *. split; simpl.
  - by rewrite Hm, length_insert.
  - done.
  - intros j q. rewrite Hm. intros [(<-&<-&_)|(_&Hj)]%lookup_insert_cases; eauto.
  - rewrite Hm. destruct (concat_fmap_split carried_at _ t p Ht) as (rest & E1 & E2). rewrite <- E2. apply Hmove. by rewrite E1.
Qed.

(** An event outside the block. *)
Lemma locked_event c t e c' held held' total total' :
  locked_flow c held total → monitor_exec out_step cs_step (mon c) (MAct t e) = Some (mon c') →
  (∀ k k' b, m_thr (mon c) !! t = Some (MOut k) → out_step e k = Some (k', b) → (b = true → busy (k_phase B k') = true) ∧
     ∀ rest, m_data (mon c) ++ (k_carried B k ++ rest) ++ held ≡ₚ total →
       m_data (mon c) ++ (k_carried B k' ++ rest) ++ held' ≡ₚ total') →
  locked_flow c' held' total'.
Proof using HB.
  intros Hf He Hmove. destruct c as [m], c' as [m']. cbn [mon] in *.
  assert (guarded J Jin m') as Hg'.
  { eapply guarded_exec; [apply (ct_enter _ _ _ _ _ HB)|apply (ct_step _ _ _ _ _ HB)|apply (mf_guard _ _ _ Hf)|exact He]. }
  simpl in He. destruct (m_thr m !! t) as [[k|?|?|?]|] eqn:Et; try done. destruct (out_step e k) as [[k' b]|] eqn:Es; [|done].
  destruct (Hmove k k' b eq_refl Es) as [Hb Hp]. injection He as <-. eapply locked_move; [done|exact Et|done|done|by destruct b; [apply Hb|]|].
  intros rest Hrest. assert (carried_at (if b then MLock lk_enter k' else MOut k') = k_carried B k') as -> by by destruct b. by apply Hp.
Qed.

(** A step inside a call. *)
Lemma locked_step c t c' held total :
  locked_flow c held total → monitor_exec out_step cs_step (mon c) (MRun t) = Some (mon c') → locked_flow c' held total.
Proof using HB.
  intros Hf He. destruct c as [m], c' as [m']. cbn [mon] in *.
  assert (guarded J Jin m') as Hg'.
  { eapply guarded_exec; [apply (ct_enter _ _ _ _ _ HB)|apply (ct_step _ _ _ _ _ HB)|apply (mf_guard _ _ _ Hf)|exact He]. }
  simpl in He. destruct (m_thr m !! t) as [p|] eqn:Et; [|done].
  destruct (monitor_step _ _ _ p) as [[[l d] p']|] eqn:Es; [|done]. injection He as <-.
  pose proof (mf_busy _ _ _ Hf t p Et) as Hset. eapply locked_move; [done|exact Et|done|done| |]; simpl.
  - destruct p as [k|q k|k|k]; simpl in Es, Hset; try done.
    + destruct (lk_step _ _) as [[l1 [q1|[]]]|]; by simplify_eq/=.
    + destruct (cs_step (m_data m) k) as [[[d1 k1] last]|] eqn:Ec; [|done]. simplify_eq/=.
      pose proof (ct_phase _ _ _ _ _ HB _ _ _ _ _ Ec) as Hph. destruct last; simpl.
      * by destruct (k_phase B k), (k_phase B k1).
      * by destruct Hph as [-> ->].
    + by simplify_eq/=.
  - destruct p as [k|q k|k|k]; simpl in Es; try done.
    + destruct (lk_step _ _) as [[l1 [q1|[]]]|]; by simplify_eq/=.
    + pose proof (gu_in _ _ _ (mf_guard _ _ _ Hf) _ _ Et) as Hin. simpl in Hin.
      destruct (cs_step (m_data m) k) as [[[d1 k1] last]|] eqn:Ec; [|done]. simplify_eq/=.
      pose proof (ct_inside _ _ _ _ _ HB _ _ _ _ _ Hin Ec) as Hd.
      assert (carried_at (if last then MRelease k1 else MIn k1) = k_carried B k1) as -> by by destruct last.
      intros rest <-. rewrite !app_assoc. by rewrite Hd.
    + by simplify_eq/=.
Qed.

(** The threads. *)
Lemma event_thr c t e c' : monitor_exec out_step cs_step (mon c) (MAct t e) = Some (mon c') →
  ∃ k k' b, m_thr (mon c) !! t = Some (MOut k) ∧ out_step e k = Some (k', b) ∧
    ad_thr c' = <[t := phase_of (B := B) (if b then MLock lk_enter k' else MOut k')]> (ad_thr c).
Proof.
  simpl. intros He. destruct (m_thr (mon c) !! t) as [[k|?|?|?]|]; try done. destruct (out_step e k) as [[k' b]|] eqn:Es; [|done].
  simpl in He. exists k, k', b. split_and!; [done|done|]. injection He as Hm. rewrite <- Hm. simpl. by rewrite list_fmap_insert.
Qed.

Lemma step_phases l d p l' d' p' : settled p → monitor_step cs_step l d p = Some (l', d', p') →
  goes_on (phase_of (B := B) p) (phase_of (B := B) p') = true.
Proof using HB.
  intros Hset Hs. destruct p as [k|q k|k|k]; simpl in Hs, Hset |- *; try done.
  - destruct (lk_step _ _) as [[l1 [q1|[]]]|]; simplify_eq/=; by destruct (k_phase B k).
  - destruct (cs_step d k) as [[[d1 k1] last]|] eqn:Ec; [|done]. simplify_eq/=.
    pose proof (ct_phase _ _ _ _ _ HB _ _ _ _ _ Ec) as Hph. destruct last; simpl.
    + by destruct (k_phase B k), (k_phase B k1).
    + destruct Hph as [-> ?]. by destruct (k_phase B k).
  - simplify_eq/=. by destruct (k_phase B k).
Qed.

Lemma step_thr c t r c' held total :
  locked_flow c held total → m_thr (mon c) !! t = Some r → monitor_exec out_step cs_step (mon c) (MRun t) = Some (mon c') →
  ∃ p', ad_thr c' = <[t := p']> (ad_thr c) ∧ goes_on (phase_of (B := B) r) p' = true.
Proof using HB.
  intros Hf Hr He. simpl in He. rewrite Hr in He. destruct (monitor_step _ _ _ r) as [[[l d] r']|] eqn:Es; [|done].
  simpl in He. injection He as Hm. exists (phase_of (B := B) r'). split.
  - simpl. rewrite <- Hm. simpl. by rewrite list_fmap_insert.
  - eapply step_phases, Es. by eapply (mf_busy _ _ _ Hf).
Qed.

Lemma outside_at c held total t r :
  locked_flow c held total → m_thr (mon c) !! t = Some r → phase_of (B := B) r = Outside → ∃ k, r = MOut k.
Proof.
  intros Hf Hr Hp. pose proof (mf_busy _ _ _ Hf t r Hr) as Hb.
  destruct r as [k|q k|k|k]; simpl in *; [by eexists|..]; by destruct (k_phase B k).
Qed.

#[global] Instance locked_conserves : Conserves (locked B out_step cs_step L) n R.
Proof using HB.
  refine {| ad_flow := locked_flow |}.
  - intros c held held' total total' Hh Ht [H1 H2 H3 H4]. split; try done. by rewrite <- Hh, <- Ht.
  - intros c held total [_ _ _ H]. eexists. rewrite <- H, app_assoc. done.
  - intros c held total [H _ _ _]. simpl. by rewrite length_fmap.
  - intros c t v c' held held' total total' Hf _ He%locked_inv Hmove. eapply locked_event; [done|exact He|].
    intros k k' b _ (-> & _ & -> & -> & ->)%(ct_push _ _ _ _ _ HB). split; [done|]. intros rest. simpl. rewrite app_assoc.
    intros H%Hmove. rewrite <- H, <- Permutation_middle. by rewrite app_assoc.
  - intros c t c' held total Hf _ He%locked_inv. eapply locked_event; [done|exact He|].
    intros k k' b _ (-> & _ & -> & -> & ->)%(ct_pop _ _ _ _ _ HB). done.
  - intros c t a c' held total Hf He. cbn [ad_run locked_adapter] in He. destruct (m_thr (mon c) !! t) as [[k|?|?|?]|] eqn:Et;
      apply locked_inv in He; try (by eapply locked_step).
    eapply locked_event; [done|exact He|]. intros k0 k' b _ (-> & Hb & -> & ->)%(ct_pause _ _ _ _ _ HB). done.
  - intros c t p c' held total Hf (r & Hr & ->)%locked_thr He%locked_inv. eapply locked_event; [done|exact He|].
    intros k k' b Hk (-> & _ & -> & Hc)%(ct_return _ _ _ _ _ HB). split; [done|]. rewrite Hk in Hr. injection Hr as <-. simpl.
    rewrite Hc. intros rest <-. rewrite !app_assoc. f_equiv. rewrite <- !app_assoc. f_equiv. by rewrite Permutation_app_comm.
  - intros c t v c' (k & k' & b & _ & Hs & ->)%locked_inv%event_thr.
    by destruct (ct_push _ _ _ _ _ HB _ _ _ _ Hs) as (-> & _ & Hc & _); simpl; rewrite Hc.
  - intros c t c' (k & k' & b & _ & Hs & ->)%locked_inv%event_thr.
    by destruct (ct_pop _ _ _ _ _ HB _ _ _ Hs) as (-> & _ & Hc & _); simpl; rewrite Hc.
  - intros c t a p c' held total Hf He (r & Hr & ->)%locked_thr. cbn [ad_run locked_adapter] in He. rewrite Hr in He.
    destruct r as [k|q k|k|k] eqn:Er; apply locked_inv in He.
    + apply event_thr in He as (k0 & k' & b & Hk & Hs & ->). rewrite Hr in Hk. injection Hk as <-.
      destruct (ct_pause _ _ _ _ _ HB _ _ _ Hs) as (-> & Hb & Hc & _). eexists. split; [done|]. simpl. rewrite Hc.
      by destruct (k_phase B k).
    + by eapply step_thr.
    + by eapply step_thr.
    + by eapply step_thr.
  - intros c t c' (k & k' & b & _ & Hs & ->)%locked_inv%event_thr.
    by destruct (ct_return _ _ _ _ _ HB _ _ _ Hs) as (-> & Hc & _); simpl; rewrite Hc.
  - intros c t v held total Hf _ (r & Hr & Hp)%locked_thr. destruct (outside_at c held total t r Hf Hr (eq_sym Hp)) as [k ->].
    destruct (ct_can_push _ _ _ _ _ HB v k) as [[k' b] Hs]; [by rewrite Hp|]. simpl. rewrite Hr, Hs. by eexists.
  - intros c t held total Hf _ (r & Hr & Hp)%locked_thr. destruct (outside_at c held total t r Hf Hr (eq_sym Hp)) as [k ->].
    destruct (ct_can_pop _ _ _ _ _ HB k) as [[k' b] Hs]; [by rewrite Hp|]. simpl. rewrite Hr, Hs. by eexists.
  - intros c t p held total Hf (r & Hr & ->)%locked_thr Hret.
    destruct r as [k|q k|k|k]; try (simpl in Hret; by destruct (k_phase B k)).
    destruct (ct_can_return _ _ _ _ _ HB k Hret) as [[k' b] Hs]. simpl. rewrite Hr, Hs. by eexists.
Defined.

(** A container that nobody uses. *)
Definition unused (l : L) (d : list Z) (k : K) c : Prop := mon c = mkM l d (MOut <$> replicate n k).

Lemma unused_starts l d k :
  lk_wf l → lk_free l = true → J d → k_phase B k = Outside → k_carried B k = [] →
  starts_with (Conserves0 := locked_conserves) (unused l d k) d.
Proof.
  intros Hwf Hfree HJ Hk Hcar c Hc. unfold unused in Hc. split; [|simpl; by rewrite Hc; simpl; rewrite !fmap_replicate; simpl; rewrite Hk].
  split; rewrite Hc; simpl.
  - by rewrite length_fmap, length_replicate.
  - apply (guarded_inv out_step cs_step J Jin (ct_enter _ _ _ _ _ HB) (ct_step _ _ _ _ _ HB) l d (replicate n k)); try done.
    by apply reach_init.
  - intros t p. rewrite fmap_replicate. by intros [-> _]%lookup_replicate.
  - rewrite !fmap_replicate. simpl. rewrite Hcar. rewrite concat_nils; [by rewrite app_nil_r|].
    by intros i x [-> _]%lookup_replicate.
Qed.
End Laws.
