(* ===== verification/MutexQueue.v ===== *)
(** * The mutex-protected queue of the queue benchmark

    Model of [MutexDeque] in [src/bench/QueueComparisonBench.cpp]: a
    [std::deque<uint64_t>] of at most [CAP] values behind a [std::mutex], with
    [push] and [pop] that retry until there is room, resp. a value.  The mutex is any
    implementation of [Lock].  It is the baseline of the benchmark, and refines
    the same abstract queue as [AtomicRingBuffer]. *)

From Stdlib Require Import ZArith Lia.
From S2P Require Import Prelude MachineInt Lts AtomicRingBuffer QueueSpec LockInterface SpinlockBench Monitor.
From S2P Require Import Adapter MonitorAdapter.
Local Open Scope Z_scope.
Local Open Scope astra_scope.

Module MutexDeque.

Section Code.
Context (CAP : Z).

(** Where a thread is in [push(v)] or [pop()]: at the test, between test and
    [push_back], after a failed test, after the block; [PopFront v] has read
    [d.front()]. *)
Inductive local :=
| Idle
| Push (v : Z)
| PushBack (v : Z)
| PushFull (v : Z)
| PushDone
| Pop
| Front
| PopFront (v : Z)
| PopEmpty
| PopDone (v : Z).

(** Outside the block: calls, returns, and [_mm_pause()] before the next round. *)
Inductive outside := CallPush (v : Z) | CallPop | Return | Pause.

Definition out_step (e : outside) (k : local) : option (local * bool) :=
  match e, k with
  | CallPush v, Idle => Some (Push v, true)
  | CallPop, Idle => Some (Pop, true)
  | Return, (PushDone | PopDone _) => Some (Idle, false)
  | Pause, PushFull v => Some (Push v, true)
  | Pause, PopEmpty => Some (Pop, true)
  | _, _ => None
  end.

(** Inside the block.  [front] and [pop_front] of an empty deque are undefined. *)
Definition cs_step (d : list Z) (k : local) : option (list Z * local * bool) :=
  match k with
  | Push v => if Z.of_nat (length d) <? CAP then Some (d, PushBack v, false) else Some (d, PushFull v, true)
  | PushBack v => Some (d ++ [v], PushDone, true)
  | Pop => match d with [] => Some (d, PopEmpty, true) | _ => Some (d, Front, false) end
  | Front => match d with v :: _ => Some (d, PopFront v, false) | [] => None end
  | PopFront v => match d with _ :: d' => Some (d', PopDone v, true) | [] => None end
  | _ => None
  end.
End Code.

Section Proofs.
Context {L : Type} `{!Lock L} (CAP : Z) (HC : 0 <= CAP).
Abbreviation cfg := (mcfg L (list Z) local).
Abbreviation M := (monitor_machine out_step (cs_step CAP)).

(** What the mutex protects. *)
Definition fits (d : list Z) : Prop := Z.of_nat (length d) <= CAP.
Definition knows (d : list Z) (k : local) : Prop :=
  fits d ∧ match k with
  | PushBack _ => Z.of_nat (length d) < CAP
  | Front => d ≠ []
  | PopFront v => head d = Some v
  | Push _ | Pop => True
  | _ => False
  end.

Lemma mq_knows_enter e k0 k d : out_step e k0 = Some (k, true) → fits d → knows d k.
Proof. intros He Hd. split; [done|]. destruct e, k0; simplify_eq/=; done. Qed.

Lemma mq_knows_step d k d' k' (last : bool) :
  knows d k → cs_step CAP d k = Some (d', k', last) → if last then fits d' else knows d' k'.
Proof.
  intros [Hf Hk] Hs. unfold knows, fits in *. destruct k; simpl in Hs; step_inv Hs; try done.
  - lia.
  - rewrite length_app. simpl. lia.
  - simpl in Hf. lia.
Qed.

(** ** Refinement of the FIFO queue *)

Definition local_athread (k : local) : athread Z :=
  match k with
  | Idle => AIdle
  | Push v | PushBack v | PushFull v => AEnq v
  | PushDone => AEnqDone
  | Pop | Front | PopFront _ | PopEmpty => ADeq
  | PopDone v => ADeqDone v
  end.
Definition athread_of (p : mpc L local) : athread Z :=
  match p with MOut k | MLock _ k | MIn k | MRelease k => local_athread k end.
Definition aqueue (c : cfg) : qstate Z := QState (m_data c) (athread_of <$> m_thr c).

Definition obs (c : cfg) (a : mact outside) : list (event Z) :=
  match a with
  | MAct t (CallPush v) => [EvCall t (OpEnqueue EnqMove v)]
  | MAct t CallPop => [EvCall t OpDequeue]
  | MAct t Return =>
      match m_thr c !! t with
      | Some (MOut PushDone) => [EvRet t RUnit]
      | Some (MOut (PopDone v)) => [EvRet t (RVal v)]
      | _ => []
      end
  | _ => []
  end.

Abbreviation spec := (queue_spec (A := Z) 0).
Abbreviation qrun := (@sp_run spec).

(** A step that the abstract queue does not see. *)
Lemma unseen thr t (p p' : mpc L local) l l' d :
  thr !! t = Some p → athread_of p' = athread_of p →
  qrun (aqueue (mkM l d thr)) [] (aqueue (mkM l' d (<[t := p']> thr))).
Proof.
  intros Hp He. unfold aqueue. simpl. rewrite list_fmap_insert, He.
  rewrite list_insert_id by (by rewrite list_lookup_fmap, Hp). constructor.
Qed.

Lemma sim_outside (c : cfg) t e k k' b :
  m_thr c !! t = Some (MOut k) → out_step e k = Some (k', b) →
  qrun (aqueue c) (obs c (MAct t e))
    (aqueue (mkM (m_lock c) (m_data c) (<[t := if b then MLock lk_enter k' else MOut k']> (m_thr c)))).
Proof.
  intros Hp Hs. assert ((athread_of <$> m_thr c) !! t = Some (local_athread k)) as Ha
    by (by rewrite list_lookup_fmap, Hp).
  assert (athread_of (if b then MLock lk_enter k' else MOut k') = local_athread k') as He by (by destruct b).
  destruct e, k; simplify_eq/=; rewrite ?Hp; try (destruct c; by eapply unseen);
    unfold aqueue; simpl; rewrite list_fmap_insert; simpl; apply (sp_one spec).
  - apply (q_call 0 _ _ t (OpEnqueue EnqMove v)). done.
  - by apply (q_call 0 _ _ t OpDequeue).
  - by apply (q_enq_ret 0).
  - by apply (q_deq_ret 0).
Qed.

Lemma sim_inside (c : cfg) t k d' k' (last : bool) l :
  m_thr c !! t = Some (MIn k) → knows (m_data c) k → cs_step CAP (m_data c) k = Some (d', k', last) →
  qrun (aqueue c) [] (aqueue (mkM l d' (<[t := if last then MRelease k' else MIn k']> (m_thr c)))).
Proof.
  intros Hp [_ Hk] Hs. assert ((athread_of <$> m_thr c) !! t = Some (local_athread k)) as Ha
    by (by rewrite list_lookup_fmap, Hp).
  destruct c as [l0 d thr]. simpl in *. destruct k; simpl in Hs, Hk; step_inv Hs; try (by eapply unseen).
  - unfold aqueue. simpl. rewrite list_fmap_insert. by apply (sp_one spec), (q_enq 0).
  - unfold aqueue. simpl. rewrite list_fmap_insert. by apply (sp_one spec), (q_deq 0).
Qed.

Definition linked (c : cfg) (q : qstate Z) : Prop := guarded fits knows c ∧ q = aqueue c.

Lemma mq_linked_simulates : simulates (S := spec) (M := M) obs linked.
Proof.
  intros c a c' q [Hg ->] He. exists (aqueue c'). split.
  2: { split; [|done]. eapply guarded_exec; [apply mq_knows_enter|apply mq_knows_step|done|exact He]. }
  destruct a as [t e|t]; simpl in He.
  - destruct (m_thr c !! t) as [[k|?|?|?]|] eqn:Ep; try done.
    destruct (out_step e k) as [[k' b]|] eqn:Es; [|done]. simplify_eq/=. by apply (sim_outside c t e k k' b).
  - destruct (m_thr c !! t) as [p|] eqn:Ep; [|done]. destruct (monitor_step _ _ _ p) as [[[l' d'] p']|] eqn:Es; [|done].
    simplify_eq/=. destruct p as [k|q k|k|k]; simpl in Es; try done.
    + destruct (lk_step (m_lock c) q) as [[l1 [q1|[]]]|]; simplify_eq/=; destruct c; by eapply unseen.
    + pose proof (gu_in _ _ _ Hg _ _ Ep) as Hk. simpl in Hk.
      destruct (cs_step CAP (m_data c) k) as [[[d1 k1] last]|] eqn:Ec; [|done]. simplify_eq/=.
      by apply (sim_inside c t k d' k1 last).
    + simplify_eq/=. destruct c; by eapply unseen.
Qed.

Context (l : L) (Hwf : lk_wf l) (Hfree : lk_free l = true) (n : nat).

(** [MutexDeque] after construction, used by [n] threads. *)
Definition mutex_deque : cfg := mkM l [] (MOut <$> replicate n Idle).
Abbreviation fresh := (λ c, c = mutex_deque).

Lemma deque_guarded c : reachable (M := M) fresh c → guarded fits knows c.
Proof using Hwf Hfree HC.
  apply (guarded_inv out_step (cs_step CAP) fits knows mq_knows_enter mq_knows_step); [done|done|exact HC].
Qed.

(** C34. The mutex-protected deque is a bounded FIFO queue, behind any lock that keeps
    the promises of [Lock]: the calls and returns of [n] threads are a history of an
    atomic FIFO queue, and the deque never holds more than [CAP] values. *)
Theorem mutex_deque_linearizable σ c :
  run (M := M) mutex_deque σ = Some c →
  ∃ q, sp_run (S := spec) (queue_init n) (run_obs (S := spec) (M := M) obs mutex_deque σ) q ∧
    q_items q = m_data c ∧ Z.of_nat (length (q_items q)) <= CAP ∧
    ∀ t, m_thr c !! t = Some (MOut Idle) → q_thr q !! t = Some AIdle.
Proof using Hwf Hfree HC.
  intros Hr.
  destruct (simulates_run spec M obs linked mutex_deque σ c (queue_init n) mq_linked_simulates) as (q & Hrun & Hg & ->); [|done|].
  { split; [apply deque_guarded; by apply reach_init|]. unfold aqueue, queue_init, mutex_deque. simpl. by rewrite !fmap_replicate. }
  exists (aqueue c). split; [done|]. split; [done|]. split.
  - apply (guarded_always fits knows fits c); [done|by intros d k [? _]|done].
  - intros t Ht. simpl. rewrite list_lookup_fmap, Ht. done.
Qed.

(** No undefined behaviour: a thread at the lock or inside the block can always take
    its next step; in particular [front] and [pop_front] are never called on an empty
    deque. *)
Theorem mutex_deque_progress c t p :
  reachable (M := M) fresh c → m_thr c !! t = Some p → (∀ k, p ≠ MOut k) → is_Some (m_exec M c (MRun t)).
Proof using Hwf Hfree HC.
  intros Hr Hp Hout. pose proof (deque_guarded c Hr) as Hg. destruct p as [k|q k|k|k].
  - by destruct (Hout k).
  - by apply (guarded_total out_step (cs_step CAP) fits knows c t q k).
  - pose proof (gu_in _ _ _ Hg _ _ Hp) as [_ Hk]. simpl. rewrite Hp. simpl.
    destruct (m_data c) eqn:Ed, k; simpl in Hk |- *; try done; try (by eexists); destruct (_ <? _); by eexists.
  - simpl. rewrite Hp. by eexists.
Qed.

(** ** As an adapter of the measurements *)

Definition as_container : container local outside :=
  mkContainer CallPush CallPop Pause Return
    (λ k, match k with
          | Idle => Outside
          | Push _ | PushBack _ | PushFull _ => Pushing
          | PushDone => Pushed
          | Pop | Front | PopFront _ | PopEmpty => Popping
          | PopDone v => Popped v
          end)
    (λ k, match k with Push v | PushBack v | PushFull v | PopDone v => [v] | _ => [] end).

Lemma mq_container_ok : container_ok as_container out_step (cs_step CAP) fits knows.
Proof.
  split; try (by intros; destruct k; simplify_eq/=); try (by intros v []); try (by intros []).
  - intros d k d' k' last [_ Hk] Hs. destruct k; simpl in Hs, Hk; step_inv Hs; try done; simpl.
    + by rewrite app_nil_r.
    + by rewrite app_nil_r, Permutation_app_comm.
  - intros d k d' k' last Hs. destruct k; simpl in Hs; step_inv Hs; done.
  - apply mq_knows_enter.
  - apply mq_knows_step.
Qed.
End Proofs.

(** ** Two threads, one slot, behind the benchmark's TTAS lock *)

#[local] Existing Instance TTAS.ttas_lock.

Definition ex_deque : mcfg TTAS.t (list Z) local := mutex_deque TTAS.create 2.
Definition ex_deque_sched : list (mact outside) :=
  [MAct 0 (CallPush 7); MAct 1 CallPop] ++ replicate 4 (MRun 0) ++ [MAct 0 Return; MAct 0 (CallPush 8)] ++
  replicate 3 (MRun 0) ++ [MAct 0 Pause] ++ replicate 5 (MRun 1) ++ [MAct 1 Return].
Definition ex_deque_end : mcfg TTAS.t (list Z) local :=
  default ex_deque (run (M := monitor_machine out_step (cs_step 1)) ex_deque ex_deque_sched).

Lemma mutex_deque_linearizable_witness :
  m_data ex_deque_end = [] ∧
  ∃ q, sp_run (S := queue_spec (A := Z) 0) (queue_init 2)
    [EvCall 0 (OpEnqueue EnqMove 7); EvCall 1 OpDequeue; EvRet 0 RUnit; EvCall 0 (OpEnqueue EnqMove 8); EvRet 1 (RVal 7)] q.
Proof.
  split; [by vm_compute|].
  destruct (mutex_deque_linearizable (L := TTAS.t) 1 ltac:(lia) TTAS.create ltac:(exact I) eq_refl 2 ex_deque_sched ex_deque_end)
    as (q & Hq & _); [by vm_compute|]. exists q. by vm_compute in Hq |- *.
Defined.
End MutexDeque.
