(* ===== verification/MutexPool.v ===== *)
(** * The mutex-protected index pool of the index-pool benchmark

    Model of [MutexVecPool] in [src/bench/IndexPoolComparisonBench.cpp]: the free
    indexes in a [std::vector<int>] behind a [std::mutex], [get] takes the last one
    and retries while there is none, [put] appends. *)

From Stdlib Require Import ZArith Lia.
From S2P Require Import Prelude MachineInt Lts LockInterface Monitor Adapter MonitorAdapter.
Local Open Scope Z_scope.
Local Open Scope astra_scope.

Module MutexVecPool.

(** Where a thread is: outside, in [get()] (at the test, before and after
    [free.back()], after a failed test, after the block), in [put(i)]. *)
Inductive local :=
| Idle
| Get
| Back
| PopBack (v : Z)
| GetEmpty
| GetDone (v : Z)
| Put (i : Z)
| PutDone.

Inductive outside := CallGet | CallPut (i : Z) | Return | Pause.

Definition out_step (e : outside) (k : local) : option (local * bool) :=
  match e, k with
  | CallGet, Idle => Some (Get, true)
  | CallPut i, Idle => Some (Put i, true)
  | Pause, GetEmpty => Some (Get, true)
  | Return, (GetDone _ | PutDone) => Some (Idle, false)
  | _, _ => None
  end.

(** [back] and [pop_back] of an empty vector are undefined. *)
Definition cs_step (free : list Z) (k : local) : option (list Z * local * bool) :=
  match k with
  | Get => match free with [] => Some (free, GetEmpty, true) | _ => Some (free, Back, false) end
  | Back => match last free with Some v => Some (free, PopBack v, false) | None => None end
  | PopBack v => match free with [] => None | _ => Some (removelast free, GetDone v, true) end
  | Put i => Some (free ++ [i], PutDone, true)
  | _ => None
  end.

(** The constructor: [for (int i = 0; i < int(SIZE); ++i) free.push_back(i);] *)
Fixpoint fill (fuel : nat) (i : Z) (SIZE : Z) (free : list Z) : option (list Z) :=
  if i <? to_i32 SIZE then
    match fuel with
    | O => None
    | S fuel' => let? i' := int_op (i + 1) in fill fuel' i' SIZE (free ++ [i])
    end
  else Some free.
Definition MutexVecPool (SIZE : Z) : option (list Z) := fill (Z.to_nat SIZE) 0 SIZE [].

Lemma fill_spec fuel i SIZE free :
  0 <= i <= SIZE → SIZE <= INT_MAX → SIZE - i <= Z.of_nat fuel →
  fill fuel i SIZE free = Some (free ++ seqZ i (SIZE - i)).
Proof.
  intros Hi HS. assert (to_i32 SIZE = SIZE) as Hw.
  { unfold INT_MAX in HS. apply swrap_small; [lia|]. change (2 ^ (32 - 1)) with (2 ^ 31). lia. }
  revert i free Hi. induction fuel as [|fuel IH]; intros i free Hi Hf; simpl; rewrite Hw;
    destruct (Z.ltb_spec i SIZE); try lia.
  1, 3: replace (SIZE - i) with 0 by lia; by rewrite app_nil_r.
  unfold int_op. rewrite (proj2 (Z.leb_le _ _)), (proj2 (Z.leb_le _ _)) by (unfold INT_MIN in *; lia). simpl.
  rewrite IH by lia. f_equal. rewrite <- app_assoc. f_equal. rewrite (seqZ_cons i) by lia. simpl. do 2 f_equal. lia.
Qed.

Lemma MutexVecPool_full SIZE : 0 <= SIZE <= INT_MAX → MutexVecPool SIZE = Some (seqZ 0 SIZE).
Proof. intros HS. unfold MutexVecPool. rewrite fill_spec by lia. simpl. by rewrite Z.sub_0_r. Qed.

(** What a thread inside the block knows of the vector. *)
Definition knows (free : list Z) (k : local) : Prop :=
  match k with
  | Back => free ≠ []
  | PopBack v => last free = Some v
  | Get | Put _ => True
  | _ => False
  end.

Lemma mp_knows_enter e k0 k (d : list Z) : out_step e k0 = Some (k, true) → True → knows d k.
Proof. intros He _. destruct e, k0; simplify_eq/=; done. Qed.

Lemma mp_knows_step d k d' k' (last : bool) :
  knows d k → cs_step d k = Some (d', k', last) → if last then True else knows d' k'.
Proof. intros Hk Hs. destruct k; simpl in Hk, Hs; step_inv Hs; done. Qed.

Lemma last_removelast (d : list Z) v : last d = Some v → removelast d ++ [v] = d.
Proof.
  intros H. destruct d as [|x d _] using rev_ind; [done|]. rewrite last_snoc in H. injection H as ->. by rewrite removelast_last.
Qed.

(** ** As an adapter of the measurements *)

Definition as_container : container local outside :=
  mkContainer CallPut CallGet Pause Return
    (λ k, match k with
          | Idle => Outside
          | Put _ => Pushing
          | PutDone => Pushed
          | Get | Back | PopBack _ | GetEmpty => Popping
          | GetDone v => Popped v
          end)
    (λ k, match k with Put v | GetDone v => [v] | _ => [] end).

Lemma mp_container_ok : container_ok as_container out_step cs_step (λ _, True) knows.
Proof.
  split; try (by intros; destruct k; simplify_eq/=); try (by intros v []); try (by intros []).
  - intros d k d' k' lst Hk Hs. destruct k; simpl in Hs, Hk; try done.
    + destruct d; by simplify_eq/=.
    + destruct (last d); by simplify_eq/=.
    + assert (d' = removelast d ∧ k' = GetDone v) as [-> ->] by (destruct d; by simplify_eq/=).
      simpl. by rewrite app_nil_r, (last_removelast _ _ Hk).
    + simplify_eq/=. by rewrite app_nil_r.
  - intros d k d' k' lst Hs. destruct k; simpl in Hs; step_inv Hs; done.
  - apply mp_knows_enter.
  - apply mp_knows_step.
Qed.

(** No undefined behaviour: a thread inside the block can always take its next step;
    [back] and [pop_back] are never called on an empty vector. *)
Lemma mp_inside_total {L} `{!Lock L} (c : mcfg L (list Z) local) t k :
  guarded (λ _, True) knows c → m_thr c !! t = Some (MIn k) → is_Some (monitor_exec out_step cs_step c (MRun t)).
Proof.
  intros Hg Hp. pose proof (gu_in _ _ _ Hg _ _ Hp) as Hk. simpl in Hk. simpl. rewrite Hp. simpl.
  destruct k; simpl in Hk; try done; cbn [cs_step].
  - destruct (m_data c); by eexists.
  - destruct (last (m_data c)) eqn:El; [by eexists|]. by apply last_None in El.
  - destruct (m_data c); [done|by eexists].
Qed.
End MutexVecPool.
