(* ===== verification/SpscRingBuffer.v ===== *)
(** * spscRingBuffer: the code

    Model of [src/include/AstraLib/Buffers/spscRingBuffer.hpp]: a ring for one
    producer and one consumer.  Each slot has a flag ([ticket], 0 empty, 1
    filled); each side has a plain cursor that only it uses, and advances it
    before it looks at the slot. *)

From Stdlib Require Import ZArith Lia.
From S2P Require Import Prelude MachineInt Lts AtomicRingBuffer.
Local Open Scope Z_scope.
Local Open Scope astra_scope.

Module Spsc.

Section Code.
Context {A : Type} `{!Elem A}.
Context (BUFFER_SIZE : Z).

(** [data = None]: no live object, as in [AtomicRingBuffer.Slot]. *)
Record spscSlot := mkSlot { data : option A; ticket : Z }.

Record ring := mkRing { buffer : list spscSlot; lastRead : Z; lastWritten : Z }.

(** [buffer[index]]: out of bounds is undefined behaviour. *)
Definition get_slot (r : ring) (index : Z) : option spscSlot :=
  if index <? 0 then None else buffer r !! Z.to_nat index.

Definition set_slot (r : ring) (index : Z) (s : spscSlot) : ring :=
  mkRing (<[Z.to_nat index := s]> (buffer r)) (lastRead r) (lastWritten r).

(** [if(x+1 < BUFFER_SIZE) x += 1; else x = 0;] on an [int] cursor: [x+1] is
    [int] arithmetic, the comparison is made in [std::size_t]. *)
Definition advance (x : Z) : option Z :=
  let? y := int_op (x + 1) in Some (if to_u64 y <? BUFFER_SIZE then y else 0).

(** The producer inside [enqueue] or [emplaceEnqueue] (the latter with the
    value [A(args...)]), and the consumer inside [dequeue]. *)
Inductive enq_kind := EnqMove | EnqEmplace.

Inductive ppc :=
| PIdle
| PAdvance (k : enq_kind) (v : A)
| PSpin (k : enq_kind) (v : A)
| PWrite (k : enq_kind) (v : A)
| PConstruct (v : A)
| PPublish (v : A)
| PReturn.

Inductive cpc :=
| CIdle
| CAdvance
| CSpin
| CMove
| CPublish (v : A)
| CReturn (v : A).

(** One step of [enqueue] or [emplaceEnqueue]. *)
Definition step_enqueue (r : ring) (p : ppc) : option (ring * ppc) :=
  match p with
  | PAdvance k v =>
      let? x := advance (lastWritten r) in
      Some (mkRing (buffer r) (lastRead r) x, PSpin k v)
  | PSpin k v =>
      let? s := get_slot r (lastWritten r) in
      Some (r, if negb (ticket s =? 0) then PSpin k v else PWrite k v)
  | PWrite EnqMove v =>
      let? s := get_slot r (lastWritten r) in
      let? _ := data s in
      Some (set_slot r (lastWritten r) (mkSlot (Some v) (ticket s)), PPublish v)
  | PWrite EnqEmplace v =>
      let? s := get_slot r (lastWritten r) in
      let? _ := data s in
      if trivially_destructible
      then Some (set_slot r (lastWritten r) (mkSlot (Some v) (ticket s)), PPublish v)
      else Some (set_slot r (lastWritten r) (mkSlot None (ticket s)), PConstruct v)
  | PConstruct v =>
      let? s := get_slot r (lastWritten r) in
      match data s with
      | None => Some (set_slot r (lastWritten r) (mkSlot (Some v) (ticket s)), PPublish v)
      | Some _ => None
      end
  | PPublish v =>
      let? s := get_slot r (lastWritten r) in
      Some (set_slot r (lastWritten r) (mkSlot (data s) 1), PReturn)
  | _ => None
  end.

(** One step of [dequeue]. *)
Definition step_dequeue (r : ring) (p : cpc) : option (ring * cpc) :=
  match p with
  | CAdvance =>
      let? x := advance (lastRead r) in
      Some (mkRing (buffer r) x (lastWritten r), CSpin)
  | CSpin =>
      let? s := get_slot r (lastRead r) in
      Some (r, if ticket s =? 0 then CSpin else CMove)
  | CMove =>
      let? s := get_slot r (lastRead r) in
      let? v := data s in
      Some (set_slot r (lastRead r) (mkSlot (Some (moved_from v)) (ticket s)), CPublish v)
  | CPublish v =>
      let? s := get_slot r (lastRead r) in
      Some (set_slot r (lastRead r) (mkSlot (data s) 0), CReturn v)
  | _ => None
  end.

(** The members as declared, with the default element [a0]. *)
Definition spscRingBuffer (a0 : A) : ring :=
  mkRing (replicate (Z.to_nat BUFFER_SIZE) (mkSlot (Some a0) 0)) 0 0.

(** ** The two threads

    [c_hist] and [c_reads] are read by no code: the values published so far,
    and how many of them were taken. *)
Record cfg := mkCfg { c_ring : ring; c_prod : ppc; c_cons : cpc; c_hist : list A; c_reads : nat }.

Inductive act :=
| PCall (k : enq_kind) (v : A)
| PRun
| PRet
| CCall
| CRun
| CRet.

Definition log_publish (p : ppc) (h : list A) : list A :=
  match p with PPublish v => h ++ [v] | _ => h end.

Definition log_take (p : cpc) (k : nat) : nat :=
  match p with CPublish _ => S k | _ => k end.

Definition exec (c : cfg) (a : act) : option cfg :=
  match a with
  | PCall k v =>
      match c_prod c with
      | PIdle => Some (mkCfg (c_ring c) (PAdvance k v) (c_cons c) (c_hist c) (c_reads c))
      | _ => None
      end
  | PRun =>
      let? rp := step_enqueue (c_ring c) (c_prod c) in
      Some (mkCfg rp.1 rp.2 (c_cons c) (log_publish (c_prod c) (c_hist c)) (c_reads c))
  | PRet =>
      match c_prod c with
      | PReturn => Some (mkCfg (c_ring c) PIdle (c_cons c) (c_hist c) (c_reads c))
      | _ => None
      end
  | CCall =>
      match c_cons c with
      | CIdle => Some (mkCfg (c_ring c) (c_prod c) CAdvance (c_hist c) (c_reads c))
      | _ => None
      end
  | CRun =>
      let? rp := step_dequeue (c_ring c) (c_cons c) in
      Some (mkCfg rp.1 (c_prod c) rp.2 (c_hist c) (log_take (c_cons c) (c_reads c)))
  | CRet =>
      match c_cons c with
      | CReturn _ => Some (mkCfg (c_ring c) (c_prod c) CIdle (c_hist c) (c_reads c))
      | _ => None
      end
  end.

Definition spsc_machine : machine := Machine cfg act exec.

Definition init_cfg (a0 : A) : cfg := mkCfg (spscRingBuffer a0) PIdle CIdle [] 0.
End Code.

Arguments spscSlot : clear implicits.
Arguments ring : clear implicits.
Arguments ppc : clear implicits.
Arguments cpc : clear implicits.
Arguments cfg : clear implicits.
Arguments act : clear implicits.

End Spsc.
