(* ===== verification/SpscInvariant.v ===== *)
(** * spscRingBuffer: the invariant

    [W] values were published and [R] taken.  The [N] tickets from [R] on name
    the [N] slots; the first [W - R] of them are filled with the values still in
    the queue, in order, and the rest are empty. *)

From Stdlib Require Import ZArith Lia.
From S2P Require Import Prelude MachineInt Lts AtomicRingBuffer SpscRingBuffer.
Import Spsc.
Local Open Scope Z_scope.
Local Open Scope astra_scope.

(** Two tickets less than [N] apart that name the same slot are equal. *)
Lemma mod_window_inj (N r k k' : nat) :
  (0 < N)%nat → (r ≤ k < r + N)%nat → (r ≤ k' < r + N)%nat → (k mod N = k' mod N)%nat → k = k'.
Proof.
  intros HN Hk Hk' He.
  pose proof (Nat.div_mod_eq k N). pose proof (Nat.div_mod_eq k' N).
  destruct (Nat.lt_trichotomy (k / N) (k' / N)) as [|[]]; nia.
Qed.

Section Invariant.
Context {A : Type} `{!Elem A} (BUFFER_SIZE : Z).
Context (HB : 1 <= BUFFER_SIZE <= INT_MAX).
Abbreviation N := (Z.to_nat BUFFER_SIZE).

Lemma N_pos : (0 < N)%nat.
Proof using HB. lia. Qed.

(** The slot of ticket [k]: the cursors start at 0 and advance before use. *)
Definition pos (k : nat) : nat := (S k mod N)%nat.

Definition p_moved (p : ppc A) : nat :=
  match p with PSpin _ _ | PWrite _ _ | PConstruct _ | PPublish _ => 1 | _ => 0 end.
Definition c_moved (p : cpc A) : nat :=
  match p with CSpin | CMove | CPublish _ => 1 | _ => 0 end.

(** The owner of the next empty, resp. of the oldest filled slot. *)
Definition p_owns (p : ppc A) : bool :=
  match p with PWrite _ _ | PConstruct _ | PPublish _ => true | _ => false end.
Definition c_owns (p : cpc A) : bool :=
  match p with CMove | CPublish _ => true | _ => false end.

(** The [data] of the slot the producer writes, of the slot the consumer reads. *)
Definition p_data (p : ppc A) (d : option A) : Prop :=
  match p with PConstruct _ => d = None | PPublish v => d = Some v | _ => is_Some d end.
Definition c_data (p : cpc A) (x d : option A) : Prop :=
  match p with CPublish v => x = Some v ∧ is_Some d | _ => d = x end.

Definition slot_ok (c : cfg A) (k : nat) (s : spscSlot A) : Prop :=
  let W := length (c_hist c) in
  ticket s = (if bool_decide (k < W)%nat then 1 else 0) ∧
  ((k < W)%nat → if bool_decide (k = c_reads c) then c_data (c_cons c) (c_hist c !! k) (data s)
                 else data s = c_hist c !! k) ∧
  (k = W → p_data (c_prod c) (data s)) ∧
  ((W < k)%nat → is_Some (data s)).

Record sinv (c : cfg A) : Prop := {
  si_len : length (buffer (c_ring c)) = N;
  si_win : (c_reads c ≤ length (c_hist c) ≤ c_reads c + N)%nat;
  si_slot : ∀ k, (c_reads c ≤ k < c_reads c + N)%nat →
    ∃ s, buffer (c_ring c) !! pos k = Some s ∧ slot_ok c k s;
  si_prod : lastWritten (c_ring c) = Z.of_nat ((length (c_hist c) + p_moved (c_prod c)) mod N);
  si_pown : p_owns (c_prod c) = true → (length (c_hist c) < c_reads c + N)%nat;
  si_cons : lastRead (c_ring c) = Z.of_nat ((c_reads c + c_moved (c_cons c)) mod N);
  si_cown : c_owns (c_cons c) = true → (c_reads c < length (c_hist c))%nat;
}.

(** The cursors move to the slot of the next ticket. *)
Lemma advance_pos k : advance BUFFER_SIZE (Z.of_nat (k mod N)) = Some (Z.of_nat (S k mod N)).
Proof using HB.
  pose proof N_pos as HN. pose proof (Nat.mod_upper_bound k N ltac:(lia)) as Hb.
  unfold advance, int_op, INT_MIN, INT_MAX in *.
  rewrite (proj2 (Z.leb_le _ _)), (proj2 (Z.leb_le _ _)) by lia. simpl.
  rewrite (uwrap_small 64) by lia. f_equal.
  rewrite <- (Nat.Div0.add_mod_idemp_r 1 k N : (S (k mod N) mod N = S k mod N)%nat).
  destruct (Z.ltb_spec (Z.of_nat (k mod N) + 1) BUFFER_SIZE).
  - rewrite (Nat.mod_small (S _)) by lia. lia.
  - replace (S (k mod N)) with N by lia. by rewrite Nat.Div0.mod_same.
Qed.

Lemma get_slot_nat (r : ring A) i : get_slot r (Z.of_nat i) = buffer r !! i.
Proof. unfold get_slot. rewrite (proj2 (Z.ltb_ge _ _)) by lia. by rewrite Nat2Z.id. Qed.

Lemma set_slot_nat (r : ring A) i s :
  set_slot r (Z.of_nat i) s = mkRing (<[i := s]> (buffer r)) (lastRead r) (lastWritten r).
Proof. unfold set_slot. by rewrite Nat2Z.id. Qed.

Lemma pos_inj r k k' :
  (r ≤ k < r + N)%nat → (r ≤ k' < r + N)%nat → pos k = pos k' → k = k'.
Proof using HB.
  intros H H' He. pose proof N_pos.
  pose proof (mod_window_inj N (S r) (S k) (S k')). unfold pos in He. lia.
Qed.

(** Rewriting one slot: the other tickets keep theirs. *)
Lemma slots_insert (b : list (spscSlot A)) r k0 s' (P P' : nat → spscSlot A → Prop) :
  length b = N → (r ≤ k0 < r + N)%nat → P' k0 s' →
  (∀ k, (r ≤ k < r + N)%nat → ∃ s, b !! pos k = Some s ∧ P k s) →
  (∀ k s, (r ≤ k < r + N)%nat → k ≠ k0 → P k s → P' k s) →
  ∀ k, (r ≤ k < r + N)%nat → ∃ s, <[pos k0 := s']> b !! pos k = Some s ∧ P' k s.
Proof using HB.
  intros Hl Hk0 Hp' Hs Himp k Hk. destruct (decide (k = k0)) as [->|Hne].
  - exists s'. split; [|done]. apply list_lookup_insert_eq. rewrite Hl.
    apply Nat.mod_upper_bound. lia.
  - destruct (Hs k Hk) as (s & Hb & Hp). exists s. split; [|auto].
    rewrite list_lookup_insert_ne; [done|]. intros He. apply Hne. by apply (pos_inj r).
Qed.

(** After a publication of ticket [r] the slot serves ticket [r + N]. *)
Lemma pos_round r : pos (r + N) = pos r.
Proof using HB.
  unfold pos. replace (S (r + N)) with (S r + 1 * N)%nat by lia.
  apply Nat.Div0.mod_add.
Qed.

Lemma p_slot c : sinv c → p_moved (c_prod c) = 1%nat →
  lastWritten (c_ring c) = Z.of_nat (pos (length (c_hist c))).
Proof. intros Hi Hm. rewrite (si_prod _ Hi), Hm, Nat.add_1_r. done. Qed.

Lemma c_slot c : sinv c → c_moved (c_cons c) = 1%nat →
  lastRead (c_ring c) = Z.of_nat (pos (c_reads c)).
Proof. intros Hi Hm. rewrite (si_cons _ Hi), Hm, Nat.add_1_r. done. Qed.

(** *** Preservation *)

(** A producer step that writes no slot. *)
Lemma sinv_prod_local c p' lw :
  sinv c → lw = Z.of_nat ((length (c_hist c) + p_moved p') mod N) →
  (p_owns p' = true → (length (c_hist c) < c_reads c + N)%nat) →
  (∀ d, p_data (c_prod c) d → p_data p' d) →
  sinv (mkCfg (mkRing (buffer (c_ring c)) (lastRead (c_ring c)) lw) p' (c_cons c) (c_hist c) (c_reads c)).
Proof.
  intros [Hl Hw Hs Hp Hpo Hc Hco] Hlw Ho Hd. split; simpl; try done.
  intros k Hk. destruct (Hs k Hk) as (s & Hb & Ht & Hf & Hn & Hg). exists s.
  split_and!; [done|split_and!; eauto].
Qed.

Lemma sinv_cons_local c p' lr :
  sinv c → lr = Z.of_nat ((c_reads c + c_moved p') mod N) →
  (c_owns p' = true → (c_reads c < length (c_hist c))%nat) →
  (∀ x d, c_data (c_cons c) x d → c_data p' x d) →
  sinv (mkCfg (mkRing (buffer (c_ring c)) lr (lastWritten (c_ring c))) (c_prod c) p' (c_hist c) (c_reads c)).
Proof.
  intros [Hl Hw Hs Hp Hpo Hc Hco] Hlr Ho Hd. split; simpl; try done.
  intros k Hk. destruct (Hs k Hk) as (s & Hb & Ht & Hf & Hn & Hg). exists s.
  split; [done|]. split_and!; simpl; try done. intros Hlt. specialize (Hf Hlt).
  destruct (bool_decide (k = c_reads c)); auto.
Qed.

(** The producer writes the [data] of the slot it owns. *)
Lemma sinv_prod_write c s p' d' :
  sinv c → p_owns (c_prod c) = true → p_owns p' = true →
  buffer (c_ring c) !! pos (length (c_hist c)) = Some s → p_data p' d' →
  sinv (mkCfg (set_slot (c_ring c) (lastWritten (c_ring c)) (mkSlot d' (ticket s))) p'
          (c_cons c) (c_hist c) (c_reads c)).
Proof using HB.
  intros Hi Ho Ho' Hsl Hd. pose proof Hi as [Hl Hw Hs Hp Hpo Hc Hco].
  assert (p_moved (c_prod c) = 1%nat ∧ p_moved p' = 1%nat) as [Hm Hm'] by (by destruct (c_prod c), p').
  rewrite (p_slot c Hi Hm), set_slot_nat. specialize (Hpo Ho).
  split; simpl; try done.
  - by rewrite length_insert.
  - eapply slots_insert; [done|lia| |exact Hs|].
    + destruct (Hs (length (c_hist c))) as (s0 & Hb0 & Ht0 & _); [lia|]. simplify_eq.
      split_and!; simpl; [done|lia|done|lia].
    + intros k s0 Hk Hne (Ht & Hf & Hn & Hg). split_and!; simpl; done.
  - by rewrite Hm', <- Hm, Hp.
Qed.

(** The consumer moves the value out of the slot it owns. *)
Lemma sinv_cons_take c s v :
  sinv c → c_cons c = CMove → buffer (c_ring c) !! pos (c_reads c) = Some s → data s = Some v →
  sinv (mkCfg (set_slot (c_ring c) (lastRead (c_ring c)) (mkSlot (Some (moved_from v)) (ticket s)))
          (c_prod c) (CPublish v) (c_hist c) (c_reads c)).
Proof using HB.
  intros Hi Hcm Hsl Hd. pose proof Hi as [Hl Hw Hs Hp Hpo Hc Hco].
  rewrite (c_slot c Hi) by (by rewrite Hcm). rewrite set_slot_nat.
  rewrite Hcm in Hco. specialize (Hco eq_refl).
  split; simpl; try done.
  - by rewrite length_insert.
  - eapply slots_insert; [done|lia| |exact Hs|].
    + destruct (Hs (c_reads c)) as (s0 & Hb0 & Ht0 & Hf0 & _); [lia|]. simplify_eq.
      specialize (Hf0 Hco). rewrite bool_decide_eq_true_2, Hcm in Hf0 by done. simpl in Hf0.
      split_and!; simpl; [done| |lia|lia]. rewrite bool_decide_eq_true_2 by done.
      split; [congruence|by eexists].
    + intros k s0 Hk Hne (Ht & Hf & Hn & Hg). split_and!; simpl; try done.
      rewrite bool_decide_eq_false_2 in Hf |- * by done. done.
  - by rewrite Hc, Hcm.
Qed.

(** The producer publishes. *)
Lemma sinv_publish c s v :
  sinv c → c_prod c = PPublish v → buffer (c_ring c) !! pos (length (c_hist c)) = Some s →
  sinv (mkCfg (set_slot (c_ring c) (lastWritten (c_ring c)) (mkSlot (data s) 1)) PReturn
          (c_cons c) (c_hist c ++ [v]) (c_reads c)).
Proof using HB.
  intros Hi Hcp Hsl. pose proof Hi as [Hl Hw Hs Hp Hpo Hc Hco].
  rewrite (p_slot c Hi) by (by rewrite Hcp). rewrite set_slot_nat.
  rewrite Hcp in Hpo. specialize (Hpo eq_refl).
  split; simpl; rewrite ?length_app; simpl; try done; try lia.
  - by rewrite length_insert.
  - eapply slots_insert; [done|lia| |exact Hs|].
    + destruct (Hs (length (c_hist c))) as (s0 & Hb0 & _ & _ & Hn & _); [lia|]. simplify_eq.
      specialize (Hn eq_refl). rewrite Hcp in Hn. simpl in Hn.
      split_and!; simpl; rewrite length_app; simpl; [|intros _|lia|lia].
      * by rewrite bool_decide_eq_true_2 by lia.
      * rewrite lookup_snoc_new, Hn. destruct (bool_decide (_ = c_reads c)) eqn:E; [|done].
        apply bool_decide_eq_true in E. destruct (c_cons c); simpl in *; try done.
        specialize (Hco eq_refl). lia.
    + intros k s0 Hk Hne (Ht & Hf & Hn & Hg). split_and!; simpl; rewrite ?length_app; simpl.
      * rewrite Ht. destruct (bool_decide_reflect (k < length (c_hist c))%nat).
        -- by rewrite bool_decide_eq_true_2 by lia.
        -- by rewrite bool_decide_eq_false_2 by lia.
      * intros Hlt. rewrite lookup_app_l by lia. apply Hf. lia.
      * intros ->. apply Hg. lia.
      * intros. apply Hg. lia.
  - rewrite Hp, Hcp. simpl. by rewrite Nat.add_0_r.
Qed.

(** The consumer gives the slot back: it now serves ticket [reads + N]. *)
Lemma sinv_release c s v :
  sinv c → c_cons c = CPublish v → buffer (c_ring c) !! pos (c_reads c) = Some s →
  sinv (mkCfg (set_slot (c_ring c) (lastRead (c_ring c)) (mkSlot (data s) 0)) (c_prod c)
          (CReturn v) (c_hist c) (S (c_reads c))).
Proof using HB.
  intros Hi Hcm Hsl. pose proof Hi as [Hl Hw Hs Hp Hpo Hc Hco].
  rewrite (c_slot c Hi) by (by rewrite Hcm). rewrite set_slot_nat.
  rewrite Hcm in Hco. specialize (Hco eq_refl).
  assert (is_Some (data s)) as Hd.
  { destruct (Hs (c_reads c)) as (s0 & Hb0 & _ & Hf0 & _); [lia|]. simplify_eq.
    specialize (Hf0 Hco). rewrite bool_decide_eq_true_2, Hcm in Hf0 by done. apply Hf0. }
  split; simpl; try done; try lia.
  - by rewrite length_insert.
  - rewrite <- pos_round.
    eapply (slots_insert _ (S (c_reads c)) _ _ (λ k s, k ≠ (c_reads c + N)%nat → slot_ok c k s));
      [done|lia| | |].
    + split_and!; simpl; [|lia| |done].
      * by rewrite bool_decide_eq_false_2 by lia.
      * intros He. specialize (Hpo). destruct (c_prod c); simpl in *; try done;
          specialize (Hpo eq_refl); lia.
    + intros k Hk. destruct (decide (k = c_reads c + N)%nat) as [->|Hne].
      * rewrite pos_round. by exists s.
      * destruct (Hs k) as (s0 & Hb0 & Hok); [lia|]. exists s0. done.
    + intros k s0 Hk Hne Hok. destruct (Hok Hne) as (Ht & Hf & Hn & Hg).
      split_and!; simpl; try done. rewrite bool_decide_eq_false_2 in Hf by lia.
      intros Hlt. specialize (Hf Hlt). rewrite Hf. by destruct (bool_decide (k = S _)).
  - rewrite Hc, Hcm. simpl. do 2 f_equal. lia.
Qed.

(** The slots under the two cursors. *)
Lemma p_slot_lookup c :
  sinv c → p_moved (c_prod c) = 1%nat →
  ∃ s, get_slot (c_ring c) (lastWritten (c_ring c)) = Some s ∧
       buffer (c_ring c) !! pos (length (c_hist c)) = Some s ∧
       (ticket s = 0 → (length (c_hist c) < c_reads c + N)%nat) ∧
       ((length (c_hist c) < c_reads c + N)%nat → ticket s = 0 ∧ p_data (c_prod c) (data s)).
Proof using HB.
  intros Hi Hm. pose proof (si_win _ Hi) as Hw. rewrite (p_slot c Hi Hm), get_slot_nat.
  destruct (decide (length (c_hist c) = c_reads c + N)%nat) as [He|Hne].
  - destruct (si_slot _ Hi (c_reads c)) as (s & Hb & Ht & _); [lia|]. exists s.
    rewrite He, pos_round. split_and!; [done|done| |lia].
    rewrite Ht, bool_decide_eq_true_2 by lia. done.
  - destruct (si_slot _ Hi (length (c_hist c))) as (s & Hb & Ht & _ & Hn & _); [lia|]. exists s.
    rewrite bool_decide_eq_false_2 in Ht by lia. split_and!; [done|done|lia|auto].
Qed.

Lemma c_slot_lookup c :
  sinv c → c_moved (c_cons c) = 1%nat →
  ∃ s, get_slot (c_ring c) (lastRead (c_ring c)) = Some s ∧
       buffer (c_ring c) !! pos (c_reads c) = Some s ∧
       (ticket s ≠ 0 → (c_reads c < length (c_hist c))%nat) ∧
       ((c_reads c < length (c_hist c))%nat →
          ticket s = 1 ∧ c_data (c_cons c) (c_hist c !! c_reads c) (data s)).
Proof using HB.
  intros Hi Hm. rewrite (c_slot c Hi Hm), get_slot_nat. pose proof N_pos.
  destruct (si_slot _ Hi (c_reads c)) as (s & Hb & Ht & Hf & _); [lia|]. exists s.
  destruct (bool_decide_reflect (c_reads c < length (c_hist c))%nat) as [Hlt|Hge].
  - specialize (Hf Hlt). rewrite bool_decide_eq_true_2 in Hf by done. done.
  - split_and!; [done|done|lia|lia].
Qed.

Lemma ring_eta (r : ring A) : mkRing (buffer r) (lastRead r) (lastWritten r) = r.
Proof. by destruct r. Qed.

Lemma sinv_enqueue c r' p' :
  sinv c → step_enqueue BUFFER_SIZE (c_ring c) (c_prod c) = Some (r', p') →
  sinv (mkCfg r' p' (c_cons c) (log_publish (c_prod c) (c_hist c)) (c_reads c)).
Proof using HB.
  intros Hi Hs. pose proof (p_slot_lookup c Hi) as Hsl. pose proof (si_prod _ Hi) as Hp.
  pose proof (si_pown _ Hi) as Ho.
  destruct (c_prod c) as [|k v|k v|k v|v|v|] eqn:Hpc; simpl in *; try done.
  1: { rewrite Nat.add_0_r in Hp. rewrite Hp, advance_pos in Hs. simplify_eq/=.
       apply sinv_prod_local; simpl; rewrite ?Hpc; try done. by rewrite Nat.add_1_r. }
  all: destruct (Hsl eq_refl) as (s & Hg & Hb & Ht & _); rewrite Hg in Hs; simpl in Hs.
  - simplify_eq/=. rewrite <- (ring_eta (c_ring c)).
    destruct (Z.eqb_spec (ticket s) 0); simpl; apply sinv_prod_local; simpl; rewrite ?Hpc; auto.
  - destruct k; step_inv Hs; by apply sinv_prod_write; simpl; rewrite ?Hpc; eauto.
  - step_inv Hs. by apply sinv_prod_write; simpl; rewrite ?Hpc.
  - simplify_eq/=. by apply sinv_publish.
Qed.

Lemma sinv_dequeue c r' p' :
  sinv c → step_dequeue BUFFER_SIZE (c_ring c) (c_cons c) = Some (r', p') →
  sinv (mkCfg r' (c_prod c) p' (c_hist c) (log_take (c_cons c) (c_reads c))).
Proof using HB.
  intros Hi Hs. pose proof (c_slot_lookup c Hi) as Hsl. pose proof (si_cons _ Hi) as Hp.
  destruct (c_cons c) as [| | | |v|v] eqn:Hpc; simpl in *; try done.
  1: { rewrite Nat.add_0_r in Hp. rewrite Hp, advance_pos in Hs. simplify_eq/=.
       apply sinv_cons_local; simpl; rewrite ?Hpc; try done. by rewrite Nat.add_1_r. }
  all: destruct (Hsl eq_refl) as (s & Hg & Hb & Ht & _); rewrite Hg in Hs; simpl in Hs.
  - simplify_eq/=. rewrite <- (ring_eta (c_ring c)).
    destruct (Z.eqb_spec (ticket s) 0); simpl; apply sinv_cons_local; simpl; rewrite ?Hpc; auto.
  - step_inv Hs. by apply sinv_cons_take.
  - simplify_eq/=. by apply sinv_release.
Qed.

Lemma sinv_exec c a c' : sinv c → exec BUFFER_SIZE c a = Some c' → sinv c'.
Proof using HB.
  intros Hi He. pose proof (si_prod _ Hi) as Hp. pose proof (si_cons _ Hi) as Hc.
  destruct a; simpl in He; step_inv He; try (rewrite <- (ring_eta (c_ring c)));
    try (apply sinv_prod_local || apply sinv_cons_local; simpl; rewrite ?E; auto; done).
  - destruct p as [r' p']. by apply sinv_enqueue.
  - destruct p as [r' p']. by apply sinv_dequeue.
Qed.

Lemma sinv_init a0 : sinv (init_cfg BUFFER_SIZE a0).
Proof using HB.
  pose proof N_pos. split; simpl; try done; try lia.
  - apply length_replicate.
  - intros k Hk. eexists. split.
    + apply lookup_replicate_2. by apply Nat.mod_upper_bound; lia.
    + split_and!; simpl; [done|lia|by eexists|by eexists].
  - by rewrite Nat.Div0.mod_0_l.
  - by rewrite Nat.Div0.mod_0_l.
Qed.

Lemma sinv_reachable a0 c :
  reachable (M := spsc_machine BUFFER_SIZE) (λ c, c = init_cfg BUFFER_SIZE a0) c → sinv c.
Proof using HB.
  revert c. apply (invariant (M := spsc_machine BUFFER_SIZE)).
  - intros c ->. apply sinv_init.
  - intros c a c' _. by apply sinv_exec.
Qed.
End Invariant.
