(* ===== verification/SpscTheorems.v ===== *)
(** * spscRingBuffer: the theorems

    The abstract specification is a bounded FIFO queue with one producer and
    one consumer; the ring refines it with all [BUFFER_SIZE] slots usable. *)

From Stdlib Require Import ZArith Lia.
From S2P Require Import Prelude MachineInt Lts AtomicRingBuffer SpscRingBuffer SpscInvariant.
Import Spsc.
Local Open Scope Z_scope.
Local Open Scope astra_scope.

(** ** The bounded queue *)

Section BoundedQueue.
Context {A : Type} (capacity : nat).

Inductive bevent :=
| EvEnq (v : A)
| EvEnqRet
| EvDeq
| EvDeqRet (v : A).

Inductive bprod := BPIdle | BPEnq (v : A) | BPDone.
Inductive bcons := BCIdle | BCDeq | BCDone (v : A).

Record bstate := BState { b_items : list A; b_prod : bprod; b_cons : bcons }.

(** [enqueue] waits for room, [dequeue] for an item. *)
Inductive bstep : bstate → list bevent → bstate → Prop :=
| b_enq_call q k v : bstep (BState q BPIdle k) [EvEnq v] (BState q (BPEnq v) k)
| b_enq q k v :
    (length q < capacity)%nat → bstep (BState q (BPEnq v) k) [] (BState (q ++ [v]) BPDone k)
| b_enq_ret q k : bstep (BState q BPDone k) [EvEnqRet] (BState q BPIdle k)
| b_deq_call q p : bstep (BState q p BCIdle) [EvDeq] (BState q p BCDeq)
| b_deq q p v : bstep (BState (v :: q) p BCDeq) [] (BState q p (BCDone v))
| b_deq_ret q p v : bstep (BState q p (BCDone v)) [EvDeqRet v] (BState q p BCIdle).

Definition bounded_spec : spec := Spec bstate bevent bstep.
End BoundedQueue.

Arguments bevent : clear implicits.
Arguments bstate : clear implicits.

Section Theorems.
Context {A : Type} `{!Elem A} (BUFFER_SIZE : Z).
Context (HB : 1 <= BUFFER_SIZE <= INT_MAX) (a0 : A).
Abbreviation N := (Z.to_nat BUFFER_SIZE).
Abbreviation machine := (spsc_machine (A := A) BUFFER_SIZE).
Abbreviation fresh := (λ c, c = init_cfg BUFFER_SIZE a0).

(** What the callers see. *)
Definition obs (c : cfg A) (a : act A) : list (bevent A) :=
  match a with
  | PCall _ v => [EvEnq v]
  | PRet => [EvEnqRet]
  | CCall => [EvDeq]
  | CRet => match c_cons c with CReturn v => [EvDeqRet v] | _ => [] end
  | _ => []
  end.

Definition abs_prod (p : ppc A) : bprod :=
  match p with
  | PIdle => BPIdle
  | PReturn => BPDone
  | PAdvance _ v | PSpin _ v | PWrite _ v | PConstruct v | PPublish v => BPEnq v
  end.

Definition abs_cons (p : cpc A) : bcons :=
  match p with CIdle => BCIdle | CReturn v => BCDone v | _ => BCDeq end.

(** The published values that were not taken yet. *)
Definition items (c : cfg A) : list A := drop (c_reads c) (c_hist c).
Definition abs (c : cfg A) : bstate A := BState (items c) (abs_prod (c_prod c)) (abs_cons (c_cons c)).

Lemma length_items c : length (items c) = (length (c_hist c) - c_reads c)%nat.
Proof. apply length_drop. Qed.

(** The producer's and the consumer's steps, in the abstract queue. *)
Lemma abs_enqueue c r' p' :
  sinv BUFFER_SIZE c → step_enqueue BUFFER_SIZE (c_ring c) (c_prod c) = Some (r', p') →
  sp_run (S := bounded_spec N) (abs c) []
    (abs (mkCfg r' p' (c_cons c) (log_publish (c_prod c) (c_hist c)) (c_reads c))).
Proof using HB.
  intros Hi Hs. pose proof (si_pown _ _ Hi) as Ho. pose proof (si_win _ _ Hi) as Hw.
  unfold abs, items. simpl.
  destruct (c_prod c) as [|k v|k v|k v|v|v|]; simpl in *; try done.
  all: try (destruct k); step_inv Hs; try apply sp_nil.
  - destruct (negb _); apply sp_nil.
  - destruct (negb _); apply sp_nil.
  - apply sp_one. rewrite drop_snoc_le by lia. apply b_enq. rewrite length_drop.
    specialize (Ho eq_refl). lia.
Qed.

Lemma abs_dequeue c r' p' :
  sinv BUFFER_SIZE c → step_dequeue BUFFER_SIZE (c_ring c) (c_cons c) = Some (r', p') →
  sp_run (S := bounded_spec N) (abs c) []
    (abs (mkCfg r' (c_prod c) p' (c_hist c) (log_take (c_cons c) (c_reads c)))).
Proof using HB.
  intros Hi Hs. pose proof (c_slot_lookup _ HB c Hi) as Hsl. pose proof (si_cown _ _ Hi) as Ho.
  unfold abs, items. simpl.
  destruct (c_cons c) as [| | | |v|v]; simpl in *; try done.
  all: step_inv Hs; try apply sp_nil.
  - destruct (_ =? _); apply sp_nil.
  - apply sp_one. destruct (Hsl eq_refl) as (s' & _ & _ & _ & Hd).
    destruct (Hd (Ho eq_refl)) as [_ [Hx _]].
    rewrite (drop_S _ _ _ Hx). apply b_deq.
Qed.

Lemma abs_simulates :
  simulates (S := bounded_spec N) (M := machine) obs (λ c q, sinv BUFFER_SIZE c ∧ q = abs c).
Proof using HB.
  intros c a c' q [Hi ->] He. exists (abs c'). simpl in He.
  split; [|split; [by eapply sinv_exec|done]].
  destruct a; simpl in He; step_inv He; unfold abs, items; simpl; rewrite ?E; simpl.
  - apply sp_one, b_enq_call.
  - destruct p as [r' p']. exact (abs_enqueue c r' p' Hi E).
  - apply sp_one, b_enq_ret.
  - apply sp_one, b_deq_call.
  - destruct p as [r' p']. exact (abs_dequeue c r' p' Hi E).
  - apply sp_one, b_deq_ret.
Qed.

(** C13. Refinement: whatever the interleaving of the producer and the consumer,
    the calls and returns they observe are a history of a FIFO queue of
    capacity [BUFFER_SIZE] in which each operation takes effect at one instant
    between its call and its return.  It holds for every size from 1 on, not
    only powers of two. *)
Theorem spsc_linearizable σ c :
  run (M := machine) (init_cfg BUFFER_SIZE a0) σ = Some c →
  sp_run (S := bounded_spec N) (BState [] BPIdle BCIdle)
    (run_obs (S := bounded_spec N) (M := machine) obs (init_cfg BUFFER_SIZE a0) σ) (abs c).
Proof using HB.
  intros Hr.
  destruct (simulates_run (bounded_spec N) machine obs _ _ _ _ _ abs_simulates
    (conj (sinv_init _ HB a0) eq_refl) Hr) as (q & Hq & _ & ->).
  exact Hq.
Qed.

(** *** Safety *)

Definition p_active (p : ppc A) : bool := match p with PIdle | PReturn => false | _ => true end.
Definition c_active (p : cpc A) : bool := match p with CIdle | CReturn _ => false | _ => true end.

(** The slot whose [data] the next step of each side reads or writes. *)
Definition p_touches (c : cfg A) : option Z :=
  match c_prod c with PWrite _ _ | PConstruct _ => Some (lastWritten (c_ring c)) | _ => None end.
Definition c_touches (c : cfg A) : option Z :=
  match c_cons c with CMove => Some (lastRead (c_ring c)) | _ => None end.

Lemma p_total c :
  sinv BUFFER_SIZE c → p_active (c_prod c) = true →
  is_Some (step_enqueue BUFFER_SIZE (c_ring c) (c_prod c)).
Proof using HB.
  intros Hi Ha. pose proof (p_slot_lookup _ HB c Hi) as Hsl. pose proof (si_prod _ _ Hi) as Hp.
  pose proof (si_pown _ _ Hi) as Ho.
  destruct (c_prod c) as [|k v|k v|k v|v|v|]; simpl in *; try done.
  1: { rewrite Nat.add_0_r in Hp. rewrite Hp, advance_pos by done. by eexists. }
  all: destruct (Hsl eq_refl) as (s & Hg & _ & _ & Hd); rewrite Hg; simpl; try (by eexists).
  - destruct (Hd (Ho eq_refl)) as [_ [d Hd']]. rewrite Hd'.
    destruct k; [by eexists|]. destruct trivially_destructible; by eexists.
  - destruct (Hd (Ho eq_refl)) as [_ Hd']. rewrite Hd'. by eexists.
Qed.

Lemma c_total c :
  sinv BUFFER_SIZE c → c_active (c_cons c) = true →
  is_Some (step_dequeue BUFFER_SIZE (c_ring c) (c_cons c)).
Proof using HB.
  intros Hi Ha. pose proof (c_slot_lookup _ HB c Hi) as Hsl. pose proof (si_cons _ _ Hi) as Hp.
  pose proof (si_cown _ _ Hi) as Ho.
  destruct (c_cons c) as [| | | |v|v]; simpl in *; try done.
  1: { rewrite Nat.add_0_r in Hp. rewrite Hp, advance_pos by done. by eexists. }
  all: destruct (Hsl eq_refl) as (s & Hg & _ & _ & Hd); rewrite Hg; simpl; try (by eexists).
  specialize (Ho eq_refl). destruct (Hd Ho) as [_ Hd']. apply lookup_lt_is_Some in Ho as [x Hx].
  rewrite Hd', Hx. by eexists.
Qed.

(** Safety: in every reachable configuration both sides can take their next
    step without undefined behaviour (slot index in bounds, live objects where
    they are assigned, destroyed or moved from, no [int] overflow of a cursor),
    and they never access the [data] of the same slot at the same time. *)
Theorem spsc_safe c :
  reachable (M := machine) fresh c →
  (p_active (c_prod c) = true → is_Some (exec BUFFER_SIZE c PRun)) ∧
  (c_active (c_cons c) = true → is_Some (exec BUFFER_SIZE c CRun)) ∧
  (∀ i, p_touches c = Some i → c_touches c ≠ Some i).
Proof using HB.
  intros Hi%sinv_reachable; [|done]. split_and!.
  - intros Ha. destruct (p_total c Hi Ha) as [x Hx]. simpl. rewrite Hx. by eexists.
  - intros Ha. destruct (c_total c Hi Ha) as [x Hx]. simpl. rewrite Hx. by eexists.
  - unfold p_touches, c_touches. intros i Hp Hc.
    assert (p_moved (c_prod c) = 1%nat ∧ p_owns (c_prod c) = true) as [Hm Ho] by (by destruct (c_prod c)).
    assert (c_moved (c_cons c) = 1%nat ∧ c_owns (c_cons c) = true) as [Hm' Ho'] by (by destruct (c_cons c)).
    assert (lastWritten (c_ring c) = lastRead (c_ring c)) as He by (destruct (c_prod c), (c_cons c); congruence).
    rewrite (p_slot _ c Hi Hm), (c_slot _ c Hi Hm') in He. apply Nat2Z.inj in He.
    pose proof (si_pown _ _ Hi Ho). pose proof (si_cown _ _ Hi Ho').
    assert (length (c_hist c) = c_reads c); [|lia].
    by apply (pos_inj BUFFER_SIZE HB (c_reads c)); [lia|lia|].
Qed.

(** *** Blocking and progress *)

Lemma cfg_eta (c : cfg A) : mkCfg (c_ring c) (c_prod c) (c_cons c) (c_hist c) (c_reads c) = c.
Proof. by destruct c. Qed.

(** Blocking: a producer that spins stays where it is exactly when all
    [BUFFER_SIZE] slots hold values that were not taken, and a consumer that
    spins exactly when there is no value. *)
Theorem spsc_blocks_iff c :
  reachable (M := machine) fresh c →
  (∀ k v, c_prod c = PSpin k v →
     (exec BUFFER_SIZE c PRun = Some c ↔ Z.of_nat (length (items c)) = BUFFER_SIZE)) ∧
  (c_cons c = CSpin → (exec BUFFER_SIZE c CRun = Some c ↔ items c = [])).
Proof using HB.
  intros Hi%sinv_reachable; [|done]. pose proof (si_win _ _ Hi) as Hw. split.
  - intros k v Hp. destruct (p_slot_lookup _ HB c Hi) as (s & Hg & _ & Ht & Ht'); [by rewrite Hp|].
    rewrite length_items. simpl. rewrite Hp. simpl. rewrite Hg. simpl.
    destruct (Z.eqb_spec (ticket s) 0) as [H0|H0]; simpl.
    + specialize (Ht H0). split; [|lia]. intros [= H]. rewrite <- H in Hp. done.
    + rewrite <- Hp, cfg_eta. split; [intros _|done].
      destruct (decide (length (c_hist c) < c_reads c + N)%nat) as [Hlt|]; [by destruct (Ht' Hlt)|lia].
  - intros Hp. destruct (c_slot_lookup _ HB c Hi) as (s & Hg & _ & Ht & Ht'); [by rewrite Hp|].
    rewrite <- (length_zero_iff_nil (items c)), length_items. simpl. rewrite Hp. simpl. rewrite Hg. simpl.
    destruct (Z.eqb_spec (ticket s) 0) as [H0|H0]; simpl.
    + rewrite <- Hp, cfg_eta. split; [intros _|done].
      destruct (decide (c_reads c < length (c_hist c))%nat) as [Hlt|]; [|lia].
      destruct (Ht' Hlt). congruence.
    + specialize (Ht H0). split; [|lia]. intros [= H]. rewrite <- H in Hp. done.
Qed.

(** Where the next step leads when there is room, resp. a value. *)
Definition p_next (p : ppc A) : ppc A :=
  match p with
  | PAdvance k v => PSpin k v
  | PSpin k v => PWrite k v
  | PWrite EnqMove v => PPublish v
  | PWrite EnqEmplace v => if trivially_destructible then PPublish v else PConstruct v
  | PConstruct v => PPublish v
  | PPublish _ => PReturn
  | _ => p
  end.

Definition c_next (x : option A) (p : cpc A) : cpc A :=
  match p, x with
  | CAdvance, _ => CSpin
  | CSpin, _ => CMove
  | CMove, Some v => CPublish v
  | CPublish v, _ => CReturn v
  | _, _ => p
  end.

Lemma p_progress c :
  sinv BUFFER_SIZE c → p_active (c_prod c) = true → (length (items c) < N)%nat →
  ∃ r', exec BUFFER_SIZE c PRun = Some (mkCfg r' (p_next (c_prod c)) (c_cons c)
          (log_publish (c_prod c) (c_hist c)) (c_reads c)).
Proof using HB.
  intros Hi Ha Hr. destruct (p_total c Hi Ha) as [[r' p'] Hs]. exists r'. simpl. rewrite Hs. simpl.
  do 2 f_equal. pose proof (p_slot_lookup _ HB c Hi) as Hsl. rewrite length_items in Hr.
  destruct (c_prod c) as [|k v|k v|k v|v|v|]; simpl in *; try done.
  2: { destruct (Hsl eq_refl) as (s & Hg & _ & _ & Ht). rewrite Hg in Hs. simpl in Hs.
       destruct Ht as [Ht _]; [lia|]. rewrite Ht in Hs. by simplify_eq/=. }
  all: try (destruct k); step_inv Hs; done.
Qed.

Lemma c_progress c v q :
  sinv BUFFER_SIZE c → c_active (c_cons c) = true → items c = v :: q →
  ∃ r', exec BUFFER_SIZE c CRun = Some (mkCfg r' (c_prod c) (c_next (Some v) (c_cons c))
          (c_hist c) (log_take (c_cons c) (c_reads c))).
Proof using HB.
  intros Hi Ha Hq. destruct (c_total c Hi Ha) as [[r' p'] Hs]. exists r'. simpl. rewrite Hs. simpl.
  do 2 f_equal. pose proof (c_slot_lookup _ HB c Hi) as Hsl.
  assert (c_hist c !! c_reads c = Some v ∧ (c_reads c < length (c_hist c))%nat) as [Hx Hlt].
  { pose proof (lookup_drop (c_hist c) (c_reads c) 0) as Hd. unfold items in Hq.
    rewrite Hq, Nat.add_0_r in Hd. split; [done|]. by eapply lookup_lt_Some. }
  destruct (c_cons c) as [| | | |v'|v']; simpl in *; try done.
  all: try (destruct (Hsl eq_refl) as (s & Hg & _ & _ & Ht); rewrite Hg in Hs; simpl in Hs;
    destruct (Ht Hlt) as [H1 H2]; simpl in H2).
  - by step_inv Hs.
  - rewrite H1 in Hs. by simplify_eq/=.
  - rewrite H2, Hx in Hs. by simplify_eq/=.
  - by simplify_eq/=.
Qed.

(** The number of steps of an [enqueue] that finds room. *)
Definition p_steps (k : enq_kind) : nat :=
  match k with EnqMove => 4 | EnqEmplace => if trivially_destructible then 4 else 5 end.

Lemma p_chain n c :
  sinv BUFFER_SIZE c → (length (items c) < N)%nat →
  (∀ j, (j < n)%nat → p_active (Nat.iter j p_next (c_prod c)) = true) →
  (∀ j, (j < n)%nat → ∀ v, Nat.iter j p_next (c_prod c) = PPublish v → S j = n) →
  ∃ c', run (M := machine) c (replicate n PRun) = Some c' ∧ sinv BUFFER_SIZE c' ∧
    c_prod c' = Nat.iter n p_next (c_prod c) ∧ c_cons c' = c_cons c ∧ c_reads c' = c_reads c ∧
    c_hist c' = match n with O => c_hist c | S j => log_publish (Nat.iter j p_next (c_prod c)) (c_hist c) end.
Proof using HB.
  intros Hi Hr. induction n as [|n IH]; intros Ha Hl.
  - exists c. done.
  - destruct IH as (c1 & Hrun & Hi1 & Hp & Hc & Hrd & Hh).
    + intros. apply Ha. lia.
    + intros j Hj v Hv. specialize (Hl j ltac:(lia) v Hv). lia.
    + assert (c_hist c1 = c_hist c) as Hh'.
      { destruct n as [|n]; [done|]. rewrite Hh.
        destruct (Nat.iter n p_next (c_prod c)) eqn:E; simpl; try done.
        specialize (Hl n ltac:(lia) _ E). lia. }
      destruct (p_progress c1 Hi1) as [r' He].
      * rewrite Hp. apply Ha. lia.
      * unfold items in *. by rewrite Hh', Hrd.
      * eexists. rewrite replicate_S_end, run_app, Hrun. cbn [run m_exec machine spsc_machine].
        rewrite He. split; [done|]. split; [by eapply sinv_exec|]. simpl.
        by rewrite Hp, Hh'.
Qed.

Lemma p_iter k v j :
  (j < p_steps k)%nat →
  p_active (Nat.iter j p_next (PAdvance k v)) = true ∧
  (∀ w, Nat.iter j p_next (PAdvance k v) = PPublish w → S j = p_steps k ∧ w = v) ∧
  Nat.iter (p_steps k) p_next (PAdvance k v) = PReturn ∧
  Nat.iter (p_steps k - 1) p_next (PAdvance k v) = PPublish v.
Proof.
  unfold p_steps. destruct k; [|destruct trivially_destructible eqn:Ht]; intros Hj;
    do 5 (destruct j as [|j]; [simpl; rewrite ?Ht; simpl; split_and!; try done;
      try (intros w Hw; by simplify_eq)|]); lia.
Qed.

(** [enqueue] and [emplaceEnqueue] complete: called by an idle producer
    while fewer than [BUFFER_SIZE] values are queued, the call returns after
    4 of its own steps (5 when the old object must be destroyed first), with
    the value appended. *)
Theorem spsc_enqueue_completes c k v :
  reachable (M := machine) fresh c → c_prod c = PIdle → Z.of_nat (length (items c)) < BUFFER_SIZE →
  ∃ c', run (M := machine) c (PCall k v :: replicate (p_steps k) PRun ++ [PRet]) = Some c' ∧
        items c' = items c ++ [v] ∧ c_prod c' = PIdle ∧ c_cons c' = c_cons c.
Proof using HB.
  intros Hi%sinv_reachable Hp Hr; [|done]. pose proof (si_win _ _ Hi) as Hw.
  set (c1 := mkCfg (c_ring c) (PAdvance k v) (c_cons c) (c_hist c) (c_reads c)).
  assert (exec BUFFER_SIZE c (PCall k v) = Some c1) as He by (simpl; by rewrite Hp).
  destruct (p_chain (p_steps k) c1) as (c2 & Hrun & Hi2 & Hp2 & Hc2 & Hr2 & Hh2).
  - by eapply sinv_exec.
  - unfold items in *. simpl. lia.
  - intros j Hj. by apply p_iter.
  - intros j Hj w Hw'. by apply (p_iter k v j Hj) in Hw' as [? _].
  - destruct (p_iter k v 0) as (_ & _ & Hend & Hlast).
    { unfold p_steps. destruct k; [lia|]. destruct trivially_destructible; lia. }
    simpl in Hp2. rewrite Hend in Hp2.
    eexists. cbn [run m_exec machine spsc_machine]. rewrite He, run_app, Hrun.
    cbn [run m_exec machine spsc_machine exec]. rewrite Hp2. split; [done|]. split_and!; try done.
    unfold items. simpl. rewrite Hr2, Hh2. unfold p_steps in *. simpl.
    destruct k; [|destruct trivially_destructible]; simpl in *;
      rewrite ?Hlast; simpl; by rewrite drop_snoc_le by lia.
Qed.

(** [dequeue] completes: called by an idle consumer while the oldest queued
    value is [v], it returns [v] after 4 of its own steps and leaves the rest of
    the queue. *)
Theorem spsc_dequeue_completes c v q :
  reachable (M := machine) fresh c → c_cons c = CIdle → items c = v :: q →
  ∃ c', run (M := machine) c (CCall :: replicate 4 CRun) = Some c' ∧
        c_cons c' = CReturn v ∧ items c' = q ∧ c_prod c' = c_prod c.
Proof using HB.
  intros Hi%sinv_reachable Hp Hq; [|done].
  set (c1 := mkCfg (c_ring c) (c_prod c) CAdvance (c_hist c) (c_reads c)).
  assert (exec BUFFER_SIZE c CCall = Some c1) as He by (simpl; by rewrite Hp).
  assert (sinv BUFFER_SIZE c1) as Hi1 by (by eapply sinv_exec).
  destruct (c_progress c1 v q Hi1 eq_refl Hq) as [r2 H2].
  pose proof (sinv_exec _ HB _ _ _ Hi1 H2) as Hi2.
  destruct (c_progress _ v q Hi2 eq_refl Hq) as [r3 H3].
  pose proof (sinv_exec _ HB _ _ _ Hi2 H3) as Hi3.
  destruct (c_progress _ v q Hi3 eq_refl Hq) as [r4 H4].
  pose proof (sinv_exec _ HB _ _ _ Hi3 H4) as Hi4.
  destruct (c_progress _ v q Hi4 eq_refl Hq) as [r5 H5].
  eexists. cbn [run m_exec machine spsc_machine replicate]. rewrite He, H2, H3, H4, H5.
  split; [done|]. split_and!; try done. unfold items in *. simpl.
  rewrite <- Nat.add_1_r, <- drop_drop, Hq. done.
Qed.
End Theorems.

(** ** A concrete run: capacity 1, handles with a destructor *)

Definition ex_sched : list (act (option Z)) :=
  [PCall EnqEmplace (Some 5); PRun; PRun; PRun; PRun; PRun; PRet;
   PCall EnqMove (Some 6); PRun; PRun; CCall; CRun; CRun; CRun].
Definition no_cfg : cfg (option Z) := mkCfg (mkRing [] 0 0) PIdle CIdle [] 0.
Definition ex_at (k : nat) : cfg (option Z) :=
  default no_cfg (run (M := spsc_machine 1) (init_cfg 1 None) (take k ex_sched)).

Lemma ex_spsc_reach k :
  run (M := spsc_machine 1) (init_cfg 1 None) (take k ex_sched) = Some (ex_at k) →
  reachable (M := spsc_machine 1) (λ c, c = init_cfg 1 None) (ex_at k).
Proof. apply run_reachable. by apply reach_init. Qed.

Lemma spsc_linearizable_witness :
  run_obs (S := bounded_spec 1) (M := spsc_machine 1) obs (init_cfg 1 None) (take 11 ex_sched) =
    [EvEnq (Some 5); EvEnqRet; EvEnq (Some 6); EvDeq] ∧
  abs (ex_at 11) = BState [Some 5] (BPEnq (Some 6)) BCDeq ∧
  sp_run (S := bounded_spec 1) (BState [] BPIdle BCIdle)
    (run_obs (S := bounded_spec 1) (M := spsc_machine 1) obs (init_cfg 1 None) (take 11 ex_sched))
    (abs (ex_at 11)).
Proof.
  split; [by vm_compute|]. split; [by vm_compute|].
  apply (spsc_linearizable 1 ltac:(unfold INT_MAX; lia) None (take 11 ex_sched) (ex_at 11)).
  by vm_compute.
Defined.

Lemma spsc_safe_witness :
  c_touches (ex_at 13) = Some 0 ∧ is_Some (exec 1 (ex_at 13) CRun).
Proof.
  split; [by vm_compute|].
  by apply (spsc_safe 1 ltac:(unfold INT_MAX; lia) None (ex_at 13)); [apply ex_spsc_reach; by vm_compute|].
Defined.

Lemma spsc_blocks_iff_witness : exec 1 (ex_at 10) PRun = Some (ex_at 10).
Proof.
  apply (proj1 (spsc_blocks_iff 1 ltac:(unfold INT_MAX; lia) None (ex_at 10)
    (ex_spsc_reach 10 ltac:(by vm_compute))) EnqMove (Some 6)); by vm_compute.
Defined.

Lemma spsc_enqueue_completes_witness :
  ∃ c', run (M := spsc_machine 1) (init_cfg 1 None)
          (PCall EnqEmplace (Some 9) :: replicate 5 PRun ++ [PRet]) = Some c' ∧
        items c' = [Some 9] ∧ c_prod c' = PIdle ∧ c_cons c' = CIdle.
Proof.
  destruct (spsc_enqueue_completes (A := option Z) 1 ltac:(unfold INT_MAX; lia) None (init_cfg 1 None)
    EnqEmplace (Some 9)) as (c' & Hr & Hq & Hp & Hc); [by apply reach_init|done|done|].
  exists c'. split_and!; [exact Hr|exact Hq|exact Hp|exact Hc].
Defined.

Lemma spsc_dequeue_completes_witness :
  ∃ c', run (M := spsc_machine 1) (ex_at 10) (CCall :: replicate 4 CRun) = Some c' ∧
        c_cons c' = CReturn (Some 5) ∧ items c' = [] ∧ c_prod c' = PSpin EnqMove (Some 6).
Proof.
  destruct (spsc_dequeue_completes 1 ltac:(unfold INT_MAX; lia) None (ex_at 10) (Some 5) [])
    as (c' & Hr & Hc & Hq & Hp); [apply ex_spsc_reach; by vm_compute|by vm_compute|by vm_compute|].
  exists c'. split_and!; [exact Hr|exact Hc|exact Hq|]. rewrite Hp. by vm_compute.
Defined.
