(* ===== verification/SpscTSO.v ===== *)
(** * spscRingBuffer under x86-TSO

    [enqueue] and [dequeue] of [src/include/AstraLib/Buffers/spscRingBuffer.hpp]
    contain no locked instruction and no fence: every store, to [data] and to
    [ticket], may stay in the store buffer of its thread while that thread goes on,
    even into later calls.  Here the two threads run with such buffers: a store is
    appended to the buffer of its thread, reaches memory in order at some later
    point ([PFlush], [CFlush]), and a load sees the own latest store to the same
    location first.  The cursors are used by one thread each.

    The elements are plain words ([std::move] copies, the destructor is trivial), so
    that [enqueue] and [emplaceEnqueue] perform the same accesses. *)

From Stdlib Require Import ZArith Lia.
From S2P Require Import Prelude MachineInt Lts SpscRingBuffer SpscInvariant.
Local Open Scope Z_scope.
Local Open Scope astra_scope.

Module SpscTSO.

Section Code.
Context (BUFFER_SIZE : Z).

Record slot := mkSlot { data : Z; ticket : Z }.

Inductive write := WData (i : nat) (v : Z) | WTicket (i : nat) (x : Z).

Definition commit (b : list slot) (w : write) : list slot :=
  match w with
  | WData i v => alter (λ s, mkSlot v (ticket s)) i b
  | WTicket i x => alter (λ s, mkSlot (data s) x) i b
  end.

(** The memory as a thread with buffer [ws] sees it. *)
Definition view (ws : list write) (b : list slot) : list slot := foldl commit b ws.

(** [buffer[index]] *)
Definition get (b : list slot) (index : Z) : option slot :=
  if index <? 0 then None else b !! Z.to_nat index.

Inductive ppc := PIdle | PAdvance (v : Z) | PSpin (v : Z) | PWrite (v : Z) | PPublish | PReturn.
Inductive cpc := CIdle | CAdvance | CSpin | CMove | CPublish (v : Z) | CReturn (v : Z).

(** [hist] and [out] are read by no code: the values written so far, and those
    taken. *)
Record cfg := mkCfg {
  buffer : list slot;
  lastRead : Z;
  lastWritten : Z;
  p_pc : ppc;
  p_buf : list write;
  c_pc : cpc;
  c_buf : list write;
  hist : list Z;
  out : list Z;
}.

(** One step of [enqueue]. *)
Definition enqueue (c : cfg) : option cfg :=
  let go lw p b h := Some (mkCfg (buffer c) (lastRead c) lw p b (c_pc c) (c_buf c) h (out c)) in
  let lw := lastWritten c in
  match p_pc c with
  | PAdvance v => let? x := Spsc.advance BUFFER_SIZE lw in go x (PSpin v) (p_buf c) (hist c)
  | PSpin v =>
      let? s := get (view (p_buf c) (buffer c)) lw in
      go lw (if negb (ticket s =? 0) then PSpin v else PWrite v) (p_buf c) (hist c)
  | PWrite v => go lw PPublish (p_buf c ++ [WData (Z.to_nat lw) v]) (hist c ++ [v])
  | PPublish => go lw PReturn (p_buf c ++ [WTicket (Z.to_nat lw) 1]) (hist c)
  | PIdle | PReturn => None
  end.

(** One step of [dequeue]. *)
Definition dequeue (c : cfg) : option cfg :=
  let go lr p b o := Some (mkCfg (buffer c) lr (lastWritten c) (p_pc c) (p_buf c) p b (hist c) o) in
  let lr := lastRead c in
  match c_pc c with
  | CAdvance => let? x := Spsc.advance BUFFER_SIZE lr in go x CSpin (c_buf c) (out c)
  | CSpin =>
      let? s := get (view (c_buf c) (buffer c)) lr in
      go lr (if ticket s =? 0 then CSpin else CMove) (c_buf c) (out c)
  | CMove =>
      let? s := get (view (c_buf c) (buffer c)) lr in
      go lr (CPublish (data s)) (c_buf c) (out c ++ [data s])
  | CPublish v => go lr (CReturn v) (c_buf c ++ [WTicket (Z.to_nat lr) 0]) (out c)
  | CIdle | CReturn _ => None
  end.

Inductive act := PCall (v : Z) | PRun | PRet | PFlush | CCall | CRun | CRet | CFlush.

Definition exec (c : cfg) (a : act) : option cfg :=
  let prod p := Some (mkCfg (buffer c) (lastRead c) (lastWritten c) p (p_buf c) (c_pc c) (c_buf c) (hist c) (out c)) in
  let cons p := Some (mkCfg (buffer c) (lastRead c) (lastWritten c) (p_pc c) (p_buf c) p (c_buf c) (hist c) (out c)) in
  match a with
  | PCall v => match p_pc c with PIdle => prod (PAdvance v) | _ => None end
  | PRun => enqueue c
  | PRet => match p_pc c with PReturn => prod PIdle | _ => None end
  | PFlush =>
      match p_buf c with
      | w :: b => Some (mkCfg (commit (buffer c) w) (lastRead c) (lastWritten c) (p_pc c) b (c_pc c) (c_buf c) (hist c) (out c))
      | [] => None
      end
  | CCall => match c_pc c with CIdle => cons CAdvance | _ => None end
  | CRun => dequeue c
  | CRet => match c_pc c with CReturn _ => cons CIdle | _ => None end
  | CFlush =>
      match c_buf c with
      | w :: b => Some (mkCfg (commit (buffer c) w) (lastRead c) (lastWritten c) (p_pc c) (p_buf c) (c_pc c) b (hist c) (out c))
      | [] => None
      end
  end.

Definition tso_machine : machine := Machine cfg act exec.

Definition init : cfg :=
  mkCfg (replicate (Z.to_nat BUFFER_SIZE) (mkSlot 0 0)) 0 0 PIdle [] CIdle [] [] [].
End Code.

(** ** Store buffers *)

(** The other stores in a buffer do not matter to a ticket that is not the one
    they all write. *)
Lemma view_ticket x ws b i s :
  (∀ j y, WTicket j y ∈ ws → y = x) → view ws b !! i = Some s → ticket s ≠ x →
  (∃ s0, b !! i = Some s0 ∧ ticket s0 = ticket s) ∧ ∀ y, WTicket i y ∉ ws.
Proof.
  revert b. induction ws as [|w ws IH]; intros b Hx Hv Ht; simpl in Hv.
  - split; [eauto|]. intros y Hy. by apply not_elem_of_nil in Hy.
  - destruct (IH (commit b w)) as [(s0 & Hs0 & Hs) Hn]; [|done|done|].
    { intros j y Hj. apply (Hx j). by right. }
    destruct w as [j v|j y]; simpl in Hs0; destruct (decide (j = i)) as [->|Hne].
    + rewrite list_lookup_alter_eq in Hs0. apply fmap_Some in Hs0 as (s1 & H1 & ->). split; [eauto|].
      intros y [?|?]%elem_of_cons; [done|by eapply Hn].
    + rewrite list_lookup_alter_ne in Hs0 by done. split; [eauto|]. intros y [?|?]%elem_of_cons; [done|by eapply Hn].
    + rewrite list_lookup_alter_eq in Hs0. apply fmap_Some in Hs0 as (s1 & H1 & ->). simpl in Hs.
      rewrite (Hx i y) in Hs by (by left). congruence.
    + rewrite list_lookup_alter_ne in Hs0 by done. split; [eauto|].
      intros y' [[= -> _]|?]%elem_of_cons; [done|by eapply Hn].
Qed.

Lemma view_data ws b i s :
  (∀ j v, WData j v ∉ ws) → view ws b !! i = Some s → ∃ s0, b !! i = Some s0 ∧ data s0 = data s.
Proof.
  revert b. induction ws as [|w ws IH]; intros b Hx Hv; simpl in Hv; [eauto|].
  destruct (IH (commit b w)) as (s0 & Hs0 & Hs); [|done|].
  { intros j v Hj. apply (Hx j v). by right. }
  destruct w as [j v|j y]; [destruct (Hx j v); by left|]. simpl in Hs0. destruct (decide (j = i)) as [->|Hne].
  - rewrite list_lookup_alter_eq in Hs0. apply fmap_Some in Hs0 as (s1 & H1 & ->). eauto.
  - rewrite list_lookup_alter_ne in Hs0 by done. eauto.
Qed.

Lemma length_commit b w : length (commit b w) = length b.
Proof. destruct w; apply length_alter. Qed.

Lemma length_view ws b : length (view ws b) = length b.
Proof. revert b. induction ws as [|w ws IH]; intros b; [done|]. simpl. by rewrite IH, length_commit. Qed.

(** ** The invariant

    [wm] values have reached memory with their ticket, [half] is 1 when the data of
    the next one has too, and [fc] slots have been seen free by memory.  The buffers
    hold the stores in between, in order. *)

Section Invariant.
Context (BUFFER_SIZE : Z) (HB : 1 <= BUFFER_SIZE <= INT_MAX).
Abbreviation N := (Z.to_nat BUFFER_SIZE).
Abbreviation pos := (SpscInvariant.pos BUFFER_SIZE).

Definition val (h : list Z) (k : nat) : Z := default 0 (h !! k).
Definition pwrites (h : list Z) (k : nat) : list write := [WData (pos k) (val h k); WTicket (pos k) 1].
Definition cwrite (k : nat) : write := WTicket (pos k) 0.

Definition pending (h : list Z) (wm half : nat) : list write :=
  drop half (concat (pwrites h <$> List.seq wm (length h - wm))).

(** The store that is about to be issued. *)
Definition p_next (c : cfg) : list write :=
  match p_pc c with PPublish => [WTicket (pos (length (hist c) - 1)) 1] | _ => [] end.
Definition c_next (c : cfg) : list write :=
  match c_pc c with CPublish _ => [cwrite (length (out c) - 1)] | _ => [] end.

Definition p_ahead (p : ppc) : nat := match p with PSpin _ | PWrite _ => 1 | _ => 0 end.
Definition c_ahead (p : cpc) : nat := match p with CSpin | CMove => 1 | _ => 0 end.

Record sbinv (c : cfg) (wm half fc : nat) : Prop := {
  sb_len : length (buffer c) = N;
  sb_pbuf : p_buf c ++ p_next c = pending (hist c) wm half;
  sb_cbuf : c_buf c ++ c_next c = cwrite <$> List.seq fc (length (out c) - fc);
  sb_half : (half ≤ 1 ∧ wm + half ≤ length (hist c))%nat;
  sb_read : (fc ≤ length (out c) ≤ wm)%nat;
  sb_room : (length (hist c) ≤ fc + N)%nat;
  sb_prod : lastWritten c = Z.of_nat ((length (hist c) + p_ahead (p_pc c)) mod N);
  sb_cons : lastRead c = Z.of_nat ((length (out c) + c_ahead (c_pc c)) mod N);
  sb_pnext : match p_pc c with PWrite _ => (length (hist c) < fc + N)%nat | PPublish => (0 < length (hist c))%nat | _ => True end;
  sb_cnext : match c_pc c with CMove => (length (out c) < wm)%nat | CPublish _ => (0 < length (out c))%nat | _ => True end;
  sb_slot : ∀ k, (fc ≤ k < fc + N)%nat → ∃ s, buffer c !! pos k = Some s ∧
    ticket s = (if bool_decide (k < wm)%nat then 1 else 0) ∧ ((k < wm + half)%nat → data s = val (hist c) k);
  sb_out : out c = take (length (out c)) (hist c);
}.

Lemma pending_cons h wm :
  (wm < length h)%nat →
  concat (pwrites h <$> List.seq wm (length h - wm)) =
  WData (pos wm) (val h wm) :: WTicket (pos wm) 1 :: pending h (S wm) 0.
Proof.
  intros Hw. unfold pending. replace (length h - wm)%nat with (S (length h - S wm)) by lia. done.
Qed.

Lemma val_snoc h v k : (k < length h)%nat → val (h ++ [v]) k = val h k.
Proof. intros Hk. unfold val. by rewrite lookup_app_l. Qed.

Lemma val_last h v : val (h ++ [v]) (length h) = v.
Proof. unfold val. by rewrite lookup_snoc_new. Qed.

Lemma pwrites_snoc h v wm :
  pwrites (h ++ [v]) <$> List.seq wm (length h - wm) = pwrites h <$> List.seq wm (length h - wm).
Proof.
  apply list_fmap_ext. intros i k Hk. apply lookup_seq in Hk as [-> Hk].
  unfold pwrites. by rewrite val_snoc by lia.
Qed.

Lemma pending_snoc h v wm half :
  (half ≤ 1)%nat → (wm + half ≤ length h)%nat →
  pending (h ++ [v]) wm half = pending h wm half ++ pwrites (h ++ [v]) (length h).
Proof.
  intros Hh Hw. unfold pending. rewrite length_app. simpl.
  replace (length h + 1 - wm)%nat with (length h - wm + 1)%nat by lia.
  rewrite seq_app, fmap_app, concat_app, pwrites_snoc. simpl. rewrite ?app_nil_r.
  replace (wm + (length h - wm))%nat with (length h) by lia.
  apply drop_app_le. destruct half as [|half]; [lia|]. rewrite pending_cons by lia. simpl. lia.
Qed.

Lemma pending_ticket h wm half k :
  (half ≤ 1)%nat → (wm ≤ k < length h)%nat → WTicket (pos k) 1 ∈ pending h wm half.
Proof.
  intros Hh Hk. remember (length h - wm)%nat as n eqn:Hn. revert wm half Hh Hk Hn.
  induction n as [|n IH]; intros wm half Hh Hk Hn; [lia|]. unfold pending. rewrite pending_cons by lia.
  assert (WTicket (pos k) 1 ∈ WTicket (pos wm) 1 :: pending h (S wm) 0) as Hin.
  { destruct (decide (k = wm)) as [->|]; [by left|right]. apply IH; lia. }
  destruct half as [|[|half]]; [by right|done|lia].
Qed.

(** The tickets that the producer has not yet got to memory are those of the values
    after [wm]. *)
Lemma pending_range h wm half i x :
  WTicket i x ∈ pending h wm half → x = 1 ∧ ∃ k, (wm ≤ k < length h)%nat ∧ i = pos k.
Proof.
  intros Hin. assert (WTicket i x ∈ concat (pwrites h <$> List.seq wm (length h - wm))) as Hc.
  { unfold pending in Hin. rewrite <- (take_drop half (concat _)). apply elem_of_app. by right. }
  apply list_elem_of_In, in_concat in Hc as (l & Hl & Hi).
  apply list_elem_of_In, list_elem_of_fmap in Hl as (k & -> & Hk%elem_of_seq).
  destruct Hi as [|[|[]]]; simplify_eq. split; [done|]. exists k. split; [lia|done].
Qed.

(** The first store of the producer's buffer: the data of value [wm], or its ticket. *)
Lemma pending_head h wm half w b :
  (half ≤ 1)%nat → pending h wm half = w :: b →
  (wm < length h)%nat ∧
  ((half = 0%nat ∧ w = WData (pos wm) (val h wm) ∧ b = pending h wm 1) ∨
   (half = 1%nat ∧ w = WTicket (pos wm) 1 ∧ b = pending h (S wm) 0)).
Proof.
  intros Hh Hp. destruct (decide (wm < length h)%nat) as [Hw|Hw].
  - split; [done|]. pose proof (pending_cons h wm Hw) as Hc. unfold pending in *. rewrite Hc in Hp |- *.
    destruct half as [|[|half]]; simpl in Hp; simplify_eq; [left|right|lia]; by split_and!.
  - exfalso. unfold pending in Hp. replace (length h - wm)%nat with 0%nat in Hp by lia.
    simpl in Hp. by rewrite drop_nil in Hp.
Qed.

(** ** Preservation *)

(** A store to the slot of ticket [k0]. *)
Lemma slots_alter (b : list slot) r k0 f (P P' : nat → slot → Prop) :
  (r ≤ k0 < r + N)%nat → (∀ s, P k0 s → P' k0 (f s)) →
  (∀ k, (r ≤ k < r + N)%nat → ∃ s, b !! pos k = Some s ∧ P k s) →
  (∀ k s, (r ≤ k < r + N)%nat → k ≠ k0 → P k s → P' k s) →
  ∀ k, (r ≤ k < r + N)%nat → ∃ s, alter f (pos k0) b !! pos k = Some s ∧ P' k s.
Proof using HB.
  intros Hk0 Hf Hs Himp k Hk. destruct (Hs k Hk) as (s & Hb & Hp). destruct (decide (k = k0)) as [->|Hne].
  - exists (f s). rewrite list_lookup_alter_eq, Hb. auto.
  - exists s. rewrite list_lookup_alter_ne; [auto|]. intros He. apply Hne. symmetry.
    by apply (SpscInvariant.pos_inj BUFFER_SIZE HB r).
Qed.

(** A store of the producer reaches memory. *)
Lemma sbinv_pflush c wm half fc c' :
  sbinv c wm half fc → exec BUFFER_SIZE c PFlush = Some c' → ∃ wm' half', sbinv c' wm' half' fc.
Proof using HB.
  intros [Hl Hp Hc [Hh Hh'] Hr Hm Hlw Hlr Hpn Hcn Hs Ho] He. simpl in He.
  destruct (p_buf c) as [|w b] eqn:Eb; [done|]. simplify_eq/=. symmetry in Hp.
  destruct (pending_head _ _ _ _ _ Hh Hp) as (Hw & [(-> & -> & Hb)|(-> & -> & Hb)]).
  - exists wm, 1%nat. split; simpl; try done; try lia; [by rewrite length_alter|].
    eapply slots_alter; [| |exact Hs|]; [lia|intros s [Ht _]|intros k s Hk Hne [Ht Hd]]; simpl; [done|].
    split; [done|]. intros. apply Hd. lia.
  - exists (S wm), 0%nat. split; simpl; try done; try lia; [by rewrite length_alter|by destruct (c_pc c); lia|].
    eapply slots_alter; [| |exact Hs|]; [lia|intros s [_ Hd]|intros k s Hk Hne [Ht Hd]]; simpl.
    + rewrite bool_decide_eq_true_2 by lia. split; [done|]. intros. apply Hd. lia.
    + split; [|intros; apply Hd; lia]. rewrite Ht. by rewrite (bool_decide_ext _ (k < S wm)%nat) by lia.
Qed.

(** A store of the consumer reaches memory: the slot serves the ticket of the next
    round. *)
Lemma sbinv_cflush c wm half fc c' :
  sbinv c wm half fc → exec BUFFER_SIZE c CFlush = Some c' → sbinv c' wm half (S fc).
Proof using HB.
  intros [Hl Hp Hc [Hh Hh'] Hr Hm Hlw Hlr Hpn Hcn Hs Ho] He. simpl in He.
  destruct (c_buf c) as [|w b] eqn:Eb; [done|]. simplify_eq/=.
  destruct (length (out c) - fc)%nat as [|n] eqn:En; [done|]. simpl in Hc. injection Hc as -> Hc.
  split; simpl; try done; try lia.
  - by rewrite length_alter.
  - by replace (length (out c) - S fc)%nat with n by lia.
  - destruct (p_pc c); lia.
  - rewrite <- (SpscInvariant.pos_round BUFFER_SIZE HB fc).
    eapply (slots_alter _ (S fc) (fc + N) _ (λ k s, k ≠ (fc + N)%nat → _)); [lia| | |intros k s Hk Hne H; exact (H Hne)].
    + intros s _. simpl. rewrite bool_decide_eq_false_2 by lia. split; [done|lia].
    + intros k Hk. destruct (decide (k = fc + N)%nat) as [->|Hne].
      * rewrite SpscInvariant.pos_round by done. destruct (Hs fc) as (s & Hb & _); [lia|]. by exists s.
      * destruct (Hs k) as (s & Hb & Hok); [lia|]. by exists s.
Qed.
Lemma get_nat (b : list slot) i : get b (Z.of_nat i) = b !! i.
Proof. unfold get. rewrite (proj2 (Z.ltb_ge _ _)) by lia. by rewrite Nat2Z.id. Qed.

(** The slot under a cursor exists. *)
Lemma view_slot ws b k : length b = N → ∃ s, view ws b !! pos k = Some s.
Proof using HB.
  intros Hl. apply lookup_lt_is_Some. rewrite length_view, Hl. apply Nat.mod_upper_bound. lia.
Qed.

(** The producer's load of the ticket reads 0 only when the slot has been given
    back, in memory. *)
Lemma p_sees_free c wm half fc s :
  sbinv c wm half fc → p_next c = [] → view (p_buf c) (buffer c) !! pos (length (hist c)) = Some s →
  ticket s = 0 → (length (hist c) < fc + N)%nat.
Proof using HB.
  intros [Hl Hp _ [Hh Hh'] Hr Hm _ _ _ _ Hs _] Hn Hv Ht. rewrite Hn, app_nil_r in Hp.
  destruct (decide (length (hist c) = fc + N)%nat) as [He|]; [exfalso|lia].
  rewrite He, SpscInvariant.pos_round in Hv by done. rewrite Hp in Hv.
  apply (view_ticket 1) in Hv as [(s0 & Hb & Ht0) Hno]; [|by intros ? ? [? _]%pending_range|by rewrite Ht].
  destruct (Hs fc) as (s1 & Hb1 & Ht1 & _); [lia|]. simplify_eq. rewrite Ht0, Ht in Ht1.
  case_bool_decide; [done|]. apply (Hno 1), pending_ticket; lia.
Qed.

(** The consumer's load of the ticket reads 1 only when the value and its ticket are
    in memory. *)
Lemma c_sees_filled c wm half fc s :
  sbinv c wm half fc → c_next c = [] → view (c_buf c) (buffer c) !! pos (length (out c)) = Some s →
  ticket s ≠ 0 → (length (out c) < wm)%nat.
Proof using HB.
  intros [Hl _ Hc [Hh Hh'] Hr Hm _ _ _ _ Hs _] Hn Hv Ht. rewrite Hn, app_nil_r in Hc.
  destruct (decide (length (out c) = wm)) as [He|]; [exfalso|lia]. rewrite Hc in Hv.
  apply (view_ticket 0) in Hv as [(s0 & Hb & Ht0) Hno]; [| |done].
  2: { intros j y (k & Hk & _)%list_elem_of_fmap. unfold cwrite in Hk. congruence. }
  destruct (decide (wm < fc + N)%nat).
  - destruct (Hs wm) as (s1 & Hb1 & Ht1 & _); [lia|]. rewrite He in Hb. simplify_eq.
    rewrite bool_decide_eq_false_2 in Ht1 by lia. congruence.
  - replace (length (out c)) with (fc + N)%nat in Hno by lia. rewrite SpscInvariant.pos_round in Hno by done.
    apply (Hno 0), list_elem_of_fmap. exists fc. split; [done|]. apply elem_of_seq. lia.
Qed.

(** One step of [enqueue]. *)
Lemma sbinv_prun c wm half fc c' :
  sbinv c wm half fc → enqueue BUFFER_SIZE c = Some c' → sbinv c' wm half fc.
Proof using HB.
  intros Hi He. pose proof (p_sees_free c wm half fc) as Hfree.
  pose proof Hi as [Hl Hp Hc [Hh Hh'] Hr Hm Hlw Hlr Hpn Hcn Hs Ho].
  unfold enqueue, p_next in *.
  destruct (p_pc c) as [|v|v|v| |] eqn:Epc; simpl in *; try done; rewrite ?Nat.add_0_r, ?Nat.add_1_r in Hlw.
  - rewrite Hlw, SpscInvariant.advance_pos in He by done. simplify_eq/=.
    split; simpl; try done. by rewrite Nat.add_1_r.
  - rewrite Hlw, get_nat in He. destruct (view_slot (p_buf c) (buffer c) (length (hist c)) Hl) as [s Hv].
    unfold SpscInvariant.pos in Hv. rewrite Hv in He. simplify_eq/=.
    destruct (Z.eqb_spec (ticket s) 0) as [Ht|Ht]; split; simpl; try done; rewrite ?Nat.add_1_r; try done.
    by apply (Hfree s).
  - simplify_eq/=. rewrite Hlw, Nat2Z.id. split; simpl; rewrite ?length_app; simpl; try done; try lia.
    + rewrite pending_snoc by done. rewrite <- Hp. unfold pwrites. rewrite val_last, <- !app_assoc. simpl.
      unfold p_next. simpl. rewrite length_app. simpl.
      by replace (length (hist c) + 1 - 1)%nat with (length (hist c)) by lia.
    + by rewrite Nat.add_0_r, Nat.add_1_r.
    + intros k Hk. destruct (Hs k Hk) as (s & Hb & Ht & Hd). exists s. split_and!; [done|done|].
      intros. rewrite val_snoc by lia. auto.
    + rewrite take_app_le by lia. done.
  - simplify_eq/=. rewrite Hlw, Nat2Z.id. split; simpl; try done; [|by rewrite Nat.add_0_r].
    rewrite app_nil_r, <- Hp. unfold SpscInvariant.pos.
    by replace (S (length (hist c) - 1)) with (length (hist c)) by lia.
Qed.

(** One step of [dequeue]. *)
Lemma sbinv_crun c wm half fc c' :
  sbinv c wm half fc → dequeue BUFFER_SIZE c = Some c' → sbinv c' wm half fc.
Proof using HB.
  intros Hi He. pose proof (c_sees_filled c wm half fc) as Hfull.
  pose proof Hi as [Hl Hp Hc [Hh Hh'] Hr Hm Hlw Hlr Hpn Hcn Hs Ho].
  unfold dequeue, c_next in *. pose proof (view_slot (c_buf c) (buffer c) (length (out c)) Hl) as [s Hv].
  destruct (c_pc c) as [| | | |v|v] eqn:Epc; simpl in *; try done; rewrite ?Nat.add_0_r, ?Nat.add_1_r in Hlr.
  - rewrite Hlr, SpscInvariant.advance_pos in He by done. simplify_eq/=.
    split; simpl; try done. by rewrite Nat.add_1_r.
  - rewrite Hlr, get_nat in He. pose proof Hv as Hv'. unfold SpscInvariant.pos in Hv'. rewrite Hv' in He.
    simplify_eq/=. destruct (Z.eqb_spec (ticket s) 0) as [Ht|Ht]; split; simpl; try done; rewrite ?Nat.add_1_r; try done.
    by apply (Hfull s).
  - rewrite Hlr, get_nat in He. pose proof Hv as Hv'. unfold SpscInvariant.pos in Hv'. rewrite Hv' in He.
    simplify_eq/=. rewrite app_nil_r in Hc. rewrite Hc in Hv.
    apply view_data in Hv as (s0 & Hb & Hd).
    2: { intros j y (k & Hk & _)%list_elem_of_fmap. done. }
    destruct (Hs (length (out c))) as (s1 & Hb1 & _ & Hd1); [lia|]. simplify_eq.
    rewrite <- Hd, Hd1 by lia.
    split; simpl; rewrite ?length_app; simpl; try done; try lia.
    + rewrite Hc. replace (length (out c) + 1 - fc)%nat with (length (out c) - fc + 1)%nat by lia.
      rewrite seq_app, fmap_app. simpl. unfold c_next. simpl. rewrite length_app. simpl.
      do 3 f_equal. lia.
    + by rewrite Nat.add_0_r, Nat.add_1_r.
    + rewrite Nat.add_1_r. destruct (lookup_lt_is_Some_2 (hist c) (length (out c))) as [x Hx]; [lia|].
      rewrite (take_S_r _ _ x), <- Ho by done. unfold val. by rewrite Hx.
  - simplify_eq/=. rewrite Hlr, Nat2Z.id. split; simpl; try done; [|by rewrite Nat.add_0_r].
    rewrite app_nil_r, <- Hc. unfold cwrite, SpscInvariant.pos.
    by replace (S (length (out c) - 1)) with (length (out c)) by lia.
Qed.

(** A call begins, or the caller goes on. *)
Local Ltac call_return pc Hi :=
  let E := fresh "E" in
  destruct pc eqn:E; simplify_eq/=; do 3 eexists; destruct Hi; unfold p_next, c_next in *;
  rewrite E in *; split; simpl; done.

Lemma sbinv_exec c wm half fc a c' :
  sbinv c wm half fc → exec BUFFER_SIZE c a = Some c' → ∃ wm' half' fc', sbinv c' wm' half' fc'.
Proof using HB.
  intros Hi He. destruct a; simpl in He.
  - call_return (p_pc c) Hi.
  - by exists wm, half, fc; apply (sbinv_prun c).
  - call_return (p_pc c) Hi.
  - destruct (sbinv_pflush _ _ _ _ _ Hi He) as (wm' & half' & H). by exists wm', half', fc.
  - call_return (c_pc c) Hi.
  - by exists wm, half, fc; apply (sbinv_crun c).
  - call_return (c_pc c) Hi.
  - exists wm, half, (S fc). by apply (sbinv_cflush c).
Qed.

Abbreviation fresh := (λ c, c = init BUFFER_SIZE).

Lemma sbinv_reachable c :
  reachable (M := tso_machine BUFFER_SIZE) fresh c → ∃ wm half fc, sbinv c wm half fc.
Proof using HB.
  intros Hr. induction Hr as [c ->|c a c' _ (wm & half & fc & Hi) He]; [|eapply sbinv_exec; [exact Hi|exact He]].
  exists 0%nat, 0%nat, 0%nat. split; simpl; try done; try lia.
  - apply length_replicate.
  - by rewrite Nat.Div0.mod_0_l.
  - by rewrite Nat.Div0.mod_0_l.
  - intros k Hk. exists (mkSlot 0 0). split; [|split; [done|lia]]. apply lookup_replicate_2. apply Nat.mod_upper_bound. lia.
Qed.

(** C14. Under x86-TSO, where the stores of both threads may be delayed across
    any number of calls, the values that [dequeue] takes are the values written by
    [enqueue], in order, none lost, none twice, none read before it is written,
    and never more than [BUFFER_SIZE] of them are on their way. *)
Theorem spsc_tso_fifo c :
  reachable (M := tso_machine BUFFER_SIZE) fresh c →
  ∃ queued, hist c = out c ++ queued ∧ Z.of_nat (length queued) <= BUFFER_SIZE.
Proof using HB.
  intros (wm & half & fc & Hi)%sbinv_reachable. exists (drop (length (out c)) (hist c)).
  pose proof (sb_out _ _ _ _ Hi) as Ho. destruct Hi.
  split; [by rewrite Ho at 1; rewrite take_drop|]. rewrite length_drop. lia.
Qed.

(** A ticket that the own buffer does not write is the one in memory. *)
Lemma view_other ws b i :
  (∀ y, WTicket i y ∉ ws) → ticket <$> view ws b !! i = ticket <$> b !! i.
Proof.
  revert b. induction ws as [|w ws IH]; intros b Hn; [done|]. simpl. rewrite IH.
  2: { intros y Hy. apply (Hn y). by right. }
  destruct w as [j v|j y]; simpl; destruct (decide (j = i)) as [->|Hne];
    rewrite ?list_lookup_alter_eq, ?list_lookup_alter_ne by done; try done.
  - by destruct (b !! i).
  - destruct (Hn y). by left.
Qed.

(** Once the stores of the other thread have reached memory, a thread spins only
    for the reason it should. *)
Lemma p_spin_free c wm half fc s :
  sbinv c wm half fc → p_next c = [] → (length (hist c) < fc + N)%nat →
  view (p_buf c) (buffer c) !! pos (length (hist c)) = Some s → ticket s = 0.
Proof using HB.
  intros [Hl Hp _ [Hh Hh'] Hr Hm _ _ _ _ Hs _] Hn Hlt Hv. rewrite Hn, app_nil_r in Hp.
  destruct (Hs (length (hist c))) as (s0 & Hb & Ht & _); [lia|].
  rewrite bool_decide_eq_false_2 in Ht by lia. pose proof (view_other (p_buf c) (buffer c) (pos (length (hist c)))) as Hw.
  rewrite Hv, Hb in Hw. injection Hw as ->; [done|]. rewrite Hp. intros y [_ (k & Hk & He)]%pending_range.
  apply (SpscInvariant.pos_inj BUFFER_SIZE HB fc) in He; lia.
Qed.

Lemma c_spin_filled c wm half fc s :
  sbinv c wm half fc → c_next c = [] → (length (out c) < wm)%nat →
  view (c_buf c) (buffer c) !! pos (length (out c)) = Some s → ticket s = 1.
Proof using HB.
  intros [Hl _ Hc [Hh Hh'] Hr Hm _ _ _ _ Hs _] Hn Hlt Hv. rewrite Hn, app_nil_r in Hc.
  destruct (Hs (length (out c))) as (s0 & Hb & Ht & _); [lia|].
  rewrite bool_decide_eq_true_2 in Ht by lia. pose proof (view_other (c_buf c) (buffer c) (pos (length (out c)))) as Hw.
  rewrite Hv, Hb in Hw. injection Hw as ->; [done|]. rewrite Hc. intros y (k & Hk & Hin%elem_of_seq)%list_elem_of_fmap.
  unfold cwrite in Hk. injection Hk as He _. apply (SpscInvariant.pos_inj BUFFER_SIZE HB fc) in He; lia.
Qed.

(** [p_flushed], [c_flushed]: no store of the thread is on its way to memory. *)
Definition p_flushed (c : cfg) : Prop := p_buf c = [] ∧ p_pc c ≠ PPublish.
Definition c_flushed (c : cfg) : Prop := c_buf c = [] ∧ ∀ v, c_pc c ≠ CPublish v.

Lemma p_flushed_all c wm half fc : sbinv c wm half fc → p_flushed c → wm = length (hist c).
Proof.
  intros [Hl Hp _ [Hh Hh'] _ _ _ _ _ _ _ _] [Hb Hpc]. rewrite Hb in Hp.
  destruct (decide (wm = length (hist c))); [done|exfalso].
  assert (p_next c = []) as Hn by (unfold p_next; by destruct (p_pc c)). rewrite Hn in Hp.
  pose proof (pending_ticket (hist c) wm half wm Hh ltac:(lia)) as Hin. rewrite <- Hp in Hin.
  by apply not_elem_of_nil in Hin.
Qed.

Lemma c_flushed_all c wm half fc : sbinv c wm half fc → c_flushed c → fc = length (out c).
Proof.
  intros [Hl _ Hc _ Hr _ _ _ _ _ _ _] [Hb Hpc]. rewrite Hb in Hc.
  assert (c_next c = []) as Hn by (unfold c_next; by destruct (c_pc c) eqn:E; [..|destruct (Hpc v)|]).
  rewrite Hn in Hc. destruct (length (out c) - fc)%nat eqn:E; [lia|done].
Qed.

(** Delayed stores delay the spin loops and no more: once the stores of the
    consumer have reached memory, an [enqueue] goes round its loop exactly when
    [BUFFER_SIZE] values are queued, and once those of the producer have, a
    [dequeue] goes round exactly when none is, whatever the own buffer holds. *)
Theorem spsc_tso_blocks_iff c :
  reachable (M := tso_machine BUFFER_SIZE) fresh c →
  (∀ v, p_pc c = PSpin v → c_flushed c →
     (exec BUFFER_SIZE c PRun = Some c ↔ Z.of_nat (length (hist c)) = Z.of_nat (length (out c)) + BUFFER_SIZE)) ∧
  (c_pc c = CSpin → p_flushed c → (exec BUFFER_SIZE c CRun = Some c ↔ length (hist c) = length (out c))).
Proof using HB.
  intros (wm & half & fc & Hi)%sbinv_reachable. split.
  - intros v Hpc Hf. pose proof (c_flushed_all _ _ _ _ Hi Hf) as ->.
    assert (p_next c = []) as Hn by (unfold p_next; by rewrite Hpc).
    destruct (view_slot (p_buf c) (buffer c) (length (hist c)) (sb_len _ _ _ _ Hi)) as [s Hv].
    pose proof (p_sees_free _ _ _ _ s Hi Hn Hv). pose proof (λ H, p_spin_free _ _ _ _ s Hi Hn H Hv).
    pose proof (sb_room _ _ _ _ Hi). pose proof (sb_prod _ _ _ _ Hi) as Hlw.
    rewrite Hpc in Hlw. simpl in Hlw. rewrite Nat.add_1_r in Hlw.
    simpl. unfold enqueue. rewrite Hpc, Hlw, get_nat. unfold SpscInvariant.pos in Hv. rewrite Hv.
    destruct c; simpl in *; subst. destruct (Z.eqb_spec (ticket s) 0); simpl; split; try done; try lia; congruence.
  - intros Hpc Hf. pose proof (p_flushed_all _ _ _ _ Hi Hf) as ->.
    assert (c_next c = []) as Hn by (unfold c_next; by rewrite Hpc).
    destruct (view_slot (c_buf c) (buffer c) (length (out c)) (sb_len _ _ _ _ Hi)) as [s Hv].
    pose proof (c_sees_filled _ _ _ _ s Hi Hn Hv). pose proof (λ H, c_spin_filled _ _ _ _ s Hi Hn H Hv).
    pose proof (sb_read _ _ _ _ Hi). pose proof (sb_cons _ _ _ _ Hi) as Hlr.
    rewrite Hpc in Hlr. simpl in Hlr. rewrite Nat.add_1_r in Hlr.
    simpl. unfold dequeue. rewrite Hpc, Hlr, get_nat. unfold SpscInvariant.pos in Hv. rewrite Hv.
    destruct c; simpl in *; subst. destruct (Z.eqb_spec (ticket s) 0); simpl; split; try done; try lia; congruence.
Qed.
End Invariant.

(** ** A run: two slots, both stores of the second [enqueue] delayed past its return *)

Definition ex_tso : list act :=
  [PCall 5; PRun; PRun; PRun; PRun; PRet; PCall 6; PRun; PRun; PRun; PRun; PRet;
   CCall; CRun; CRun; PFlush; CRun; PFlush; CRun; CRun; CRun; CRet; PCall 7; PRun; PRun].

Definition ex_tso_at (σ : list act) : cfg := default (init 2) (run (M := tso_machine 2) (init 2) σ).

Lemma ex_tso_reach σ :
  runs (M := tso_machine 2) (init 2) σ = true →
  reachable (M := tso_machine 2) (λ c, c = init 2) (ex_tso_at σ).
Proof.
  intros Hr. apply (run_reachable (tso_machine 2) _ (init 2) σ); [by apply reach_init|].
  by apply (run_default (M := tso_machine 2)).
Qed.

Lemma spsc_tso_fifo_witness :
  hist (ex_tso_at ex_tso) = [5; 6] ∧ out (ex_tso_at ex_tso) = [5] ∧ length (p_buf (ex_tso_at ex_tso)) = 2%nat ∧
  ∃ queued, hist (ex_tso_at ex_tso) = out (ex_tso_at ex_tso) ++ queued ∧ Z.of_nat (length queued) <= 2.
Proof.
  split_and!; [by vm_compute..|].
  apply (spsc_tso_fifo 2 ltac:(unfold INT_MAX; lia) (ex_tso_at ex_tso)). apply ex_tso_reach. by vm_compute.
Defined.

(** The slot is given back but the store is still in the buffer of the consumer: the
    producer goes round; after the flush it does not. *)
Lemma spsc_tso_blocks_iff_witness :
  exec 2 (ex_tso_at ex_tso) PRun = Some (ex_tso_at ex_tso) ∧
  exec 2 (ex_tso_at (ex_tso ++ [CFlush])) PRun ≠ Some (ex_tso_at (ex_tso ++ [CFlush])).
Proof.
  split; [by vm_compute|]. intros He.
  apply (proj1 (spsc_tso_blocks_iff 2 ltac:(unfold INT_MAX; lia) (ex_tso_at (ex_tso ++ [CFlush]))
    (ex_tso_reach (ex_tso ++ [CFlush]) ltac:(by vm_compute))) 7 eq_refl) in He; [by vm_compute in He|].
  split; [by vm_compute|by vm_compute].
Defined.
End SpscTSO.
