(* ===== verification/SpscAdapter.v ===== *)
(** * spscRingBuffer behind the interface of the measurements

    Model of [AstraSPSC] in [src/bench/QueueComparisonBench.cpp]: two threads, one
    of which only pushes and the other only pops. *)

From Stdlib Require Import ZArith Lia.
From S2P Require Import Prelude MachineInt Lts AtomicRingBuffer SpscRingBuffer SpscInvariant SpscTheorems Adapter.
Import Spsc.
Local Open Scope Z_scope.
Local Open Scope astra_scope.

Module AstraSPSC.

(** [q.enqueue(std::move(v))] and [q.dequeue()]. *)
Definition push (v : Z) : act Z := PCall EnqMove v.
Definition pop : act Z := CCall.

(** A [spscRingBuffer<uint64_t, SIZE>] used by the threads 0 and 1; thread 0 is the
    producer unless [back] is set, which is read by no code. *)
Record t (SIZE : Z) := mk { back : bool; q : cfg Z }.
Arguments mk {_} _ _.
Arguments back {_} _.
Arguments q {_} _.

Definition producer (b : bool) : nat := if b then 1 else 0.
Definition consumer (b : bool) : nat := if b then 0 else 1.

Definition p_phase (p : ppc Z) : phase :=
  match p with PIdle => Outside | PReturn => Pushed | _ => Pushing end.
Definition c_phase (p : cpc Z) : phase :=
  match p with CIdle => Outside | CReturn v => Popped v | _ => Popping end.

Section Code.
Context {SIZE : Z}.
Implicit Types (c : t SIZE).

Definition by_side c (i : nat) (p_act c_act : act Z) : option (t SIZE) :=
  if (i =? producer (back c))%nat then mk (back c) <$> exec SIZE (q c) p_act
  else if (i =? consumer (back c))%nat then mk (back c) <$> exec SIZE (q c) c_act else None.

#[global] Instance adapter : Adapter (t SIZE) := {
  ad_choice := unit;
  ad_push c i v := if (i =? producer (back c))%nat then mk (back c) <$> exec SIZE (q c) (push v) else None;
  ad_pop c i := if (i =? consumer (back c))%nat then mk (back c) <$> exec SIZE (q c) pop else None;
  ad_run c i _ := by_side c i PRun CRun;
  ad_ret c i := by_side c i PRet CRet;
  ad_thr c :=
    let p := p_phase (c_prod (q c)) in let k := c_phase (c_cons (q c)) in
    if back c then [k; p] else [p; k];
}.
End Code.

(** ** Conservation, on the abstract queue *)

Definition p_carried (p : bprod) : list Z := match p with BPEnq v => [v] | _ => [] end.
Definition c_carried (k : bcons) : list Z := match k with BCDone v => [v] | _ => [] end.
Definition b_all (b : bstate Z) : list Z := b_items b ++ p_carried (b_prod b) ++ c_carried (b_cons b).

Lemma b_all_internal N b b' : sp_run (S := bounded_spec N) b [] b' → b_all b' ≡ₚ b_all b.
Proof.
  intros Hr. remember [] as τ eqn:Hτ. induction Hr as [|b e b1 τ b2 Hs _ IH]; [done|].
  apply app_eq_nil in Hτ as [-> ->]. rewrite IH by done. clear IH. inversion Hs; subst; unfold b_all; simpl.
  - by rewrite <- app_assoc.
  - rewrite app_nil_r, (Permutation_app_comm (p_carried p) [v]). simpl. by rewrite <- Permutation_middle.
Qed.

Section Laws.
Context (SIZE : Z) (HB : 1 <= SIZE <= INT_MAX).
Implicit Types (c : t SIZE).

Lemma spsc_mk_inv (o : option (cfg Z)) b c' : mk b <$> o = Some c' → o = Some (q c') ∧ back c' = b.
Proof. destruct o; simpl; [|done]. by intros [= <-]. Qed.

(** The two sides as threads. *)
Lemma thr_prod c : ad_thr c !! producer (back c) = Some (p_phase (c_prod (q c))).
Proof using. simpl. by destruct (back c). Qed.

Lemma thr_cons c : ad_thr c !! consumer (back c) = Some (c_phase (c_cons (q c))).
Proof using. simpl. by destruct (back c). Qed.

Lemma side i p c : ad_thr c !! i = Some p → i = producer (back c) ∨ i = consumer (back c).
Proof using.
  intros Hi. apply lookup_lt_Some in Hi. simpl in Hi. unfold producer, consumer. destruct (back c); simpl in Hi; lia.
Qed.

Lemma prod_ne_cons b : producer b ≠ consumer b.
Proof using. by destruct b. Qed.

Lemma thr_set_prod c c' : back c' = back c → c_cons (q c') = c_cons (q c) →
  ad_thr c' = <[producer (back c) := p_phase (c_prod (q c'))]> (ad_thr c).
Proof using. simpl. intros -> ->. by destruct (back c). Qed.

Lemma thr_set_cons c c' : back c' = back c → c_prod (q c') = c_prod (q c) →
  ad_thr c' = <[consumer (back c) := c_phase (c_cons (q c'))]> (ad_thr c).
Proof using. simpl. intros -> ->. by destruct (back c). Qed.

(** An action of thread [i] is one of its side. *)
Lemma by_side_inv c i pa ca c' : by_side c i pa ca = Some c' →
  back c' = back c ∧ ((i = producer (back c) ∧ exec SIZE (q c) pa = Some (q c')) ∨
    (i = consumer (back c) ∧ exec SIZE (q c) ca = Some (q c'))).
Proof.
  unfold by_side. destruct (Nat.eqb_spec i (producer (back c))) as [->|]; [intros [? ?]%spsc_mk_inv; eauto|].
  destruct (Nat.eqb_spec i (consumer (back c))) as [->|]; [intros [? ?]%spsc_mk_inv; eauto|done].
Qed.

(** [b] says which side thread 0 is. *)
Context (b : bool).

Definition spsc_flow c (held total : list Z) : Prop :=
  back c = b ∧ sinv SIZE (q c) ∧ b_all (abs (q c)) ++ held ≡ₚ total.

(** What an action does to the values. *)
Lemma spsc_internal (c c' : cfg Z) a : sinv SIZE c → exec SIZE c a = Some c' → obs c a = [] → b_all (abs c') ≡ₚ b_all (abs c).
Proof using HB.
  intros Hi He Ho. destruct (abs_simulates SIZE HB c a c' (abs c) (conj Hi eq_refl) He) as (b' & Hr & _ & ->).
  rewrite Ho in Hr. by eapply b_all_internal.
Qed.

(** The threads keep to their sides. *)
Context (R : roles) (Hpush : ∀ i, pushes R i = true → (i < 2)%nat → i = producer b).
Context (Hpop : ∀ i, pops R i = true → (i < 2)%nat → i = consumer b).

#[global] Instance conserves : Conserves (t SIZE) 2 R.
Proof using HB Hpush Hpop.
  refine {| ad_flow := spsc_flow |}.
  - intros c held held' total total' Hh Ht (H0 & H1 & H2). split_and!; [done..|]. by rewrite <- Hh, <- Ht.
  - intros c held total (_ & _ & H). by eexists.
  - intros c held total _. simpl. by destruct (back c).
  - intros c i v c' held held' total total' (Hb & Hi & Hf) _ He Hmove. cbn [ad_push adapter] in He. destruct (i =? _)%nat; [|done].
    apply spsc_mk_inv in He as [He Hb']. split_and!; [congruence|by eapply sinv_exec|]. specialize (Hmove _ Hf). rewrite <- Hmove.
    simpl in He. step_inv He. rewrite <- He. unfold abs, b_all, items. simpl. rewrite E. simpl.
    by rewrite <- Permutation_middle.
  - intros c i c' held total (Hb & Hi & Hf) _ He. cbn [ad_pop adapter] in He. destruct (i =? _)%nat; [|done].
    apply spsc_mk_inv in He as [He Hb']. split_and!; [congruence|by eapply sinv_exec|]. rewrite <- Hf.
    simpl in He. step_inv He. rewrite <- He. unfold abs, b_all, items. simpl. by rewrite E.
  - intros c i a c' held total (Hb & Hi & Hf) [Hb' [[_ He]|[_ He]]]%by_side_inv;
      (split_and!; [congruence|by eapply sinv_exec|]; by rewrite (spsc_internal _ _ _ Hi He) by done).
  - intros c i p c' held total (Hb & Hi & Hf) Hp [Hb' [[-> He]|[-> He]]]%by_side_inv.
    + rewrite thr_prod in Hp. injection Hp as <-. split_and!; [congruence|by eapply sinv_exec|]. rewrite <- Hf.
      simpl in He. step_inv He. rewrite <- He. unfold abs, b_all, items. simpl. by rewrite E.
    + rewrite thr_cons in Hp. injection Hp as <-. split_and!; [congruence|by eapply sinv_exec|]. rewrite <- Hf.
      simpl in He. step_inv He. rewrite <- He. unfold abs, b_all, items. simpl. rewrite E. simpl.
      rewrite !app_nil_r, <- !app_assoc. simpl. by rewrite !app_assoc.
  - intros c i v c' He. cbn [ad_push adapter] in He. destruct (Nat.eqb_spec i (producer (back c))) as [->|]; [|done].
    apply spsc_mk_inv in He as [He Hb]. etransitivity; [apply thr_set_prod; [done|]|]; simpl in He; step_inv He; by rewrite <- He.
  - intros c i c' He. cbn [ad_pop adapter] in He. destruct (Nat.eqb_spec i (consumer (back c))) as [->|]; [|done].
    apply spsc_mk_inv in He as [He Hb]. etransitivity; [apply thr_set_cons; [done|]|]; simpl in He; step_inv He; by rewrite <- He.
  - intros c i a p c' held total _ [Hb [[-> He]|[-> He]]]%by_side_inv Hp.
    + rewrite thr_prod in Hp. injection Hp as <-. eexists. split; [apply thr_set_prod; [done|]; simpl in He; step_inv He; by rewrite <- He|].
      simpl in He. step_inv He. rewrite <- He. destruct p as [r' p']. simpl.
      destruct (c_prod (q c)) as [| | |[]| | |]; simpl in E; step_inv E; try done; by repeat case_match.
    + rewrite thr_cons in Hp. injection Hp as <-. eexists. split; [apply thr_set_cons; [done|]; simpl in He; step_inv He; by rewrite <- He|].
      simpl in He. step_inv He. rewrite <- He. destruct p as [r' p']. simpl.
      destruct (c_cons (q c)); simpl in E; step_inv E; try done; by repeat case_match.
  - intros c i c' [Hb [[-> He]|[-> He]]]%by_side_inv.
    + etransitivity; [apply thr_set_prod; [done|]|]; simpl in He; step_inv He; by rewrite <- He.
    + etransitivity; [apply thr_set_cons; [done|]|]; simpl in He; step_inv He; by rewrite <- He.
  - intros c i v held total (Hb & _) Hr Hp. assert (i = producer (back c)) as ->.
    { rewrite Hb. apply Hpush; [done|]. apply lookup_lt_Some in Hp. simpl in Hp. by destruct (back c). }
    rewrite thr_prod in Hp. simpl. rewrite Nat.eqb_refl. by destruct (c_prod (q c)).
  - intros c i held total (Hb & _) Hr Hp. assert (i = consumer (back c)) as ->.
    { rewrite Hb. apply Hpop; [done|]. apply lookup_lt_Some in Hp. simpl in Hp. by destruct (back c). }
    rewrite thr_cons in Hp. simpl. rewrite Nat.eqb_refl. by destruct (c_cons (q c)).
  - intros c i p held total _ Hp Hret. simpl. unfold by_side. destruct (side i p c Hp) as [-> | ->].
    + rewrite thr_prod in Hp. rewrite Nat.eqb_refl. simpl. by destruct (c_prod (q c)); simplify_eq/=.
    + rewrite thr_cons in Hp. rewrite (proj2 (Nat.eqb_neq _ _)), Nat.eqb_refl by (apply not_eq_sym, prod_ne_cons).
      simpl. by destruct (c_cons (q c)); simplify_eq/=.
Defined.

(** *** Progress *)

Definition p_work (p : ppc Z) : nat :=
  match p with PAdvance _ _ => 5 | PSpin _ _ => 4 | PWrite _ _ => 3 | PConstruct _ => 2 | PPublish _ => 1 | _ => 0 end.
Definition c_work (p : cpc Z) : nat :=
  match p with CAdvance => 4 | CSpin => 3 | CMove => 2 | CPublish _ => 1 | _ => 0 end.
Definition spsc_work c : nat := p_work (c_prod (q c)) + c_work (c_cons (q c)).

Lemma p_goes c : sinv SIZE (q c) → busy (p_phase (c_prod (q c))) = true → (length (items (q c)) < Z.to_nat SIZE)%nat →
  ∃ c', ad_run c (producer (back c)) tt = Some c' ∧ (spsc_work c' < spsc_work c)%nat.
Proof using HB.
  intros Hi Hb Hr. destruct (p_progress SIZE HB (q c) Hi) as [r' E]; [by destruct (c_prod (q c))|done|].
  eexists. cbn [ad_run adapter]. unfold by_side. rewrite Nat.eqb_refl, E. split; [done|].
  unfold spsc_work. simpl. destruct (c_prod (q c)) as [| | |[]| | |]; simpl in *; try done; try lia; by case_match; simpl; lia.
Qed.

Lemma c_goes c : sinv SIZE (q c) → busy (c_phase (c_cons (q c))) = true → items (q c) ≠ [] →
  ∃ c', ad_run c (consumer (back c)) tt = Some c' ∧ (spsc_work c' < spsc_work c)%nat.
Proof using HB.
  intros Hi Hb Hne. destruct (items (q c)) as [|v l] eqn:El; [done|].
  destruct (c_progress SIZE HB (q c) v l Hi) as [r' E]; [by destruct (c_cons (q c))|done|].
  eexists. cbn [ad_run adapter]. unfold by_side.
  rewrite (proj2 (Nat.eqb_neq _ _)), Nat.eqb_refl, E by (apply not_eq_sym, prod_ne_cons). split; [done|].
  unfold spsc_work. simpl. destruct (c_cons (q c)); simpl in *; try done; lia.
Qed.

Lemma spsc_stuck c held total :
  spsc_flow c held total →
  (busy (p_phase (c_prod (q c))) = true → length (items (q c)) = Z.to_nat SIZE) →
  (busy (c_phase (c_cons (q c))) = true → items (q c) = []) →
  (∀ i p, ad_thr c !! i = Some p → returns p = false) → stuck SIZE (ad_thr c) held total.
Proof using HB.
  intros (_ & Hi & Hf) Hfull Hempty Hnr i p Hp Hb.
  pose proof (Hnr _ _ (thr_prod c)) as Hp'. pose proof (Hnr _ _ (thr_cons c)) as Hc'.
  assert (busy (p_phase (c_prod (q c))) = true → busy (c_phase (c_cons (q c))) = true → False) as Hnot.
  { intros H1%Hfull H2%Hempty. rewrite H2 in H1. simpl in H1. lia. }
  assert (∀ j x, ad_thr c !! j = Some x → x = p_phase (c_prod (q c)) ∨ x = c_phase (c_cons (q c))) as Hx.
  { intros j x Hj. destruct (side j x c Hj) as [-> | ->]; [rewrite thr_prod in Hj|rewrite thr_cons in Hj]; simplify_eq; eauto. }
  destruct (side i p c Hp) as [-> | ->]; [rewrite thr_prod in Hp|rewrite thr_cons in Hp]; injection Hp as <-.
  - right. split_and!; [by destruct (c_prod (q c))| |].
    + apply Permutation_length in Hf. unfold b_all, abs in Hf. rewrite !length_app in Hf. simpl in Hf. specialize (Hfull Hb).
      assert (length (p_carried (abs_prod (c_prod (q c)))) = 1%nat) by (by destruct (c_prod (q c))). lia.
    + intros j x Hj Hbx. destruct (Hx j x Hj) as [-> | ->]; [by destruct (c_prod (q c))|]. by destruct (Hnot Hb Hbx).
  - left. split_and!; [by destruct (c_cons (q c))| |].
    + rewrite <- Hf. unfold b_all, abs. simpl. rewrite Hempty by done.
      destruct (busy (p_phase (c_prod (q c)))) eqn:Hbp; [by destruct (Hnot eq_refl Hb)|].
      destruct (c_cons (q c)), (c_prod (q c)); simpl in *; done.
    + intros j x Hj Hbx. destruct (Hx j x Hj) as [-> | ->]; [|by destruct (c_cons (q c))]. by destruct (Hnot Hbx Hb).
Qed.

#[global] Instance progresses : Progresses (t SIZE) 2 R SIZE.
Proof using HB Hpush Hpop.
  refine {| ad_work := spsc_work; cost := 5 |}.
  - lia.
  - intros c i v c' He. cbn [ad_push adapter] in He. destruct (i =? _)%nat; [|done]. apply spsc_mk_inv in He as [He _].
    simpl in He. step_inv He. unfold spsc_work. rewrite <- He, E. simpl. lia.
  - intros c i c' He. cbn [ad_pop adapter] in He. destruct (i =? _)%nat; [|done]. apply spsc_mk_inv in He as [He _].
    simpl in He. step_inv He. unfold spsc_work. rewrite <- He, E. simpl. lia.
  - intros c i c' [_ [[_ He]|[_ He]]]%by_side_inv; simpl in He; step_inv He; unfold spsc_work; rewrite <- He, E; simpl; lia.
  - intros c held total Hf Hnr. pose proof (si_win _ _ (proj1 (proj2 Hf))) as Hw.
    destruct (decide (busy (p_phase (c_prod (q c))) = true ∧ (length (items (q c)) < Z.to_nat SIZE)%nat)) as [[Hb Hlt]|Hno1].
    { left. destruct (p_goes c (proj1 (proj2 Hf)) Hb Hlt) as (c' & He & Hlt'). exists (producer (back c)). eexists _, tt, c'. by rewrite thr_prod. }
    destruct (decide (busy (c_phase (c_cons (q c))) = true ∧ items (q c) ≠ [])) as [[Hb Hne]|Hno2].
    { left. destruct (c_goes c (proj1 (proj2 Hf)) Hb Hne) as (c' & He & Hlt'). exists (consumer (back c)). eexists _, tt, c'. by rewrite thr_cons. }
    right. apply spsc_stuck; try done.
    + intros Hb. rewrite length_items in *. assert (¬ (length (c_hist (q c)) - c_reads (q c) < Z.to_nat SIZE)%nat) by (intros ?; by apply Hno1). lia.
    + intros Hb. destruct (items (q c)) eqn:E; [done|]. destruct Hno2. by split.
Defined.

(** A buffer that was just constructed. *)
Definition fresh (a0 : Z) c : Prop := c = mk b (init_cfg SIZE a0).

Lemma spsc_fresh_starts a0 : starts_with (R := R) (fresh a0) [].
Proof.
  intros c ->. split; [|by destruct b]. split_and!; [done|by apply sinv_init|done].
Qed.
End Laws.
End AstraSPSC.
