(* ===== verification/IndexPool.v ===== *)
(** * ThreadSafeIndexPool

    Model of [src/include/AstraLib/Pools/threadSafeIndexPool.hpp]: a free list
    of the indexes [0 .. SIZE-1], kept in an [AtomicRingBuffer<int, SIZE>].
    The proofs use the conservation law of [RingClient.v]. *)

From Stdlib Require Import ZArith Lia.
From S2P Require Import Prelude MachineInt Lts AtomicRingBuffer RingProtocol RingInvariant.
From S2P Require Import RingMachine QueueSpec RingRefinement RingTheorems RingAlone RingClient.
Local Open Scope Z_scope.
Local Open Scope astra_scope.

Section Code.
Context (SIZE : Z).

(** [AtomicRingBuffer<int,SIZE>] has the default [BATCH_SIZE]. *)
Definition BATCH_SIZE : Z := 50.

(** The member [IndexPool], with the threads that use it. *)
Abbreviation pool_exec := (exec machine_arith SIZE BATCH_SIZE).

(** [for(int i = 0; i<SIZE;i++) IndexPool.enqueue(std::move(i));] run by
    thread [t]; 5 steps are enough for an [enqueue] that does not wait. *)
Fixpoint initializeIndexes_from (fuel : nat) (t : nat) (i : Z) (c : cfg Z) : option (cfg Z) :=
  if to_u64 i <? SIZE then
    match fuel with
    | O => None
    | S f =>
        let? cp := call_alone machine_arith SIZE BATCH_SIZE 5 t (OpEnqueue EnqMove i) c in
        let? i' := int_op (i + 1) in
        initializeIndexes_from f t i' cp.1
    end
  else Some c.

Definition initializeIndexes (t : nat) (c : cfg Z) : option (cfg Z) :=
  initializeIndexes_from (Z.to_nat SIZE) t 0 c.

(** The constructor, run by thread [t] of [n]; [a0] is the indeterminate
    value of the slots' [int]s. *)
Definition ThreadSafeIndexPool (a0 : Z) (n t : nat) : option (cfg Z) :=
  let? c := init_cfg machine_arith SIZE BATCH_SIZE a0 n in initializeIndexes t c.

(** The calls of [IndexPool.dequeue] and [IndexPool.enqueue]. *)
Definition getIndex : op Z := OpDequeue.
Definition returnIndex (i : Z) : op Z := OpEnqueue EnqMove i.

(** [reInitializePool], for a pool no other thread is using. *)
Definition reInitializePool (t : nat) (c : cfg Z) : option (cfg Z) :=
  let? c' := pool_exec c Clear in initializeIndexes t c'.

(** ** Clients

    [p_held] records the indexes each client thread owns.  A client returns
    only indexes it holds; a re-initialised pool takes back all of them. *)
Record pcfg := mkP { p_pool : cfg Z; p_held : list (list Z) }.

Inductive pact :=
| GetIndex (t : nat)
| ReturnIndex (t : nat) (i : Z)
| Step (t : nat)
| Finish (t : nat)
| ReInitialize (t : nat).

Definition pool_step (m : pcfg) (a : pact) : option pcfg :=
  match a with
  | GetIndex t => let? c := pool_exec (p_pool m) (Call t getIndex) in Some (mkP c (p_held m))
  | ReturnIndex t i =>
      let? l := p_held m !! t in
      let? l' := take_out i l in
      let? c := pool_exec (p_pool m) (Call t (returnIndex i)) in
      Some (mkP c (<[t := l']> (p_held m)))
  | Step t => let? c := pool_exec (p_pool m) (Run t) in Some (mkP c (p_held m))
  | Finish t =>
      let? p := c_thr (p_pool m) !! t in
      let? c := pool_exec (p_pool m) (Ret t) in
      match p with
      | DeqReturn _ v =>
          let? l := p_held m !! t in Some (mkP c (<[t := v :: l]> (p_held m)))
      | _ => Some (mkP c (p_held m))
      end
  | ReInitialize t =>
      let? c := reInitializePool t (p_pool m) in
      Some (mkP c (replicate (length (p_held m)) []))
  end.

Definition pool_machine : machine := Machine pcfg pact pool_step.

(** A pool constructed by thread 0 of [n], nothing checked out. *)
Definition pool_init (a0 : Z) (n : nat) (m : pcfg) : Prop :=
  ThreadSafeIndexPool a0 n 0 = Some (p_pool m) ∧ p_held m = replicate n [].
End Code.

Section Proofs.
Context (SIZE : Z) (HP : params_ok SIZE BATCH_SIZE).
Context (n : nat) (Hn : SIZE * Z.of_nat n < 2 ^ 64).

(** *** initializeIndexes *)

Lemma initializeIndexes_total fuel t i c :
  cinv SIZE BATCH_SIZE c → length (c_thr c) = n → quiescent c = true → (t < n)%nat →
  0 <= i <= SIZE → c_hist c = seqZ 0 i → c_reads c = 0%nat → SIZE - i <= Z.of_nat fuel →
  ∃ c', initializeIndexes_from SIZE fuel t i (wrap_cfg c) = Some (wrap_cfg c') ∧
    cinv SIZE BATCH_SIZE c' ∧ c_thr c' = c_thr c ∧ c_hist c' = seqZ 0 SIZE ∧ c_reads c' = 0%nat.
Proof using HP Hn.
  pose proof (SIZE_bounds _ _ HP) as HS. revert i c.
  induction fuel as [|f IH]; intros i c Hi Hl Hq Ht Hb Hh Hr Hf; simpl;
    rewrite uwrap_small by lia; destruct (Z.ltb_spec i SIZE); try lia.
  1, 3: (assert (i = SIZE) as -> by lia; by exists c).
  destruct (call_alone_total SIZE BATCH_SIZE HP n Hn 5 c t (OpEnqueue EnqMove i))
    as (c1 & q & Hc & Hi1 & Ht1 & Hh1 & Hr1 & _); [done..| |simpl; lia|].
  { simpl. rewrite Hh, Hr, length_seqZ. lia. }
  rewrite Hc. simpl. unfold int_op. rewrite (proj2 (andb_true_iff _ _)) by (unfold INT_MIN, INT_MAX; lia).
  destruct (IH (i + 1) c1) as (c2 & H2 & Hi2 & Ht2 & Hh2 & Hr2); try done.
  - by rewrite Ht1.
  - unfold quiescent. by rewrite Ht1.
  - lia.
  - rewrite Hh1. simpl. rewrite Hh, (seqZ_app 0 i 1), Z.add_0_l by lia. done.
  - by rewrite Hr1.
  - lia.
  - exists c2. split_and!; try done. by rewrite Ht2.
Qed.

Lemma pool_constructed_lemma a0 t :
  (t < n)%nat →
  ∃ c, ThreadSafeIndexPool SIZE a0 n t = Some (wrap_cfg c) ∧ cinv SIZE BATCH_SIZE c ∧
    c_thr c = replicate n Idle ∧ c_hist c = seqZ 0 SIZE ∧ c_reads c = 0%nat.
Proof using HP Hn.
  intros Ht. destruct (init_wrap SIZE BATCH_SIZE HP a0 n) as (c & Hc & Hi & Hl & _ & He).
  pose proof (SIZE_bounds _ _ HP). unfold ThreadSafeIndexPool. rewrite Hc.
  destruct (initializeIndexes_total (Z.to_nat SIZE) t 0 c) as (c' & Hc' & Hi' & Ht' & Hrest);
    try done; try lia; rewrite He; try done.
  - unfold quiescent. simpl. clear. by induction n.
  - exists c'. split; [by rewrite <- He|]. rewrite Ht', He. done.
Qed.

(** *** Conservation *)

(** The indexes in the pool, in calls and held are together [0 .. SIZE-1]. *)
Record pool_inv (m : pcfg) : Prop := {
  pv_flow : ring_flow SIZE BATCH_SIZE n (p_pool m) (concat (p_held m)) (seqZ 0 SIZE);
  pv_held : length (p_held m) = n;
}.

(** A queue that holds all indexes, with idle threads. *)
Lemma pool_flow_full (c : cfg Z) :
  cinv SIZE BATCH_SIZE c → c_thr c = replicate n Idle → c_hist c = seqZ 0 SIZE → c_reads c = 0%nat →
  ring_flow SIZE BATCH_SIZE n (wrap_cfg c) (concat (replicate n [])) (seqZ 0 SIZE).
Proof.
  intros Hi Ht Hh Hr. exists c. split_and!; [done|done|by rewrite Ht, length_replicate|]. split; simpl.
  - intros t a. rewrite Ht, fmap_replicate. by intros [-> _]%lookup_replicate.
  - rewrite (ci_reads _ _ _ Hi), Hr, Hh, Ht, !fmap_replicate. simpl.
    assert (concat (replicate n ([] : list Z)) = []) as -> by (clear; by induction n).
    by rewrite !app_nil_r.
Qed.

Lemma reInitialize_total (c : cfg Z) t c1 :
  cinv SIZE BATCH_SIZE c → length (c_thr c) = n → (t < n)%nat →
  exec machine_arith SIZE BATCH_SIZE (wrap_cfg c) Clear = Some c1 →
  ∃ c', initializeIndexes SIZE t c1 = Some (wrap_cfg c') ∧ cinv SIZE BATCH_SIZE c' ∧
    c_thr c' = replicate n Idle ∧ c_hist c' = seqZ 0 SIZE ∧ c_reads c' = 0%nat.
Proof using HP Hn.
  intros Hi Hl Ht He. eapply ring_action in He as (c2 & -> & He & Hi2 & Hl2); [|done..].
  simpl in He. destruct (forallb idle (c_thr c)) eqn:E; [|done].
  destruct (clearBuffer _ _ _) as [r'|]; [|done]. injection He as <-. pose proof (SIZE_bounds _ _ HP).
  edestruct (initializeIndexes_total (Z.to_nat SIZE) t 0) as (c' & Hc' & Hi' & Ht' & Hh' & Hr');
    [exact Hi2|done|done|done|lia|done|done|lia|].
  exists c'. split_and!; try done. rewrite Ht'. simpl. rewrite <- Hl. by apply all_idle.
Qed.

Lemma concat_take_out (held : list (list Z)) t i l l' :
  held !! t = Some l → take_out i l = Some l' → concat held ≡ₚ i :: concat (<[t := l']> held).
Proof.
  intros Hl Ht. pose proof (concat_insert _ _ _ l' Hl) as H.
  rewrite (take_out_perm _ _ _ Ht) in H. simpl in H. rewrite Permutation_middle in H.
  by apply Permutation_app_inv_l in H.
Qed.

Lemma concat_put_in (held : list (list Z)) t i l :
  held !! t = Some l → concat (<[t := i :: l]> held) ≡ₚ i :: concat held.
Proof.
  intros Hl. pose proof (concat_insert _ _ _ (i :: l) Hl) as H. simpl in H.
  rewrite Permutation_middle in H. by apply Permutation_app_inv_l in H.
Qed.

Lemma pool_inv_reinit m t c1 :
  pool_inv m → reInitializePool SIZE t (p_pool m) = Some c1 →
  pool_inv (mkP c1 (replicate (length (p_held m)) [])).
Proof using HP Hn.
  intros [(c & Hc & Hi & Hl & _) Hh] He. rewrite Hc in He. unfold reInitializePool in He.
  destruct (exec machine_arith SIZE BATCH_SIZE (wrap_cfg c) Clear) as [c2|] eqn:Ec; [|done].
  destruct (decide (t < n)%nat) as [Ht|Ht].
  - destruct (reInitialize_total c t c2) as (c' & Hc' & Hi' & Ht' & Hh' & Hr'); [done..|].
    assert (c1 = wrap_cfg c') as -> by congruence. split; simpl; [|by rewrite length_replicate].
    rewrite Hh. by apply pool_flow_full.
  - exfalso. eapply ring_action in Ec as (c3 & -> & Ec & Hi3 & Hl3); [|done..].
    pose proof (SIZE_bounds _ _ HP). unfold initializeIndexes in He.
    destruct (Z.to_nat SIZE) as [|f] eqn:Ef; [lia|]. cbn [initializeIndexes_from] in He.
    unfold call_alone in He. simpl in He. rewrite lookup_ge_None_2 in He by (rewrite length_fmap; lia).
    rewrite uwrap_small, (proj2 (Z.ltb_lt _ _)) in He by lia. done.
Qed.

(** One action of the pool. *)
Lemma pool_inv_step m a m' : pool_inv m → pool_step SIZE m a = Some m' → pool_inv m'.
Proof using HP Hn.
  intros [Hf Hh] He. destruct a as [t|t i|t|t|t]; cbn [pool_step] in He.
  - destruct (exec _ _ _ _ _) as [c1|] eqn:E in He; [|done]. injection He as <-.
    split; [|done]. by apply (ring_flow_dequeue SIZE BATCH_SIZE HP n Hn (p_pool m) t).
  - destruct (p_held m !! t) as [l|] eqn:El; [|done]. destruct (take_out i l) as [l'|] eqn:Et; [|done].
    destruct (exec _ _ _ _ _) as [c1|] eqn:E in He; [|done]. injection He as <-.
    split; [|by simpl; rewrite length_insert]. eapply (ring_flow_enqueue SIZE BATCH_SIZE HP n Hn); [done..|].
    intros rest <-. simpl. rewrite (concat_take_out _ _ _ _ _ El Et). by rewrite <- Permutation_middle.
  - destruct (exec _ _ _ _ _) as [c1|] eqn:E in He; [|done]. injection He as <-.
    split; [|done]. by apply (ring_flow_run SIZE BATCH_SIZE HP n Hn (p_pool m) t).
  - destruct (c_thr (p_pool m) !! t) as [p|] eqn:Hp; [|done].
    destruct (exec _ _ _ _ (Ret t)) as [c1|] eqn:E in He; [|done].
    pose proof (ring_flow_return SIZE BATCH_SIZE HP n Hn _ t p _ _ c1 Hf Hp E) as Hf'.
    destruct p; simpl in He; try (injection He as <-; by split).
    destruct (p_held m !! t) as [l|] eqn:El; [|done]. injection He as <-.
    split; simpl; [|by rewrite length_insert]. destruct Hf' as (c & Hc & Hi & Hl & [H1 H2]).
    exists c. split_and!; try done. split; [done|]. by rewrite (concat_put_in _ _ _ _ El).
  - destruct (reInitializePool SIZE t (p_pool m)) as [c1|] eqn:E; [|done]. injection He as <-.
    eapply pool_inv_reinit; [by split|done].
Qed.

Lemma pool_inv_init a0 m : pool_init SIZE a0 n m → pool_inv m.
Proof using HP Hn.
  intros [Hp Hh]. destruct (decide (0 < n)%nat) as [Hpos|Hz].
  - destruct (pool_constructed_lemma a0 0 Hpos) as (c & Hc & Hi & Ht & Hhist & Hr).
    split; [|by rewrite Hh, length_replicate]. rewrite Hp in Hc. injection Hc as ->.
    rewrite Hh. by apply pool_flow_full.
  - exfalso. destruct (init_wrap SIZE BATCH_SIZE HP a0 n) as (c & Hc & Hi & Hl & _).
    pose proof (SIZE_bounds _ _ HP). unfold ThreadSafeIndexPool, initializeIndexes in Hp. rewrite Hc in Hp.
    destruct (Z.to_nat SIZE) as [|f] eqn:Ef; [lia|]. cbn [initializeIndexes_from] in Hp.
    unfold call_alone in Hp. simpl in Hp. rewrite lookup_ge_None_2 in Hp by (rewrite length_fmap; lia).
    rewrite uwrap_small, (proj2 (Z.ltb_lt _ _)) in Hp by lia. done.
Qed.

Lemma pool_inv_reachable a0 m : reachable (M := pool_machine SIZE) (pool_init SIZE a0 n) m → pool_inv m.
Proof using HP Hn.
  revert m. apply (invariant (M := pool_machine SIZE)).
  - apply pool_inv_init.
  - intros m a m' _. apply pool_inv_step.
Qed.

Lemma pool_inv_perm m :
  pool_inv m → ∃ rest, rest ++ concat (p_held m) ≡ₚ seqZ 0 SIZE.
Proof.
  intros [(c & _ & _ & _ & [_ Hp]) _]. eexists. rewrite <- Hp, app_assoc. done.
Qed.

(** *** Theorems *)

(** C20. No double checkout: whatever the interleaving of clients that get
    indexes and return only indexes they hold, no index is held twice, by one
    client or by two, and every index handed out is in [0, SIZE). *)
Theorem pool_no_double_checkout a0 m :
  reachable (M := pool_machine SIZE) (pool_init SIZE a0 n) m →
  NoDup (concat (p_held m)) ∧ ∀ i, i ∈ concat (p_held m) → 0 <= i < SIZE.
Proof using HP Hn.
  intros Hr. destruct (pool_inv_perm m (pool_inv_reachable a0 m Hr)) as [rest Hp]. split.
  - assert (NoDup (rest ++ concat (p_held m))) as H by (rewrite Hp; apply NoDup_seqZ).
    by apply NoDup_app in H as (_ & _ & H).
  - intros i Hin. assert (i ∈ seqZ 0 SIZE) as H by (rewrite <- Hp; apply elem_of_app; by right).
    apply elem_of_seqZ in H. lia.
Qed.

(** C21. No index is lost: when no thread is inside the pool, the indexes in the
    pool and the indexes held are together exactly [0 .. SIZE-1]. *)
Theorem pool_conserves_indexes a0 m :
  reachable (M := pool_machine SIZE) (pool_init SIZE a0 n) m → quiescent (p_pool m) = true →
  contents (p_pool m) ++ concat (p_held m) ≡ₚ seqZ 0 SIZE.
Proof using HP Hn.
  intros [(c & Hc & Hi & Hl & [_ Hp]) _]%pool_inv_reachable Hq. rewrite Hc in *.
  rewrite quiescent_wrap in Hq. rewrite <- Hp. unfold contents. simpl.
  rewrite (ci_reads _ _ _ Hi), Nat2Z.id. f_equiv.
  assert (concat (carried <$> (athread_of (c_hist c) <$> c_thr c)) = []) as ->; [|done].
  rewrite (all_idle _ Hq), !fmap_replicate. simpl. clear. by induction (length (c_thr c)).
Qed.

(** C22. [returnIndex] is never stuck: if no thread can move, every thread inside
    the pool waits in [getIndex], and the pool is empty.  (A full pool cannot
    keep a return waiting, since there is room for every index.) *)
Theorem pool_return_never_stuck a0 m :
  reachable (M := pool_machine SIZE) (pool_init SIZE a0 n) m →
  all_blocked SIZE BATCH_SIZE (p_pool m) →
  ∀ t p, c_thr (p_pool m) !! t = Some p → active p = true →
    waits_to_read p = true ∧ contents (p_pool m) = [].
Proof using HP Hn.
  intros [(c & Hc & Hi & Hl & [_ Hperm]) _]%pool_inv_reachable. rewrite Hc. intros Hb t q Ht Ha.
  destruct (all_blocked_quiet SIZE BATCH_SIZE HP n Hn c Hi Hl Hb) as [Hq Hw].
  pose proof (ci_p _ _ _ Hi) as Hp. pose proof (pi_W _ _ Hp) as HW. simpl in HW.
  pose proof (SIZE_bounds _ _ HP) as [HS _]. pose proof (ci_reads _ _ _ Hi) as HR.
  simpl in Ht. rewrite list_lookup_fmap in Ht. apply fmap_Some in Ht as (p & Ht & ->).
  pose proof (view_lookup _ _ _ Ht) as Hv.
  assert (waiting SIZE (c_ring c) p = true) as Hwp by (eapply Hw; eauto; by destruct p).
  assert (Z.of_nat (length (c_hist c)) - Z.of_nat (c_reads c) <= SIZE) as Hroom.
  { apply Permutation_length in Hperm. rewrite !length_app, length_seqZ in Hperm. simpl in Hperm.
    rewrite length_drop, HR, Nat2Z.id in Hperm. lia. }
  destruct (slot_at_total SIZE HS (buffer (c_ring c))
    (match p with EnqSpin _ _ x => x | _ => 0 end) (pi_len _ _ Hp)) as [s Hs].
  unfold contents. simpl. destruct p; try done; simpl in Hv, Hs; simpl.
  - exfalso. pose proof (quiet_writer SIZE HS _ Hp Hq _ _ _ Hv) as Hx.
    destruct (pi_wr _ _ Hp _ _ _ _ Hv Hs) as [[_ Hlt] _]. simpl in Hx, Hlt. lia.
  - split; [done|]. pose proof (quiet_reader SIZE HS _ Hp Hq _ _ _ Hv) as Hx. simpl in Hx.
    destruct (slot_at_total SIZE HS (buffer (c_ring c)) ticket (pi_len _ _ Hp)) as [s' Hs'].
    destruct (pi_rd _ _ Hp _ _ _ _ Hv Hs') as [[_ Hlt] _]. simpl in Hlt. apply drop_ge. lia.
  - split; [done|]. pose proof (quiet_reader SIZE HS _ Hp Hq _ _ _ Hv) as Hx. simpl in Hx.
    destruct (slot_at_total SIZE HS (buffer (c_ring c)) ticket (pi_len _ _ Hp)) as [s' Hs'].
    destruct (pi_rd _ _ Hp _ _ _ _ Hv Hs') as [[_ Hlt] _]. simpl in Hlt. apply drop_ge. lia.
Qed.

(** The constructor terminates without waiting and leaves the pool filled
    with [0, 1, .., SIZE-1] in order. *)
Theorem pool_constructed a0 t :
  (t < n)%nat →
  ∃ c, ThreadSafeIndexPool SIZE a0 n t = Some c ∧ quiescent c = true ∧ contents c = seqZ 0 SIZE.
Proof using HP Hn.
  intros Ht. destruct (pool_constructed_lemma a0 t Ht) as (c & Hc & _ & Hth & Hh & Hr).
  exists (wrap_cfg c). rewrite Hc, quiescent_wrap. unfold quiescent, contents. simpl. rewrite Hth, Hh, Hr.
  split_and!; [done| |done]. clear. by induction n.
Qed.

(** [reInitializePool] on a pool no other thread is inside of terminates and
    leaves the pool as freshly constructed, whatever was checked out. *)
Theorem pool_reinitialized a0 m t :
  reachable (M := pool_machine SIZE) (pool_init SIZE a0 n) m → quiescent (p_pool m) = true → (t < n)%nat →
  ∃ c, reInitializePool SIZE t (p_pool m) = Some c ∧ quiescent c = true ∧ contents c = seqZ 0 SIZE.
Proof using HP Hn.
  intros [(c & Hc & Hi & Hl & _) _]%pool_inv_reachable Hq Ht. rewrite Hc in *. rewrite quiescent_wrap in Hq.
  destruct (clearBuffer_quiescent SIZE BATCH_SIZE HP c (length (c_thr c)) Hi (all_idle _ Hq)) as (r & Hr & _).
  assert (exec machine_arith SIZE BATCH_SIZE (wrap_cfg c) Clear = Some (wrap_cfg (mkCfg r (c_thr c) [] 0))) as He.
  { rewrite (exec_wrap _ _ HP) by (done || by rewrite Hl). simpl. unfold quiescent in Hq. by rewrite Hq, Hr. }
  destruct (reInitialize_total c t _ Hi Hl Ht He) as (c' & Hc' & _ & Hth & Hh & Hrd).
  exists (wrap_cfg c'). unfold reInitializePool. rewrite He, Hc', quiescent_wrap.
  unfold quiescent, contents. simpl. rewrite Hth, Hh, Hrd. split_and!; [done| |done]. clear. by induction n.
Qed.
End Proofs.

(** ** A pool of two indexes and two clients

    Both indexes are checked out, client 1 asks for a third and waits. *)

Lemma params_pool_2 : params_ok 2 BATCH_SIZE.
Proof. by split. Qed.

Definition ex_pool : pcfg :=
  mkP (default no_cfg (ThreadSafeIndexPool 2 77 2 0)) [[]; []].
Definition ex_pool_sched : list pact :=
  [GetIndex 0; GetIndex 1] ++ replicate 4 (Step 1) ++ replicate 4 (Step 0) ++ [Finish 0; Finish 1] ++
  [GetIndex 1; Step 1; ReturnIndex 0 1] ++ replicate 4 (Step 0) ++ [Finish 0].
Definition ex_pool_at (k : nat) : pcfg :=
  default ex_pool (run (M := pool_machine 2) ex_pool (take k ex_pool_sched)).

Lemma ex_pool_init : pool_init 2 77 2 ex_pool.
Proof. split; by vm_compute. Qed.

Lemma ex_pool_reach k :
  run (M := pool_machine 2) ex_pool (take k ex_pool_sched) = Some (ex_pool_at k) →
  reachable (M := pool_machine 2) (pool_init 2 77 2) (ex_pool_at k).
Proof. apply run_reachable. apply reach_init, ex_pool_init. Qed.

Lemma pool_no_double_checkout_witness :
  p_held (ex_pool_at 12) = [[1]; [0]] ∧ NoDup (concat (p_held (ex_pool_at 12))).
Proof.
  split; [by vm_compute|].
  apply (pool_no_double_checkout 2 params_pool_2 2 ltac:(lia) 77). apply ex_pool_reach. by vm_compute.
Defined.

Lemma pool_conserves_indexes_witness :
  p_held (ex_pool_at 12) = [[1]; [0]] ∧
  contents (p_pool (ex_pool_at 12)) ++ concat (p_held (ex_pool_at 12)) ≡ₚ seqZ 0 2.
Proof.
  split; [by vm_compute|]. apply (pool_conserves_indexes 2 params_pool_2 2 ltac:(lia) 77);
    [apply ex_pool_reach; by vm_compute|by vm_compute].
Defined.

Lemma pool_return_never_stuck_witness :
  c_thr (p_pool (ex_pool_at 14)) !! 1%nat = Some (DeqSpin 2) ∧ contents (p_pool (ex_pool_at 14)) = [].
Proof.
  split; [by vm_compute|].
  apply (pool_return_never_stuck 2 params_pool_2 2 ltac:(lia) 77 (ex_pool_at 14)) with
    (t := 1%nat) (p := DeqSpin (A := Z) 2);
    [apply ex_pool_reach; by vm_compute| |by vm_compute|done].
  intros [|[|t]] p Hp Ha; vm_compute in Hp; [|by vm_compute|discriminate Hp].
  injection Hp as <-. discriminate Ha.
Defined.

Lemma pool_constructed_witness :
  ∃ c, ThreadSafeIndexPool 4 77 3 2 = Some c ∧ quiescent c = true ∧ contents c = [0; 1; 2; 3].
Proof.
  apply (pool_constructed 4 ltac:(by split) 3 ltac:(lia) 77 2). lia.
Defined.

Lemma pool_reinitialized_witness :
  p_held (ex_pool_at 12) = [[1]; [0]] ∧
  ∃ c, reInitializePool 2 1 (p_pool (ex_pool_at 12)) = Some c ∧ quiescent c = true ∧ contents c = [0; 1].
Proof.
  split; [by vm_compute|].
  apply (pool_reinitialized 2 params_pool_2 2 ltac:(lia) 77 (ex_pool_at 12) 1);
    [apply ex_pool_reach; by vm_compute|by vm_compute|lia].
Defined.
