(* ===== verification/RingAdapter.v ===== *)
(** * AtomicRingBuffer behind the interface of the measurements

    Model of [AstraQ] in [src/bench/QueueComparisonBench.cpp] and [AstraPool] in
    [src/bench/IndexPoolComparisonBench.cpp]: their members forward to the ring
    buffer, resp. to the index pool over one. *)

From Stdlib Require Import ZArith Lia.
From S2P Require Import Prelude MachineInt Lts AtomicRingBuffer RingProtocol RingInvariant.
From S2P Require Import RingMachine QueueSpec RingRefinement RingTheorems RingAlone RingClient IndexPool Adapter.
Local Open Scope Z_scope.
Local Open Scope astra_scope.

Module AstraQ.

(** [q.enqueue(std::move(v))] and [q.dequeue()]. *)
Definition push (v : Z) : op Z := OpEnqueue EnqMove v.
Definition pop : op Z := OpDequeue.

(** An [AtomicRingBuffer<uint64_t, SIZE>] and the threads in it. *)
Record t (SIZE : Z) := mk { q : cfg Z }.
Arguments mk {_} _.
Arguments q {_} _.

Definition phase_of (p : pc Z) : phase :=
  match p with
  | Idle => Outside
  | EnqTicket _ _ | EnqSpin _ _ _ | EnqWrite _ _ _ | EnqConstruct _ _ | EnqPublish _ => Pushing
  | EnqReturn => Pushed
  | DeqReturn _ v => Popped v
  | _ => Popping
  end.

#[global] Instance adapter SIZE : Adapter (t SIZE) := {
  ad_choice := unit;
  ad_push c t v := mk <$> exec machine_arith SIZE BATCH_SIZE (q c) (Call t (push v));
  ad_pop c t := mk <$> exec machine_arith SIZE BATCH_SIZE (q c) (Call t pop);
  ad_run c t _ := mk <$> exec machine_arith SIZE BATCH_SIZE (q c) (Run t);
  ad_ret c t := mk <$> exec machine_arith SIZE BATCH_SIZE (q c) (Ret t);
  ad_thr c := phase_of <$> c_thr (q c);
}.

Section Laws.
Context (SIZE : Z) (HP : params_ok SIZE BATCH_SIZE) (n : nat) (Hn : SIZE * Z.of_nat n < 2 ^ 64) (R : roles).
Abbreviation mexec := (exec machine_arith SIZE BATCH_SIZE).

Lemma mk_inv (o : option (cfg Z)) (c' : t SIZE) : mk <$> o = Some c' → o = Some (q c').
Proof. destruct o; simpl; [|done]. by intros [= <-]. Qed.

Lemma thr_inv (c : t SIZE) i p : ad_thr c !! i = Some p → ∃ r, c_thr (q c) !! i = Some r ∧ p = phase_of r.
Proof. simpl. rewrite list_lookup_fmap. intros (r & ? & ->)%fmap_Some. eauto. Qed.

Lemma thr_insert (c c' : t SIZE) i r :
  c_thr (q c') = <[i := r]> (c_thr (q c)) → ad_thr c' = <[i := phase_of r]> (ad_thr c).
Proof. simpl. intros ->. by rewrite list_fmap_insert. Qed.

Lemma run_phases c i r c' : mexec c (Run i) = Some c' → c_thr c !! i = Some r →
  ∃ r', c_thr c' = <[i := r']> (c_thr c) ∧ goes_on (phase_of r) (phase_of r') = true.
Proof.
  simpl. intros H Hr. rewrite Hr in H.
  destruct (step_ring machine_arith SIZE (c_ring c) r) as [[x r']|] eqn:Es; [|done]. injection H as <-.
  exists r'. split; [done|]. destruct r; simpl in Es; try done; step_inv Es; try done; by repeat case_match.
Qed.

#[global] Instance conserves : Conserves (t SIZE) n R.
Proof using HP Hn.
  refine {| ad_flow c := ring_flow SIZE BATCH_SIZE n (q c) |}.
  - intros c. apply ring_flow_perm.
  - intros c held total (c0 & _ & _ & _ & [_ H]). eexists. rewrite <- H, app_assoc. done.
  - intros c held total (c0 & E & _ & Hl & _). simpl. rewrite length_fmap, E. simpl. by rewrite length_fmap.
  - intros c i v c' held held' total total' Hf _ He%mk_inv. by eapply ring_flow_enqueue.
  - intros c i c' held total Hf _ He%mk_inv. by eapply ring_flow_dequeue.
  - intros c i a c' held total Hf He%mk_inv. by eapply ring_flow_run.
  - intros c i p c' held total Hf (r & Hr & ->)%thr_inv He%mk_inv.
    pose proof (ring_flow_return SIZE BATCH_SIZE HP n Hn _ i r _ _ _ Hf Hr He) as H. by destruct r.
  - intros c i v c' He%mk_inv. exact (thr_insert c c' i (EnqTicket EnqMove v) (exec_call_thr _ _ _ _ _ _ He)).
  - intros c i c' He%mk_inv. exact (thr_insert c c' i DeqTicket (exec_call_thr _ _ _ _ _ _ He)).
  - intros c i a p c' held total _ He%mk_inv (r & Hr & ->)%thr_inv. destruct (run_phases _ _ _ _ He Hr) as (r' & E & Hg).
    exists (phase_of r'). split; [by apply thr_insert|done].
  - intros c i c' He%mk_inv. exact (thr_insert c c' i Idle (exec_ret_thr _ _ _ _ _ He)).
  - intros c i v held total _ _ (r & Hr & Hp)%thr_inv. simpl. rewrite Hr. by destruct r.
  - intros c i held total _ _ (r & Hr & Hp)%thr_inv. simpl. rewrite Hr. by destruct r.
  - intros c i p held total _ (r & Hr & ->)%thr_inv Hret. simpl. rewrite Hr. by destruct r.
Defined.

(** A thread inside a call is active in the ring. *)
Lemma busy_active c held total i r :
  ring_flow SIZE BATCH_SIZE n c held total → c_thr c !! i = Some r → busy (phase_of r) = active r.
Proof.
  intros (c0 & -> & _ & _ & [H _]) Hr. simpl in Hr. rewrite list_lookup_fmap in Hr. apply fmap_Some in Hr as (r0 & Hr & ->).
  specialize (H i (athread_of (c_hist c0) r0)). simpl in H. rewrite list_lookup_fmap, Hr in H. specialize (H eq_refl).
  by destruct r0.
Qed.

#[global] Instance progresses : Progresses (t SIZE) n R SIZE.
Proof using HP Hn.
  refine {| ad_work c := total_work (q c); cost := work (EnqTicket EnqMove 0) |}.
  - pose proof (SIZE_bounds _ _ HP). lia.
  - intros c i v c' He%mk_inv. pose proof (exec_call_thr _ _ _ _ _ _ He) as Ht. simpl in He. step_inv He.
    pose proof (work_insert (q c) (q c') i _ _ E Ht). simpl in *. lia.
  - intros c i c' He%mk_inv. pose proof (exec_call_thr _ _ _ _ _ _ He) as Ht. simpl in He. step_inv He.
    pose proof (work_insert (q c) (q c') i _ _ E Ht). simpl in *. lia.
  - intros c i c' He%mk_inv. pose proof (exec_ret_thr _ _ _ _ _ He) as Ht. simpl in He. step_inv He.
    pose proof (work_insert (q c) (q c') i _ _ E Ht). simpl in *. lia.
  - intros c held total Hf Hnr.
    destruct (ring_flow_moves SIZE BATCH_SIZE HP n Hn _ _ _ Hf) as [(i & r & c' & Hr & Ha & He & Hlt)|Hb].
    + left. exists i, (phase_of r), tt, (mk c'). cbn [ad_thr ad_run adapter]. rewrite list_lookup_fmap, Hr, He.
      split_and!; [done|by rewrite (busy_active _ _ _ _ _ Hf Hr)|done|done].
    + right. intros i p (r & Hr & ->)%thr_inv Hbusy.
      assert (∀ j x, c_thr (q c) !! j = Some x → returning x = false) as Hnr'.
      { intros j x Hx. specialize (Hnr j (phase_of x)). simpl in Hnr. rewrite list_lookup_fmap, Hx in Hnr.
        specialize (Hnr eq_refl). pose proof (busy_active _ _ _ _ _ Hf Hx). by destruct x. }
      assert (r ≠ Idle) as Hne by (by intros ->).
      assert (∀ j x, c_thr (q c) !! j = Some x → busy (phase_of x) = true → x ≠ Idle) as Hidle by (by intros j x _ H ->).
      destruct (ring_flow_stuck SIZE BATCH_SIZE HP n Hn _ _ _ i r Hf Hb Hnr' Hr Hne) as [(Hw & Hp & Hall)|(Hw & Hp & Hall)].
      * left. split_and!; [by destruct r|done|]. intros j x (y & Hy & ->)%thr_inv Hby.
        specialize (Hall j y Hy (Hidle j y Hy Hby)). by destruct y.
      * right. split_and!; [by destruct r|done|]. intros j x (y & Hy & ->)%thr_inv Hby.
        specialize (Hall j y Hy (Hidle j y Hy Hby)). by destruct y.
Defined.

(** A buffer that was just constructed. *)
Definition fresh (a0 : Z) (c : t SIZE) : Prop := init_cfg machine_arith SIZE BATCH_SIZE a0 n = Some (q c).

Lemma fresh_starts a0 : starts_with (R := R) (fresh a0) [].
Proof using HP Hn.
  intros c Hc. split; [by eapply ring_flow_init|]. unfold fresh, init_cfg in Hc. step_inv Hc.
  simpl. rewrite <- Hc. simpl. by rewrite fmap_replicate.
Qed.

(** [AstraPool]: the same buffer, filled by the constructor of the pool. *)
Definition fresh_pool (a0 : Z) (c : t SIZE) : Prop := ThreadSafeIndexPool SIZE a0 n 0 = Some (q c).

Lemma fresh_pool_starts a0 : (0 < n)%nat → starts_with (R := R) (fresh_pool a0) (seqZ 0 SIZE).
Proof using HP Hn.
  intros H0 c Hc. destruct (pool_constructed_lemma SIZE HP n Hn a0 0 H0) as (c0 & Hc0 & Hi & Hth & Hh & Hr).
  unfold fresh_pool in Hc. rewrite Hc in Hc0. injection Hc0 as Hq. split.
  - simpl. rewrite Hq. pose proof (pool_flow_full SIZE n c0 Hi Hth Hh Hr) as H.
    assert (concat (replicate n ([] : list Z)) = []) as E by (clear; by induction n). by rewrite E in H.
  - simpl. rewrite Hq. simpl. by rewrite Hth, !fmap_replicate.
Qed.
End Laws.
End AstraQ.

Module AstraPool.
(** [p.getIndex()] and [p.returnIndex(i)]: the same calls of the buffer. *)
Definition get : op Z := getIndex.
Definition put (i : Z) : op Z := returnIndex i.

Lemma get_is_pop : get = AstraQ.pop.
Proof. done. Qed.

Lemma put_is_push i : put i = AstraQ.push i.
Proof. done. Qed.
End AstraPool.
