(* ===== verification/LibAdapter.v ===== *)
(** * The adapters of third-party queues

    Model of the adapters over [rigtorp], [boost::lockfree] and [moodycamel]
    queues in [src/bench/QueueComparisonBench.cpp] and
    [src/bench/IndexPoolComparisonBench.cpp]: a call of a blocking member, or a
    loop around a try-operation with [_mm_pause()].  The libraries are not part of
    the repository: [LibQueue] and [FrontQueue] state what their documentation
    promises of one operation, and everything is proved for every such library. *)

From Stdlib Require Import ZArith Lia.
From S2P Require Import Prelude MachineInt Lts Adapter.
Local Open Scope Z_scope.
Local Open Scope astra_scope.

(** A concurrent container with operations that take effect at one instant.
    [lib_push k s v] is [push], [try_enqueue] or [enqueue], with its result; for a
    member that blocks, [false] means that it still waits.  [lib_pop] likewise.
    [k] resolves what the documentation leaves open: which value a container
    without an order hands out, and whether an operation fails although it could
    have succeeded.  [cap] is the number of values there is room for. *)
Class LibQueue (S : Type) (cap : Z) := {
  lib_push : nat → S → Z → S * bool;
  lib_pop : nat → S → S * option Z;
  lib_items : S → list Z;

  lib_push_true k s v s' : lib_push k s v = (s', true) → lib_items s' ≡ₚ v :: lib_items s;
  lib_push_false k s v s' : lib_push k s v = (s', false) → lib_items s' ≡ₚ lib_items s;
  lib_pop_some k s v s' : lib_pop k s = (s', Some v) → lib_items s ≡ₚ v :: lib_items s';
  lib_pop_none k s s' : lib_pop k s = (s', None) → lib_items s' ≡ₚ lib_items s;
  lib_room s v : Z.of_nat (length (lib_items s)) < cap → ∃ k s', lib_push k s v = (s', true);
  lib_value s : lib_items s ≠ [] → ∃ k s' v, lib_pop k s = (s', Some v);
}.

(** A queue for one consumer, who looks at the oldest value and removes it:
    [front()] gives a pointer to it, or null; the pointer is valid until [pop()]. *)
Class FrontQueue (S : Type) (cap : Z) := {
  fq_push : nat → S → Z → S * bool;
  fq_front : nat → S → option Z;
  fq_pop : S → S;
  fq_items : S → list Z;

  fq_push_true k s v s' : fq_push k s v = (s', true) → fq_items s' = fq_items s ++ [v];
  fq_push_false k s v s' : fq_push k s v = (s', false) → fq_items s' = fq_items s;
  fq_front_some k s v : fq_front k s = Some v → head (fq_items s) = Some v;
  fq_pop_items s v l : fq_items s = v :: l → fq_items (fq_pop s) = l;
  fq_room s v : Z.of_nat (length (fq_items s)) < cap → ∃ k s', fq_push k s v = (s', true);
  fq_value s : fq_items s ≠ [] → ∃ k v, fq_front k s = Some v;
}.

(** ** The code *)

(** Inside [push(v)]: at the operation, before [_mm_pause()].  Inside [pop()]: the
    same, then at [v = *p] with a pointer to a value, at [q.pop()]. *)
Inductive apc :=
| AOut
| APush (v : Z)
| APushPause (v : Z)
| APushRet
| APop
| APopPause
| ADeref (v : Z)
| ADrop (v : Z)
| APopRet (v : Z).

(** The operation in [push] and the one in [pop], with what follows them; the
    [q.pop()] after [q.front()]. *)
Record code (S : Type) := mkCode {
  c_push : nat → S → Z → S * apc;
  c_pop : nat → S → S * apc;
  c_drop : S → S;
}.
Arguments mkCode {_} _ _ _.
Arguments c_push {_} _ _ _ _.
Arguments c_pop {_} _ _ _.
Arguments c_drop {_} _ _.

Section Code.
Context {S : Type} {cap : Z} `{!LibQueue S cap}.

(** [q.push(v);] of a queue that blocks. *)
Definition block_push (k : nat) (s : S) (v : Z) : S * apc :=
  let '(s', done) := lib_push k s v in (s', if done then APushRet else APush v).
(** [while (!q.push(v)) _mm_pause();] *)
Definition retry_push (k : nat) (s : S) (v : Z) : S * apc :=
  let '(s', ok) := lib_push k s v in (s', if ok then APushRet else APushPause v).
(** [q.enqueue(v);], the result is not looked at. *)
Definition once_push (k : nat) (s : S) (v : Z) : S * apc := ((lib_push k s v).1, APushRet).

(** [q.pop(v); return v;] of a queue that blocks. *)
Definition block_pop (k : nat) (s : S) : S * apc :=
  let '(s', r) := lib_pop k s in (s', match r with Some v => APopRet v | None => APop end).
(** [while (!q.pop(v)) _mm_pause(); return v;] *)
Definition retry_pop (k : nat) (s : S) : S * apc :=
  let '(s', r) := lib_pop k s in (s', match r with Some v => APopRet v | None => APopPause end).

(** The adapters of [QueueComparisonBench.cpp]. *)
Definition RigtorpMPMC : code S := mkCode block_push block_pop id.
Definition BoostQueue : code S := mkCode retry_push retry_pop id.
Definition MoodyCQ : code S := mkCode once_push retry_pop id.
Definition MoodyRWQ : code S := mkCode retry_push retry_pop id.
Definition BoostSPSC : code S := mkCode retry_push retry_pop id.

(** [get] and [put] of those of [IndexPoolComparisonBench.cpp]. *)
Definition RigtorpPool : code S := mkCode block_push block_pop id.
Definition BoostStackPool : code S := mkCode retry_push retry_pop id.
Definition MoodyPool : code S := mkCode once_push retry_pop id.
End Code.

Section FrontCode.
Context {S : Type} {cap : Z} `{!FrontQueue S cap}.

Definition front_push (k : nat) (s : S) (v : Z) : S * apc :=
  let '(s', done) := fq_push k s v in (s', if done then APushRet else APush v).
(** [while (!(p = q.front())) _mm_pause();] *)
Definition front_pop (k : nat) (s : S) : S * apc :=
  (s, match fq_front k s with Some v => ADeref v | None => APopPause end).

Definition RigtorpSPSC : code S := mkCode front_push front_pop fq_pop.
End FrontCode.

(** One step of a thread inside a call. *)
Definition a_step {S} (C : code S) (k : nat) (s : S) (p : apc) : option (S * apc) :=
  match p with
  | APush v => Some (c_push C k s v)
  | APushPause v => Some (s, APush v)
  | APop => Some (c_pop C k s)
  | APopPause => Some (s, APop)
  | ADeref v => Some (s, ADrop v)
  | ADrop v => Some (c_drop C s, APopRet v)
  | _ => None
  end.

(** The queue and its users. *)
Record lq {S} (C : code S) := mkLq { l_q : S; l_thr : list apc }.
Arguments mkLq {_ _} _ _.
Arguments l_q {_ _} _.
Arguments l_thr {_ _} _.

Definition a_phase (p : apc) : phase :=
  match p with
  | AOut => Outside
  | APush _ | APushPause _ => Pushing
  | APushRet => Pushed
  | APop | APopPause | ADeref _ | ADrop _ => Popping
  | APopRet v => Popped v
  end.

#[global] Instance lib_adapter {S} (C : code S) : Adapter (lq C) := {
  ad_choice := nat;
  ad_push c t v := match l_thr c !! t with Some AOut => Some (mkLq (l_q c) (<[t := APush v]> (l_thr c))) | _ => None end;
  ad_pop c t := match l_thr c !! t with Some AOut => Some (mkLq (l_q c) (<[t := APop]> (l_thr c))) | _ => None end;
  ad_run c t k :=
    let? p := l_thr c !! t in
    let? r := a_step C k (l_q c) p in Some (mkLq r.1 (<[t := r.2]> (l_thr c)));
  ad_ret c t :=
    match l_thr c !! t with
    | Some (APushRet | APopRet _) => Some (mkLq (l_q c) (<[t := AOut]> (l_thr c)))
    | _ => None
    end;
  ad_thr c := a_phase <$> l_thr c;
}.

(** The constructors of the pools push 0, 1, ..: [push] is the statement of the
    loop body, [ks] the choices; a statement that waits is run again. *)
Fixpoint fill {S} (push : nat → S → Z → S * apc) (ks : list nat) (todo : list Z) (s : S) : option S :=
  match todo, ks with
  | [], _ => Some s
  | _, [] => None
  | i :: todo', k :: ks' =>
      match push k s i with
      | (s', APushRet) => fill push ks' todo' s'
      | (s', _) => fill push ks' todo s'
      end
  end.

Section Constructors.
Context {S : Type} {cap : Z} `{!LibQueue S cap}.
(** [for (int i = 0; i < int(SIZE); ++i) q.push(i);], [s.push(i)] without a look at
    the result, [q.enqueue(i)]. *)
Definition RigtorpPool_init (SIZE : Z) (ks : list nat) (s : S) : option S := fill block_push ks (seqZ 0 SIZE) s.
Definition BoostStackPool_init (SIZE : Z) (ks : list nat) (s : S) : option S := fill once_push ks (seqZ 0 SIZE) s.
Definition MoodyPool_init (SIZE : Z) (ks : list nat) (s : S) : option S := fill once_push ks (seqZ 0 SIZE) s.
End Constructors.

(** ** Laws of the code *)

(** What the operations of an adapter do to the values in the queue.  [front s v]
    says that a pointer to the oldest value is valid, and that it is [v]. *)
Record code_ok {S} (C : code S) (items : S → list Z) (front : S → Z → Prop) (cap : Z) : Prop := {
  co_push k s v s' p : c_push C k s v = (s', p) →
    (p = APushRet ∧ items s' ≡ₚ v :: items s) ∨ ((p = APush v ∨ p = APushPause v) ∧ items s' ≡ₚ items s);
  co_pop k s s' p : c_pop C k s = (s', p) →
    (∃ v, p = APopRet v ∧ items s ≡ₚ v :: items s') ∨
    ((p = APop ∨ p = APopPause ∨ ∃ v, p = ADeref v ∧ front s' v) ∧ items s' ≡ₚ items s);
  co_drop s v : front s v → items s ≡ₚ v :: items (c_drop C s);
  co_front k s v w : front s v → front (c_push C k s w).1 v;
  co_room s v : Z.of_nat (length (items s)) < cap → ∃ k s', c_push C k s v = (s', APushRet);
  co_value s : items s ≠ [] → ∃ k s' p, c_pop C k s = (s', p) ∧ p ≠ APop ∧ p ≠ APopPause;
}.

Section CodeLaws.
Context {S : Type} {cap : Z} `{!LibQueue S cap}.
Abbreviation nowhere := (λ (_ : S) (_ : Z), False).

(** A thread whose operation fails waits at [wpush v], resp. at [wpop]. *)
Lemma waits_ok (wpush : Z → apc) (wpop : apc) :
  (∀ v, wpush v = APush v ∨ wpush v = APushPause v) → (wpop = APop ∨ wpop = APopPause) →
  code_ok (mkCode
    (λ k s v, let '(s', ok) := lib_push k s v in (s', if ok then APushRet else wpush v))
    (λ k s, let '(s', r) := lib_pop k s in (s', match r with Some v => APopRet v | None => wpop end)) id)
    lib_items nowhere cap.
Proof.
  intros Hpush Hpop. split; simpl; try done.
  - intros k s v s' p H. destruct (lib_push k s v) as [s1 []] eqn:E; simplify_eq.
    + left. split; [done|]. by eapply lib_push_true.
    + right. split; [done|]. by eapply lib_push_false.
  - intros k s s' p H. destruct (lib_pop k s) as [s1 [v|]] eqn:E; simplify_eq.
    + left. exists v. split; [done|]. by eapply lib_pop_some.
    + right. split; [destruct Hpop; eauto|]. by eapply lib_pop_none.
  - intros s v (k & s' & E)%(lib_room s v). exists k, s'. by rewrite E.
  - intros s (k & s' & v & E)%lib_value. exists k, s', (APopRet v). by rewrite E.
Qed.

Lemma retry_ok : code_ok (mkCode retry_push retry_pop id) lib_items nowhere cap.
Proof. apply (waits_ok APushPause APopPause); eauto. Qed.

Lemma block_ok : code_ok (mkCode block_push block_pop id) lib_items nowhere cap.
Proof. apply (waits_ok APush APop); eauto. Qed.

(** [enqueue] of an unbounded queue does not fail while memory is left. *)
Lemma once_ok : (∀ k s v, (lib_push k s v).2 = true) → code_ok (mkCode once_push retry_pop id) lib_items nowhere cap.
Proof.
  intros Hok. destruct retry_ok as [_ Hpop _ _ _ Hval]. split; try done; simpl; unfold once_push.
  - intros k s v s' p H. pose proof (Hok k s v) as H2. destruct (lib_push k s v) as [s1 b] eqn:E. simplify_eq/=.
    left. split; [done|]. by eapply lib_push_true.
  - intros s v _. exists 0%nat. by eexists.
Qed.
End CodeLaws.

Lemma front_ok {S} {cap : Z} `{!FrontQueue S cap} : code_ok RigtorpSPSC fq_items (λ s v, head (fq_items s) = Some v) cap.
Proof.
  assert (∀ s v, head (fq_items s) = Some v → fq_items s = v :: fq_items (fq_pop s)) as Hhead.
  { intros s v Hh. destruct (fq_items s) as [|x l] eqn:E; [done|]. injection Hh as ->. by rewrite (fq_pop_items s v l E). }
  split; simpl; unfold front_push, front_pop.
  - intros k s v s' p H. destruct (fq_push k s v) as [s1 []] eqn:E; simplify_eq.
    + left. split; [done|]. rewrite (fq_push_true _ _ _ _ E). by rewrite Permutation_app_comm.
    + right. split; [by left|]. by rewrite (fq_push_false _ _ _ _ E).
  - intros k s s' p H. right. destruct (fq_front k s) as [v|] eqn:E; simplify_eq; [|eauto].
    apply fq_front_some in E. split; [right; right; eauto|done].
  - intros s v H. by rewrite (Hhead s v H) at 1.
  - intros k s v w Hh. destruct (fq_push k s w) as [s1 []] eqn:E; simpl.
    + rewrite (fq_push_true _ _ _ _ E). by destruct (fq_items s).
    + by rewrite (fq_push_false _ _ _ _ E).
  - intros s v (k & s' & E)%(fq_room s v). exists k, s'. by rewrite E.
  - intros s (k & v & E)%fq_value. eexists k, _, _. rewrite E. done.
Qed.

(** ** The adapters conserve values and make progress *)

Section Laws.
Context {S : Type} (C : code S) (items : S → list Z) (front : S → Z → Prop) (cap : Z) (HC : code_ok C items front cap).
Context (n : nat) (R : roles).
(** A queue whose consumer holds pointers has one consumer only. *)
Context (Hone : (∀ s v, front s v → False) ∨ 
  (∀ t t', (t < n)%nat → (t' < n)%nat → pops R t = true → pops R t' = true → t = t')).
Implicit Types (c : lq C).

Definition a_carried (p : apc) : list Z :=
  match p with APush v | APushPause v | APopRet v => [v] | _ => [] end.
Definition a_points (p : apc) (s : S) : Prop :=
  match p with ADeref v | ADrop v => front s v | _ => True end.
Definition a_pops (p : apc) : bool :=
  match p with APop | APopPause | ADeref _ | ADrop _ => true | _ => false end.

Record lib_flow c (held total : list Z) : Prop := {
  lf_len : length (l_thr c) = n;
  lf_perm : items (l_q c) ++ concat (a_carried <$> l_thr c) ++ held ≡ₚ total;
  lf_role : ∀ t p, l_thr c !! t = Some p → a_pops p = true → pops R t = true;
  lf_point : ∀ t p, l_thr c !! t = Some p → a_points p (l_q c);
}.

(** Thread [t] goes from [p] to [p'] and the queue from [l_q c] to [s']. *)
Lemma lib_flow_move c t p s' p' held held' total total' :
  lib_flow c held total → l_thr c !! t = Some p → (a_pops p' = true → pops R t = true) → a_points p' s' →
  (∀ j q, j ≠ t → l_thr c !! j = Some q → a_points q (l_q c) → a_points q s') →
  (∀ rest, items (l_q c) ++ (a_carried p ++ rest) ++ held ≡ₚ total → items s' ++ (a_carried p' ++ rest) ++ held' ≡ₚ total') →
  lib_flow (mkLq s' (<[t := p']> (l_thr c))) held' total'.
Proof.
  intros [Hl Hp Hr Hf] Ht Hr' Hf' Hoth Hmove. split; simpl.
  - by rewrite length_insert.
  - destruct (concat_fmap_split a_carried _ t p Ht) as (rest & E1 & E2). rewrite <- E2. apply Hmove. by rewrite E1.
  - intros j q [(<-&<-&_)|(_&Hj)]%lookup_insert_cases; eauto.
  - intros j q [(<-&<-&_)|(Hne&Hj)]%lookup_insert_cases; [done|]. by eapply Hoth, Hf.
Qed.

(** Only the consumer holds a pointer while it removes a value. *)
Lemma only_pointer c t p j q held total :
  lib_flow c held total → l_thr c !! t = Some p → a_pops p = true → j ≠ t → l_thr c !! j = Some q →
  a_points q (l_q c) → ∀ s', a_points q s'.
Proof.
  intros Hf Ht Hp Hne Hj Hq s'. destruct (a_pops q) eqn:Hpq; [|by destruct q].
  destruct Hone as [Hno|Hone'].
  - destruct q; simpl in *; try done; by apply Hno in Hq.
  - destruct Hne. rewrite <- (lf_len _ _ _ Hf) in Hone'.
    apply Hone'; try (by eapply lookup_lt_Some); by eapply (lf_role _ _ _ Hf).
Qed.

Lemma lib_flow_run c t k c' held total : lib_flow c held total → ad_run c t k = Some c' → lib_flow c' held total.
Proof.
  intros Hf He. simpl in He. destruct (l_thr c !! t) as [p|] eqn:Ht; [|done].
  destruct (a_step C k (l_q c) p) as [[s' p']|] eqn:Es; [|done]. injection He as <-. simpl.
  pose proof (lf_role _ _ _ Hf t p Ht) as Hr. pose proof (lf_point _ _ _ Hf t p Ht) as Hpt.
  assert (a_pops p = true → ∀ j q, j ≠ t → l_thr c !! j = Some q → a_points q (l_q c) → a_points q s') as Hoth.
  { intros Hp j q Hne Hj Hq. by eapply (only_pointer c t p j q). }
  destruct p as [|v|v| | | |v|v|v]; simpl in Es, Hr, Hpt; try done.
  - injection Es as Es. assert (∀ j q, l_thr c !! j = Some q → a_points q (l_q c) → a_points q s') as Hst.
    { intros j q Hj Hq. pose proof (λ w, co_front _ _ _ _ HC k (l_q c) w v) as H. rewrite Es in H. destruct q; simpl in *; eauto. }
    destruct (co_push _ _ _ _ HC _ _ _ _ _ Es) as [[-> Hi]|[Hw Hi]].
    + eapply lib_flow_move; [done|exact Ht|done|done|eauto|]. intros rest <-. rewrite Hi. simpl. by rewrite Permutation_middle.
    + eapply lib_flow_move; [done|exact Ht|by destruct Hw as [-> | ->]..|eauto|]. intros rest <-. rewrite Hi. by destruct Hw as [-> | ->].
  - injection Es as <- <-. by eapply lib_flow_move.
  - injection Es as Es. destruct (co_pop _ _ _ _ HC _ _ _ _ Es) as [(v & -> & Hi)|[Hw Hi]].
    + eapply lib_flow_move; [done|exact Ht|done|done|by apply Hoth|]. intros rest <-. rewrite Hi. simpl. by rewrite <- Permutation_middle.
    + eapply lib_flow_move; [done|exact Ht|by intros; apply Hr|by destruct Hw as [->|[->|(v & -> & Hv)]]|by apply Hoth|].
      intros rest <-. rewrite Hi. by destruct Hw as [->|[->|(v & -> & _)]].
  - injection Es as <- <-. by eapply lib_flow_move.
  - injection Es as <- <-. by eapply lib_flow_move.
  - injection Es as <- <-. eapply lib_flow_move; [done|exact Ht|done|done|by apply Hoth|].
    intros rest <-. rewrite (co_drop _ _ _ _ HC _ _ Hpt). simpl. by rewrite <- Permutation_middle.
Qed.

Lemma lib_thr_inv c t p : ad_thr c !! t = Some p → ∃ r, l_thr c !! t = Some r ∧ p = a_phase r.
Proof. simpl. rewrite list_lookup_fmap. intros (r & ? & ->)%fmap_Some. eauto. Qed.

#[global] Instance lib_conserves : Conserves (lq C) n R.
Proof using HC Hone.
  refine {| ad_flow := lib_flow |}.
  - intros c held held' total total' Hh Ht [H1 H2 H3 H4]. split; try done. by rewrite <- Hh, <- Ht.
  - intros c held total [_ H _ _]. eexists. rewrite <- H, app_assoc. done.
  - intros c held total [H _ _ _]. simpl. by rewrite length_fmap.
  - intros c t v c' held held' total total' Hf _ He Hmove. simpl in He. step_inv He.
    eapply lib_flow_move; [done|exact E|done..|]. simpl. intros rest. rewrite app_assoc. intros H. specialize (Hmove _ H).
    rewrite <- Hmove, <- Permutation_middle. by rewrite app_assoc.
  - intros c t c' held total Hf HR He. simpl in He. step_inv He. by eapply lib_flow_move.
  - intros c t k c' held total. apply lib_flow_run.
  - intros c t p c' held total Hf (r & Hr & ->)%lib_thr_inv He. simpl in He. rewrite Hr in He.
    destruct r; try done; injection He as <-; (eapply lib_flow_move; [done|exact Hr|done..|]); simpl; try done.
    intros rest <-. by rewrite <- !Permutation_middle.
  - intros c t v c' He. simpl in He |- *. step_inv He. simpl. by rewrite list_fmap_insert.
  - intros c t c' He. simpl in He |- *. step_inv He. simpl. by rewrite list_fmap_insert.
  - intros c t k p c' held total _ He (r & Hr & ->)%lib_thr_inv. simpl in He. rewrite Hr in He.
    destruct (a_step C k (l_q c) r) as [[s' r']|] eqn:Es; [|done]. injection He as <-. exists (a_phase r'). simpl.
    split; [by rewrite list_fmap_insert|]. destruct r; simpl in Es; try done; try (by injection Es as <- <-).
    + injection Es as Es. by destruct (co_push _ _ _ _ HC _ _ _ _ _ Es) as [[-> _]|[[-> | ->] _]].
    + injection Es as Es. by destruct (co_pop _ _ _ _ HC _ _ _ _ Es) as [(v & -> & _)|[[->|[->|(v & -> & _)]] _]].
  - intros c t c' He. simpl in He |- *. step_inv He; simpl; by rewrite list_fmap_insert.
  - intros c t v held total _ _ (r & Hr & Hp)%lib_thr_inv. simpl. rewrite Hr. by destruct r.
  - intros c t held total _ _ (r & Hr & Hp)%lib_thr_inv. simpl. rewrite Hr. by destruct r.
  - intros c t p held total _ (r & Hr & ->)%lib_thr_inv Hret. simpl. rewrite Hr. by destruct r.
Defined.

(** *** Progress *)

Definition a_work (p : apc) : nat :=
  match p with
  | APush _ => 1 | APushPause _ => 2
  | APop => 3 | APopPause => 4 | ADeref _ => 2 | ADrop _ => 1
  | _ => 0
  end.
Definition lib_work c : nat := sum_list (a_work <$> l_thr c).

Lemma lib_work_lt c t p s' p' :
  l_thr c !! t = Some p → (a_work p' < a_work p)%nat → (lib_work (mkLq s' (<[t := p']> (l_thr c)) : lq C) < lib_work c)%nat.
Proof. intros Hp Hlt. unfold lib_work. simpl. pose proof (sum_fmap_insert a_work _ t p p' Hp). lia. Qed.

(** The next step of [p] can succeed. *)
Definition can_go (s : S) (p : apc) : bool :=
  match p with
  | APush _ => Z.of_nat (length (items s)) <? cap
  | APop => match items s with [] => false | _ => true end
  | _ => busy (a_phase p)
  end.

Lemma lib_goes c t p : l_thr c !! t = Some p → can_go (l_q c) p = true →
  ∃ k c', ad_run c t k = Some c' ∧ (lib_work c' < lib_work c)%nat.
Proof using HC.
  intros Hp Hg. destruct p as [|v|v| | | |v|v|v]; simpl in Hg; try done; simpl.
  - apply Z.ltb_lt in Hg. destruct (co_room _ _ _ _ HC (l_q c) v Hg) as (k & s' & E). exists k. rewrite Hp. simpl.
    rewrite E. eexists. split; [done|]. eapply lib_work_lt; [done|simpl; lia].
  - exists 0%nat. rewrite Hp. eexists. split; [done|]. eapply lib_work_lt; [done|simpl; lia].
  - destruct (co_value _ _ _ _ HC (l_q c)) as (k & s' & p & E & H1 & H2); [by destruct (items (l_q c))|].
    exists k. rewrite Hp. simpl. rewrite E. eexists. split; [done|]. eapply lib_work_lt; [done|].
    destruct (co_pop _ _ _ _ HC _ _ _ _ E) as [(v & -> & _)|[[->|[->|(v & -> & _)]] _]]; try done; simpl; lia.
  - exists 0%nat. rewrite Hp. eexists. split; [done|]. eapply lib_work_lt; [done|simpl; lia].
  - exists 0%nat. rewrite Hp. eexists. split; [done|]. eapply lib_work_lt; [done|simpl; lia].
  - exists 0%nat. rewrite Hp. eexists. split; [done|]. eapply lib_work_lt; [done|simpl; lia].
Qed.

Context (Hcap : 0 < cap).

Lemma lib_stuck c held total :
  lib_flow c held total → (∀ t p, l_thr c !! t = Some p → can_go (l_q c) p = false) →
  (∀ t p, ad_thr c !! t = Some p → returns p = false) → stuck cap (ad_thr c) held total.
Proof using Hcap.
  intros Hf Hno Hnr. assert (∀ t p, l_thr c !! t = Some p → returns (a_phase p) = false) as Hnr'.
  { intros t p Hp. apply (Hnr t). simpl. by rewrite list_lookup_fmap, Hp. }
  assert (∀ t v, l_thr c !! t = Some (APush v) → cap <= Z.of_nat (length (items (l_q c)))) as Hfull.
  { intros t v Hp. specialize (Hno t _ Hp). simpl in Hno. by apply Z.ltb_ge in Hno. }
  assert (∀ t, l_thr c !! t = Some APop → items (l_q c) = []) as Hempty.
  { intros t Hp. specialize (Hno t _ Hp). simpl in Hno. by destruct (items (l_q c)). }
  assert (∀ t p, l_thr c !! t = Some p → busy (a_phase p) = true → p = APop ∨ ∃ v, p = APush v) as Hbusy.
  { intros t p Hp Hb. specialize (Hno t p Hp). destruct p; simpl in *; try done; eauto. }
  intros t p (r & Hr & ->)%lib_thr_inv Hb. destruct (Hbusy t r Hr Hb) as [-> |[v ->]].
  - left. specialize (Hempty t Hr).
    assert (∀ j v, l_thr c !! j = Some (APush v) → False) as Hnp.
    { intros j v Hj. specialize (Hfull j v Hj). rewrite Hempty in Hfull. simpl in Hfull. lia. }
    split_and!; [done| |].
    + rewrite <- (lf_perm _ _ _ Hf), Hempty. rewrite concat_nils; [done|].
      intros j x (q & -> & Hq)%list_lookup_fmap_Some. pose proof (Hnr' j q Hq).
      destruct (busy (a_phase q)) eqn:Hbq; [|by destruct q].
      destruct (Hbusy j q Hq Hbq) as [->|[w ->]]; [done|]. destruct (Hnp j w Hq).
    + intros j x (q & Hq & ->)%lib_thr_inv Hbq. destruct (Hbusy j q Hq Hbq) as [->|[w ->]]; [done|]. destruct (Hnp j w Hq).
  - right. pose proof (Hfull t v Hr) as Hge. split_and!; [done| |].
    + pose proof (Permutation_length (lf_perm _ _ _ Hf)) as Hl. rewrite !length_app in Hl.
      pose proof (concat_fmap_insert a_carried _ t _ AOut Hr) as H1. apply Permutation_length in H1. simpl in H1. lia.
    + intros j x (q & Hq & ->)%lib_thr_inv Hbq. destruct (Hbusy j q Hq Hbq) as [->|[w ->]]; [|done].
      rewrite (Hempty j Hq) in Hge. simpl in Hge. lia.
Qed.

#[global] Instance lib_progresses : Progresses (lq C) n R cap.
Proof using Hcap.
  refine {| ad_work := lib_work; cost := 3 |}.
  - lia.
  - intros c t v c' He. simpl in He. step_inv He. unfold lib_work. simpl.
    pose proof (sum_fmap_insert a_work _ t _ (APush v) E). simpl in *. lia.
  - intros c t c' He. simpl in He. step_inv He. unfold lib_work. simpl.
    pose proof (sum_fmap_insert a_work _ t _ APop E). simpl in *. lia.
  - intros c t c' He. simpl in He. step_inv He; unfold lib_work; simpl;
      pose proof (sum_fmap_insert a_work _ t _ AOut E); simpl in *; lia.
  - intros c held total Hf Hnr.
    destruct (list_find (λ p, can_go (l_q c) p = true) (l_thr c)) as [[t p]|] eqn:E.
    + left. apply list_find_Some in E as (Hp & Hg & _). destruct (lib_goes c t p Hp Hg) as (k & c' & He & Hlt).
      exists t, (a_phase p), k, c'. split_and!; try done; [simpl; by rewrite list_lookup_fmap, Hp|].
      by destruct p.
    + right. apply lib_stuck; try done. intros t p Hp. eapply list_find_None, Forall_lookup in E; eauto.
      by apply not_true_is_false.
Defined.

(** A queue that holds [vals] and that nobody uses. *)
Definition holding (vals : list Z) c : Prop := l_thr c = replicate n AOut ∧ items (l_q c) ≡ₚ vals.

Lemma holding_starts vals : starts_with (Conserves0 := lib_conserves) (holding vals) vals.
Proof.
  intros c [Ht Hi]. split; [|simpl; by rewrite Ht, fmap_replicate]. split.
  - by rewrite Ht, length_replicate.
  - rewrite Hi, Ht, fmap_replicate. simpl. assert (concat (replicate n ([] : list Z)) = []) as -> by (clear; by induction n).
    by rewrite !app_nil_r.
  - intros t p. rewrite Ht. by intros [-> _]%lookup_replicate.
  - intros t p. rewrite Ht. by intros [-> _]%lookup_replicate.
Qed.
End Laws.

(** *** The constructors of the pools *)

Section Fill.
Context {S : Type} {cap : Z} (items : S → list Z) (push : nat → S → Z → S * apc).
(** As long as there is room, the statement of the loop body loses nothing. *)
Context (Hpush : ∀ k s v s' p, Z.of_nat (length (items s)) < cap → push k s v = (s', p) →
  (p = APushRet ∧ items s' ≡ₚ v :: items s) ∨ (p ≠ APushRet ∧ items s' ≡ₚ items s)).

Lemma fill_items ks todo s s' :
  Z.of_nat (length (items s) + length todo) <= cap → fill push ks todo s = Some s' → items s' ≡ₚ todo ++ items s.
Proof using Hpush.
  revert todo s. induction ks as [|k ks IH]; intros [|i todo] s Hlen He; simpl in He; simplify_eq; try done.
  simpl in Hlen. destruct (push k s i) as [s1 p] eqn:E. destruct (Hpush k s i s1 p ltac:(lia) E) as [[-> Hi]|[Hp Hi]].
  - rewrite (IH todo s1); [|pose proof (Permutation_length Hi); simpl in *; lia|done].
    rewrite Hi. simpl. by rewrite Permutation_middle.
  - rewrite (IH (i :: todo) s1); [by rewrite Hi|pose proof (Permutation_length Hi); simpl in *; lia|by destruct p].
Qed.

Lemma fill_can_end todo s :
  (∀ s v, Z.of_nat (length (items s)) < cap → ∃ k s', push k s v = (s', APushRet)) →
  Z.of_nat (length (items s) + length todo) <= cap → ∃ ks s', fill push ks todo s = Some s'.
Proof using Hpush.
  intros Hroom. revert s. induction todo as [|i todo IH]; intros s Hlen; [by exists [], s|].
  simpl in Hlen. destruct (Hroom s i ltac:(lia)) as (k & s1 & E).
  destruct (Hpush k s i s1 _ ltac:(lia) E) as [[_ Hi]|[? _]]; [|done].
  destruct (IH s1) as (ks & s' & Hs); [pose proof (Permutation_length Hi); simpl in *; lia|].
  exists (k :: ks), s'. simpl. by rewrite E.
Qed.
End Fill.

Section Pools.
Context {S : Type} {cap : Z} `{!LibQueue S cap} (SIZE : Z) (Hsize : SIZE <= cap).

Lemma block_push_cases k s v s' p : block_push k s v = (s', p) →
  (p = APushRet ∧ lib_items s' ≡ₚ v :: lib_items s) ∨ (p ≠ APushRet ∧ lib_items s' ≡ₚ lib_items s).
Proof.
  unfold block_push. destruct (lib_push k s v) as [s1 []] eqn:E; intros; simplify_eq.
  - left. split; [done|]. by eapply lib_push_true.
  - right. split; [done|]. by eapply lib_push_false.
Qed.

Lemma once_push_cases k s v s' p : (lib_push k s v).2 = true → once_push k s v = (s', p) →
  (p = APushRet ∧ lib_items s' ≡ₚ v :: lib_items s) ∨ (p ≠ APushRet ∧ lib_items s' ≡ₚ lib_items s).
Proof.
  unfold once_push. intros Ht He. destruct (lib_push k s v) as [s1 b] eqn:E. simplify_eq/=. left.
  split; [done|]. by eapply lib_push_true.
Qed.

(** Each constructor fills an empty container with the indexes. *)
Lemma RigtorpPool_full ks s s' :
  lib_items s = [] → RigtorpPool_init SIZE ks s = Some s' → lib_items s' ≡ₚ seqZ 0 SIZE.
Proof using Hsize.
  intros Hs He. unfold RigtorpPool_init in He.
  eapply (fill_items (cap := Z.max 0 cap) lib_items) in He; [by rewrite Hs, app_nil_r in He|intros; by eapply block_push_cases|].
  rewrite Hs, length_seqZ. simpl. lia.
Qed.

(** The result of [push] is not looked at: it must not fail before the pool is
    full. *)
Lemma once_pool_full ks s s' :
  (∀ k s v, Z.of_nat (length (lib_items s)) < cap → (lib_push k s v).2 = true) →
  lib_items s = [] → fill once_push ks (seqZ 0 SIZE) s = Some s' → lib_items s' ≡ₚ seqZ 0 SIZE.
Proof using Hsize.
  intros Hok Hs He. destruct (Z.le_gt_cases SIZE 0).
  { rewrite (seqZ_nil 0 SIZE) in He by lia. destruct ks; simpl in He; injection He as <-; rewrite Hs; by rewrite seqZ_nil by lia. }
  eapply (fill_items (cap := cap) lib_items) in He; [by rewrite Hs, app_nil_r in He|intros; by eapply once_push_cases; eauto|].
  rewrite Hs, length_seqZ. simpl. lia.
Qed.
(** The constructors come to an end. *)
Lemma RigtorpPool_ends s : 0 <= SIZE → lib_items s = [] → ∃ ks s', RigtorpPool_init SIZE ks s = Some s'.
Proof using Hsize.
  intros H0 Hs. apply (fill_can_end (cap := cap) lib_items); [intros; by eapply block_push_cases| |].
  - intros s1 v (k & s2 & E)%(lib_room s1 v). exists k, s2. unfold block_push. by rewrite E.
  - rewrite Hs, length_seqZ. simpl. lia.
Qed.

Lemma once_pool_ends s :
  (∀ k s v, Z.of_nat (length (lib_items s)) < cap → (lib_push k s v).2 = true) →
  0 <= SIZE → lib_items s = [] → ∃ ks s', fill once_push ks (seqZ 0 SIZE) s = Some s'.
Proof using Hsize.
  intros Hok H0 Hs. apply (fill_can_end (cap := cap) lib_items); [intros; by eapply once_push_cases; eauto| |].
  - intros s1 v _. exists 0%nat. by eexists.
  - rewrite Hs, length_seqZ. simpl. lia.
Qed.
End Pools.

(** ** Containers that satisfy the contracts *)

(** A bounded list, first in first out. *)
Definition bounded_push (cap : Z) (s : list Z) (v : Z) : list Z * bool :=
  if Z.of_nat (length s) <? cap then (s ++ [v], true) else (s, false).

#[global] Instance fifo_lib cap : LibQueue (list Z) cap.
Proof.
  refine {| lib_push _ := bounded_push cap; lib_items s := s;
    lib_pop _ s := match s with v :: s' => (s', Some v) | [] => ([], None) end |}; unfold bounded_push.
  - intros _ s v s'. destruct (_ <? _); intros; simplify_eq. by rewrite Permutation_app_comm.
  - intros _ s v s'. destruct (_ <? _); intros; by simplify_eq.
  - intros _ s v s'. destruct s; intros; by simplify_eq.
  - intros _ s s'. destruct s; intros; by simplify_eq.
  - intros s v H. exists 0%nat. rewrite (proj2 (Z.ltb_lt _ _)) by done. eauto.
  - intros [|v s] H; [done|]. exists 0%nat. eauto.
Defined.

#[global] Instance fifo_front cap : FrontQueue (list Z) cap.
Proof.
  refine {| fq_push _ := bounded_push cap; fq_items s := s; fq_front _ s := head s; fq_pop s := tail s |}; unfold bounded_push.
  - intros _ s v s'. destruct (_ <? _); intros; by simplify_eq.
  - intros _ s v s'. destruct (_ <? _); intros; by simplify_eq.
  - done.
  - by intros s v l ->.
  - intros s v H. exists 0%nat. rewrite (proj2 (Z.ltb_lt _ _)) by done. eauto.
  - intros [|v s] H; [done|]. exists 0%nat. eauto.
Defined.

(** An unbounded bag: [k] decides which value is handed out, or that the bag looks
    empty. *)
Record bag := Bag { bag_items : list Z }.

Definition bag_pop (k : nat) (b : bag) : bag * option Z :=
  match bag_items b !! k with
  | Some v => (Bag (delete k (bag_items b)), Some v)
  | None => (b, None)
  end.

#[global] Instance bag_lib cap : LibQueue bag cap.
Proof.
  refine {| lib_push _ b v := (Bag (v :: bag_items b), true); lib_items := bag_items; lib_pop := bag_pop |}; unfold bag_pop.
  - intros; by simplify_eq.
  - done.
  - intros k b v b'. destruct (bag_items b !! k) eqn:E; intros; simplify_eq/=. by apply delete_Permutation.
  - intros k b b'. destruct (bag_items b !! k) eqn:E; intros; by simplify_eq/=.
  - intros b v _. exists 0%nat. eauto.
  - intros [[|v l]] H; [done|]. exists 0%nat. simpl. eauto.
Defined.

(** ** Template arguments *)

(** A template argument: the type [Q], the states of [std::make_unique<Q>()] before
    [n] threads use it, and those of the queue [rep] of [pingPong], in which thread 1
    is the producer: they differ only for a queue with one producer. *)
Record impl := mkImpl { i_q : Type; i_adapter : Adapter i_q; i_fresh : nat → i_q → Prop; i_rep : i_q → Prop }.

Definition symmetric (Q : Type) `{!Adapter Q} (fresh : nat → Q → Prop) : impl := mkImpl Q _ fresh (fresh 2%nat).
#[global] Existing Instance i_adapter.

(** A third-party container and its state after construction. *)
Record lib (cap : Z) := mkLib {
  lib_state : Type;
  lib_ops : LibQueue lib_state cap;
  lib_new : lib_state;
  lib_new_empty : lib_items lib_new = [];
}.
Arguments lib_state {_} _.
Arguments lib_ops {_} _.
Arguments lib_new {_} _.
Arguments lib_new_empty {_} _.
#[global] Existing Instance lib_ops.

(** The same for the queue with [front()] and [pop()]. *)
Record front_lib (cap : Z) := mkFrontLib {
  fl_state : Type;
  fl_ops : FrontQueue fl_state cap;
  fl_new : fl_state;
  fl_new_empty : fq_items fl_new = [];
}.
Arguments fl_state {_} _.
Arguments fl_ops {_} _.
Arguments fl_new {_} _.
Arguments fl_new_empty {_} _.
#[global] Existing Instance fl_ops.

(** An adapter over a library, constructed empty. *)
Definition over_lib {cap} (X : lib cap) (C : code (lib_state X)) : impl :=
  symmetric (lq C) (λ n c, c = mkLq (lib_new X) (replicate n AOut)).
Definition over_front {cap} (X : front_lib cap) (C : code (fl_state X)) : impl :=
  symmetric (lq C) (λ n c, c = mkLq (fl_new X) (replicate n AOut)).
