(* ===== verification/AtomicFutex.v ===== *)
(** * AtomicFutex

    Model of [src/include/AstraLib/Atomic/atomicFutex.hpp].  The futex system
    call is the kernel's: [FUTEX_WAIT] compares the word with the expected value
    and puts the caller to sleep in one atomic step, or fails with [EAGAIN] if
    they differ; a sleeper may return early ([EINTR]); [FUTEX_WAKE] with count 1
    wakes one sleeper if there is one.  Which one is up to the kernel: [pick]. *)

From Stdlib Require Import ZArith Lia.
From S2P Require Import Prelude MachineInt Lts.
Local Open Scope Z_scope.
Local Open Scope astra_scope.

Module AtomicFutex.

Section Code.
Context (pick : list nat → option nat).

(** Threads in [wait()], with the local [expected], and in [wake()].  The
    natural number is read by no code: how many [wake()] calls had incremented
    the word when [expected] was loaded. *)
Inductive pc :=
| Idle
| WaitLoad
| WaitCall (expected : Z) (seen : nat)
| WaitAsleep (expected : Z) (seen : nat)
| WaitCheck (expected : Z) (seen : nat)
| WaitReturn (seen : nat)
| WaitError
| WakeAdd
| WakeCall
| WakeReturn.

(** The word, the kernel's wait queue, the threads, and the number of
    increments so far. *)
Record cfg := mkCfg { futex_val : Z; sleepers : list nat; thr : list pc; wakes : nat }.

Inductive act :=
| CallWait (t : nat)
| CallWake (t : nat)
| Run (t : nat)
| Interrupt (t : nat)
| Fault (t : nat)
| Ret (t : nat).

Definition set_thr (c : cfg) (t : nat) (p : pc) : cfg :=
  mkCfg (futex_val c) (sleepers c) (<[t := p]> (thr c)) (wakes c).

(** The sleeping thread [u] returns from [FUTEX_WAIT]. *)
Definition wake_up (c : cfg) (u : nat) : cfg :=
  match thr c !! u with
  | Some (WaitAsleep e k) =>
      mkCfg (futex_val c) (filter (λ x, x ≠ u) (sleepers c)) (<[u := WaitCheck e k]> (thr c)) (wakes c)
  | _ => c
  end.

(** One step of [wait()]. *)
Definition wait_step (c : cfg) (t : nat) (p : pc) : option cfg :=
  match p with
  | WaitLoad => Some (set_thr c t (WaitCall (futex_val c) (wakes c)))
  | WaitCall e k =>
      if futex_val c =? e
      then Some (mkCfg (futex_val c) (sleepers c ++ [t]) (<[t := WaitAsleep e k]> (thr c)) (wakes c))
      else Some (set_thr c t (WaitCheck e k))
  | WaitCheck e k =>
      Some (set_thr c t (if negb (futex_val c =? e) then WaitReturn k else WaitCall e k))
  | _ => None
  end.

(** One step of [wake()]; [fetch_add] on [std::atomic<int>] wraps around. *)
Definition wake_step (c : cfg) (t : nat) (p : pc) : option cfg :=
  match p with
  | WakeAdd =>
      Some (mkCfg (to_i32 (futex_val c + 1)) (sleepers c) (<[t := WakeCall]> (thr c)) (S (wakes c)))
  | WakeCall =>
      let c' := match pick (sleepers c) with Some u => wake_up c u | None => c end in
      Some (set_thr c' t WakeReturn)
  | _ => None
  end.

Definition exec (c : cfg) (a : act) : option cfg :=
  match a with
  | CallWait t => match thr c !! t with Some Idle => Some (set_thr c t WaitLoad) | _ => None end
  | CallWake t => match thr c !! t with Some Idle => Some (set_thr c t WakeAdd) | _ => None end
  | Run t =>
      match thr c !! t with
      | Some ((WaitLoad | WaitCall _ _ | WaitCheck _ _) as p) => wait_step c t p
      | Some ((WakeAdd | WakeCall) as p) => wake_step c t p
      | _ => None
      end
  | Interrupt t =>
      match thr c !! t with
      | Some (WaitAsleep _ _) => Some (wake_up c t)
      | Some (WaitCall e k) => Some (set_thr c t (WaitCheck e k))
      | _ => None
      end
  | Fault t => match thr c !! t with Some (WaitCall _ _) => Some (set_thr c t WaitError) | _ => None end
  | Ret t =>
      match thr c !! t with
      | Some (WaitReturn _ | WaitError | WakeReturn) => Some (set_thr c t Idle)
      | _ => None
      end
  end.

Definition futex_machine : machine := Machine cfg act exec.

(** The constructor stores 0. *)
Definition init (n : nat) : cfg := mkCfg 0 [] (replicate n Idle) 0.
End Code.

Section Proofs.
Context (pick : list nat → option nat).

(** Documented behaviour of [FUTEX_WAKE]: it wakes a sleeper, if there is one. *)
Context (pick_in : ∀ l u, pick l = Some u → u ∈ l).
Context (pick_some : ∀ l, l ≠ [] → is_Some (pick l)).

Abbreviation machine := (futex_machine pick).
Abbreviation start n := (λ c, c = init n).

Definition pc_ok (c : cfg) (p : pc) : Prop :=
  match p with
  | WaitCall e k | WaitAsleep e k | WaitCheck e k => e = to_i32 (Z.of_nat k) ∧ (k ≤ wakes c)%nat
  | WaitReturn k => (k < wakes c)%nat
  | _ => True
  end.

Record inv (c : cfg) : Prop := {
  iv_val : futex_val c = to_i32 (Z.of_nat (wakes c));
  iv_pc : ∀ t p, thr c !! t = Some p → pc_ok c p;
  iv_sleep : ∀ t, t ∈ sleepers c ↔ ∃ e k, thr c !! t = Some (WaitAsleep e k);
}.

(** A thread that is neither falling asleep nor waking up moves. *)
Definition asleep (p : pc) : bool := match p with WaitAsleep _ _ => true | _ => false end.

Lemma inv_local c t p p' :
  inv c → thr c !! t = Some p → asleep p = false → asleep p' = false → pc_ok c p' →
  inv (set_thr c t p').
Proof.
  intros [Hv Hp Hs] Ht Ha Ha' Hok. split; simpl; [done|..].
  - intros j q [(<-&<-&_)|(_&Hj)]%lookup_insert_cases; [done|]. exact (Hp _ _ Hj).
  - intros j. rewrite Hs. split; intros (e & k & Hj); exists e, k.
    + rewrite list_lookup_insert_ne; [done|]. intros ->. rewrite Ht in Hj. by simplify_eq.
    + apply lookup_insert_cases in Hj as [(<-&->&_)|(_&Hj)]; done.
Qed.

Lemma inv_wake_up c u : inv c → inv (wake_up c u).
Proof.
  intros [Hv Hp Hs]. unfold wake_up. destruct (thr c !! u) as [p|] eqn:Hu; [|done].
  destruct p; try done. split; simpl; [done|..].
  - intros j q [(<-&<-&_)|(_&Hj)]%lookup_insert_cases; [exact (Hp _ _ Hu)|]. exact (Hp _ _ Hj).
  - intros j. rewrite list_elem_of_filter, Hs. split.
    + intros [Hne (e & k & Hj)]. exists e, k. by rewrite list_lookup_insert_ne.
    + intros (e & k & [(_&?&_)|(Hne&Hj)]%lookup_insert_cases); [done|]. eauto.
Qed.

Lemma wake_up_other c u t p :
  thr c !! t = Some p → asleep p = false → thr (wake_up c u) !! t = Some p.
Proof.
  intros Ht Ha. unfold wake_up. destruct (thr c !! u) as [q|] eqn:Hu; [|done].
  destruct q; try done. simpl. rewrite list_lookup_insert_ne; [done|]. intros ->. by simplify_eq.
Qed.

Lemma wake_up_wakes c u : wakes (wake_up c u) = wakes c ∧ futex_val (wake_up c u) = futex_val c.
Proof. unfold wake_up. destruct (thr c !! u) as [q|]; [|done]. by destruct q. Qed.

Lemma inv_exec c a c' : inv c → exec pick c a = Some c' → inv c'.
Proof.
  intros Hi He. pose proof (iv_val _ Hi) as Hv. pose proof (iv_pc _ Hi) as Hp. pose proof (iv_sleep _ Hi) as Hs.
  destruct a as [t|t|t|t|t|t]; simpl in He; destruct (thr c !! t) as [p|] eqn:Ht; try done;
    specialize (Hp _ _ Ht) as Hpt; destruct p; try done; simpl in *.
  all: try (simplify_eq; by eapply inv_local; eauto).
  - destruct (futex_val c =? expected) eqn:E; simplify_eq; [|by eapply inv_local; eauto].
    split; simpl; [done|..].
    + intros j q [(<-&<-&_)|(_&Hj)]%lookup_insert_cases; [done|]. exact (Hp _ _ Hj).
    + intros j. rewrite elem_of_app, Hs, list_elem_of_singleton. split.
      * intros [(e & k & Hj)| ->]; [|].
        -- exists e, k. rewrite list_lookup_insert_ne; [done|]. intros ->. by simplify_eq.
        -- eexists _, _. apply list_lookup_insert_eq. by eapply lookup_lt_Some.
      * intros (e & k & [(<-&_)|(Hne&Hj)]%lookup_insert_cases); [by right|left; eauto].
  - simplify_eq. eapply inv_local; eauto; destruct (Z.eqb_spec (futex_val c) expected) as [|Hne]; simpl; try done.
    destruct Hpt as [-> Hle]. rewrite Hv in Hne. destruct (decide (seen = wakes c)) as [->|]; [done|lia].
  - simplify_eq. split; simpl.
    + rewrite Hv, swrap_swrap_add by lia. f_equal. lia.
    + intros j q [(<-&<-&_)|(_&Hj)]%lookup_insert_cases; [done|]. specialize (Hp _ _ Hj).
      destruct q; simpl in *; intuition lia.
    + apply (iv_sleep _ (inv_local c t WakeAdd WakeCall Hi Ht eq_refl eq_refl I)).
  - simplify_eq. destruct (pick (sleepers c)) as [u|]; [|by eapply inv_local; eauto].
    eapply (inv_local _ _ WakeCall); [by apply inv_wake_up|by apply wake_up_other|done|done|done].
  - simplify_eq. by apply inv_wake_up.
Qed.

Lemma inv_reachable n c : reachable (M := machine) (start n) c → inv c.
Proof.
  revert c. apply (invariant (M := machine)).
  - intros c ->. split; simpl; [done|..].
    + by intros t p [-> _]%lookup_replicate.
    + intros t. split; [by intros ?%elem_of_nil|]. intros (e & k & [? _]%lookup_replicate). done.
  - intros c a c' _. apply inv_exec.
Qed.

(** No spurious return: [wait()] returns normally only if some [wake()]
    incremented the word after [wait()] loaded [expected]; interrupted system
    calls and wake-ups meant for others do not make it return. *)
Theorem wait_returns_after_wake n c t k :
  reachable (M := machine) (start n) c → thr c !! t = Some (WaitReturn k) → (k < wakes c)%nat.
Proof using pick. intros Hr%inv_reachable Ht. exact (iv_pc _ Hr _ _ Ht). Qed.

(** *** One waiter, any number of wakers *)

Context (w : nat).

Definition in_wait (p : pc) : bool :=
  match p with
  | WaitLoad | WaitCall _ _ | WaitAsleep _ _ | WaitCheck _ _ => true
  | _ => false
  end.

(** A sleeping waiter whose expected value is stale is about to be woken. *)
Record winv (c : cfg) : Prop := {
  wv_inv : inv c;
  wv_one : ∀ t p, thr c !! t = Some p → in_wait p = true → t = w;
  wv_wake : ∀ e k, thr c !! w = Some (WaitAsleep e k) → futex_val c ≠ e →
    ∃ u, thr c !! u = Some WakeCall;
}.

(** A step of [t] that leaves the word and the sleepers alone. *)
Lemma fx_winv_local c t p p' :
  winv c → thr c !! t = Some p → asleep p = false → asleep p' = false → pc_ok c p' → p ≠ WakeCall →
  (in_wait p' = true → in_wait p = true ∨ t = w) → winv (set_thr c t p').
Proof.
  intros [Hi Ho Hw] Ht Ha Ha' Hok Hne Hin. split; [by eapply inv_local|..]; simpl.
  - intros j q [(<-&<-&_)|(_&Hj)]%lookup_insert_cases Hq; [|eauto].
    destruct (Hin Hq); eauto.
  - intros e k [(_&->&_)|(Htw&Hj)]%lookup_insert_cases Hv; [done|].
    destruct (Hw _ _ Hj Hv) as [u Hu]. exists u. rewrite list_lookup_insert_ne; [done|].
    intros ->. by simplify_eq.
Qed.

(** [FUTEX_WAKE] leaves no sleeper behind when there is one waiter. *)
Lemma wake_up_picked c c' t :
  winv c → wake_step pick c t WakeCall = Some c' → thr c !! t = Some WakeCall →
  winv c' ∧ ∀ e k, thr c' !! w ≠ Some (WaitAsleep e k).
Proof using pick_in pick_some.
  intros [Hi Ho Hw] Hs Ht. simpl in Hs. simplify_eq.
  assert (∀ e k, thr (match pick (sleepers c) with Some u => wake_up c u | None => c end) !! w
      ≠ Some (WaitAsleep e k)) as Hno.
  { intros e k. destruct (pick (sleepers c)) as [u|] eqn:Hp.
    - destruct (proj1 (iv_sleep _ Hi u) (pick_in _ _ Hp)) as (e' & k' & Hu).
      pose proof (Ho _ _ Hu eq_refl) as ->. unfold wake_up. rewrite Hu. simpl.
      rewrite list_lookup_insert_eq by (by eapply lookup_lt_Some). done.
    - intros Hk. assert (sleepers c ≠ []) as Hne.
      { intros E. assert (w ∈ sleepers c) as Hin by (apply (iv_sleep _ Hi); eauto).
        rewrite E in Hin. by apply elem_of_nil in Hin. }
      destruct (pick_some _ Hne). congruence. }
  assert (∀ e k, <[t := WakeReturn]> (thr (match pick (sleepers c) with Some u => wake_up c u | None => c end))
    !! w ≠ Some (WaitAsleep e k)) as Hno'.
  { intros e k [(_&?&_)|(_&Hj)]%lookup_insert_cases; [done|]. by eapply Hno. }
  split; [|exact Hno']. split; simpl.
  - destruct (pick (sleepers c)) as [u|]; [|by eapply inv_local; eauto].
    eapply (inv_local _ _ WakeCall); [by apply inv_wake_up|by apply wake_up_other|done|done|done].
  - intros j q [(<-&<-&_)|(_&Hj)]%lookup_insert_cases Hq; [done|].
    destruct (pick (sleepers c)) as [u|]; [|eauto]. unfold wake_up in Hj.
    destruct (thr c !! u) as [pu|] eqn:Hu; [|eauto]. destruct pu; eauto.
    simpl in Hj. apply lookup_insert_cases in Hj as [(<-&<-&_)|(_&Hj)]; eauto.
  - intros e k Hj. by destruct (Hno' e k).
Qed.

Lemma fx_winv_exec c a c' :
  winv c → (∀ t, a = CallWait t → t = w) → exec pick c a = Some c' → winv c'.
Proof using pick_in pick_some.
  intros Hv Ha He. pose proof Hv as [Hi Ho Hw].
  pose proof (inv_exec _ _ _ Hi He) as Hi'.
  destruct a as [t|t|t|t|t|t]; simpl in He; destruct (thr c !! t) as [p|] eqn:Ht; try done;
    pose proof (iv_pc _ Hi _ _ Ht) as Hpt; destruct p; try done; simpl in *.
  all: try (simplify_eq; by eapply fx_winv_local; eauto).
  - simplify_eq. eapply fx_winv_local; eauto. simpl. by rewrite (iv_val _ Hi).
  - destruct (Z.eqb_spec (futex_val c) expected) as [E|E]; simplify_eq; [|by eapply fx_winv_local; eauto].
    split; [done|..]; simpl.
    + intros j q [(<-&<-&_)|(_&Hj)]%lookup_insert_cases Hq; eauto.
    + intros e k [(_&[= <- <-]&_)|(Hne&Hj)]%lookup_insert_cases Hx; [done|].
      by pose proof (Ho _ _ Ht eq_refl).
  - simplify_eq. pose proof (iv_pc _ Hi' t) as Hpc. simpl in Hpc.
    rewrite list_lookup_insert_eq in Hpc by (by eapply lookup_lt_Some).
    destruct (futex_val c =? expected) eqn:E; simpl in *; eapply fx_winv_local; eauto; exact (Hpc _ eq_refl).
  - simplify_eq. split; [done|..]; simpl.
    + intros j q [(<-&<-&_)|(_&Hj)]%lookup_insert_cases Hq; [done|eauto].
    + intros e k _ _. exists t. apply list_lookup_insert_eq. by eapply lookup_lt_Some.
  - by eapply wake_up_picked.
  - simplify_eq. split; [done|..]; unfold wake_up; rewrite Ht; simpl.
    + intros j q [(<-&<-&_)|(_&Hj)]%lookup_insert_cases Hq; eauto.
    + intros e k [(_&?&_)|(Hne&Hj)]%lookup_insert_cases Hx; [done|].
      by pose proof (Ho _ _ Ht eq_refl).
Qed.

Lemma fx_winv_run c σ c' :
  winv c → (∀ t, CallWait t ∈ σ → t = w) → run (M := machine) c σ = Some c' → winv c'.
Proof using pick_in pick_some.
  revert c. induction σ as [|a σ IH]; intros c Hv Hσ Hr; simpl in Hr; [by simplify_eq|].
  destruct (exec pick c a) as [c1|] eqn:E; [|done]. apply (IH c1); [|intros t Ht; apply Hσ; by right|done].
  eapply fx_winv_exec; eauto. intros t ->. apply Hσ. by left.
Qed.

Lemma fx_winv_init n : winv (init n).
Proof using pick.
  split.
  - apply (inv_reachable n). by apply reach_init.
  - intros t p [-> _]%lookup_replicate. done.
  - intros e k [? _]%lookup_replicate. done.
Qed.

(** C23. No lost wake-up: with one waiting thread and any number of wakers, once
    a [wake()] has incremented the word after the waiter loaded [expected] and
    the wakers are past their system call, the waiter is not asleep and its
    [wait()] returns within two of its own steps.  The word has 32 bits, so
    this needs the word to differ from [expected]: fewer than 2^32 increments
    in between. *)
Theorem waiter_released n σ c p e k :
  run (M := machine) (init n) σ = Some c → (∀ t, CallWait t ∈ σ → t = w) →
  thr c !! w = Some p → p = WaitCall e k ∨ p = WaitAsleep e k ∨ p = WaitCheck e k →
  (k < wakes c)%nat → Z.of_nat (wakes c) - Z.of_nat k < 2 ^ 32 →
  (∀ u, thr c !! u ≠ Some WakeCall) →
  ∃ j c', (j ≤ 2)%nat ∧ run (M := machine) c (replicate j (Run w)) = Some c' ∧
          thr c' !! w = Some (WaitReturn k).
Proof using pick_in pick_some.
  intros Hr Hσ Hp Hpc Hk Hlt Hno. pose proof (fx_winv_run _ _ _ (fx_winv_init n) Hσ Hr) as [Hi _ Hw].
  pose proof (lookup_lt_Some _ _ _ Hp) as Hlen.
  assert (futex_val c ≠ e) as Hne.
  { assert (e = to_i32 (Z.of_nat k)) as -> by (pose proof (iv_pc _ Hi _ _ Hp); destruct Hpc as [->|[->| ->]]; simpl in *; tauto).
    rewrite (iv_val _ Hi). apply Z.eqb_neq. rewrite swrap_eqb by lia. apply Z.eqb_neq. lia. }
  destruct Hpc as [->|[->| ->]].
  - exists 2%nat. eexists. split; [lia|]. simpl. rewrite Hp. simpl. rewrite (proj2 (Z.eqb_neq _ _)) by done.
    simpl. rewrite list_lookup_insert_eq by done. simpl. rewrite (proj2 (Z.eqb_neq _ _)) by done. simpl.
    split; [done|]. simpl. by rewrite list_lookup_insert_eq by (by rewrite length_insert).
  - destruct (Hw _ _ Hp Hne) as [u Hu]. by destruct (Hno u).
  - exists 1%nat. eexists. split; [lia|]. simpl. rewrite Hp. simpl. rewrite (proj2 (Z.eqb_neq _ _)) by done.
    simpl. split; [done|]. simpl. by rewrite list_lookup_insert_eq.
Qed.
End Proofs.

(** A kernel that wakes the longest sleeper. *)
Definition fifo (l : list nat) : option nat := head l.

Lemma fifo_in l u : fifo l = Some u → u ∈ l.
Proof. destruct l; [done|]. intros [= ->]. by left. Qed.

Lemma fifo_some l : l ≠ [] → is_Some (fifo l).
Proof. destruct l; [done|]. by eexists. Qed.

(** Thread 0 sleeps, is interrupted once, sleeps again, and thread 1 wakes it. *)
Definition ex_sched : list act :=
  [CallWait 0; Run 0; Run 0; Interrupt 0; Run 0; Run 0; CallWake 1; Run 1; Run 1].
Definition ex_cfg : cfg := mkCfg 1 [] [WaitCheck 0 0; WakeReturn] 1.

Lemma wait_returns_after_wake_witness :
  thr (mkCfg 1 [] [WaitReturn 0; WakeReturn] 1) !! 0%nat = Some (WaitReturn 0) ∧ (0 < 1)%nat.
Proof.
  split; [done|].
  apply (wait_returns_after_wake fifo 2 (mkCfg 1 [] [WaitReturn 0; WakeReturn] 1) 0 0); [|done].
  apply (run_reachable (futex_machine fifo) _ (init 2) (ex_sched ++ [Run 0])); [by apply reach_init|by vm_compute].
Defined.

Lemma waiter_released_witness :
  ∃ j c', (j ≤ 2)%nat ∧ run (M := futex_machine fifo) ex_cfg (replicate j (Run 0)) = Some c' ∧
          thr c' !! 0%nat = Some (WaitReturn 0).
Proof.
  apply (waiter_released fifo fifo_in fifo_some 0 2 ex_sched ex_cfg (WaitCheck 0 0) 0 0);
    [by vm_compute| |done|by right; right|simpl; lia|simpl; lia|].
  - intros t. unfold ex_sched. rewrite !elem_of_cons, elem_of_nil. intros H. by repeat destruct H as [[= ->]|H].
  - intros [|[|u]]; by vm_compute.
Defined.
End AtomicFutex.
