(* ===== verification/ThreadGate.v ===== *)
(** * ThreadGate

    Model of [ThreadGate] in [src/include/AstraLib/Threading/ThreadPool.hpp]: a
    flag on which one thread waits with the futex system call.  [asleep] is the
    kernel's state of the gate's only waiter: blocked in [FUTEX_WAIT].  The
    system call behaves as in [AtomicFutex.v]; with one waiter, [FUTEX_WAKE]
    with count 1 wakes it. *)

From Stdlib Require Import ZArith Lia.
From S2P Require Import Prelude.
Local Open Scope Z_scope.

Module Gate.

Record gate := mk { flag : Z; asleep : bool }.

(** The constructor stores 0 in the flag. *)
Definition ThreadGate : gate := mk 0 false.

(** Inside [waiter()]: at the load, before the system call, inside it. *)
Inductive pc := GLoad | GCall | GAsleep.

(** One step of [waiter()]; [inr tt] when it returns.  A blocked thread has no
    step; it goes back to the load when it was woken. *)
Definition waiter (g : gate) (p : pc) : option (gate * (pc + unit)) :=
  match p with
  | GLoad => Some (g, if flag g =? 1 then inr tt else inl GCall)
  | GCall => if flag g =? 0 then Some (mk (flag g) true, inl GAsleep) else Some (g, inl GLoad)
  | GAsleep => if asleep g then None else Some (g, inl GLoad)
  end.

(** [signaler()] is two steps: the store and the [FUTEX_WAKE]. *)
Definition signaler_store (g : gate) : gate := mk 1 (asleep g).
Definition signaler_wake (g : gate) : gate := mk (flag g) false.

Definition reset (g : gate) : gate := mk 0 (asleep g).

(** The system call returns early ([EINTR], or a spurious wake-up). *)
Definition interrupt (g : gate) : gate := mk (flag g) false.

(** What is known of a gate whose waiter is at [p] ([None]: not in
    [waiter()]): the waiter is blocked only inside the system call, and then the
    flag is 0 or a signaler is about to wake it ([waking]). *)
Record ok (waking : Prop) (p : option pc) (g : gate) : Prop := {
  ok_flag : flag g = 0 ∨ flag g = 1;
  ok_asleep : asleep g = true → p = Some GAsleep;
  ok_wake : asleep g = true → flag g = 1 → waking;
}.

Lemma ok_waiter waking g p g' x :
  ok waking (Some p) g → waiter g p = Some (g', x) →
  flag g' = flag g ∧ (x = inr tt → flag g = 1) ∧
  ok waking (match x with inl p' => Some p' | inr _ => None end) g'.
Proof.
  intros [Hf Ha Hw] Hs. destruct p; simpl in Hs.
  - assert (asleep g = false) as Hg by (destruct (asleep g); [by specialize (Ha eq_refl)|done]).
    simplify_eq. split; [done|]. destruct (Z.eqb_spec (flag g') 1); (split; [done|]); split; simpl; congruence.
  - assert (asleep g = false) as Hg by (destruct (asleep g); [by specialize (Ha eq_refl)|done]).
    destruct (Z.eqb_spec (flag g) 0); simplify_eq/=; (split; [done|]); (split; [done|]); split; simpl; try done; congruence.
  - destruct (asleep g) eqn:Hg; [done|]. simplify_eq. split; [done|]. split; [done|]. split; simpl; congruence.
Qed.

(** A waiter that is not in the system call is awake. *)
Lemma ok_awake waking p g : ok waking p g → p ≠ Some GAsleep → ∀ p' waking', ok waking' p' g.
Proof.
  intros [Hf Ha Hw] Hp p' w'.
  assert (asleep g = false) as Hg by (destruct (asleep g); [by specialize (Ha eq_refl)|done]).
  split; [done|congruence..].
Qed.

(** Signalling and resetting. *)
Lemma ok_store (waking waking' : Prop) p g : ok waking p g → waking' → ok waking' p (signaler_store g).
Proof. intros [Hf Ha Hw] H. split; simpl; auto. Qed.

Lemma ok_woken waking p g : ok waking p g → ∀ waking', ok waking' p (signaler_wake g).
Proof. intros [Hf Ha Hw] w'. by split; simpl. Qed.

Lemma ok_reset waking g : ok waking None g → ∀ waking', ok waking' None (reset g).
Proof. intros [Hf Ha Hw] w'. split; simpl; [by left|done|done]. Qed.

Lemma ok_mono (waking waking' : Prop) p g : (waking → waking') → ok waking p g → ok waking' p g.
Proof. intros H [Hf Ha Hw]. split; auto. Qed.

(** A waiter that cannot move is blocked. *)
Lemma waiter_stuck g p : waiter g p = None → p = GAsleep ∧ asleep g = true.
Proof. destruct p; simpl; try done; [by destruct (flag g =? 0)|by destruct (asleep g)]. Qed.

End Gate.
