(* ===== verification/ThreadPool.v ===== *)
(** * ThreadPool: the code

    Model of [Worker] and [ThreadPool] in
    [src/include/AstraLib/Threading/ThreadPool.hpp].

    The threads are the clients that call [assignTask], the dispatcher, the
    workers, and the one that runs the destructor.  Every access to a shared
    variable is a step; interleavings are sequentially consistent.  A wait on
    the task queue is a step that is not enabled yet.

    The task queue is an [AtomicRingBuffer<std::function<void()>, 1024>] with the
    dispatcher as its only reader.  It is used through the operations below, which
    [TaskQueue.v] shows the ring to implement: tickets order the values; [enqueue]
    claims its ticket, waits until its slot is free, and then makes its value
    available; [dequeue] waits for the value of the oldest ticket; [isEmpty] tells
    whether an unread ticket has been claimed. *)

From Stdlib Require Import ZArith Lia.
From S2P Require Import Prelude MachineInt Lts ThreadGate.
Local Open Scope Z_scope.
Local Open Scope astra_scope.

Module Pool.

(** A [std::function<void()>]: [None] when it is empty. *)
Definition func := option nat.

(** ** The task queue *)

(** A claimed ticket: its function, the client that holds it, and whether the
    value was published. *)
Record entry := mkEntry { e_func : func; e_owner : nat; e_ready : bool }.

Definition CAPACITY : nat := 1024.

Definition claim (q : list entry) (a : nat) (f : func) : list entry := q ++ [mkEntry f a false].

(** Client [a] publishes once its slot is one of the [CAPACITY] slots from the
    oldest unread ticket on. *)
Definition pending_of (a : nat) (e : entry) : bool := (e_owner e =? a)%nat && negb (e_ready e).

Definition publish (q : list entry) (a : nat) : option (list entry) :=
  match list_find (λ e, pending_of a e = true) q with
  | Some (i, e) =>
      if (i <? CAPACITY)%nat then Some (<[i := mkEntry (e_func e) (e_owner e) true]> q) else None
  | None => None
  end.

Definition dequeue (q : list entry) : option (func * list entry) :=
  match q with
  | e :: q' => if e_ready e then Some (e_func e, q') else None
  | [] => None
  end.

Definition isEmpty (q : list entry) : bool := match q with [] => true | _ => false end.

(** ** Worker *)

(** [thread_loop]: the loop test, [gate.waiter()], [if (task)], the call, the
    assignment of [nullptr], [gate.reset()], the store to [poolFlag]. *)
Inductive kpc := KLoop | KWait (p : Gate.pc) | KTest | KCall | KClear | KReset | KFree | KExit.

Record Worker := mkWorker {
  gate : Gate.gate;
  task : func;
  poolFlag : Z;
  w_running : bool;
  w_pc : kpc;
}.

(** The constructor. *)
Definition Worker_init : Worker := mkWorker Gate.ThreadGate None 0 true KLoop.

(** One step of [thread_loop]; the second component is the task it executed. *)
Definition thread_loop (w : Worker) : option (Worker * list nat) :=
  match w_pc w with
  | KLoop =>
      Some (mkWorker (gate w) (task w) (poolFlag w) (w_running w)
              (if w_running w then KWait Gate.GLoad else KExit), [])
  | KWait p =>
      let? r := Gate.waiter (gate w) p in
      Some (mkWorker r.1 (task w) (poolFlag w) (w_running w)
              (match r.2 with inl p' => KWait p' | inr _ => KTest end), [])
  | KTest =>
      Some (mkWorker (gate w) (task w) (poolFlag w) (w_running w)
              (match task w with Some _ => KCall | None => KLoop end), [])
  | KCall =>
      let? id := task w in
      Some (mkWorker (gate w) (task w) (poolFlag w) (w_running w) KClear, [id])
  | KClear => Some (mkWorker (gate w) None (poolFlag w) (w_running w) KReset, [])
  | KReset => Some (mkWorker (Gate.reset (gate w)) (task w) (poolFlag w) (w_running w) KFree, [])
  | KFree => Some (mkWorker (gate w) (task w) 0 (w_running w) KLoop, [])
  | KExit => None
  end.

(** [activateWorker]: the assignment of the task, then [gate.signaler()]. *)
Definition activate_assign (f : func) (w : Worker) : Worker :=
  mkWorker (gate w) f (poolFlag w) (w_running w) (w_pc w).
Definition gate_store (w : Worker) : Worker :=
  mkWorker (Gate.signaler_store (gate w)) (task w) (poolFlag w) (w_running w) (w_pc w).
Definition gate_wake (w : Worker) : Worker :=
  mkWorker (Gate.signaler_wake (gate w)) (task w) (poolFlag w) (w_running w) (w_pc w).

(** [~Worker]: [running = false], [gate.signaler()], [thread.join()]. *)
Definition stop_worker (w : Worker) : Worker :=
  mkWorker (gate w) (task w) (poolFlag w) false (w_pc w).

Definition set_poolFlag (x : Z) (w : Worker) : Worker :=
  mkWorker (gate w) (task w) x (w_running w) (w_pc w).

(** ** ThreadPool *)

(** The dispatcher in [taskDispatcher]: [DInner] and [DInnerEmpty] are the two
    operands of the inner loop test; [DScan f start retry] is a round of one of
    the two do-while loops ([retry] in the second); [DRecheck] is the [isEmpty]
    after [taskGate.reset()]. *)
Inductive dpc :=
| DLoop
| DWait (p : Gate.pc)
| DInner
| DInnerEmpty
| DDequeue
| DScan (f : func) (start : Z) (retry : bool)
| DActivate (f : func) (i : nat)
| DStore (i : nat)
| DWake (i : nat)
| DOuter
| DReset
| DRecheck
| DSelfStore
| DSelfWake
| DExit.

(** A client in [assignTask]: spinning in [enqueue], then the two steps of
    [taskGate.signaler()]. *)
Inductive apc := AIdle | AEnqueue | AStore | AWake.

(** [~ThreadPool], then the destructors of the workers, last one first. *)
Inductive xpc :=
| XNone
| XStore
| XWake
| XJoin
| XStop (i : nat)
| XStoreW (i : nat)
| XWakeW (i : nat)
| XJoinW (i : nat)
| XDone.

Record pool := mkPool {
  taskGate : Gate.gate;
  threads : list Worker;
  threadFlags : list nat;
  taskQueue : list entry;
  running : bool;
  lastIdDispatched : Z;
  d_pc : dpc;
  a_pc : list apc;
  x_pc : xpc;
  submitted : list nat;
  executed : list nat;
}.

Definition with_gate (c : pool) (g : Gate.gate) (p : dpc) : pool :=
  mkPool g (threads c) (threadFlags c) (taskQueue c) (running c) (lastIdDispatched c) p
         (a_pc c) (x_pc c) (submitted c) (executed c).
Definition with_d (c : pool) (p : dpc) : pool := with_gate c (taskGate c) p.
Definition with_queue (c : pool) (q : list entry) (p : dpc) : pool :=
  mkPool (taskGate c) (threads c) (threadFlags c) q (running c) (lastIdDispatched c) p
         (a_pc c) (x_pc c) (submitted c) (executed c).
Definition with_id (c : pool) (id : Z) (p : dpc) : pool :=
  mkPool (taskGate c) (threads c) (threadFlags c) (taskQueue c) (running c) id p
         (a_pc c) (x_pc c) (submitted c) (executed c).
Definition with_worker (c : pool) (i : nat) (w : Worker) (p : dpc) : pool :=
  mkPool (taskGate c) (<[i := w]> (threads c)) (threadFlags c) (taskQueue c) (running c)
         (lastIdDispatched c) p (a_pc c) (x_pc c) (submitted c) (executed c).

(** [id = (id + 1) % THREAD_COUNT] *)
Definition next_id (c : pool) (id : Z) : option Z :=
  let? y := int_op (id + 1) in Some (to_i32 (to_u64 y mod Z.of_nat (length (threads c)))).

(** [threadFlags[id]], a pointer to the [poolFlag] of a worker. *)
Definition flag_at (c : pool) (id : Z) : option nat :=
  if id <? 0 then None else threadFlags c !! Z.to_nat id.

(** One step of [taskDispatcher]. *)
Definition taskDispatcher (c : pool) : option pool :=
  match d_pc c with
  | DLoop => Some (with_d c (if running c then DWait Gate.GLoad else DExit))
  | DWait p =>
      let? r := Gate.waiter (taskGate c) p in
      Some (with_gate c r.1 (match r.2 with inl p' => DWait p' | inr _ => DInner end))
  | DInner => Some (with_d c (if running c then DInnerEmpty else DOuter))
  | DInnerEmpty => Some (with_d c (if negb (isEmpty (taskQueue c)) then DDequeue else DOuter))
  | DDequeue =>
      let? r := dequeue (taskQueue c) in
      Some (with_queue c r.2 (DScan r.1 (lastIdDispatched c) false))
  | DScan f start retry =>
      let id := lastIdDispatched c in
      let? i := flag_at c id in
      let? w := threads c !! i in
      if poolFlag w =? 0
      then Some (with_worker c i (set_poolFlag 1 w) (DActivate f (Z.to_nat id)))
      else let? id' := next_id c id in
           Some (with_id c id' (DScan f start (if negb (id' =? start) then retry else true)))
  | DActivate f i =>
      let? w := threads c !! i in Some (with_worker c i (activate_assign f w) (DStore i))
  | DStore i => let? w := threads c !! i in Some (with_worker c i (gate_store w) (DWake i))
  | DWake i =>
      let? w := threads c !! i in
      let? id' := next_id c (lastIdDispatched c) in
      Some (with_id (with_worker c i (gate_wake w) DInner) id' DInner)
  | DOuter => Some (with_d c (if isEmpty (taskQueue c) then DReset else DLoop))
  | DReset => Some (with_gate c (Gate.reset (taskGate c)) DRecheck)
  | DRecheck => Some (with_d c (if negb (isEmpty (taskQueue c)) then DSelfStore else DLoop))
  | DSelfStore => Some (with_gate c (Gate.signaler_store (taskGate c)) DSelfWake)
  | DSelfWake => Some (with_gate c (Gate.signaler_wake (taskGate c)) DLoop)
  | DExit => None
  end.

(** One step of [assignTask] of client [a], after it claimed its ticket. *)
Definition assignTask (c : pool) (a : nat) (p : apc) : option pool :=
  let go g q p' := mkPool g (threads c) (threadFlags c) q (running c) (lastIdDispatched c) (d_pc c)
                     (<[a := p']> (a_pc c)) (x_pc c) (submitted c) (executed c) in
  match p with
  | AIdle => None
  | AEnqueue => let? q := publish (taskQueue c) a in Some (go (taskGate c) q AStore)
  | AStore => Some (go (Gate.signaler_store (taskGate c)) (taskQueue c) AWake)
  | AWake => Some (go (Gate.signaler_wake (taskGate c)) (taskQueue c) AIdle)
  end.

(** One step of the destructor. *)
Definition destructor (c : pool) : option pool :=
  let go g ws p := mkPool g ws (threadFlags c) (taskQueue c) (running c) (lastIdDispatched c) (d_pc c)
                     (a_pc c) p (submitted c) (executed c) in
  let at_worker i f p :=
    let? w := threads c !! i in Some (go (taskGate c) (<[i := f w]> (threads c)) p) in
  match x_pc c with
  | XNone | XDone => None
  | XStore => Some (go (Gate.signaler_store (taskGate c)) (threads c) XWake)
  | XWake => Some (go (Gate.signaler_wake (taskGate c)) (threads c) XJoin)
  | XJoin =>
      match d_pc c with
      | DExit => Some (go (taskGate c) (threads c) (XStop (length (threads c) - 1)))
      | _ => None
      end
  | XStop i => at_worker i stop_worker (XStoreW i)
  | XStoreW i => at_worker i gate_store (XWakeW i)
  | XWakeW i => at_worker i gate_wake (XJoinW i)
  | XJoinW i =>
      let? w := threads c !! i in
      match w_pc w with
      | KExit => Some (go (taskGate c) (threads c) (match i with O => XDone | S j => XStop j end))
      | _ => None
      end
  end.

(** Who moves.  [Assign a f] starts [assignTask(f)]: the ticket is claimed.
    [Destroy] starts the destructor, which no client may overlap.  The two
    [Interrupt]s end a blocked system call early. *)
Inductive act :=
| Assign (a : nat) (f : func)
| Client (a : nat)
| Dispatcher
| Work (i : nat)
| Destroy
| Destructor
| InterruptD
| InterruptW (i : nat).

Definition is_idle (p : apc) : bool := match p with AIdle => true | _ => false end.

Definition exec (c : pool) (a : act) : option pool :=
  match a with
  | Assign j f =>
      match a_pc c !! j, x_pc c with
      | Some AIdle, XNone =>
          Some (mkPool (taskGate c) (threads c) (threadFlags c) (claim (taskQueue c) j f) (running c)
                  (lastIdDispatched c) (d_pc c) (<[j := AEnqueue]> (a_pc c)) (x_pc c)
                  (submitted c ++ option_list f) (executed c))
      | _, _ => None
      end
  | Client j => let? p := a_pc c !! j in assignTask c j p
  | Dispatcher => taskDispatcher c
  | Work i =>
      let? w := threads c !! i in
      let? r := thread_loop w in
      Some (mkPool (taskGate c) (<[i := r.1]> (threads c)) (threadFlags c) (taskQueue c) (running c)
              (lastIdDispatched c) (d_pc c) (a_pc c) (x_pc c) (submitted c) (executed c ++ r.2))
  | Destroy =>
      match x_pc c with
      | XNone =>
          if forallb is_idle (a_pc c)
          then Some (mkPool (taskGate c) (threads c) (threadFlags c) (taskQueue c) false
                       (lastIdDispatched c) (d_pc c) (a_pc c) XStore (submitted c) (executed c))
          else None
      | _ => None
      end
  | Destructor => destructor c
  | InterruptD => Some (with_gate c (Gate.interrupt (taskGate c)) (d_pc c))
  | InterruptW i =>
      let? w := threads c !! i in
      Some (with_worker c i (mkWorker (Gate.interrupt (gate w)) (task w) (poolFlag w) (w_running w) (w_pc w))
              (d_pc c))
  end.

Definition pool_machine : machine := Machine pool act exec.

(** [for (Worker& thread : threads) threadFlags[id++] = &thread.poolFlag;] *)
Definition registerWorkers (n : nat) : list nat := List.seq 0 n.

(** The constructor, with [THREAD_COUNT] workers, and [clients] threads that
    will call [assignTask]. *)
Definition ThreadPool (THREAD_COUNT clients : nat) : pool :=
  mkPool Gate.ThreadGate (replicate THREAD_COUNT Worker_init) (registerWorkers THREAD_COUNT) [] true 0
         DLoop (replicate clients AIdle) XNone [] [].

(** [static_assert(THREAD_COUNT > 0)], and an [int] holds every index. *)
Definition count_ok (THREAD_COUNT : nat) : Prop := 0 < Z.of_nat THREAD_COUNT <= INT_MAX.

End Pool.
