(* ===== verification/PoolInvariant.v ===== *)
(** * ThreadPool: the invariant

    Four layers, each preserved by every action: the structure of the pool and
    the phases of its destructor ([sinv]), the hand-over of tasks to workers
    ([kinv]), the task gate and the queue ([ginv]), and the whereabouts of every
    submitted task ([conserved]). *)

From Stdlib Require Import ZArith Lia.
From S2P Require Import Prelude MachineInt Lts ThreadGate ThreadPool.
Import Pool.
Local Open Scope Z_scope.
Local Open Scope astra_scope.

Section Invariant.
Context (N : nat) (HN : count_ok N).

(** ** Structure *)

Definition xnone (x : xpc) : bool := match x with XNone => true | _ => false end.

(** The destructor is past [dispatcherThread.join()]. *)
Definition joined (x : xpc) : bool :=
  match x with XNone | XStore | XWake | XJoin => false | _ => true end.

Definition x_index (x : xpc) : option nat :=
  match x with XStop i | XStoreW i | XWakeW i | XJoinW i => Some i | _ => None end.

(** The worker the dispatcher is handing a task to. *)
Definition d_index (p : dpc) : option nat :=
  match p with DActivate _ i | DStore i | DWake i => Some i | _ => None end.

Record sinv (c : pool) : Prop := {
  sv_len : length (threads c) = N;
  sv_flags : threadFlags c = List.seq 0 N;
  sv_id : 0 <= lastIdDispatched c < Z.of_nat N;
  sv_didx : ∀ i, d_index (d_pc c) = Some i → Z.of_nat i = lastIdDispatched c;
  sv_run : running c = xnone (x_pc c);
  sv_exit : d_pc c = DExit → running c = false;
  sv_join : joined (x_pc c) = true → d_pc c = DExit;
  sv_idle : running c = false → ∀ a p, a_pc c !! a = Some p → p = AIdle;
  sv_xidx : ∀ i, x_index (x_pc c) = Some i → (i < N)%nat;
}.

Lemma next_id_mod c id :
  length (threads c) = N → 0 <= id < Z.of_nat N → next_id c id = Some ((id + 1) mod Z.of_nat N).
Proof using HN.
  intros Hl Hid. unfold count_ok, INT_MAX in HN. unfold next_id, int_op, INT_MIN, INT_MAX.
  rewrite (proj2 (Z.leb_le _ _)), (proj2 (Z.leb_le _ _)) by lia. simpl. rewrite Hl.
  rewrite (uwrap_small 64) by lia. pose proof (Z.mod_pos_bound (id + 1) (Z.of_nat N) ltac:(lia)).
  by rewrite (swrap_small 32) by lia.
Qed.

Lemma flag_at_id c id :
  threadFlags c = List.seq 0 N → 0 <= id < Z.of_nat N → flag_at c id = Some (Z.to_nat id).
Proof.
  intros Hf Hid. unfold flag_at. rewrite (proj2 (Z.ltb_ge _ _)), Hf by lia.
  rewrite lookup_seq_lt by lia. done.
Qed.

Lemma sinv_dispatcher c c' : sinv c → taskDispatcher c = Some c' → sinv c'.
Proof using HN.
  intros Hi He. pose proof Hi as [Hl Hf Hid Hd Hr Hx Hj Ha Hxi]. unfold taskDispatcher in He.
  assert (0 <= (lastIdDispatched c + 1) mod Z.of_nat N < Z.of_nat N) as Hm by (apply Z.mod_pos_bound; lia).
  destruct (d_pc c) eqn:Ed; simpl in He, Hd.
  all: try (rewrite (flag_at_id c) in He by done; simpl in He).
  all: try (rewrite (next_id_mod c) in He by done; simpl in He).
  all: step_inv He; split; simpl; rewrite ?length_insert; try done.
  all: try (by intros Hq; specialize (Hj Hq)).
  all: try (by destruct (Gate.waiter _ _) as [[? []]|]).
  all: try (intros i; repeat case_match; try done; by intros [= <-]).
  all: try (by destruct (running c)).
  all: try (by case_match).
  all: try (intros i [= <-]; lia).
Qed.

Lemma sinv_client c a p c' : sinv c → a_pc c !! a = Some p → assignTask c a p = Some c' → sinv c'.
Proof.
  intros Hi Hp He. pose proof Hi as [Hl Hf Hid Hd Hr Hx Hj Ha Hxi]. unfold assignTask in He.
  destruct p; step_inv He; split; simpl; try done.
  all: intros Hrun; by specialize (Ha Hrun _ _ Hp).
Qed.

Lemma sinv_destructor c c' : sinv c → destructor c = Some c' → sinv c'.
Proof using HN.
  intros Hi He. pose proof Hi as [Hl Hf Hid Hd Hr Hx Hj Ha Hxi]. unfold destructor in He.
  unfold count_ok in HN.
  destruct (x_pc c) eqn:Ex; simpl in He, Hr, Hj, Hxi; step_inv He;
    split; simpl; rewrite ?length_insert; try done; try (by auto).
  all: try (intros j [= <-]; specialize (Hxi _ eq_refl); lia).
  all: try (intros j [= <-]; lia).
  all: destruct i as [|i]; simpl; try done; try (intros j [= <-]; specialize (Hxi _ eq_refl); lia).
Qed.

Lemma psinv_exec c a c' : sinv c → exec c a = Some c' → sinv c'.
Proof using HN.
  intros Hi He. destruct a as [a f|a| |i| | | |i]; simpl in He.
  - pose proof Hi as [Hl Hf Hid Hd Hr Hx Hj Ha Hxi]. destruct (a_pc c !! a) as [[]|]; try done.
    destruct (x_pc c) eqn:Ex; try done. simplify_eq. split; simpl; rewrite ?Ex; try done.
    intros Hrun. rewrite Hr in Hrun. done.
  - step_inv He. by eapply sinv_client.
  - by eapply sinv_dispatcher.
  - pose proof Hi as [Hl Hf Hid Hd Hr Hx Hj Ha Hxi]. step_inv He. split; simpl; rewrite ?length_insert; done.
  - pose proof Hi as [Hl Hf Hid Hd Hr Hx Hj Ha Hxi]. destruct (x_pc c) eqn:Ex; try done.
    destruct (forallb is_idle (a_pc c)) eqn:Ei; [|done]. simplify_eq. split; simpl; try done.
    intros _ j p Hp. rewrite forallb_forall in Ei.
    apply list_elem_of_lookup_2, list_elem_of_In, Ei in Hp. by destruct p.
  - by eapply sinv_destructor.
  - simplify_eq. by destruct Hi.
  - pose proof Hi as [Hl Hf Hid Hd Hr Hx Hj Ha Hxi]. step_inv He. split; simpl; rewrite ?length_insert; done.
Qed.

(** ** The hand-over to a worker *)

(** How far the dispatcher is with worker [i]. *)
Inductive dview := VNone | VActivate | VStore | VWake.

Definition dv (p : dpc) (i : nat) : dview :=
  match p with
  | DActivate _ j => if decide (j = i) then VActivate else VNone
  | DStore j => if decide (j = i) then VStore else VNone
  | DWake j => if decide (j = i) then VWake else VNone
  | _ => VNone
  end.

Definition settled (v : dview) : Prop := v = VNone ∨ v = VWake.

(** How far the destructor is with worker [i]: told to stop, signalled, gone. *)
Definition stopped (x : xpc) (i : nat) : bool :=
  match x with
  | XStoreW j | XWakeW j | XJoinW j => bool_decide (j ≤ i)%nat
  | XStop j => bool_decide (j < i)%nat
  | XDone => true
  | _ => false
  end.
Definition signalled (x : xpc) (i : nat) : bool :=
  match x with
  | XWakeW j | XJoinW j => bool_decide (j ≤ i)%nat
  | XStop j | XStoreW j => bool_decide (j < i)%nat
  | XDone => true
  | _ => false
  end.
Definition gone (x : xpc) (i : nat) : bool :=
  match x with
  | XStop j | XStoreW j | XWakeW j | XJoinW j => bool_decide (j < i)%nat
  | XDone => true
  | _ => false
  end.

Definition kwait (p : kpc) : option Gate.pc := match p with KWait q => Some q | _ => None end.

(** Somebody is between the store and the system call of the worker's gate. *)
Definition k_waking (d : dpc) (x : xpc) (i : nat) : Prop := d = DWake i ∨ x = XWakeW i.

(** What a worker's flags and task are, by where it is and how far the
    dispatcher is with it. *)
Definition phase (v : dview) (w : Worker) : Prop :=
  let fl := Gate.flag (gate w) in
  match w_pc w with
  | KLoop | KWait _ =>
      match v with
      | VActivate => poolFlag w = 1 ∧ task w = None ∧ fl = 0
      | VStore => poolFlag w = 1 ∧ fl = 0
      | _ => (poolFlag w = 0 ∧ task w = None ∧ (w_running w = true → fl = 0)) ∨ (poolFlag w = 1 ∧ fl = 1)
      end
  | KTest =>
      settled v ∧ fl = 1 ∧ (poolFlag w = 1 ∨ (poolFlag w = 0 ∧ task w = None ∧ w_running w = false))
  | KCall => settled v ∧ fl = 1 ∧ poolFlag w = 1 ∧ is_Some (task w)
  | KClear => settled v ∧ fl = 1 ∧ poolFlag w = 1
  | KReset => settled v ∧ fl = 1 ∧ poolFlag w = 1 ∧ task w = None
  | KFree => settled v ∧ poolFlag w = 1 ∧ task w = None ∧ (w_running w = true → fl = 0)
  | KExit => v = VNone ∧ w_running w = false
  end.

Record wk_ok (v : dview) (waking : Prop) (stop sign end_ : bool) (w : Worker) : Prop := {
  wo_gate : Gate.ok waking (kwait (w_pc w)) (gate w);
  wo_run : w_running w = negb stop;
  wo_phase : phase v w;
  wo_signalled : sign = true →
    Gate.flag (gate w) = 1 ∨ w_pc w = KFree ∨ w_pc w = KLoop ∨ w_pc w = KExit;
  wo_gone : end_ = true → w_pc w = KExit;
}.

Definition kinv (c : pool) : Prop := ∀ i w, threads c !! i = Some w →
  wk_ok (dv (d_pc c) i) (k_waking (d_pc c) (x_pc c) i)
        (stopped (x_pc c) i) (signalled (x_pc c) i) (gone (x_pc c) i) w.

(** A step of the worker. *)
Lemma wk_ok_loop v waking stop sign end_ w w' l :
  (stop = true → v = VNone) → (sign = true → stop = true) →
  wk_ok v waking stop sign end_ w → thread_loop w = Some (w', l) → wk_ok v waking stop sign end_ w'.
Proof.
  intros Hv Hss [Hg Hr Hp Hs He] Hst. unfold thread_loop in Hst. unfold phase in Hp.
  assert (∀ q, kwait (w_pc w) ≠ Some Gate.GAsleep → Gate.ok waking q (gate w)) as Haw
    by (intros; by eapply Gate.ok_awake).
  destruct (w_pc w) as [|p| | | | | |] eqn:Epc; simpl in Hst, Hp, Hg, Haw, Hs; try done.
  - simplify_eq. destruct (w_running w) eqn:Er; split; simpl; auto.
    + intros Hsi. rewrite (Hss Hsi) in Hr. done.
    + intros Hen. specialize (He Hen). done.
    + split; [|done]. apply Hv. by destruct stop.
  - destruct (Gate.waiter (gate w) p) as [[g' x]|] eqn:Eg; [|done]. simplify_eq.
    destruct (Gate.ok_waiter _ _ _ _ _ Hg Eg) as (Hf & Hx & Hok).
    destruct x as [p'|[]]; (split; simpl; [done|done| | |by intros Hen; specialize (He Hen)]);
      unfold phase; simpl; rewrite ?Hf; auto.
    + intros Hsi. by destruct (Hs Hsi) as [?|[?|[?|?]]]; [left|..].
    + specialize (Hx eq_refl). split_and!; [|done|].
      * destruct v; [by left|destruct Hp as (_ & _ & ?); lia|destruct Hp as [_ ?]; lia|by right].
      * assert (poolFlag w = 0 ∧ task w = None ∧ (w_running w = true → Gate.flag (gate w) = 0) ∨
          poolFlag w = 1) as [(?&?&Hrf)|?] by (destruct v; tauto); [right|by left].
        split_and!; [done|done|]. destruct (w_running w); [|done]. specialize (Hrf eq_refl). lia.
  - destruct Hp as (Hse & Hf & Hpf). simplify_eq.
    destruct (task w) as [id|] eqn:Et; split; simpl; auto; try (by intros Hen; specialize (He Hen)).
    + unfold phase. simpl. split_and!; try done. by destruct Hpf as [?|(?&?&?)].
    + unfold phase. simpl. destruct Hse as [->| ->]; destruct Hpf as [?|(?&?&Hnr)]; auto;
        left; (split; [done|]); (split; [done|]); congruence.
  - destruct Hp as (Hse & Hf & Hpf & [id Hid]). rewrite Hid in Hst. simplify_eq.
    split; simpl; auto; try (by intros Hen; specialize (He Hen)). unfold phase. simpl. tauto.
  - destruct Hp as (Hse & Hf & Hpf). simplify_eq.
    split; simpl; auto; try (by intros Hen; specialize (He Hen)). unfold phase. simpl. tauto.
  - destruct Hp as (Hse & Hf & Hpf & Ht). simplify_eq.
    split; simpl; auto; try (by intros Hen; specialize (He Hen)).
    + by eapply Gate.ok_reset.
    + unfold phase. simpl. tauto.
  - destruct Hp as (Hse & Hpf & Ht & Hf). simplify_eq.
    split; simpl; auto; try (by intros Hen; specialize (He Hen)).
    unfold phase. simpl. destruct Hse as [->| ->]; tauto.
Qed.

(** The stages of the destructor are ordered. *)
Lemma signalled_stopped x i : signalled x i = true → stopped x i = true.
Proof. destruct x; simpl; rewrite ?bool_decide_eq_true; try done; lia. Qed.

Lemma stopped_joined x i : stopped x i = true → joined x = true.
Proof. by destruct x. Qed.

Lemma stopped_dv c i : sinv c → stopped (x_pc c) i = true → dv (d_pc c) i = VNone.
Proof. intros Hs H%stopped_joined. by rewrite (sv_join _ Hs H). Qed.

(** The dispatcher changes its view of one worker at most; the others, and
    workers nobody touches, keep theirs. *)
Lemma wk_ok_mono v (waking waking' : Prop) stop sign end_ w :
  (waking → waking') → wk_ok v waking stop sign end_ w → wk_ok v waking' stop sign end_ w.
Proof. intros H [Hg Hr Hp Hs He]. split; try done. by eapply Gate.ok_mono. Qed.

Lemma kinv_idle_d c p g q id x l :
  kinv c → x = x_pc c → d_index (d_pc c) = None → d_index p = None →
  ∀ a s r, kinv (mkPool g (threads c) l q r id p a x s (executed c)).
Proof.
  intros Hk -> Hd Hp a s r i w Hw. simpl in *. specialize (Hk i w Hw).
  assert (dv p i = VNone ∧ dv (d_pc c) i = VNone) as [Hp' Hd'] by (by destruct p, (d_pc c)).
  rewrite Hp'. rewrite Hd' in Hk. eapply wk_ok_mono; [|done].
  intros [H|H]; [by rewrite H in Hd|by right].
Qed.

(** The dispatcher works on worker [i]. *)
Lemma kinv_touch c i w w' p id :
  kinv c → threads c !! i = Some w → (∀ j, j ≠ i → dv (d_pc c) j = VNone) → (∀ j, j ≠ i → dv p j = VNone) →
  wk_ok (dv p i) (k_waking p (x_pc c) i) (stopped (x_pc c) i) (signalled (x_pc c) i) (gone (x_pc c) i) w' →
  ∀ g q, kinv (mkPool g (<[i := w']> (threads c)) (threadFlags c) q (running c) id p (a_pc c) (x_pc c)
           (submitted c) (executed c)).
Proof.
  intros Hk Hw Hd Hp Hok g q j wj Hj. simpl in *.
  apply lookup_insert_cases in Hj as [(<-&<-&_)|(Hne&Hj)]; [done|].
  specialize (Hk j wj Hj). rewrite (Hd j) in Hk by done. rewrite (Hp j) by done.
  eapply wk_ok_mono; [|done]. intros [H|H]; [|by right].
  specialize (Hd j ltac:(done)). rewrite H in Hd. simpl in Hd. by destruct (decide (j = j)).
Qed.

Lemma dv_other i j p : d_index p = Some i → j ≠ i → dv p j = VNone.
Proof. destruct p; simpl; intros [= ->] Hne; by destruct (decide (i = j)). Qed.
Lemma dv_none j p : d_index p = None → dv p j = VNone.
Proof. by destruct p. Qed.

(** The four steps of the dispatcher with a worker. *)
Lemma wk_claim (k k' : Prop) sign end_ w :
  (k → k') → wk_ok VNone k false sign end_ w → poolFlag w = 0 →
  wk_ok VActivate k' false sign end_ (set_poolFlag 1 w).
Proof.
  intros Hk [Hg Hr Hp Hs He] Hf. split; simpl; try done; [by eapply Gate.ok_mono|].
  unfold phase in *. simpl in *. rewrite Hr in Hp. destruct (w_pc w); try (exfalso; lia).
  all: try (destruct Hp as [(_ & Ht & Hfl)|[? _]]; [by auto|lia]).
  all: exfalso; destruct Hp as (_ & _ & [?|(_ & _ & ?)]) || destruct Hp as [_ ?]; (done || lia).
Qed.

Lemma wk_assign (k k' : Prop) sign end_ w f :
  (k → k') → wk_ok VActivate k false sign end_ w →
  wk_ok VStore k' false sign end_ (activate_assign f w).
Proof.
  intros Hk [Hg Hr Hp Hs He]. split; simpl; try done; [by eapply Gate.ok_mono|].
  unfold phase in *. simpl in *. destruct (w_pc w); try tauto.
  all: exfalso; destruct Hp as [[|] _] || destruct Hp as [? _]; done.
Qed.

Lemma wk_store (k k' : Prop) sign end_ w :
  k' → wk_ok VStore k false sign end_ w → wk_ok VWake k' false sign end_ (gate_store w).
Proof.
  intros Hk [Hg Hr Hp Hs He]. split; simpl; try done; [by eapply Gate.ok_store|..|by left].
  unfold phase in *. simpl in *. destruct (w_pc w); try tauto.
  all: exfalso; destruct Hp as [[|] _] || destruct Hp as [? _]; done.
Qed.

Lemma wk_wake (k k' : Prop) stop sign end_ w :
  wk_ok VWake k stop sign end_ w → wk_ok VNone k' stop sign end_ (gate_wake w).
Proof.
  intros [Hg Hr Hp Hs He]. split; simpl; try done; [by eapply Gate.ok_woken|].
  unfold phase, settled in *. simpl in *. destruct (w_pc w); try tauto.
Qed.

Lemma kinv_dispatcher c c' : sinv c → kinv c → taskDispatcher c = Some c' → kinv c'.
Proof using HN.
  intros Hsv Hk He. pose proof Hsv as [Hl Hf Hid Hd Hr Hx Hj Ha Hxi]. unfold taskDispatcher in He.
  assert (∀ i, d_pc c ≠ DExit → stopped (x_pc c) i = false) as Hns.
  { intros i Hne. destruct (stopped _ _) eqn:E; [|done]. apply stopped_joined in E. by specialize (Hj E). }
  destruct (d_pc c) eqn:Ed; simpl in He, Hd.
  all: try (rewrite (flag_at_id c) in He by done; simpl in He).
  all: try (rewrite (next_id_mod c) in He by done; simpl in He).
  all: step_inv He.
  all: try (apply kinv_idle_d; try done; try (by rewrite Ed); repeat case_match; done).
  all: unfold with_id, with_worker; simpl; eapply kinv_touch; [done|done| |intros j Hne; simpl; try (by rewrite decide_False by congruence); done|].
  all: try (rewrite Ed; intros j Hne; simpl; try (by rewrite decide_False by congruence); done).
  all: pose proof (Hk _ _ E) as Hw; rewrite Ed in Hw; simpl in Hw |- *;
    rewrite ?(Hns _ ltac:(done)) in *; rewrite ?decide_True in * by done.
  - apply Z.eqb_eq in E0. eapply wk_claim; [|done|done]. intros [H|H]; [done|by right].
  - eapply wk_assign; [|done]. intros [H|H]; [done|by right].
  - eapply wk_store; [by left|done].
  - by eapply wk_wake.
Qed.

(** The destructor's steps with a worker. *)
Lemma wk_stop (k : Prop) w :
  wk_ok VNone k false false false w → wk_ok VNone k true false false (stop_worker w).
Proof.
  intros [Hg Hr Hp Hs He]. split; simpl; try done. unfold phase in *. simpl in *. rewrite Hr in Hp. simpl in Hp.
  destruct (w_pc w); intuition congruence.
Qed.

Lemma wk_store_x (k k' : Prop) w :
  k' → wk_ok VNone k true false false w → wk_ok VNone k' true true false (gate_store w).
Proof.
  intros Hk [Hg Hr Hp Hs He]. split; simpl; try done; [by eapply Gate.ok_store| |by left].
  unfold phase in *. simpl in *. rewrite Hr in *. simpl in *. destruct (w_pc w); intuition congruence.
Qed.

Lemma wk_wake_x (k k' : Prop) stop sign end_ w :
  wk_ok VNone k stop sign end_ w → wk_ok VNone k' stop sign end_ (gate_wake w).
Proof. intros [Hg Hr Hp Hs He]. split; simpl; try done. by eapply Gate.ok_woken. Qed.

Lemma kinv_destructor c c' : sinv c → kinv c → destructor c = Some c' → kinv c'.
Proof using HN.
  intros Hsv Hk He. pose proof Hsv as [Hl Hf Hid Hd Hr Hx Hj Ha Hxi]. unfold destructor in He.
  destruct (x_pc c) eqn:Ex; simpl in He, Hj, Hxi; try done; step_inv He; intros j wj Hwj; simpl in Hwj |- *.
  - pose proof (Hk _ _ Hwj) as H. rewrite Ex in H. eapply wk_ok_mono; [|exact H]. intros [|]; [by left|done].
  - pose proof (Hk _ _ Hwj) as H. rewrite Ex in H. eapply wk_ok_mono; [|exact H]. intros [|]; [by left|done].
  - pose proof (lookup_lt_Some _ _ _ Hwj). pose proof (Hk _ _ Hwj) as H'. rewrite Ex, E in H'. simpl in H'.
    rewrite !bool_decide_eq_false_2 by lia. eapply wk_ok_mono; [|exact H']. intros [|]; done.
  - specialize (Hj eq_refl). rewrite Hj in *.
    apply lookup_insert_cases in Hwj as [(<-&<-&_)|(Hne&Hwj)].
    + pose proof (Hk _ _ E) as H. rewrite Ex, Hj in H. simpl in H |- *.
      rewrite !bool_decide_eq_false_2 in H by lia.
      rewrite bool_decide_eq_true_2, !bool_decide_eq_false_2 by lia.
      eapply wk_ok_mono; [|by apply wk_stop]. intros [|]; done.
    + pose proof (Hk _ _ Hwj) as H. rewrite Ex, Hj in H. simpl in H |- *.
      rewrite (bool_decide_ext (i ≤ j)%nat (i < j)%nat) by lia. eapply wk_ok_mono; [|exact H]. intros [|]; done.
  - specialize (Hj eq_refl). rewrite Hj in *.
    apply lookup_insert_cases in Hwj as [(<-&<-&_)|(Hne&Hwj)].
    + pose proof (Hk _ _ E) as H. rewrite Ex, Hj in H. simpl in H |- *.
      rewrite bool_decide_eq_true_2, !bool_decide_eq_false_2 in H by lia.
      rewrite !bool_decide_eq_true_2, !bool_decide_eq_false_2 by lia.
      eapply wk_store_x; [by right|done].
    + pose proof (Hk _ _ Hwj) as H. rewrite Ex, Hj in H. simpl in H |- *.
      rewrite (bool_decide_ext (i ≤ j)%nat (i < j)%nat) in H |- * by lia.
      eapply wk_ok_mono; [|exact H]. intros [|]; done.
  - specialize (Hj eq_refl). rewrite Hj in *.
    apply lookup_insert_cases in Hwj as [(<-&<-&_)|(Hne&Hwj)].
    + pose proof (Hk _ _ E) as H. rewrite Ex, Hj in H. simpl in H |- *. by eapply wk_wake_x.
    + pose proof (Hk _ _ Hwj) as H. rewrite Ex, Hj in H. simpl in H |- *.
      eapply wk_ok_mono; [|exact H]. intros [?|[= ->]]; done.
  - specialize (Hj eq_refl). rewrite Hj in *. pose proof (Hk _ _ Hwj) as [Hg Hrn Hp Hs Hen].
    rewrite Ex, Hj in *. simpl in *.
    assert (stopped (match i with O => XDone | S j => XStop j end) j = bool_decide (i ≤ j)%nat ∧
      signalled (match i with O => XDone | S j => XStop j end) j = bool_decide (i ≤ j)%nat ∧
      gone (match i with O => XDone | S j => XStop j end) j = bool_decide (i ≤ j)%nat) as (H1 & H2 & H3).
    { destruct i; simpl; [done|].
      split_and!; apply bool_decide_ext; lia. }
    rewrite H1, H2, H3. split; try done.
    + eapply Gate.ok_mono; [|done]. intros [|]; done.
    + intros Hle%bool_decide_eq_true. destruct (decide (i = j)) as [->|]; [by simplify_eq|].
      apply Hen, bool_decide_eq_true. lia.
Qed.

Lemma kinv_exec c a c' : sinv c → kinv c → exec c a = Some c' → kinv c'.
Proof using HN.
  intros Hsv Hk He. destruct a as [a f|a| |i| | | |i]; simpl in He.
  - destruct (a_pc c !! a) as [[]|]; try done. destruct (x_pc c) eqn:Ex; try done. simplify_eq.
    intros j w Hw. specialize (Hk j w Hw). simpl in *. by rewrite Ex in Hk.
  - destruct (a_pc c !! a) as [p|]; [|done]. unfold assignTask in He. destruct p; step_inv He; exact Hk.
  - by eapply kinv_dispatcher.
  - step_inv He. destruct p as [w' l]. simpl. intros j wj Hj. simpl in *.
    apply lookup_insert_cases in Hj as [(<-&<-&_)|(Hne&Hj)]; [|by apply Hk].
    eapply wk_ok_loop; [|by apply signalled_stopped|by apply Hk|done]. by apply stopped_dv.
  - destruct (x_pc c) eqn:Ex; try done. destruct (forallb is_idle (a_pc c)) eqn:Ei; [|done]. simplify_eq.
    intros j w Hw. specialize (Hk j w Hw). simpl in *. rewrite Ex in Hk.
    eapply wk_ok_mono; [|exact Hk]. intros [|]; [by left|done].
  - by eapply kinv_destructor.
  - by simplify_eq.
  - step_inv He. intros j wj Hj. simpl in *.
    apply lookup_insert_cases in Hj as [(<-&<-&_)|(Hne&Hj)]; [|by apply Hk].
    destruct (Hk _ _ E) as [Hg Hr Hp Hs Hen]. split; simpl; try done. by eapply Gate.ok_woken.
Qed.

(** ** The task gate and the queue *)

Definition dwait (p : dpc) : option Gate.pc := match p with DWait q => Some q | _ => None end.

(** The dispatcher has passed the gate and not reset it. *)
Definition d_active (p : dpc) : bool :=
  match p with
  | DInner | DInnerEmpty | DDequeue | DScan _ _ _ | DActivate _ _ | DStore _ | DWake _ | DOuter | DReset => true
  | _ => false
  end.

(** The dispatcher is going to look at the queue again. *)
Definition d_rechecks (p : dpc) : bool := match p with DRecheck | DSelfStore => true | _ => false end.

(** After a reset, on its way to the loop test. *)
Definition d_leaving (p : dpc) : bool :=
  match p with DRecheck | DSelfStore | DSelfWake | DLoop | DExit => true | _ => false end.

Definition past_store (x : xpc) : bool := match x with XNone | XStore => false | _ => true end.

Definition client_at (c : pool) (p : apc) : Prop := ∃ a, a_pc c !! a = Some p.
Definition some_ready (q : list entry) : Prop := ∃ k e, q !! k = Some e ∧ e_ready e = true.

Record ginv (c : pool) : Prop := {
  gv_gate : Gate.ok (client_at c AWake ∨ x_pc c = XWake) (dwait (d_pc c)) (taskGate c);
  gv_active : d_active (d_pc c) = true → Gate.flag (taskGate c) = 1;
  gv_signal : Gate.flag (taskGate c) = 0 → some_ready (taskQueue c) →
    client_at c AStore ∨ d_rechecks (d_pc c) = true;
  gv_owner : ∀ k e, taskQueue c !! k = Some e → e_ready e = false → a_pc c !! e_owner e = Some AEnqueue;
  gv_client : ∀ a, a_pc c !! a = Some AEnqueue → ∃ k e, taskQueue c !! k = Some e ∧ pending_of a e = true;
  gv_uniq : ∀ a k k' e e', taskQueue c !! k = Some e → taskQueue c !! k' = Some e' →
    pending_of a e = true → pending_of a e' = true → k = k';
  gv_leave : past_store (x_pc c) = true → Gate.flag (taskGate c) = 1 ∨ d_leaving (d_pc c) = true;
}.

Lemma pending_of_true a e : pending_of a e = true ↔ e_owner e = a ∧ e_ready e = false.
Proof. unfold pending_of. rewrite andb_true_iff, Nat.eqb_eq, negb_true_iff. done. Qed.

Lemma some_ready_nonempty q : some_ready q → isEmpty q = false.
Proof. intros (k & e & Hk & _). by destruct q. Qed.

(** A dispatcher step that leaves the queue alone. *)
Lemma ginv_d c g p ws fl id :
  ginv c → Gate.ok (client_at c AWake ∨ x_pc c = XWake) (dwait p) g →
  (d_active p = true → Gate.flag g = 1) →
  (Gate.flag g = 0 → some_ready (taskQueue c) → client_at c AStore ∨ d_rechecks p = true) →
  (past_store (x_pc c) = true → Gate.flag g = 1 ∨ d_leaving p = true) →
  ∀ r, ginv (mkPool g ws fl (taskQueue c) r id p (a_pc c) (x_pc c) (submitted c) (executed c)).
Proof. intros [] ? ? ? ? r. by split; simpl. Qed.

(** ... while the gate is open. *)
Lemma ginv_open c p ws fl id :
  ginv c → d_active (d_pc c) = true → dwait p = None →
  ∀ r, ginv (mkPool (taskGate c) ws fl (taskQueue c) r id p (a_pc c) (x_pc c) (submitted c) (executed c)).
Proof.
  intros Hg Ha Hp r. pose proof (gv_active _ Hg Ha) as Hf. apply ginv_d; [done|..].
  - eapply Gate.ok_awake; [apply (gv_gate _ Hg)|]. by destruct (d_pc c).
  - done.
  - lia.
  - by left.
Qed.

(** [dequeue] takes the oldest entry, whose value is available. *)
Lemma ginv_dequeue c f q p :
  ginv c → d_active (d_pc c) = true → dwait p = None → dequeue (taskQueue c) = Some (f, q) →
  ginv (with_queue c q p).
Proof.
  intros Hg Ha Hp Hq. pose proof (gv_active _ Hg Ha) as Hf. pose proof Hg as [Hga Hac Hsi How Hcl Hun Hlv].
  unfold dequeue in Hq. destruct (taskQueue c) as [|e q0] eqn:Eq; [done|].
  destruct (e_ready e) eqn:Er; [|done]. simplify_eq. split; simpl.
  - eapply Gate.ok_awake; [done|]. by destruct (d_pc c).
  - done.
  - lia.
  - intros k e' Hk. by apply (How (S k) e').
  - intros a Hcla. destruct (Hcl a Hcla) as ([|k] & e' & Hk & Hp'); [|by exists k, e'].
    simplify_eq/=. apply pending_of_true in Hp' as [_ ?]. congruence.
  - intros a k k' e1 e2 H1 H2 P1 P2. by injection (Hun a (S k) (S k') e1 e2 H1 H2 P1 P2).
  - by left.
Qed.

Lemma ginv_dispatcher c c' : sinv c → ginv c → taskDispatcher c = Some c' → ginv c'.
Proof.
  intros Hsv Hg He. pose proof Hg as [Hga Hac Hsi How Hcl Hun Hlv]. pose proof (sv_run _ Hsv) as Hrun.
  unfold taskDispatcher in He.
  assert (∀ k p', dwait (d_pc c) ≠ Some Gate.GAsleep → Gate.ok k p' (taskGate c)) as Haw
    by (intros; by eapply Gate.ok_awake).
  destruct (d_pc c) as [|p| | | | | | | | | | | | |] eqn:Ed; simpl in He, Hsi, Hga, Haw, Hlv.
  all: try (step_inv He; unfold with_id, with_worker; simpl;
    (apply (ginv_open c); [done|by rewrite Ed|done])).
  all: try (step_inv He; (apply (ginv_open c); [done|by rewrite Ed|by repeat case_match])).
  - simplify_eq. destruct (running c) eqn:Er; apply ginv_d; auto; try done.
    intros Hps. by destruct (x_pc c).
  - destruct (Gate.waiter (taskGate c) p) as [[g x]|] eqn:Eg; [|done]. simplify_eq/=.
    destruct (Gate.ok_waiter _ _ _ _ _ Hga Eg) as (Hf & Hx & Hok).
    destruct x as [p'|[]]; apply ginv_d; simpl; rewrite ?Hf; auto; try done.
  - destruct (dequeue (taskQueue c)) as [[f q]|] eqn:Eq; [|done]. simplify_eq/=.
    eapply ginv_dequeue; [done|by rewrite Ed|done|done].
  - simplify_eq/=. apply ginv_d; simpl; auto; [by eapply Gate.ok_reset|done].
  - simplify_eq/=. destruct (isEmpty (taskQueue c)) eqn:Ee; simpl; apply ginv_d; simpl; auto.
    intros _ Hrd%some_ready_nonempty. congruence.
  - simplify_eq/=. apply ginv_d; simpl; auto; try done.
    eapply (Gate.ok_awake True None); [|done]. apply (Gate.ok_store True); [|done]. by apply Haw.
  - simplify_eq/=. apply ginv_d; simpl; auto. by eapply Gate.ok_woken.
Qed.

Lemma client_at_insert c a p p' q :
  a_pc c !! a = Some p → q ≠ p → client_at c q → ∃ j, <[a := p']> (a_pc c) !! j = Some q.
Proof.
  intros Ha Hne [j Hj]. exists j. rewrite list_lookup_insert_ne; [done|]. intros ->. congruence.
Qed.

(** A client claims a ticket. *)
Lemma ginv_assign c a f c' : ginv c → exec c (Assign a f) = Some c' → ginv c'.
Proof.
  intros Hg He. pose proof Hg as [Hga Hac Hsi How Hcl Hun Hlv]. simpl in He.
  destruct (a_pc c !! a) as [[]|] eqn:Ea; try done. destruct (x_pc c) eqn:Ex; try done. simplify_eq.
  assert (∀ k e, taskQueue c !! k = Some e → pending_of a e = true → False) as Hno.
  { intros k e Hk [<- Hr]%pending_of_true. specialize (How k e Hk Hr). congruence. }
  split; simpl; unfold claim; try done.
  - eapply Gate.ok_mono; [|done]. intros [H|H]; [left|done]. by eapply client_at_insert.
  - intros Hf (k & e & [[Hk _]|[-> <-]]%lookup_snoc_cases & Hr); [|done].
    destruct (Hsi Hf) as [H|H]; [by exists k, e|left; by eapply client_at_insert|by right].
  - intros k e [[Hk _]|[-> <-]]%lookup_snoc_cases Hr; simpl.
    + rewrite list_lookup_insert_ne; [by eapply How|]. intros ->. specialize (How k e Hk Hr). congruence.
    + apply list_lookup_insert_eq. by eapply lookup_lt_Some.
  - intros j [(<-&_&_)|(Hne&Hj)]%lookup_insert_cases.
    + eexists _, _. split; [apply lookup_snoc_new|]. by apply pending_of_true.
    + destruct (Hcl j Hj) as (k & e & Hk & Hp). exists k, e. auto with astra.
  - intros j k k' e e' [[H1 _]|[-> <-]]%lookup_snoc_cases [[H2 _]|[-> <-]]%lookup_snoc_cases P1 P2; eauto.
    + apply pending_of_true in P2 as [<- _]. by destruct (Hno _ _ H1).
    + apply pending_of_true in P1 as [<- _]. by destruct (Hno _ _ H2).
Qed.

(** A client publishes its value. *)
Lemma ginv_publish c a q p' :
  ginv c → a_pc c !! a = Some AEnqueue → publish (taskQueue c) a = Some q → p' = AStore →
  ginv (mkPool (taskGate c) (threads c) (threadFlags c) q (running c) (lastIdDispatched c) (d_pc c)
          (<[a := p']> (a_pc c)) (x_pc c) (submitted c) (executed c)).
Proof.
  intros Hg Ha Hq ->. pose proof Hg as [Hga Hac Hsi How Hcl Hun Hlv].
  unfold publish in Hq. destruct (list_find _ _) as [[i e]|] eqn:Ef; [|done].
  destruct (i <? CAPACITY)%nat; [|done]. simplify_eq.
  apply list_find_Some in Ef as (Hi & Hp & _).
  pose proof (lookup_lt_Some _ _ _ Ha) as Hlt. pose proof (lookup_lt_Some _ _ _ Hi) as Hli.
  split; simpl; try done.
  - eapply Gate.ok_mono; [|done]. intros [H|H]; [left|by right]. by eapply client_at_insert.
  - intros _ _. left. exists a. by apply list_lookup_insert_eq.
  - intros k e' [(_&<-&_)|(Hne&Hk)]%lookup_insert_cases Hr; [done|].
    rewrite list_lookup_insert_ne; [by eapply How|]. intros Heq.
    apply Hne. eapply (Hun a); [done|done|done|]. by apply pending_of_true.
  - intros j [(_&?&_)|(Hne&Hj)]%lookup_insert_cases; [done|].
    destruct (Hcl j Hj) as (k & e' & Hk & Hpk). exists k, e'. split; [|done].
    rewrite list_lookup_insert_ne; [done|]. intros ->. simplify_eq.
    apply pending_of_true in Hp as [<- _]. by apply pending_of_true in Hpk as [<- _].
  - intros j k k' e1 e2 [(<-&<-&_)|(_&H1)]%lookup_insert_cases [(<-&<-&_)|(_&H2)]%lookup_insert_cases P1 P2; eauto.
    + by apply pending_of_true in P1 as [_ ?].
    + by apply pending_of_true in P2 as [_ ?].
Qed.

Lemma ginv_client_step c a p c' :
  ginv c → a_pc c !! a = Some p → assignTask c a p = Some c' → ginv c'.
Proof.
  intros Hg Ha He. pose proof Hg as [Hga Hac Hsi How Hcl Hun Hlv].
  pose proof (lookup_lt_Some _ _ _ Ha) as Hlt. unfold assignTask in He.
  assert (∀ q j, p ≠ AEnqueue → q ≠ AEnqueue →
    (<[a := q]> (a_pc c) !! j = Some AEnqueue ↔ a_pc c !! j = Some AEnqueue)) as Henq.
  { intros q j Hp Hq. destruct (decide (a = j)) as [->|Hne]; [|by rewrite list_lookup_insert_ne].
    rewrite list_lookup_insert_eq, Ha by done. split; congruence. }
  destruct p; [done|..].
  - destruct (publish (taskQueue c) a) as [q|] eqn:Eq; [|done]. simplify_eq. by apply ginv_publish.
  - simplify_eq. split; simpl; try done.
    + eapply Gate.ok_store; [done|]. left. exists a. by apply list_lookup_insert_eq.
    + intros k e Hk Hr. apply Henq; eauto.
    + intros j Hj. apply Henq in Hj; eauto.
    + by left.
  - simplify_eq. split; simpl; try done.
    + by eapply Gate.ok_woken.
    + intros Hf Hr. destruct (Hsi Hf Hr) as [H|H]; [left|by right]. by eapply client_at_insert.
    + intros k e Hk Hr. apply Henq; eauto.
    + intros j Hj. apply Henq in Hj; eauto.
Qed.

Lemma ginv_destructor c c' : sinv c → ginv c → destructor c = Some c' → ginv c'.
Proof.
  intros Hsv Hg He. pose proof Hg as [Hga Hac Hsi How Hcl Hun Hlv].
  pose proof (sv_join _ Hsv) as Hj. unfold destructor in He.
  destruct (x_pc c) eqn:Ex; simpl in He, Hlv, Hj; try done; step_inv He; split; simpl; try done.
  all: try (intros _; right; by rewrite (Hj eq_refl)).
  all: try (by intros _; left). all: try (by eapply Gate.ok_woken).
  all: try (by eapply Gate.ok_store; [done|right]).
  all: try (by eapply Gate.ok_mono; [|done]; intros [H|H]; [left|done]).
  all: by auto.
Qed.

Lemma ginv_exec c a c' : sinv c → ginv c → exec c a = Some c' → ginv c'.
Proof.
  intros Hsv Hg He. destruct a as [a f|a| |i| | | |i].
  - by eapply ginv_assign.
  - simpl in He. destruct (a_pc c !! a) as [p|] eqn:Ea; [|done]. by eapply ginv_client_step.
  - by eapply ginv_dispatcher.
  - simpl in He. step_inv He. by destruct Hg.
  - simpl in He. destruct (x_pc c) eqn:Ex; try done. destruct (forallb is_idle (a_pc c)) eqn:Ei; [|done].
    simplify_eq. destruct Hg. split; simpl; try done.
    eapply Gate.ok_mono; [|done]. intros [H|H]; [by left|by rewrite Ex in H].
  - by eapply ginv_destructor.
  - simpl in He. simplify_eq. destruct Hg. split; simpl; try done. by eapply Gate.ok_woken.
  - simpl in He. step_inv He. by destruct Hg.
Qed.

(** ** Where every submitted task is *)

Definition q_ids (q : list entry) : list nat := concat (option_list <$> (e_func <$> q)).
Definition hand (p : dpc) : list nat :=
  match p with DScan f _ _ | DActivate f _ => option_list f | _ => [] end.
(** A worker's task, until it has been called. *)
Definition pending (w : Worker) : list nat :=
  match w_pc w with KClear => [] | _ => option_list (task w) end.

Definition conserved (c : pool) : Prop :=
  submitted c ≡ₚ q_ids (taskQueue c) ++ hand (d_pc c) ++ concat (pending <$> threads c) ++ executed c.

Lemma pending_loop w w' l : thread_loop w = Some (w', l) → pending w = pending w' ++ l.
Proof.
  unfold thread_loop, pending. intros H.
  destruct (w_pc w) eqn:Ep; simpl in H; step_inv H; simpl; rewrite ?app_nil_r; try done.
  all: try (by destruct (w_running w)). all: by repeat case_match.
Qed.

Lemma pending_same ws i w w' :
  ws !! i = Some w → pending w' = pending w →
  concat (pending <$> <[i := w']> ws) = concat (pending <$> ws).
Proof.
  intros Hi Hp. by rewrite list_fmap_insert, Hp, list_insert_id by (by rewrite list_lookup_fmap, Hi).
Qed.

Lemma q_ids_publish q a q' : publish q a = Some q' → q_ids q' = q_ids q.
Proof.
  unfold publish. destruct (list_find _ _) as [[i e]|] eqn:Ef; [|done].
  destruct (_ <? _)%nat; [|done]. intros [= <-]. apply list_find_Some in Ef as (Hi & _).
  unfold q_ids. do 2 f_equal. rewrite list_fmap_insert. simpl. apply list_insert_id.
  by rewrite list_lookup_fmap, Hi.
Qed.

Lemma conserved_dispatcher c c' : sinv c → kinv c → conserved c → taskDispatcher c = Some c' → conserved c'.
Proof using HN.
  intros Hsv Hk Hc He. unfold conserved in *. unfold taskDispatcher in He.
  destruct (d_pc c) as [|p| | | |f st rt|f i|i|i| | | | | |] eqn:Ed; simpl in He, Hc.
  all: try (step_inv He; repeat case_match; exact Hc).
  - destruct (dequeue (taskQueue c)) as [[f q]|] eqn:Eq; [|done]. simplify_eq/=.
    unfold dequeue in Eq. destruct (taskQueue c) as [|e q0]; [done|]. destruct (e_ready e); [|done].
    simplify_eq. rewrite Hc. unfold q_ids. simpl. rewrite <- !app_assoc.
    apply Permutation_app_swap_app.
  - step_inv He; simpl; [|exact Hc]. by erewrite pending_same.
  - step_inv He; simpl. destruct (Hk _ _ E) as [_ _ Hp _ _]. rewrite Ed in Hp. simpl in Hp.
    rewrite decide_True in Hp by done. unfold phase in Hp.
    assert (pending w = []) as Hpe.
    { unfold pending, settled in *. destruct (w_pc w); simpl in Hp; try done.
      1, 2: by destruct Hp as (_ & -> & _). all: destruct Hp as [[|] _] || destruct Hp; done. }
    pose proof (concat_fmap_insert pending _ _ _ (activate_assign f w) E) as Hx. rewrite Hpe in Hx.
    assert (pending (activate_assign f w) = option_list f) as Hpa.
    { unfold pending, settled in *. simpl. destruct (w_pc w); try done. destruct Hp as [[|] _]; done. }
    rewrite Hpa in Hx. simpl in Hx. rewrite Hx, Hc. by rewrite <- app_assoc.
  - step_inv He; simpl. by erewrite pending_same.
  - step_inv He; simpl. by erewrite pending_same.
Qed.

Lemma conserved_exec c a c' : sinv c → kinv c → conserved c → exec c a = Some c' → conserved c'.
Proof using HN.
  intros Hsv Hk Hc He. destruct a as [a f|a| |i| | | |i]; simpl in He.
  - destruct (a_pc c !! a) as [[]|]; try done. destruct (x_pc c); try done. simplify_eq.
    unfold conserved in *. simpl. rewrite Hc. unfold q_ids, claim. rewrite !fmap_app, concat_app. simpl.
    rewrite app_nil_r, <- !app_assoc. f_equiv. rewrite (Permutation_app_comm (option_list f)).
    by rewrite <- !app_assoc.
  - destruct (a_pc c !! a) as [p|]; [|done]. unfold assignTask in He. destruct p; [done|..].
    + destruct (publish (taskQueue c) a) as [q|] eqn:Eq; [|done]. simplify_eq.
      unfold conserved in *. simpl. by rewrite (q_ids_publish _ _ _ Eq).
    + by simplify_eq.
    + by simplify_eq.
  - by eapply conserved_dispatcher.
  - step_inv He. destruct p as [w' l]. unfold conserved in *. simpl. rewrite Hc.
    pose proof (concat_fmap_insert pending _ _ _ w' E) as Hx. rewrite (pending_loop _ _ _ E0), <- app_assoc in Hx.
    apply Permutation_app_inv_l in Hx. rewrite <- Hx, <- !app_assoc. do 2 f_equiv.
    by rewrite (Permutation_app_comm l), <- !app_assoc.
  - destruct (x_pc c); try done. destruct (forallb _ _); [|done]. by simplify_eq.
  - unfold destructor in He. unfold conserved in *.
    destruct (x_pc c); try done; step_inv He; simpl; try done; by erewrite pending_same.
  - by simplify_eq.
  - step_inv He. unfold conserved in *. simpl. by erewrite pending_same.
Qed.

(** The dispatcher only dequeues from a queue that is not empty. *)
Definition dinv (c : pool) : Prop := d_pc c = DDequeue → taskQueue c ≠ [].

Lemma dinv_exec c a c' : dinv c → exec c a = Some c' → dinv c'.
Proof.
  intros Hd He. unfold dinv in *. destruct a as [a f|a| |i| | | |i]; simpl in He.
  - destruct (a_pc c !! a) as [[]|]; try done. destruct (x_pc c); try done. simplify_eq. simpl.
    intros _. unfold claim. by destruct (taskQueue c).
  - destruct (a_pc c !! a) as [p|]; [|done]. unfold assignTask in He. destruct p; [done|..]; step_inv He; try done.
    intros Hp Hq. apply (Hd Hp). unfold publish in E. destruct (list_find _ _) as [[i e]|]; [|done].
    destruct (_ <? _)%nat; [|done]. simplify_eq. by destruct (taskQueue c), i.
  - unfold taskDispatcher in He. destruct (d_pc c) eqn:Ed; step_inv He; simpl; try done.
    all: repeat case_match; try done. by destruct (taskQueue c).
  - by step_inv He.
  - destruct (x_pc c); try done. destruct (forallb _ _); [|done]. by simplify_eq.
  - unfold destructor in He. destruct (x_pc c); step_inv He; done.
  - by simplify_eq.
  - by step_inv He.
Qed.

(** ** All of it *)

Record pool_inv (c : pool) : Prop := {
  pi_d : dinv c;
  pi_s : sinv c;
  pi_k : kinv c;
  pi_g : ginv c;
  pi_c : conserved c;
}.

Lemma pool_inv_exec c a c' : pool_inv c → exec c a = Some c' → pool_inv c'.
Proof using HN.
  intros [Hd Hs Hk Hg Hc] He. split.
  - by eapply dinv_exec.
  - by eapply psinv_exec.
  - by eapply kinv_exec.
  - by eapply ginv_exec.
  - by eapply conserved_exec.
Qed.

Lemma pool_inv_start n : pool_inv (ThreadPool N n).
Proof using HN.
  unfold count_ok in HN. split.
  - done.
  - split; simpl; try done; try lia. apply length_replicate.
  - intros i w [-> _]%lookup_replicate. split; simpl; try done.
    + by split; [left| |].
    + left. done.
  - assert (∀ p, client_at (ThreadPool N n) p → p = AIdle) as Hcl.
    { intros p [a [-> _]%lookup_replicate]. done. }
    split; simpl; try done.
    + by split; [left| |].
    + by intros _ (k & e & Hk & _).
    + intros a H. by specialize (Hcl _ (ex_intro _ a H)).
  - unfold conserved. simpl. rewrite fmap_replicate. simpl. clear. by induction N.
Qed.

Lemma pool_inv_reach n c :
  reachable (M := pool_machine) (λ c, c = ThreadPool N n) c → pool_inv c.
Proof using HN.
  revert c. apply (invariant (M := pool_machine)).
  - intros c ->. apply pool_inv_start.
  - intros c a c' _. apply pool_inv_exec.
Qed.
End Invariant.
