(* ===== verification/PoolTheorems.v ===== *)
(** * ThreadPool: the theorems

    About every interleaving of the clients, the dispatcher, the workers and the
    destructor of a pool of [N] workers, under sequential consistency. *)

From Stdlib Require Import ZArith Lia.
From S2P Require Import Prelude MachineInt Lts ThreadGate ThreadPool PoolInvariant.
Import Pool.
Local Open Scope Z_scope.
Local Open Scope astra_scope.

Section Theorems.
Context (N : nat) (HN : count_ok N) (n : nat).
Abbreviation fresh := (λ c, c = ThreadPool N n).

(** C5. No task runs twice, and none runs that was not submitted: the executed
    tasks are a sub-multiset of the submitted ones, and every submitted task
    that was not executed is in the queue, with the dispatcher, or with a
    worker. *)
Theorem pool_executes_once c :
  reachable (M := pool_machine) fresh c →
  submitted c ≡ₚ executed c ++ q_ids (taskQueue c) ++ hand (d_pc c) ++ concat (pending <$> threads c) ∧
  (NoDup (submitted c) → NoDup (executed c)).
Proof using HN.
  intros Hr%(pool_inv_reach N HN). pose proof (pi_c _ _ Hr) as Hc. unfold conserved in Hc.
  assert (submitted c ≡ₚ executed c ++ q_ids (taskQueue c) ++ hand (d_pc c) ++ concat (pending <$> threads c)) as Hp.
  { rewrite Hc, (Permutation_app_comm (executed c)), <- !app_assoc. done. }
  split; [done|]. intros Hnd. rewrite Hp in Hnd. by apply NoDup_app in Hnd as [? _].
Qed.

(** The [task] member of a worker is never accessed by the worker while the
    dispatcher assigns it, and the dispatcher assigns it only when the previous
    task has been cleared. *)
Theorem pool_handover_race_free c i w f :
  reachable (M := pool_machine) fresh c → d_pc c = DActivate f i → threads c !! i = Some w →
  (w_pc w = KLoop ∨ ∃ p, w_pc w = KWait p) ∧ task w = None ∧ Gate.flag (gate w) = 0.
Proof using HN.
  intros Hr%(pool_inv_reach N HN) Hd Hw. destruct (pi_k _ _ Hr _ _ Hw) as [_ _ Hp _ _].
  rewrite Hd in Hp. simpl in Hp. rewrite decide_True in Hp by done. unfold phase, settled in Hp.
  destruct (w_pc w); simpl in Hp.
  1, 2: (destruct Hp as (_ & ? & ?); eauto).
  all: exfalso; destruct Hp as [[|] _] || destruct Hp; done.
Qed.

(** *** Nobody is asleep while there is work *)

(** No thread of the pool and no client can take a step. *)
Definition stuck (c : pool) : Prop :=
  exec c Dispatcher = None ∧ (∀ i, (i < N)%nat → exec c (Work i) = None) ∧ ∀ a, exec c (Client a) = None.

Lemma stuck_clients c : ginv c → (∀ a, exec c (Client a) = None) →
  ∀ a p, a_pc c !! a = Some p → p = AIdle ∨ p = AEnqueue.
Proof.
  intros Hg Hs a p Hp. specialize (Hs a). simpl in Hs. rewrite Hp in Hs. destruct p; auto; done.
Qed.

(** The oldest entry can always be published. *)
Lemma head_ready c e q :
  ginv c → (∀ a, exec c (Client a) = None) → taskQueue c = e :: q → e_ready e = true.
Proof.
  intros Hg Hs Hq. destruct (e_ready e) eqn:Er; [done|exfalso].
  assert (taskQueue c !! 0%nat = Some e) as H0 by (by rewrite Hq).
  pose proof (gv_owner _ Hg _ _ H0 Er) as Ho. specialize (Hs (e_owner e)). simpl in Hs. rewrite Ho in Hs.
  unfold assignTask, publish in Hs. rewrite Hq in Hs. simpl in Hs.
  rewrite decide_True in Hs by (by apply pending_of_true). done.
Qed.

Lemma stuck_dispatcher c :
  pool_inv N c → exec c Dispatcher = None → (∀ a, exec c (Client a) = None) →
  (d_pc c = DWait Gate.GAsleep ∧ Gate.asleep (taskGate c) = true) ∨ d_pc c = DExit.
Proof using HN.
  intros Hi Hd Hs. pose proof (pi_s _ _ Hi) as Hsv. simpl in Hd. unfold taskDispatcher in Hd.
  assert (∀ j, Z.of_nat j = lastIdDispatched c → is_Some (threads c !! j)) as Hlk.
  { intros j Hj. apply lookup_lt_is_Some. rewrite (sv_len _ _ Hsv). pose proof (sv_id _ _ Hsv). lia. }
  pose proof (sv_id _ _ Hsv) as Hid. pose proof (sv_didx _ _ Hsv) as Hdi.
  destruct (d_pc c) eqn:Ed; simpl in Hd, Hdi; try done.
  all: try (rewrite (flag_at_id N) in Hd by (done || apply Hsv); simpl in Hd).
  all: try (rewrite (next_id_mod N HN) in Hd by (done || apply Hsv); simpl in Hd).
  - left. destruct (Gate.waiter (taskGate c) p) as [[g x]|] eqn:Eg; [done|].
    apply Gate.waiter_stuck in Eg as [-> ?]. done.
  - exfalso. destruct (taskQueue c) as [|e q] eqn:Eq; [by apply (pi_d _ _ Hi)|].
    simpl in Hd. by rewrite (head_ready c e q (pi_g _ _ Hi) Hs Eq) in Hd.
  - exfalso. destruct (Hlk (Z.to_nat (lastIdDispatched c)) ltac:(lia)) as [w Hw]. rewrite Hw in Hd.
    by destruct (poolFlag w =? 0).
  - exfalso. destruct (Hlk i (Hdi _ eq_refl)) as [w Hw]. by rewrite Hw in Hd.
  - exfalso. destruct (Hlk i (Hdi _ eq_refl)) as [w Hw]. by rewrite Hw in Hd.
  - exfalso. destruct (Hlk i (Hdi _ eq_refl)) as [w Hw]. by rewrite Hw in Hd.
  - by right.
Qed.

Lemma stuck_worker c i w :
  pool_inv N c → threads c !! i = Some w → exec c (Work i) = None →
  (w_pc w = KWait Gate.GAsleep ∧ Gate.asleep (gate w) = true) ∨ w_pc w = KExit.
Proof.
  intros Hi Hw Hs. simpl in Hs. rewrite Hw in Hs. destruct (pi_k _ _ Hi _ _ Hw) as [_ _ Hp _ _].
  unfold phase in Hp. unfold thread_loop in Hs. destruct (w_pc w) eqn:Ep; simpl in Hs; try done.
  - left. destruct (Gate.waiter (gate w) p) as [[g x]|] eqn:Eg; [done|].
    apply Gate.waiter_stuck in Eg as [-> ?]. done.
  - exfalso. destruct Hp as (_ & _ & _ & [id Hid]). by rewrite Hid in Hs.
  - by right.
Qed.

(** When all are blocked, nothing is left to do. *)
Lemma stuck_executed c :
  pool_inv N c → running c = true → stuck c →
  taskQueue c = [] ∧ submitted c ≡ₚ executed c ∧ ∀ a p, a_pc c !! a = Some p → p = AIdle.
Proof using HN.
  intros Hr Hrun (Hd & Hw & Ha).
  pose proof (pi_s _ _ Hr) as Hsv. pose proof (pi_g _ _ Hr) as Hg. pose proof (gv_gate _ Hg) as [Hfl _ Hwk].
  assert (x_pc c = XNone) as Hx by (pose proof (sv_run _ _ Hsv) as H; rewrite Hrun in H; by destruct (x_pc c)).
  assert (∀ p, client_at c p → p = AIdle ∨ p = AEnqueue) as Hcl.
  { intros p [a Hp]. by eapply stuck_clients. }
  destruct (stuck_dispatcher c Hr Hd Ha) as [[Hdp Has]|Hdp];
    [|pose proof (sv_exit _ _ Hsv Hdp); congruence].
  assert (Gate.flag (taskGate c) = 0) as Hf0.
  { destruct Hfl as [?|H1]; [done|]. destruct (Hwk Has H1) as [H|H]; [by destruct (Hcl _ H)|congruence]. }
  assert (taskQueue c = []) as Hq.
  { destruct (taskQueue c) as [|e q] eqn:Eq; [done|exfalso].
    pose proof (head_ready c e q Hg Ha Eq) as Her. destruct (gv_signal _ Hg Hf0) as [H|H].
    - exists 0%nat, e. by rewrite Eq.
    - by destruct (Hcl _ H).
    - by rewrite Hdp in H. }
  split; [done|]. split; cycle 1.
  { intros a p Hp. destruct (stuck_clients c Hg Ha a p Hp) as [|Hae]; [done|exfalso]. rewrite Hae in Hp.
    destruct (gv_client _ Hg a Hp) as (i & e & He & _). by rewrite Hq in He. }
  assert (concat (pending <$> threads c) = []) as Hpe.
  { apply concat_nil_Forall. apply Forall_fmap, Forall_lookup. intros i w Hi. simpl.
    assert (i < N)%nat as Hlt by (rewrite <- (sv_len _ _ Hsv); by eapply lookup_lt_Some).
    destruct (pi_k _ _ Hr _ _ Hi) as [[Hkf _ Hkw] Hkr Hp _ _]. rewrite Hx in Hkr. simpl in Hkr.
    unfold phase in Hp. destruct (stuck_worker c i w Hr Hi (Hw i Hlt)) as [[Hpc Hka]|Hpc]; rewrite Hpc, Hdp in Hp;
      simpl in Hp; [|destruct Hp; congruence].
    destruct Hp as [(_ & Ht & _)|[_ Hf1]]; [unfold pending; by rewrite Hpc, Ht|].
    destruct (Hkw Hka Hf1) as [H|H]; congruence. }
  pose proof (pi_c _ _ Hr) as Hc. unfold conserved in Hc. rewrite Hc, Hq, Hdp, Hpe. done.
Qed.

(** C6. No lost wake-up under sequential consistency: as long as the pool is not being destroyed, the
    dispatcher, the workers and the clients can all be blocked only when the
    queue is empty and every submitted task has been executed. *)
Theorem pool_no_lost_wakeup c :
  reachable (M := pool_machine) fresh c → running c = true → stuck c →
  taskQueue c = [] ∧ submitted c ≡ₚ executed c.
Proof using HN.
  intros Hr%(pool_inv_reach N HN) Hrun Hs. destruct (stuck_executed c Hr Hrun Hs) as (? & ? & _). done.
Qed.

(** *** Choosing a worker *)

(** Is worker [j] free? *)
Definition free_at (c : pool) (j : Z) : bool :=
  match threads c !! Z.to_nat j with Some w => poolFlag w =? 0 | None => false end.

Lemma scan_step c f st rt :
  sinv N c → d_pc c = DScan f st rt →
  exists c', exec c Dispatcher = Some c' ∧
    if free_at c (lastIdDispatched c)
    then d_pc c' = DActivate f (Z.to_nat (lastIdDispatched c)) ∧ lastIdDispatched c' = lastIdDispatched c
    else (∃ rt', d_pc c' = DScan f st rt') ∧ threads c' = threads c ∧
         lastIdDispatched c' = (lastIdDispatched c + 1) mod Z.of_nat N.
Proof using HN.
  intros Hsv Hd. pose proof (sv_id _ _ Hsv) as Hid. simpl. unfold taskDispatcher, free_at. rewrite Hd.
  rewrite (flag_at_id N), (next_id_mod N HN) by (done || apply Hsv).
  destruct (lookup_lt_is_Some_2 (threads c) (Z.to_nat (lastIdDispatched c))) as [w Hw].
  { rewrite (sv_len _ _ Hsv). lia. }
  rewrite Hw. destruct (poolFlag w =? 0); eexists; (split; [done|]); simpl; eauto.
Qed.

(** Round robin: a dispatcher looking for a worker picks the first free one
    in cyclic order from [lastIdDispatched]: if the workers at distance [0 .. k-1]
    are busy and the one at distance [k] is free, [k+1] steps of the dispatcher
    claim exactly that worker. *)
Theorem pool_round_robin c f st rt (k : nat) :
  reachable (M := pool_machine) fresh c → d_pc c = DScan f st rt → (k < N)%nat →
  (∀ j : nat, (j < k)%nat → free_at c ((lastIdDispatched c + Z.of_nat j) mod Z.of_nat N) = false) →
  free_at c ((lastIdDispatched c + Z.of_nat k) mod Z.of_nat N) = true →
  ∃ c', run (M := pool_machine) c (replicate (S k) Dispatcher) = Some c' ∧
        d_pc c' = DActivate f (Z.to_nat ((lastIdDispatched c + Z.of_nat k) mod Z.of_nat N)).
Proof using HN.
  intros Hr%(pool_inv_reach N HN) Hd _. pose proof (pi_s _ _ Hr) as Hsv. clear Hr.
  revert c rt Hsv Hd. induction k as [|k IH]; intros c rt Hsv Hd Hb Hf; pose proof (sv_id _ _ Hsv) as Hid;
    destruct (scan_step c f st rt Hsv Hd) as (c1 & He & Hc1);
    cbn [replicate run m_exec pool_machine]; rewrite He.
  - rewrite Z.add_0_r, Z.mod_small in Hf |- * by lia. rewrite Hf in Hc1. destruct Hc1 as [Hc1 _]. eauto.
  - specialize (Hb 0%nat) as Hb0. rewrite Z.add_0_r, Z.mod_small in Hb0 by lia.
    rewrite Hb0 in Hc1 by lia. destruct Hc1 as ([rt' Hd1] & Ht & Hl).
    assert (∀ j : nat, (lastIdDispatched c1 + Z.of_nat j) mod Z.of_nat N =
      (lastIdDispatched c + Z.of_nat (S j)) mod Z.of_nat N) as Hm.
    { intros j. rewrite Hl, Z.add_mod_idemp_l by lia. f_equal. lia. }
    rewrite <- Hm. apply (IH c1 rt').
    + by eapply psinv_exec.
    + done.
    + intros j Hj. rewrite Hm. unfold free_at. rewrite Ht. apply Hb. lia.
    + rewrite Hm. unfold free_at. by rewrite Ht.
Qed.

(** *** Empty functions *)

(** A worker that was activated with an empty [std::function]. *)
Definition disabled (c : pool) (i : nat) : Prop :=
  ∃ w, threads c !! i = Some w ∧ task w = None ∧ poolFlag w = 1 ∧
    (w_pc w = KLoop ∨ (∃ p, w_pc w = KWait p) ∨ w_pc w = KTest ∨ w_pc w = KExit) ∧
    (∀ f, d_pc c ≠ DActivate f i) ∧ d_pc c ≠ DStore i.

Lemma disabled_touch c c' i j w w' :
  disabled c i → threads c !! j = Some w → threads c' = <[j := w']> (threads c) →
  task w' = task w → poolFlag w' = poolFlag w → w_pc w' = w_pc w →
  (∀ f, d_pc c' ≠ DActivate f i) → d_pc c' ≠ DStore i → disabled c' i.
Proof.
  intros (w0 & Hw0 & Ht & Hp & Hpc & _) Hj Hth Et Ep Epc Hd1 Hd2. unfold disabled. rewrite Hth.
  destruct (decide (j = i)) as [->|Hne].
  - simplify_eq. exists w'. rewrite list_lookup_insert_eq by (by eapply lookup_lt_Some).
    split_and!; try congruence; try done. by rewrite Epc.
  - exists w0. rewrite list_lookup_insert_ne by done. done.
Qed.

Lemma disabled_other c c' i :
  disabled c i → threads c' = threads c → (∀ f, d_pc c' ≠ DActivate f i) → d_pc c' ≠ DStore i → disabled c' i.
Proof. intros (w & Hw & Ht & Hp & Hpc & _) Hth Hd1 Hd2. exists w. rewrite Hth. done. Qed.

Lemma disabled_dispatcher c c' i :
  sinv N c → disabled c i → taskDispatcher c = Some c' → disabled c' i.
Proof using HN.
  intros Hsv Hdis He. pose proof Hdis as (w & Hw & Ht & Hp & Hpc & Hd1 & Hd2).
  pose proof (sv_id _ _ Hsv) as Hid. unfold taskDispatcher in He.
  destruct (d_pc c) eqn:Ed; simpl in He.
  all: try (rewrite (flag_at_id N) in He by (done || apply Hsv); simpl in He).
  all: step_inv He.
  all: try (eapply disabled_other; [done|done|intros ?; simpl; repeat case_match; done|
    simpl; repeat case_match; done]).
  - assert (Z.to_nat (lastIdDispatched c) ≠ i) as Hne by (intros <-; simplify_eq; lia).
    exists w. simpl. rewrite list_lookup_insert_ne by done. split_and!; try done. congruence.
  - assert (i0 ≠ i) as Hne by (intros ->; by eapply Hd1).
    exists w. simpl. rewrite list_lookup_insert_ne by done. split_and!; try done. congruence.
  - assert (i0 ≠ i) as Hne by (intros ->; by eapply Hd2).
    exists w. simpl. rewrite list_lookup_insert_ne by done. done.
  - by eapply (disabled_touch c _ i i0 _ (gate_wake _)).
Qed.

Lemma disabled_exec c a c' i :
  sinv N c → disabled c i → exec c a = Some c' → disabled c' i ∧ (a = Work i → executed c' = executed c).
Proof using HN.
  intros Hsv Hdis He. pose proof Hdis as (w & Hw & Ht & Hp & Hpc & Hd1 & Hd2).
  destruct a as [a f|a| |j| | | |j]; simpl in He; (split; [|try done]).
  - destruct (a_pc c !! a) as [[]|]; try done. destruct (x_pc c); try done. simplify_eq. by eapply disabled_other.
  - destruct (a_pc c !! a) as [p|]; [|done]. unfold assignTask in He.
    destruct p; step_inv He; by eapply disabled_other.
  - by eapply disabled_dispatcher.
  - destruct (threads c !! j) as [wj|] eqn:Ej; [|done].
    destruct (thread_loop wj) as [[w' l]|] eqn:El; [|done]. simplify_eq/=.
    destruct (decide (j = i)) as [->|Hne].
    + simplify_eq. exists w'. simpl. rewrite list_lookup_insert_eq by (by eapply lookup_lt_Some).
      split; [done|]. unfold thread_loop in El.
      destruct Hpc as [E|[[q E]|[E|E]]]; rewrite E in El; simpl in El; step_inv El; rewrite ?Ht;
        split_and!; try done; repeat case_match; eauto.
    + exists w. simpl. rewrite list_lookup_insert_ne by done. done.
  - intros [= ->]. rewrite Hw in He. destruct (thread_loop w) as [[w' l]|] eqn:El; [|done]. simplify_eq/=.
    assert (l = []) as ->; [|by rewrite app_nil_r]. unfold thread_loop in El.
    destruct Hpc as [E|[[q E]|[E|E]]]; rewrite E in El; simpl in El; by step_inv El.
  - destruct (x_pc c); try done. destruct (forallb _ _); [|done]. simplify_eq. by eapply disabled_other.
  - unfold destructor in He. destruct (x_pc c); step_inv He;
      first [by eapply (disabled_other c) | by eapply (disabled_touch c _ i _ _ _ Hdis E)].
  - simplify_eq. by eapply disabled_other.
  - step_inv He. by eapply (disabled_touch c _ i _ _ _ Hdis E).
Qed.

(** C25. An empty [std::function] disables its worker: once a worker was
    activated with one, it never executes a task and never becomes free again,
    whatever happens next.  (Its thread spins: the gate stays open, since only
    the branch that ran a task resets it and clears [poolFlag].) *)
Theorem pool_empty_function_disables_worker c σ c' i :
  reachable (M := pool_machine) fresh c → disabled c i → run (M := pool_machine) c σ = Some c' →
  disabled c' i ∧ ∀ c'', exec c' (Work i) = Some c'' → executed c'' = executed c'.
Proof using HN.
  intros Hr%(pool_inv_reach N HN) Hdis Hrun. pose proof (pi_s _ _ Hr) as Hsv. clear Hr.
  assert (sinv N c' ∧ disabled c' i) as [Hsv' Hdis'].
  { revert c Hsv Hdis Hrun. induction σ as [|a σ IH]; intros c Hsv Hdis Hrun.
    - simpl in Hrun. by simplify_eq.
    - cbn [run m_exec pool_machine] in Hrun. destruct (exec c a) as [c1|] eqn:E; [|done].
      apply (IH c1); [by eapply psinv_exec|by eapply disabled_exec|done]. }
  split; [done|]. intros c'' He. by eapply (disabled_exec c' (Work i)).
Qed.

(** *** The destructor *)

(** C24. Under sequential consistency, with [running] read and written as one word, the
    destructor does not deadlock: if neither it nor any thread of the pool can take a
    step, it has finished, and the dispatcher and all workers have left their loops.
    ([PoolTSO.v] has an execution with the store buffers of x86 in which it does.) *)
Theorem pool_destructor_completes c :
  reachable (M := pool_machine) fresh c → running c = false → stuck c → exec c Destructor = None →
  x_pc c = XDone ∧ d_pc c = DExit ∧ ∀ i w, threads c !! i = Some w → w_pc w = KExit.
Proof using HN.
  intros Hr%(pool_inv_reach N HN) Hrun (Hd & Hw & Ha) Hx.
  pose proof (pi_s _ _ Hr) as Hsv. pose proof (pi_g _ _ Hr) as Hg. pose proof (gv_gate _ Hg) as [Hfl _ Hwk].
  assert (∀ p, client_at c p → p = AIdle) as Hcl by (intros p [a Hp]; by eapply (sv_idle _ _ Hsv Hrun)).
  pose proof (sv_run _ _ Hsv) as Hxn. rewrite Hrun in Hxn. simpl in Hx. unfold destructor in Hx.
  assert (∀ i, x_index (x_pc c) = Some i → is_Some (threads c !! i)) as Hlk.
  { intros i Hi. apply lookup_lt_is_Some. rewrite (sv_len _ _ Hsv). by apply (sv_xidx _ _ Hsv). }
  assert (d_pc c = DExit) as Hde.
  { destruct (stuck_dispatcher c Hr Hd Ha) as [[Hdp Has]|]; [exfalso|done].
    assert (past_store (x_pc c) = true) as Hps by (by destruct (x_pc c)).
    destruct (gv_leave _ Hg Hps) as [H1|H1]; [|by rewrite Hdp in H1].
    destruct (Hwk Has H1) as [H|H]; [by specialize (Hcl _ H)|by rewrite H in Hx]. }
  assert (x_pc c = XDone) as Hxd.
  { destruct (x_pc c) eqn:Ex; simpl in Hx, Hlk; try done; try (by rewrite Hde in Hx);
      destruct (Hlk i eq_refl) as [w Hwi]; rewrite Hwi in Hx; try done. exfalso.
    assert (i < N)%nat as Hlt by (apply (sv_xidx _ _ Hsv); by rewrite Ex).
    destruct (pi_k _ _ Hr _ _ Hwi) as [[_ _ Hkw] _ _ Hsg _]. rewrite Ex in Hsg, Hkw. simpl in Hsg.
    destruct (stuck_worker c i w Hr Hwi (Hw i Hlt)) as [[Hpc Hka]|Hpc]; [|by rewrite Hpc in Hx].
    rewrite bool_decide_eq_true_2, Hpc in Hsg by lia.
    destruct (Hsg eq_refl) as [H1|[?|[?|?]]]; try done. destruct (Hkw Hka H1) as [H|H]; congruence. }
  split_and!; try done. intros i w Hwi. destruct (pi_k _ _ Hr _ _ Hwi) as [_ _ _ _ Hgo].
  rewrite Hxd in Hgo. by apply Hgo.
Qed.
End Theorems.

(** ** Concrete runs *)

(** One worker, one client, one task [7], to the point where everybody sleeps:
    the worker and the dispatcher go to sleep, the client submits, the
    dispatcher hands over, the worker runs the task, and both go back to sleep. *)
Definition to_sleep : list act := replicate 3 (Work 0) ++ replicate 3 Dispatcher.
Definition one_task (f : func) : list act := Assign 0 f :: replicate 3 (Client 0).
Definition hand_over : list act := replicate 9 Dispatcher.
Definition ex_sched : list act :=
  to_sleep ++ one_task (Some 7%nat) ++ hand_over ++ replicate 10 (Work 0) ++ replicate 8 Dispatcher.

Definition ex_run (n : nat) (σ : list act) : pool :=
  default (ThreadPool n 1) (run (M := pool_machine) (ThreadPool n 1) σ).

Lemma ex_reach_pool n σ c :
  run (M := pool_machine) (ThreadPool n 1) σ = Some c →
  reachable (M := pool_machine) (λ c, c = ThreadPool n 1) c.
Proof. apply run_reachable. by apply reach_init. Qed.

Lemma one_ok : count_ok 1.
Proof. unfold count_ok, INT_MAX. lia. Qed.
Lemma two_ok : count_ok 2.
Proof. unfold count_ok, INT_MAX. lia. Qed.

Lemma pool_executes_once_witness :
  executed (ex_run 1 ex_sched) = [7%nat] ∧ submitted (ex_run 1 ex_sched) = [7%nat] ∧
  NoDup (executed (ex_run 1 ex_sched)).
Proof.
  split; [by vm_compute|]. split; [by vm_compute|].
  apply (pool_executes_once 1 one_ok 1 (ex_run 1 ex_sched)).
  - apply (ex_reach_pool 1 ex_sched). by vm_compute.
  - vm_compute. apply NoDup_singleton.
Defined.

Definition ex_claimed : pool := ex_run 1 (to_sleep ++ one_task (Some 7%nat) ++ replicate 6 Dispatcher).

Lemma pool_handover_race_free_witness :
  d_pc ex_claimed = DActivate (Some 7%nat) 0 ∧
  ∃ w, threads ex_claimed !! 0%nat = Some w ∧ task w = None ∧ Gate.flag (gate w) = 0.
Proof.
  split; [by vm_compute|].
  exists (mkWorker (Gate.mk 0 true) None 1 true (KWait Gate.GAsleep)). split; [by vm_compute|].
  apply (pool_handover_race_free 1 one_ok 1 ex_claimed 0 _ (Some 7%nat)); [|by vm_compute|by vm_compute].
  apply (ex_reach_pool 1 (to_sleep ++ one_task (Some 7%nat) ++ replicate 6 Dispatcher)). by vm_compute.
Defined.

Lemma pool_no_lost_wakeup_witness :
  taskQueue (ex_run 1 ex_sched) = [] ∧ submitted (ex_run 1 ex_sched) ≡ₚ executed (ex_run 1 ex_sched).
Proof.
  apply (pool_no_lost_wakeup 1 one_ok 1 (ex_run 1 ex_sched)).
  - apply (ex_reach_pool 1 ex_sched). by vm_compute.
  - by vm_compute.
  - split; [by vm_compute|]. split; [intros [|i] Hi; [by vm_compute|lia]|].
    intros [|a]; by vm_compute.
Defined.

(** Two workers, the first one busy, the second one done and free again. *)
Definition ex_two : list act :=
  one_task (Some 7%nat) ++ replicate 10 Dispatcher ++ one_task (Some 8%nat) ++ replicate 8 Dispatcher ++
  replicate 8 (Work 1) ++ one_task (Some 9%nat) ++ replicate 6 Dispatcher.

Lemma pool_round_robin_witness :
  lastIdDispatched (ex_run 2 ex_two) = 0 ∧ free_at (ex_run 2 ex_two) 0 = false ∧
  ∃ c', run (M := pool_machine) (ex_run 2 ex_two) (replicate 2 Dispatcher) = Some c' ∧
        d_pc c' = DActivate (Some 9%nat) 1.
Proof.
  split; [by vm_compute|]. split; [by vm_compute|].
  apply (pool_round_robin 2 two_ok 1 (ex_run 2 ex_two) (Some 9%nat) 0 false 1).
  - apply (ex_reach_pool 2 ex_two). by vm_compute.
  - by vm_compute.
  - lia.
  - intros [|j] Hj; [by vm_compute|lia].
  - by vm_compute.
Defined.

Definition drop_sched : list act :=
  one_task (Some 7%nat) ++ [Destroy; Dispatcher] ++ replicate 6 Destructor ++ [Work 0; Destructor].

Lemma pool_destructor_completes_witness :
  x_pc (ex_run 1 drop_sched) = XDone ∧ d_pc (ex_run 1 drop_sched) = DExit ∧
  submitted (ex_run 1 drop_sched) = [7%nat] ∧ executed (ex_run 1 drop_sched) = [].
Proof.
  destruct (pool_destructor_completes 1 one_ok 1 (ex_run 1 drop_sched)) as (H1 & H2 & _).
  - apply (ex_reach_pool 1 drop_sched). by vm_compute.
  - by vm_compute.
  - split; [by vm_compute|]. split; [intros [|i] Hi; [by vm_compute|lia]|].
    intros [|a]; by vm_compute.
  - by vm_compute.
  - split; [done|]. split; [done|]. split; by vm_compute.
Defined.

(** A pool of one worker that was given an empty function. *)
Definition empty_sched : list act :=
  to_sleep ++ one_task None ++ hand_over ++ replicate 3 (Work 0).
Definition ex_disabled : pool := ex_run 1 empty_sched.

Lemma pool_empty_function_disables_worker_witness :
  disabled ex_disabled 0 ∧
  ∃ c, run (M := pool_machine) ex_disabled (one_task (Some 7%nat) ++ replicate 20 Dispatcher ++ replicate 20 (Work 0)) = Some c ∧
       disabled c 0 ∧ executed c = [].
Proof.
  assert (disabled ex_disabled 0) as Hd.
  { exists (mkWorker (Gate.mk 1 false) None 1 true KLoop).
    split; [by vm_compute|]. split; [done|]. split; [done|]. split; [by left|].
    split; [intros f|]; by vm_compute. }
  split; [done|]. set (σ := one_task (Some 7%nat) ++ replicate 20 Dispatcher ++ replicate 20 (Work 0)).
  exists (default ex_disabled (run (M := pool_machine) ex_disabled σ)).
  split; [by vm_compute|]. split; [|by vm_compute].
  apply (pool_empty_function_disables_worker 1 one_ok 1 ex_disabled σ); [|done|by vm_compute].
  apply (ex_reach_pool 1 empty_sched). by vm_compute.
Defined.
