(* ===== verification/PoolProgress.v ===== *)
(** * ThreadPool: every task gets executed

    [PoolTheorems.v] shows that the pool is blocked only when nothing is left to do.
    The dispatcher spins while it looks for a free worker, so this alone does not
    say that it ever comes to rest.  Here is a measure of the work that is left: as
    long as a client, a worker or the dispatcher can move, one of them can move so
    that less is left. *)

From Stdlib Require Import ZArith Lia.
From S2P Require Import Prelude MachineInt Lts ThreadGate ThreadPool PoolInvariant PoolTheorems.
Import Pool.
Local Open Scope Z_scope.
Local Open Scope astra_scope.

(** The steps of the pool's code: no new call, no destructor, no interrupted wait. *)
Definition internal (a : act) : bool :=
  match a with Client _ | Dispatcher | Work _ => true | _ => false end.

Section Progress.
Context (N : nat) (HN : count_ok N).

(** ** No empty function in the pool *)

(** A worker whose gate is open has a task. *)
Definition loaded (w : Worker) : Prop :=
  match w_pc w with
  | KLoop | KWait _ | KTest => Gate.flag (gate w) = 1 → is_Some (task w)
  | _ => True
  end.

Record full (c : pool) : Prop := {
  fu_queue : Forall (λ e, is_Some (e_func e)) (taskQueue c);
  fu_hand : match d_pc c with DScan f _ _ | DActivate f _ => is_Some f | _ => True end;
  fu_store : ∀ i w, d_pc c = DStore i → threads c !! i = Some w → is_Some (task w);
  fu_workers : Forall loaded (threads c);
}.

Lemma full_start n : full (ThreadPool N n).
Proof. split; simpl; [done|done|done|]. apply Forall_replicate. done. Qed.

Lemma full_assign c a id c' : full c → exec c (Assign a (Some id)) = Some c' → full c'.
Proof.
  intros [Hq Hh Hs Hw] He. simpl in He. step_inv He. split; simpl; try done.
  apply Forall_app. split; [done|]. by repeat constructor.
Qed.

Lemma full_client c a c' : full c → exec c (Client a) = Some c' → full c'.
Proof.
  intros [Hq Hh Hs Hw] He. simpl in He. destruct (a_pc c !! a) as [p|]; [|done].
  destruct p; simpl in He; step_inv He; try (by split). split; simpl; try done.
  unfold publish in E. destruct (list_find _ _) as [[i e]|] eqn:Ef; [|done]. step_inv E.
  apply list_find_Some in Ef as (Hi & _ & _). apply Forall_insert; [done|]. exact (Forall_lookup_1 _ _ _ _ Hq Hi).
Qed.

(** The other steps of the dispatcher leave the workers and the queue alone. *)
Lemma full_d c c' :
  full c → threads c' = threads c → taskQueue c' = taskQueue c →
  match d_pc c' with DScan f _ _ | DActivate f _ => is_Some f | DStore _ => False | _ => True end → full c'.
Proof.
  intros [Hq Hh Hs Hw] Ht Hq' Hd. split; rewrite ?Ht, ?Hq'; try done; [by destruct (d_pc c')|].
  intros i w E. by rewrite E in Hd.
Qed.

Lemma full_worker c i w w' p id : full c → loaded w' → threads c !! i = Some w →
  match p with DScan f _ _ | DActivate f _ => is_Some f | DStore j => j = i ∧ is_Some (task w') | _ => True end →
  full (with_id (with_worker c i w' p) id p).
Proof.
  intros [Hq Hh Hs Hw] Hl Hi Hp. split; simpl; [done|by destruct p| |by apply Forall_insert].
  intros j x -> Hx. destruct Hp as [-> Hp]. rewrite list_lookup_insert_eq in Hx by (by eapply lookup_lt_Some).
  by injection Hx as <-.
Qed.

Lemma full_dispatcher c c' : pool_inv N c → full c → exec c Dispatcher = Some c' → full c'.
Proof using.
  intros Hi Hf He. pose proof Hf as [Hq Hh Hs Hw]. simpl in He. unfold taskDispatcher in He.
  assert (∀ i w, threads c !! i = Some w → loaded w) as Hl by (intros; by eapply (Forall_lookup_1 loaded)).
  destruct (d_pc c) as [|p| | | |f st rt|f i|i|i| | | | | |] eqn:Ed; simpl in He.
  1-4, 10-15: (step_inv He; apply (full_d c); try done; simpl; by repeat case_match).
  - unfold dequeue in He. destruct (taskQueue c) as [|e q] eqn:Eq; [done|]. simpl in He. step_inv He.
    apply Forall_cons in Hq as [H1 H2]. by split.
  - step_inv He; [|by apply (full_d c)].
    apply (full_worker c _ w (set_poolFlag 1 w) (DActivate f _) (lastIdDispatched c)); [done| |done|done].
    by apply (Hl _ _ E0).
  - step_inv He. apply (full_worker c i w (activate_assign f w) (DStore i) (lastIdDispatched c)); [done| |done|done].
    unfold loaded. simpl. by destruct (w_pc w).
  - step_inv He. apply (full_worker c i w (gate_store w) (DWake i) (lastIdDispatched c)); [done| |done|done].
    pose proof (Hs i w eq_refl E). unfold loaded. simpl. by destruct (w_pc w).
  - step_inv He. apply (full_worker c i w (gate_wake w) DInner z); [done| |done|done]. exact (Hl _ _ E).
Qed.

Lemma loaded_loop v k stop sign end_ w w' l :
  wk_ok v k stop sign end_ w → stop = false → loaded w → thread_loop w = Some (w', l) → loaded w'.
Proof.
  intros [Hg Hr Hp Hs He] -> Hl Hst. unfold thread_loop in Hst. unfold phase in Hp. unfold loaded in Hl |- *.
  destruct (w_pc w) as [|p| | | | | |] eqn:Epc; simpl in Hst, Hp, Hg; try done; step_inv Hst; try done.
  - simpl. by rewrite Hr.
  - destruct p0 as [g' x]. destruct (Gate.ok_waiter _ _ _ _ _ Hg E) as (Hf & _). simpl. rewrite Hf. by destruct x.
  - simpl. by destruct (task w).
  - simpl. intros H1. destruct Hp as (_ & _ & _ & H0). rewrite (H0 Hr) in H1. done.
Qed.

Lemma full_work c i c' :
  pool_inv N c → x_pc c = XNone → full c → exec c (Work i) = Some c' → full c'.
Proof.
  intros Hi Hx [Hq Hh Hs Hw] He. simpl in He. destruct (threads c !! i) as [w|] eqn:Ei; [|done].
  destruct (thread_loop w) as [[w' l]|] eqn:El; [|done]. simplify_eq. pose proof (pi_k _ _ Hi _ _ Ei) as Hk.
  split; simpl; try done.
  - intros j x Hj Hx'. destruct (decide (i = j)) as [->|Hne].
    + rewrite list_lookup_insert_eq in Hx' by (by eapply lookup_lt_Some). simplify_eq.
      specialize (Hs j w Hj Ei). pose proof (wo_phase _ _ _ _ _ _ Hk) as Hp. rewrite Hj in Hp. simpl in Hp.
      rewrite decide_True in Hp by done. unfold phase, settled in Hp. unfold thread_loop in El.
      destruct (w_pc w); simpl in El, Hp; step_inv El; try done; by destruct Hp as [[|] _].
    + rewrite list_lookup_insert_ne in Hx' by done. by eapply Hs.
  - apply Forall_insert; [done|]. eapply loaded_loop; [exact Hk|by rewrite Hx| |done].
    by eapply (Forall_lookup_1 loaded).
Qed.

(** No thread of the pool makes an empty function. *)
Lemma full_internal c a c' :
  pool_inv N c → x_pc c = XNone → full c → internal a = true → exec c a = Some c' → full c'.
Proof.
  intros Hi Hx Hf Ha He. destruct a; try done; [by eapply full_client|by eapply full_dispatcher|by eapply full_work].
Qed.

(** ** The work that is left *)

(** Until the waiter of a gate is blocked or has returned. *)
Definition g_rank (g : Gate.gate) (p : Gate.pc) : nat :=
  if Gate.flag g =? 1 then match p with Gate.GLoad => 1 | _ => 2 end
  else match p with Gate.GLoad => 2 | Gate.GCall => 1 | Gate.GAsleep => if Gate.asleep g then 0 else 3 end.

(** Until a worker is blocked: the round of a task if its gate is open. *)
Definition k_rank (w : Worker) : nat :=
  let opened := Gate.flag (gate w) =? 1 in
  match w_pc w with
  | KExit => 0
  | KWait p => (if opened then 9 else 0) + g_rank (gate w) p
  | KLoop => if opened then 12 else 4
  | KFree => 5
  | KReset => 6
  | KClear => 7
  | KCall => 8
  | KTest => 9
  end.

(** Until the dispatcher is at the [dequeue], or blocked when the queue is empty. *)
Definition d_rank (empty : bool) (g : Gate.gate) (p : dpc) : nat :=
  let opened := Gate.flag g =? 1 in
  if empty then
    match p with
    | DWait q => (if opened then 9 else 0) + g_rank g q
    | DLoop => if opened then 12 else 4
    | DRecheck => if opened then 13 else 5
    | DReset => 6
    | DOuter => 7
    | DInnerEmpty => 8
    | DInner => 9
    | DSelfWake => 13
    | DSelfStore => 14
    | _ => 0
    end
  else
    match p with
    | DInnerEmpty => 1
    | DInner => 2
    | DWait q => 2 + g_rank g q
    | DLoop => 7
    | DOuter | DSelfWake => 8
    | DSelfStore => 9
    | DRecheck => 10
    | DReset => 11
    | _ => 0
    end.

(** The clients inside [assignTask], and the tasks that are not with a worker. *)
Definition a_rank (p : apc) : nat := match p with AIdle => 0 | AWake => 1 | AStore => 2 | AEnqueue => 3 end.
Definition h_rank (p : dpc) : nat :=
  match p with DScan _ _ _ => 4 | DActivate _ _ => 3 | DStore _ => 2 | DWake _ => 1 | _ => 0 end.

Definition outer_work (c : pool) : nat :=
  sum_list (a_rank <$> a_pc c) + (5 * length (taskQueue c) + h_rank (d_pc c)).
Definition inner_work (c : pool) : nat :=
  sum_list (k_rank <$> threads c) + d_rank (isEmpty (taskQueue c)) (taskGate c) (d_pc c).
Definition pool_work (c : pool) : nat := (12 * N + 15) * outer_work c + inner_work c.

Lemma g_rank_3 g p : (g_rank g p <= 3)%nat.
Proof. unfold g_rank. destruct (_ =? 1), p; try lia. destruct (Gate.asleep g); lia. Qed.

Lemma inner_bound c : sinv N c → (inner_work c < 12 * N + 15)%nat.
Proof using.
  intros Hs. unfold inner_work.
  assert (∀ ws, (sum_list (k_rank <$> ws) <= 12 * length ws)%nat) as Hk.
  { induction ws as [|w ws IH]; [done|]. cbn [fmap list_fmap sum_list sum_list_with length].
    assert (k_rank w <= 12)%nat; [|change (id (k_rank w)) with (k_rank w); lia]. unfold k_rank.
    destruct (w_pc w); try lia; [destruct (_ =? 1); lia|]. pose proof (g_rank_3 (gate w) p). destruct (_ =? 1); lia. }
  specialize (Hk (threads c)). rewrite (sv_len _ _ Hs) in Hk.
  assert (d_rank (isEmpty (taskQueue c)) (taskGate c) (d_pc c) <= 14)%nat; [|lia].
  unfold d_rank. destruct (isEmpty _), (d_pc c); try lia; try (destruct (_ =? 1); lia).
  all: pose proof (g_rank_3 (taskGate c) p); try (destruct (_ =? 1); lia); lia.
Qed.

(** A step that does outer work, whatever it adds to the inner one, or that does
    inner work only. *)
Lemma work_outer c c' : sinv N c' → (outer_work c' < outer_work c)%nat → (pool_work c' < pool_work c)%nat.
Proof using. intros Hs%inner_bound Ho. unfold pool_work. nia. Qed.

Lemma work_inner c c' :
  outer_work c' = outer_work c → (inner_work c' < inner_work c)%nat → (pool_work c' < pool_work c)%nat.
Proof using. unfold pool_work. intros ->. lia. Qed.

(** *** Each thread does some *)

Lemma g_rank_step waking g p g' x : Gate.ok waking (Some p) g → Gate.waiter g p = Some (g', x) →
  Gate.flag g' = Gate.flag g ∧
  match x with inl p' => (g_rank g' p' < g_rank g p)%nat | inr _ => Gate.flag g = 1 ∧ (0 < g_rank g p)%nat end.
Proof.
  intros [Hf _ _] Hs. destruct p; simpl in Hs; unfold g_rank.
  - simplify_eq. destruct (Z.eqb_spec (Gate.flag g') 1); (split; [done|]); [split; [done|lia]|lia].
  - destruct Hf as [Hf|Hf]; rewrite Hf in Hs; simpl in Hs; simplify_eq; simpl; rewrite ?Hf; simpl; split; done || lia.
  - destruct (Gate.asleep g) eqn:Ha; [done|]. simplify_eq. split; [done|]. destruct (_ =? 1); lia.
Qed.

Lemma k_rank_step v k sign end_ w w' l :
  wk_ok v k false sign end_ w → loaded w → thread_loop w = Some (w', l) → (k_rank w' < k_rank w)%nat.
Proof.
  intros [Hg Hr Hp Hs He] Hl Hst. unfold thread_loop in Hst. unfold phase in Hp. unfold loaded in Hl. unfold k_rank.
  destruct (w_pc w) as [|p| | | | | |] eqn:Epc; simpl in Hst, Hp, Hg, Hr; try done; step_inv Hst; simpl; try lia.
  - rewrite Hr. unfold g_rank. destruct (_ =? 1); lia.
  - destruct p0 as [g' x]. destruct (g_rank_step _ _ _ _ _ Hg E) as (Hf & Hx). simpl. rewrite Hf.
    destruct x as [p'|]; simpl; [lia|]. destruct Hx as [-> Hx]. simpl. lia.
  - destruct Hp as (_ & Hf & _). destruct (Hl Hf) as [id ->]. lia.
  - destruct Hp as (_ & _ & _ & Hf). rewrite (Hf Hr). simpl. lia.
Qed.

Lemma work_worker c i c' :
  pool_inv N c → x_pc c = XNone → full c → exec c (Work i) = Some c' → (pool_work c' < pool_work c)%nat.
Proof using.
  intros Hi Hx Hf He. simpl in He. destruct (threads c !! i) as [w|] eqn:Ei; [|done].
  destruct (thread_loop w) as [[w' l]|] eqn:El; [|done]. simplify_eq. pose proof (pi_k _ _ Hi _ _ Ei) as Hk.
  rewrite Hx in Hk. simpl in Hk. pose proof (Forall_lookup_1 _ _ _ _ (fu_workers _ Hf) Ei) as Hl.
  pose proof (k_rank_step _ _ _ _ _ _ _ Hk Hl El). apply work_inner; [done|]. unfold inner_work. simpl.
  pose proof (sum_fmap_insert k_rank _ _ _ w' Ei). lia.
Qed.

Lemma work_client c a c' : pool_inv N c → exec c (Client a) = Some c' → (pool_work c' < pool_work c)%nat.
Proof using HN.
  intros Hi He. apply work_outer; [apply (pool_inv_exec N HN c _ c' Hi He)|]. simpl in He.
  destruct (a_pc c !! a) as [p|] eqn:Ea; [|done]. unfold outer_work.
  pose proof (λ p', sum_fmap_insert a_rank _ _ _ p' Ea) as Hsum.
  destruct p; simpl in He; try done; step_inv He; simpl.
  - unfold publish in E. destruct (list_find _ _) as [[i e]|]; [|done]. step_inv E. rewrite length_insert.
    specialize (Hsum AStore). simpl in Hsum. lia.
  - specialize (Hsum AWake). simpl in Hsum. lia.
  - specialize (Hsum AIdle). simpl in Hsum. lia.
Qed.

(** The dispatcher, when every worker is blocked: if it looks for a free worker, it
    finds one at once. *)
Lemma blocked_free c i w : pool_inv N c → x_pc c = XNone → d_index (d_pc c) = None →
  threads c !! i = Some w → exec c (Work i) = None → poolFlag w = 0.
Proof using.
  intros Hi Hx Hd Hw Hs. pose proof (pi_k _ _ Hi _ _ Hw) as [[Hgf Hga Hgw] Hr Hp _ _].
  rewrite Hx in Hr. simpl in Hr. rewrite (dv_none i _ Hd) in Hp. unfold phase in Hp.
  destruct (stuck_worker N c i w Hi Hw Hs) as [[Hpc Hka]|Hpc]; rewrite Hpc in Hp; [|destruct Hp; congruence].
  destruct Hp as [(? & _)|[_ Hf1]]; [done|]. destruct (Hgw Hka Hf1) as [H|H]; [|congruence]. by rewrite H in Hd.
Qed.

Lemma work_dispatcher c c' : pool_inv N c → x_pc c = XNone → (∀ i, (i < N)%nat → exec c (Work i) = None) →
  exec c Dispatcher = Some c' → (pool_work c' < pool_work c)%nat.
Proof using HN.
  intros Hi Hx Hw He. pose proof (pool_inv_exec N HN c _ c' Hi He) as Hi'. pose proof (pi_s _ _ Hi) as Hs.
  pose proof (sv_run _ _ Hs) as Hrun. rewrite Hx in Hrun. simpl in Hrun. pose proof (sv_id _ _ Hs) as Hid.
  simpl in He. unfold taskDispatcher in He. pose proof (gv_gate _ (pi_g _ _ Hi)) as Hg.
  destruct (d_pc c) as [|p| | | |f st rt|f i|i|i| | | | | |] eqn:Ed; simpl in He, Hg.
  5: { apply work_outer; [apply Hi'|]. unfold outer_work. rewrite Ed. unfold dequeue in He.
       destruct (taskQueue c) as [|e q]; [done|]. step_inv He. simpl. lia. }
  5: { rewrite (flag_at_id N) in He by (done || apply Hs). simpl in He.
       destruct (lookup_lt_is_Some_2 (threads c) (Z.to_nat (lastIdDispatched c))) as [w Ew]; [rewrite (sv_len _ _ Hs); lia|].
       rewrite Ew, (blocked_free c (Z.to_nat (lastIdDispatched c)) w Hi Hx) in He; [|by rewrite Ed|done|apply Hw; lia]. simpl in He. simplify_eq.
       apply work_outer; [apply Hi'|]. unfold outer_work. rewrite Ed. simpl. lia. }
  5-7: (step_inv He; apply work_outer; [apply Hi'|]; unfold outer_work; rewrite Ed; simpl; lia).
  all: apply work_inner; [unfold outer_work; step_inv He; rewrite Ed; simpl; repeat case_match; done|].
  all: unfold inner_work; rewrite Ed; step_inv He; simpl; rewrite ?Hrun; apply Nat.add_lt_mono_l.
  2: { destruct p0 as [g' x]. destruct (g_rank_step _ _ _ _ _ Hg E) as (Hf & Hx'). unfold d_rank. cbn [fst snd]. rewrite Hf.
       destruct x as [p'|]; [destruct (isEmpty _); lia|]. destruct Hx' as [-> Hx']. destruct (isEmpty _); simpl; lia. }
  all: unfold d_rank, g_rank; destruct (isEmpty _); simpl; try lia; destruct (_ =? 1); lia.
Qed.

(** ** The theorem *)

(** As long as somebody can move, somebody can move so that less is left. *)
Lemma pool_moves c : pool_inv N c → x_pc c = XNone → full c →
  stuck N c ∨ ∃ a c', internal a = true ∧ exec c a = Some c' ∧ (pool_work c' < pool_work c)%nat.
Proof using HN.
  intros Hi Hx Hf.
  destruct (decide (Exists (λ a, is_Some (exec c (Client a))) (List.seq 0 (length (a_pc c))))) as [Ha|Ha].
  { apply Exists_exists in Ha as (a & _ & c' & He). right. exists (Client a), c'. split_and!; [done|done|by eapply work_client]. }
  destruct (decide (Exists (λ i, is_Some (exec c (Work i))) (List.seq 0 N))) as [Hw|Hw].
  { apply Exists_exists in Hw as (i & _ & c' & He). right. exists (Work i), c'. split_and!; [done|done|by eapply work_worker]. }
  assert (∀ i, (i < N)%nat → exec c (Work i) = None) as Hw'.
  { intros i Hi'. apply eq_None_not_Some. intros He. apply Hw, Exists_exists. exists i. split; [|done]. apply elem_of_seq. lia. }
  destruct (exec c Dispatcher) as [c'|] eqn:Ed.
  { right. exists Dispatcher, c'. split_and!; [done|done|by eapply work_dispatcher]. }
  left. split; [done|]. split; [done|]. intros a. apply eq_None_not_Some. intros He. apply Ha, Exists_exists. exists a.
  split; [|done]. apply elem_of_seq. destruct He as [c' He]. simpl in He. destruct (a_pc c !! a) eqn:E; [|done].
  apply lookup_lt_Some in E. lia.
Qed.

(** What the pool's own steps do not change. *)
Lemma internal_frame c a c' : internal a = true → exec c a = Some c' →
  x_pc c' = x_pc c ∧ submitted c' = submitted c.
Proof.
  intros Ha He. destruct a; try done; simpl in He.
  - destruct (a_pc c !! a) as [p|]; [|done]. destruct p; simpl in He; by step_inv He.
  - unfold taskDispatcher in He. destruct (d_pc c); simpl in He; by step_inv He.
  - by step_inv He.
Qed.

(** It comes to rest, and then nothing is left to do. *)
Lemma pool_rests c : pool_inv N c → x_pc c = XNone → full c →
  ∃ σ c', Forall (λ a, internal a = true) σ ∧ (length σ <= pool_work c)%nat ∧ run (M := pool_machine) c σ = Some c' ∧
    stuck N c' ∧ pool_inv N c' ∧ x_pc c' = XNone ∧ full c' ∧ submitted c' = submitted c.
Proof using HN.
  remember (pool_work c) as k eqn:Ek. revert c Ek. induction k as [k IH] using lt_wf_ind. intros c -> Hi Hx Hf.
  destruct (pool_moves c Hi Hx Hf) as [Hs|(a & c1 & Ha & He & Hlt)].
  { exists [], c. split_and!; try done. simpl. lia. }
  destruct (internal_frame c a c1 Ha He) as [Hx1 Hs1].
  destruct (IH _ Hlt c1 eq_refl) as (σ & c' & H1 & H2 & H3 & H4 & H5 & H6 & H7 & H8).
  - by eapply pool_inv_exec.
  - congruence.
  - by eapply full_internal.
  - exists (a :: σ), c'. split_and!; try done; [by constructor|simpl; lia|cbn [run m_exec pool_machine]; by rewrite He|congruence].
Qed.

(** Nor does anybody else, short of submitting one; and a pool whose destructor was
    called stays so. *)
Lemma full_exec c a c' :
  pool_inv N c → (x_pc c = XNone → full c) → (∀ j, a ≠ Assign j None) → exec c a = Some c' → x_pc c' = XNone → full c'.
Proof using HN.
  intros Hi Hf Hne He Hx'. destruct (internal a) eqn:Ha.
  { assert (x_pc c = XNone) as Hx by (destruct (internal_frame c a c' Ha He); congruence). eapply full_internal; eauto. }
  destruct a as [j [id|]|j| |i| | | |i]; try done; simpl in He.
  - apply (full_assign c j id); [|done]. apply Hf. destruct (a_pc c !! j) as [[]|]; try done. by destruct (x_pc c).
  - by destruct (Hne j).
  - by step_inv He.
  - unfold destructor in He. by destruct (x_pc c) eqn:E; step_inv He; simpl in Hx'; try done; destruct i.
  - simplify_eq. by destruct (Hf Hx').
  - destruct (threads c !! i) as [w|] eqn:Ei; [|done]. simplify_eq. simpl in Hx'. destruct (Hf Hx') as [Hq Hh Hs Hw].
    split; simpl; try done.
    + intros j x Hj [(<-&<-&_)|(_&Hx)]%lookup_insert_cases; [exact (Hs i w Hj Ei)|by eapply Hs].
    + apply Forall_insert; [done|]. exact (Forall_lookup_1 _ _ _ _ Hw Ei).
Qed.

Lemma full_run c σ c' :
  pool_inv N c → (x_pc c = XNone → full c) → run (M := pool_machine) c σ = Some c' → (∀ j, Assign j None ∉ σ) →
  pool_inv N c' ∧ (x_pc c' = XNone → full c').
Proof using HN.
  revert c. induction σ as [|a σ IH]; intros c Hi Hf Hr Hne; cbn [run m_exec pool_machine] in Hr; [by simplify_eq|].
  destruct (exec c a) as [c1|] eqn:E; [|done]. apply (IH c1); [by eapply pool_inv_exec| |done|].
  - eapply full_exec; [exact Hi|done| |done]. intros j ->. apply (Hne j). by left.
  - intros j Hj. apply (Hne j). by right.
Qed.

(** C7. Under sequential consistency every task gets executed: after any execution that
    interleaves the accesses to memory, in which no empty function was submitted and the
    pool was not destroyed, whatever the clients, the dispatcher and
    the workers were doing, boundedly many steps of their code lead to a state in which
    the queue is empty, every call of [assignTask] has returned and exactly the
    submitted tasks have been executed. *)
Theorem pool_completes n σ c :
  run (M := pool_machine) (ThreadPool N n) σ = Some c → (∀ a, Assign a None ∉ σ) → x_pc c = XNone →
  ∃ σ' c', Forall (λ a, internal a = true) σ' ∧ (length σ' <= pool_work c)%nat ∧
    run (M := pool_machine) c σ' = Some c' ∧ taskQueue c' = [] ∧ submitted c' = submitted c ∧
    submitted c' ≡ₚ executed c' ∧ ∀ a p, a_pc c' !! a = Some p → p = AIdle.
Proof using HN.
  intros Hr Hne Hx. destruct (full_run _ _ _ (pool_inv_start N HN n) (λ _, full_start n) Hr Hne) as [Hi Hf].
  destruct (pool_rests c Hi Hx (Hf Hx)) as (σ' & c' & H1 & H2 & H3 & H4 & H5 & H6 & _ & H8).
  pose proof (sv_run _ _ (pi_s _ _ H5)) as Hrun. rewrite H6 in Hrun.
  destruct (stuck_executed N HN c' H5 Hrun H4) as (Hq & Hp & Ha). exists σ', c'. done.
Qed.
End Progress.

(** ** Two clients, two workers: one task is queued, one client has just claimed its
    ticket *)

Definition ex_progress_sched : list act := [Assign 0 (Some 7%nat); Client 0; Dispatcher; Assign 1 (Some 8%nat); Work 1].
Definition ex_progress : pool := default (ThreadPool 2 2) (run (M := pool_machine) (ThreadPool 2 2) ex_progress_sched).

Lemma ex_two_workers : count_ok 2.
Proof. unfold count_ok, INT_MAX. lia. Qed.

Lemma pool_completes_witness :
  submitted ex_progress = [7; 8]%nat ∧ executed ex_progress = [] ∧
  ∃ σ' c', run (M := pool_machine) ex_progress σ' = Some c' ∧ [7; 8]%nat ≡ₚ executed c'.
Proof.
  split; [reflexivity|]. split; [reflexivity|].
  destruct (pool_completes 2 ex_two_workers 2 ex_progress_sched ex_progress) as (σ' & c' & _ & _ & H3 & _ & H5 & H6 & _).
  - reflexivity.
  - intros a Ha. repeat (apply elem_of_cons in Ha as [?|Ha]; [done|]). by apply not_elem_of_nil in Ha.
  - reflexivity.
  - exists σ', c'. split; [exact H3|]. rewrite H5 in H6. exact H6.
Defined.
