(* ===== verification/TaskQueue.v ===== *)
(** * The task queue of the thread pool

    [ThreadPool] has an [AtomicRingBuffer<std::function<void()>, 1024>] member that
    the clients write with [enqueue(std::function<void()>&&)] and that only the
    dispatcher reads, with [dequeue] and [isEmpty].  [ThreadPool.v] uses it through
    the operations [claim], [publish], [dequeue] and [isEmpty] on a list of
    entries.  Here the ring, used in that way, is shown to implement them: the
    ring's steps refine the four operations, and it waits only where they are not
    enabled. *)

From Stdlib Require Import ZArith Lia.
From S2P Require Import Prelude MachineInt Lts AtomicRingBuffer RingProtocol RingInvariant.
From S2P Require Import RingMachine QueueSpec RingRefinement RingTheorems ThreadPool.
Local Open Scope Z_scope.
Local Open Scope astra_scope.

Module TaskQueue.
Import Pool(func, entry, mkEntry, e_func, e_owner, e_ready, claim, publish, pending_of, CAPACITY).

(** ** The operations as a specification *)

(** The entries, and what the operation in which the dispatcher is has yielded. *)
Record tq := TQ { tq_queue : list entry; tq_res : option (func + bool) }.

Inductive event :=
| EvClaim (a : nat) (f : func)
| EvPublish (a : nat)
| EvDequeue
| EvIsEmpty
| EvReturn (x : func + bool).

Inductive tq_step : tq → list event → tq → Prop :=
| s_claim q x a f : tq_step (TQ q x) [EvClaim a f] (TQ (claim q a f) x)
| s_publish q x a q' : publish q a = Some q' → tq_step (TQ q x) [EvPublish a] (TQ q' x)
| s_dequeue q x f q' :
    Pool.dequeue q = Some (f, q') → tq_step (TQ q x) [EvDequeue] (TQ q' (Some (inl f)))
| s_isEmpty q x : tq_step (TQ q x) [EvIsEmpty] (TQ q (Some (inr (Pool.isEmpty q))))
| s_return q y : tq_step (TQ q (Some y)) [EvReturn y] (TQ q None).

Definition tq_spec : spec := Spec tq event tq_step.

(** ** The ring as the pool uses it *)

Abbreviation SIZE := 1024.
Abbreviation BATCH_SIZE := 50.

Section Ring.
Context (d : nat).

(** Thread [d] is the dispatcher, the others are clients. *)
Definition tq_ok (a : act func) : bool :=
  match a with
  | Call t (OpEnqueue EnqMove _) => bool_decide (t ≠ d)
  | Call t (OpDequeue | OpIsEmpty _) => bool_decide (t = d)
  | Call _ _ | Clear => false
  | Run _ | Ret _ => true
  end.

Definition tq_machine (ar : arith) : machine :=
  Machine (cfg func) (act func) (λ c a, if tq_ok a then exec ar SIZE BATCH_SIZE c a else None).

(** Where the operations take effect: [claim] at the [fetch_add] of [enqueue],
    [publish] and [dequeue] at the store to the sequence number, [isEmpty] at the
    load of [writeTicket]. *)
Definition tq_obs (c : cfg func) (a : act func) : list event :=
  match a with
  | Run t =>
      match c_thr c !! t with
      | Some (EnqTicket _ f) => [EvClaim t f]
      | Some (EnqPublish _) => [EvPublish t]
      | Some (DeqPublish _ _) => [EvDequeue]
      | Some (EmptyFirst true) | Some (EmptySecond false _) => [EvIsEmpty]
      | _ => []
      end
  | Ret t =>
      match c_thr c !! t with
      | Some (DeqReturn _ f) => [EvReturn (inl f)]
      | Some (EmptyReturn b) => [EvReturn (inr b)]
      | _ => []
      end
  | _ => []
  end.

(** ** The relation *)

Definition wticket (p : pc func) : option Z :=
  match p with
  | EnqSpin _ _ t | EnqWrite _ _ t | EnqConstruct _ t | EnqPublish t => Some t
  | _ => None
  end.
Definition rticket (p : pc func) : option Z :=
  match p with DeqSpin r | DeqMove r | DeqPublish r _ => Some r | _ => None end.

(** The write ticket of thread [j], and the oldest ticket that was not read. *)
Definition wt (c : cfg func) (j : nat) : option Z := c_thr c !! j ≫= wticket.
Definition rd (c : cfg func) : Z :=
  match c_thr c !! d ≫= rticket with Some r => r | None => readTicket (c_ring c) end.

Definition producing (p : pc func) : bool :=
  match p with
  | Idle | EnqTicket _ _ | EnqSpin _ _ _ | EnqWrite _ _ _ | EnqConstruct _ _ | EnqPublish _ | EnqReturn => true
  | _ => false
  end.
Definition dispatching (p : pc func) : bool :=
  match p with
  | Idle | DeqTicket | DeqSpin _ | DeqMove _ | DeqPublish _ _ | DeqReturn _ _
  | EmptyFirst _ | EmptySecond _ _ | EmptyReturn _ => true
  | _ => false
  end.

(** Who is where. *)
Record roles (c : cfg func) : Prop := {
  ro_client : ∀ t p, c_thr c !! t = Some p → t ≠ d → producing p = true;
  ro_disp : ∀ p, c_thr c !! d = Some p → dispatching p = true;
  ro_ticket : ∀ p r, c_thr c !! d = Some p → rticket p = Some r → 0 <= r ∧ r = readTicket (c_ring c) - 1;
}.

Record matches (c : cfg func) (q : list entry) : Prop := {
  ma_len : rd c + Z.of_nat (length q) = writeTicket (c_ring c);
  ma_val : ∀ i e, q !! i = Some e → val_at (c_hist c) (rd c + Z.of_nat i) = Some (e_func e);
  ma_pending : ∀ i e, q !! i = Some e → e_ready e = false → wt c (e_owner e) = Some (rd c + Z.of_nat i);
  ma_ready : ∀ i e j, q !! i = Some e → e_ready e = true → wt c j ≠ Some (rd c + Z.of_nat i);
}.

Definition res_ok (c : cfg func) (x : option (func + bool)) : Prop :=
  match c_thr c !! d with
  | Some (DeqReturn _ f) => x = Some (inl f)
  | Some (EmptySecond true y) => x = Some (inr (to_i64 y =? to_i64 (readTicket (c_ring c))))
  | Some (EmptySecond false y) => y = readTicket (c_ring c)
  | Some (EmptyReturn b) => x = Some (inr b)
  | _ => True
  end.

(** ** Tickets *)

Abbreviation iexec := (exec ticket_arith SIZE BATCH_SIZE).
Abbreviation cinv := (cinv SIZE BATCH_SIZE).

Lemma ring_params : params_ok SIZE BATCH_SIZE.
Proof. by split; [|lia|unfold INT_MAX; lia]. Qed.

Lemma capacity_size : Z.of_nat CAPACITY = SIZE.
Proof. by vm_compute. Qed.

Lemma wt_view c j t : wt c j = Some t ↔ ∃ ph, p_views (abs c) !! j = Some (VW ph t).
Proof.
  unfold wt. simpl. rewrite list_lookup_fmap. destruct (c_thr c !! j) as [p|]; [|by split; [|intros [? ?]]].
  simpl. destruct p; simpl; split; try done; try (by intros [? ?]); try (by intros [= <-]; eauto);
    by intros [? [= _ <-]].
Qed.

(** The dispatcher is the only reader. *)
Lemma rticket_view c p r :
  c_thr c !! d = Some p → rticket p = Some r → ∃ ph, p_views (abs c) !! d = Some (VR ph r).
Proof.
  intros Hp Hr. simpl. rewrite list_lookup_fmap, Hp. destruct p; simpl in *; simplify_eq; eauto.
Qed.

Lemma reader_disp c j ph r : roles c → p_views (abs c) !! j = Some (VR ph r) → rd c = r.
Proof.
  intros [Hc Hd Ht] Hv. simpl in Hv. rewrite list_lookup_fmap in Hv.
  apply fmap_Some in Hv as (p & Hp & Hv). destruct (decide (j = d)) as [->|Hne].
  - specialize (Hd _ Hp). assert (rticket p = Some r) as Hr by (destruct p; simpl in *; by simplify_eq).
    unfold rd. rewrite Hp. simpl. by rewrite Hr.
  - specialize (Hc _ _ Hp Hne). by destruct p.
Qed.

Lemma rd_cases c :
  cinv c → roles c → 0 <= rd c ∧
  (rd c = readTicket (c_ring c) ∨
   rd c = readTicket (c_ring c) - 1 ∧ ∃ ph, p_views (abs c) !! d = Some (VR ph (rd c))).
Proof.
  intros Hi [_ _ Ht]. pose proof (pi_R _ _ (ci_p _ _ _ Hi)) as HR. unfold rd.
  destruct (c_thr c !! d) as [p|] eqn:E; simpl; [|by auto].
  destruct (rticket p) as [r|] eqn:Er; [|by auto]. destruct (Ht _ _ eq_refl Er) as [? ?].
  split; [done|right]. split; [done|]. by eapply rticket_view.
Qed.

(** No ticket before [rd] is still being read. *)
Lemma read_before c r s :
  cinv c → roles c → 0 <= r < rd c → slot_at SIZE (buffer (c_ring c)) r = Some s → r + 1 < seq s.
Proof.
  intros Hi Hr Hlt Hs. destruct (rd_cases c Hi Hr) as [_ Hc].
  destruct (Z.le_gt_cases (seq s) (r + 1)) as [Hle|]; [|done].
  destruct (pi_rex _ _ (ci_p _ _ _ Hi) r s) as (j & ph & Hv); [simpl; lia|done|done|].
  apply reader_disp in Hv; [lia|done].
Qed.

(** A client's slot is free exactly when it is within the capacity. *)
Lemma client_slot c a t s :
  cinv c → roles c → wt c a = Some t → slot_at SIZE (buffer (c_ring c)) t = Some s →
  rd c <= t < writeTicket (c_ring c) ∧ (seq s = t ↔ t < rd c + SIZE).
Proof.
  intros Hi Hr [ph Hv]%wt_view Hs. pose proof (ci_p _ _ _ Hi) as Hp.
  destruct (pi_wr _ _ Hp _ _ _ _ Hv Hs) as (Ht & Hle & _). simpl in Ht.
  assert (rd c <= t) as Hrd.
  { destruct (Z.le_gt_cases (rd c) t); [done|]. pose proof (read_before c t s Hi Hr ltac:(lia) Hs). lia. }
  split; [lia|]. destruct (rd_cases c Hi Hr) as [Hr0 Hrc].
  destruct (pi_slot _ _ Hp _ _ Hs) as (t0 & H0 & Hpos & Hw & Hc). simpl in Hw, Hc.
  pose proof (slot_at_same_pos SIZE (buffer (c_ring c)) _ _ Hpos) as Hs0. rewrite Hs in Hs0.
  pose proof (same_pos_cases SIZE ltac:(lia) _ _ Hpos) as Hcases. split.
  - intros Hst. assert (t0 = t) as -> by lia.
    destruct (Z.lt_ge_cases t (rd c + SIZE)) as [|Hge]; [done|exfalso].
    destruct (Hw ltac:(lia)) as [Hlt _]. destruct Hrc as [?|[He [ph' Hv']]]; [lia|].
    assert (pos SIZE (rd c) = pos SIZE t) as Hpt.
    { apply pos_eq; [lia|]. replace t with (rd c + 1 * SIZE) by lia. by rewrite Z.mod_add. }
    rewrite <- (slot_at_same_pos SIZE (buffer (c_ring c)) _ _ Hpt) in Hs.
    destruct (pi_rd _ _ Hp _ _ _ _ Hv' Hs) as (_ & ? & _). lia.
  - intros Hlt. destruct (Z.eq_dec (seq s) t) as [|Hne]; [done|exfalso].
    pose proof (read_before c t0 s Hi Hr ltac:(lia) Hs0). lia.
Qed.

(** The entry of a client that holds a ticket. *)
Lemma client_entry c q a t :
  cinv c → roles c → matches c q → wt c a = Some t →
  ∃ i e, t = rd c + Z.of_nat i ∧ q !! i = Some e ∧ e_owner e = a ∧
         publish q a = if (i <? CAPACITY)%nat then Some (<[i := mkEntry (e_func e) a true]> q) else None.
Proof.
  intros Hi Hr [Hl _ Hp Hre] Ha. pose proof (ci_p _ _ _ Hi) as Hpi.
  destruct (slot_at_total SIZE ltac:(lia) (buffer (c_ring c)) t (pi_len _ _ Hpi)) as [s Hs].
  destruct (client_slot c a t s Hi Hr Ha Hs) as [Ht _].
  destruct (lookup_lt_is_Some_2 q (Z.to_nat (t - rd c)) ltac:(lia)) as [e He].
  exists (Z.to_nat (t - rd c)), e. split; [lia|]. split; [done|].
  assert (e_ready e = false) as Hf.
  { destruct (e_ready e) eqn:Er; [|done]. destruct (Hre _ _ a He Er). by replace (rd c + _) with t by lia. }
  assert (e_owner e = a) as Ho.
  { specialize (Hp _ _ He Hf). replace (rd c + _) with t in Hp by lia.
    apply wt_view in Hp as [ph Hp], Ha as [ph' Ha]. by eapply (pi_wuniq _ _ Hpi). }
  split; [done|]. unfold publish.
  assert (list_find (λ e, pending_of a e = true) q = Some (Z.to_nat (t - rd c), e)) as ->; [|by rewrite Ho].
  apply list_find_Some. unfold pending_of. split; [done|]. split; [by rewrite Ho, Hf, Nat.eqb_refl|].
  intros k y Hk Hlt [He1%Nat.eqb_eq He2%negb_true_iff]%andb_true_iff.
  specialize (Hp _ _ Hk He2). rewrite He1, Ha in Hp. simplify_eq. lia.
Qed.

(** A client that stores its sequence number publishes its entry. *)
Lemma publish_enabled c q a t :
  cinv c → roles c → matches c q → c_thr c !! a = Some (EnqPublish t) →
  ∃ i e, t = rd c + Z.of_nat i ∧ q !! i = Some e ∧
         publish q a = Some (<[i := mkEntry (e_func e) a true]> q).
Proof.
  intros Hi Hr Hm Ha. pose proof (ci_p _ _ _ Hi) as Hpi.
  assert (wt c a = Some t) as Hw by (unfold wt; by rewrite Ha).
  destruct (client_entry c q a t Hi Hr Hm Hw) as (i & e & Ht & He & _ & Hpub). exists i, e. split; [done|]. split; [done|].
  destruct (slot_at_total SIZE ltac:(lia) (buffer (c_ring c)) t (pi_len _ _ Hpi)) as [s Hs].
  destruct (client_slot c a t s Hi Hr Hw Hs) as [_ [Hlt _]].
  pose proof (view_lookup _ _ _ Ha) as Hv. destruct (pi_wr _ _ Hpi _ _ _ _ Hv Hs) as (_ & _ & Hs' & _).
  specialize (Hlt (Hs' I)). pose proof capacity_size. by rewrite (proj2 (Nat.ltb_lt i CAPACITY)) in Hpub by lia.
Qed.

(** The head of the queue, for a dispatcher that holds its ticket. *)
Lemma head_published c q p r s :
  cinv c → roles c → matches c q → c_thr c !! d = Some p → rticket p = Some r →
  slot_at SIZE (buffer (c_ring c)) r = Some s →
  match q with
  | [] => writeTicket (c_ring c) <= r
  | e :: _ => val_at (c_hist c) r = Some (e_func e) ∧ (e_ready e = true ↔ seq s = r + 1)
  end.
Proof.
  intros Hi Hr [Hl Hv Hp Hre] Hd Hrt Hs. pose proof (ci_p _ _ _ Hi) as Hpi.
  assert (rd c = r) as Hrd by (unfold rd; rewrite Hd; simpl; by rewrite Hrt).
  destruct q as [|e q]; simpl in Hl; [lia|]. specialize (Hv 0%nat e eq_refl).
  specialize (Hp 0%nat e eq_refl). specialize (Hre 0%nat e). rewrite Z.add_0_r, Hrd in *. split; [done|].
  destruct (rticket_view c p r Hd Hrt) as [ph Hvw]. destruct (pi_rd _ _ Hpi _ _ _ _ Hvw Hs) as (H0 & Hle & _).
  split.
  - intros Her. destruct (Z.eq_dec (seq s) (r + 1)) as [|Hne]; [done|exfalso].
    destruct (pi_wex _ _ Hpi r s) as (j & ph' & Hj); [simpl; lia|done|lia|].
    apply (Hre j eq_refl Her). apply wt_view. eauto.
  - intros Hsq. destruct (e_ready e) eqn:Er; [done|exfalso]. specialize (Hp eq_refl).
    apply wt_view in Hp as [ph' Hp]. destruct (pi_wr _ _ Hpi _ _ _ _ Hp Hs) as (_ & ? & _). lia.
Qed.

(** ** Every step is a step of the specification *)

Lemma wt_insert c r h k t p' j :
  (t < length (c_thr c))%nat →
  wt (mkCfg r (<[t := p']> (c_thr c)) h k) j = if decide (j = t) then wticket p' else wt c j.
Proof.
  intros Ht. unfold wt. simpl. case_decide as E; [subst; by rewrite list_lookup_insert_eq|].
  by rewrite list_lookup_insert_ne.
Qed.

Lemma rd_insert c r h k t p' :
  (t < length (c_thr c))%nat →
  rd (mkCfg r (<[t := p']> (c_thr c)) h k) =
  match (if decide (t = d) then Some p' else c_thr c !! d) ≫= rticket with
  | Some x => x | None => readTicket r end.
Proof.
  intros Ht. unfold rd. simpl. case_decide as E; [subst; by rewrite list_lookup_insert_eq|].
  by rewrite list_lookup_insert_ne.
Qed.

Lemma matches_same c c' q :
  matches c q → rd c' = rd c → writeTicket (c_ring c') = writeTicket (c_ring c) →
  c_hist c' = c_hist c → (∀ j, wt c' j = wt c j) → matches c' q.
Proof.
  intros [Hl Hv Hp Hr] H1 H2 H3 H4. split; rewrite ?H1, ?H2, ?H3; try done.
  - intros i e Hi He. rewrite H4. by apply Hp.
  - intros i e j Hi He. rewrite H4. by eapply Hr.
Qed.

(** What a step does to the counters and to the tickets that are held. *)
Lemma client_counters (r r' : ring func) p p' :
  producing p = true → step_ring ticket_arith SIZE r p = Some (r', p') →
  producing p' = true ∧ readTicket r' = readTicket r ∧
  match p with
  | EnqTicket _ _ => writeTicket r' = writeTicket r + 1 ∧ wticket p' = Some (writeTicket r)
  | EnqPublish _ => writeTicket r' = writeTicket r ∧ wticket p' = None
  | _ => writeTicket r' = writeTicket r ∧ wticket p' = wticket p
  end.
Proof.
  intros Hp Hs. destruct p; simpl in Hp, Hs; try done;
    unfold seq_load, seq_store, data_assign, data_destroy, data_construct in Hs; step_inv Hs; try done.
  by destruct (writable _ _ _).
Qed.

Lemma disp_counters (r r' : ring func) p p' :
  dispatching p = true → step_ring ticket_arith SIZE r p = Some (r', p') →
  dispatching p' = true ∧ wticket p' = None ∧ writeTicket r' = writeTicket r ∧
  match p with
  | DeqTicket => readTicket r' = readTicket r + 1 ∧ rticket p' = Some (readTicket r)
  | DeqPublish _ _ => readTicket r' = readTicket r ∧ rticket p' = None
  | _ => readTicket r' = readTicket r ∧ rticket p' = rticket p
  end.
Proof.
  intros Hp Hs. destruct p; simpl in Hp, Hs; try done;
    unfold seq_load, seq_store, data_move in Hs; step_inv Hs; try done.
  by destruct (readable _ _ _).
Qed.

Lemma roles_exec c a c' : cinv c → roles c → tq_ok a = true → iexec c a = Some c' → roles c'.
Proof.
  intros Hi [Hc Hd Ht] Ha He. pose proof (pi_R _ _ (ci_p _ _ _ Hi)) as HR. simpl in HR.
  destruct a as [t o|t|t|]; simpl in He; step_inv He.
  - split; simpl.
    + intros t' p' [(<-&<-&_)|(_&?)]%lookup_insert_cases; [|by eauto]. intros Hne.
      by destruct o as [[] ?| | |]; simpl in *; try case_bool_decide.
    + intros p' [(->&<-&_)|(_&?)]%lookup_insert_cases; [|by eauto].
      by destruct o as [[] ?| | |]; simpl in *; try case_bool_decide.
    + intros p' r [(->&<-&_)|(_&?)]%lookup_insert_cases; [|by eauto]. by destruct o.
  - destruct p0 as [r' p']. simpl. destruct (decide (t = d)) as [->|Hne].
    + pose proof (Hd _ E) as Hdp. destruct (disp_counters _ _ _ _ Hdp E0) as (? & _ & _ & Hcase). split; simpl.
      * intros t' p0 [(<-&_&_)|(_&?)]%lookup_insert_cases; [done|by eauto].
      * intros p0 [(_&<-&_)|(?&_)]%lookup_insert_cases; done.
      * intros p0 r [(_&<-&_)|(?&_)]%lookup_insert_cases; [|done]. intros Hr. specialize (Ht _ r E).
        destruct p; simpl in Hdp, Hcase, Ht; try done; destruct Hcase as [Hx Hy]; rewrite Hy in Hr; simplify_eq;
          try lia; specialize (Ht eq_refl); lia.
    + destruct (client_counters _ _ _ _ (Hc _ _ E Hne) E0) as (? & Hrt & _). split; simpl.
      * intros t' p0 [(<-&<-&_)|(_&?)]%lookup_insert_cases; [done|by eauto].
      * intros p0 [(?&_)|(_&?)]%lookup_insert_cases; [done|by eauto].
      * intros p0 r [(?&_)|(_&?)]%lookup_insert_cases; [done|]. rewrite Hrt. by eauto.
  - split; simpl.
    + intros t' p' [(<-&<-&_)|(_&?)]%lookup_insert_cases; [done|by eauto].
    + intros p' [(_&<-&_)|(_&?)]%lookup_insert_cases; [done|by eauto].
    + intros p' r [(_&<-&_)|(_&?)]%lookup_insert_cases; [done|by eauto].
Qed.

Abbreviation after c t r' p' p := (mkCfg r' (<[t := p']> (c_thr c)) (log_ticket (A := func) p (c_hist c)) (log_read (A := func) p (c_reads c))).

Lemma claim_matches c q t k f r' p' :
  cinv c → matches c q → t ≠ d → c_thr c !! t = Some (EnqTicket k f) →
  readTicket r' = readTicket (c_ring c) → writeTicket r' = writeTicket (c_ring c) + 1 →
  wticket p' = Some (writeTicket (c_ring c)) →
  matches (after c t r' p' (EnqTicket k f)) (claim q t f).
Proof.
  intros Hi [Hl Hv Hp Hr] Hne Ht HR HW Hwt. pose proof (lookup_lt_Some _ _ _ Ht) as Hlt.
  pose proof (pi_W _ _ (ci_p _ _ _ Hi)) as Hh. simpl in Hh.
  assert (rd (after c t r' p' (EnqTicket k f)) = rd c) as Hrd
    by (rewrite rd_insert, decide_False, HR by done; done).
  assert (wt c t = None) as Hnone by (unfold wt; by rewrite Ht).
  unfold claim. split; rewrite ?Hrd; simpl.
  - rewrite length_app, HW. simpl. lia.
  - intros i e [[He ?]|[-> <-]]%lookup_snoc_cases; simpl.
    + specialize (Hv _ _ He). unfold val_at in *. auto with astra.
    + rewrite Hl, Hh. apply val_at_snoc_new.
  - intros i e [[He ?]|[-> <-]]%lookup_snoc_cases Hf; rewrite wt_insert by done.
    + rewrite decide_False; [by apply Hp|]. intros He1. specialize (Hp _ _ He Hf). congruence.
    + simpl. rewrite decide_True by done. by rewrite Hl.
  - intros i e u [[He ?]|[-> <-]]%lookup_snoc_cases Hf; [|done]. rewrite wt_insert by done.
    case_decide; [rewrite Hwt; intros [= Hx]; lia|by eapply Hr].
Qed.

Lemma publish_matches c q a t i e r' p' :
  cinv c → roles c → matches c q → a ≠ d → c_thr c !! a = Some (EnqPublish t) →
  t = rd c + Z.of_nat i → q !! i = Some e →
  readTicket r' = readTicket (c_ring c) → writeTicket r' = writeTicket (c_ring c) → wticket p' = None →
  matches (after c a r' p' (EnqPublish t)) (<[i := mkEntry (e_func e) a true]> q).
Proof.
  intros Hi Hro [Hl Hv Hp Hr] Hne Ha Ht He HR HW Hwt. pose proof (lookup_lt_Some _ _ _ Ha) as Hlt.
  assert (rd (after c a r' p' (EnqPublish t)) = rd c) as Hrd
    by (rewrite rd_insert, decide_False, HR by done; done).
  assert (wt c a = Some t) as Hat by (unfold wt; by rewrite Ha).
  split; rewrite ?Hrd; simpl.
  - by rewrite length_insert, HW.
  - intros k x [(<-&<-&_)|(_&?)]%lookup_insert_cases; [exact (Hv _ _ He)|by eauto].
  - intros k x [(_&<-&_)|(Hk&Hx)]%lookup_insert_cases Hf; [done|]. rewrite wt_insert by done.
    specialize (Hp _ _ Hx Hf). rewrite decide_False; [done|]. intros Ho. rewrite Ho in Hp.
    rewrite Hat in Hp. simplify_eq. lia.
  - intros k x u [(<-&<-&_)|(Hk&Hx)]%lookup_insert_cases Hf; rewrite wt_insert by done.
    + case_decide as Hu; [by rewrite Hwt|]. rewrite <- Ht. intros Hut. apply Hu.
      apply wt_view in Hut as [ph Hut], Hat as [ph' Hat]. by eapply (pi_wuniq _ _ (ci_p _ _ _ Hi)).
    + case_decide; [by rewrite Hwt|by eapply Hr].
Qed.

Lemma dequeue_matches c q e r f r' p' :
  matches c (e :: q) → c_thr c !! d = Some (DeqPublish r f) → r = readTicket (c_ring c) - 1 →
  readTicket r' = readTicket (c_ring c) → writeTicket r' = writeTicket (c_ring c) →
  wticket p' = None → rticket p' = None →
  matches (after c d r' p' (DeqPublish r f)) q.
Proof.
  intros [Hl Hv Hp Hr] Hd Hrd HR HW Hwt Hrt. pose proof (lookup_lt_Some _ _ _ Hd) as Hlt.
  assert (rd c = r) as Hr0 by (unfold rd; by rewrite Hd).
  assert (rd (after c d r' p' (DeqPublish r f)) = r + 1) as Hr1.
  { rewrite rd_insert, decide_True by done. simpl. rewrite Hrt. lia. }
  assert (∀ j, wt (after c d r' p' (DeqPublish r f)) j = wt c j) as Hw.
  { intros j. rewrite wt_insert by done. case_decide as E; [|done]. subst j. rewrite Hwt. unfold wt. by rewrite Hd. }
  assert (∀ i : nat, r + 1 + Z.of_nat i = rd c + Z.of_nat (S i)) as Hs by (intros; lia).
  split; rewrite ?Hr1; simpl in *.
  - lia.
  - intros i x Hx. rewrite Hs. by apply (Hv (S i)).
  - intros i x Hx Hf. rewrite Hs, Hw. by apply (Hp (S i)).
  - intros i x j Hx Hf. rewrite Hs, Hw. by eapply (Hr (S i)).
Qed.

Abbreviation qrun := (@sp_run tq_spec).

Lemma client_sim c q x t p r' p' :
  cinv c → roles c → matches c q → t ≠ d → c_thr c !! t = Some p →
  step_ring ticket_arith SIZE (c_ring c) p = Some (r', p') →
  ∃ q', qrun (TQ q x) (tq_obs c (Run t)) (TQ q' x) ∧ matches (after c t r' p' p) q'.
Proof.
  intros Hi Hr Hm Hne Ht Hs. pose proof (ro_client _ Hr _ _ Ht Hne) as Hp.
  destruct (client_counters _ _ _ _ Hp Hs) as (_ & HR & Hc). simpl. rewrite Ht.
  assert (Hstay : writeTicket r' = writeTicket (c_ring c) → wticket p' = wticket p → log_ticket p (c_hist c) = c_hist c →
    matches (after c t r' p' p) q).
  { intros HW Hw Hh. pose proof (lookup_lt_Some _ _ _ Ht) as Hlt.
    apply (matches_same c); [done| |done|done|].
    - rewrite rd_insert, decide_False, HR by done. done.
    - intros j. rewrite wt_insert by done. case_decide as E; [|done]. subst j. unfold wt. by rewrite Ht. }
  destruct p as [|k f|k f tk|k f tk|f tk|tk| | | | | | | | | | | | | |]; try done.
  - destruct Hc as [HW Hw]. exists (claim q t f). split; [by apply (sp_one tq_spec), s_claim|].
    by apply claim_matches.
  - destruct Hc. eexists. split; [constructor|by apply Hstay].
  - destruct Hc. eexists. split; [constructor|by apply Hstay].
  - destruct Hc. eexists. split; [constructor|by apply Hstay].
  - destruct Hc as [HW Hw]. destruct (publish_enabled c q t tk Hi Hr Hm Ht) as (i & e & Hti & He & Hpub).
    eexists. split; [by apply (sp_one tq_spec), s_publish|]. by apply publish_matches.
Qed.

(** The answer of [isEmpty], at the load of [writeTicket]. *)
Lemma empty_answer c q n p :
  cinv c → length (c_thr c) = n → SIZE * Z.of_nat n < 2 ^ 64 → matches c q →
  c_thr c !! d = Some p → rticket p = None →
  (to_i64 (writeTicket (c_ring c)) =? to_i64 (readTicket (c_ring c))) = Pool.isEmpty q.
Proof.
  intros Hi Hl Hn [Hlen _ _ _] Hd Hr.
  rewrite swrap_eqb by (lia || by apply (counters_close SIZE BATCH_SIZE ring_params n Hn)).
  unfold rd in Hlen. rewrite Hd in Hlen. simpl in Hlen. rewrite Hr in Hlen.
  destruct q; simpl in *; [apply Z.eqb_eq|apply Z.eqb_neq]; lia.
Qed.

(** A dispatcher that frees its slot takes the head of the queue. *)
Lemma dequeue_enabled c q r f :
  cinv c → roles c → matches c q → c_thr c !! d = Some (DeqPublish r f) →
  ∃ e q', q = e :: q' ∧ Pool.dequeue q = Some (f, q').
Proof.
  intros Hi Hr Hm Hd. pose proof (ci_p _ _ _ Hi) as Hpi.
  destruct (slot_at_total SIZE ltac:(lia) (buffer (c_ring c)) r (pi_len _ _ Hpi)) as [s Hsl].
  pose proof (head_published c q _ r s Hi Hr Hm Hd eq_refl Hsl) as Hh.
  pose proof (ci_pc _ _ _ Hi _ _ Hd) as [H0 Hv]. pose proof (pi_W _ _ Hpi) as HWh. simpl in HWh.
  pose proof (view_lookup _ _ _ Hd) as Hvw. destruct (pi_rd _ _ Hpi _ _ _ _ Hvw Hsl) as (_ & _ & Hsq).
  destruct q as [|e q]; [pose proof (val_at_lt _ _ _ Hv); lia|]. destruct Hh as [Hve [_ Hre]].
  rewrite Hve in Hv. exists e, q. split; [done|]. simpl. rewrite (Hre (Hsq I)). by simplify_eq.
Qed.

Lemma disp_sim c q x n p r' p' :
  cinv c → length (c_thr c) = n → SIZE * Z.of_nat n < 2 ^ 64 → roles c → matches c q → res_ok c x →
  c_thr c !! d = Some p → step_ring ticket_arith SIZE (c_ring c) p = Some (r', p') →
  ∃ q' x', qrun (TQ q x) (tq_obs c (Run d)) (TQ q' x') ∧
    matches (after c d r' p' p) q' ∧ res_ok (after c d r' p' p) x'.
Proof.
  intros Hi Hl Hn Hr Hm Hx Hd Hs. pose proof (ro_disp _ Hr _ Hd) as Hp. pose proof (lookup_lt_Some _ _ _ Hd) as Hlt.
  destruct (disp_counters _ _ _ _ Hp Hs) as (_ & Hw & HW & Hc). simpl. rewrite Hd.
  pose proof (ro_ticket _ Hr _ (default 0 (rticket p)) Hd) as Hrt.
  assert (Hstay : rd (after c d r' p' p) = rd c → wticket p = None → log_ticket p (c_hist c) = c_hist c →
    matches (after c d r' p' p) q).
  { intros Hrd Hw' Hh. apply (matches_same c); [done..|].
    intros j. rewrite wt_insert by done. case_decide as E; [|done]. subst j. unfold wt. rewrite Hd, Hw. simpl. by rewrite Hw'. }
  assert (Hrd : readTicket r' = readTicket (c_ring c) → rticket p' = rticket p → rd (after c d r' p' p) = rd c).
  { intros HR HT. rewrite rd_insert, decide_True, HR by done. unfold rd. rewrite Hd. simpl. by rewrite HT. }
  unfold res_ok in *. simpl. rewrite list_lookup_insert_eq by done. rewrite Hd in Hx.
  pose proof (empty_answer c q n p Hi Hl Hn Hm Hd) as Hans.
  destruct p as [| | | | | | | |r|r|r f| | | | | | |wf|wf y|]; try done; simpl in Hs, Hc, Hx, Hrt, Hans.
  - destruct Hc as [HR HT]. step_inv Hs. exists q, x. split; [constructor|]. split; [|done]. apply Hstay; try done.
    rewrite rd_insert, decide_True by done. unfold rd. by rewrite Hd.
  - destruct Hc as [HR HT]. exists q, x. split; [constructor|]. step_inv Hs. split; [by apply Hstay; auto|].
    by destruct (readable _ _ _).
  - destruct Hc as [HR HT]. exists q, x. split; [constructor|]. step_inv Hs. split; [by apply Hstay; auto|done].
  - destruct Hc as [HR HT]. destruct (Hrt eq_refl) as [_ Hrr].
    destruct (dequeue_enabled c q r f Hi Hr Hm Hd) as (e & q' & -> & Hdq). exists q', (Some (inl f)).
    split; [by apply (sp_one tq_spec), s_dequeue|]. split; [by apply (dequeue_matches c q' e r f)|].
    by step_inv Hs.
  - destruct Hc as [HR HT]. simplify_eq/=. destruct wf.
    + exists q, (Some (inr (Pool.isEmpty q))). split; [by apply (sp_one tq_spec), s_isEmpty|].
      split; [by apply Hstay; auto|]. by rewrite <- Hans.
    + exists q, x. split; [constructor|]. split; [by apply Hstay; auto|done].
  - destruct Hc as [HR HT]. simplify_eq/=. destruct wf.
    + exists q, x. split; [constructor|]. split; [by apply Hstay; auto|done].
    + exists q, (Some (inr (Pool.isEmpty q))). split; [by apply (sp_one tq_spec), s_isEmpty|].
      split; [by apply Hstay; auto|]. by rewrite <- Hans, Hx, Z.eqb_sym.
Qed.

(** Entering or leaving a function. *)
Lemma outside_sim c q x t p p' :
  matches c q → c_thr c !! t = Some p → wticket p = None → wticket p' = None →
  rticket p = None → rticket p' = None →
  matches (mkCfg (c_ring c) (<[t := p']> (c_thr c)) (c_hist c) (c_reads c)) q ∧
  (t ≠ d → res_ok c x → res_ok (mkCfg (c_ring c) (<[t := p']> (c_thr c)) (c_hist c) (c_reads c)) x).
Proof.
  intros Hm Ht Hw Hw' Hr Hr'. pose proof (lookup_lt_Some _ _ _ Ht) as Hlt. split.
  - apply (matches_same c); try done.
    + rewrite rd_insert by done. case_decide as E; [|done]. subst t. unfold rd. rewrite Ht. simpl. by rewrite Hr, Hr'.
    + intros j. rewrite wt_insert by done. case_decide as E; [|done]. subst j. unfold wt. rewrite Ht. simpl. by rewrite Hw.
  - intros Hne. unfold res_ok. simpl. by rewrite list_lookup_insert_ne.
Qed.

Section Refinement.
Context (n : nat) (Hn : SIZE * Z.of_nat n < 2 ^ 64).

Lemma tq_sim c a c' q x :
  cinv c → length (c_thr c) = n → roles c → matches c q → res_ok c x → tq_ok a = true →
  iexec c a = Some c' →
  ∃ q' x', qrun (TQ q x) (tq_obs c a) (TQ q' x') ∧ matches c' q' ∧ res_ok c' x'.
Proof using Hn.
  intros Hi Hl Hr Hm Hx Ha He. destruct a as [t o|t|t|]; simpl in He; step_inv He.
  - destruct (outside_sim c q x t Idle (call BATCH_SIZE o)) as [Hm' Hx']; try done; try (by destruct o).
    exists q, x. split; [constructor|]. split; [done|]. destruct (decide (t = d)) as [->|]; [|by apply Hx'].
    unfold res_ok. simpl. rewrite list_lookup_insert_eq by (by eapply lookup_lt_Some). by destruct o.
  - destruct p0 as [r' p']. simpl. destruct (decide (t = d)) as [->|Hne]; [by eapply disp_sim|].
    destruct (client_sim c q x t p r' p') as (q' & Hq & Hm'); try done. exists q', x. split; [done|]. split; [done|].
    destruct (client_counters _ _ _ _ (ro_client _ Hr _ _ E Hne) E0) as (_ & HR & _).
    unfold res_ok in *. simpl. rewrite list_lookup_insert_ne, HR by done. done.
  - destruct (outside_sim c q x t p Idle) as [Hm' Hx']; try done; try (by destruct p). simpl. rewrite E.
    destruct (decide (t = d)) as [->|Hne].
    + pose proof (ro_disp _ Hr _ E) as Hp. unfold res_ok in *. simpl. rewrite E in Hx.
      rewrite list_lookup_insert_eq by (by eapply lookup_lt_Some).
      exists q, None. split; [|by split]. destruct p; simpl in *; try done; subst x; apply (sp_one tq_spec), s_return.
    + exists q, x. pose proof (ro_client _ Hr _ _ E Hne). destruct p; simpl in *; try done.
      split; [constructor|]. split; [done|by apply Hx'].
Qed.

Definition tq_linked (m : cfg func) (q : tq) : Prop :=
  ∃ c, m = wrap_cfg c ∧ cinv c ∧ length (c_thr c) = n ∧ roles c ∧
       matches c (tq_queue q) ∧ res_ok c (tq_res q).

Lemma tq_obs_wrap c a : tq_obs (wrap_cfg c) a = tq_obs c a.
Proof.
  destruct a as [t o|t|t|]; simpl; try done; rewrite list_lookup_fmap;
    destruct (c_thr c !! t) as [p|]; simpl; try done; by destruct p.
Qed.

Lemma tq_simulates : simulates (S := tq_spec) (M := tq_machine machine_arith) tq_obs tq_linked.
Proof using Hn.
  intros m a m' q (c & -> & Hi & Hl & Hr & Hm & Hx) He. simpl in He. destruct (tq_ok a) eqn:Ha; [|done].
  rewrite (exec_wrap _ _ ring_params) in He by (done || by rewrite Hl).
  apply fmap_Some in He as (c' & He & ->). rewrite tq_obs_wrap. destruct q as [q x].
  destruct (tq_sim c a c' q x) as (q' & x' & Hq & Hm' & Hx'); try done.
  exists (TQ q' x'). split; [done|]. exists c'. split_and!; try done.
  - by eapply (cinv_exec _ _ ring_params).
  - by rewrite (exec_threads SIZE BATCH_SIZE _ _ _ _ He).
  - by eapply roles_exec.
Qed.

Lemma tq_fresh m0 : fresh (A := func) SIZE BATCH_SIZE None n m0 → tq_linked m0 (TQ [] None).
Proof.
  clear Hn. intros H0. destruct (init_wrap (A := func) SIZE BATCH_SIZE ring_params None n) as (c & Hc & Hi & Hl & _ & Hcf).
  unfold fresh in *. assert (m0 = wrap_cfg c) as -> by congruence. clear H0 Hc. exists c.
  assert (∀ t p, c_thr c !! t = Some p → p = Idle) as Hidle.
  { intros t p Hp. rewrite Hcf in Hp. by apply lookup_replicate in Hp as [-> _]. }
  pose proof (pi_W _ _ (ci_p _ _ _ Hi)) as HW. pose proof (ci_reads _ _ _ Hi) as HR. rewrite Hcf in HW, HR. simpl in HW, HR.
  split; [done|]. split; [exact Hi|]. split; [exact Hl|]. clear Hcf Hi. split; [|split].
  - split; [by intros t p ->%Hidle|by intros p ->%Hidle|by intros p r ->%Hidle].
  - split; simpl; try done. unfold rd. destruct (c_thr c !! d) as [p|] eqn:E; [apply Hidle in E as ->|]; simpl; lia.
  - unfold res_ok. destruct (c_thr c !! d) as [p|] eqn:E; [by apply Hidle in E as ->|done].
Qed.

(** Waiting in the ring means that the operation is not enabled. *)
Lemma tq_blocked c q t p :
  cinv c → length (c_thr c) = n → roles c → matches c q → c_thr c !! t = Some p →
  blocked SIZE BATCH_SIZE (wrap_cfg c) t →
  if decide (t = d) then Pool.dequeue q = None else publish q t = None.
Proof using Hn.
  intros Hi Hl Hr Hm Hp Hb. pose proof (ci_p _ _ _ Hi) as Hpi.
  assert (active p = true) as Ha.
  { unfold blocked in Hb. simpl in Hb. rewrite list_lookup_fmap, Hp in Hb. by destruct p. }
  apply (blocked_waiting SIZE BATCH_SIZE ring_params n Hn c t p) in Hb; [|done..].
  case_decide as E; [subst t; pose proof (ro_disp _ Hr _ Hp)|pose proof (ro_client _ Hr _ _ Hp E)];
    destruct p as [| |k f tk| | | | | |tk| | | | | | | | | | |]; try done.
  - destruct (slot_at_total SIZE ltac:(lia) (buffer (c_ring c)) tk (pi_len _ _ Hpi)) as [s Hs].
    pose proof (head_published c q _ tk s Hi Hr Hm Hp eq_refl Hs) as Hh.
    destruct q as [|e q]; simpl; [done|]. destruct Hh as [_ [Hh _]]. destruct (e_ready e); [|done].
    apply (get_slot_at _ _ ring_params) in Hs. simpl in Hb. unfold seq_load, readable in Hb. rewrite Hs in Hb.
    simpl in Hb. rewrite Hh in Hb by done. by rewrite Z.eqb_refl in Hb.
  - assert (wt c t = Some tk) as Hw by (unfold wt; by rewrite Hp).
    destruct (slot_at_total SIZE ltac:(lia) (buffer (c_ring c)) tk (pi_len _ _ Hpi)) as [s Hs].
    destruct (client_slot c t tk s Hi Hr Hw Hs) as [_ [_ Hfree]].
    destruct (client_entry c q t tk Hi Hr Hm Hw) as (i & e & Ht & _ & _ & ->).
    destruct (Nat.ltb_spec i CAPACITY) as [Hlt|]; [|done]. pose proof capacity_size.
    apply (get_slot_at _ _ ring_params) in Hs. simpl in Hb. unfold seq_load, writable in Hb. rewrite Hs in Hb.
    simpl in Hb. rewrite Hfree, Z.eqb_refl in Hb by lia. done.
Qed.

(** C12. The task queue of the pool: whatever the interleaving of the clients and the
    dispatcher, the ring performs the operations [claim], [publish], [dequeue] and
    [isEmpty] that [ThreadPool.v] uses, each at one step, and the dispatcher gets
    their results; and a thread that waits in the ring is one whose operation,
    [publish] of a client or [dequeue] of the dispatcher, is not enabled. *)
Theorem task_queue_refines m0 σ m :
  fresh (A := func) SIZE BATCH_SIZE None n m0 → run (M := tq_machine machine_arith) m0 σ = Some m →
  ∃ q, qrun (TQ [] None) (run_obs (S := tq_spec) (M := tq_machine machine_arith) tq_obs m0 σ) q ∧
    ∀ t, (t < n)%nat → blocked SIZE BATCH_SIZE m t →
      if decide (t = d) then Pool.dequeue (tq_queue q) = None else publish (tq_queue q) t = None.
Proof using Hn.
  intros H0 Hrun.
  destruct (simulates_run _ _ _ _ _ _ _ _ tq_simulates (tq_fresh m0 H0) Hrun) as (q & Hq & c & -> & Hi & Hl & Hr & Hm & _).
  exists q. split; [done|]. intros t Ht Hb. destruct (lookup_lt_is_Some_2 (c_thr c) t) as [p Hp]; [by rewrite Hl|].
  by eapply tq_blocked.
Qed.
End Refinement.

End Ring.

(** ** A concrete run *)

(** Client 1 submits task 7; the dispatcher, thread 0, sees that the queue is not
    empty and takes it. *)
Definition tq_sched : list (act func) :=
  [Call 1 (OpEnqueue EnqMove (Some 7%nat)); Run 1; Run 1; Run 1; Run 1; Ret 1;
   Call 0 (OpIsEmpty true); Run 0; Run 0; Ret 0;
   Call 0 OpDequeue; Run 0; Run 0; Run 0; Run 0; Ret 0].
Definition tq_m0 : cfg func :=
  default (mkCfg (mkRing [] [] 0 0) [] [] 0) (init_cfg machine_arith SIZE BATCH_SIZE None 2).
Definition tq_m (k : nat) : cfg func :=
  default tq_m0 (run (M := tq_machine 0 machine_arith) tq_m0 (take k tq_sched)).
Definition tq_events : list event :=
  [EvClaim 1 (Some 7%nat); EvPublish 1; EvIsEmpty; EvReturn (inr false); EvDequeue; EvReturn (inl (Some 7%nat))].

Lemma task_queue_refines_witness :
  ∃ q, sp_run (S := tq_spec) (TQ [] None) tq_events q ∧
    ∀ t, (t < 2)%nat → blocked SIZE BATCH_SIZE (tq_m 16) t →
      if decide (t = 0%nat) then Pool.dequeue (tq_queue q) = None else publish (tq_queue q) t = None.
Proof.
  assert (run_obs (S := tq_spec) (M := tq_machine 0 machine_arith) tq_obs tq_m0 tq_sched = tq_events) as <-
    by (by vm_compute).
  apply (task_queue_refines 0 2 ltac:(lia) tq_m0 tq_sched (tq_m 16)); by vm_compute.
Defined.

End TaskQueue.
