(* ===== verification/CondvarPool.v ===== *)
(** * The condition-variable pool of the benchmark

    Model of [CondvarPool] in [src/bench/ThreadPoolComparisonBench.cpp], the
    baseline that [ThreadPool] is compared with: workers that wait on a
    [std::condition_variable] for a [std::queue] behind a [std::mutex].

    The mutex is a flag, taken by a step that is enabled only when it is free.
    [cv.wait] gives up the mutex and blocks in one step; a blocked worker is
    released by [notify_one], which picks any one, by [notify_all], or
    spuriously, and then takes the mutex again and tests the predicate.
    Calling an empty [std::function] throws in the worker, which ends the
    program. *)

From Stdlib Require Import Lia.
From S2P Require Import Prelude Lts ThreadPool.
Local Open Scope astra_scope.

Module CondvarPool.
Import Pool(func).

(** ** The code *)

(** A worker: [lk(m)], the predicate of [cv.wait], blocked in it, taking the
    mutex again, [if (stop && q.empty())], the two statements that take the front
    of the queue, the end of the block, [task()], and leaving by [return]. *)
Inductive wpc :=
| WLock
| WPred
| WBlocked
| WRelock
| WTest
| WTake
| WUnlock (f : func)
| WCall (f : func)
| WLeave
| WExit.

(** A client in [submit]. *)
Inductive spc := SIdle | SLock (f : func) | SPush (f : func) | SUnlock | SNotify.

(** The destructor. *)
Inductive xpc := XNone | XLock | XStop | XUnlock | XNotify | XJoin (i : nat) | XDone.

Record pool := mkPool {
  m : bool;
  q : list func;
  stop : bool;
  workers : list wpc;
  clients : list spc;
  x_pc : xpc;
  submitted : list func;
  executed : list nat;
  aborted : bool;
}.

(** [CondvarPool(n)], to be used by [k] clients. *)
Definition init (n k : nat) : pool :=
  mkPool false [] false (replicate n WLock) (replicate k SIdle) XNone [] [] false.

Definition empty (l : list func) : bool := match l with [] => true | _ => false end.

(** One step of worker [i]. *)
Definition worker (c : pool) (i : nat) (p : wpc) : option pool :=
  let go m' q' e' b' p' :=
    Some (mkPool m' q' (stop c) (<[i := p']> (workers c)) (clients c) (x_pc c) (submitted c)
            (executed c ++ e') b') in
  let acquire p' := if m c then None else go true (q c) [] false p' in
  match p with
  | WLock | WRelock => acquire WPred
  | WPred =>
      if stop c || negb (empty (q c)) then go (m c) (q c) [] false WTest
      else go false (q c) [] false WBlocked
  | WTest => go (m c) (q c) [] false (if stop c && empty (q c) then WLeave else WTake)
  | WTake => match q c with f :: q' => go (m c) q' [] false (WUnlock f) | [] => None end
  | WUnlock f => go false (q c) [] false (WCall f)
  | WCall (Some id) => go (m c) (q c) [id] false WLock
  | WCall None => go (m c) (q c) [] true (WCall None)
  | WLeave => go false (q c) [] false WExit
  | WBlocked | WExit => None
  end.

(** One step of [submit] of client [a], up to [notify_one]. *)
Definition submit (c : pool) (a : nat) (p : spc) : option pool :=
  let go m' q' p' :=
    Some (mkPool m' q' (stop c) (workers c) (<[a := p']> (clients c)) (x_pc c) (submitted c)
            (executed c) false) in
  match p with
  | SLock f => if m c then None else go true (q c) (SPush f)
  | SPush f => go (m c) (q c ++ [f]) SUnlock
  | SUnlock => go false (q c) SNotify
  | SIdle | SNotify => None
  end.

Definition is_blocked (p : wpc) : bool := match p with WBlocked => true | _ => false end.

(** [cv.notify_one()] of client [a]: releases worker [i], or nobody when no worker
    is blocked. *)
Definition notify_one (c : pool) (a : nat) (tgt : option nat) : option pool :=
  let go ws :=
    Some (mkPool (m c) (q c) (stop c) ws (<[a := SIdle]> (clients c)) (x_pc c) (submitted c)
            (executed c) false) in
  match tgt with
  | Some i => match workers c !! i with Some WBlocked => go (<[i := WRelock]> (workers c)) | _ => None end
  | None => if existsb is_blocked (workers c) then None else go (workers c)
  end.

(** One step of the destructor. *)
Definition release (p : wpc) : wpc := match p with WBlocked => WRelock | _ => p end.

Definition destructor (c : pool) : option pool :=
  let go m' s' ws p' :=
    Some (mkPool m' (q c) s' ws (clients c) p' (submitted c) (executed c) false) in
  match x_pc c with
  | XLock => if m c then None else go true (stop c) (workers c) XStop
  | XStop => go (m c) true (workers c) XUnlock
  | XUnlock => go false (stop c) (workers c) XNotify
  | XNotify => go (m c) (stop c) (release <$> workers c) (XJoin 0)
  | XJoin i =>
      match workers c !! i with
      | Some WExit => go (m c) (stop c) (workers c) (XJoin (S i))
      | Some _ => None
      | None => go (m c) (stop c) (workers c) XDone
      end
  | XNone | XDone => None
  end.

(** Who moves.  The destructor must not overlap [submit]. *)
Inductive act :=
| Submit (a : nat) (f : func)
| Client (a : nat)
| Notify (a : nat) (tgt : option nat)
| Work (i : nat)
| Spurious (i : nat)
| Destroy
| Destructor.

Definition is_idle (p : spc) : bool := match p with SIdle => true | _ => false end.

Definition exec (c : pool) (a : act) : option pool :=
  if aborted c then None else
  match a with
  | Submit j f =>
      match clients c !! j, x_pc c with
      | Some SIdle, XNone =>
          Some (mkPool (m c) (q c) (stop c) (workers c) (<[j := SLock f]> (clients c)) (x_pc c)
                  (submitted c ++ [f]) (executed c) false)
      | _, _ => None
      end
  | Client j => let? p := clients c !! j in submit c j p
  | Notify j tgt => match clients c !! j with Some SNotify => notify_one c j tgt | _ => None end
  | Work i => let? p := workers c !! i in worker c i p
  | Spurious i =>
      match workers c !! i with
      | Some WBlocked =>
          Some (mkPool (m c) (q c) (stop c) (<[i := WRelock]> (workers c)) (clients c) (x_pc c)
                  (submitted c) (executed c) false)
      | _ => None
      end
  | Destroy =>
      match x_pc c with
      | XNone =>
          if forallb is_idle (clients c)
          then Some (mkPool (m c) (q c) (stop c) (workers c) (clients c) XLock (submitted c) (executed c) false)
          else None
      | _ => None
      end
  | Destructor => destructor c
  end.

Definition cv_machine : machine := Machine pool act exec.

(** ** The invariant *)

Definition w_holds (p : wpc) : nat :=
  match p with WPred | WTest | WTake | WUnlock _ | WLeave => 1 | _ => 0 end.
Definition s_holds (p : spc) : nat := match p with SPush _ | SUnlock => 1 | _ => 0 end.
Definition x_holds (p : xpc) : nat := match p with XStop | XUnlock => 1 | _ => 0 end.

(** Threads that hold the mutex, workers on their way to the queue, and clients
    that have yet to notify. *)
Definition holders (c : pool) : nat :=
  sum_list (w_holds <$> workers c) + sum_list (s_holds <$> clients c) + x_holds (x_pc c).

Definition w_heads (p : wpc) : nat :=
  match p with WLock | WPred | WRelock | WTest | WTake => 1 | _ => 0 end.
Definition s_notifies (p : spc) : nat := match p with SUnlock | SNotify => 1 | _ => 0 end.
Definition heading (c : pool) : nat := sum_list (w_heads <$> workers c).
Definition notifying (c : pool) : nat := sum_list (s_notifies <$> clients c).

(** The tasks in the hands of workers and clients. *)
Definition w_hand (p : wpc) : list func := match p with WUnlock f | WCall f => [f] | _ => [] end.
Definition s_hand (p : spc) : list func := match p with SLock f | SPush f => [f] | _ => [] end.

Definition x_none (p : xpc) : bool := match p with XNone => true | _ => false end.
Definition x_stopped (p : xpc) : bool :=
  match p with XNone | XLock | XStop => false | _ => true end.
Definition x_joining (p : xpc) : bool := match p with XJoin _ | XDone => true | _ => false end.

(** What a worker knows. *)
Definition w_ok (c : pool) (p : wpc) : Prop :=
  match p with
  | WTest => stop c = true ∨ q c ≠ []
  | WTake => q c ≠ []
  | WLeave | WExit => stop c = true ∧ q c = []
  | _ => True
  end.

Record cinv (n : nat) (c : pool) : Prop := {
  ci_len : length (workers c) = n;
  ci_mutex : holders c = (if m c then 1 else 0);
  ci_stop : stop c = x_stopped (x_pc c);
  ci_idle : x_none (x_pc c) = false → ∀ a p, clients c !! a = Some p → p = SIdle;
  ci_worker : ∀ i p, workers c !! i = Some p → w_ok c p;
  ci_all : x_joining (x_pc c) = true → ∀ i, workers c !! i ≠ Some WBlocked;
  ci_join : ∀ i p, match x_pc c with XJoin j => i < j | XDone => True | _ => False end →
              workers c !! i = Some p → p = WExit;
  ci_wake : (∀ i, workers c !! i ≠ Some WBlocked) ∨ length (q c) ≤ notifying c + heading c;
  ci_tasks : submitted c ≡ₚ (Some <$> executed c) ++ q c ++ concat (w_hand <$> workers c) ++
               concat (s_hand <$> clients c);
  ci_abort : aborted c = true → ∃ i, workers c !! i = Some (WCall None);
}.

Lemma ci_held n c i p : cinv n c → workers c !! i = Some p → w_holds p = 1 →
  m c = true ∧ (∀ j p', j ≠ i → workers c !! j = Some p' → w_holds p' = 0) ∧
  (∀ a s, clients c !! a = Some s → s_holds s = 0) ∧ x_holds (x_pc c) = 0.
Proof.
  intros Hi Hp Hh. pose proof (ci_mutex _ _ Hi) as Hm. unfold holders in Hm.
  pose proof (sum_fmap_ge w_holds _ _ _ Hp). destruct (m c); [|lia]. split; [done|]. split_and!; [| |lia].
  - intros j p' Hne Hj. pose proof (sum_fmap_ge2 w_holds _ _ _ _ _ Hne Hj Hp). lia.
  - intros a s Ha. pose proof (sum_fmap_ge s_holds _ _ _ Ha). lia.
Qed.

(** A worker moves from [p] to [p']. *)
Lemma worker_moves n c i p p' (m' : bool) q' (e : list nat) b :
  cinv n c → workers c !! i = Some p → p ≠ WExit →
  w_holds p' + (if m c then 1 else 0) = w_holds p + (if m' then 1 else 0) →
  q' = q c ∨ (w_holds p = 1 ∧ ∃ f, q c = f :: q') →
  w_ok (mkPool m' q' (stop c) (workers c) (clients c) (x_pc c) (submitted c) (executed c) b) p' →
  (p' = WBlocked → stop c = false) →
  length q' + w_heads p ≤ length (q c) + w_heads p' ∧ p' ≠ WBlocked ∨ q' = [] →
  (Some <$> e) ++ q' ++ w_hand p' ≡ₚ q c ++ w_hand p →
  (b = true → p' = WCall None) →
  cinv n (mkPool m' q' (stop c) (<[i := p']> (workers c)) (clients c) (x_pc c) (submitted c) (executed c ++ e) b).
Proof.
  intros Hi Hp Hne Hh Hq Hok Hb Hw Ht Ha. pose proof (ci_held n c) as Hheld.
  pose proof (lookup_lt_Some _ _ _ Hp) as Hlt. pose proof Hi as [Hl Hm Hs Hid Hwk Hall Hj Hwake Htk _].
  split; simpl; rewrite ?length_insert; try done.
  - unfold holders in *. simpl. pose proof (sum_fmap_insert w_holds _ _ _ p' Hp). lia.
  - intros j p0 [(_&<-&_)|(Hji&Hj0)]%lookup_insert_cases; [done|]. specialize (Hwk _ _ Hj0).
    destruct Hq as [->|[H1 [f Hf]]]; [done|]. destruct (Hheld i p Hi Hp H1) as (_ & Hex & _).
    specialize (Hex j p0 ltac:(done) Hj0). destruct p0; simpl in *; try done; destruct Hwk; congruence.
  - intros Hx j [(_&->&_)|(_&?)]%lookup_insert_cases; [|by eapply Hall].
    rewrite Hb in Hs by done. by destruct (x_pc c).
  - intros j p0 Hc [(<-&_&_)|(_&?)]%lookup_insert_cases; [|by eauto]. by specialize (Hj _ _ Hc Hp).
  - unfold heading, notifying in *. simpl. destruct Hw as [[Hw Hnb]| ->]; [|right; simpl; lia].
    destruct Hwake as [Hn|Hn]; [left|right].
    + intros j [(_&->&_)|(_&?)]%lookup_insert_cases; [done|by eapply Hn].
    + pose proof (sum_fmap_insert w_heads _ _ _ p' Hp). lia.
  - pose proof (concat_fmap_insert w_hand _ _ _ p' Hp) as Hc.
    rewrite Htk, fmap_app, <- !app_assoc. apply Permutation_app_head.
    rewrite (app_assoc (q c)), (perm_hand _ _ _ _ _ _ _ Hc Ht). by rewrite <- !app_assoc.
  - intros ->%Ha. exists i. by apply list_lookup_insert_eq.
Qed.

(** A client moves from [s] to [s']. *)
Lemma client_moves n c a s s' (m' : bool) q' new :
  cinv n c → clients c !! a = Some s → x_pc c = XNone →
  s_holds s' + (if m c then 1 else 0) = s_holds s + (if m' then 1 else 0) →
  q' = q c ∨ (∃ f, q' = q c ++ [f]) →
  (∀ i, workers c !! i ≠ Some WBlocked) ∨
    length q' + s_notifies s ≤ notifying c + heading c + s_notifies s' →
  new ++ q c ++ s_hand s ≡ₚ q' ++ s_hand s' →
  cinv n (mkPool m' q' (stop c) (workers c) (<[a := s']> (clients c)) (x_pc c) (submitted c ++ new) (executed c) false).
Proof.
  intros Hi Hs Hx Hh Hq Hw Ht. pose proof Hi as [Hl Hm Hst Hid Hwk Hall Hj Hwake Htk _]. rewrite Hx in Hst.
  split; simpl; rewrite ?Hx; try done.
  - unfold holders in Hm |- *. simpl. rewrite Hx in Hm. simpl in Hm.
    pose proof (sum_fmap_insert s_holds _ _ _ s' Hs). lia.
  - intros i p Hp. specialize (Hwk _ _ Hp). destruct Hq as [->|[f ->]]; [done|].
    destruct p; simpl in *; try done; [right| |destruct Hwk; congruence..]; by destruct (q c).
  - destruct Hw as [?|Hw]; [by left|right]. unfold notifying, heading in *. simpl.
    pose proof (sum_fmap_insert s_notifies _ _ _ s' Hs). lia.
  - pose proof (concat_fmap_insert s_hand _ _ _ s' Hs) as Hc. rewrite Htk, <- !app_assoc.
    assert ((new ++ q c) ++ concat (s_hand <$> clients c) ≡ₚ q' ++ concat (s_hand <$> <[a := s']> (clients c))) as Hp.
    { apply (perm_hand _ _ [] _ _ _ _ Hc). by rewrite <- app_assoc, Ht. }
    apply Permutation_app_head. rewrite (Permutation_app_swap_app q'), <- Hp.
    rewrite (Permutation_app_swap_app (q c)). apply Permutation_app_head.
    by rewrite (app_assoc (q c)), (Permutation_app_comm _ new), app_assoc.
Qed.

(** The mutex in a step of a worker that holds it, takes it or does neither. *)
Ltac holds_arith Hi Hp :=
  first [ match goal with E : m _ = _ |- _ => rewrite E; simpl; lia end
        | destruct (ci_held _ _ _ _ Hi Hp eq_refl) as (Hmc & _); rewrite Hmc; simpl; lia
        | simpl; lia ].

(** The side conditions of [worker_moves] that hold by computation. *)
Ltac wmove Hi Hp :=
  simplify_eq; eapply worker_moves;
  [ exact Hi | exact Hp | done | holds_arith Hi Hp | try (by left) | try done | try done
  | try (left; split; [simpl; lia|done]) | simpl; rewrite ?app_nil_r; try done | try done ].

Lemma worker_inv n c i p c' :
  cinv n c → workers c !! i = Some p → worker c i p = Some c' → cinv n c'.
Proof.
  intros Hi Hp He. pose proof (ci_worker _ _ Hi _ _ Hp) as Hok.
  destruct p as [| | | | | |f|[id|]| |]; simpl in He, Hok; try done.
  - destruct (m c) eqn:Em; [done|]. wmove Hi Hp.
  - destruct (stop c || negb (empty (q c))) eqn:Eb.
    + wmove Hi Hp. simpl. apply orb_true_iff in Eb as [?|Eb]; [by left|right]. by destruct (q c).
    + apply orb_false_iff in Eb as [Es Eq]. assert (q c = []) as Eq' by (by destruct (q c)).
      wmove Hi Hp. by right.
  - destruct (m c) eqn:Em; [done|]. wmove Hi Hp.
  - destruct (stop c && empty (q c)) eqn:Eb.
    + apply andb_true_iff in Eb as [Es Eq]. assert (q c = []) as Eq' by (by destruct (q c)).
      wmove Hi Hp. by right.
    + wmove Hi Hp. simpl. destruct Hok as [Hs|]; [|done]. rewrite Hs in Eb. by destruct (q c).
  - destruct (q c) as [|f q'] eqn:Eq; [done|]. wmove Hi Hp.
    + right. eauto.
    + left. rewrite Eq. simpl. split; [lia|done].
    + rewrite Eq. apply (Permutation_app_comm _ [f]).
  - wmove Hi Hp.
  - wmove Hi Hp. apply (Permutation_app_comm [Some id]).
  - wmove Hi Hp.
  - wmove Hi Hp.
Qed.

Lemma client_inv n c a s c' :
  cinv n c → clients c !! a = Some s → submit c a s = Some c' → cinv n c'.
Proof.
  intros Hi Hs He.
  assert (x_pc c = XNone) as Hx.
  { pose proof (ci_idle _ _ Hi) as Hid. destruct (x_pc c); try done; by rewrite (Hid eq_refl _ _ Hs) in He. }
  assert (s_holds s = 1 → m c = true) as Hm.
  { intros H1. pose proof (ci_mutex _ _ Hi) as Hm. unfold holders in Hm.
    pose proof (sum_fmap_ge s_holds _ _ _ Hs). destruct (m c); [done|lia]. }
  pose proof (ci_wake _ _ Hi) as Hw.
  assert (Hwq : ∀ (q' : list func) s', length q' + s_notifies s ≤ length (q c) + s_notifies s' →
    (∀ i, workers c !! i ≠ Some WBlocked) ∨ length q' + s_notifies s ≤ notifying c + heading c + s_notifies s').
  { intros q' s' Hq. destruct Hw as [?|Hw]; [by left|right; lia]. }
  destruct s as [|f|f| |]; simpl in He, Hm; try done.
  - destruct (m c) eqn:Em; [done|]. simplify_eq. rewrite <- (app_nil_r (submitted c)).
    eapply client_moves; [exact Hi|exact Hs|done|by rewrite Em|by left|apply Hwq; simpl; lia|done].
  - simplify_eq. rewrite <- (app_nil_r (submitted c)).
    eapply client_moves; [exact Hi|exact Hs|done|done|by eauto|apply Hwq; rewrite length_app; simpl; lia|].
    simpl. by rewrite app_nil_r.
  - simplify_eq. rewrite <- (app_nil_r (submitted c)).
    eapply client_moves; [exact Hi|exact Hs|done|by rewrite Hm|by left|apply Hwq; simpl; lia|done].
Qed.

Lemma notify_inv n c a tgt c' :
  cinv n c → clients c !! a = Some SNotify → notify_one c a tgt = Some c' → cinv n c'.
Proof.
  intros Hi Hs He.
  assert (x_pc c = XNone) as Hx.
  { pose proof (ci_idle _ _ Hi) as Hid. destruct (x_pc c); try done; by specialize (Hid eq_refl _ _ Hs). }
  unfold notify_one in He. destruct tgt as [i|].
  - destruct (workers c !! i) as [[]|] eqn:Ei; simplify_eq. pose proof (ci_wake _ _ Hi) as Hw.
    assert (cinv n (mkPool (m c) (q c) (stop c) (<[i := WRelock]> (workers c)) (clients c) (x_pc c)
      (submitted c) (executed c ++ []) false)) as H1 by (wmove Hi Ei).
    rewrite app_nil_r in H1. rewrite <- (app_nil_r (submitted c)).
    apply (client_moves n _ a SNotify SIdle (m c) (q c) [] H1); try done; [by left|]. right.
    destruct Hw as [Hw|Hw]; [by destruct (Hw i)|]. unfold heading, notifying in *. simpl in *.
    pose proof (sum_fmap_insert w_heads _ _ _ WRelock Ei). simpl in *. lia.
  - destruct (existsb is_blocked (workers c)) eqn:Eb; simplify_eq. rewrite <- (app_nil_r (submitted c)).
    eapply client_moves; [exact Hi|exact Hs|done|done|by left| |done]. left. intros i Hb.
    apply not_true_iff_false in Eb. apply Eb. apply existsb_exists. exists WBlocked. split; [|done].
    by apply list_elem_of_lookup_2, list_elem_of_In in Hb.
Qed.

Lemma release_sums c :
  sum_list (w_holds <$> (release <$> workers c)) = sum_list (w_holds <$> workers c) ∧
  concat (w_hand <$> (release <$> workers c)) = concat (w_hand <$> workers c).
Proof.
  split; f_equal; rewrite <- list_fmap_compose; apply list_fmap_ext; intros i [] _; done.
Qed.

Lemma destructor_inv n c c' : cinv n c → aborted c = false → destructor c = Some c' → cinv n c'.
Proof.
  intros Hi Hna He. pose proof Hi as [Hl Hm Hs Hid Hwk Hall Hj Hwake Htk _]. unfold destructor in He.
  destruct (x_pc c) eqn:Ex; simpl in *; try done.
  - destruct (m c) eqn:Em; [done|]. simplify_eq. split; simpl; try done.
    unfold holders in *. simpl in *. rewrite Ex in Hm. simpl in Hm. lia.
  - simplify_eq. split; simpl; try done.
    + unfold holders in *. simpl in *. by rewrite Ex in Hm.
    + intros i p Hp. specialize (Hwk _ _ Hp). destruct p; simpl in *; auto; try (destruct Hwk; congruence).
  - simplify_eq. split; simpl; try done. unfold holders in *. simpl in *. rewrite Ex in Hm. simpl in Hm.
    destruct (m c); lia.
  - simplify_eq. destruct (release_sums c) as [Hr1 Hr2]. split; simpl; rewrite ?length_fmap; try done.
    + unfold holders in *. simpl in *. rewrite Ex in Hm. simpl in Hm. by rewrite Hr1.
    + intros i p Hp. rewrite list_lookup_fmap in Hp. apply fmap_Some in Hp as (p0 & Hp & ->).
      specialize (Hwk _ _ Hp). by destruct p0.
    + intros _ i Hp. rewrite list_lookup_fmap in Hp. apply fmap_Some in Hp as (p0 & _ & Hp). by destruct p0.
    + intros i p Hlt. lia.
    + left. intros i Hp. rewrite list_lookup_fmap in Hp. apply fmap_Some in Hp as (p0 & _ & Hp). by destruct p0.
    + by rewrite Hr2.
  - destruct (workers c !! i) as [p|] eqn:Ei.
    + destruct p; try done. simplify_eq. split; simpl; try done.
      * unfold holders in *. simpl in *. by rewrite Ex in Hm.
      * intros j p Hlt Hp. destruct (decide (j = i)) as [->|]; [congruence|]. apply (Hj j p); [lia|done].
    + simplify_eq. split; simpl; try done.
      * unfold holders in *. simpl in *. by rewrite Ex in Hm.
      * intros j p _ Hp. apply (Hj j p); [|done]. apply lookup_ge_None in Ei. apply lookup_lt_Some in Hp. lia.
Qed.

Lemma cv_exec n c a c' : cinv n c → exec c a = Some c' → cinv n c'.
Proof.
  intros Hi He. unfold exec in He. destruct (aborted c) eqn:Ea; [done|].
  destruct a as [a f|a|a tgt|i|i| |].
  - destruct (clients c !! a) as [[]|] eqn:Es; try done. destruct (x_pc c) eqn:Ex; try done. simplify_eq.
    rewrite <- Ex. eapply client_moves; [exact Hi|exact Es|done|done|by left| |].
    + simpl. destruct (ci_wake _ _ Hi); [by left|right; lia].
    + simpl. rewrite app_nil_r. apply (Permutation_app_comm [f]).
  - destruct (clients c !! a) as [s|] eqn:Es; [|done]. by eapply client_inv.
  - destruct (clients c !! a) as [[]|] eqn:Es; try done. by eapply notify_inv.
  - destruct (workers c !! i) as [p|] eqn:Ei; [|done]. by eapply worker_inv.
  - destruct (workers c !! i) as [[]|] eqn:Ei; try done. simplify_eq.
    rewrite <- (app_nil_r (executed c)). wmove Hi Ei.
  - destruct (x_pc c) eqn:Ex; try done. destruct (forallb is_idle (clients c)) eqn:Ei; [|done]. simplify_eq.
    pose proof Hi as [Hl Hm Hs Hid Hwk Hall Hj Hwake Htk _]. rewrite Ex in *. split; simpl; try done.
    + unfold holders in *. simpl in *. by rewrite Ex in Hm.
    + intros _ b p Hp. rewrite forallb_forall in Ei. apply list_elem_of_lookup_2, list_elem_of_In, Ei in Hp. by destruct p.
  - by eapply destructor_inv.
Qed.

Lemma cv_reach n k c : reachable (M := cv_machine) (λ c, c = init n k) c → cinv n c.
Proof.
  revert c. apply invariant.
  - intros c ->. split; simpl; try done.
    + apply length_replicate.
    + unfold holders. simpl. rewrite !fmap_replicate, !sum_list_replicate. simpl. lia.
    + intros i p Hp. by apply lookup_replicate in Hp as [-> _].
    + right. lia.
    + by rewrite !concat_fmap_nil by (by intros i p [-> _]%lookup_replicate).
  - intros c a c' _. apply cv_exec.
Qed.

(** ** Theorems *)

(** The steps of the code, without new calls and without spurious wake-ups. *)
Definition internal (a : act) : bool :=
  match a with Client _ | Notify _ _ | Work _ | Destructor => true | _ => false end.
Definition stuck (c : pool) : Prop := ∀ a, internal a = true → exec c a = None.

(** A holder of the mutex can always go on, so nobody holds it when all are stuck. *)
Lemma stuck_free n c : cinv n c → aborted c = false → stuck c → m c = false.
Proof.
  intros Hi Ha Hs. destruct (m c) eqn:Em; [exfalso|done].
  pose proof (ci_mutex _ _ Hi) as Hm. rewrite Em in Hm. unfold holders in Hm.
  assert (0 < sum_list (w_holds <$> workers c) ∨ 0 < sum_list (s_holds <$> clients c) ∨ 0 < x_holds (x_pc c))
    as [H|[H|H]] by lia.
  - apply sum_fmap_pos in H as (i & p & Hp & H). pose proof (ci_worker _ _ Hi _ _ Hp) as Hok.
    specialize (Hs (Work i) eq_refl). unfold exec in Hs. rewrite Ha, Hp in Hs.
    destruct p; simpl in *; try lia; try done; [by destruct (_ || _)|by destruct (q c)].
  - apply sum_fmap_pos in H as (a & s & Hp & H). specialize (Hs (Client a) eq_refl).
    unfold exec in Hs. rewrite Ha, Hp in Hs. destruct s; simpl in *; try lia; done.
  - specialize (Hs Destructor eq_refl). unfold exec, destructor in Hs. rewrite Ha in Hs.
    destruct (x_pc c); simpl in *; try lia; done.
Qed.

Lemma cv_stuck_worker c i p :
  aborted c = false → m c = false → stuck c → workers c !! i = Some p → w_holds p = 0 → p = WBlocked ∨ p = WExit.
Proof.
  intros Ha Hm Hs Hp Hh. specialize (Hs (Work i) eq_refl). unfold exec in Hs. rewrite Ha, Hp in Hs.
  destruct p as [| | | | | |f|[id|]| |]; simpl in *; try rewrite Hm in Hs; auto; done.
Qed.

Lemma cv_stuck_client c a s :
  aborted c = false → m c = false → stuck c → clients c !! a = Some s → s_holds s = 0 → s = SIdle.
Proof.
  intros Ha Hm Hs Hp Hh. pose proof (Hs (Client a) eq_refl) as Hc. unfold exec in Hc. rewrite Ha, Hp in Hc.
  destruct s; simpl in *; try rewrite Hm in Hc; try done. exfalso.
  destruct (existsb is_blocked (workers c)) eqn:Eb.
  - apply existsb_exists in Eb as (p & Hin & Hb). apply list_elem_of_In, list_elem_of_lookup in Hin as [i Hi].
    specialize (Hs (Notify a (Some i)) eq_refl). unfold exec, notify_one in Hs. rewrite Ha, Hp, Hi in Hs. by destruct p.
  - specialize (Hs (Notify a None) eq_refl). unfold exec, notify_one in Hs. by rewrite Ha, Hp, Eb in Hs.
Qed.

(** Everything was executed once nobody holds a task. *)
Lemma all_executed n c :
  cinv n c → q c = [] → (∀ i p, workers c !! i = Some p → w_hand p = []) →
  (∀ a s, clients c !! a = Some s → s_hand s = []) → submitted c ≡ₚ Some <$> executed c.
Proof.
  intros Hi Hq Hw Hs. rewrite (ci_tasks _ _ Hi), Hq, !concat_fmap_nil by done. simpl. by rewrite app_nil_r.
Qed.

(** Only an empty function ends the program. *)
Lemma abort_empty n c : cinv n c → aborted c = true → None ∈ submitted c.
Proof.
  intros Hi [i Hw]%(ci_abort _ _ Hi). rewrite (ci_tasks _ _ Hi).
  rewrite !elem_of_app. right. right. left. apply list_elem_of_In, in_concat. exists [None]. split; [|by left].
  apply list_elem_of_In, list_elem_of_fmap. exists (WCall None). split; [done|]. by eapply list_elem_of_lookup_2.
Qed.

(** No deadlock and no lost wake-up: if nothing can move, every task was executed,
    and either the workers sleep or the destructor has returned and they have all
    left. *)
Lemma stuck_done n c :
  0 < n → cinv n c → aborted c = false → stuck c →
  q c = [] ∧ submitted c ≡ₚ Some <$> executed c ∧
  ((x_pc c = XNone ∧ ∀ i p, workers c !! i = Some p → p = WBlocked) ∨
   (x_pc c = XDone ∧ ∀ i p, workers c !! i = Some p → p = WExit)).
Proof.
  intros Hn Hi Ha Hs. pose proof (stuck_free n c Hi Ha Hs) as Hm.
  pose proof (ci_mutex _ _ Hi) as Hh. rewrite Hm in Hh. unfold holders in Hh.
  assert (∀ i p, workers c !! i = Some p → p = WBlocked ∨ p = WExit) as Hw.
  { intros i p Hp. eapply cv_stuck_worker; eauto. pose proof (sum_fmap_ge w_holds _ _ _ Hp). lia. }
  assert (∀ a s, clients c !! a = Some s → s = SIdle) as Hc.
  { intros a s Hp. eapply cv_stuck_client; eauto. pose proof (sum_fmap_ge s_holds _ _ _ Hp). lia. }
  assert (q c = []) as Hq.
  { destruct (lookup_lt_is_Some_2 (workers c) 0) as [p Hp]; [by rewrite (ci_len _ _ Hi)|].
    destruct (Hw _ _ Hp) as [->| ->]; [|by destruct (ci_worker _ _ Hi _ _ Hp)].
    destruct (ci_wake _ _ Hi) as [H|H]; [by destruct (H 0)|].
    assert (notifying c = 0 ∧ heading c = 0) as [Hn0 Hh0]; [|destruct (q c); [done|simpl in H; lia]].
    unfold notifying, heading. split.
    - destruct (decide (0 < sum_list (s_notifies <$> clients c))) as [(a & s & Hs' & Hp')%sum_fmap_pos|]; [|lia].
      rewrite (Hc _ _ Hs') in Hp'. simpl in Hp'. lia.
    - destruct (decide (0 < sum_list (w_heads <$> workers c))) as [(a & s & Hs' & Hp')%sum_fmap_pos|]; [|lia].
      destruct (Hw _ _ Hs') as [-> | ->]; simpl in Hp'; lia. }
  split; [done|]. split.
  { eapply all_executed; eauto; [intros i p Hp; by destruct (Hw _ _ Hp) as [-> | ->]|intros a s Hp; by rewrite (Hc _ _ Hp)]. }
  pose proof (ci_stop _ _ Hi) as Hst. specialize (Hs Destructor eq_refl) as Hx. unfold exec, destructor in Hx.
  rewrite Ha, ?Hm in Hx. destruct (x_pc c) eqn:Ex; try done.
  - left. split; [done|]. intros i p Hp. destruct (Hw _ _ Hp) as [-> | ->]; [done|].
    destruct (ci_worker _ _ Hi _ _ Hp). simpl in *. congruence.
  - exfalso. destruct (workers c !! i) as [p|] eqn:Ei; [|done].
    destruct (Hw _ _ Ei) as [-> | ->]; [|done]. eapply (ci_all _ _ Hi); [by rewrite Ex|done].
  - right. split; [done|]. intros i p Hp. apply (ci_join _ _ Hi i p); [by rewrite Ex|done].
Qed.

Section Theorems.
Context (n k : nat) (Hn : 0 < n).
Abbreviation fresh := (λ c, c = init n k).

(** The mutex excludes: at most one thread of the pool, of the clients and of the
    destructor is between taking and releasing it. *)
Theorem cv_mutual_exclusion c : reachable (M := cv_machine) fresh c → holders c ≤ 1.
Proof using. clear Hn. intros Hi%cv_reach. rewrite (ci_mutex _ _ Hi). destruct (m c); lia. Qed.

(** The condition-variable pool executes every submitted task at most once and
    loses none: a task that was not executed is in the queue, with a worker, or
    still with its client. *)
Theorem cv_executes_once c :
  reachable (M := cv_machine) fresh c →
  submitted c ≡ₚ (Some <$> executed c) ++ q c ++ concat (w_hand <$> workers c) ++ concat (s_hand <$> clients c) ∧
  (NoDup (submitted c) → NoDup (executed c)).
Proof using.
  clear Hn. intros Hi%cv_reach. pose proof (ci_tasks _ _ Hi) as Ht. split; [done|].
  rewrite Ht. intros [Hnd _]%NoDup_app. by eapply NoDup_fmap_1.
Qed.

(** While a worker is asleep, every task in the queue has a waker of its own: a
    worker on its way to the queue or a client about to notify. *)
Theorem cv_work_conserving c i :
  reachable (M := cv_machine) fresh c → workers c !! i = Some WBlocked →
  length (q c) ≤ notifying c + heading c.
Proof using.
  clear Hn. intros Hi%cv_reach Hb. destruct (ci_wake _ _ Hi) as [H|]; [by destruct (H i)|done].
Qed.

(** The program is ended by a task that is an empty function, and by nothing else. *)
Theorem cv_abort_only_empty c :
  reachable (M := cv_machine) fresh c → aborted c = true → None ∈ submitted c.
Proof using. clear Hn. intros Hi%cv_reach. by eapply abort_empty. Qed.

(** The destructor runs the tasks that are still queued: when it has returned, all
    submitted tasks were executed and all workers have left. *)
Theorem cv_destructor_drains c :
  reachable (M := cv_machine) fresh c → x_pc c = XDone →
  submitted c ≡ₚ Some <$> executed c ∧ ∀ i p, workers c !! i = Some p → p = WExit.
Proof using Hn.
  intros Hi%cv_reach Hx. assert (∀ i p, workers c !! i = Some p → p = WExit) as Hw.
  { intros i p Hp. apply (ci_join _ _ Hi i p); [by rewrite Hx|done]. }
  split; [|done]. destruct (lookup_lt_is_Some_2 (workers c) 0) as [p Hp]; [by rewrite (ci_len _ _ Hi)|].
  eapply all_executed; eauto.
  - pose proof (ci_worker _ _ Hi _ _ Hp) as Hok. rewrite (Hw _ _ Hp) in Hok. by destruct Hok.
  - intros i p' Hp'. by rewrite (Hw _ _ Hp').
  - intros a s Hs. rewrite (ci_idle _ _ Hi) with a s; [done|by rewrite Hx|done].
Qed.
End Theorems.

(** ** Termination *)

(** The steps that are left, counted so that every internal step uses some up. *)
Definition w_work (p : wpc) : nat :=
  match p with
  | WExit | WBlocked => 0
  | WLeave | WTake => 1
  | WTest => 2
  | WPred => 3
  | WLock | WRelock => 4
  | WCall _ => 5
  | WUnlock _ => 6
  end.
Definition s_work (p : spc) : nat :=
  match p with SIdle => 0 | SNotify => 5 | SUnlock => 6 | SPush _ => 14 | SLock _ => 15 end.
Definition x_work (k : nat) (p : xpc) : nat :=
  match p with
  | XNone | XDone => 0
  | XJoin i => 1 + (k - i)
  | XNotify => 2 + 5 * k
  | XUnlock => 3 + 5 * k
  | XStop => 4 + 5 * k
  | XLock => 5 + 5 * k
  end.
Definition work (c : pool) : nat :=
  sum_list (w_work <$> workers c) + sum_list (s_work <$> clients c) + x_work (length (workers c)) (x_pc c) +
  7 * length (q c) + (if aborted c then 0 else 1).

Lemma release_work (l : list wpc) :
  sum_list (w_work <$> (release <$> l)) ≤ sum_list (w_work <$> l) + 4 * length l.
Proof.
  induction l as [|p l IH]; [done|].
  change (release <$> p :: l) with (release p :: (release <$> l)). rewrite !sum_fmap_cons. destruct p; simpl in *; lia.
Qed.

Lemma worker_work c i p c' :
  aborted c = false → workers c !! i = Some p → worker c i p = Some c' → work c' < work c.
Proof.
  intros Ha Hp He. unfold work. rewrite Ha. pose proof (λ p', sum_fmap_insert w_work _ _ _ p' Hp) as Hsum.
  destruct p as [| | | | | |f|[id|]| |]; simpl in He; try done; step_inv He; rewrite ?length_insert.
  all: match goal with |- context[<[_ := ?p']> _] => specialize (Hsum p') end; simpl in *; try lia.
  destruct (stop c && empty (q c)); simpl in *; lia.
Qed.

Lemma client_work c a s c' :
  aborted c = false → clients c !! a = Some s → submit c a s = Some c' → work c' < work c.
Proof.
  intros Ha Hs He. unfold work. rewrite Ha. pose proof (λ s', sum_fmap_insert s_work _ _ _ s' Hs) as Hsum.
  destruct s; simpl in He; try done; step_inv He; rewrite ?length_app.
  all: match goal with |- context[<[_ := ?s']> _] => specialize (Hsum s') end; simpl in *; lia.
Qed.

Lemma notify_work c a tgt c' :
  aborted c = false → clients c !! a = Some SNotify → notify_one c a tgt = Some c' → work c' < work c.
Proof.
  intros Ha Hs He. unfold work. rewrite Ha. pose proof (sum_fmap_insert s_work _ _ _ SIdle Hs) as Hsum.
  unfold notify_one in He. destruct tgt as [i|].
  - destruct (workers c !! i) as [[]|] eqn:Ei; simplify_eq. simpl. rewrite length_insert.
    pose proof (sum_fmap_insert w_work _ _ _ WRelock Ei). simpl in *. lia.
  - step_inv He. simpl in *. lia.
Qed.

Lemma destructor_work c c' : aborted c = false → destructor c = Some c' → work c' < work c.
Proof.
  intros Ha He. unfold work. rewrite Ha. unfold destructor in He.
  destruct (x_pc c) eqn:Ex; try done; step_inv He; rewrite ?length_fmap; try lia.
  - pose proof (release_work (workers c)). lia.
  - apply lookup_lt_Some in E. lia.
Qed.

Lemma internal_work c a c' : internal a = true → exec c a = Some c' → work c' < work c.
Proof.
  intros Hint He. unfold exec in He. destruct (aborted c) eqn:Ea; [done|].
  destruct a as [| a|a tgt|i| | |]; try done.
  - destruct (clients c !! a) eqn:E; [|done]. by eapply client_work.
  - destruct (clients c !! a) as [[]|] eqn:E; try done. by eapply notify_work.
  - destruct (workers c !! i) eqn:E; [|done]. by eapply worker_work.
  - by apply destructor_work.
Qed.

(** Whether anything can move is decided by looking at every thread. *)
Definition candidates (c : pool) : list act :=
  let cs := List.seq 0 (length (clients c)) in
  let ws := List.seq 0 (length (workers c)) in
  Destructor :: (Client <$> cs) ++ (Work <$> ws) ++
  concat ((λ a, Notify a None :: ((λ i, Notify a (Some i)) <$> ws)) <$> cs).

Lemma candidates_complete c a : internal a = true → is_Some (exec c a) → a ∈ candidates c.
Proof.
  intros Hint [c' He]. unfold exec in He. destruct (aborted c); [done|]. unfold candidates. apply elem_of_cons.
  destruct a as [|a|a tgt|i| | |]; try done; [right; apply elem_of_app|right; apply elem_of_app|right; apply elem_of_app|by left].
  - left. destruct (clients c !! a) eqn:E; [|done]. apply list_elem_of_fmap. exists a. split; [done|].
    apply elem_of_seq. apply lookup_lt_Some in E. lia.
  - right. apply elem_of_app. right. destruct (clients c !! a) as [[]|] eqn:E; try done.
    apply list_elem_of_In, in_concat. eexists. split.
    + apply list_elem_of_In, list_elem_of_fmap. exists a. split; [done|]. apply elem_of_seq. apply lookup_lt_Some in E. lia.
    + apply list_elem_of_In, elem_of_cons. destruct tgt as [i|]; [right|by left]. simpl in He.
      destruct (workers c !! i) eqn:Ei; [|done]. apply list_elem_of_fmap. exists i. split; [done|].
      apply elem_of_seq. apply lookup_lt_Some in Ei. lia.
  - right. apply elem_of_app. left. destruct (workers c !! i) eqn:E; [|done]. apply list_elem_of_fmap. exists i.
    split; [done|]. apply elem_of_seq. apply lookup_lt_Some in E. lia.
Qed.

Definition can_move (c : pool) (a : act) : bool :=
  internal a && match exec c a with Some _ => true | None => false end.

Lemma moves_or_stuck c : stuck c ∨ ∃ a c', internal a = true ∧ exec c a = Some c'.
Proof.
  destruct (existsb (can_move c) (candidates c)) eqn:E.
  - right. apply existsb_exists in E as (a & _ & [Hi He]%andb_true_iff).
    destruct (exec c a) as [c'|] eqn:Ex; [by eauto|done].
  - left. intros a Hint. destruct (exec c a) as [c'|] eqn:Ex; [exfalso|done].
    apply not_true_iff_false in E. apply E. apply existsb_exists. exists a. split.
    + apply list_elem_of_In, candidates_complete; eauto.
    + unfold can_move. by rewrite Hint, Ex.
Qed.

(** Internal steps start no call. *)
Lemma internal_same c a c' :
  internal a = true → exec c a = Some c' → submitted c' = submitted c ∧ (x_pc c = XNone ∨ x_pc c' ≠ XNone).
Proof.
  intros Hint He. unfold exec in He. destruct (aborted c); [done|].
  assert (x_pc c = XNone ∨ x_pc c ≠ XNone) as Hx by (by destruct (x_pc c); auto).
  destruct a as [|a|a tgt|i| | |]; try done.
  - destruct (clients c !! a) as [s|]; [|done]. destruct s; simpl in He; step_inv He; done.
  - destruct (clients c !! a) as [[]|]; try done. unfold notify_one in He. destruct tgt; step_inv He; done.
  - destruct (workers c !! i) as [p|]; [|done]. destruct p as [| | | | | |f|[id|]| |]; simpl in He; step_inv He; done.
  - unfold destructor in He. destruct (x_pc c); try done; step_inv He; auto.
Qed.

Section Termination.
Context (n k : nat) (Hn : 0 < n).
Abbreviation fresh := (λ c, c = init n k).

(** The pool never spins: without new calls and spurious wake-ups, every execution
    from [c] has at most [work c] steps, whatever the scheduler does. *)
Theorem cv_steps_bounded c σ c' :
  Forall (λ a, internal a = true) σ → run (M := cv_machine) c σ = Some c' → length σ + work c' ≤ work c.
Proof using.
  clear Hn. revert c. induction σ as [|a σ IH]; intros c Hf Hr; simpl in Hr; simplify_eq/=; [lia|].
  apply Forall_cons in Hf as [Ha Hf]. destruct (exec c a) as [c1|] eqn:E; [|done].
  pose proof (internal_work c a c1 Ha E). specialize (IH c1 Hf Hr). lia.
Qed.

(** C26. Completion: from every reachable state in which no empty function was submitted,
    the steps of the code alone lead, in at most [work c] steps, to a state in which
    every submitted task has been executed, and the destructor, if it was called, has
    returned. *)
Theorem cv_completes c :
  reachable (M := cv_machine) fresh c → None ∉ submitted c →
  ∃ σ c', Forall (λ a, internal a = true) σ ∧ length σ ≤ work c ∧ run (M := cv_machine) c σ = Some c' ∧
    submitted c' = submitted c ∧ submitted c' ≡ₚ Some <$> executed c' ∧
    (x_pc c = XNone ∨ x_pc c' = XDone).
Proof using Hn.
  intros Hr Hne. remember (work c) as w eqn:Hw. revert c Hr Hne Hw.
  induction w as [w IH] using lt_wf_ind. intros c Hr Hne Hw.
  assert (aborted c = false) as Ha.
  { destruct (aborted c) eqn:E; [|done]. by destruct (Hne (abort_empty n c (cv_reach _ _ _ Hr) E)). }
  destruct (moves_or_stuck c) as [Hs|(a & c1 & Hint & He)].
  - destruct (stuck_done n c Hn (cv_reach _ _ _ Hr) Ha Hs) as (_ & Hsub & Hx).
    exists [], c. split_and!; try done; [simpl; lia|]. destruct Hx as [[? _]|[? _]]; auto.
  - assert (reachable (M := cv_machine) fresh c1) as Hr1 by (by eapply reach_step).
    assert (submitted c1 = submitted c ∧ (x_pc c = XNone ∨ x_pc c1 ≠ XNone)) as [Hsub Hx1]
      by (by eapply internal_same).
    destruct (IH (work c1)) with (c := c1) as (σ & c' & Hf & Hl & Hrun & Hs' & Hp & Hx'); try done.
    + subst w. by eapply internal_work.
    + by rewrite Hsub.
    + pose proof (internal_work c a c1 Hint He). exists (a :: σ), c'. split_and!; try done.
      * by constructor.
      * simpl. lia.
      * simpl. by rewrite He.
      * by rewrite Hs'.
      * destruct Hx1 as [?|Hx1]; [by left|]. destruct Hx' as [?|?]; [done|by right].
Qed.
End Termination.

(** ** Concrete runs *)

(** One worker, one client: a task is submitted and the pool destroyed before the
    worker has looked at the queue. *)
Definition cv_task : list act := Submit 0 (Some 7) :: replicate 3 (Client 0) ++ [Notify 0 None].
Definition cv_sched : list act :=
  cv_task ++ [Destroy] ++ replicate 4 Destructor ++ replicate 10 (Work 0) ++ replicate 2 Destructor.
Definition cv_at (σ : list act) : pool := default (init 1 1) (run (M := cv_machine) (init 1 1) σ).

Lemma cv_at_reach σ :
  runs (M := cv_machine) (init 1 1) σ = true → reachable (M := cv_machine) (λ c, c = init 1 1) (cv_at σ).
Proof.
  intros H. apply (run_reachable cv_machine _ (init 1 1) σ); [by apply reach_init|]. by apply (run_default (M := cv_machine)).
Qed.

Lemma cv_executes_once_witness :
  executed (cv_at cv_sched) = [7] ∧ NoDup (executed (cv_at cv_sched)).
Proof.
  split; [by vm_compute|]. apply (cv_executes_once 1 1 (cv_at cv_sched)); [by apply cv_at_reach; vm_compute|].
  vm_compute. apply NoDup_singleton.
Defined.

Lemma cv_work_conserving_witness :
  let c := cv_at (replicate 2 (Work 0) ++ Submit 0 (Some 7) :: replicate 2 (Client 0)) in
  q c = [Some 7] ∧ length (q c) ≤ notifying c + heading c.
Proof.
  split; [by vm_compute|].
  apply (cv_work_conserving 1 1 (cv_at (replicate 2 (Work 0) ++ Submit 0 (Some 7) :: replicate 2 (Client 0))) 0);
    [by apply cv_at_reach; vm_compute|by vm_compute].
Defined.

Lemma cv_abort_only_empty_witness :
  let c := cv_at (Submit 0 None :: replicate 3 (Client 0) ++ replicate 6 (Work 0)) in
  aborted c = true ∧ None ∈ submitted c.
Proof.
  split; [by vm_compute|].
  apply (cv_abort_only_empty 1 1 (cv_at (Submit 0 None :: replicate 3 (Client 0) ++ replicate 6 (Work 0))));
    [by apply cv_at_reach; vm_compute|by vm_compute].
Defined.

Lemma cv_destructor_drains_witness :
  executed (cv_at (take 10 cv_sched)) = [] ∧ stop (cv_at (take 10 cv_sched)) = true ∧
  submitted (cv_at cv_sched) ≡ₚ Some <$> executed (cv_at cv_sched).
Proof.
  split; [by vm_compute|]. split; [by vm_compute|].
  apply (cv_destructor_drains 1 1 ltac:(lia) (cv_at cv_sched)); [by apply cv_at_reach; vm_compute|by vm_compute].
Defined.

Lemma cv_completes_witness :
  submitted (cv_at cv_task) = [Some 7] ∧ executed (cv_at cv_task) = [] ∧
  ∃ σ c', Forall (λ a, internal a = true) σ ∧ length σ ≤ work (cv_at cv_task) ∧
    run (M := cv_machine) (cv_at cv_task) σ = Some c' ∧ submitted c' = submitted (cv_at cv_task) ∧
    submitted c' ≡ₚ Some <$> executed c' ∧ (x_pc (cv_at cv_task) = XNone ∨ x_pc c' = XDone).
Proof.
  split; [by vm_compute|]. split; [by vm_compute|].
  apply (cv_completes 1 1 ltac:(lia) (cv_at cv_task)); [by apply cv_at_reach; vm_compute|].
  assert (submitted (cv_at cv_task) = [Some 7]) as -> by (by vm_compute).
  intros H. apply list_elem_of_singleton in H. discriminate H.
Defined.

End CondvarPool.
