(* ===== verification/ThreadPoolBench.v ===== *)
(** * The thread-pool benchmark

    Model of [burst] in [src/bench/ThreadPoolComparisonBench.cpp] ([wakeLatency] is
    in [WakeLatency.v]).  The benchmark drives three pools
    through adapters with a [submit] function; [TaskPool] states what it needs of
    them.  [AstraPool] and [CVPool] are the adapters of [ThreadPool] (with accesses to
    memory that interleave, as in [ThreadPool.v]) and [CondvarPool]; the third pool, [BS::thread_pool], is a library of which only
    this interface is known. *)

From Stdlib Require Import ZArith Lia.
From S2P Require Import Prelude MachineInt Lts ThreadGate ThreadPool PoolInvariant PoolTheorems PoolProgress CondvarPool.
Local Open Scope Z_scope.
Local Open Scope astra_scope.

(** ** What the benchmark needs of a pool *)

(** A pool used by one submitting thread.  [tp_submit id] enters [submit] with task
    [id], [tp_outside] tells that the submitter is not inside, [tp_internal] are the
    steps of the pool's code. *)
Class TaskPool := {
  tp_machine : machine;
  tp_start : m_state tp_machine;
  tp_submit : nat → m_act tp_machine;
  tp_internal : m_act tp_machine → bool;
  tp_outside : m_state tp_machine → bool;
  tp_submitted : m_state tp_machine → list nat;
  tp_executed : m_state tp_machine → list nat;
  tp_inv : m_state tp_machine → Prop;

  tp_inv_start : tp_inv tp_start ∧ tp_submitted tp_start = [] ∧ tp_outside tp_start = true;
  tp_enter s id : tp_inv s → tp_outside s = true → ∃ s', m_exec tp_machine s (tp_submit id) = Some s' ∧
    tp_inv s' ∧ tp_submitted s' = tp_submitted s ++ [id] ∧ tp_executed s' = tp_executed s;
  tp_step s a s' : tp_inv s → tp_internal a = true → m_exec tp_machine s a = Some s' →
    tp_inv s' ∧ tp_submitted s' = tp_submitted s ∧ (∃ l, tp_executed s' = tp_executed s ++ l) ∧
    (tp_outside s = true → tp_outside s' = true);
  (** No task is invented or run twice, ... *)
  tp_once s : tp_inv s → tp_executed s ⊆+ tp_submitted s;
  (** ... the pool comes to rest, ... *)
  tp_rests s : tp_inv s → ∃ σ s', Forall (λ a, tp_internal a = true) σ ∧ run (M := tp_machine) s σ = Some s' ∧
    ∀ a, tp_internal a = true → m_exec tp_machine s' a = None;
  (** ... and then no task is forgotten. *)
  tp_stuck s : tp_inv s → (∀ a, tp_internal a = true → m_exec tp_machine s a = None) →
    tp_outside s = true ∧ length (tp_executed s) = length (tp_submitted s);
}.

Section Laws.
Context {P : TaskPool}.

Lemma tp_once_length s : tp_inv s → (length (tp_executed s) <= length (tp_submitted s))%nat.
Proof. intros Hi. by apply submseteq_length, tp_once. Qed.

(** What the steps of the pool do between two calls. *)
Lemma tp_run s σ s' :
  tp_inv s → Forall (λ a, tp_internal a = true) σ → run (M := tp_machine) s σ = Some s' →
  tp_inv s' ∧ tp_submitted s' = tp_submitted s ∧ (tp_outside s = true → tp_outside s' = true).
Proof.
  revert s. induction σ as [|a σ IH]; intros s Hi Hf Hr; simpl in Hr; [by simplify_eq|].
  apply Forall_cons in Hf as [Ha Hf]. destruct (m_exec tp_machine s a) as [s1|] eqn:E; [|done].
  destruct (tp_step s a s1 Hi Ha E) as (Hi1 & Hs1 & _ & Ho1). destruct (IH s1 Hi1 Hf Hr) as (Hi' & Hs' & Ho').
  split_and!; [done|congruence|auto].
Qed.

(** All that was submitted gets done. *)
Lemma tp_drains s : tp_inv s → ∃ σ s', Forall (λ a, tp_internal a = true) σ ∧ run (M := tp_machine) s σ = Some s' ∧
  tp_inv s' ∧ tp_submitted s' = tp_submitted s ∧ tp_outside s' = true ∧ tp_executed s' ≡ₚ tp_submitted s'.
Proof.
  intros Hi. destruct (tp_rests s Hi) as (σ & s' & Hf & Hr & Hs). destruct (tp_run s σ s' Hi Hf Hr) as (Hi' & Hs' & _).
  destruct (tp_stuck s' Hi' Hs) as [Ho Hl]. exists σ, s'. split_and!; try done.
  apply submseteq_length_Permutation; [by apply tp_once|lia].
Qed.
End Laws.

(** ** burst *)

Section Burst.
Context {P : TaskPool} (N : Z).
Context (HN : 0 <= N < 2 ^ 64).

(** The submitter: the [for] test, inside [submit], the spin loop on [done], the
    check, and the end with the outcome of the check. *)
Inductive bpc :=
| BLoop (i : Z)
| BSubmit (i : Z)
| BSpin
| BCheck
| BDone (ok : bool).

(** The pool, the submitter, and [std::atomic<uint64_t> done]. *)
Record bcfg := mkB { b_pool : m_state tp_machine; b_pc : bpc; b_done : Z }.

(** The body of a task: [done.fetch_add(1)], after its delay. *)
Definition task_body (done : Z) (id : nat) : Z := to_u64 (done + 1).

Definition burst_step (c : bcfg) : option bcfg :=
  match b_pc c with
  | BLoop i =>
      if i <? N
      then let? s := m_exec tp_machine (b_pool c) (tp_submit (Z.to_nat i)) in Some (mkB s (BSubmit i) (b_done c))
      else Some (mkB (b_pool c) BSpin (b_done c))
  | BSubmit i => if tp_outside (b_pool c) then Some (mkB (b_pool c) (BLoop (to_u64 (i + 1))) (b_done c)) else None
  | BSpin => Some (mkB (b_pool c) (if b_done c <? N then BSpin else BCheck) (b_done c))
  | BCheck => Some (mkB (b_pool c) (BDone (b_done c =? N)) (b_done c))
  | BDone _ => None
  end.

Inductive bact := Submitter | Pool (a : m_act tp_machine).

(** A step of the pool runs the bodies of the tasks that it executes. *)
Definition burst_exec (c : bcfg) (a : bact) : option bcfg :=
  match a with
  | Submitter => burst_step c
  | Pool a =>
      if tp_internal a
      then let? s := m_exec tp_machine (b_pool c) a in
           Some (mkB s (b_pc c) (foldl task_body (b_done c) (drop (length (tp_executed (b_pool c))) (tp_executed s))))
      else None
  end.

Definition burst_machine : machine := Machine bcfg bact burst_exec.

Definition burst : bcfg := mkB tp_start (BLoop 0) 0.

(** ** Its invariant *)

Definition b_ok (c : bcfg) : Prop :=
  let sub := Z.of_nat (length (tp_submitted (b_pool c))) in
  match b_pc c with
  | BLoop i => 0 <= i <= N ∧ sub = i ∧ tp_outside (b_pool c) = true
  | BSubmit i => 0 <= i < N ∧ sub = i + 1
  | BSpin => sub = N
  | BCheck => sub = N ∧ Z.of_nat (length (tp_executed (b_pool c))) = N
  | BDone ok => ok = true
  end.

Record binv (c : bcfg) : Prop := {
  bi_pool : tp_inv (b_pool c);
  bi_pc : b_ok c;
  bi_done : b_done c = to_u64 (Z.of_nat (length (tp_executed (b_pool c))));
}.

Lemma done_small c :
  binv c → Z.of_nat (length (tp_submitted (b_pool c))) <= N →
  b_done c = Z.of_nat (length (tp_executed (b_pool c))).
Proof using HN.
  intros [Hi _ ->] Hs. pose proof (tp_once_length _ Hi). rewrite uwrap_small; lia.
Qed.

(** Every task counts once. *)
Lemma bodies_count l (k : nat) :
  foldl task_body (to_u64 (Z.of_nat k)) l = to_u64 (Z.of_nat (k + length l)).
Proof using.
  revert k. induction l as [|id l IH]; intros k; [by rewrite Nat.add_0_r|]. simpl. unfold task_body at 2.
  rewrite uwrap_add_l by lia. replace (Z.of_nat k + 1) with (Z.of_nat (S k)) by lia. rewrite IH. do 2 f_equal. lia.
Qed.

Lemma bench_step c c' : binv c → burst_step c = Some c' → binv c'.
Proof using HN.
  intros Hb He. pose proof Hb as [Hi Hok Hdn]. pose proof (tp_once_length _ Hi) as Ho. unfold burst_step in He. unfold b_ok in Hok.
  pose proof (done_small c Hb) as Hd. destruct (b_pc c) as [i|i| | |ok] eqn:Ep; try done.
  - destruct Hok as (Hi0 & Hs & Hout). destruct (Z.ltb_spec i N).
    + destruct (tp_enter _ (Z.to_nat i) Hi Hout) as (s' & Hs' & Hi' & Hsub & Hex). rewrite Hs' in He. simplify_eq.
      split; [done| |by simpl; rewrite Hex]. unfold b_ok. simpl. rewrite Hsub, length_app. simpl. lia.
    + simplify_eq. split; [done| |done]. unfold b_ok. simpl. lia.
  - destruct (tp_outside (b_pool c)) eqn:Eo; [|done]. simplify_eq. split; [done| |done]. unfold b_ok. simpl.
    rewrite uwrap_small by lia. split_and!; [lia..|done].
  - simplify_eq. split; [done| |done]. unfold b_ok. simpl. rewrite Hd by lia.
    destruct (Z.ltb_spec (Z.of_nat (length (tp_executed (b_pool c)))) N); [done|lia].
  - simplify_eq. destruct Hok as [Hs He]. split; [done| |done]. unfold b_ok. simpl.
    rewrite Hd by lia. by apply Z.eqb_eq.
Qed.

Lemma bench_exec c a c' : binv c → burst_exec c a = Some c' → binv c'.
Proof using HN.
  intros Hb He. destruct a as [|a]; simpl in He; [by eapply bench_step|]. destruct (tp_internal a) eqn:Ea; [|done].
  destruct (m_exec tp_machine (b_pool c) a) as [s|] eqn:Es; [|done]. simplify_eq. destruct Hb as [Hi Hok Hdn].
  destruct (tp_step _ _ _ Hi Ea Es) as (Hi' & Hsub & [l Hl] & Hout). pose proof (tp_once_length _ Hi') as Ho.
  split; [done| |simpl; by rewrite Hl, drop_app_length, Hdn, bodies_count, length_app].
  unfold b_ok in *. simpl. rewrite Hsub, Hl, length_app in *. destruct (b_pc c); simpl in *; try done; [by destruct Hok as (? & ? & ?); auto|lia].
Qed.

Abbreviation fresh := (λ c, c = burst).

Lemma bench_reach c : reachable (M := burst_machine) fresh c → binv c.
Proof using HN.
  revert c. apply invariant; [|intros c a c' _; apply bench_exec]. intros c ->.
  destruct tp_inv_start as (Hi & Hs & Ho). pose proof (tp_once_length _ Hi) as Hl. rewrite Hs in Hl. simpl in Hl.
  split; [done| |by simpl; replace (length (tp_executed tp_start)) with 0%nat by lia].
  unfold b_ok. simpl. rewrite Hs. simpl. split_and!; [lia..|done].
Qed.

(** [burst] accounts exactly: its check, that [done] equals [N] after the spin loop,
    never fails, for every pool that keeps the promises of [TaskPool]. *)
Theorem burst_check_passes c ok : reachable (M := burst_machine) fresh c → b_pc c = BDone ok → ok = true.
Proof using HN. intros [_ Hok _]%bench_reach Hp. unfold b_ok in Hok. by rewrite Hp in Hok. Qed.

(** What the submitter has left to do. *)
Definition b_rank (p : bpc) : nat :=
  match p with
  | BLoop i => 3 + 2 * Z.to_nat (N - i)
  | BSubmit i => 2 + 2 * Z.to_nat (N - i)
  | BSpin => 2
  | BCheck => 1
  | BDone _ => 0
  end.

Lemma burst_pool c σ s : Forall (λ a, tp_internal a = true) σ → run (M := tp_machine) (b_pool c) σ = Some s →
  ∃ d, run (M := burst_machine) c (Pool <$> σ) = Some (mkB s (b_pc c) d).
Proof.
  revert c. induction σ as [|a σ IH]; intros [s0 p d0] Hf Hr; simpl in Hr |- *; [simplify_eq; by exists d0|].
  apply Forall_cons in Hf as [Ha Hf]. rewrite Ha. destruct (m_exec tp_machine s0 a) as [s1|]; [|done].
  by apply (IH (mkB s1 p _)).
Qed.

Lemma bench_run c τ c' : binv c → run (M := burst_machine) c τ = Some c' → binv c'.
Proof using HN.
  revert c. induction τ as [|a τ IH]; intros c Hb Hr; simpl in Hr; [by simplify_eq|].
  destruct (burst_exec c a) as [c2|] eqn:E; [|done]. apply (IH c2); [by eapply bench_exec|done].
Qed.

(** Once the pool has done what was submitted, the submitter goes on. *)
Lemma burst_goes_on c : binv c → tp_outside (b_pool c) = true → tp_executed (b_pool c) ≡ₚ tp_submitted (b_pool c) →
  b_pc c = BDone true ∨ ∃ c', burst_step c = Some c' ∧ (b_rank (b_pc c') < b_rank (b_pc c))%nat.
Proof using HN.
  intros Hb Ho Hl%Permutation_length. pose proof Hb as [Hi Hok _]. pose proof (done_small c Hb) as Hd.
  destruct c as [s p d]. unfold burst_step. unfold b_ok in *. simpl in *.
  destruct p as [i|i| | |ok]; [right..|left; congruence].
  - destruct (Z.ltb_spec i N).
    + destruct (tp_enter s (Z.to_nat i) Hi Ho) as (s' & -> & _). eexists. split; [done|]. simpl. lia.
    + eexists. split; [done|]. simpl. lia.
  - rewrite Ho. eexists. split; [done|]. simpl. rewrite uwrap_small by lia. lia.
  - rewrite Hd by lia. rewrite (proj2 (Z.ltb_ge _ _)) by lia. eexists. split; [done|]. simpl. lia.
  - eexists. split; [done|]. simpl. lia.
Qed.

Lemma burst_finishes c : binv c → ∃ σ c', run (M := burst_machine) c σ = Some c' ∧ b_pc c' = BDone true.
Proof using HN.
  remember (b_rank (b_pc c)) as k eqn:Ek. revert c Ek. induction k as [k IH] using lt_wf_ind. intros c -> Hb. pose proof (bi_pool _ Hb) as Hi.
  destruct (tp_drains _ Hi) as (σ & s & Hf & Hr & Hi' & Hsub & Ho & Hp). destruct (burst_pool c σ s Hf Hr) as [d Hr1].
  pose proof (bench_run _ _ _ Hb Hr1) as Hb1. set (c1 := mkB s (b_pc c) d) in *.
  destruct (burst_goes_on c1 Hb1 Ho Hp) as [Hd|(c2 & He & Hlt)]; [by exists (Pool <$> σ), c1|].
  destruct (IH _ Hlt c2 eq_refl) as (τ & c' & Hr2 & Hd); [by eapply bench_step|].
  exists ((Pool <$> σ) ++ Submitter :: τ), c'. split; [|done]. rewrite run_app, Hr1. cbn [run m_exec burst_machine burst_exec].
  by rewrite He.
Qed.

(** C37. [burst] does not hang on a pool that keeps the promises of [TaskPool]: from
    every reachable state it can get to its end, where its check, that [done] is [N],
    passes.  [CondvarPool] keeps them; [ThreadPool] keeps them in executions that
    interleave its accesses to memory (sequential consistency), but on x86 it can lose
    a wake-up, and then [burst] waits for ever. *)
Theorem burst_completes c :
  reachable (M := burst_machine) fresh c → ∃ σ c', run (M := burst_machine) c σ = Some c' ∧ b_pc c' = BDone true.
Proof using HN. intros Hb%bench_reach. by apply burst_finishes. Qed.
End Burst.

(** ** The adapters *)

Section Adapters.
Context (W : nat).

(** [AstraPool<W>]: [submit] is [assignTask]. *)
Definition astra_outside (c : Pool.pool) : bool :=
  match Pool.a_pc c !! 0%nat with Some Pool.AIdle => true | _ => false end.
Record astra_inv (c : Pool.pool) : Prop := {
  as_pool : pool_inv W c;
  as_alive : Pool.x_pc c = Pool.XNone;
  as_client : length (Pool.a_pc c) = 1%nat;
  as_full : full c;
}.

(** What the steps of the pool's threads leave alone. *)
Lemma astra_frame c a c' :
  PoolProgress.internal a = true → Pool.exec c a = Some c' →
  Pool.x_pc c' = Pool.x_pc c ∧ length (Pool.a_pc c') = length (Pool.a_pc c) ∧
  Pool.submitted c' = Pool.submitted c ∧ (∃ l, Pool.executed c' = Pool.executed c ++ l) ∧
  (astra_outside c = true → astra_outside c' = true).
Proof.
  intros Ha He. unfold astra_outside. destruct a as [|a| |i| | | |]; try done; simpl in He.
  - destruct (Pool.a_pc c !! a) as [p|] eqn:Ep; [|done]. unfold Pool.assignTask in He.
    destruct p; simpl in He; step_inv He; rewrite length_insert; (split_and!; try done);
      try (by exists []; rewrite app_nil_r); destruct a as [|a]; try (by rewrite Ep);
      by rewrite list_lookup_insert_ne.
  - unfold Pool.taskDispatcher in He. destruct (Pool.d_pc c); simpl in He; step_inv He;
      (split_and!; try done); by exists []; rewrite app_nil_r.
  - step_inv He. (split_and!; try done); by eexists.
Qed.

Context (HW : Pool.count_ok W).

#[export] Program Instance AstraPool : TaskPool := {|
  tp_machine := Pool.pool_machine;
  tp_start := Pool.ThreadPool W 1;
  tp_submit id := Pool.Assign 0 (Some id);
  tp_internal := PoolProgress.internal;
  tp_outside := astra_outside;
  tp_submitted := Pool.submitted;
  tp_executed := Pool.executed;
  tp_inv := astra_inv;
|}.
Next Obligation.
  split_and!; try done. split; [by apply pool_inv_start|done|done|apply full_start].
Qed.
Next Obligation.
  intros c id [Hi Hx Hl Hf] Ho. unfold astra_outside in Ho. destruct (Pool.a_pc c !! 0%nat) as [[]|] eqn:Ep; try done.
  assert (∃ c', Pool.exec c (Pool.Assign 0 (Some id)) = Some c') as [c' He] by (simpl; rewrite Ep, Hx; eauto).
  exists c'. split; [done|]. pose proof (pool_inv_exec W HW c _ c' Hi He) as Hi'. pose proof (full_assign c 0 id c' Hf He) as Hf'.
  simpl in He. rewrite Ep, Hx in He. simplify_eq. split; [|done]. split; simpl; [done|done| |done]. by rewrite length_insert.
Qed.
Next Obligation.
  intros c a c' [Hi Hx Hl Hf] Ha He. destruct (astra_frame c a c' Ha He) as (H1 & H2 & H3 & H4 & H5).
  split_and!; try done. split; [by eapply pool_inv_exec|congruence..|by eapply full_internal].
Qed.
Next Obligation.
  intros c [Hi _ _ _]. pose proof (pi_c _ _ Hi) as Hc. unfold conserved in Hc. rewrite Hc. solve_submseteq.
Qed.
Next Obligation.
  intros c [Hi Hx Hl Hf]. destruct (pool_rests W HW c Hi Hx Hf) as (σ & c' & H1 & _ & H3 & (Hd & Hw & Ha) & H5 & _).
  exists σ, c'. split_and!; [done|done|]. intros [| | |i| | | |] Hint; try done.
  destruct (decide (i < W)%nat) as [Hlt|Hge]; [by apply Hw|]. simpl.
  rewrite lookup_ge_None_2; [done|]. rewrite (sv_len _ _ (pi_s _ _ H5)). lia.
Qed.
Next Obligation.
  intros c [Hi Hx Hl _] Hs. pose proof (sv_run _ _ (pi_s _ _ Hi)) as Hr. rewrite Hx in Hr.
  destruct (stuck_executed W HW c Hi Hr) as (_ & Hp & Hc).
  { split; [by apply (Hs Pool.Dispatcher)|]. split; intros i; [intros _; by apply (Hs (Pool.Work i))|by apply (Hs (Pool.Client i))]. }
  split; [|by rewrite Hp]. unfold astra_outside. destruct (lookup_lt_is_Some_2 (Pool.a_pc c) 0) as [p Hp0]; [lia|].
  rewrite Hp0. by rewrite (Hc _ _ Hp0).
Qed.

(** [CVPool<W>]: [submit] is that of [CondvarPool]. *)
Definition cv_outside (c : CondvarPool.pool) : bool :=
  match CondvarPool.clients c !! 0%nat with Some CondvarPool.SIdle => true | _ => false end.
Record cv_inv (c : CondvarPool.pool) : Prop := {
  cv_pool : CondvarPool.cinv W c;
  cv_alive : CondvarPool.x_pc c = CondvarPool.XNone;
  cv_client : length (CondvarPool.clients c) = 1%nat;
  cv_tasks : Forall is_Some (CondvarPool.submitted c);
}.
Definition ids (l : list Pool.func) : list nat := omap id l.

Lemma cv_frame c a c' :
  CondvarPool.internal a = true → CondvarPool.exec c a = Some c' → CondvarPool.x_pc c = CondvarPool.XNone →
  CondvarPool.x_pc c' = CondvarPool.XNone ∧ length (CondvarPool.clients c') = length (CondvarPool.clients c) ∧
  CondvarPool.submitted c' = CondvarPool.submitted c ∧
  (∃ l, CondvarPool.executed c' = CondvarPool.executed c ++ l) ∧
  (cv_outside c = true → cv_outside c' = true).
Proof.
  intros Ha He Hx. unfold cv_outside. unfold CondvarPool.exec in He. destruct (CondvarPool.aborted c); [done|].
  destruct a as [|a|a tgt|i| | |]; try done.
  - destruct (CondvarPool.clients c !! a) as [p|] eqn:Ep; [|done].
    destruct p; simpl in He; step_inv He; rewrite length_insert; (split_and!; try done);
      try (by exists []; rewrite app_nil_r); destruct a as [|a]; try (by rewrite Ep);
      by rewrite list_lookup_insert_ne.
  - destruct (CondvarPool.clients c !! a) as [[]|] eqn:Ep; try done. unfold CondvarPool.notify_one in He.
    destruct tgt; step_inv He; rewrite length_insert; (split_and!; try done);
      try (by exists []; rewrite app_nil_r); (destruct a as [|a]; [by rewrite Ep|by rewrite list_lookup_insert_ne]).
  - destruct (CondvarPool.workers c !! i) as [p|]; [|done].
    destruct p as [| | | | | |f|[id|]| |]; simpl in He; step_inv He; (split_and!; try done); by eexists.
  - unfold CondvarPool.destructor in He. by rewrite Hx in He.
Qed.

Lemma ids_length l : Forall is_Some l → length (ids l) = length l.
Proof. induction 1 as [|x l [y ->] _ IH]; [done|]. exact (f_equal S IH). Qed.

Lemma cv_running c : cv_inv c → CondvarPool.aborted c = false.
Proof.
  intros [Hi _ _ Ht]. destruct (CondvarPool.aborted c) eqn:E; [exfalso|done].
  apply (CondvarPool.abort_empty _ _ Hi) in E. rewrite Forall_forall in Ht. by destruct (Ht _ E).
Qed.

Lemma ids_some l : ids (Some <$> l) = l.
Proof. induction l as [|x l IH]; [done|]. exact (f_equal (cons x) IH). Qed.

Lemma cv_once c : cv_inv c → CondvarPool.executed c ⊆+ ids (CondvarPool.submitted c).
Proof.
  intros [Hi _ _ Ht]. pose proof (CondvarPool.ci_tasks _ _ Hi) as Hp. unfold ids. rewrite Hp, omap_app.
  change (omap id (Some <$> CondvarPool.executed c)) with (ids (Some <$> CondvarPool.executed c)).
  rewrite ids_some. solve_submseteq.
Qed.

(** Without a destructor the pool comes to rest in a state of the same kind. *)
Lemma cv_rests c : cv_inv c → ∃ σ c', Forall (λ a, CondvarPool.internal a = true) σ ∧
  run (M := CondvarPool.cv_machine) c σ = Some c' ∧ CondvarPool.stuck c'.
Proof.
  remember (CondvarPool.work c) as k eqn:Ek. revert c Ek. induction k as [k IH] using lt_wf_ind. intros c -> Hc.
  destruct (CondvarPool.moves_or_stuck c) as [Hs|(a & c1 & Ha & He)]; [by exists [], c|].
  destruct Hc as [Hi Hx Hl Ht]. destruct (cv_frame c a c1 Ha He Hx) as (H1 & H2 & H3 & _ & _).
  destruct (IH _ (CondvarPool.internal_work c a c1 Ha He) c1 eq_refl) as (σ & c' & Hf & Hr & Hs).
  { split; [by eapply CondvarPool.cv_exec|done|congruence|by rewrite H3]. }
  exists (a :: σ), c'. split_and!; [by constructor|simpl; by rewrite He|done].
Qed.

#[export] Program Instance CVPool : TaskPool := {|
  tp_machine := CondvarPool.cv_machine;
  tp_start := CondvarPool.init W 1;
  tp_submit id := CondvarPool.Submit 0 (Some id);
  tp_internal := CondvarPool.internal;
  tp_outside := cv_outside;
  tp_submitted c := ids (CondvarPool.submitted c);
  tp_executed := CondvarPool.executed;
  tp_inv := cv_inv;
|}.
Next Obligation.
  split_and!; try done. split; [|done|done|by constructor]. apply (CondvarPool.cv_reach W 1). by apply reach_init.
Qed.
Next Obligation.
  intros c id Hc Ho. pose proof (cv_running c Hc) as Ha. destruct Hc as [Hi Hx Hl Ht]. unfold cv_outside in Ho.
  destruct (CondvarPool.clients c !! 0%nat) as [[]|] eqn:Ep; try done.
  assert (∃ c', CondvarPool.exec c (CondvarPool.Submit 0 (Some id)) = Some c') as [c' He]
    by (unfold CondvarPool.exec; rewrite Ha, Ep, Hx; eauto).
  exists c'. split; [done|]. pose proof (CondvarPool.cv_exec W c _ c' Hi He) as Hi'.
  unfold CondvarPool.exec in He. rewrite Ha, Ep, Hx in He. simplify_eq. simpl. split_and!; [|by unfold ids; rewrite omap_app|done].
  split; simpl; [done|done|by rewrite length_insert|]. apply Forall_app. split; [done|]. by constructor.
Qed.
Next Obligation.
  intros c a c' [Hi Hx Hl Ht] Ha He. destruct (cv_frame c a c' Ha He Hx) as (H1 & H2 & H3 & H4 & H5).
  split_and!; try done; [|by rewrite H3]. split; [by eapply CondvarPool.cv_exec|done|congruence|by rewrite H3].
Qed.
Next Obligation. intros c. apply cv_once. Qed.
Next Obligation. intros c. apply cv_rests. Qed.
Next Obligation.
  intros c Hc Hs. pose proof (cv_running c Hc) as Ha. pose proof Hc as [Hi Hx Hl Ht].
  assert (0 < W)%nat as HW0 by (unfold Pool.count_ok in HW; lia).
  pose proof (CondvarPool.stuck_free _ _ Hi Ha Hs) as Hm.
  destruct (CondvarPool.stuck_done W c HW0 Hi Ha Hs) as (_ & Hp & _). split.
  - unfold cv_outside. destruct (lookup_lt_is_Some_2 (CondvarPool.clients c) 0) as [p Hp0]; [lia|]. rewrite Hp0.
    rewrite (CondvarPool.cv_stuck_client c 0 p); try done. pose proof (CondvarPool.ci_mutex _ _ Hi) as Hh.
    rewrite Hm in Hh. unfold CondvarPool.holders in Hh. pose proof (sum_fmap_ge CondvarPool.s_holds _ _ _ Hp0). lia.
  - rewrite ids_length by done. apply Permutation_length in Hp. by rewrite length_fmap in Hp.
Qed.
End Adapters.

(** [BSPool<W>]: [BS::thread_pool<> p{W}], of which only the interface is known;
    [submit] is its [detach_task]. *)
Definition BSPool (thread_pool : nat → TaskPool) (W : nat) : TaskPool := thread_pool W.

(** ** Concrete runs *)

Lemma bench_one_worker : Pool.count_ok 1.
Proof. unfold Pool.count_ok, INT_MAX. lia. Qed.

Abbreviation CV1 := (CVPool 1 bench_one_worker).
Abbreviation Astra1 := (AstraPool 1 bench_one_worker).

(** One task on a condition-variable pool of one worker. *)
Definition cv_burst_sched : list (bact (P := CV1)) :=
  [Submitter] ++ replicate 3 (Pool (P := CV1) (CondvarPool.Client 0)) ++
  [Pool (P := CV1) (CondvarPool.Notify 0 None); Submitter; Submitter] ++
  replicate 6 (Pool (P := CV1) (CondvarPool.Work 0)) ++ [Submitter; Submitter].
Definition cv_burst_end : bcfg (P := CV1) :=
  default burst (run (M := burst_machine (P := CV1) 1) burst cv_burst_sched).

Lemma burst_check_passes_witness :
  ∃ ok, b_pc cv_burst_end = BDone ok ∧ ok = true.
Proof.
  exists true. split; [by vm_compute|].
  apply (burst_check_passes (P := CV1) 1 ltac:(lia) cv_burst_end true); [|by vm_compute].
  apply (run_reachable (burst_machine (P := CV1) 1) _ burst cv_burst_sched); [by apply reach_init|].
  apply (run_default (M := burst_machine (P := CV1) 1) burst cv_burst_sched burst). by vm_compute.
Defined.

(** The same on AstraLib's pool: everybody sleeps, and it is the submitter's turn. *)
Definition astra_sleep_sched : list (bact (P := Astra1)) :=
  Pool (P := Astra1) <$> (replicate 3 (Pool.Work 0) ++ replicate 3 Pool.Dispatcher).
Definition astra_asleep : bcfg (P := Astra1) :=
  default burst (run (M := burst_machine (P := Astra1) 1) burst astra_sleep_sched).

Lemma burst_completes_witness :
  ∃ σ c', run (M := burst_machine (P := Astra1) 1) astra_asleep σ = Some c' ∧ b_pc c' = BDone true.
Proof.
  apply (burst_completes (P := Astra1) 1 ltac:(lia) astra_asleep).
  apply (run_reachable (burst_machine (P := Astra1) 1) _ burst astra_sleep_sched); [by apply reach_init|].
  apply (run_default (M := burst_machine (P := Astra1) 1) burst astra_sleep_sched burst). by vm_compute.
Defined.
