(* ===== verification/Timer.v ===== *)
(** * Time: unixTimestampNS/MS and Timer

    Model of [src/include/AstraLib/Time/timeNow.hpp] and [timer.hpp].  The
    readings of the clock and of the time stamp counter are arguments; [double]
    is IEEE binary64, with the rounding of [SpecFloat]. *)

From Stdlib Require Import ZArith Lia SpecFloat.
From S2P Require Import Prelude MachineInt.
Local Open Scope Z_scope.

(** ** timeNow.hpp *)

(** [system_clock] counts nanoseconds; [duration_cast] to a coarser unit
    truncates towards zero. *)
Definition unixTimestampNS (now : Z) : Z := now.
Definition unixTimestampMS (now : Z) : Z := Z.quot now 1000000.

(** The millisecond stamp is the nanosecond stamp rounded towards zero: the
    remainder is less than a millisecond and has the sign of the time; the
    stamp never overflows and never goes backwards when the clock does not. *)
Theorem timestamps_agree now now' :
  to_i64 now = now → now <= now' →
  let ns := unixTimestampNS now in
  let ms := unixTimestampMS now in
  Z.abs (ns - ms * 1000000) < 1000000 ∧ Z.abs (ms * 1000000) <= Z.abs ns ∧ 0 <= ms * ns ∧
  to_i64 ms = ms ∧ ms <= unixTimestampMS now'.
Proof.
  intros Hnow Hle.
  unfold unixTimestampNS, unixTimestampMS. simpl.
  pose proof (Z.quot_rem' now 1000000) as Hq. pose proof (Z.rem_bound_abs now 1000000 ltac:(lia)) as Hr.
  assert (Z.abs (now ÷ 1000000 * 1000000) <= Z.abs now ∧ 0 <= now ÷ 1000000 * now) as [H1 H2].
  { destruct (Z.le_gt_cases 0 now).
    - pose proof (Z.rem_nonneg now 1000000 ltac:(lia) ltac:(lia)). nia.
    - pose proof (Z.rem_nonpos now 1000000 ltac:(lia) ltac:(lia)). nia. }
  split_and!; [lia|done|done| |apply Z.quot_le_mono; lia].
  apply swrap_small; [lia|].
  pose proof (swrap_range 64 ltac:(lia) now) as Hb. rewrite Hnow in Hb. change (64 - 1) with 63 in *. lia.
Qed.

Lemma timestamps_agree_witness :
  Z.abs (unixTimestampNS (-1500000) - unixTimestampMS (-1500000) * 1000000) < 1000000 ∧
  unixTimestampMS (-1500000) <= unixTimestampMS 2500000.
Proof.
  pose proof (timestamps_agree (-1500000) 2500000 ltac:(reflexivity) ltac:(lia)) as (H1 & _ & _ & _ & H5).
  exact (conj H1 H5).
Defined.

(** ** Timer *)

(** Binary64, and the conversion of an unsigned integer to it. *)
Abbreviation double := spec_float.
Definition prec : Z := 53.
Definition emax : Z := 1024.
Definition of_u64 (x : Z) : double := binary_normalize prec emax x 0 false.
Definition div (x y : double) : double := SFdiv prec emax x y.

(** [double ghz; uint64_t startTime;] *)
Record Timer := mkTimer { startTime : Z; ghz : double }.

(** [ghz = (t2 - t1) / 1e9] for the two readings around the sleep. *)
Definition setGHz (t1 t2 : Z) : double := div (of_u64 (to_u64 (t2 - t1))) (of_u64 1000000000).

(** The constructor calibrates; [startTime] is not initialised. *)
Definition Timer_init (garbage t1 t2 : Z) : Timer := mkTimer garbage (setGHz t1 t2).

Definition start (t : Timer) (tsc : Z) : Timer := mkTimer tsc (ghz t).

(** [endTime - startTime] in [uint64_t]. *)
Definition getTimeCycles (t : Timer) (tsc : Z) : Z := to_u64 (tsc - startTime t).

Definition getTimeNs (t : Timer) (tsc : Z) : double := div (of_u64 (getTimeCycles t tsc)) (ghz t).

(** What [write] prints: the cycles, the nanoseconds and the microseconds. *)
Definition write_values (t : Timer) (tsc : Z) : Z * double * double :=
  let cycles := getTimeCycles t tsc in
  let ns := div (of_u64 cycles) (ghz t) in
  (cycles, ns, div ns (of_u64 1000)).

(** Elapsed cycles: for a 64-bit counter read [elapsed] ticks after
    [start()], [getTimeCycles] returns exactly [elapsed], whatever was calibrated
    or measured before and even if the counter wrapped around in between. *)
Theorem timer_counts_cycles t counter elapsed :
  0 <= elapsed < 2 ^ 64 →
  getTimeCycles (start t (to_u64 counter)) (to_u64 (counter + elapsed)) = elapsed.
Proof.
  intros He. unfold getTimeCycles, start. simpl.
  destruct (uwrap_cong 64 ltac:(lia) counter) as [k Hk], (uwrap_cong 64 ltac:(lia) (counter + elapsed)) as [k' Hk'].
  rewrite (uwrap_eq_cong 64 ltac:(lia) _ elapsed (k' - k)); [by apply uwrap_small|]. lia.
Qed.

Lemma timer_counts_cycles_witness :
  getTimeCycles (start (mkTimer 5 (of_u64 3)) (to_u64 (2 ^ 64 - 10))) (to_u64 (2 ^ 64 - 10 + 40)) = 40.
Proof. apply (timer_counts_cycles (mkTimer 5 (of_u64 3)) (2 ^ 64 - 10) 40). lia. Defined.

(** A 3 GHz counter: 3000 cycles are 1000 ns and 1 us, exactly. *)
Example timer_three_ghz :
  let t := start (Timer_init 77 1000 3000001000) 5000 in
  ghz t = of_u64 3 ∧ getTimeNs t 8000 = of_u64 1000 ∧ write_values t 8000 = (3000, of_u64 1000, of_u64 1).
Proof. by vm_compute. Qed.

Definition is_finite (x : double) : bool :=
  match x with S754_zero _ | S754_finite _ _ _ => true | _ => false end.

(** Failed calibration: if the counter did not advance during the
    calibration sleep (or advanced by a multiple of 2^64), no reading of the
    timer is a finite number: the division by the zero [ghz] gives an infinity
    or a NaN, in [getTimeNs] and in both times that [write] prints. *)
Theorem timer_uncalibrated garbage counter tsc0 tsc :
  let t := start (Timer_init garbage counter counter) tsc0 in
  is_finite (getTimeNs t tsc) = false ∧
  let '(cycles, ns, us) := write_values t tsc in
  cycles = getTimeCycles t tsc ∧ ns = getTimeNs t tsc ∧ is_finite us = false.
Proof.
  intros t. unfold write_values, getTimeNs.
  assert (ghz t = S754_zero false) as ->.
  { unfold t. simpl. unfold setGHz. by rewrite Z.sub_diag. }
  by destruct (of_u64 (getTimeCycles t tsc)).
Qed.
