(* ===== verification/DebugFunc.v ===== *)
(** * debugMessage

    Model of [src/include/AstraLib/Debug/debugFunc.hpp]: a logging function that
    any number of threads call.  The global [writing] is a spin lock taken with
    [compare_exchange_weak]; between the exchange and the release the function
    sends a sequence of values to [std::cout].

    The state of [std::cout] is the text written so far, the field width (used
    by the next formatted output and then reset) and the fill character (which
    stays).  Each [<<] is one step, so two threads that were both past the
    exchange would mix their lines.  [gettid] and [localtime_r] are not part of
    the repository; they are the arguments [gettid] and [localtime]. *)

From Stdlib Require Import ZArith Lia Ascii String.
From S2P Require Import Prelude Lts Decimal.
Local Open Scope Z_scope.
Local Open Scope astra_scope.

(** ** std::cout *)

Record stream := mkStream { buf : text; width : nat; fill : ascii }.

Definition cout_init : stream := mkStream [] 0 " "%char.

(** Formatted output: right-adjusted in the field, which is then reset. *)
Definition put (x : text) (s : stream) : stream :=
  mkStream (buf s ++ replicate (width s - length x) (fill s) ++ x) 0 (fill s).

Record tm := mkTm { tm_hour : Z; tm_min : Z; tm_sec : Z }.

(** What [debugMessage] sends to the stream. *)
Inductive item :=
| Str (x : text)
| Num (n : Z)
| PutTime (t : tm)
| Setw (n : nat)
| Setfill (c : ascii)
| Endl.

Definition two (n : Z) : text := [digit (n / 10); digit (n mod 10)].
Definition clock_text (t : tm) : text :=
  two (tm_hour t) ++ str ":" ++ two (tm_min t) ++ str ":" ++ two (tm_sec t).
Definition newline : text := [ascii_of_nat 10].

(** [put_time] and [endl] write to the buffer without regard to the width. *)
Definition out (i : item) (s : stream) : stream :=
  match i with
  | Str x => put x s
  | Num n => put (show n) s
  | PutTime t => mkStream (buf s ++ clock_text t) (width s) (fill s)
  | Setw n => mkStream (buf s) n (fill s)
  | Setfill c => mkStream (buf s) (width s) c
  | Endl => mkStream (buf s ++ newline) (width s) (fill s)
  end.

Definition outs (l : list item) (s : stream) : stream := foldl (λ s i, out i s) s l.

(** ** debugMessage *)

Section Code.
Context (gettid : nat → Z) (localtime : Z → tm).

(** A call: the calling thread, the clock (microseconds since the epoch) and
    the arguments. *)
Record msg := mkMsg { m_thread : nat; m_now : Z; m_args : list item }.

(** [duration_cast<microseconds>(...) % 1'000'000], and [to_time_t]. *)
Definition now_us (now : Z) : Z := Z.rem now 1000000.
Definition now_time_t (now : Z) : Z := Z.quot now 1000000.

(** The items of a message, in the order of the [<<]s. *)
Definition items (m : msg) : list item :=
  [Str (str "ThreadID (TID): "); Num (gettid (m_thread m));
   Str (str "["); PutTime (localtime (now_time_t (m_now m)));
   Str (str "."); Setw 6; Setfill "0"%char; Num (now_us (m_now m)); Str (str "] [Debug] ")]
  ++ m_args m ++ [Endl].

(** A thread: outside; at the exchange and, after one that failed, in the body of the
    loop, with its local variable [expected]; writing, with the items still to be
    sent; at the release store when none is left. *)
Inductive dbg_pc :=
| Out
| Spin (m : msg) (expected : bool)
| Failed (m : msg) (expected : bool)
| Writing (m : msg) (rest : list item).

(** [printed] and [called] are read by no code: the messages in the order in
    which their threads acquired [writing], and all calls so far. *)
Record dbg := mkDbg {
  writing : bool;
  cout : stream;
  d_thr : list dbg_pc;
  printed : list msg;
  called : list msg;
}.

(** [Cas t spurious] is one [compare_exchange_weak], which may fail although
    [writing] equals [expected]; one that fails loads [writing] into [expected].
    [Retry t] is the body of the loop, [expected = false] and the [yield]. *)
Inductive dbg_act :=
| DCall (t : nat) (now : Z) (args : list item)
| Cas (t : nat) (spurious : bool)
| Retry (t : nat)
| Send (t : nat).

Definition debugMessage (c : dbg) (a : dbg_act) : option dbg :=
  match a with
  | DCall t now args =>
      match d_thr c !! t with
      | Some Out =>
          let m := mkMsg t now args in
          Some (mkDbg (writing c) (cout c) (<[t := Spin m false]> (d_thr c)) (printed c) (called c ++ [m]))
      | _ => None
      end
  | Cas t spurious =>
      match d_thr c !! t with
      | Some (Spin m expected) =>
          if eqb (writing c) expected && negb spurious
          then Some (mkDbg true (cout c) (<[t := Writing m (items m)]> (d_thr c)) (printed c ++ [m]) (called c))
          else Some (mkDbg (writing c) (cout c) (<[t := Failed m (writing c)]> (d_thr c)) (printed c) (called c))
      | _ => None
      end
  | Retry t =>
      match d_thr c !! t with
      | Some (Failed m expected) =>
          Some (mkDbg (writing c) (cout c) (<[t := Spin m false]> (d_thr c)) (printed c) (called c))
      | _ => None
      end
  | Send t =>
      match d_thr c !! t with
      | Some (Writing m (i :: rest)) =>
          Some (mkDbg (writing c) (out i (cout c)) (<[t := Writing m rest]> (d_thr c))
                      (printed c) (called c))
      | Some (Writing m []) =>
          Some (mkDbg false (cout c) (<[t := Out]> (d_thr c)) (printed c) (called c))
      | _ => None
      end
  end.

Definition dbg_machine : machine := Machine dbg dbg_act debugMessage.

(** [inline std::atomic<bool> writing{false};] *)
Definition dbg_init (n : nat) (c : dbg) : Prop := c = mkDbg false cout_init (replicate n Out) [] [].
End Code.

(** ** One message *)

(** Arguments that are values, not manipulators. *)
Definition plain (i : item) : bool := match i with Str _ | Num _ => true | _ => false end.
Definition item_text (i : item) : text :=
  match i with Str x => x | Num n => show n | _ => [] end.

Lemma put_no_width x s : width s = 0%nat → put x s = mkStream (buf s ++ x) 0 (fill s).
Proof. intros H. unfold put. by rewrite H. Qed.

Lemma outs_plain l b f :
  forallb plain l = true → outs l (mkStream b 0 f) = mkStream (b ++ concat (item_text <$> l)) 0 f.
Proof.
  revert b. induction l as [|i l IH]; intros b Hl; simpl in *; [by rewrite app_nil_r|].
  apply andb_true_iff in Hl as [Hi Hl]. unfold outs in *. simpl.
  destruct i as [x|n| | | |]; simpl; try done; rewrite put_no_width by done; simpl;
    rewrite (IH _ Hl), app_assoc; done.
Qed.

Lemma outs_app l1 l2 s : outs (l1 ++ l2) s = outs l2 (outs l1 s).
Proof. apply foldl_app. Qed.

Section Proofs.
Context (gettid : nat → Z) (localtime : Z → tm).
Abbreviation items := (items gettid localtime).
Abbreviation M := (dbg_machine gettid localtime).

(** The line of a message; the microseconds in a field of six, filled with zeros. *)
Definition line (m : msg) : text :=
  let us := show (now_us (m_now m)) in
  str "ThreadID (TID): " ++ show (gettid (m_thread m)) ++ str "["
  ++ clock_text (localtime (now_time_t (m_now m))) ++ str "." ++ (replicate (6 - length us) "0"%char ++ us)
  ++ str "] [Debug] " ++ concat (item_text <$> m_args m) ++ newline.

Lemma outs_line m b f :
  forallb plain (m_args m) = true →
  outs (items m) (mkStream b 0 f) = mkStream (b ++ line m) 0 "0"%char.
Proof.
  intros Hp. unfold items. rewrite !outs_app.
  set (h := [Str (str "ThreadID (TID): "); _; _; _; _; _; _; _; _]). set (us := show (now_us (m_now m))).
  assert (outs h (mkStream b 0 f) = mkStream (b ++ str "ThreadID (TID): " ++ show (gettid (m_thread m)) ++ str "["
    ++ clock_text (localtime (now_time_t (m_now m))) ++ str "." ++ (replicate (6 - length us) "0"%char ++ us)
    ++ str "] [Debug] ") 0 "0"%char) as ->.
  { unfold h, outs, us. cbn [foldl out buf width fill]. unfold put. cbn [buf width fill].
    rewrite !Nat.sub_0_l. cbn [replicate]. by rewrite !app_nil_l, <- !app_assoc. }
  rewrite outs_plain by done. unfold outs, line, us. cbn [foldl out buf width fill]. by rewrite <- !app_assoc.
Qed.

(** The time stamp that a message leaves in the stream, whatever the fill was before:
    for a clock that is past the epoch it has exactly six digits of microseconds, which
    read back as those of the clock. *)
Theorem debug_microseconds m b f :
  0 <= m_now m → forallb plain (m_args m) = true →
  ∃ field rest,
    buf (outs (items m) (mkStream b 0 f)) = b ++ str "ThreadID (TID): " ++ show (gettid (m_thread m)) ++ str "["
      ++ clock_text (localtime (now_time_t (m_now m))) ++ str "." ++ field ++ str "] [Debug] " ++ rest ∧
    length field = 6%nat ∧ forallb is_digit field = true ∧ parse field = m_now m mod 1000000.
Proof.
  intros Hn Hp. rewrite outs_line by done. eexists _, _. split; [reflexivity|].
  assert (now_us (m_now m) = m_now m mod 1000000) as Hus by (apply Z.rem_mod_nonneg; lia).
  pose proof (Z.mod_pos_bound (m_now m) 1000000 ltac:(lia)) as Hb. rewrite <- Hus in *.
  destruct (show_nonneg (now_us (m_now m))) as (Hpr & Hd & Hl); [lia|]. specialize (Hl 6 ltac:(lia) ltac:(lia)).
  split_and!.
  - rewrite length_app, length_replicate. lia.
  - rewrite forallb_app, Hd, andb_true_r. generalize (6 - length (show (now_us (m_now m))))%nat as k. by induction k.
  - by rewrite parse_zeros.
Qed.

Lemma outs_lines_stream l b f :
  Forall (λ m, forallb plain (m_args m) = true) l →
  outs (concat (items <$> l)) (mkStream b 0 f) =
  mkStream (b ++ concat (line <$> l)) 0 (fill (outs (concat (items <$> l)) (mkStream b 0 f))).
Proof.
  revert b f. induction l as [|m l IH]; intros b f Hl; [by simpl; rewrite app_nil_r|].
  apply Forall_cons in Hl as [Hm Hl]. rewrite !fmap_cons. cbn [concat].
  rewrite outs_app, outs_line by done. by rewrite (IH _ _ Hl), app_assoc.
Qed.

Lemma outs_lines l b f :
  Forall (λ m, forallb plain (m_args m) = true) l →
  buf (outs (concat (items <$> l)) (mkStream b 0 f)) = b ++ concat (line <$> l).
Proof. intros Hl. by rewrite outs_lines_stream. Qed.

(** ** All interleavings *)

Definition is_writing (p : dbg_pc) : bool := match p with Writing _ _ => true | _ => false end.
Definition waiting_msg (p : dbg_pc) : list msg := match p with Spin m _ | Failed m _ => [m] | _ => [] end.

(** The stream holds the messages in the order of the exchanges; the last one
    may still be in progress. *)
Record dbg_inv (c : dbg) : Prop := {
  di_free : writing c = false →
    (∀ t p, d_thr c !! t = Some p → is_writing p = false) ∧
    cout c = outs (concat (items <$> printed c)) cout_init;
  di_busy : writing c = true → ∃ t m sent rest ps,
    d_thr c !! t = Some (Writing m rest) ∧ printed c = ps ++ [m] ∧ items m = sent ++ rest ∧
    cout c = outs (concat (items <$> ps) ++ sent) cout_init ∧
    ∀ t' p, d_thr c !! t' = Some p → is_writing p = true → t' = t;
  di_spin : ∀ t m e, d_thr c !! t = Some (Spin m e) → e = false;
  di_called : printed c ++ concat (waiting_msg <$> d_thr c) ≡ₚ called c;
}.

Lemma dbg_inv_init n c : dbg_init n c → dbg_inv c.
Proof.
  intros ->. split; simpl; [intros _; split; [|done]|done| |].
  - by intros t p [-> _]%lookup_replicate.
  - by intros t m e [? _]%lookup_replicate.
  - by induction n.
Qed.

Lemma dbg_inv_call c t m :
  dbg_inv c → d_thr c !! t = Some Out →
  dbg_inv (mkDbg (writing c) (cout c) (<[t := Spin m false]> (d_thr c)) (printed c) (called c ++ [m])).
Proof.
  intros [Hf Hb Hs Hc] Ht. split; simpl.
  - intros Hw. destruct (Hf Hw) as [H1 H2]. split; [|done].
    intros j p [(<-&<-&_)|(_&Hj)]%lookup_insert_cases; eauto.
  - intros Hw. destruct (Hb Hw) as (j & m' & sent & rest & ps & Hj & Hp & Hi & Ho & Hu).
    exists j, m', sent, rest, ps. split_and!; try done.
    + rewrite list_lookup_insert_ne; [done|]. congruence.
    + intros j' p [(<-&<-&_)|(_&Hj')]%lookup_insert_cases ?; [done|eauto].
  - intros j m' e [(<-&[= -> ->]&_)|(_&Hj)]%lookup_insert_cases; eauto.
  - rewrite <- Hc. pose proof (concat_fmap_insert waiting_msg _ t _ (Spin m false) Ht) as H. simpl in H.
    rewrite H, <- app_assoc. f_equiv. by rewrite Permutation_app_comm.
Qed.

(** A thread that waits moves on in its loop. *)
Lemma dbg_inv_loop c t p q m :
  dbg_inv c → d_thr c !! t = Some p → is_writing p = false → waiting_msg p = [m] → waiting_msg q = [m] →
  is_writing q = false → (∀ m' e, q = Spin m' e → e = false) →
  dbg_inv (mkDbg (writing c) (cout c) (<[t := q]> (d_thr c)) (printed c) (called c)).
Proof.
  intros [Hf Hb Hs Hc] Ht Hwp Hp Hq Hwq He. split; simpl.
  - intros Hw. destruct (Hf Hw) as [H1 H2]. split; [|done].
    intros j p' [(<-&<-&_)|(_&Hj)]%lookup_insert_cases; eauto.
  - intros Hw. destruct (Hb Hw) as (j & m' & sent & rest & ps & Hj & Hpr & Hi & Ho & Hu).
    exists j, m', sent, rest, ps. split_and!; try done.
    + rewrite list_lookup_insert_ne; [done|]. intros ->. by simplify_eq.
    + intros j' p' [(<-&<-&_)|(_&Hj')]%lookup_insert_cases ?; [congruence|eauto].
  - intros j m' e [(<-&E&_)|(_&Hj)]%lookup_insert_cases; eauto.
  - rewrite <- Hc. f_equiv. pose proof (concat_fmap_insert waiting_msg _ t _ q Ht) as H. rewrite Hp, Hq in H.
    by apply Permutation_app_inv_l in H.
Qed.

Lemma dbg_inv_acquire c t m :
  dbg_inv c → d_thr c !! t = Some (Spin m false) → writing c = false →
  dbg_inv (mkDbg true (cout c) (<[t := Writing m (items m)]> (d_thr c)) (printed c ++ [m]) (called c)).
Proof.
  intros [Hf Hb Hs Hc] Ht Hw. destruct (Hf Hw) as [H1 H2]. split; simpl; [done| | |].
  - intros _. exists t, m, [], (items m), (printed c). split_and!; try done.
    + by apply list_lookup_insert_eq, lookup_lt_Some with (Spin m false).
    + by rewrite app_nil_r.
    + intros j p [(<-&<-&_)|(_&Hj)]%lookup_insert_cases Hp; [done|]. by rewrite (H1 _ _ Hj) in Hp.
  - intros j m' e [(_&[=]&_)|(_&Hj)]%lookup_insert_cases. eauto.
  - rewrite <- Hc, <- app_assoc. f_equiv. by rewrite <- (concat_fmap_insert waiting_msg _ t _ (Writing m (items m)) Ht).
Qed.

(** The writer of a state in which somebody writes. *)
Lemma dbg_writer c t m rest :
  dbg_inv c → d_thr c !! t = Some (Writing m rest) → writing c = true ∧ ∃ sent ps,
    printed c = ps ++ [m] ∧ items m = sent ++ rest ∧ cout c = outs (concat (items <$> ps) ++ sent) cout_init ∧
    ∀ t' p, d_thr c !! t' = Some p → is_writing p = true → t' = t.
Proof.
  intros [Hf Hb Hs Hc] Ht. destruct (writing c) eqn:Hw.
  - split; [done|]. destruct (Hb eq_refl) as (j & m' & sent & rest' & ps & Hj & Hp & Hi & Ho & Hu).
    assert (t = j) as <- by eauto. simplify_eq. eauto 10.
  - destruct (Hf eq_refl) as [H1 _]. by specialize (H1 _ _ Ht).
Qed.

Lemma dbg_inv_send c t m rest c' :
  dbg_inv c → d_thr c !! t = Some (Writing m rest) →
  debugMessage gettid localtime c (Send t) = Some c' → dbg_inv c'.
Proof.
  intros Hinv Ht He. pose proof (lookup_lt_Some _ _ _ Ht) as Hlt.
  destruct (dbg_writer c t m rest Hinv Ht) as (Hw & sent & ps & Hp & Hi & Ho & Hu).
  destruct Hinv as [Hf Hb Hs Hc]. simpl in He. rewrite Ht in He.
  pose proof (λ q, concat_fmap_insert waiting_msg _ t _ q Ht) as Hcc. simpl in Hcc.
  destruct rest as [|i rest]; simplify_eq; split; simpl; try congruence.
  - intros _. split.
    + intros j p [(<-&<-&_)|(Hne&Hj)]%lookup_insert_cases; [done|].
      destruct (is_writing p) eqn:Hx; [|done]. by destruct Hne; rewrite (Hu j p Hj Hx).
    + rewrite Ho, Hp, fmap_app, concat_app. cbn [fmap list_fmap concat]. by rewrite Hi, !app_nil_r.
  - intros j m' e [(_&[=]&_)|(_&Hj)]%lookup_insert_cases. eauto.
  - by rewrite (Hcc Out).
  - intros _. exists t, m, (sent ++ [i]), rest, ps. split_and!; try done.
    + by apply list_lookup_insert_eq.
    + by rewrite <- app_assoc.
    + by rewrite Ho, app_assoc, (outs_app _ [i]).
    + intros j p [(<-&<-&_)|(_&Hj)]%lookup_insert_cases Hx; [done|eauto].
  - intros j m' e [(_&[=]&_)|(_&Hj)]%lookup_insert_cases. eauto.
  - by rewrite (Hcc (Writing m rest)).
Qed.

Lemma dbg_inv_step c a c' : dbg_inv c → debugMessage gettid localtime c a = Some c' → dbg_inv c'.
Proof.
  intros Hi He. destruct a as [t now args|t sp|t|t].
  - simpl in He. step_inv He. by apply dbg_inv_call.
  - simpl in He. destruct (d_thr c !! t) as [[|m e|m e|m rest]|] eqn:Et; try done.
    pose proof (di_spin _ Hi _ _ _ Et) as ->. destruct (writing c) eqn:Ew, sp; simpl in He; injection He as <-;
      try (rewrite <- Ew; by eapply (dbg_inv_loop c t (Spin m false))). by apply dbg_inv_acquire.
  - simpl in He. destruct (d_thr c !! t) as [[|m e|m e|m rest]|] eqn:Et; try done. injection He as <-.
    apply (dbg_inv_loop c t (Failed m e) (Spin m false) m); try done. by intros m' e' [= _ <-].
  - pose proof He as He'. simpl in He'. step_inv He'; by eapply dbg_inv_send.
Qed.

Lemma dbg_inv_reachable n c : reachable (M := M) (dbg_init n) c → dbg_inv c.
Proof. apply invariant; [apply dbg_inv_init|]. intros s a s' _ Hi He. by apply (dbg_inv_step s a). Qed.

(** C39. The output of [debugMessage] is that of the calls one after the other,
    under every interleaving, if only [debugMessage] uses [std::cout] and its arguments
    are plain values, not manipulators: at a moment when no thread is printing, [std::cout]
    holds exactly the complete lines of the messages printed so far, in the
    order in which their threads acquired [writing]; while a thread prints, the
    lines of all earlier messages are complete and its own has been sent in part.
    The messages printed and the messages waiting are exactly those that were
    passed to [debugMessage]. *)
Theorem debug_lines_not_interleaved n c :
  reachable (M := M) (dbg_init n) c →
  Forall (λ m, forallb plain (m_args m) = true) (called c) →
  printed c ++ concat (waiting_msg <$> d_thr c) ≡ₚ called c ∧
  ((writing c = false ∧ buf (cout c) = concat (line <$> printed c)) ∨
   (writing c = true ∧ ∃ t m sent rest ps,
      d_thr c !! t = Some (Writing m rest) ∧ printed c = ps ++ [m] ∧ items m = sent ++ rest ∧
      buf (cout c) = buf (outs sent (mkStream (concat (line <$> ps)) 0 (fill (outs (concat (items <$> ps)) cout_init))))
      ∧ ∀ t' p, d_thr c !! t' = Some p → is_writing p = true → t' = t)).
Proof.
  intros Hr Hpl. pose proof (dbg_inv_reachable n c Hr) as [Hf Hb _ Hc]. split; [done|].
  assert (Forall (λ m, forallb plain (m_args m) = true) (printed c)) as Hpp.
  { rewrite <- Hc in Hpl. by apply Forall_app in Hpl as [? _]. }
  destruct (writing c) eqn:Hw.
  - right. split; [done|]. destruct (Hb eq_refl) as (t & m & sent & rest & ps & Ht & Hp & Hi & Ho & Hu).
    exists t, m, sent, rest, ps. split_and!; try done. rewrite Ho, outs_app.
    rewrite Hp in Hpp. apply Forall_app in Hpp as [Hpp _]. 
    by rewrite (outs_lines_stream ps [] " "%char Hpp : outs _ cout_init = _) at 1.
  - left. split; [done|]. destruct (Hf eq_refl) as [_ ->]. apply (outs_lines (printed c) [] " "%char Hpp).
Qed.

(** ** Completion *)

(** Steps that a thread still has to take: the exchange, the items, the release. *)
Definition dbg_work (p : dbg_pc) : nat :=
  match p with Out => 0 | Spin m _ => 2 + length (items m) | Failed m _ => 3 + length (items m) | Writing _ rest => 1 + length rest end.
Definition dbg_total (c : dbg) : nat := sum_list (dbg_work <$> d_thr c).

Lemma dbg_total_insert c t p q :
  d_thr c !! t = Some p →
  (sum_list (dbg_work <$> <[t := q]> (d_thr c)) + dbg_work p = dbg_total c + dbg_work q)%nat.
Proof. apply sum_fmap_insert. Qed.

(** A thread that can move without spinning. *)
Lemma dbg_can_move c :
  dbg_inv c → (0 < dbg_total c)%nat →
  ∃ a c', debugMessage gettid localtime c a = Some c' ∧ (dbg_total c' < dbg_total c)%nat ∧
    called c' = called c.
Proof.
  intros [Hf Hb Hs Hc] Hpos. destruct (writing c) eqn:Hw.
  - destruct (Hb eq_refl) as (t & m & sent & rest & ps & Ht & _).
    exists (Send t). simpl. rewrite Ht. destruct rest as [|i rest]; eexists; split; try done; simpl;
      [pose proof (dbg_total_insert c t _ Out Ht)|pose proof (dbg_total_insert c t _ (Writing m rest) Ht)];
      simpl in *; unfold dbg_total in *; simpl; split; try done; lia.
  - destruct (Hf eq_refl) as [Hn _].
    assert (∃ t m, d_thr c !! t = Some (Spin m false) ∨ ∃ e, d_thr c !! t = Some (Failed m e)) as (t & m & [Ht|[e Ht]]).
    { destruct (decide (Exists (λ p, dbg_work p ≠ 0%nat) (d_thr c))) as [He|He].
      - apply Exists_exists in He as (p & [t Ht]%list_elem_of_lookup & Hp).
        exists t. specialize (Hn _ _ Ht). destruct p as [|m e|m e|]; simpl in *; [lia| |by eauto|done].
        exists m. left. by rewrite <- (Hs _ _ _ Ht).
      - exfalso. apply not_Exists_Forall in He; [|intros ?; apply _]. unfold dbg_total in Hpos.
        assert (sum_list (dbg_work <$> d_thr c) = 0%nat); [|lia].
        induction (d_thr c) as [|p l IH] in He |- *; [done|].
        apply Forall_cons in He as [Hp Hl]. specialize (IH Hl). unfold compose in Hp. rewrite fmap_cons. simpl. lia. }
    + exists (Cas t false). simpl. rewrite Ht, Hw. simpl. eexists. split; [done|].
      pose proof (dbg_total_insert c t _ (Writing m (items m)) Ht). unfold dbg_total in *. simpl in *. split; [lia|done].
    + exists (Retry t). simpl. rewrite Ht. eexists. split; [done|].
      pose proof (dbg_total_insert c t _ (Spin m false) Ht). unfold dbg_total in *. simpl in *. split; [lia|done].
Qed.

(** No deadlock: from every reachable state boundedly many steps (none of
    them a failing exchange) lead to a state in which every call has returned,
    and then every message has been printed exactly once. *)
Theorem debug_completes n c :
  reachable (M := M) (dbg_init n) c →
  ∃ σ c', run (M := M) c σ = Some c' ∧ (length σ <= dbg_total c)%nat ∧
    Forall (λ p, p = Out) (d_thr c') ∧ writing c' = false ∧ printed c' ≡ₚ called c.
Proof.
  intros Hr%dbg_inv_reachable. remember (dbg_total c) as w eqn:Hw.
  revert c Hw Hr. induction w as [w IH] using lt_wf_ind. intros c Hw Hr.
  destruct (decide (w = 0%nat)) as [->|Hne].
  - assert (Forall (λ p, p = Out) (d_thr c)) as Ho.
    { unfold dbg_total in Hw. clear -Hw. induction (d_thr c) as [|p l IH]; [done|].
      rewrite fmap_cons in Hw. cbn [sum_list sum_list_with] in Hw. change (id (dbg_work p)) with (dbg_work p) in Hw.
      constructor; [destruct p; cbn [dbg_work] in Hw; [done|lia..]|apply IH; lia]. }
    exists [], c. split_and!; try done.
    + destruct (writing c) eqn:E; [|done]. destruct (di_busy _ Hr E) as (t & m & s & r & ps & Ht & _).
      by pose proof (Forall_lookup_1 _ _ _ _ Ho Ht).
    + pose proof (di_called _ Hr) as Hc. rewrite <- Hc.
      assert (concat (waiting_msg <$> d_thr c) = []) as ->; [|by rewrite app_nil_r].
      clear -Ho. induction Ho as [|p l -> _ IH]; [done|]. by simpl.
  - destruct (dbg_can_move c Hr) as (a & c1 & He & Hlt & Hcd); [lia|].
    destruct (IH (dbg_total c1) ltac:(lia) c1) as (σ & c' & Hrun & Hl & Ho & Hwr & Hp);
      [done|by eapply dbg_inv_step|].
    exists (a :: σ), c'. simpl. rewrite He. split_and!; try done; [transitivity (S (dbg_total c1)); [exact (le_n_S _ _ Hl)|lia]|]. by rewrite <- Hcd.
Qed.
End Proofs.

(** Two threads: thread 1 acquires first although thread 0 called first; a
    message with a padded argument shows the fill left by the time stamp. *)
Definition ex_tid (t : nat) : Z := 100 + Z.of_nat t.
Definition ex_localtime (s : Z) : tm := mkTm (Z.modulo (s / 3600) 24) (Z.modulo (s / 60) 60) (Z.modulo s 60).
Definition ex_dbg : dbg := mkDbg false cout_init (replicate 2 Out) [] [].
Definition ex_dbg_sched : list dbg_act :=
  [DCall 0 3661000007 [Str (str "x="); Num (-5)]; DCall 1 3661000042 [Str (str "hello")]; Cas 0 true; Retry 0;
   Cas 1 false; Cas 0 false; Retry 0] ++ replicate 12 (Send 1) ++ [Cas 0 false; Send 0].
Definition ex_dbg_at (k : nat) : dbg :=
  default ex_dbg (run (M := dbg_machine ex_tid ex_localtime) ex_dbg (take k ex_dbg_sched)).

Lemma ex_dbg_reach k :
  run (M := dbg_machine ex_tid ex_localtime) ex_dbg (take k ex_dbg_sched) = Some (ex_dbg_at k) →
  reachable (M := dbg_machine ex_tid ex_localtime) (dbg_init 2) (ex_dbg_at k).
Proof. intros H. eapply run_reachable; [|exact H]. by apply reach_init. Qed.

Lemma debug_lines_not_interleaved_witness :
  buf (cout (ex_dbg_at 19)) = str "ThreadID (TID): 101[01:01:01.000042] [Debug] hello" ++ newline.
Proof.
  destruct (debug_lines_not_interleaved ex_tid ex_localtime 2 (ex_dbg_at 19)) as (_ & [(_ & H)|(H & _)]).
  - apply ex_dbg_reach. vm_compute. reflexivity.
  - repeat constructor.
  - rewrite H. vm_compute. reflexivity.
  - vm_compute in H. discriminate H.
Defined.

Lemma debug_microseconds_witness : ∃ field rest,
  str "ThreadID (TID): 101[22:13:20.001234] [Debug] " ++ newline =
    str "ThreadID (TID): 101[22:13:20." ++ field ++ str "] [Debug] " ++ rest ∧ length field = 6%nat ∧ parse field = 1234.
Proof.
  destruct (debug_microseconds ex_tid ex_localtime (mkMsg 1 1700000000001234 []) [] "*"%char) as (field & rest & H1 & H2 & _ & H4);
    [simpl; lia|reflexivity|].
  exists field, rest. split; [exact H1|]. split; [exact H2|exact H4].
Defined.

(** Before the epoch the remainder is negative and the field shows it. *)
Example debug_before_epoch :
  buf (outs (items ex_tid ex_localtime (mkMsg 1 (-5) [])) cout_init) =
    str "ThreadID (TID): 101[00:00:00.0000-5] [Debug] " ++ newline.
Proof. by vm_compute. Qed.

Lemma debug_completes_witness : ∃ σ c',
  run (M := dbg_machine ex_tid ex_localtime) (ex_dbg_at 3) σ = Some c' ∧ printed c' ≡ₚ called (ex_dbg_at 3).
Proof.
  destruct (debug_completes ex_tid ex_localtime 2 (ex_dbg_at 3)) as (σ & c' & H & _ & _ & _ & Hp).
  - apply ex_dbg_reach. vm_compute. reflexivity.
  - exists σ, c'. exact (conj H Hp).
Defined.

(** The fill character stays with [std::cout]: after a message a caller who sets
    a width, and had blanks before, gets zeros. *)
Example debug_fill_stays :
  let s := outs (items ex_tid ex_localtime (mkMsg 0 0 [])) cout_init in
  buf (outs [Setw 4; Str (str "ab")] cout_init) = str "  ab" ∧
  drop (length (buf s)) (buf (outs [Setw 4; Str (str "ab")] s)) = str "00ab".
Proof. by vm_compute. Qed.
