(* ===== verification/BenchHarness.v ===== *)
(** * The benchmark harness: knobs, topology, placement, order of the runs

    Model of the parts of [src/bench/benchCommon.hpp] that decide what is run
    and where: [readKnobs] and [scaled], [detectTopology], [coreCount],
    [pinToCore] and [pinCoordinatorAway], [interleaved], [BENCH_CHECK] and
    [finish].  The environment variables, the files of sysfs and
    [hardware_concurrency()] are arguments. *)

From Stdlib Require Import ZArith Lia Ascii String.
From S2P Require Import Prelude MachineInt Decimal.
Local Open Scope Z_scope.
Local Open Scope astra_scope.

(** ** Knobs *)

Section Knobs.
Context (getenv : string → option text).

(** The lambda [num]. *)
Definition num (k : string) (def : Z) : Z :=
  match getenv k with
  | None => def
  | Some s => let v := strtoull s in if v =? 0 then def else v
  end.

Record knobs := mkKnobs { g_scale : Z; g_mult : Z; g_reps : Z; g_verbose : bool }.

Definition readKnobs : knobs :=
  mkKnobs (num "ASTRA_BENCH_SCALE" 1) (num "ASTRA_BENCH_MULT" 1)
          (to_i32 (num "ASTRA_BENCH_REPS" 7))
          (match getenv "ASTRA_BENCH_VERBOSE" with Some _ => true | None => false end).
End Knobs.

(** [uint64_t] arithmetic; a division by zero is undefined. *)
Definition scaled (g : knobs) (base minimum : Z) : option Z :=
  if g_scale g =? 0 then None
  else let v := to_u64 (base * g_mult g) / g_scale g in
       Some (if v <? minimum then minimum else v).

(** ** Topology *)

(** The loop over the CPUs [c], [c+1], ..., [k] of them: [leaders] so far. *)
Fixpoint leaders_from (sysfs : nat → option text) (k c : nat) (leaders : list Z) : list Z :=
  match k with
  | O => leaders
  | S k' =>
      match sysfs c with
      | None => []
      | Some f =>
          let leader := match scan_u f with Some x => x | None => Z.of_nat c end in
          leaders_from sysfs k' (S c)
            (if bool_decide (leader ∈ leaders) then leaders else leaders ++ [leader])
      end
  end.

Definition detectTopology (sysfs : nat → option text) (hw : nat) : list Z :=
  match leaders_from sysfs hw 0 [] with
  | [] => Z.of_nat <$> List.seq 0 (if (hw =? 0)%nat then 1 else hw)
  | leaders => leaders
  end.

Definition coreCount (g_physCpus : list Z) : Z :=
  match g_physCpus with [] => 1 | _ => to_u32 (Z.of_nat (length g_physCpus)) end.

(** The CPU that the thread is pinned to: [g_physCpus[slot % g_physCpus.size()]]. *)
Definition pinToCore (g_physCpus : list Z) (slot : Z) : option Z :=
  if (length g_physCpus =? 0)%nat then None
  else g_physCpus !! Z.to_nat (slot mod Z.of_nat (length g_physCpus)).

(** [None]: the coordinator is left where it is. *)
Definition pinCoordinatorAway (g_physCpus : list Z) (workersInUse : Z) : option (option Z) :=
  if workersInUse <? coreCount g_physCpus
  then let? c := pinToCore g_physCpus (to_u32 (coreCount g_physCpus - 1)) in Some (Some c)
  else Some None.

(** The affinity mask of [unpin()]: [CPU_SET] ignores a CPU beyond the 1024 of a
    [cpu_set_t]. *)
Definition unpin (hw : nat) : list Z := filter (λ c, c < 1024) (Z.of_nat <$> List.seq 0 hw).

(** ** Order of the runs *)

Section Interleaved.
Context {W V : Type}.

(** A competitor: one call changes the world and returns a sample. *)
Abbreviation competitor := (W → W * V).

(** [for (auto& f : fns) f();] *)
Definition warmup (fns : list competitor) (w : W) : W := foldl (λ w f, (f w).1) w fns.

(** The inner loop, from competitor [i] on: [samples[i].push_back(fns[i]())]. *)
Fixpoint one_rep (fns : list competitor) (i : nat) (w : W) (samples : list (list V)) : W * list (list V) :=
  match fns with
  | [] => (w, samples)
  | f :: fns' => let '(w', s) := f w in one_rep fns' (S i) w' (alter (λ l, l ++ [s]) i samples)
  end.

Fixpoint reps (r : nat) (fns : list competitor) (w : W) (samples : list (list V)) : W * list (list V) :=
  match r with
  | O => (w, samples)
  | S r' => let '(w', samples') := one_rep fns 0 w samples in reps r' fns w' samples'
  end.

(** The samples that are handed to [summarize], one list per competitor. *)
Definition interleaved (g_reps : Z) (fns : list competitor) (w : W) : W * list (list V) :=
  reps (Z.to_nat g_reps) fns (warmup fns w) (replicate (length fns) []).
End Interleaved.

(** ** Accounting *)

(** [BENCH_CHECK] counts the failures; [finish] is the exit status of [main]. *)
Definition BENCH_CHECK (cond : bool) (g_failures : Z) : Z :=
  if negb cond then to_i64 (g_failures + 1) else g_failures.
Definition finish (g_failures : Z) : Z := if negb (g_failures =? 0) then 1 else 0.

(** ** Theorems *)

Lemma num_range getenv k def : 0 < def < 2 ^ 64 → 0 < num getenv k def < 2 ^ 64.
Proof.
  intros Hd. unfold num. destruct (getenv k) as [s|]; [|done].
  pose proof (strtoull_range s). destruct (Z.eqb_spec (strtoull s) 0); lia.
Qed.

(** The amount of work: whatever the environment contains, [scaled] does not
    divide by zero and returns at least the minimum; as long as the product fits
    in 64 bits it returns the base times the multiplier divided by the scale. *)
Theorem scaled_defined getenv base minimum :
  0 <= base → 0 <= minimum < 2 ^ 64 →
  let g := readKnobs getenv in
  ∃ v, scaled g base minimum = Some v ∧ minimum <= v < 2 ^ 64 ∧
    (base * g_mult g < 2 ^ 64 → v = Z.max minimum (base * g_mult g / g_scale g)).
Proof.
  intros Hb Hm g. unfold scaled.
  pose proof (num_range getenv "ASTRA_BENCH_SCALE" 1 ltac:(lia)) as Hs.
  pose proof (num_range getenv "ASTRA_BENCH_MULT" 1 ltac:(lia)) as Hu.
  change (num getenv "ASTRA_BENCH_SCALE" 1) with (g_scale g) in Hs.
  change (num getenv "ASTRA_BENCH_MULT" 1) with (g_mult g) in Hu.
  destruct (Z.eqb_spec (g_scale g) 0); [lia|]. eexists. split; [done|].
  pose proof (uwrap_range 64 ltac:(lia) (base * g_mult g)) as Hr.
  assert (0 <= to_u64 (base * g_mult g) / g_scale g < 2 ^ 64) as Hd.
  { split; [apply Z.div_pos; lia|]. apply Z.div_lt_upper_bound; nia. }
  split; [destruct (Z.ltb_spec (to_u64 (base * g_mult g) / g_scale g) minimum); lia|].
  intros Hf. rewrite uwrap_small in * by nia.
  destruct (Z.ltb_spec (base * g_mult g / g_scale g) minimum); lia.
Qed.

(** A knob set to a positive decimal number is read back as that number. *)
Theorem knob_read_back getenv k def n junk :
  getenv k = Some (show n ++ junk) → 0 < n < 2 ^ 64 →
  match junk with c :: _ => is_digit c = false | [] => True end → num getenv k def = n.
Proof.
  intros Hk Hn Hj. unfold num. rewrite Hk, strtoull_show by (done || lia).
  by destruct (Z.eqb_spec n 0); [lia|].
Qed.

Definition ex_env (k : string) : option text :=
  if String.eqb k "ASTRA_BENCH_SCALE" then Some (str "100")
  else if String.eqb k "ASTRA_BENCH_REPS" then Some (str " +3x") else None.

Lemma scaled_defined_witness :
  ∃ v, scaled (readKnobs ex_env) 4000000 1000 = Some v ∧ v = Z.max 1000 40000.
Proof.
  destruct (scaled_defined ex_env 4000000 1000 ltac:(lia) ltac:(lia)) as (v & H1 & _ & H2).
  exists v. split; [exact H1|]. apply H2. reflexivity.
Defined.

Lemma knob_read_back_witness : num ex_env "ASTRA_BENCH_SCALE" 1 = 100.
Proof. apply (knob_read_back ex_env "ASTRA_BENCH_SCALE" 1 100 []); [reflexivity|lia|exact I]. Defined.

(** The repetitions are narrowed to [int]. *)
Example reps_narrowed :
  g_reps (readKnobs ex_env) = 3 ∧ g_reps (readKnobs (λ _, Some (str "2147483648"))) = - 2 ^ 31.
Proof. by vm_compute. Qed.

(** *** Topology *)

Definition leader_of (sysfs : nat → option text) (c : nat) : Z :=
  match sysfs c with Some f => default (Z.of_nat c) (scan_u f) | None => Z.of_nat c end.

Lemma leaders_from_ok sysfs k c ls :
  NoDup ls →
  NoDup (leaders_from sysfs k c ls) ∧ (length (leaders_from sysfs k c ls) <= length ls + k)%nat ∧
  ((∀ j, (c <= j < c + k)%nat → is_Some (sysfs j)) →
   ∀ x, x ∈ leaders_from sysfs k c ls ↔ x ∈ ls ∨ ∃ j, (c <= j < c + k)%nat ∧ x = leader_of sysfs j).
Proof.
  revert c ls. induction k as [|k IH]; intros c ls Hnd; cbn [leaders_from].
  - split_and!; [done|lia|]. intros _ x. split; [by left|]. intros [?|(j & ? & _)]; [done|lia].
  - destruct (sysfs c) as [f|] eqn:Ef.
    2: { split_and!; [constructor|simpl; lia|]. intros H. destruct (H c ltac:(lia)) as [? E']. by rewrite Ef in E'. }
    change (match scan_u f with Some x => x | None => Z.of_nat c end) with (default (Z.of_nat c) (scan_u f)).
    assert (default (Z.of_nat c) (scan_u f) = leader_of sysfs c) as -> by (unfold leader_of; by rewrite Ef).
    set (ls' := if bool_decide (leader_of sysfs c ∈ ls) then ls else ls ++ [leader_of sysfs c]).
    assert (NoDup ls' ∧ (length ls' <= S (length ls))%nat ∧ ∀ x, x ∈ ls' ↔ x ∈ ls ∨ x = leader_of sysfs c)
      as (Hn' & Hl' & Hx').
    { subst ls'. case_bool_decide as Hin; split_and!; try done; try lia.
      - intros x. split; [by left|]. by intros [?| ->].
      - apply NoDup_app. split; [done|]. split; [|apply NoDup_singleton]. intros x Hx Hx'. apply list_elem_of_singleton in Hx'. by subst.
      - rewrite length_app. simpl. lia.
      - intros x. by rewrite elem_of_app, list_elem_of_singleton. }
    destruct (IH (S c) ls' Hn') as (H1 & H2 & H3). split_and!; [done|lia|].
    intros Hs x. rewrite H3, Hx' by (intros; apply Hs; lia). split.
    + intros [[?| ->]|(j & ? & ->)]; [by left|right; exists c; split; [lia|done]|right; exists j; split; [lia|done]].
    + intros [?|(j & Hj & ->)]; [by left; left|]. destruct (decide (j = c)) as [->|]; [by left; right|].
      right. exists j. split; [lia|done].
Qed.

Lemma seq_cpus_ok k : NoDup (Z.of_nat <$> List.seq 0 k) ∧ length (Z.of_nat <$> List.seq 0 k) = k.
Proof.
  split; [|by rewrite length_fmap, length_seq]. apply NoDup_fmap_2; [intros ???; lia|apply NoDup_seq].
Qed.

Lemma detectTopology_ok sysfs hw :
  NoDup (detectTopology sysfs hw) ∧ (0 < length (detectTopology sysfs hw) <= Nat.max 1 hw)%nat.
Proof.
  unfold detectTopology. destruct (leaders_from_ok sysfs hw 0 [] ltac:(constructor)) as (H1 & H2 & _).
  destruct (leaders_from sysfs hw 0 []) as [|x l]; [|split; [done|simpl in *; lia]].
  destruct (seq_cpus_ok (if (hw =? 0)%nat then 1 else hw)) as [Hn ->].
  split; [done|]. destruct (Nat.eqb_spec hw 0); lia.
Qed.

Lemma coreCount_length cpus :
  cpus ≠ [] → Z.of_nat (length cpus) < 2 ^ 32 → coreCount cpus = Z.of_nat (length cpus).
Proof. intros Hne Hl. destruct cpus; [done|]. apply uwrap_small. lia. Qed.

(** After [unpin()] a thread may run on every CPU that a machine with at most 1024 has. *)
Lemma unpin_everywhere hw c : (hw <= 1024)%nat → c ∈ unpin hw ↔ 0 <= c < Z.of_nat hw.
Proof.
  intros Hhw. unfold unpin. rewrite list_elem_of_filter, list_elem_of_fmap. split.
  - intros (_ & k & -> & Hk%elem_of_seq). lia.
  - intros Hc. split; [lia|]. exists (Z.to_nat c). split; [lia|]. apply elem_of_seq. lia.
Qed.

Lemma pinToCore_small cpus slot :
  0 <= slot < Z.of_nat (length cpus) → pinToCore cpus slot = cpus !! Z.to_nat slot.
Proof.
  intros H. unfold pinToCore. destruct (Nat.eqb_spec (length cpus) 0); [lia|]. by rewrite Z.mod_small.
Qed.

(** Placement: on every machine the harness finds at least one CPU and never
    the same one twice, [pinToCore] never indexes out of bounds, and when there
    are more cores than workers, the workers and the coordinator of [runPinned]
    are pinned to pairwise different CPUs. *)
Theorem placement_disjoint sysfs hw n :
  let cpus := detectTopology sysfs hw in
  Z.of_nat hw < 2 ^ 32 → 0 <= n < coreCount cpus →
  1 <= coreCount cpus <= Z.max 1 (Z.of_nat hw) ∧
  (∀ slot, 0 <= slot → ∃ c, pinToCore cpus slot = Some c ∧ c ∈ cpus) ∧
  ∃ c, pinCoordinatorAway cpus n = Some (Some c) ∧
    (∀ i, 0 <= i < n → pinToCore cpus i ≠ Some c) ∧
    (∀ i j, 0 <= i < n → 0 <= j < n → pinToCore cpus i = pinToCore cpus j → i = j).
Proof.
  intros cpus Hhw Hn. destruct (detectTopology_ok sysfs hw) as [Hnd Hlen]. fold cpus in Hnd, Hlen.
  assert (cpus ≠ []) as Hne by (intros E; rewrite E in Hlen; simpl in Hlen; lia).
  assert (coreCount cpus = Z.of_nat (length cpus)) as Hcc by (apply coreCount_length; [done|lia]).
  assert (∀ slot, 0 <= slot → ∃ c, pinToCore cpus slot = Some c ∧ c ∈ cpus) as Hpin.
  { intros slot Hs. unfold pinToCore. destruct (Nat.eqb_spec (length cpus) 0); [lia|].
    pose proof (Z.mod_pos_bound slot (Z.of_nat (length cpus)) ltac:(lia)).
    destruct (lookup_lt_is_Some_2 cpus (Z.to_nat (slot mod Z.of_nat (length cpus)))) as [c Hc]; [lia|].
    exists c. split; [done|]. by eapply list_elem_of_lookup_2. }
  assert (∀ i j, 0 <= i < Z.of_nat (length cpus) → 0 <= j < Z.of_nat (length cpus) →
    pinToCore cpus i = pinToCore cpus j → i = j) as Hinj.
  { intros i j Hi Hj. rewrite !pinToCore_small by done. intros Heq.
    destruct (lookup_lt_is_Some_2 cpus (Z.to_nat i)) as [c Hc]; [lia|].
    pose proof (NoDup_lookup _ _ _ _ Hnd Hc ltac:(by rewrite <- Heq)). lia. }
  split; [lia|]. split; [done|]. unfold pinCoordinatorAway. destruct (Z.ltb_spec n (coreCount cpus)); [|lia].
  rewrite uwrap_small by lia. destruct (Hpin (coreCount cpus - 1)) as (c & Hc & _); [lia|].
  exists c. rewrite Hc. split; [done|]. split.
  - intros i Hi Heq. enough (i = coreCount cpus - 1) by lia. apply Hinj; [lia|lia|]. by rewrite Heq, Hc.
  - intros i j Hi Hj. apply Hinj; lia.
Qed.

(** One CPU per physical core: when sysfs lists, for every CPU, its siblings
    in increasing order, so that they share the first one ([leader]), the harness
    picks exactly one CPU of every physical core and never two SMT siblings. *)
Theorem one_cpu_per_core sysfs hw (leader : nat → nat) (rest : nat → text) :
  (0 < hw)%nat → Z.of_nat hw < 2 ^ 32 →
  (∀ c, (c < hw)%nat → sysfs c = Some (show (Z.of_nat (leader c)) ++ rest c) ∧
     match rest c with x :: _ => is_digit x = false | [] => True end ∧
     (leader c < hw)%nat ∧ leader (leader c) = leader c) →
  (∀ c, (c < hw)%nat → ∃ p, Z.of_nat p ∈ detectTopology sysfs hw ∧ (p < hw)%nat ∧ leader p = leader c) ∧
  (∀ x y, x ∈ detectTopology sysfs hw → y ∈ detectTopology sysfs hw →
     leader (Z.to_nat x) = leader (Z.to_nat y) → x = y).
Proof.
  intros Hpos Hhw Hs.
  assert (∀ c, (c < hw)%nat → leader_of sysfs c = Z.of_nat (leader c)) as Hl.
  { intros c Hc. destruct (Hs c Hc) as (E & Hr & Hb & _). unfold leader_of.
    rewrite E, scan_u_show by (done || lia). done. }
  destruct (leaders_from_ok sysfs hw 0 [] ltac:(constructor)) as (_ & _ & Hx).
  assert (∀ x, x ∈ leaders_from sysfs hw 0 [] ↔ ∃ j, (j < hw)%nat ∧ x = Z.of_nat (leader j)) as Hin.
  { intros x. rewrite Hx by (intros j Hj; destruct (Hs j) as [-> _]; [lia|eauto]). split.
    - intros [?%not_elem_of_nil|(j & Hj & ->)]; [done|]. exists j. split; [lia|]. apply Hl. lia.
    - intros (j & Hj & ->). right. exists j. split; [lia|]. by rewrite Hl. }
  assert (detectTopology sysfs hw = leaders_from sysfs hw 0 []) as ->.
  { unfold detectTopology. destruct (leaders_from sysfs hw 0 []) as [|x l]; [|done].
    destruct (not_elem_of_nil (Z.of_nat (leader O))). apply Hin. by exists 0%nat. }
  split.
  - intros c Hc. destruct (Hs c Hc) as (_ & _ & Hb & Hid). exists (leader c). split_and!; [|done..].
    apply Hin. by exists c.
  - intros x y (i & Hi & ->)%Hin (j & Hj & ->)%Hin. rewrite !Nat2Z.id.
    destruct (Hs i Hi) as (_ & _ & _ & ->), (Hs j Hj) as (_ & _ & _ & ->). by intros ->.
Qed.

(** Four CPUs on two cores: 0 and 2, 1 and 3. *)
Definition ex_sysfs (c : nat) : option text :=
  nth c [Some (str "0,2"); Some (str "1,3"); Some (str "0,2"); Some (str "1,3")] None.

Lemma placement_disjoint_witness :
  detectTopology ex_sysfs 4 = [0; 1] ∧
  ∃ c, pinCoordinatorAway (detectTopology ex_sysfs 4) 1 = Some (Some c) ∧
    pinToCore (detectTopology ex_sysfs 4) 0 ≠ Some c.
Proof.
  split; [reflexivity|].
  destruct (placement_disjoint ex_sysfs 4 1) as (_ & _ & c & H1 & H2 & _); [lia|by vm_compute|].
  exists c. split; [exact H1|]. apply H2. lia.
Defined.

Lemma one_cpu_per_core_witness :
  ∃ p, Z.of_nat p ∈ detectTopology ex_sysfs 4 ∧ (p < 4)%nat ∧ (p mod 2 = 3 mod 2)%nat.
Proof.
  destruct (one_cpu_per_core ex_sysfs 4 (λ c, c mod 2)%nat (λ c, drop 1 (default [] (ex_sysfs c))))
    as [H _]; [lia|lia| |apply H; lia].
  intros c Hc. do 4 (destruct c as [|c]; [split_and!; try reflexivity; simpl; lia|]). lia.
Defined.

(** *** Order of the runs *)

Section Order.
Context {W V : Type} (fns : list (W → W * V)).
Abbreviation k := (length fns).

(** Reference: call the competitors in the order of a schedule. *)
Fixpoint run_calls (σ : list nat) (w : W) : W * list V :=
  match σ with
  | [] => (w, [])
  | i :: σ' =>
      match fns !! i with
      | Some f => let r := run_calls σ' (f w).1 in (r.1, (f w).2 :: r.2)
      | None => run_calls σ' w
      end
  end.

Lemma run_calls_app σ1 σ2 w :
  run_calls (σ1 ++ σ2) w =
  ((run_calls σ2 (run_calls σ1 w).1).1, (run_calls σ1 w).2 ++ (run_calls σ2 (run_calls σ1 w).1).2).
Proof.
  revert w. induction σ1 as [|i σ1 IH]; intros w; simpl; [by destruct (run_calls σ2 w)|].
  destruct (fns !! i); [by rewrite IH|apply IH].
Qed.

Lemma warmup_calls w : warmup fns w = (run_calls (List.seq 0 k) w).1 ∧ length (run_calls (List.seq 0 k) w).2 = k.
Proof.
  enough (∀ pre suf, fns = pre ++ suf → ∀ w, warmup suf w = (run_calls (List.seq (length pre) (length suf)) w).1 ∧
    length (run_calls (List.seq (length pre) (length suf)) w).2 = length suf) as H by by apply (H [] fns).
  intros pre suf. revert pre. induction suf as [|f suf IH]; intros pre Hf w'; [done|].
  cbn [List.seq length run_calls]. rewrite Hf, list_lookup_middle by done. cbn [fst snd length].
  destruct (IH (pre ++ [f]) ltac:(by rewrite <- app_assoc) (f w').1) as [H1 H2].
  rewrite length_app in H1, H2. simpl in H1, H2. rewrite Nat.add_1_r, <- ?Hf in *. by rewrite <- H1, H2.
Qed.

(** One repetition appends one sample to every list. *)
Lemma one_rep_calls w samples :
  length samples = k →
  (one_rep fns 0 w samples).1 = (run_calls (List.seq 0 k) w).1 ∧
  (one_rep fns 0 w samples).2 = zip_with (λ l s, l ++ [s]) samples (run_calls (List.seq 0 k) w).2.
Proof.
  intros Hs. enough (∀ pre suf, fns = pre ++ suf → ∀ w done todo, length done = length pre → length todo = length suf →
    let r := run_calls (List.seq (length pre) (length suf)) w in
    (one_rep suf (length pre) w (done ++ todo)).1 = r.1 ∧
    (one_rep suf (length pre) w (done ++ todo)).2 = done ++ zip_with (λ l s, l ++ [s]) todo r.2) as H
    by by apply (H [] fns eq_refl w [] samples).
  intros pre suf. revert pre. induction suf as [|f suf IH]; intros pre Hf w' done todo Hd Ht; [by destruct todo|].
  cbn [List.seq length run_calls one_rep]. rewrite Hf, list_lookup_middle by done.
  destruct todo as [|l todo]; [done|]. destruct (f w') as [w1 s] eqn:E. cbn [fst snd].
  rewrite <- Hd, alter_app_r_alt, Nat.sub_diag by done. cbn [zip_with].
  change (alter _ 0%nat (l :: todo)) with ((l ++ [s]) :: todo).
  destruct (IH (pre ++ [f]) ltac:(by rewrite <- app_assoc) w1 (done ++ [l ++ [s]]) todo) as [H1 H2];
    [rewrite !length_app; simpl; lia|simpl in Ht; lia|].
  rewrite length_app, <- Hd, <- !app_assoc in H1, H2. simpl in H1, H2. rewrite Nat.add_1_r, <- ?Hf in *.
  split; [done|]. by rewrite H2, <- app_assoc.
Qed.

Lemma reps_calls r w samples :
  length samples = k →
  let o := (run_calls (concat (replicate r (List.seq 0 k))) w).2 in
  (reps r fns w samples).1 = (run_calls (concat (replicate r (List.seq 0 k))) w).1 ∧
  length o = (r * k)%nat ∧ length (reps r fns w samples).2 = k ∧
  ∀ i l, (reps r fns w samples).2 !! i = Some l → ∃ l0 l1, samples !! i = Some l0 ∧ l = l0 ++ l1 ∧
    length l1 = r ∧ ∀ j, (j < r)%nat → l1 !! j = o !! (j * k + i)%nat.
Proof.
  revert w samples. induction r as [|r IH]; intros w samples Hs o; subst o; cbn [reps replicate concat].
  - split_and!; try done. intros i l Hl. exists l, []. split_and!; try done. by rewrite app_nil_r.
  - destruct (one_rep_calls w samples Hs) as [H1 H2], (warmup_calls w) as [_ Hlen].
    destruct (one_rep fns 0 w samples) as [w1 s1] eqn:E1. simpl in H1, H2. subst w1 s1.
    set (rc := run_calls (List.seq 0 k) w) in *.
    destruct (IH rc.1 (zip_with (λ l s, l ++ [s]) samples rc.2)) as (IH1 & IH2 & IH3 & IH4);
      [by rewrite length_zip_with_l_eq by lia|].
    rewrite run_calls_app. fold rc. cbn [fst snd]. rewrite length_app, Hlen, IH2.
    split_and!; [done|lia|done|]. intros i l Hl. destruct (IH4 i l Hl) as (l0 & l1 & Hl0 & -> & Hl1 & Hj).
    apply lookup_zip_with_Some in Hl0 as (l0' & s & -> & Hi & Hsi).
    exists l0', (s :: l1). split_and!; [done|by rewrite <- app_assoc|simpl; lia|].
    intros [|j] Hjr; simpl.
    + by rewrite lookup_app_l by (by apply lookup_lt_Some in Hsi).
    + rewrite Hj by lia. rewrite lookup_app_r by lia. f_equal. lia.
Qed.

(** Interleaving: [interleaved] calls every competitor once as a warm-up and
    then, [g_reps] times, all of them in turn (A B C A B C ...); the samples of a
    competitor are its results of those rounds, in order, without the warm-up. *)
Theorem interleaved_order g_reps w :
  let o := run_calls (List.seq 0 k ++ concat (replicate (Z.to_nat g_reps) (List.seq 0 k))) w in
  let r := interleaved g_reps fns w in
  r.1 = o.1 ∧ length r.2 = k ∧
  ∀ i l, r.2 !! i = Some l → length l = Z.to_nat g_reps ∧
    ∀ j, (j < Z.to_nat g_reps)%nat → l !! j = o.2 !! (k + j * k + i)%nat.
Proof.
  intros o r. subst o r. unfold interleaved. destruct (warmup_calls w) as [-> Hlen].
  rewrite run_calls_app. set (w1 := (run_calls (List.seq 0 k) w).1).
  destruct (reps_calls (Z.to_nat g_reps) w1 (replicate k [])) as (H1 & H2 & H3 & H4); [by rewrite length_replicate|].
  split_and!; [done|done|]. intros i l Hl. destruct (H4 i l Hl) as (l0 & l1 & [-> _]%lookup_replicate & -> & Hl1 & Hj).
  split; [done|]. intros j Hjr. simpl. rewrite Hj by done. rewrite lookup_app_r by lia. f_equal. lia.
Qed.
End Order.

(** Three competitors that return the number of calls made so far. *)
Example interleaved_three :
  interleaved 2 (replicate 3 (λ w : Z, (w + 1, w))) 0 = (9, [[3; 6]; [4; 7]; [5; 8]]).
Proof. reflexivity. Qed.
