(* ===== verification/Double.v ===== *)
(** * Arithmetic on double

    The operations on IEEE binary64 that the benchmark harness uses beyond those
    of [Timer.v], their order, and how far they move the magnitude of a number:
    what is needed to show that a rate is a number and that an index computed in
    [double] can be converted back. *)

From Stdlib Require Import ZArith Lia SpecFloat.
From stdpp Require Import sorting.
From S2P Require Import Prelude MachineInt Timer.
Local Open Scope Z_scope.
Local Open Scope astra_scope.

(** ** Operations *)

Definition of_i64 (x : Z) : double := binary_normalize prec emax x 0 false.
Definition mul (x y : double) : double := SFmul prec emax x y.
Definition add (x y : double) : double := SFadd prec emax x y.
Definition is_nan (x : double) : bool := match x with S754_nan => true | _ => false end.

(** A decimal literal [n / 10^k]: division rounds correctly, like the compiler. *)
Definition literal (n k : Z) : double := div (of_u64 n) (of_u64 (10 ^ k)).

(** Conversion to [uint64_t] or [size_t]: the fraction is dropped; a value that is
    then out of range is undefined. *)
Definition to_uint (x : double) : option Z :=
  match x with
  | S754_zero _ => Some 0
  | S754_finite s m e =>
      let v := if 0 <=? e then Zpos m * 2 ^ e else Zpos m / 2 ^ (- e) in
      if s then (if v =? 0 then Some 0 else None) else if v <? 2 ^ 64 then Some v else None
  | _ => None
  end.

(** ** Order *)

(** The doubles in increasing order, a NaN above them. *)
Definition key (x : double) : Z * Z * Z :=
  match x with
  | S754_infinity true => (-2, 0, 0)
  | S754_finite true m e => (-1, - e, - Zpos m)
  | S754_zero _ => (0, 0, 0)
  | S754_finite false m e => (1, e, Zpos m)
  | S754_infinity false => (2, 0, 0)
  | S754_nan => (3, 0, 0)
  end.

Definition lex_le (a b : Z * Z * Z) : Prop :=
  a.1.1 < b.1.1 ∨ a.1.1 = b.1.1 ∧ (a.1.2 < b.1.2 ∨ a.1.2 = b.1.2 ∧ a.2 <= b.2).
Definition dle (x y : double) : Prop := lex_le (key x) (key y).

#[global] Instance dle_dec : RelDecision dle.
Proof. intros x y. unfold dle, lex_le. apply _. Defined.

#[global] Instance dle_preorder : PreOrder dle.
Proof. unfold dle, lex_le. split; red; intros; lia. Qed.

#[global] Instance dle_total : Total dle.
Proof. unfold dle, lex_le. intros x y. lia. Qed.

(** Without NaNs this is the comparison of the machine. *)
Lemma SFleb_dle x y : is_nan x = false → is_nan y = false → SFleb x y = true ↔ dle x y.
Proof.
  intros Hx Hy. unfold SFleb, SFcompare, dle, lex_le.
  destruct x as [sx|sx| |sx mx ex], y as [sy|sy| |sy my ey]; try done;
    try destruct sx; try destruct sy; simpl; try (split; [lia|lia || done]);
    fold (Pos.compare mx my); destruct (Z.compare_spec ex ey), (Pos.compare_spec mx my); simpl; split; lia || done.
Qed.

(** ** Magnitude *)

Abbreviation fexp64 := (fexp prec emax).
Abbreviation emin64 := (emin prec emax).

Lemma digits_log2 m : 0 < m → Zdigits2 m = Z.log2 m + 1.
Proof.
  destruct m as [|p|p]; try lia. intros _. cbn [Zdigits2].
  induction p as [p IH|p IH|]; cbn [digits2_pos]; [| |done].
  - rewrite Pos2Z.inj_xI, (Z.log2_succ_double (Zpos p)) by lia. lia.
  - rewrite Pos2Z.inj_xO, (Z.log2_double (Zpos p)) by lia. lia.
Qed.

Lemma shr_1_m r : 0 <= shr_m r → shr_m (shr_1 r) = shr_m r / 2.
Proof. destruct r as [m r s]. simpl. rewrite <- Z.div2_div. by destruct m as [|[]|]. Qed.

Lemma iter_shr_m p r : 0 <= shr_m r → shr_m (SpecFloat.iter_pos shr_1 p r) = shr_m r / 2 ^ Zpos p.
Proof.
  revert r. induction p as [p IH|p IH|]; intros r Hr; cbn [SpecFloat.iter_pos]; [| |by apply shr_1_m].
  - assert (0 <= shr_m (shr_1 r)) by (rewrite shr_1_m by done; apply Z.div_pos; lia).
    assert (0 <= shr_m (SpecFloat.iter_pos shr_1 p (shr_1 r))) by (rewrite IH by done; apply Z.div_pos; lia).
    rewrite !IH, shr_1_m by done. rewrite Pos2Z.inj_xI, !Z.div_div by lia. f_equal.
    replace (2 * Z.pos p + 1) with (1 + (Z.pos p + Z.pos p)) by lia. rewrite !Z.pow_add_r by lia. ring.
  - assert (0 <= shr_m (SpecFloat.iter_pos shr_1 p r)) by (rewrite IH by done; apply Z.div_pos; lia).
    rewrite !IH by done. rewrite Z.div_div, <- Z.pow_add_r by lia. f_equal. f_equal. lia.
Qed.

(** Shifting to the exponent that the format wants. *)
Lemma shr_fexp_spec m e l :
  0 <= m → let k := Z.max 0 (fexp64 (Zdigits2 m + e) - e) in
  shr_m (shr_fexp prec emax m e l).1 = m / 2 ^ k ∧ (shr_fexp prec emax m e l).2 = e + k.
Proof.
  intros Hm k. unfold shr_fexp, shr, k. set (n := fexp64 _ - e).
  assert (shr_m (shr_record_of_loc m l) = m) as Hr by (by destruct l as [|[]]).
  destruct n as [|p|p]; simpl; rewrite ?Z.div_1_r; [split; [done|lia] | |split; [done|lia]].
  rewrite iter_shr_m, Hr by (by rewrite Hr). done.
Qed.

Lemma round_up_or_down m l : round_nearest_even m l = m ∨ round_nearest_even m l = m + 1.
Proof. destruct l as [|[]]; simpl; auto. destruct (Z.even m); auto. Qed.

Lemma log2_div_pow m k : 0 < m → 0 <= k → k <= Z.log2 m → Z.log2 (m / 2 ^ k) = Z.log2 m - k ∧ 0 < m / 2 ^ k.
Proof.
  intros Hm Hk Hl. rewrite <- Z.shiftr_div_pow2, Z.log2_shiftr by lia. split; [lia|].
  rewrite Z.shiftr_div_pow2 by lia. apply Z.div_str_pos. split; [lia|].
  transitivity (2 ^ Z.log2 m); [by apply Z.pow_le_mono_r|]. by apply Z.log2_spec.
Qed.

(** The magnitude: [2^(mag - 1) <= |x| < 2^mag]. *)
Definition mag (m : positive) (e : Z) : Z := Z.log2 (Zpos m) + 1 + e.

Lemma log2_succ_range m : 0 < m → Z.log2 m <= Z.log2 (m + 1) <= Z.log2 m + 1.
Proof. intros Hm. destruct (Z.log2_succ_or m) as [H|H]; rewrite <- Z.add_1_r in H; lia. Qed.

(** One shift to the format: the magnitude stays, unless the number is below the
    range. *)
Lemma shr_fexp_mag m e l :
  0 < m → let g := Z.log2 m + 1 + e in
  let m' := shr_m (shr_fexp prec emax m e l).1 in
  let e' := (shr_fexp prec emax m e l).2 in
  e' = Z.max e (fexp64 g) ∧
  (0 < m' ∧ Z.log2 m' + 1 + e' = g ∨ m' = 0 ∧ e' = emin64 ∧ g <= emin64).
Proof.
  intros Hm g m' e'. destruct (shr_fexp_spec m e l ltac:(lia)) as [H1 H2]. fold m' in H1. fold e' in H2.
  rewrite digits_log2 in H1, H2 by done. fold g in H1, H2. pose proof (Z.log2_nonneg m) as Hl.
  split; [lia|]. set (k := Z.max 0 (fexp64 g - e)) in *.
  destruct (Z.le_gt_cases k (Z.log2 m)) as [Hk|Hk].
  - destruct (log2_div_pow m k Hm ltac:(lia) Hk) as [Hg Hp]. left. rewrite H1. split; [done|]. lia.
  - right. assert (m' = 0) as Hz.
    { rewrite H1. apply Z.div_small. split; [lia|]. pose proof (Z.log2_spec m Hm) as [_ Hb].
      eapply Z.lt_le_trans; [exact Hb|]. apply Z.pow_le_mono_r; lia. }
    unfold fexp, prec in *. split; [done|]. lia.
Qed.

(** Rounding keeps the magnitude or adds one to it. *)
Lemma round_aux_spec s m e l :
  let g := Z.log2 m + 1 + e in
  0 < m → g < emax → e <= emax - prec →
  (∃ m' e', binary_round_aux prec emax s m e l = S754_finite s m' e' ∧
     mag m' e' <= Z.max g emin64 + 1 ∧ (emin64 < g → g <= mag m' e')) ∨
  (binary_round_aux prec emax s m e l = S754_zero s ∧ g <= emin64).
Proof.
  intros g Hm Hg He. unfold binary_round_aux.
  pose proof (shr_fexp_mag m e l Hm) as Hs. fold g in Hs.
  destruct (shr_fexp prec emax m e l) as [r1 e1]. cbn [fst snd] in Hs. destruct Hs as [He1 Hm1].
  set (m2 := round_nearest_even _ _). assert (e1 <= emax - prec ∧ emin64 <= e1) as [Hb1 Hb2]
    by (unfold fexp, emin, prec, emax in *; lia).
  assert (0 < m2 ∧ Z.log2 m2 + 1 + e1 <= Z.max g emin64 + 1 ∧ (emin64 < g → g <= Z.log2 m2 + 1 + e1)
    ∨ m2 = 0 ∧ g <= emin64) as [(Hp & Hu & Hd)|[-> Hz]].
  { destruct (round_up_or_down (shr_m r1) (loc_of_shr_record r1)) as [E|E]; fold m2 in E; rewrite E;
      destruct Hm1 as [[Hp Hl]|(Hz & Hee & Hl)].
    - left. lia.
    - right. lia.
    - left. pose proof (log2_succ_range _ Hp). lia.
    - left. rewrite Hz. simpl. lia. }
  - left. pose proof (shr_fexp_mag m2 e1 loc_Exact Hp) as Hs. set (g2 := Z.log2 m2 + 1 + e1) in *.
    destruct (shr_fexp prec emax m2 e1 loc_Exact) as [r2 e2]. cbn [fst snd] in Hs. destruct Hs as [He2 Hm2].
    pose proof (Z.log2_nonneg m2). destruct Hm2 as [[Hp2 Hl2]|(Hz & Hee & Hl)]; [|lia].
    destruct (shr_m r2) as [|p|p] eqn:Ep; try lia.
    assert (e2 <= emax - prec) as Hle by (unfold fexp, emin, prec, emax in *; lia).
    apply Z.leb_le in Hle. rewrite Hle. exists p, e2. split; [done|]. unfold mag. lia.
  - right. split; [|done]. unfold shr_fexp, shr. cbn [Zdigits2 shr_record_of_loc].
    assert (fexp64 (0 + e1) - e1 <= 0) as Hk by (unfold fexp, emin, prec, emax in *; lia).
    by destruct (fexp64 (0 + e1) - e1).
Qed.

(** Positive numbers between two magnitudes. *)
Definition within (a b : Z) (x : double) : Prop :=
  ∃ m e, x = S754_finite false m e ∧ a <= mag m e <= b.

Lemma mag_within_mono a b a' b' x : within a b x → a' <= a → b <= b' → within a' b' x.
Proof. intros (m & e & -> & H) ??. exists m, e. split; [done|lia]. Qed.

Lemma within_not_nan a b x : within a b x → is_nan x = false.
Proof. by intros (m & e & -> & _). Qed.

(** Numbers far from the limits of the format are rounded to numbers. *)
Lemma round_aux_within a b m e l :
  0 < m → a <= Z.log2 m + 1 + e <= b → -1000 <= a → b <= 900 → within a (b + 1) (binary_round_aux prec emax false m e l).
Proof.
  intros Hm Hg Ha Hb. pose proof (Z.log2_nonneg m) as Hn.
  destruct (round_aux_spec false m e l Hm) as [(m' & e' & -> & H1 & H2)|[_ H]];
    [unfold emax; lia|unfold emax, prec; lia| |unfold emin, emax, prec in *; lia].
  exists m', e'. split; [done|]. unfold emin, emax, prec in *. lia.
Qed.

Lemma iter_xO m d : Zpos (Pos.iter xO m d) = Zpos m * 2 ^ Zpos d.
Proof.
  induction d as [|d IH] using Pos.peano_ind; [simpl; lia|].
  rewrite Pos.iter_succ, Pos2Z.inj_xO, IH, Pos2Z.inj_succ, Z.pow_succ_r by lia. ring.
Qed.

(** Alignment to a smaller exponent keeps the value. *)
Lemma shl_align_spec m e e' :
  let r := shl_align m e e' in
  Z.log2 (Zpos r.1) + r.2 = Z.log2 (Zpos m) + e ∧ r.2 = Z.min e e'.
Proof.
  unfold shl_align. destruct (e' - e) as [|d|d] eqn:E; cbn [fst snd]; [split; [done|lia]..|].
  rewrite iter_xO, Z.log2_mul_pow2 by lia. lia.
Qed.

Lemma binary_round_within a b m e :
  a <= mag m e <= b → -1000 <= a → b <= 900 → within a (b + 1) (binary_round prec emax false m e).
Proof.
  intros Hg Ha Hb. unfold binary_round. pose proof (shl_align_spec m e (fexp64 (Zpos (digits2_pos m) + e))) as [H1 _].
  destruct (shl_align _ _ _) as [m' e']. cbn [fst snd] in H1. unfold mag in Hg. apply round_aux_within; lia.
Qed.

Lemma of_u64_within k x : 0 < x < 2 ^ k → k <= 800 → within 1 (k + 1) (of_u64 x).
Proof.
  intros [Hx Hk] Hk'. unfold of_u64, binary_normalize. destruct x as [|p|p]; try lia.
  apply Z.log2_lt_pow2 in Hk; [|lia]. pose proof (Z.log2_nonneg (Zpos p)).
  apply binary_round_within; unfold mag; lia.
Qed.

Lemma mul_within a b c d x y :
  within a b x → within c d y → -1000 <= a + c - 1 → b + d <= 900 → within (a + c - 1) (b + d + 1) (mul x y).
Proof.
  intros (mx & ex & -> & Hx) (my & ey & -> & Hy) Hl Hu. unfold mul, SFmul, mag in *.
  pose proof (Z.log2_mul_below (Zpos mx) (Zpos my) ltac:(lia) ltac:(lia)).
  pose proof (Z.log2_mul_above (Zpos mx) (Zpos my) ltac:(lia) ltac:(lia)).
  apply round_aux_within; rewrite ?Pos2Z.inj_mul; lia.
Qed.

Lemma log2_add_range x y : 0 < x → 0 < y →
  Z.max (Z.log2 x) (Z.log2 y) <= Z.log2 (x + y) <= Z.max (Z.log2 x) (Z.log2 y) + 1.
Proof.
  intros Hx Hy. pose proof (Z.log2_le_mono x (x + y)). pose proof (Z.log2_le_mono y (x + y)).
  assert (Z.log2 (x + y) < Z.max (Z.log2 x) (Z.log2 y) + 2); [|lia].
  apply Z.log2_lt_pow2; [lia|]. pose proof (Z.log2_spec x Hx). pose proof (Z.log2_spec y Hy).
  assert (∀ z, z <= Z.max (Z.log2 x) (Z.log2 y) → 2 ^ Z.succ z <= 2 ^ (Z.max (Z.log2 x) (Z.log2 y) + 1)) as Hp
    by (intros; apply Z.pow_le_mono_r; lia).
  pose proof (Hp (Z.log2 x)). pose proof (Hp (Z.log2 y)). pose proof (Z.log2_nonneg x).
  replace (Z.max (Z.log2 x) (Z.log2 y) + 2) with (Z.succ (Z.max (Z.log2 x) (Z.log2 y) + 1)) by lia.
  rewrite (Z.pow_succ_r _ (_ + 1)) by lia. lia.
Qed.

Lemma add_within a b c d x y :
  within a b x → within c d y → -1000 <= Z.max a c → Z.max b d <= 800 →
  within (Z.max a c) (Z.max b d + 2) (add x y).
Proof.
  intros (mx & ex & -> & Hx) (my & ey & -> & Hy) Hl Hu. unfold add, SFadd, mag in *. cbn [cond_Zopp].
  destruct (shl_align_spec mx ex (Z.min ex ey)) as [Hx1 Hx2], (shl_align_spec my ey (Z.min ex ey)) as [Hy1 Hy2].
  set (px := fst (shl_align mx _ _)) in *. set (py := fst (shl_align my _ _)) in *.
  pose proof (log2_add_range (Zpos px) (Zpos py) ltac:(lia) ltac:(lia)) as Hs.
  change (Zpos px + Zpos py) with (Zpos (px + py)) in *. cbn [binary_normalize]. rewrite Hx2 in Hx1. rewrite Hy2 in Hy1.
  replace (Z.max b d + 2) with (Z.max b d + 1 + 1) by lia. clearbody px py.
  apply binary_round_within; [|lia|lia]. unfold mag.
  change (Z.max a c <= Z.log2 (Zpos (px + py)) + 1 + Z.min ex ey <= Z.max b d + 1). lia.
Qed.

Lemma log2_div_range x y : 0 < y → Z.log2 y < Z.log2 x →
  0 < x / y ∧ Z.log2 x - Z.log2 y - 1 <= Z.log2 (x / y) <= Z.log2 x - Z.log2 y.
Proof.
  intros Hy Hl. pose proof (Z.log2_nonneg y) as Hny. assert (0 < x) as Hx.
  { destruct (Z.le_gt_cases x 0) as [Hn|]; [|done]. rewrite (Z.log2_nonpos x Hn) in Hl. lia. }
  pose proof (Z.log2_spec x Hx) as [X1 X2]. pose proof (Z.log2_spec y Hy) as [Y1 Y2].
  assert (2 ^ (Z.log2 x - Z.log2 y - 1) <= x / y) as Hlo.
  { apply Z.div_le_lower_bound; [done|]. transitivity (2 ^ Z.log2 x); [|done].
    replace (Z.log2 x) with (Z.succ (Z.log2 y) + (Z.log2 x - Z.log2 y - 1)) at 2 by lia.
    rewrite Z.pow_add_r by lia. apply Z.mul_le_mono_nonneg_r; [apply Z.pow_nonneg; lia|lia]. }
  assert (x / y < 2 ^ Z.succ (Z.log2 x - Z.log2 y)) as Hhi.
  { apply Z.div_lt_upper_bound; [done|]. eapply Z.lt_le_trans; [exact X2|].
    replace (Z.succ (Z.log2 x)) with (Z.log2 y + Z.succ (Z.log2 x - Z.log2 y)) by lia.
    rewrite Z.pow_add_r by lia. apply Z.mul_le_mono_nonneg_r; [apply Z.pow_nonneg; lia|lia]. }
  assert (0 < 2 ^ (Z.log2 x - Z.log2 y - 1)) by (apply Z.pow_pos_nonneg; lia).
  split; [lia|]. split; [apply Z.log2_le_pow2; lia|]. apply Z.lt_succ_r, Z.log2_lt_pow2; lia.
Qed.

Lemma div_within a b c d x y :
  within a b x → within c d y → -1000 <= a - d → b - c + 1 <= 900 → within (a - d) (b - c + 2) (div x y).
Proof.
  intros (mx & ex & -> & Hx) (my & ey & -> & Hy) Hl Hu. unfold div, SFdiv, SFdiv_core_binary, mag in *.
  rewrite !digits_log2 by lia. set (e' := Z.min _ (ex - ey)). set (s := ex - ey - e').
  assert (0 <= s ∧ Z.log2 (Zpos my) < Z.log2 (Zpos mx) + s) as [Hs Hq] by (unfold s, e', fexp, emin, emax, prec; lia).
  assert (match s with 0 => Zpos mx | Zpos _ => Zpos mx ≪ s | Zneg _ => 0 end = Zpos mx * 2 ^ s) as ->.
  { destruct s; [lia|apply Z.shiftl_mul_pow2; lia|lia]. }
  assert (Z.div_eucl (Zpos mx * 2 ^ s) (Zpos my) = ((Zpos mx * 2 ^ s) / Zpos my, (Zpos mx * 2 ^ s) mod Zpos my)) as ->.
  { unfold Z.div, Z.modulo. by destruct (Z.div_eucl _ _). }
  pose proof (log2_div_range (Zpos mx * 2 ^ s) (Zpos my) ltac:(lia)) as Hd. rewrite Z.log2_mul_pow2 in Hd by lia.
  destruct Hd as [Hp Hd]; [lia|]. replace (b - c + 2) with (b - c + 1 + 1) by lia.
  apply round_aux_within; [done|lia|lia|lia].
Qed.

Lemma to_uint_within a b x : within a b x → b <= 64 → ∃ v, to_uint x = Some v ∧ 0 <= v < 2 ^ 64.
Proof.
  intros (m & e & -> & H) Hb. unfold to_uint, mag in *. pose proof (Z.log2_spec (Zpos m) ltac:(lia)) as [_ Hm].
  pose proof (Z.log2_nonneg (Zpos m)).
  set (v := if 0 <=? e then _ else _). assert (0 <= v < 2 ^ 64) as Hv; [|exists v; destruct (Z.ltb_spec v (2 ^ 64)); [done|lia]].
  unfold v. destruct (Z.leb_spec 0 e).
  - split; [lia|]. apply Z.lt_le_trans with (2 ^ Z.succ (Z.log2 (Zpos m)) * 2 ^ e).
    + apply Z.mul_lt_mono_pos_r; [apply Z.pow_pos_nonneg; lia|done].
    + rewrite <- Z.pow_add_r by lia. apply Z.pow_le_mono_r; lia.
  - split; [apply Z.div_pos; [lia|apply Z.pow_pos_nonneg; lia]|].
    apply Z.div_lt_upper_bound; [apply Z.pow_pos_nonneg; lia|]. rewrite <- Z.pow_add_r by lia.
    eapply Z.lt_le_trans; [exact Hm|]. apply Z.pow_le_mono_r; lia.
Qed.

Lemma div_self m e : div (S754_finite false m e) (S754_finite false m e) = of_u64 1.
Proof.
  unfold div, SFdiv, SFdiv_core_binary. rewrite !Z.sub_diag.
  change (Z.min (fexp64 0) 0) with (-53). change (0 - -53) with 53. cbv iota. rewrite Z.shiftl_mul_pow2 by lia.
  assert (Z.div_eucl (Zpos m * 2 ^ 53) (Zpos m) = (2 ^ 53, 0)) as ->.
  { pose proof (Z.div_mul (2 ^ 53) (Zpos m) ltac:(lia)) as Hd. pose proof (Z.mod_mul (2 ^ 53) (Zpos m) ltac:(lia)) as Hm.
    rewrite Z.mul_comm in Hd, Hm. unfold Z.div, Z.modulo in Hd, Hm. destruct (Z.div_eucl _ _). by subst. }
  unfold new_location, new_location_even, new_location_odd. destruct (Z.even (Zpos m)); by vm_compute.
Qed.
