(* ===== verification/BenchStats.v ===== *)
(** * The statistics of the benchmark harness

    Model of [Stat], [summarize], [percentile], [calibrateTsc], [cyclesToNs] and
    [Row] with the contents of [printTable] in [src/bench/benchCommon.hpp].
    [double] is IEEE binary64 as in [Timer.v]; what [std::sort] leaves undefined
    (a NaN among the values is not ordered) and what reads outside a vector is
    [None]. *)

From Stdlib Require Import ZArith Lia Ascii String SpecFloat.
From stdpp Require Import sorting.
From S2P Require Import Prelude MachineInt Decimal Timer Double.
Local Open Scope Z_scope.
Local Open Scope astra_scope.

(** ** std::sort *)

Definition std_sort (v : list double) : option (list double) :=
  if forallb (λ x, negb (is_nan x)) v then Some (merge_sort dle v) else None.

(** ** Statistics *)

Record Stat := mkStat { median : double; lo : double; hi : double }.

Definition summarize (v : list double) : option Stat :=
  let? v := std_sort v in
  let n := length v in
  let? med := (if Nat.odd n then v !! (n / 2)%nat
               else if (n =? 0)%nat then None
               else let? a := v !! (n / 2 - 1)%nat in
                    let? b := v !! (n / 2)%nat in
                    Some (div (add a b) (of_u64 2))) in
  let? front := v !! 0%nat in
  let? back := v !! (n - 1)%nat in
  Some (mkStat med front back).

(** [size_t(p * double(sorted.size() - 1) + 0.5)] *)
Definition percentile_index (size : nat) (p : double) : option Z :=
  to_uint (add (mul p (of_u64 (Z.of_nat size - 1))) (literal 5 1)).

Definition percentile (sorted : list double) (p : double) : option double :=
  if (length sorted =? 0)%nat then Some (S754_zero false)
  else let? idx := percentile_index (length sorted) p in
       sorted !! Z.to_nat (Z.min idx (Z.of_nat (length sorted) - 1)).

(** ** Time stamp counter *)

(** [while (nowNs() - n0 < 200'000'000) _mm_pause();] over the readings of the
    clock that are to come: what is left of them after the loop. *)
Fixpoint wait_200ms (n0 : Z) (clock : list Z) : option (list Z) :=
  match clock with
  | [] => None
  | n :: clock' => if n - n0 <? 200000000 then wait_200ms n0 clock' else Some clock'
  end.

(** [clock] and [tsc] are the readings of [nowNs()] and [__rdtsc()], in order. *)
Definition calibrateTsc (clock tsc : list Z) : option double :=
  match clock, tsc with
  | n0 :: clock', t0 :: t1 :: _ =>
      let? rest := wait_200ms n0 clock' in
      let? n1 := rest !! 0%nat in
      Some (div (of_u64 (to_u64 (t1 - t0))) (of_i64 (n1 - n0)))
  | _, _ => None
  end.

Definition cyclesToNs (g_tscPerNs : double) (c : Z) : double := div (of_u64 c) g_tscPerNs.

(** ** Rates and tables *)

(** [double(N) * 1e3 / double(ns)]: how every benchmark turns a count and a
    duration into millions per second. *)
Definition rate (N ns : Z) : double := div (mul (of_u64 N) (of_u64 1000)) (of_i64 ns).

(** A note is a fixed text or ["fairness %.2f  handoffs %5.2f M/s"] with two values. *)
Inductive remark := Plain (t : text) | Fairness (fairness handoffs : double).

Record Row := mkRow { name : text; note : remark; stat : option Stat (* [None]: skipped *) }.

(** A printed line: the values that [printf] receives. *)
Inductive line :=
| SkippedLine (name : text) (note : remark)
| StatLine (name : text) (s : Stat) (ratio : double) (unstable : bool) (note : remark).

(** [r.name.rfind("AstraLib", 0) == 0] *)
Definition is_astra (n : text) : bool := if List.list_eq_dec ascii_dec (take 8 n) (str "AstraLib") then true else false.

(** [astra]: the median of the first row of AstraLib that was measured, or 0. *)
Fixpoint astra (rows : list Row) : double :=
  match rows with
  | [] => S754_zero false
  | r :: rows' => match stat r with
                  | Some s => if is_astra (name r) then median s else astra rows'
                  | None => astra rows'
                  end
  end.

Definition gt (x y : double) : bool := SFltb y x.

Definition table_line (higherIsBetter : bool) (a : double) (r : Row) : line :=
  match stat r with
  | None => SkippedLine (name r) (note r)
  | Some s =>
      let ratio := if gt a (S754_zero false)
                   then (if higherIsBetter then div (median s) a else div a (median s))
                   else S754_zero false in
      let unstable := gt (lo s) (S754_zero false) && gt (div (hi s) (lo s)) (literal 15 1) in
      StatLine (name r) s ratio unstable (note r)
  end.

Definition printTable (higherIsBetter : bool) (rows : list Row) : list line :=
  table_line higherIsBetter (astra rows) <$> rows.

(** ** Theorems *)

(** *** Order statistics *)

Lemma filter_all {A} (P : A → Prop) `{∀ x, Decision (P x)} (l : list A) : (∀ x, x ∈ l → P x) → filter P l = l.
Proof.
  induction l as [|x l IH]; intros Hl; [done|].
  rewrite filter_cons_True, IH; [done|intros y Hy; apply Hl; by right|apply Hl; by left].
Qed.

Lemma filter_none {A} (P : A → Prop) `{∀ x, Decision (P x)} (l : list A) : (∀ x, x ∈ l → ¬ P x) → filter P l = [].
Proof.
  induction l as [|x l IH]; intros Hl; [done|].
  rewrite filter_cons_False, IH; [done|intros y Hy; apply Hl; by right|apply Hl; by left].
Qed.

Section Ranks.
Context {A : Type} (R : A → A → Prop) `{!RelDecision R} `{!PreOrder R}.

(** [x] is a [k]-th smallest element of [v], counted from 0: at most [k] elements
    are smaller and more than [k] are smaller or equal. *)
Definition kth (v : list A) (k : nat) (x : A) : Prop :=
  x ∈ v ∧ (length (filter (λ y, ¬ R x y) v) <= k < length (filter (λ y, R y x) v))%nat.

#[global] Instance kth_proper : Proper ((≡ₚ) ==> (=) ==> (=) ==> (↔)) kth.
Proof. intros v w Hvw ? k -> ? x ->. unfold kth. by rewrite Hvw. Qed.

Lemma sorted_lookup w i j x y : StronglySorted R w → w !! i = Some x → w !! j = Some y → (i <= j)%nat → R x y.
Proof.
  intros Hs Hi Hj Hij. destruct (decide (i = j)) as [->|]; [assert (x = y) as -> by congruence; reflexivity|].
  rewrite <- (take_drop_middle w i x Hi) in Hs. apply StronglySorted_app in Hs as (_ & _ & Hs).
  apply StronglySorted_cons in Hs as [Hs _]. rewrite Forall_forall in Hs. apply Hs.
  apply (list_elem_of_lookup_2 _ (j - S i)%nat). rewrite lookup_drop. rewrite <- Hj. f_equal. lia.
Qed.

Lemma sorted_kth w k x : StronglySorted R w → w !! k = Some x → kth w k x.
Proof.
  intros Hs Hk. split; [by eapply list_elem_of_lookup_2|].
  pose proof (take_drop_middle w k x Hk) as E. pose proof (lookup_lt_Some _ _ _ Hk) as Hlt.
  assert (length (take k w) = k) as Hl by (rewrite length_take; lia).
  rewrite <- E in Hs |- *. apply StronglySorted_app in Hs as (H1 & _ & H3). apply StronglySorted_cons in H3 as [H3 _].
  rewrite Forall_forall in H3. assert (∀ y, R y y) as Hrefl by (intros; reflexivity).
  rewrite !filter_app, !length_app. split.
  - assert (filter (λ y, ¬ R x y) (x :: drop (S k) w) = []) as ->.
    { apply filter_none. intros y [->|Hy]%elem_of_cons Hn; [by apply Hn|by apply Hn, H3]. }
    pose proof (length_filter (λ y, ¬ R x y) (take k w)). simpl. lia.
  - assert (filter (λ y, R y x) (take k w) = take k w) as ->.
    { apply filter_all. intros y Hy. apply H1; [done|by left]. }
    rewrite filter_cons_True by done. simpl. lia.
Qed.
End Ranks.

Lemma std_sort_spec v :
  Forall (λ x, is_nan x = false) v →
  ∃ w, std_sort v = Some w ∧ w ≡ₚ v ∧ StronglySorted dle w.
Proof.
  intros Hv. unfold std_sort. exists (merge_sort dle v).
  assert (forallb (λ x, negb (is_nan x)) v = true) as ->.
  { apply forallb_forall. intros x Hx. rewrite Forall_forall in Hv. rewrite Hv; [done|]. by apply list_elem_of_In. }
  split_and!; [done|apply merge_sort_Permutation|apply (StronglySorted_merge_sort dle)].
Qed.

Lemma summarize_total v : v ≠ [] → Forall (λ x, is_nan x = false) v → is_Some (summarize v).
Proof.
  intros Hne Hv. destruct (std_sort_spec v Hv) as (w & Hw & Hp & _). unfold summarize. rewrite Hw.
  assert (length w ≠ 0)%nat as Hn by (rewrite (Permutation_length Hp); by destruct v).
  assert (∀ k, (k < length w)%nat → ∃ x, w !! k = Some x) as Hk by (intros; by apply lookup_lt_is_Some_2).
  assert (length w / 2 < length w)%nat by (apply Nat.div_lt; lia).
  destruct (Hk (length w / 2)%nat) as [b Eb], (Hk 0%nat) as [l El], (Hk (length w - 1)%nat) as [h Eh]; [lia..|].
  destruct (Nat.odd _); rewrite Eb, El, Eh; [by eexists|]. destruct (Nat.eqb_spec (length w) 0); [done|].
  destruct (Hk (length w / 2 - 1)%nat) as [a ->]; [lia|]. by eexists.
Qed.

(** C35. What the row of a table shows: for a non-empty list of numbers, [lo] and
    [hi] are its least and greatest element, and the median is the middle element
    in the order of the values, or half the sum of the two middle ones; elements
    are counted as in the list, so the order of the samples does not matter. *)
Theorem summarize_spec v :
  v ≠ [] → Forall (λ x, is_nan x = false) v →
  let n := length v in
  ∃ st, summarize v = Some st ∧
    kth dle v 0 (lo st) ∧ kth dle v (n - 1) (hi st) ∧
    (∀ x, x ∈ v → SFleb (lo st) x = true ∧ SFleb x (hi st) = true) ∧
    if Nat.odd n then kth dle v (n / 2) (median st)
    else ∃ a b, kth dle v (n / 2 - 1) a ∧ kth dle v (n / 2) b ∧ median st = div (add a b) (of_u64 2).
Proof.
  intros Hne Hv n. destruct (std_sort_spec v Hv) as (w & Hw & Hp & Hs). unfold summarize. rewrite Hw.
  pose proof (Permutation_length Hp) as Hl. fold n in Hl. rewrite Hl.
  assert (n ≠ 0)%nat as Hn by (unfold n; by destruct v).
  assert (∀ k, (k < n)%nat → ∃ x, w !! k = Some x ∧ kth dle v k x) as Hk.
  { intros k Hk. destruct (lookup_lt_is_Some_2 w k) as [x Hx]; [lia|]. exists x. split; [done|].
    rewrite <- Hp. by apply (sorted_kth dle). }
  destruct (Hk 0%nat) as (l & E0 & K0); [lia|]. destruct (Hk (n - 1)%nat) as (h & E1 & K1); [lia|].
  assert (∀ x, x ∈ v → SFleb l x = true ∧ SFleb x h = true) as Hb.
  { assert (∀ x, x ∈ v → is_nan x = false) as Hnan by by apply Forall_forall.
    pose proof (proj1 K0) as Hl0. pose proof (proj1 K1) as Hh0.
    intros x Hx. rewrite !SFleb_dle by auto. rewrite <- Hp in Hx. apply list_elem_of_lookup_1 in Hx as [i Hi].
    pose proof (lookup_lt_Some _ _ _ Hi). split.
    - apply (sorted_lookup dle w 0 i); [done|done|done|lia].
    - apply (sorted_lookup dle w i (n - 1)); [done|done|done|lia]. }
  assert (n / 2 < n)%nat by (apply Nat.div_lt; lia). destruct (Hk (n / 2)%nat) as (b & E2 & K2); [done|].
  destruct (Nat.odd n) eqn:Ho; rewrite E2, E0, E1; [by eexists|].
  destruct (Nat.eqb_spec n 0); [done|]. destruct (Hk (n / 2 - 1)%nat) as (a & E3 & K3); [lia|]. rewrite E3.
  eexists. split_and!; [done..|]. by exists a, b.
Qed.

Definition ex_rates : list double := of_u64 <$> [7; 3; 9; 5].

Lemma summarize_spec_witness :
  ∃ st, summarize ex_rates = Some st ∧ kth dle ex_rates 0 (lo st) ∧ kth dle ex_rates 3 (hi st).
Proof.
  destruct (summarize_spec ex_rates) as (st & H1 & H2 & H3 & _); [discriminate|repeat constructor|].
  exists st. exact (conj H1 (conj H2 H3)).
Defined.

Example summarize_four :
  summarize ex_rates = Some (mkStat (of_u64 6) (of_u64 3) (of_u64 9)) ∧ summarize [] = None ∧
  summarize [of_u64 1; S754_nan] = None.
Proof. by vm_compute. Qed.

(** *** Rates and durations are numbers *)

Lemma of_u64_cases k x : 0 <= x < 2 ^ k → k <= 800 → of_u64 x = S754_zero false ∨ within 1 (k + 1) (of_u64 x).
Proof. intros Hx Hk. destruct (decide (x = 0)) as [->|]; [by left|right; apply of_u64_within; lia]. Qed.

(** Only 0/0 is not a number. *)
Lemma rate_number N ns :
  0 <= N < 2 ^ 64 → 0 <= ns < 2 ^ 63 → 0 < N ∨ 0 < ns → is_nan (rate N ns) = false.
Proof.
  intros HN Hns Hpos. unfold rate, of_i64. fold (of_u64 ns).
  destruct (of_u64_within 10 1000 ltac:(lia) ltac:(lia)) as (mk & ek & -> & Hk).
  assert (within 1 11 (S754_finite false mk ek)) as Hk' by (by exists mk, ek).
  destruct (of_u64_cases 63 ns ltac:(lia) ltac:(lia)) as [Ez|Hw].
  - destruct (decide (ns = 0)) as [->|]; [|destruct (of_u64_within 63 ns) as (m & e & E & _); [lia|lia|congruence]].
    pose proof (of_u64_within 64 N ltac:(lia) ltac:(lia)) as H1.
    pose proof (mul_within _ _ _ _ _ _ H1 Hk' ltac:(lia) ltac:(lia)) as (m & e & -> & _). done.
  - destruct (of_u64_cases 64 N HN ltac:(lia)) as [->|H1]; [by destruct Hw as (m & e & -> & _)|].
    pose proof (mul_within _ _ _ _ _ _ H1 Hk' ltac:(lia) ltac:(lia)) as H2.
    exact (within_not_nan _ _ _ (div_within _ _ _ _ _ _ H2 Hw ltac:(lia) ltac:(lia))).
Qed.

(** A positive count over any duration that the clock can measure, zero
    included, is a number, so the samples can be sorted; it is finite unless the
    duration was zero. *)
Theorem rate_is_number N ns :
  0 < N < 2 ^ 64 → 0 <= ns < 2 ^ 63 →
  is_nan (rate N ns) = false ∧ SFltb (S754_zero false) (rate N ns) = true ∧
  (is_finite (rate N ns) = false ↔ ns = 0).
Proof.
  intros HN Hns. unfold rate, of_i64. fold (of_u64 ns).
  pose proof (of_u64_within 64 N ltac:(lia) ltac:(lia)) as H1.
  pose proof (mul_within _ _ _ _ _ _ H1 (of_u64_within 10 1000 ltac:(lia) ltac:(lia)) ltac:(lia) ltac:(lia)) as H2.
  destruct (decide (ns = 0)) as [->|Hz].
  - destruct H2 as (m & e & -> & _). by vm_compute.
  - pose proof (div_within _ _ _ _ _ _ H2 (of_u64_within 63 ns ltac:(lia) ltac:(lia)) ltac:(lia) ltac:(lia)) as (m & e & -> & _).
    split; [done|]. split; [done|]. simpl. split; [done|lia].
Qed.

Lemma rate_is_number_witness : is_nan (rate 4000000 0) = false ∧ is_finite (rate 4000000 123) = true.
Proof.
  split; [exact (proj1 (rate_is_number 4000000 0 ltac:(lia) ltac:(lia)))|].
  destruct (is_finite (rate 4000000 123)) eqn:E; [reflexivity|].
  apply (proj2 (proj2 (rate_is_number 4000000 123 ltac:(lia) ltac:(lia)))) in E. discriminate.
Defined.

(** *** Percentiles *)

(** A percentage as the benchmarks write it: not above 1 and not tiny. *)
Lemma percentages :
  within (-9) 1 (literal 50 2) ∧ within (-9) 1 (literal 90 2) ∧ within (-9) 1 (literal 99 2) ∧ within (-9) 1 (literal 999 3).
Proof. split_and!; eexists _, _; (split; [by vm_compute|by vm_compute; split]). Qed.

(** [percentile] never reads outside the vector: for at most 2^53 samples and a
    percentage above 2^-900 the conversion to [size_t] is defined, and the result is
    one of the samples; of no samples it is 0. *)
Theorem percentile_in_range v p :
  within (-900) 1 p → Z.of_nat (length v) <= 2 ^ 53 →
  ∃ x, percentile v p = Some x ∧ (v = [] ∧ x = of_u64 0 ∨ x ∈ v).
Proof.
  intros Hp Hv. unfold percentile. destruct (Nat.eqb_spec (length v) 0) as [E|E].
  { apply nil_length_inv in E as ->. eexists. split; [done|by left]. }
  assert (∃ i, percentile_index (length v) p = Some i ∧ 0 <= i < 2 ^ 64) as (i & -> & Hi).
  { unfold percentile_index. assert (within 0 1 (literal 5 1)) as H5 by (eexists _, _; by vm_compute).
    destruct (of_u64_cases 53 (Z.of_nat (length v) - 1)) as [->|Hn]; [lia|lia| |].
    - destruct Hp as (m & e & -> & _). apply (to_uint_within 0 1); [exact H5|lia].
    - pose proof (mul_within _ _ _ _ _ _ Hp Hn ltac:(lia) ltac:(lia)) as Hm.
      pose proof (add_within _ _ _ _ _ _ Hm H5 ltac:(lia) ltac:(lia)) as Ha.
      by eapply to_uint_within; [exact Ha|]. }
  destruct (lookup_lt_is_Some_2 v (Z.to_nat (Z.min i (Z.of_nat (length v) - 1)))) as [x Hx]; [lia|].
  exists x. split; [exact Hx|]. right. by eapply list_elem_of_lookup_2.
Qed.

Lemma percentile_in_range_witness : ∃ x, percentile ex_rates (literal 99 2) = Some x ∧ (ex_rates = [] ∧ x = of_u64 0 ∨ x ∈ ex_rates).
Proof.
  apply (percentile_in_range ex_rates (literal 99 2)); [|by vm_compute].
  eexists _, _. split; [vm_compute; reflexivity|vm_compute; split; discriminate].
Defined.

(** The columns of the latency tables for the default numbers of samples: the
    index is the rank rounded to the nearest, and the columns are ordered. *)
Lemma percentile_default v p i x :
  percentile_index (length v) p = Some i → 0 <= i < Z.of_nat (length v) →
  percentile v p = Some x → v !! Z.to_nat i = Some x.
Proof.
  intros Hi Hr. unfold percentile. destruct (Nat.eqb_spec (length v) 0); [lia|]. rewrite Hi. simpl.
  by rewrite Z.min_l by lia.
Qed.

Theorem percentile_columns v p50 p99 p999 max :
  length v = Z.to_nat 200000 → StronglySorted dle v →
  percentile v (literal 50 2) = Some p50 → percentile v (literal 99 2) = Some p99 →
  percentile v (literal 999 3) = Some p999 → last v = Some max →
  kth dle v (Z.to_nat 100000) p50 ∧ kth dle v (Z.to_nat 197999) p99 ∧ kth dle v (Z.to_nat 199799) p999 ∧
  dle p50 p99 ∧ dle p99 p999 ∧ dle p999 max.
Proof.
  intros Hl Hs H1 H2 H3 H4. assert (Z.of_nat (length v) = 200000) as Hz by lia.
  apply (percentile_default v _ 100000) in H1; [|rewrite Hl; by vm_compute|lia].
  apply (percentile_default v _ 197999) in H2; [|rewrite Hl; by vm_compute|lia].
  apply (percentile_default v _ 199799) in H3; [|rewrite Hl; by vm_compute|lia].
  rewrite last_lookup in H4. split_and!; try (by apply (sorted_kth dle)).
  - apply (sorted_lookup dle v _ _ _ _ Hs H1 H2). lia.
  - apply (sorted_lookup dle v _ _ _ _ Hs H2 H3). lia.
  - apply (sorted_lookup dle v _ _ _ _ Hs H3 H4). lia.
Qed.

(** *** Tables *)

Lemma astra_first pre r s post :
  Forall (λ q, stat q = None ∨ is_astra (name q) = false) pre →
  stat r = Some s → is_astra (name r) = true → astra (pre ++ r :: post) = median s.
Proof.
  induction pre as [|q pre IH]; intros Hpre Hs Ha; cbn [app astra]; [by rewrite Hs, Ha|].
  apply Forall_cons in Hpre as [Hq Hpre]. destruct (stat q) as [t|]; [|by apply IH].
  destruct Hq as [?|Hq]; [done|]. rewrite Hq. by apply IH.
Qed.

(** The comparison table: every row is printed, in the order of the
    competitors; the first measured row of AstraLib is the reference, with ratio
    exactly 1, whichever direction is better; and a row is marked unstable exactly
    when its samples are positive and spread by more than a factor of 1.5. *)
Theorem table_reference b pre r s post :
  Forall (λ q, stat q = None ∨ is_astra (name q) = false) pre →
  stat r = Some s → is_astra (name r) = true → within (-900) 900 (median s) →
  ∃ l1 l2, printTable b (pre ++ r :: post) =
    l1 ++ StatLine (name r) s (of_u64 1)
      (SFltb (of_u64 0) (lo s) && SFltb (literal 15 1) (div (hi s) (lo s))) (note r) :: l2 ∧
    length l1 = length pre ∧ length l2 = length post.
Proof.
  intros Hpre Hs Ha (m & e & Hm & _). unfold printTable. rewrite (astra_first pre r s post Hpre Hs Ha), fmap_app, fmap_cons.
  eexists (table_line b (median s) <$> pre), (table_line b (median s) <$> post).
  rewrite !length_fmap. split; [|done]. f_equal. f_equal. unfold table_line. rewrite Hs, Hm, div_self. by destruct b.
Qed.

Definition ex_table : list Row :=
  [mkRow (str "other") (Plain []) (Some (mkStat (of_u64 3) (of_u64 2) (of_u64 4)));
   mkRow (str "AstraLib Spinlock") (Plain []) (Some (mkStat (of_u64 6) (of_u64 6) (of_u64 6)));
   mkRow (str "third") (Plain (str "skipped")) None].

Lemma table_reference_witness : ∃ l1 l2,
  printTable false ex_table = l1 ++ StatLine (str "AstraLib Spinlock") (mkStat (of_u64 6) (of_u64 6) (of_u64 6)) (of_u64 1) false (Plain []) :: l2
  ∧ length l1 = 1%nat.
Proof.
  destruct (table_reference false (take 1 ex_table) (mkRow (str "AstraLib Spinlock") (Plain []) (Some (mkStat (of_u64 6) (of_u64 6) (of_u64 6))))
    (mkStat (of_u64 6) (of_u64 6) (of_u64 6)) (drop 2 ex_table)) as (l1 & l2 & H1 & H2 & _).
  - apply Forall_cons. split; [right; reflexivity|apply Forall_nil_2].
  - reflexivity.
  - reflexivity.
  - eexists _, _. split; [vm_compute; reflexivity|vm_compute; split; discriminate].
  - exists l1, l2. split; [exact H1|exact H2].
Defined.

Example table_other_rows :
  printTable true ex_table !! 0%nat =
    Some (StatLine (str "other") (mkStat (of_u64 3) (of_u64 2) (of_u64 4)) (literal 5 1) true (Plain [])) ∧
  printTable true ex_table !! 2%nat = Some (SkippedLine (str "third") (Plain (str "skipped"))).
Proof. by vm_compute. Qed.

(** *** Calibration *)

Lemma wait_200ms_spec n0 clock more :
  (∃ n, n ∈ clock ∧ 200000000 <= n - n0) →
  ∃ pre n rest, clock = pre ++ n :: rest ∧ wait_200ms n0 (clock ++ more) = Some (rest ++ more) ∧
    200000000 <= n - n0 ∧ Forall (λ m, m - n0 < 200000000) pre.
Proof.
  induction clock as [|n clock IH]; intros (x & Hx & Hd); [by apply not_elem_of_nil in Hx|].
  cbn [wait_200ms app]. destruct (Z.ltb_spec (n - n0) 200000000) as [Hlt|Hge].
  - apply elem_of_cons in Hx as [->|Hx]; [lia|]. destruct IH as (pre & m & rest & -> & Hw & Hm & Hpre); [by exists x|].
    exists (n :: pre), m, rest. split_and!; [done..|by constructor].
  - exists [], n, clock. split_and!; [done..|apply Forall_nil_2].
Qed.

(** On a clock that never goes backwards and at some point is 200 ms further, the
    calibration ends; if the counter went up meanwhile, also when it wrapped
    around, the result is a positive finite number. *)
Theorem calibration_positive n0 clock n1 t0 ticks tsc :
  StronglySorted Z.le (n0 :: clock ++ [n1]) → 0 <= n0 → n1 < 2 ^ 63 →
  (∃ n, n ∈ clock ∧ 200000000 <= n - n0) → 0 < ticks < 2 ^ 64 →
  ∃ g, calibrateTsc (n0 :: clock ++ [n1]) (to_u64 t0 :: to_u64 (t0 + ticks) :: tsc) = Some g ∧ within (-63) 66 g.
Proof.
  intros Hs Hn0 Hlast Hreach Ht. destruct (wait_200ms_spec n0 clock [n1] Hreach) as (pre & n & rest & -> & Hw & Hn & _).
  cbn [calibrateTsc]. rewrite Hw.
  rewrite <- (app_assoc pre), <- app_comm_cons in Hs. apply StronglySorted_cons in Hs as [_ Hs].
  apply StronglySorted_app in Hs as (_ & _ & Hs). apply StronglySorted_cons in Hs as [Hf Hs].
  destruct (lookup_lt_is_Some_2 (rest ++ [n1]) 0) as [m Hm]; [rewrite length_app; simpl; lia|]. rewrite Hm.
  assert (n <= m) by (rewrite Forall_lookup in Hf; by apply (Hf 0%nat)).
  assert (m <= n1).
  { destruct rest as [|y rest]; [injection Hm as <-; lia|]. injection Hm as <-. apply StronglySorted_cons in Hs as [Hf' _].
    rewrite Forall_forall in Hf'. apply Hf', elem_of_app. right. by left. }
  eexists. split; [done|]. destruct (uwrap_cong 64 ltac:(lia) t0) as [k Hk], (uwrap_cong 64 ltac:(lia) (t0 + ticks)) as [k' Hk'].
  rewrite (uwrap_eq_cong 64 ltac:(lia) _ ticks (k' - k)), uwrap_small by lia. unfold of_i64. fold (of_u64 (m - n0)).
  exact (div_within _ _ _ _ _ _ (of_u64_within 64 ticks ltac:(lia) ltac:(lia))
    (of_u64_within 63 (m - n0) ltac:(lia) ltac:(lia)) ltac:(lia) ltac:(lia)).
Qed.

Lemma calibration_positive_witness : ∃ g,
  calibrateTsc [5; 100; 200000005; 200000009] [to_u64 (2 ^ 64 - 100); to_u64 (2 ^ 64 - 100 + 600000012)] = Some g ∧ within (-63) 66 g.
Proof.
  apply (calibration_positive 5 [100; 200000005] 200000009 (2 ^ 64 - 100) 600000012 []); [|lia|lia| |lia].
  - repeat constructor; lia.
  - exists 200000005. split; [right; left|lia].
Defined.

Example calibrated_3ghz :
  calibrateTsc [5; 100; 200000005; 200000009] [2 ^ 64 - 100; 599999912] = Some (of_u64 3) ∧
  cyclesToNs (of_u64 3) 3000 = of_u64 1000.
Proof. by vm_compute. Qed.
