(* ===== verification/Watchdog.v ===== *)
(** * The watchdog of the benchmarks

    Model of [watchdogLoop] and [Deadline] in [src/bench/benchCommon.hpp]: the
    measuring thread opens and closes deadlines, the watchdog thread wakes up
    every 200 ms and ends the process when the deadline in force is over.  Time
    passes by the action [Tick]; the two threads interleave at every access to
    [g_benchName], [g_deadlineNs] and the clock. *)

From Stdlib Require Import ZArith Lia Ascii String.
From S2P Require Import Prelude MachineInt Decimal Lts.
Local Open Scope Z_scope.
Local Open Scope astra_scope.

Module Watchdog.

Definition INT64_MAX : Z := 2 ^ 63 - 1.
Definition PERIOD : Z := 200000000.

(** The measuring thread: no deadline open; inside the constructor after the
    store to [g_benchName], and after [nowNs()] and the sum; a deadline open. *)
Inductive mpc := MOut | MNamed (seconds : Z) | MSum (dl : Z) | MIn.

(** The watchdog: inside [sleep_for] until a time, at the load, at the test, at
    the message, after [_Exit(3)]. *)
Inductive wpc := WSleep (until : Z) | WLoad | WTest (dl : Z) | WReport | WExit (message : text).

(** [c_opened] is read by no code: when each [Deadline] read the clock, and for
    how many seconds. *)
Record cfg := mkCfg {
  g_benchName : text;
  g_deadlineNs : Z;
  c_now : Z;
  c_main : mpc;
  c_watch : wpc;
  c_opened : list (Z * Z);
}.

Inductive act :=
| Open (name : text) (seconds : Z)   (* Deadline dl(name, seconds); *)
| Main                               (* next step of the constructor *)
| Close                              (* ~Deadline() *)
| Watch                              (* next step of watchdogLoop *)
| Tick (d : Z).

(** [Deadline(const char* name, int seconds)] and [~Deadline()].  The sum must
    not overflow [int64_t]. *)
Definition main_step (c : cfg) (a : act) : option cfg :=
  let upd n d m o := Some (mkCfg n d (c_now c) m (c_watch c) o) in
  match a, c_main c with
  | Open name seconds, MOut => upd name (g_deadlineNs c) (MNamed seconds) (c_opened c)
  | Main, MNamed seconds =>
      let dl := c_now c + seconds * 1000000000 in
      if to_i64 dl =? dl then upd (g_benchName c) (g_deadlineNs c) (MSum dl) (c_opened c ++ [(c_now c, seconds)]) else None
  | Main, MSum dl => upd (g_benchName c) dl MIn (c_opened c)
  | Close, MIn => upd (g_benchName c) INT64_MAX MOut (c_opened c)
  | _, _ => None
  end.

(** [watchdogLoop]: sleep, load, test, report. *)
Definition watch_step (c : cfg) : option cfg :=
  let go w := Some (mkCfg (g_benchName c) (g_deadlineNs c) (c_now c) (c_main c) w (c_opened c)) in
  match c_watch c with
  | WSleep until => if until <=? c_now c then go WLoad else None
  | WLoad => go (WTest (g_deadlineNs c))
  | WTest dl => if negb (dl =? INT64_MAX) && (dl <? c_now c) then go WReport else go (WSleep (c_now c + PERIOD))
  | WReport => go (WExit (g_benchName c))
  | WExit _ => None
  end.

(** After [_Exit] nothing runs. *)
Definition exited (c : cfg) : bool := match c_watch c with WExit _ => true | _ => false end.

Definition exec (c : cfg) (a : act) : option cfg :=
  if exited c then None
  else match a with
       | Watch => watch_step c
       | Tick d => if 0 <? d then Some (mkCfg (g_benchName c) (g_deadlineNs c) (c_now c + d) (c_main c) (c_watch c) (c_opened c))
                   else None
       | _ => main_step c a
       end.

Definition watchdog_machine : machine := Machine cfg act exec.

(** [startWatchdog()] at time [t]. *)
Definition startWatchdog (t : Z) : cfg := mkCfg (str "<none>") INT64_MAX t MOut (WSleep (t + PERIOD)) [].

Abbreviation M := watchdog_machine.
Abbreviation reach t := (reachable (M := M) (λ c, c = startWatchdog t)).

(** ** No early alarm *)

(** [dl] is the deadline of one of the [Deadline] objects. *)
Definition promised (o : list (Z * Z)) (dl : Z) : Prop := ∃ t s, (t, s) ∈ o ∧ dl = t + s * 1000000000.

Definition main_ok (o : list (Z * Z)) (m : mpc) : Prop := match m with MSum dl => promised o dl | _ => True end.
Definition store_ok (o : list (Z * Z)) (g : Z) : Prop := g = INT64_MAX ∨ promised o g.
Definition watch_ok (o : list (Z * Z)) (now : Z) (w : wpc) : Prop :=
  match w with
  | WSleep u => u <= now + PERIOD
  | WLoad => True
  | WTest dl => store_ok o dl
  | WReport | WExit _ => ∃ dl, promised o dl ∧ dl < now
  end.

Definition winv (c : cfg) : Prop :=
  main_ok (c_opened c) (c_main c) ∧ store_ok (c_opened c) (g_deadlineNs c) ∧ watch_ok (c_opened c) (c_now c) (c_watch c).

Lemma promised_mono o o' dl : promised o dl → promised (o ++ o') dl.
Proof. intros (t & s & Hin & ->). exists t, s. split; [apply elem_of_app; by left|done]. Qed.

Lemma store_ok_mono o o' g : store_ok o g → store_ok (o ++ o') g.
Proof. intros [?|?]; [by left|right; by apply promised_mono]. Qed.

Lemma watch_ok_mono o o' now now' w : now <= now' → watch_ok o now w → watch_ok (o ++ o') now' w.
Proof.
  intros Hn. destruct w; simpl; [lia|done|apply store_ok_mono| |];
    intros (dl & Hp & Hlt); (exists dl; split; [by apply promised_mono|lia]).
Qed.

Lemma watch_step_ok c c' : winv c → watch_step c = Some c' → winv c'.
Proof.
  intros (Hm & Hs & Hw). destruct c as [nm g now m w o]. unfold watch_step, winv in *. simpl in *.
  destruct w as [u| |dl| |n]; simpl in *; intros He.
  - destruct (u <=? now); by simplify_eq/=.
  - by simplify_eq/=.
  - destruct (Z.eqb_spec dl INT64_MAX), (Z.ltb_spec dl now); simplify_eq/=; split_and!; try done.
    exists dl. by destruct Hw.
  - by simplify_eq/=.
  - done.
Qed.

Lemma main_step_ok c a c' : winv c → main_step c a = Some c' → winv c'.
Proof.
  intros (Hm & Hs & Hw) He. destruct c as [nm g now m w o]. unfold main_step, winv in *. simpl in *.
  destruct a, m; simplify_eq/=; split_and!; try done; try (by left); try (by right).
  all: destruct (Z.eqb_spec (to_i64 (now + seconds * 1000000000)) (now + seconds * 1000000000)); simplify_eq/=.
  - exists now, seconds. split; [apply elem_of_app; right; by left|done].
  - by apply store_ok_mono.
  - by apply (watch_ok_mono _ _ now).
Qed.

Lemma watch_winv_reachable t c : reach t c → winv c.
Proof.
  apply invariant; [intros ? ->; split_and!; [done|by left|simpl; lia]|].
  intros s a s' _ Hs He. cbn [M m_exec] in He. unfold exec in He. destruct (exited s); [done|].
  destruct a; try by eapply main_step_ok. { by eapply watch_step_ok. }
  destruct (Z.ltb_spec 0 d); simplify_eq/=. destruct Hs as (Hm & Hst & Hw). split_and!; [done..|]. simpl.
  rewrite <- (app_nil_r (c_opened s)). apply (watch_ok_mono _ _ (c_now s)); [lia|done].
Qed.

(** No early alarm: the watchdog ends the process only when some [Deadline]
    was opened, for [s] seconds, at a time [t] more than [s] seconds ago. *)
Theorem watchdog_no_early_alarm t0 c :
  reach t0 c → exited c = true → ∃ t s, (t, s) ∈ c_opened c ∧ t + s * 1000000000 < c_now c.
Proof.
  intros (_ & _ & Hw)%watch_winv_reachable He. unfold exited in He. destruct (c_watch c); try done.
  destruct Hw as (dl & (t & s & Hin & ->) & Hlt). by exists t, s.
Qed.

(** ** A hang is detected *)

(** The steps of the watchdog and the time that passes. *)
Fixpoint idle_time (σ : list act) : option Z :=
  match σ with
  | [] => Some 0
  | Watch :: σ' => idle_time σ'
  | Tick d :: σ' => let? r := idle_time σ' in Some (d + r)
  | _ :: _ => None
  end.

Lemma fires_from_load c :
  c_watch c = WLoad → g_deadlineNs c ≠ INT64_MAX → g_deadlineNs c < c_now c →
  ∃ c', run (M := M) c [Watch; Watch; Watch] = Some c' ∧ exited c' = true.
Proof.
  intros Hw Hd Hlt. destruct c as [nm g now m w o]. simpl in *. subst w. eexists. split.
  - cbn [run m_exec M]. unfold exec at 1. cbn. destruct (Z.eqb_spec g INT64_MAX); [done|]. destruct (Z.ltb_spec g now); [|lia].
    cbn. reflexivity.
  - done.
Qed.

Lemma fires_from_sleep c u :
  c_watch c = WSleep u → u <= c_now c + PERIOD → g_deadlineNs c ≠ INT64_MAX → g_deadlineNs c < c_now c →
  ∃ d c', 0 < d <= PERIOD ∧ run (M := M) c [Tick d; Watch; Watch; Watch; Watch] = Some c' ∧ exited c' = true.
Proof.
  intros Hw Hu Hd Hlt. exists PERIOD. destruct c as [nm g now m w o]. simpl in *. subst w.
  destruct (fires_from_load (mkCfg nm g (now + PERIOD) m WLoad o)) as (c' & Hr & He); simpl; [done|done|unfold PERIOD; lia|].
  exists c'. split; [unfold PERIOD; lia|]. split; [|done]. etransitivity; [|exact Hr].
  unfold exec at 1. cbn [exited c_watch watch_step c_now]. destruct (Z.leb_spec u (now + PERIOD)); [done|lia].
Qed.

Lemma watch_test nm g now m dl o :
  exec (mkCfg nm g now m (WTest dl) o) Watch =
  Some (mkCfg nm g now m (if negb (dl =? INT64_MAX) && (dl <? now) then WReport else WSleep (now + PERIOD)) o).
Proof. unfold exec, watch_step. simpl. by destruct (dl =? INT64_MAX), (dl <? now). Qed.

(** From every state of the watchdog. *)
Lemma watch_fires t0 c :
  reach t0 c → g_deadlineNs c ≠ INT64_MAX → g_deadlineNs c < c_now c →
  exited c = true ∨
  ∃ σ d c', run (M := M) c σ = Some c' ∧ exited c' = true ∧ idle_time σ = Some d ∧ d <= PERIOD ∧ (length σ <= 6)%nat.
Proof.
  intros (_ & _ & Hw)%watch_winv_reachable Hd Hlt. destruct c as [nm g now m w o]. simpl in *.
  destruct w as [u| |dl| |n]; simpl in *; [right|right|right|right|by left].
  - destruct (fires_from_sleep (mkCfg nm g now m (WSleep u) o) u) as (d & c' & Hb & Hr & He); [done..|].
    eexists _, d, c'. split_and!; [exact Hr|done|simpl; f_equal; lia|lia|simpl; lia].
  - destruct (fires_from_load (mkCfg nm g now m WLoad o)) as (c' & Hr & He); [done..|].
    eexists _, 0, c'. split_and!; [exact Hr|done|done|unfold PERIOD; lia|simpl; lia].
  - destruct (negb (dl =? INT64_MAX) && (dl <? now)) eqn:E.
    + eexists [Watch; Watch], 0, _. cbn [run m_exec M]. rewrite watch_test, E.
      split_and!; [done|done|done|unfold PERIOD; lia|simpl; lia].
    + destruct (fires_from_sleep (mkCfg nm g now m (WSleep (now + PERIOD)) o) (now + PERIOD)) as (d & c' & Hb & Hr & He); [done|simpl; lia|done..|].
      exists (Watch :: [Tick d; Watch; Watch; Watch; Watch]), d, c'. split_and!; [|done|simpl; f_equal; lia|lia|simpl; lia].
      etransitivity; [|exact Hr]. cbn [run m_exec M]. by rewrite watch_test, E.
  - eexists [Watch], 0, _. cbn. split_and!; [done|done|done|unfold PERIOD; lia|lia].
Qed.

(** C36. A hang is detected: once the deadline in force is over and the measuring
    thread does nothing any more, the watchdog ends the process after at most one
    more sleep of 200 ms and six steps of its own. *)
Theorem watchdog_fires t0 c :
  reach t0 c → g_deadlineNs c ≠ INT64_MAX → g_deadlineNs c < c_now c →
  exited c = true ∨
  ∃ σ d c', run (M := M) c σ = Some c' ∧ exited c' = true ∧ idle_time σ = Some d ∧ d <= PERIOD ∧ (length σ <= 6)%nat.
Proof. apply watch_fires. Qed.

(** ** Examples *)

(** A benchmark of one second that hangs. *)
Definition ex_hang : list act := [Open (str "2P/2C") 1; Main; Tick 5; Main; Tick 1100000000; Watch; Watch].
Definition ex_hung : cfg := default (startWatchdog 7) (run (M := M) (startWatchdog 7) ex_hang).

Lemma ex_hung_reach : reach 7 ex_hung.
Proof. eapply (run_reachable M _ _ ex_hang); [by apply reach_init|by vm_compute]. Qed.

Lemma watchdog_fires_witness : exited ex_hung = true ∨
  ∃ σ d c', run (M := M) ex_hung σ = Some c' ∧ exited c' = true ∧ idle_time σ = Some d ∧ d <= PERIOD ∧ (length σ <= 6)%nat.
Proof. apply (watchdog_fires 7 ex_hung ex_hung_reach); vm_compute; discriminate || reflexivity. Defined.

Definition ex_killed : cfg := default ex_hung (run (M := M) ex_hung [Watch; Watch]).

Lemma watchdog_no_early_alarm_witness : ∃ t s, (t, s) ∈ c_opened ex_killed ∧ t + s * 1000000000 < c_now ex_killed.
Proof.
  apply (watchdog_no_early_alarm 7 ex_killed); [|by vm_compute].
  eapply (run_reachable M _ _ [Watch; Watch]); [exact ex_hung_reach|by vm_compute].
Defined.

(** The deadline that the watchdog tests may have been closed since it loaded it:
    a benchmark that ends in time is killed, under the name of its successor, if
    the watchdog is not scheduled between the load and the clock. *)
Example watchdog_stale_deadline :
  ∃ c, run (M := M) (startWatchdog 0)
    [Open (str "first") 1; Main; Main; Tick 999999999; Watch; Watch; Close; Open (str "second") 600; Tick 2; Watch; Watch] = Some c ∧
    c_watch c = WExit (str "second") ∧ c_main c = MNamed 600 ∧ c_opened c = [(0, 1)].
Proof. eexists. by vm_compute. Qed.
End Watchdog.
