(* ===== verification/BenchReport.v ===== *)
(** * The run of a benchmark program

    What the [main] functions of [src/bench] share: they print, open and close
    deadlines, call measurements in the order of [interleaved], summarize the
    samples and print tables.  A run is the list of what it did, in order; the
    outcome of a measurement is an argument, [env], which may depend on all that
    happened before.  Undefined behaviour is [None].  Messages ([Said]) are kept
    without the white space around them; the lines that [interleaved] prints under
    [g_verbose] are left out.  The list is what the program does when nothing ends it
    before; [BenchProcess.v] runs it beside the watchdog. *)

From Stdlib Require Import ZArith Lia Ascii String.
From stdpp Require Import sorting.
From S2P Require Import Prelude MachineInt Decimal Timer Double BenchHarness BenchStats.
Local Open Scope Z_scope.
Local Open Scope astra_scope.

(** [init()]: the knobs, the CPUs and the frequency of the counter; the watchdog is
    that of [Watchdog.v]. *)
Record setup := mkSetup { s_knobs : knobs; s_cpus : list Z; s_tscPerNs : double }.

Definition init (getenv : string → option text) (sysfs : nat → option text) (hw : nat) (clock tsc : list Z) : option setup :=
  let? g := calibrateTsc clock tsc in
  Some (mkSetup (readKnobs getenv) (detectTopology sysfs hw) g).

(** ** Events *)

Section Events.
Context {C : Type}.

Inductive event :=
| Said (t : text)                                  (* printf *)
| Opened (title : text) (seconds : Z)              (* Deadline dl(title, seconds); *)
| Closed                                           (* ~Deadline() *)
| Called (c : C) (ok : bool)                       (* a measurement and its BENCH_CHECK *)
| Table (title unit : text) (lines : list line)    (* printTable *)
| Latency (name : text) (columns : list double).   (* a row of a latency table *)

Definition calls (w : list event) : list C :=
  omap (λ e, match e with Called c _ => Some c | _ => None end) w.

(** [g_failures] after the events [w]. *)
Definition g_failures (w : list event) : Z :=
  foldl (λ n e, match e with Called _ ok => BENCH_CHECK ok n | _ => n end) 0 w.

(** The deadlines: [None] if one is opened while another is open, or closed while
    none is, or if a measurement runs while none is open. *)
Fixpoint deadlines (is_open : bool) (w : list event) : option bool :=
  match w with
  | [] => Some is_open
  | Opened _ _ :: w' => if is_open then None else deadlines true w'
  | Closed :: w' => if is_open then deadlines false w' else None
  | Called _ _ :: w' => if is_open then deadlines true w' else None
  | _ :: w' => deadlines is_open w'
  end.
End Events.
Arguments event : clear implicits.

(** ** Measurements *)

(** One call: its outcome, and the check that it makes. *)
Definition perform {C O} (env : list (event C) → C → O) (ok : O → bool) (c : C) (w : list (event C)) : list (event C) * O :=
  let o := env w c in (w ++ [Called c (ok o)], o).

(** [interleaved] with the statistics that it returns. *)
Definition interleaved_stats {W} (g_reps : Z) (fns : list (W → W * double)) (w : W) : option (W * list Stat) :=
  let r := interleaved g_reps fns w in
  let? st := mapM summarize r.2 in Some (r.1, st).

(** The body of a [for] loop, for every element, on the state [W]. *)
Fixpoint for_each {A W} (f : A → W → option W) (l : list A) (w : W) : option W :=
  match l with
  | [] => Some w
  | x :: l' => let? w' := f x w in for_each f l' w'
  end.

(** ["%u thread%s%s", t, t == 1 ? "" : "s", t == 1 ? " (uncontended)" : ""] *)
Definition threads_title (t : nat) : text :=
  show (Z.of_nat t) ++ str (if (t =? 1)%nat then " thread (uncontended)" else " threads").

(** ["%s  SKIPPED — needs %u physical cores"] *)
Definition skipped (title : text) (needs : Z) : text :=
  title ++ str "  SKIPPED — needs " ++ show needs ++ str " physical cores".

(** The round trips or wake-ups of a latency measurement: two time stamps per
    sample, in [uint64_t], converted to nanoseconds and sorted. *)
Definition latencies (g_tscPerNs : double) (stamps : nat → Z * Z) (samples : Z) : option (list double) :=
  std_sort ((λ k, cyclesToNs g_tscPerNs (to_u64 ((stamps k).2 - (stamps k).1))) <$> List.seq 0 (Z.to_nat samples)).

(** ["%-30s %9s %9s %9s %10s", "", ..., "max"], without the white space before the first. *)
Definition columns (p1 p2 p3 : string) : text :=
  let right k t := replicate (k - length t) " "%char ++ t in
  str p1 ++ str " " ++ right 9%nat (str p2) ++ str " " ++ right 9%nat (str p3) ++ str " " ++ right 10%nat (str "max").

(** The columns that are printed: three percentiles and [r.back()]. *)
Definition latency_columns (r : list double) (p1 p2 p3 : double) : option (list double) :=
  let? a := percentile r p1 in
  let? b := percentile r p2 in
  let? c := percentile r p3 in
  let? m := last r in
  Some [a; b; c; m].

(** ** Lemmas *)

Section EventLemmas.
Context {C : Type}.
Implicit Types (w : list (event C)).

Lemma calls_app w1 w2 : calls (w1 ++ w2) = calls w1 ++ calls w2.
Proof. apply omap_app. Qed.

Lemma calls_said t : calls ([Said t] : list (event C)) = [].
Proof. done. Qed.
Lemma calls_heading t t' : calls ([Said t; Said t'] : list (event C)) = [].
Proof. done. Qed.

Lemma deadlines_app b w1 w2 : deadlines b (w1 ++ w2) = (let? b' := deadlines b w1 in deadlines b' w2).
Proof. revert b. induction w1 as [|[] w1 IH]; intros b; simpl; try done; destruct b; simpl; try done; apply IH. Qed.

(** Whether every check of a measurement passed. *)
Definition all_passed w : bool := forallb (λ e, match e with Called _ ok => ok | _ => true end) w.

Lemma g_failures_from w n :
  0 <= n → n + Z.of_nat (length w) < 2 ^ 63 →
  let r := foldl (λ n (e : event C), match e with Called _ ok => BENCH_CHECK ok n | _ => n end) n w in
  n <= r ∧ (r = n ↔ all_passed w = true).
Proof.
  revert n. induction w as [|e w IH]; intros n Hn Hb; [simpl; split; [lia|done]|].
  cbn [foldl length all_passed forallb] in *. destruct e as [| | |c []| |]; try (apply IH; lia).
  unfold BENCH_CHECK at 2 4. cbn [negb]. rewrite (swrap_small 64) by lia.
  destruct (IH (n + 1)) as [H1 H2]; [lia|lia|]. simpl. split; [lia|]. split; [lia|done].
Qed.

(** The exit status is 0 exactly when every check passed. *)
Lemma finish_passed w :
  Z.of_nat (length w) < 2 ^ 63 → finish (g_failures w) = if all_passed w then 0 else 1.
Proof.
  intros Hb. destruct (g_failures_from w 0 ltac:(lia) ltac:(lia)) as [H1 H2]. unfold finish. fold (g_failures w) in H1, H2.
  destruct (Z.eqb_spec (g_failures w) 0) as [E|E], (all_passed w); simpl; try done; exfalso; [by apply H2 in E|by apply E, H2].
Qed.

(** No failure, whatever the length of the log. *)
Lemma finish_all w : (∀ c ok, Called c ok ∈ w → ok = true) → finish (g_failures w) = 0.
Proof.
  intros H. enough (g_failures w = 0) as -> by done. unfold g_failures. generalize 0 as n.
  induction w as [|e w IH]; intros n; [done|]. simpl. rewrite IH; [|intros c ok Hin; apply (H c ok); by right].
  destruct e as [| | |c ok| |]; try done. by rewrite (H c ok) by by left.
Qed.
End EventLemmas.

(** *** The setup *)

(** A setup as [init] makes it. *)
Record setup_ok (s : setup) : Prop := {
  so_scale : 0 < g_scale (s_knobs s);
  so_reps : 0 < g_reps (s_knobs s);
  so_tsc : within (-63) 66 (s_tscPerNs s);
}.

Lemma scaled_range g base minimum :
  0 < g_scale g → 0 <= minimum < 2 ^ 64 → ∃ n, scaled g base minimum = Some n ∧ minimum <= n < 2 ^ 64.
Proof.
  intros Hg Hm. unfold scaled. destruct (Z.eqb_spec (g_scale g) 0); [lia|].
  pose proof (uwrap_range 64 ltac:(lia) (base * g_mult g)) as Hr.
  assert (0 <= to_u64 (base * g_mult g) / g_scale g < 2 ^ 64) as Hd.
  { split; [apply Z.div_pos; lia|]. apply Z.div_lt_upper_bound; nia. }
  eexists. split; [done|]. destruct (Z.ltb_spec (to_u64 (base * g_mult g) / g_scale g) minimum); lia.
Qed.

(** [init] gives such a setup, on a machine whose clock and counter go on, unless
    the number of repetitions is narrowed to one that is not positive. *)
Lemma init_ok getenv sysfs hw n0 clock n1 t0 ticks tsc :
  StronglySorted Z.le (n0 :: clock ++ [n1]) → 0 <= n0 → n1 < 2 ^ 63 →
  (∃ n, n ∈ clock ∧ 200000000 <= n - n0) → 0 < ticks < 2 ^ 64 → 0 < g_reps (readKnobs getenv) →
  ∃ s, init getenv sysfs hw (n0 :: clock ++ [n1]) (to_u64 t0 :: to_u64 (t0 + ticks) :: tsc) = Some s ∧ setup_ok s.
Proof.
  intros Hs H0 H1 Hr Ht Hreps. unfold init.
  destruct (calibration_positive n0 clock n1 t0 ticks tsc Hs H0 H1 Hr Ht) as (g & -> & Hg).
  eexists. split; [done|]. split; [|done|done]. simpl.
  pose proof (num_range getenv "ASTRA_BENCH_SCALE" 1 ltac:(lia)). lia.
Qed.

(** *** Statistics of interleaved runs *)

Section Stats.
Context {W : Type} (fns : list (W → W * double)).

Lemma run_calls_Forall (P : double → Prop) (Q : W → Prop) :
  (∀ f w, f ∈ fns → Q w → Q (f w).1 ∧ P (f w).2) →
  ∀ σ w, Q w → Q (run_calls fns σ w).1 ∧ Forall P (run_calls fns σ w).2.
Proof.
  intros Hf σ. induction σ as [|i σ IH]; intros w Hw; cbn [run_calls]; [split; [done|apply Forall_nil_2]|].
  destruct (fns !! i) as [f|] eqn:E; [|by apply IH].
  destruct (Hf f w ltac:(by eapply list_elem_of_lookup_2) Hw) as [H1 H2]. destruct (IH _ H1) as [H3 H4].
  split; [done|]. by constructor.
Qed.

Lemma mapM_total {A B} (f : A → option B) (l : list A) :
  (∀ x, x ∈ l → is_Some (f x)) → ∃ k, mapM f l = Some k ∧ length k = length l.
Proof.
  intros H. destruct (mapM f l) as [k|] eqn:E; [exists k; split; [done|]; by apply length_mapM in E|].
  apply mapM_None, Exists_exists in E as (x & Hx & Hn). destruct (H x Hx) as [y Hy]. congruence.
Qed.

(** The order in which [interleaved] calls [k] competitors. *)
Definition schedule (g_reps : Z) (k : nat) : list nat :=
  List.seq 0 k ++ concat (replicate (Z.to_nat g_reps) (List.seq 0 k)).

(** With at least one repetition and samples that are numbers, there is a
    statistic for every competitor. *)
Lemma interleaved_stats_spec (Q : W → Prop) g_reps w :
  0 < g_reps → (∀ f w, f ∈ fns → Q w → Q (f w).1 ∧ is_nan (f w).2 = false) → Q w →
  ∃ st, interleaved_stats g_reps fns w = Some ((run_calls fns (schedule g_reps (length fns)) w).1, st) ∧
    length st = length fns.
Proof.
  intros Hr Hf Hw. destruct (interleaved_order fns g_reps w) as (H1 & H2 & H3). unfold interleaved_stats.
  fold (schedule g_reps (length fns)) in H1, H3.
  destruct (mapM_total summarize (interleaved g_reps fns w).2) as (st & Hst & Hl).
  - intros l (i & Hi)%list_elem_of_lookup_1. destruct (H3 i l Hi) as [Hlen Hl].
    apply summarize_total; [intros ->; simpl in Hlen; lia|].
    apply Forall_lookup_2. intros j x Hj. pose proof (lookup_lt_Some _ _ _ Hj).
    rewrite Hl in Hj by lia. destruct (run_calls_Forall (λ x, is_nan x = false) Q Hf (schedule g_reps (length fns)) w Hw) as [_ Hall].
    by eapply (Forall_lookup_1 _ _ _ _ Hall).
  - rewrite Hst. exists st. split; [by rewrite H1|lia].
Qed.
End Stats.

(** *** Calls of interleaved runs *)

Section Log.
Context {C W : Type} (log : W → list (event C)) (fns : list (W → W * double)) (cs : list C).

(** Competitor [i] makes the call [cs[i]], with an outcome that satisfies [E], and
    does nothing else that is logged. *)
Context (E : event C → Prop).
Context (Hcs : Forall2 (λ f c, ∀ w, ∃ ok, log (f w).1 = log w ++ [Called c ok] ∧ E (Called c ok)) fns cs).

Lemma run_calls_log σ w :
  ∃ es, log (run_calls fns σ w).1 = log w ++ es ∧ calls es = omap (cs !!.) σ ∧ deadlines true es = Some true ∧ Forall E es.
Proof using Hcs.
  revert w. induction σ as [|i σ IH]; intros w; cbn [run_calls].
  { exists []. rewrite app_nil_r. split_and!; [done..|apply Forall_nil_2]. }
  destruct (fns !! i) as [f|] eqn:Ef.
  - destruct (Forall2_lookup_l _ _ _ _ _ Hcs Ef) as (c & Hc & Hf). destruct (Hf w) as (ok & Hok & He).
    destruct (IH (f w).1) as (es & H1 & H2 & H3 & H4). exists (Called c ok :: es). cbv zeta. cbn [fst]. rewrite H1, Hok, <- app_assoc.
    split_and!; [done| |done|by constructor].
    change (c :: calls es = match cs !! i with Some y => y :: omap (cs !!.) σ | None => omap (cs !!.) σ end).
    by rewrite Hc, H2.
  - destruct (IH w) as (es & H1 & H2 & H3 & H4). exists es. split_and!; [done| |done..].
    change (calls es = match cs !! i with Some y => y :: omap (cs !!.) σ | None => omap (cs !!.) σ end).
    assert (cs !! i = None) as ->; [|done]. apply lookup_ge_None in Ef. apply lookup_ge_None. by rewrite <- (Forall2_length _ _ _ Hcs).
Qed.

(** One round of calls per repetition and one to warm up. *)
Lemma schedule_calls g_reps :
  omap (cs !!.) (schedule g_reps (length fns)) = concat (replicate (S (Z.to_nat g_reps)) cs).
Proof using Hcs.
  rewrite (Forall2_length _ _ _ Hcs). unfold schedule. cbn [replicate concat].
  assert (omap (cs !!.) (List.seq 0 (length cs)) = cs) as Hround.
  { clear Hcs. enough (∀ pre l, omap ((pre ++ l) !!.) (List.seq (length pre) (length l)) = l) as H by apply (H [] cs).
    intros pre l. revert pre. induction l as [|x l IH]; intros pre; [done|]. cbn. rewrite list_lookup_middle by done. f_equal.
    specialize (IH (pre ++ [x])). rewrite <- app_assoc, length_app, Nat.add_1_r in IH. exact IH. }
  rewrite omap_app, Hround. f_equal. induction (Z.to_nat g_reps) as [|r IH]; cbn [replicate concat]; [done|].
  by rewrite omap_app, Hround, IH.
Qed.
End Log.

(** *** Loops *)

(** A part of the program that, from every log, goes on to a longer one; it makes
    exactly the calls [cs], under deadlines of its own, and its events satisfy [E]. *)
Definition does {C} (E : event C → Prop) (m : list (event C) → option (list (event C))) (cs : list C) : Prop :=
  ∀ w, ∃ es, m w = Some (w ++ es) ∧ calls es = cs ∧ deadlines false es = Some false ∧ Forall E es.

Lemma for_each_does {C A} E (f : A → list (event C) → option (list (event C))) (g : A → list C) (l : list A) :
  (∀ x, x ∈ l → does E (f x) (g x)) → does E (for_each f l) (concat (g <$> l)).
Proof.
  induction l as [|x l IH]; intros Hf w; cbn [for_each].
  - exists []. rewrite app_nil_r. split_and!; [done..|apply Forall_nil_2].
  - destruct (Hf x ltac:(by left) w) as (e1 & -> & H1 & H2 & H5).
    destruct (IH (λ y Hy, Hf y (list_elem_of_further _ _ _ Hy)) (w ++ e1)) as (e2 & -> & H3 & H4 & H6).
    exists (e1 ++ e2). rewrite app_assoc, calls_app, deadlines_app, H1, H2, H3, H4.
    split_and!; [done..|by apply Forall_app].
Qed.

(** Printing. *)
Lemma says_does {C} (E : event C → Prop) e :
  match e with Opened _ _ | Closed | Called _ _ => False | _ => True end → E e → does E (λ w, Some (w ++ [e])) [].
Proof. intros He HE w. exists [e]. split_and!; [done|by destruct e|by destruct e|by repeat constructor]. Qed.

(** One part after the other. *)
Lemma seq_does {C} (E : event C → Prop) m1 m2 cs1 cs2 :
  does E m1 cs1 → does E m2 cs2 → does E (λ w, let? w' := m1 w in m2 w') (cs1 ++ cs2).
Proof.
  intros H1 H2 w. destruct (H1 w) as (e1 & -> & <- & Hd1 & HE1), (H2 (w ++ e1)) as (e2 & -> & <- & Hd2 & HE2).
  exists (e1 ++ e2). rewrite app_assoc, calls_app, deadlines_app, Hd1, Hd2. split_and!; [done..|by apply Forall_app].
Qed.

(** A table: competitors are run in turn under a deadline, and their statistics
    printed.  [mk] makes the rows from the state after the runs. *)
Lemma table_does {C W} (E : event C → Prop) (start : list (event C) → W) (log : W → list (event C))
    (Q : W → Prop) g_reps fns cs title secs unit (mk : W → list Stat → option (list Row)) :
  0 < g_reps → (∀ w, log (start w) = w ∧ Q (start w)) →
  (∀ f w, f ∈ fns → Q w → Q (f w).1 ∧ is_nan (f w).2 = false) →
  Forall2 (λ f c, ∀ w, ∃ ok, log (f w).1 = log w ++ [Called c ok] ∧ E (Called c ok)) fns cs →
  (∀ w st, Q (run_calls fns (schedule g_reps (length fns)) (start w)).1 → length st = length fns →
     is_Some (mk (run_calls fns (schedule g_reps (length fns)) (start w)).1 st)) →
  E (Opened title secs) → E Closed → (∀ ls, E (Table title unit ls)) →
  does E (λ w, let? r := interleaved_stats g_reps fns (start (w ++ [Opened title secs])) in
               let? rows := mk r.1 r.2 in
               Some (log r.1 ++ [Table title unit (printTable true rows); Closed]))
    (concat (replicate (S (Z.to_nat g_reps)) cs)).
Proof.
  intros Hr Hstart Hf Hcs Hmk HE1 HE2 HE3 w. set (w1 := w ++ [Opened title secs]). destruct (Hstart w1) as [Hl HQ].
  destruct (interleaved_stats_spec fns Q g_reps (start w1) Hr Hf HQ) as (st & -> & Hst). cbn [fst snd].
  destruct (run_calls_Forall fns (λ x, is_nan x = false) Q Hf (schedule g_reps (length fns)) (start w1) HQ) as [HQ' _].
  destruct (Hmk w1 st HQ' Hst) as [rows ->].
  destruct (run_calls_log log fns cs E Hcs (schedule g_reps (length fns)) (start w1)) as (es & -> & H2 & H3 & H4).
  rewrite (schedule_calls log fns cs E Hcs) in H2. rewrite Hl. unfold w1.
  exists (Opened title secs :: es ++ [Table title unit (printTable true rows); Closed]).
  rewrite <- !app_assoc. split; [done|]. change (calls (Opened title secs :: ?l)) with (calls l).
  rewrite calls_app, H2, app_nil_r. split; [done|]. split.
  - cbn [deadlines]. by rewrite deadlines_app, H3.
  - constructor; [done|]. apply Forall_app. split; [done|]. by repeat constructor.
Qed.

(** *** Membership *)

Lemma in_rounds {A} (k : nat) (l : list A) x : x ∈ concat (replicate k l) → x ∈ l.
Proof. induction k; cbn [replicate concat]; [by intros ?%not_elem_of_nil|]. intros [?|?]%elem_of_app; auto. Qed.

Lemma in_concat_fmap {A B} (f : A → list B) (l : list A) x : x ∈ concat (f <$> l) → ∃ y, y ∈ l ∧ x ∈ f y.
Proof.
  induction l as [|y l IH]; cbn [fmap list_fmap concat]; [by intros ?%not_elem_of_nil|].
  intros [?|(z & ? & ?)%IH]%elem_of_app; [exists y|exists z]; by split; [constructor|].
Qed.

Lemma called_in {C} (w : list (event C)) c ok : Called c ok ∈ w → c ∈ calls w.
Proof. intros H. apply list_elem_of_omap. by exists (Called c ok). Qed.

(** *** Latencies *)

(** The stamps as a list. *)
Lemma latencies_list g_tscPerNs (l : list (Z * Z)) (stamps : nat → Z * Z) samples :
  Z.of_nat (length l) = samples → (∀ k, (k < Z.to_nat samples)%nat → l !! k = Some (stamps k)) →
  std_sort ((λ t, cyclesToNs g_tscPerNs (to_u64 (t.2 - t.1))) <$> l) = latencies g_tscPerNs stamps samples.
Proof.
  intros Hl Hst. unfold latencies. f_equal. apply list_eq. intros k. rewrite !list_lookup_fmap.
  destruct (decide (k < length l)%nat) as [Hk|Hk].
  - rewrite lookup_seq_lt, Hst by lia. done.
  - rewrite lookup_seq_ge, lookup_ge_None_2 by lia. done.
Qed.

Lemma cyclesToNs_number g c : within (-63) 66 g → 0 <= c < 2 ^ 64 → is_nan (cyclesToNs g c) = false.
Proof.
  intros Hg Hc. unfold cyclesToNs. destruct (of_u64_cases 64 c Hc ltac:(lia)) as [->|Hw].
  - by destruct Hg as (m & e & -> & _).
  - exact (within_not_nan _ _ _ (div_within _ _ _ _ _ _ Hw Hg ltac:(lia) ltac:(lia))).
Qed.

Lemma latencies_spec g stamps samples :
  within (-63) 66 g → 0 < samples → ∃ r, latencies g stamps samples = Some r ∧ Z.of_nat (length r) = samples.
Proof.
  intros Hg Hs. unfold latencies. edestruct std_sort_spec as (r & -> & Hp & _).
  - apply Forall_forall. intros x (k & -> & _)%list_elem_of_fmap. apply cyclesToNs_number; [done|].
    apply uwrap_range. lia.
  - exists r. split; [done|]. rewrite (Permutation_length Hp), length_fmap, length_seq. lia.
Qed.

Lemma latency_columns_spec r p1 p2 p3 :
  0 < Z.of_nat (length r) <= 2 ^ 53 → within (-9) 1 p1 → within (-9) 1 p2 → within (-9) 1 p3 →
  ∃ a b c m, latency_columns r p1 p2 p3 = Some [a; b; c; m].
Proof.
  intros Hr H1 H2 H3. unfold latency_columns.
  assert (∀ p, within (-9) 1 p → ∃ x, percentile r p = Some x) as Hp.
  { intros p Hp. destruct (percentile_in_range r p) as (x & Hx & _); [by apply (mag_within_mono _ _ (-900) 1) in Hp|lia|eauto]. }
  destruct (Hp p1 H1) as [a ->], (Hp p2 H2) as [b ->], (Hp p3 H3) as [c ->].
  destruct (last r) as [m|] eqn:E; [eauto|]. apply last_None in E as ->. simpl in Hr. lia.
Qed.
