(* ===== verification/BenchProcess.v ===== *)
(** * A benchmark process: [main] and the watchdog

    The two threads of a benchmark program of [src/bench]: [main], as the list of
    events that it goes through ([BenchReport.v]), and the detached watchdog
    ([Watchdog.v]), which ends the process with status 3 when a deadline is over.
    Time passes between any two steps.  The constructor of [Deadline] takes three
    steps, its destructor one; every other event is one step of [main].  A call that
    does not return is a step that [main] never takes. *)

From Stdlib Require Import ZArith Lia Ascii String.
From S2P Require Import Prelude MachineInt Decimal Lts Watchdog BenchHarness BenchStats BenchReport.
Local Open Scope Z_scope.
Local Open Scope astra_scope.

Section Process.
Context {C : Type}.
Implicit Types (w : list (event C)).

(** What [main] has yet to do and what it has done, beside the watchdog. *)
Record proc := mkProc { p_dog : Watchdog.cfg; p_todo : list (event C); p_done : list (event C) }.

Inductive pact := Prog | Dog | Time (d : Z).

(** The next event is over. *)
Definition advance (d : Watchdog.cfg) (p : proc) : proc :=
  match p_todo p with
  | e :: todo => mkProc d todo (p_done p ++ [e])
  | [] => mkProc d [] (p_done p)
  end.

(** [main] makes its next step. *)
Definition prog_step (p : proc) : option proc :=
  match p_todo p with
  | [] => None
  | Opened title seconds :: _ =>
      match Watchdog.c_main (p_dog p) with
      | Watchdog.MOut =>
          let? d := Watchdog.exec (p_dog p) (Watchdog.Open title seconds) in Some (mkProc d (p_todo p) (p_done p))
      | Watchdog.MNamed _ => let? d := Watchdog.exec (p_dog p) Watchdog.Main in Some (mkProc d (p_todo p) (p_done p))
      | _ => let? d := Watchdog.exec (p_dog p) Watchdog.Main in Some (advance d p)
      end
  | Closed :: _ => let? d := Watchdog.exec (p_dog p) Watchdog.Close in Some (advance d p)
  | _ :: _ => if Watchdog.exited (p_dog p) then None else Some (advance (p_dog p) p)
  end.

(** When [main] returns the process ends, and the watchdog with it. *)
Definition proc_exec (p : proc) (a : pact) : option proc :=
  let dog x := match p_todo p with
               | [] => None
               | _ => let? d := Watchdog.exec (p_dog p) x in Some (mkProc d (p_todo p) (p_done p))
               end in
  match a with
  | Prog => prog_step p
  | Dog => dog Watchdog.Watch
  | Time d => dog (Watchdog.Tick d)
  end.

Definition proc_machine : machine := Machine proc pact proc_exec.

(** [init()] has started the watchdog at time [t]; [main] goes through [w]. *)
Definition start (t : Z) w : proc := mkProc (Watchdog.startWatchdog t) w [].

(** The exit status of the process, if it has ended: 3 after [_Exit(3)], or what [main]
    returns. *)
Definition exit_status (p : proc) : option Z :=
  if Watchdog.exited (p_dog p) then Some 3
  else match p_todo p with [] => Some (finish (g_failures (p_done p))) | _ => None end.

(** ** Invariant *)

Definition due (t seconds : Z) : Z := t + seconds * 1000000000.

(** Where [main] is in a [Deadline], and what it has done. *)
Definition main_at (p : proc) : Prop :=
  match Watchdog.c_main (p_dog p) with
  | Watchdog.MOut => deadlines false (p_done p) = Some false
  | Watchdog.MNamed secs =>
      deadlines false (p_done p) = Some false ∧ ∃ title todo, p_todo p = Opened title secs :: todo
  | Watchdog.MSum dl =>
      deadlines false (p_done p) = Some false ∧ ∃ title secs todo t, p_todo p = Opened title secs :: todo ∧ dl = due t secs ∧
        t <= Watchdog.c_now (p_dog p)
  | Watchdog.MIn =>
      deadlines false (p_done p) = Some true ∧ ∃ title secs t, Opened title secs ∈ p_done p ∧
        Watchdog.g_deadlineNs (p_dog p) = due t secs ∧ t <= Watchdog.c_now (p_dog p)
  end.

Record proc_inv (t0 : Z) w (p : proc) : Prop := {
  pr_log : p_done p ++ p_todo p = w;
  pr_dog : reachable (M := Watchdog.watchdog_machine) (λ c, c = Watchdog.startWatchdog t0) (p_dog p);
  pr_main : main_at p;
  pr_opened : ∀ t secs, (t, secs) ∈ Watchdog.c_opened (p_dog p) → ∃ title, Opened title secs ∈ w;
}.

(** The watchdog and the clock leave [main] alone. *)
Lemma dog_frame d d' x :
  x = Watchdog.Watch ∨ (∃ k, x = Watchdog.Tick k) → Watchdog.exec d x = Some d' →
  Watchdog.c_main d' = Watchdog.c_main d ∧ Watchdog.c_opened d' = Watchdog.c_opened d ∧
  Watchdog.g_deadlineNs d' = Watchdog.g_deadlineNs d ∧ Watchdog.c_now d <= Watchdog.c_now d'.
Proof.
  intros Hx He. unfold Watchdog.exec in He. destruct (Watchdog.exited d); [done|].
  destruct Hx as [->|[k ->]].
  - unfold Watchdog.watch_step in He. destruct (Watchdog.c_watch d); repeat case_match; simplify_eq/=; split_and!; done || lia.
  - destruct (Z.ltb_spec 0 k); simplify_eq/=. split_and!; done || lia.
Qed.

Lemma proc_inv_start t0 w : proc_inv t0 w (start t0 w).
Proof. split; [done|by apply reach_init|done|]. by intros t secs ?%not_elem_of_nil. Qed.

Lemma proc_inv_dog t0 w p x d :
  proc_inv t0 w p → x = Watchdog.Watch ∨ (∃ k, x = Watchdog.Tick k) → Watchdog.exec (p_dog p) x = Some d →
  proc_inv t0 w (mkProc d (p_todo p) (p_done p)).
Proof.
  intros [Hl Hr Hm Ho] Hx He. destruct (dog_frame _ _ _ Hx He) as (H1 & H2 & H3 & H4). split; [done| | |by simpl; rewrite H2].
  - by eapply (reach_step Watchdog.watchdog_machine).
  - unfold main_at in *. simpl. rewrite H1, H3. destruct (Watchdog.c_main (p_dog p)); try done.
    + destruct Hm as (Hd & ti & secs & todo & t & Ht & -> & Hle). split; [done|]. exists ti, secs, todo, t. split_and!; [done..|lia].
    + destruct Hm as (Hd & ti & secs & t & Ht & Hdl & Hle). split; [done|]. exists ti, secs, t. split_and!; [done..|lia].
Qed.

Lemma done_app w1 e : deadlines false (w1 ++ [e]) = (let? b := deadlines false w1 in deadlines b [e]).
Proof. apply deadlines_app. Qed.

(** A step of [main] outside the constructor of [Deadline]. *)
Lemma proc_inv_event t0 w p e todo :
  proc_inv t0 w p → p_todo p = e :: todo → match e with Opened _ _ | Closed => False | _ => True end →
  deadlines false w = Some false → proc_inv t0 w (mkProc (p_dog p) todo (p_done p ++ [e])).
Proof.
  intros [Hl Hr Hm Ho] Ht He Hd. split; simpl; [by rewrite <- app_assoc, <- Hl, Ht|done| |done].
  rewrite <- Hl, Ht in Hd. rewrite deadlines_app in Hd. unfold main_at in *. simpl. rewrite done_app.
  destruct (Watchdog.c_main (p_dog p)); simpl.
  - rewrite Hm in *. by destruct e.
  - destruct Hm as (_ & ti & todo' & E). rewrite Ht in E. by simplify_eq.
  - destruct Hm as (_ & ti & secs & todo' & t & E & _). rewrite Ht in E. by simplify_eq.
  - destruct Hm as (Hd' & ti & secs & t & Hin & H). rewrite Hd' in *. split; [by destruct e|].
    exists ti, secs, t. split; [apply elem_of_app; by left|done].
Qed.

Lemma proc_inv_prog t0 w p p' : deadlines false w = Some false → proc_inv t0 w p → prog_step p = Some p' → proc_inv t0 w p'.
Proof.
  intros Hdl Hi He. pose proof Hi as [Hl Hr Hm Ho]. unfold prog_step, advance in He.
  destruct (p_todo p) as [|e todo] eqn:Et; [done|].
  assert (∀ d x, Watchdog.exec (p_dog p) x = Some d → reachable (M := Watchdog.watchdog_machine) (λ c, c = Watchdog.startWatchdog t0) d)
    as Hreach by (intros d x Hx; by eapply (reach_step Watchdog.watchdog_machine)).
  assert (∀ x d, Watchdog.exec (p_dog p) x = Some d → (∀ k, x ≠ Watchdog.Tick k) → x ≠ Watchdog.Watch → Watchdog.main_step (p_dog p) x = Some d) as Hms.
  { intros x d Hx H1 H2. unfold Watchdog.exec in Hx. destruct (Watchdog.exited (p_dog p)); [done|]. destruct x; try done. by destruct (H1 d0). }
  destruct e as [ti|ti secs| |c ok|ti u ls|n cols]; try (destruct (Watchdog.exited (p_dog p)); [done|]; injection He as <-; by apply (proc_inv_event t0 w p)).
  - unfold main_at in Hm. destruct (Watchdog.c_main (p_dog p)) as [|secs'|dl|] eqn:Em.
    + destruct (Watchdog.exec _ _) as [d|] eqn:Ex; [|done]. injection He as <-. pose proof (Hms _ _ Ex ltac:(done) ltac:(done)) as Hs.
      unfold Watchdog.main_step in Hs. rewrite Em in Hs. injection Hs as <-.
      split; simpl; [by rewrite <- Hl|by eapply Hreach| |done]. unfold main_at. simpl. eauto.
    + destruct (Watchdog.exec _ _) as [d|] eqn:Ex; [|done]. injection He as <-. pose proof (Hms _ _ Ex ltac:(done) ltac:(done)) as Hs.
      unfold Watchdog.main_step in Hs. rewrite Em in Hs. destruct Hm as (Hd & ti' & todo' & E). rewrite Et in E. injection E as -> -> ->.
      destruct (_ =? _) in Hs; [|done]. injection Hs as <-. split; simpl; [by rewrite <- Hl|by eapply Hreach| |].
      * unfold main_at. simpl. split; [done|]. exists ti', secs', todo', (Watchdog.c_now (p_dog p)). split_and!; done || lia.
      * intros t secs [Hin|[= -> ->]%list_elem_of_singleton]%elem_of_app; [by apply Ho in Hin|].
        exists ti'. rewrite <- Hl. apply elem_of_app. right. by left.
    + destruct (Watchdog.exec _ _) as [d|] eqn:Ex; [|done]. injection He as <-. pose proof (Hms _ _ Ex ltac:(done) ltac:(done)) as Hs.
      unfold Watchdog.main_step in Hs. rewrite Em in Hs. destruct Hm as (Hd & ti' & secs' & todo' & t & E & -> & Hle). rewrite Et in E. injection E as -> -> ->.
      injection Hs as <-. split; simpl; [by rewrite <- Hl, <- app_assoc|by eapply Hreach| |done].
      unfold main_at. simpl. rewrite done_app, Hd. split; [done|]. exists ti', secs', t. split_and!; [|done|done]. apply elem_of_app. right. by left.
    + destruct (Watchdog.exec _ _) as [d|] eqn:Ex; [|done]. pose proof (Hms _ _ Ex ltac:(done) ltac:(done)) as Hs.
      unfold Watchdog.main_step in Hs. by rewrite Em in Hs.
  - destruct (Watchdog.exec _ _) as [d|] eqn:Ex; [|done]. injection He as <-. pose proof (Hms _ _ Ex ltac:(done) ltac:(done)) as Hs.
    unfold Watchdog.main_step in Hs. unfold main_at in Hm. destruct (Watchdog.c_main (p_dog p)); try done. injection Hs as <-.
    split; simpl; [by rewrite <- Hl, <- app_assoc|by eapply Hreach| |done]. unfold main_at. simpl. rewrite done_app. by destruct Hm as [-> _].
Qed.

Lemma proc_inv_exec t0 w p a p' : deadlines false w = Some false → proc_inv t0 w p → proc_exec p a = Some p' → proc_inv t0 w p'.
Proof.
  intros Hdl Hi He. destruct a as [| |k]; simpl in He; [by eapply proc_inv_prog|..];
    (destruct (p_todo p) as [|e todo] eqn:Et; [done|]; rewrite <- Et in He;
     destruct (Watchdog.exec (p_dog p) _) as [d|] eqn:Ex in He; [|done]; injection He as <-).
  - apply (proc_inv_dog t0 w p Watchdog.Watch); auto.
  - apply (proc_inv_dog t0 w p (Watchdog.Tick k)); eauto.
Qed.

Lemma proc_reach t0 w p : deadlines false w = Some false → reachable (M := proc_machine) (λ p, p = start t0 w) p → proc_inv t0 w p.
Proof.
  intros Hdl. revert p. apply invariant; [intros p ->; apply proc_inv_start|]. intros p a p' _. by apply proc_inv_exec.
Qed.

(** ** What becomes of the process *)

(** The clock does not come near the end of [int64_t] while the deadlines of [w] are
    computed. *)
Definition clock_ok w (p : proc) : Prop :=
  ∀ title secs, Opened title secs ∈ w → 0 <= secs ∧ - 2 ^ 63 <= Watchdog.c_now (p_dog p) ∧
    due (Watchdog.c_now (p_dog p)) secs < Watchdog.INT64_MAX.

(** What [main] has yet to do, in steps. *)
Definition prog_work (p : proc) : nat :=
  3 * length (p_todo p) + match Watchdog.c_main (p_dog p) with Watchdog.MOut => 3 | Watchdog.MNamed _ => 2 | Watchdog.MSum _ => 1 | Watchdog.MIn => 3 end.

(** As long as the process has not ended, [main] can go on; time need not pass. *)
Lemma prog_goes_on t0 w p :
  deadlines false w = Some false → proc_inv t0 w p → Watchdog.exited (p_dog p) = false → clock_ok w p → p_todo p ≠ [] →
  ∃ p', prog_step p = Some p' ∧ Watchdog.c_watch (p_dog p') = Watchdog.c_watch (p_dog p) ∧
    Watchdog.c_now (p_dog p') = Watchdog.c_now (p_dog p) ∧ (prog_work p' < prog_work p)%nat.
Proof.
  intros Hdl [Hl Hr Hm Ho] Hx Hc Ht. unfold prog_step, prog_work, advance, main_at, Watchdog.exec in *. rewrite Hx.
  destruct (p_todo p) as [|e todo] eqn:Et; [done|]. rewrite <- Hl, deadlines_app in Hdl.
  destruct e as [ti|ti secs| |c ok|ti u ls|n cols]; try (eexists; split_and!; [done..|simpl; lia]).
  - destruct (Hc ti secs) as (Hs0 & Hn & Hb); [rewrite <- Hl; apply elem_of_app; right; by left|].
    unfold Watchdog.main_step. destruct (Watchdog.c_main (p_dog p)) as [|secs'|dl|] eqn:Em.
    + eexists. split_and!; [done..|simpl; lia].
    + destruct Hm as (_ & ti' & todo' & E). injection E as -> -> ->. unfold due, Watchdog.INT64_MAX in Hb.
      rewrite (swrap_small 64), Z.eqb_refl by lia. eexists. split_and!; [done..|simpl; lia].
    + eexists. split_and!; [done..|simpl; lia].
    + exfalso. destruct Hm as [Hd _]. by rewrite Hd in Hdl.
  - unfold Watchdog.main_step. destruct (Watchdog.c_main (p_dog p)) as [|secs'|dl|] eqn:Em.
    + by rewrite Hm in Hdl.
    + destruct Hm as (_ & ti' & todo' & E). done.
    + destruct Hm as (_ & ti' & ? & todo' & t & E & _). done.
    + eexists. split_and!; [done..|simpl; lia].
Qed.

Lemma prog_finishes t0 w p :
  deadlines false w = Some false → proc_inv t0 w p → Watchdog.exited (p_dog p) = false → clock_ok w p →
  ∃ σ p', Forall (λ a, a = Prog) σ ∧ run (M := proc_machine) p σ = Some p' ∧ p_done p' = w ∧
    exit_status p' = Some (finish (g_failures w)).
Proof.
  intros Hdl. remember (prog_work p) as k eqn:Ek. revert p Ek. induction k as [k IH] using lt_wf_ind. intros p -> Hi Hx Hc.
  destruct (p_todo p) as [|e todo] eqn:Et.
  - exists [], p. pose proof (pr_log _ _ _ Hi) as Hl. rewrite Et, app_nil_r in Hl. unfold exit_status. rewrite Hx, Et, Hl.
    by split_and!; [apply Forall_nil_2|..].
  - destruct (prog_goes_on t0 w p Hdl Hi Hx Hc) as (p1 & He & Hw & Hn & Hlt); [by rewrite Et|].
    destruct (IH _ Hlt p1 eq_refl) as (σ & p' & Hf & Hrun & Hd).
    + by eapply proc_inv_prog.
    + unfold Watchdog.exited in *. by rewrite Hw.
    + intros ti secs Hin. rewrite Hn. by eapply Hc.
    + exists (Prog :: σ), p'. split_and!; [by constructor| |apply Hd..]. simpl. by rewrite He.
Qed.

(** The steps of the watchdog and of the clock alone. *)
Lemma idle_run p σ d d' :
  p_todo p ≠ [] → Watchdog.idle_time σ = Some d → run (M := Watchdog.watchdog_machine) (p_dog p) σ = Some d' →
  ∃ σ', Forall (λ a, a ≠ Prog) σ' ∧ run (M := proc_machine) p σ' = Some (mkProc d' (p_todo p) (p_done p)).
Proof.
  intros Ht. revert p d Ht. induction σ as [|x σ IH]; intros [dog todo dn] d Ht Hi Hr.
  { exists []. simpl in *. simplify_eq. split; [apply Forall_nil_2|done]. }
  simpl in Ht. destruct todo as [|e todo]; [done|].
  change (match Watchdog.exec dog x with Some s' => run (M := Watchdog.watchdog_machine) s' σ | None => None end = Some d') in Hr.
  destruct (Watchdog.exec dog x) as [dog1|] eqn:Ex; [|done].
  assert (∃ a, a ≠ Prog ∧ proc_exec (mkProc dog (e :: todo) dn) a = Some (mkProc dog1 (e :: todo) dn)) as (a & Ha & Hstep).
  { destruct x; simpl in Hi; try done; [exists Dog|exists (Time d0)]; split; [done| |done|]; simpl; by rewrite Ex. }
  assert (∃ d1, Watchdog.idle_time σ = Some d1) as [d1 Hi1].
  { destruct x; simpl in Hi; try done; [eauto|]. destruct (Watchdog.idle_time σ); [eauto|done]. }
  destruct (IH (mkProc dog1 (e :: todo) dn) d1) as (σ' & Hf & Hr'); [done..|].
  exists (a :: σ'). split; [by constructor|]. cbn [run m_exec proc_machine]. by rewrite Hstep.
Qed.

(** While a deadline is open and [main] makes no step, the watchdog ends the process. *)
Lemma watchdog_kills t0 w p :
  deadlines false w = Some false → proc_inv t0 w p → Watchdog.exited (p_dog p) = false → clock_ok w p →
  deadlines false (p_done p) = Some true →
  ∃ σ p', Forall (λ a, a ≠ Prog) σ ∧ run (M := proc_machine) p σ = Some p' ∧ exit_status p' = Some 3.
Proof.
  intros Hdl [Hl Hr Hm Ho] Hx Hc Hopen. unfold main_at in Hm.
  destruct (Watchdog.c_main (p_dog p)) eqn:Em; [congruence|destruct Hm; congruence..|].
  destruct Hm as (_ & ti & secs & t & Hin & Hg & Hle).
  assert (p_todo p ≠ []) as Ht by (intros E; rewrite <- Hl, E, app_nil_r in Hdl; congruence).
  destruct (Hc ti secs) as (Hs0 & _ & Hb); [rewrite <- Hl; apply elem_of_app; by left|]. unfold due in *.
  set (k := Z.max 1 (t + secs * 1000000000 - Watchdog.c_now (p_dog p) + 1)).
  destruct (Watchdog.exec (p_dog p) (Watchdog.Tick k)) as [d1|] eqn:E1.
  2: { unfold Watchdog.exec in E1. rewrite Hx in E1. destruct (Z.ltb_spec 0 k); [done|lia]. }
  destruct (dog_frame _ _ _ (or_intror (ex_intro _ k eq_refl)) E1) as (_ & _ & Hg1 & _).
  assert (Watchdog.c_now d1 = Watchdog.c_now (p_dog p) + k) as Hn1.
  { unfold Watchdog.exec in E1. rewrite Hx in E1. destruct (Z.ltb_spec 0 k); [|lia]. by simplify_eq/=. }
  destruct (Watchdog.watch_fires t0 d1) as [Hex|(σ & d & d' & Hrun & Hex & Hid & _)].
  - by eapply (reach_step Watchdog.watchdog_machine).
  - rewrite Hg1, Hg. lia.
  - rewrite Hg1, Hg, Hn1. unfold k. lia.
  - destruct (idle_run p [Watchdog.Tick k] k d1 Ht) as (σ' & Hf & Hr'); [simpl; f_equal; lia|simpl; by rewrite E1|].
    eexists σ', _. split_and!; [done|exact Hr'|]. unfold exit_status. simpl. by rewrite Hex.
  - destruct (idle_run p (Watchdog.Tick k :: σ) (k + d) d' Ht) as (σ' & Hf & Hr'); [simpl; by rewrite Hid|simpl; by rewrite E1|].
    eexists σ', _. split_and!; [done|exact Hr'|]. unfold exit_status. simpl. by rewrite Hex.
Qed.

(** What becomes of a process whose [main] goes through [w]: it does the events of [w]
    in order; it ends with the status that [main] returns, or the watchdog ends it with
    status 3 after a deadline of [w] was over; as long as it has not ended, [main] can get
    to its end; and if [main] stops moving while a deadline is open, say because a call
    does not return, the watchdog ends the process. *)
Record fate w (p : proc) : Prop := {
  f_prefix : p_done p `prefix_of` w;
  f_status st : exit_status p = Some st →
    (st = finish (g_failures w) ∧ p_done p = w) ∨
    (st = 3 ∧ ∃ title secs t, Opened title secs ∈ w ∧ (t, secs) ∈ Watchdog.c_opened (p_dog p) ∧
       due t secs < Watchdog.c_now (p_dog p));
  f_runs : exit_status p = None → clock_ok w p →
    ∃ σ p', Forall (λ a, a = Prog) σ ∧ run (M := proc_machine) p σ = Some p' ∧ p_done p' = w ∧
      exit_status p' = Some (finish (g_failures w));
  f_killed : exit_status p = None → clock_ok w p → deadlines false (p_done p) = Some true →
    ∃ σ p', Forall (λ a, a ≠ Prog) σ ∧ run (M := proc_machine) p σ = Some p' ∧ exit_status p' = Some 3;
}.

Lemma proc_fate t0 w p :
  deadlines false w = Some false → reachable (M := proc_machine) (λ p, p = start t0 w) p → fate w p.
Proof.
  intros Hdl Hr%proc_reach; [|done]. pose proof Hr as [Hl Hd Hm Ho].
  assert (exit_status p = None → Watchdog.exited (p_dog p) = false) as Hex.
  { unfold exit_status. by destruct (Watchdog.exited (p_dog p)). }
  split.
  - exists (p_todo p). done.
  - unfold exit_status. intros st Hst. destruct (Watchdog.exited (p_dog p)) eqn:E.
    + right. injection Hst as <-. split; [done|]. destruct (Watchdog.watchdog_no_early_alarm t0 _ Hd E) as (t & secs & Hin & Hlt).
      destruct (Ho t secs Hin) as [ti Hti]. by exists ti, secs, t.
    + destruct (p_todo p) eqn:Et; [|done]. injection Hst as <-. left. rewrite app_nil_r in Hl. by rewrite Hl.
  - intros He Hc. apply (prog_finishes t0 w p); auto.
  - intros He Hc Ho'. apply (watchdog_kills t0 w p); auto.
Qed.

(** The same for a process started by a program. *)
Lemma process_fate t w p :
  deadlines false w = Some false → reachable (M := proc_machine) (λ p, Some (start t w) = Some p) p → fate w p.
Proof.
  intros Hdl Hr. apply (proc_fate t w p Hdl). induction Hr as [p Hp|p a p' _ IH He]; [injection Hp as <-; by apply reach_init|].
  by eapply (reach_step proc_machine).
Qed.
End Process.
Arguments proc : clear implicits.
