(* ===== verification/Printf.v ===== *)
(** * What the benchmarks print

    The conversions of [printf] that [src/bench/benchCommon.hpp] and the benchmarks
    use ([%.3f], [%9.2f], [%-30s], ...), and with them the text of the preamble, of a
    table and of a row of latencies.  A [double] is printed correctly rounded: the
    decimal of the given length that is nearest to its exact value, ties to even. *)

From Stdlib Require Import ZArith Lia Ascii String SpecFloat.
From S2P Require Import Prelude MachineInt Decimal Timer Double BenchHarness BenchStats BenchReport.
Local Open Scope Z_scope.
Local Open Scope astra_scope.

(** ** Conversions *)

(** The integer nearest to [p / q]. *)
Definition round_even (p q : Z) : Z :=
  let n := p / q in
  let r := p mod q in
  if 2 * r <? q then n else if q <? 2 * r then n + 1 else if Z.even n then n else n + 1.

(** [m * 2^e] in units of [10^-d]. *)
Definition units (d m e : Z) : Z := round_even (m * 10 ^ d * 2 ^ Z.max 0 e) (2 ^ Z.max 0 (- e)).

(** [n] units of [10^-d]. *)
Definition decimals (d n : Z) : text :=
  let f := show (n mod 10 ^ d) in
  show (n / 10 ^ d) ++ (if d =? 0 then [] else str "." ++ replicate (Z.to_nat d - length f) "0"%char ++ f).

(** [%.df] *)
Definition fixed (d : Z) (x : double) : text :=
  let sign s := str (if s : bool then "-" else "") in
  match x with
  | S754_zero s => sign s ++ decimals d 0
  | S754_finite s m e => sign s ++ decimals d (units d (Zpos m) e)
  | S754_infinity s => sign s ++ str "inf"
  | S754_nan => str "nan"
  end.

(** [%wX] and [%-wX]: at least [w] characters. *)
Definition pad_left (w : nat) (t : text) : text := replicate (w - length t) " "%char ++ t.
Definition pad_right (w : nat) (t : text) : text := t ++ replicate (w - length t) " "%char.

Definition newline : text := ["010"%char].

(** ** The output *)

(** [printPreamble] *)
Definition printPreamble (s : setup) (what : text) : text :=
  let g := s_knobs s in
  what ++ newline ++
  str "  physical cores: " ++ show (coreCount (s_cpus s)) ++ str "   pinned cpus:" ++
  concat ((λ c, str " " ++ show c) <$> s_cpus s) ++ newline ++
  str "  TSC " ++ fixed 3 (s_tscPerNs s) ++ str " GHz   reps " ++ show (g_reps g) ++
  str " (median, min-max)   scale x" ++ show (g_mult g) ++ str "/" ++ show (g_scale g) ++ newline.

(** The note of a row. *)
Definition note_text (r : remark) : text :=
  match r with
  | Plain t => t
  | Fairness f h => str "fairness " ++ fixed 2 f ++ str "  handoffs " ++ pad_left 5 (fixed 2 h) ++ str " M/s"
  end.

(** The lines of [printTable] and its heading. *)
Definition line_text (unit : text) (l : line) : text :=
  match l with
  | SkippedLine n r => str "    " ++ pad_right 30 n ++ str " " ++ note_text r ++ newline
  | StatLine n s ratio unstable r =>
      str "    " ++ pad_right 30 n ++ str " " ++ pad_left 9 (fixed 2 (median s)) ++ str " " ++ pad_right 8 unit ++
      str " range " ++ pad_left 8 (fixed 2 (lo s)) ++ str "-" ++ pad_right 8 (fixed 2 (hi s)) ++
      str "  " ++ pad_left 5 (fixed 2 ratio) ++ str "x vs Astra" ++
      str (if unstable then "  << UNSTABLE" else "") ++
      (match note_text r with [] => [] | _ => str "  " end) ++ note_text r ++ newline
  end.
Definition table_text (title unit : text) (lines : list line) : text :=
  newline ++ str "  " ++ title ++ newline ++ concat (line_text unit <$> lines).

(** A row of a latency table: three percentiles and the maximum. *)
Definition latency_text (n : text) (columns : list double) : text :=
  str "    " ++ pad_right 30 n ++
  concat (imap (λ i x, str " " ++ pad_left (if (i <? 3)%nat then 9 else 10) (fixed 0 x)) columns) ++ newline.

(** ** Printing a number loses at most half a unit of the last digit *)

Lemma round_even_near p q : 0 < q → 2 * Z.abs (round_even p q * q - p) <= q.
Proof.
  intros Hq. unfold round_even. pose proof (Z.div_mod p q ltac:(lia)) as Hp. pose proof (Z.mod_pos_bound p q Hq) as Hr.
  set (n := p / q) in *. set (r := p mod q) in *.
  destruct (Z.ltb_spec (2 * r) q); [nia|]. destruct (Z.ltb_spec q (2 * r)); [nia|]. destruct (Z.even n); nia.
Qed.

Lemma round_even_nonneg p q : 0 <= p → 0 < q → 0 <= round_even p q.
Proof.
  intros Hp Hq. unfold round_even. pose proof (Z.div_pos p q Hp Hq).
  destruct (_ <? _); [done|]. destruct (_ <? _); [lia|]. destruct (Z.even _); lia.
Qed.

(** The digits before and after the point. *)
Lemma decimals_read_back d n : 0 < d → 0 <= n → ∃ before after,
  decimals d n = before ++ str "." ++ after ∧ Z.of_nat (length after) = d ∧
  forallb is_digit (before ++ after) = true ∧ parse before * 10 ^ d + parse after = n.
Proof.
  intros Hd Hn. unfold decimals. rewrite (proj2 (Z.eqb_neq d 0)) by lia. set (f := show (n mod 10 ^ d)).
  assert (0 < 10 ^ d) as Hpow by (apply Z.pow_pos_nonneg; lia). pose proof (Z.mod_pos_bound n (10 ^ d) Hpow) as Hb.
  destruct (show_nonneg (n mod 10 ^ d)) as (Hp & Hf & Hl); [lia|]. specialize (Hl d Hd ltac:(lia)). fold f in Hp, Hf, Hl.
  destruct (show_nonneg (n / 10 ^ d)) as (Hp' & Hf' & _); [by apply Z.div_pos|].
  exists (show (n / 10 ^ d)), (replicate (Z.to_nat d - length f) "0"%char ++ f). split_and!.
  - done.
  - rewrite length_app, length_replicate. lia.
  - rewrite !forallb_app, Hf, Hf', andb_true_r. generalize (Z.to_nat d - length f)%nat as k. by induction k.
  - rewrite parse_zeros, Hp, Hp'. pose proof (Z.div_mod n (10 ^ d) ltac:(lia)). lia.
Qed.

(** A positive finite [double] [m * 2^e] is printed by [%.df] as digits, a point and
    [d] more digits, which read back as a number of units of the last digit that is
    at most half a unit away from the exact value. *)
Theorem fixed_accuracy d m e :
  0 < d → ∃ before after n,
    fixed d (S754_finite false m e) = before ++ str "." ++ after ∧
    Z.of_nat (length after) = d ∧ forallb is_digit (before ++ after) = true ∧
    parse before * 10 ^ d + parse after = n ∧
    2 * Z.abs (n * 2 ^ Z.max 0 (- e) - Zpos m * 10 ^ d * 2 ^ Z.max 0 e) <= 2 ^ Z.max 0 (- e).
Proof.
  intros Hd. set (n := units d (Zpos m) e). assert (0 < 10 ^ d) as P1 by (apply Z.pow_pos_nonneg; lia).
  assert (0 < 2 ^ Z.max 0 (- e)) as P2 by (apply Z.pow_pos_nonneg; lia). assert (0 < 2 ^ Z.max 0 e) as P3 by (apply Z.pow_pos_nonneg; lia).
  destruct (decimals_read_back d n Hd) as (before & after & H1 & H2 & H3 & H4).
  { apply round_even_nonneg; [|done]. apply Z.mul_nonneg_nonneg; lia. }
  exists before, after, n. split_and!; [exact H1|done|done|done|]. by apply round_even_near.
Qed.

Lemma fixed_accuracy_witness : ∃ before after n,
  fixed 3 (S754_finite false 5404319552844596 (-51)) = before ++ str "." ++ after ∧
  parse before * 10 ^ 3 + parse after = n ∧ n = 2400.
Proof.
  destruct (fixed_accuracy 3 5404319552844596 (-51) ltac:(lia)) as (b & a & n & H1 & H2 & H3 & H4 & H5).
  exists b, a, n. split; [exact H1|]. split; [exact H4|].
  assert (2 ^ Z.max 0 (- -51) = 2 ^ 51) as E1 by reflexivity. assert (2 ^ Z.max 0 (-51) = 1) as E2 by reflexivity.
  rewrite E1, E2 in H5. change (10 ^ 3) with 1000 in H5. lia.
Defined.

(** Ties go to the even digit; a row as it is printed. *)
Example fixed_ties : (fixed 2 <$> [literal 125 3; literal 375 3; div (of_u64 2) (of_u64 3); of_u64 7]) = [str "0.12"; str "0.38"; str "0.67"; str "7.00"].
Proof. by vm_compute. Qed.

Example line_printed :
  line_text (str "M ops/s") (StatLine (str "AstraLib AtomicRingBuffer") (mkStat (of_u64 12) (literal 105 1) (of_u64 20)) (of_u64 1) true (Plain [])) =
  str "    AstraLib AtomicRingBuffer          12.00 M ops/s  range    10.50-20.00      1.00x vs Astra  << UNSTABLE" ++ newline.
Proof. by vm_compute. Qed.

Example preamble_printed :
  printPreamble (mkSetup (mkKnobs 4 1 7 false) [0; 2] (literal 24 1)) (str "Title") =
  str "Title" ++ newline ++ str "  physical cores: 2   pinned cpus: 0 2" ++ newline ++
  str "  TSC 2.400 GHz   reps 7 (median, min-max)   scale x1/4" ++ newline.
Proof. by vm_compute. Qed.
