(* ===== verification/WakeLatency.v ===== *)
(** * The latency measurement of the thread-pool benchmark

    Model of the template [wakeLatency] in
    [src/bench/ThreadPoolComparisonBench.cpp]: with the pool idle, submit one task
    that stores its time stamp counter in a local variable of the submitter, and wait
    for the store.  The task holds a reference to [started], which lives for one round
    of the loop: a store after the round would be a use of a dead variable.  The pool
    is any [TaskPool]. *)

From Stdlib Require Import ZArith Lia.
From S2P Require Import Prelude MachineInt Lts ThreadGate ThreadPool PoolInvariant PoolTheorems CondvarPool ThreadPoolBench.
From S2P Require Import Timer Double BenchHarness BenchStats BenchReport.
Local Open Scope Z_scope.
Local Open Scope astra_scope.

Module WakeLatency.

Section Code.
Context {P : TaskPool} (samples spin : Z).

(** Round [k]: at the loop test, at the two time stamp counters of [spinCycles], at
    the declaration of [started] and [t0], at the call of [submit], inside it, at the
    load of [started], at [push_back]. *)
Inductive wpc :=
| WLoop (k : Z)
| WSpinStart (k : Z)
| WSpin (k stop : Z)
| WStart (k : Z)
| WSubmit (k t0 : Z)
| WIn (k t0 : Z)
| WWait (k t0 : Z)
| WPush (k t0 s : Z)
| WDone.

(** [w_started]: the round whose [started] is alive, and its value.  [w_out]: [t0] and
    [s] of each element of [out].  [w_stores] and [w_dangling] are read by no code:
    the stores of the tasks, and whether one was to a dead variable. *)
Record wcfg := mkW {
  w_pool : m_state tp_machine; w_pc : wpc; w_started : option (nat * Z); w_out : list (Z * Z);
  w_stores : list (nat * Z); w_dangling : bool
}.

(** A step of the submitter or of the pool; [tsc] is what [__rdtsc()] reads. *)
Inductive wact := Submitter (tsc : Z) | Pool (a : m_act tp_machine) (tsc : Z).

(** [const uint64_t end = __rdtsc() + c; while (__rdtsc() < end) {}] *)
Definition spin_end (tsc : Z) : Z := to_u64 (tsc + spin).
Definition spinning (tsc stop : Z) : bool := tsc <? stop.

Definition submitter_step (c : wcfg) (tsc : Z) : option wcfg :=
  let next s p st out := Some (mkW s p st out (w_stores c) (w_dangling c)) in
  let stay p := next (w_pool c) p (w_started c) (w_out c) in
  match w_pc c with
  | WLoop k => stay (if k <? samples then WSpinStart k else WDone)
  | WSpinStart k => stay (WSpin k (spin_end tsc))
  | WSpin k stop => stay (if spinning tsc stop then WSpin k stop else WStart k)
  | WStart k => next (w_pool c) (WSubmit k tsc) (Some (Z.to_nat k, 0)) (w_out c)
  | WSubmit k t0 =>
      let? s := m_exec tp_machine (w_pool c) (tp_submit (Z.to_nat k)) in next s (WIn k t0) (w_started c) (w_out c)
  | WIn k t0 => if tp_outside (w_pool c) then stay (WWait k t0) else None
  | WWait k t0 => let? x := w_started c in stay (if x.2 =? 0 then WWait k t0 else WPush k t0 x.2)
  | WPush k t0 s => next (w_pool c) (WLoop (to_u64 (k + 1))) None (w_out c ++ [(t0, s)])
  | WDone => None
  end.

(** The body of task [id]. *)
Definition task_store (tsc : Z) (c : wcfg) (id : nat) : wcfg :=
  let alive := match w_started c with Some (k, _) => (k =? id)%nat | None => false end in
  mkW (w_pool c) (w_pc c) (if alive then Some (id, tsc) else w_started c) (w_out c) (w_stores c ++ [(id, tsc)])
      (w_dangling c || negb alive).

(** The time stamp counter started at 0 long ago. *)
Definition wake_exec (c : wcfg) (x : wact) : option wcfg :=
  match x with
  | Submitter tsc => submitter_step c tsc
  | Pool a tsc =>
      if tp_internal a && (0 <? tsc) && (tsc <? 2 ^ 64)
      then let? s := m_exec tp_machine (w_pool c) a in
           Some (foldl (task_store tsc) (mkW s (w_pc c) (w_started c) (w_out c) (w_stores c) (w_dangling c))
                   (drop (length (tp_executed (w_pool c))) (tp_executed s)))
      else None
  end.

Definition wake_machine : machine := Machine wcfg wact wake_exec.

Definition wake_init : wcfg := mkW tp_start (WLoop 0) None [] [] false.

(** A sample in cycles, [s - t0] in [uint64_t]: the time stamp counter that the task
    read on its core, less the one that the submitter read on its own. *)
Definition wake_sample (t : Z * Z) : Z := to_u64 (t.2 - t.1).

(** [out.push_back(cyclesToNs(s - t0))] for every round, sorted. *)
Definition wakeLatency (tscPerNs : double) (c : wcfg) : option (list double) :=
  std_sort ((λ t, cyclesToNs tscPerNs (wake_sample t)) <$> w_out c).
End Code.
Arguments wcfg : clear implicits.

Section Proofs.
Context {P : TaskPool} (samples spin : Z) (Hs : 0 <= samples < 2 ^ 64).
Abbreviation M := (wake_machine (P := P) samples spin).
Abbreviation fresh := (λ c : wcfg P, c = wake_init).

(** ** The invariant *)

(** Tasks submitted, and samples taken. *)
Definition sub_of (p : wpc) : nat :=
  match p with
  | WLoop k | WSpinStart k | WSpin k _ | WStart k | WSubmit k _ => Z.to_nat k
  | WIn k _ | WWait k _ | WPush k _ _ => S (Z.to_nat k)
  | WDone => Z.to_nat samples
  end.
Definition out_of (p : wpc) : nat :=
  match p with
  | WLoop k | WSpinStart k | WSpin k _ | WStart k | WSubmit k _ | WIn k _ | WWait k _ | WPush k _ _ => Z.to_nat k
  | WDone => Z.to_nat samples
  end.

(** The stores are those of the samples, plus that of the present task. *)
Definition settled (c : wcfg P) : Prop := (w_stores c).*2 = (w_out c).*2.
Definition waiting (k : Z) (c : wcfg P) : Prop := w_started c = Some (Z.to_nat k, 0) ∧ settled c.
Definition stored (k s : Z) (c : wcfg P) : Prop :=
  w_started c = Some (Z.to_nat k, s) ∧ 0 < s < 2 ^ 64 ∧ (w_stores c).*2 = (w_out c).*2 ++ [s].

Definition pc_ok (c : wcfg P) : Prop :=
  match w_pc c with
  | WLoop k => 0 <= k <= samples ∧ tp_outside (w_pool c) = true ∧ settled c
  | WSpinStart k | WSpin k _ | WStart k => 0 <= k < samples ∧ tp_outside (w_pool c) = true ∧ settled c
  | WSubmit k _ => 0 <= k < samples ∧ tp_outside (w_pool c) = true ∧ waiting k c
  | WIn k _ => 0 <= k < samples ∧ (waiting k c ∨ ∃ s, stored k s c)
  | WWait k _ => 0 <= k < samples ∧ tp_outside (w_pool c) = true ∧ (waiting k c ∨ ∃ s, stored k s c)
  | WPush k _ s => 0 <= k < samples ∧ tp_outside (w_pool c) = true ∧ stored k s c
  | WDone => settled c
  end.

Record winv (c : wcfg P) : Prop := {
  wi_pool : tp_inv (w_pool c);
  wi_safe : w_dangling c = false;
  wi_sub : tp_submitted (w_pool c) = List.seq 0 (sub_of (w_pc c));
  wi_exec : tp_executed (w_pool c) = List.seq 0 (length (w_stores c));
  wi_ids : (w_stores c).*1 = List.seq 0 (length (w_stores c));
  wi_out : length (w_out c) = out_of (w_pc c);
  wi_pc : pc_ok c;
}.

Lemma wake_inv_start : winv wake_init.
Proof using Hs.
  destruct tp_inv_start as (Hi & Hsub & Ho). split; simpl; try done.
  - apply submseteq_nil_r. rewrite <- Hsub. by apply tp_once.
  - split_and!; done || apply Hs.
Qed.

Lemma stores_length c : winv c →
  (length (w_stores c) = length (w_out c) ∧ settled c) ∨ (length (w_stores c) = S (length (w_out c)) ∧ sub_of (w_pc c) = S (out_of (w_pc c))).
Proof.
  intros Hw. pose proof (wi_pc _ Hw) as Hp. unfold pc_ok in Hp.
  assert (settled c → length (w_stores c) = length (w_out c)) as H0 by (intros H%(f_equal length); by rewrite !length_fmap in H).
  assert (∀ k s, stored k s c → length (w_stores c) = S (length (w_out c))) as H1.
  { intros k s (_ & _ & H%(f_equal length)). rewrite length_app, !length_fmap in H. simpl in H. lia. }
  destruct (w_pc c) as [k|k|k stop|k|k t0|k t0|k t0|k t0 s|]; simpl in *.
  1-4: (left; destruct Hp as (_ & _ & Hp); auto).
  - left. destruct Hp as (_ & _ & _ & Hp). auto.
  - destruct Hp as (_ & [[_ Hp]|[s Hp]]); [left|right]; eauto.
  - destruct Hp as (_ & _ & [[_ Hp]|[s Hp]]); [left|right]; eauto.
  - destruct Hp as (_ & _ & Hp). right. eauto.
  - left. auto.
Qed.

(** A step of the pool runs no task, or the present one. *)
Lemma pool_runs c a s : winv c → tp_internal a = true → m_exec tp_machine (w_pool c) a = Some s →
  let l := drop (length (tp_executed (w_pool c))) (tp_executed s) in
  tp_executed s = tp_executed (w_pool c) ++ l ∧
  (l = [] ∨ (l = [length (w_stores c)] ∧ settled c ∧ sub_of (w_pc c) = S (length (w_stores c)))).
Proof.
  intros Hw Ha He. destruct (tp_step _ _ _ (wi_pool _ Hw) Ha He) as (Hi' & Hsub & [l Hl] & _). simpl.
  rewrite Hl, drop_app_length. split; [done|]. pose proof (tp_once _ Hi') as Ho.
  rewrite Hl, Hsub, (wi_sub _ Hw), (wi_exec _ Hw) in Ho. pose proof (wi_out _ Hw) as Hout.
  set (n := length (w_stores c)) in *.
  assert (sub_of (w_pc c) = out_of (w_pc c) ∨ sub_of (w_pc c) = S (out_of (w_pc c))) as Hso by (destruct (w_pc c); simpl; auto).
  assert ((sub_of (w_pc c) = n) ∨ (sub_of (w_pc c) = S n ∧ settled c)) as Hn.
  { destruct (stores_length c Hw) as [[H1 H2]|[H1 H2]]; fold n in H1; [|left; lia]. destruct Hso; [left; lia|right; split; [lia|done]]. }
  destruct Hn as [Hn|[Hn Hset]]; rewrite Hn in Ho.
  - left. rewrite <- (app_nil_r (List.seq 0 n)) in Ho at 2. by apply submseteq_app_inv_l, submseteq_nil_r in Ho.
  - rewrite seq_S in Ho. apply submseteq_app_inv_l in Ho. simpl in Ho. destruct l as [|x [|y l]].
    + by left.
    + right. apply singleton_submseteq in Ho. by subst x.
    + apply submseteq_length in Ho. simpl in Ho. lia.
Qed.

Lemma winv_pool c a tsc c' : winv c → wake_exec samples spin c (Pool a tsc) = Some c' → winv c'.
Proof.
  intros Hw He. simpl in He. destruct (tp_internal a) eqn:Ha; [|done]. simpl in He.
  destruct ((0 <? tsc) && (tsc <? 2 ^ 64)) eqn:Ht; [|done]. apply andb_true_iff in Ht as [Ht1%Z.ltb_lt Ht2%Z.ltb_lt].
  destruct (m_exec tp_machine (w_pool c) a) as [s|] eqn:Es; [|done]. injection He as <-.
  destruct (tp_step _ _ _ (wi_pool _ Hw) Ha Es) as (Hi' & Hsub & _ & Hout). destruct (pool_runs c a s Hw Ha Es) as [Hex Hl].
  destruct Hw as [Hi Hsafe Hsb Hx Hids Ho Hp].
  destruct Hl as [Hl|(Hl & Hset & Hn)]; rewrite Hl in Hex |- *; cbn [foldl].
  - rewrite app_nil_r in Hex. split; simpl; try congruence. unfold pc_ok, waiting, stored, settled in *. simpl.
    destruct (w_pc c); intuition.
  - assert (∃ k, (∃ t0, w_pc c = WIn k t0 ∨ w_pc c = WWait k t0) ∧ 0 <= k < samples ∧ length (w_stores c) = Z.to_nat k ∧
      w_started c = Some (Z.to_nat k, 0)) as (k & Hk & Hr & Hlen & Hst).
    { pose proof (f_equal length Hset) as Hll. rewrite !length_fmap in Hll. unfold pc_ok in Hp.
      destruct (w_pc c) as [k|k|k stop|k|k t0|k t0|k t0|k t0 x|]; simpl in *; try lia.
      - exists k. destruct Hp as (? & [[? _]|(x & _ & _ & Hx')]); [split_and!; eauto; lia|].
        apply (f_equal length) in Hx'. rewrite length_app, !length_fmap in Hx'. simpl in Hx'. lia.
      - exists k. destruct Hp as (? & _ & [[? _]|(x & _ & _ & Hx')]); [split_and!; eauto; lia|].
        apply (f_equal length) in Hx'. rewrite length_app, !length_fmap in Hx'. simpl in Hx'. lia.
      - exfalso. destruct Hp as (_ & _ & _ & _ & Hx'). apply (f_equal length) in Hx'. rewrite length_app, !length_fmap in Hx'.
        simpl in Hx'. lia. }
    unfold task_store. simpl. rewrite Hst, Hlen, Nat.eqb_refl. simpl.
    split; simpl; rewrite ?length_app; simpl; rewrite ?Nat.add_1_r, ?seq_S; simpl; try congruence.
    + by rewrite Hsafe.
    + rewrite fmap_app, Hids, Hlen. done.
    + assert (stored k tsc (mkW s (w_pc c) (Some (Z.to_nat k, tsc)) (w_out c) (w_stores c ++ [(Z.to_nat k, tsc)]) (w_dangling c || false))) as Hsd.
      { split_and!; simpl; [done|lia..|]. by rewrite fmap_app, Hset. }
      unfold pc_ok in Hp |- *. simpl. destruct Hk as [t0 [Ek|Ek]]; rewrite Ek in Hp |- *; [by eauto|].
      destruct Hp as (_ & Hoo & _). split_and!; [lia..|by apply Hout|eauto].
Qed.

(** The fields of the invariant that a step of the submitter outside [submit] leaves
    alone. *)
Lemma winv_stay c p st : winv c → sub_of p = sub_of (w_pc c) → out_of p = out_of (w_pc c) →
  let c' := mkW (w_pool c) p st (w_out c) (w_stores c) (w_dangling c) in pc_ok c' → winv c'.
Proof. intros [Hi Hsafe Hsb Hx Hids Ho Hp] Hsub Hout c' Hok. split; simpl; congruence || done. Qed.

Lemma winv_submitter c tsc c' : winv c → submitter_step samples spin c tsc = Some c' → winv c'.
Proof using Hs.
  intros Hw He. pose proof Hw as [Hi Hsafe Hsb Hx Hids Ho Hp]. unfold pc_ok in Hp. unfold submitter_step in He.
  destruct (w_pc c) as [k|k|k stop|k|k t0|k t0|k t0|k t0 s|] eqn:Ep; try done.
  - destruct Hp as (Hk & Hout & Hset). injection He as <-.
    destruct (Z.ltb_spec k samples); apply winv_stay; rewrite ?Ep; simpl; try done.
    + split_and!; [lia..|done|done].
    + by assert (k = samples) as -> by lia.
    + by assert (k = samples) as -> by lia.
  - injection He as <-. apply winv_stay; by rewrite ?Ep.
  - injection He as <-. destruct (spinning tsc stop); apply winv_stay; by rewrite ?Ep.
  - injection He as <-. apply winv_stay; rewrite ?Ep; try done. destruct Hp as (Hk & Hout & Hset). split_and!; done || lia || exact Hset.
  - destruct Hp as (Hk & Hout & Hwait). destruct (tp_enter _ (Z.to_nat k) Hi Hout) as (s & Es & Hi' & Hsub & Hex).
    rewrite Es in He. simpl in He. injection He as <-. simpl in Hsb.
    split; simpl; try done; [rewrite Hsub, Hsb; symmetry; exact (seq_S (Z.to_nat k) 0)|congruence|]. split; [lia|]. left. exact Hwait.
  - destruct (tp_outside (w_pool c)) eqn:Eo; [|done]. injection He as <-. destruct Hp as [Hk Hp].
    by apply winv_stay; rewrite ?Ep.
  - destruct Hp as (Hk & Hout & Hp). destruct Hp as [Hp|[s Hp]]; pose proof Hp as [Hst _]; rewrite Hst in He; simpl in He; injection He as <-.
    + apply winv_stay; rewrite ?Ep; try done. split_and!; simpl; [lia..|done|left; split; [done|exact (proj2 Hp)]].
    + pose proof Hp as (_ & Hr & Hss). rewrite (proj2 (Z.eqb_neq s 0)) by lia. by apply winv_stay; rewrite ?Ep.
  - destruct Hp as (Hk & Hout & Hst & Hr & Hss). injection He as <-. rewrite uwrap_small by lia. simpl in Hsb, Ho.
    split; simpl; try done.
    + rewrite Hsb. by replace (Z.to_nat (k + 1)) with (S (Z.to_nat k)) by lia.
    + rewrite length_app. simpl. lia.
    + split_and!; [lia..|done|]. unfold settled. simpl. by rewrite fmap_app.
Qed.

Lemma wake_inv_exec c x c' : winv c → wake_exec samples spin c x = Some c' → winv c'.
Proof using Hs. intros Hw He. destruct x as [tsc|a tsc]; [by eapply winv_submitter|by eapply winv_pool]. Qed.

Lemma wake_inv_reachable c : reachable (M := M) fresh c → winv c.
Proof using Hs. revert c. apply invariant; [intros c ->; apply wake_inv_start|]. intros c a c' _. apply wake_inv_exec. Qed.

(** C38. What [wakeLatency] measures, for every pool that keeps the promises of
    [TaskPool]: no task ever writes to a [started] that is gone, and at the end there
    is one sample for each of the [samples] tasks, which ran once each and in order,
    and its second time stamp is the one that this task took. *)
Theorem wake_measures_own_task c :
  reachable (M := M) fresh c → w_dangling c = false ∧
  (w_pc c = WDone → Z.of_nat (length (w_out c)) = samples ∧ tp_executed (w_pool c) = List.seq 0 (Z.to_nat samples) ∧
     w_stores c = zip (List.seq 0 (Z.to_nat samples)) (w_out c).*2).
Proof using Hs.
  intros Hw%wake_inv_reachable. pose proof Hw as [Hi Hsafe Hsb Hx Hids Ho Hp]. split; [done|]. intros Hd.
  unfold pc_ok in Hp. rewrite Hd in Ho, Hp. simpl in Ho. pose proof (f_equal length Hp) as Hl. rewrite !length_fmap in Hl.
  split_and!; [lia|by rewrite Hx, Hl, Ho|]. rewrite <- Hp, <- Ho, <- Hl, <- Hids. symmetry. apply zip_fst_snd.
Qed.

(** The result, from the stamps. *)
Lemma wake_latencies tscPerNs c stamps :
  reachable (M := M) fresh c → w_pc c = WDone →
  (∀ k, (k < Z.to_nat samples)%nat → w_out c !! k = Some (stamps k)) →
  wakeLatency tscPerNs c = latencies tscPerNs stamps samples.
Proof using Hs.
  intros Hw%wake_inv_reachable Hd. apply (latencies_list tscPerNs). rewrite (wi_out _ Hw), Hd. simpl. lia.
Qed.

(** ** It ends *)

Definition w_rank (p : wpc) : Z :=
  match p with
  | WLoop k => 8 * (samples - k) + 1
  | WSpinStart k => 8 * (samples - k)
  | WSpin k _ => 8 * (samples - k) - 1
  | WStart k => 8 * (samples - k) - 2
  | WSubmit k _ => 8 * (samples - k) - 3
  | WIn k _ => 8 * (samples - k) - 4
  | WWait k _ => 8 * (samples - k) - 5
  | WPush k _ _ => 8 * (samples - k) - 6
  | WDone => 0
  end.

Lemma task_store_frame tsc l c :
  w_pool (foldl (task_store tsc) c l) = w_pool c ∧ w_pc (foldl (task_store tsc) c l) = w_pc c.
Proof. revert c. induction l as [|id l IH]; intros c; [done|]. simpl. destruct (IH (task_store tsc c id)) as [-> ->]. done. Qed.

(** The pool does what was submitted. *)
Lemma wake_pool c σ s : Forall (λ a, tp_internal a = true) σ → run (M := tp_machine) (w_pool c) σ = Some s →
  ∃ c', run (M := M) c ((λ a, Pool a 1) <$> σ) = Some c' ∧ w_pool c' = s ∧ w_pc c' = w_pc c.
Proof.
  revert c. induction σ as [|a σ IH]; intros c Hf Hr; simpl in Hr.
  { simplify_eq. by exists c. }
  apply Forall_cons in Hf as [Ha Hf]. destruct (m_exec tp_machine (w_pool c) a) as [s1|] eqn:E; [|done].
  simpl. rewrite Ha, E. simpl. set (c1 := foldl _ _ _). destruct (task_store_frame 1 (drop (length (tp_executed (w_pool c))) (tp_executed s1))
    (mkW s1 (w_pc c) (w_started c) (w_out c) (w_stores c) (w_dangling c))) as [H1 H2]. fold c1 in H1, H2.
  destruct (IH c1 Hf) as (c' & Hr' & Hp' & Hc'); [by rewrite H1|]. exists c'. split_and!; [done|done|]. by rewrite Hc', H2.
Qed.

Lemma wake_goes_on c : winv c → tp_outside (w_pool c) = true → tp_executed (w_pool c) ≡ₚ tp_submitted (w_pool c) →
  w_pc c = WDone ∨ ∃ tsc c', submitter_step samples spin c tsc = Some c' ∧ 0 <= w_rank (w_pc c') < w_rank (w_pc c).
Proof using Hs.
  intros Hw Hout Hl. pose proof Hw as [Hi Hsafe Hsb Hx Hids Ho Hp]. unfold pc_ok in Hp. unfold submitter_step.
  destruct (w_pc c) as [k|k|k stop|k|k t0|k t0|k t0|k t0 s|] eqn:Ep; [right..|by left].
  - exists 0. eexists. split; [done|]. simpl. destruct (Z.ltb_spec k samples); simpl; lia.
  - exists 0. eexists. split; [done|]. simpl. lia.
  - exists stop. eexists. split; [done|]. simpl. unfold spinning. rewrite Z.ltb_irrefl. simpl. lia.
  - exists 0. eexists. split; [done|]. simpl. lia.
  - destruct Hp as (Hk & _). destruct (tp_enter _ (Z.to_nat k) Hi Hout) as (s & -> & _). exists 0. eexists. split; [done|]. simpl. lia.
  - rewrite Hout. exists 0. eexists. split; [done|]. simpl. lia.
  - exists 0. destruct Hp as (Hk & _ & [[Hst Hset]|[s (Hst & Hr & _)]]).
    + exfalso. apply Permutation_length in Hl. rewrite Hx, Hsb, !length_seq in Hl. pose proof (f_equal length Hset) as Hll.
      rewrite !length_fmap in Hll. simpl in *. lia.
    + rewrite Hst. simpl. rewrite (proj2 (Z.eqb_neq s 0)) by lia. eexists. split; [done|]. simpl. lia.
  - exists 0. eexists. split; [done|]. simpl. rewrite uwrap_small by lia. lia.
Qed.

Lemma wake_inv_run c σ c' : winv c → run (M := M) c σ = Some c' → winv c'.
Proof using Hs.
  revert c. induction σ as [|a σ IH]; intros c Hw Hr; simpl in Hr; [by simplify_eq|].
  destruct (wake_exec samples spin c a) as [c1|] eqn:E; [|done]. apply (IH c1); [by eapply wake_inv_exec|done].
Qed.

(** [wakeLatency] does not hang: from every reachable state it can take the samples that
    are left. *)
Theorem wake_completes c :
  reachable (M := M) fresh c → ∃ σ c', run (M := M) c σ = Some c' ∧ w_pc c' = WDone.
Proof using Hs.
  intros Hw%wake_inv_reachable. remember (Z.to_nat (w_rank (w_pc c))) as n eqn:En. revert c En Hw.
  induction n as [n IH] using lt_wf_ind. intros c -> Hw.
  destruct (tp_drains _ (wi_pool _ Hw)) as (σ & s & Hf & Hr & _ & _ & Ho & Hp). destruct (wake_pool c σ s Hf Hr) as (c1 & Hr1 & Hs1 & Hp1).
  pose proof (wake_inv_run _ _ _ Hw Hr1) as Hw1. rewrite <- Hs1 in Ho, Hp.
  destruct (wake_goes_on c1 Hw1 Ho Hp) as [Hd|(tsc & c2 & He & Hlt)]; [by eauto|].
  destruct (IH (Z.to_nat (w_rank (w_pc c2)))) with (c := c2) as (τ & c' & Hr2 & Hd); [rewrite <- Hp1; lia|done|by eapply winv_submitter|].
  exists (((λ a, Pool a 1) <$> σ) ++ Submitter tsc :: τ), c'. split; [|done]. rewrite run_app, Hr1.
  cbn [run m_exec wake_machine wake_exec]. by rewrite He.
Qed.
End Proofs.

(** A sample is the latency only if the counter of the worker's core is not behind:
    otherwise it is the latency plus 2^64, and as the largest one it is what the
    table shows as the maximum. *)
Theorem wake_sample_skew t0 s :
  0 <= t0 < 2 ^ 64 → 0 <= s < 2 ^ 64 →
  wake_sample (t0, s) = if t0 <=? s then s - t0 else 2 ^ 64 - (t0 - s).
Proof.
  intros H0 Hs. unfold wake_sample. simpl. destruct (Z.leb_spec t0 s); [by apply uwrap_small; lia|].
  rewrite (uwrap_eq_cong 64 ltac:(lia) (s - t0) (2 ^ 64 - (t0 - s)) (-1)) by lia. apply uwrap_small. lia.
Qed.

Lemma wake_sample_skew_witness : wake_sample (1000, 990) = 2 ^ 64 - 10.
Proof. apply (wake_sample_skew 1000 990); lia. Defined.

(** ** One sample on a condition-variable pool of one worker *)

Abbreviation CV1 := (CVPool 1 bench_one_worker).

Definition ex_wake_sched : list (wact (P := CV1)) :=
  [Submitter 0; Submitter 5; Submitter 9; Submitter 15; Submitter 20; Submitter 0] ++
  ((λ a, Pool (P := CV1) a 30) <$>
    (replicate 3 (CondvarPool.Client 0) ++ [CondvarPool.Notify 0 None] ++ replicate 6 (CondvarPool.Work 0))).
Definition ex_wake_end : list (wact (P := CV1)) := [Submitter 0; Submitter 0; Submitter 0; Submitter 0].
Abbreviation ex_machine := (wake_machine (P := CV1) 1 10).
Definition ex_wake : wcfg CV1 := default wake_init (run (M := ex_machine) wake_init (ex_wake_sched ++ ex_wake_end)).
Definition ex_wake_mid : wcfg CV1 := default wake_init (run (M := ex_machine) wake_init (take 8 ex_wake_sched)).

Lemma wake_measures_own_task_witness : w_pc ex_wake = WDone ∧ w_out ex_wake = [(20, 30)] ∧ w_dangling ex_wake = false.
Proof.
  split; [by vm_compute|]. split; [by vm_compute|].
  apply (wake_measures_own_task (P := CV1) 1 10 ltac:(lia) ex_wake).
  apply (run_reachable ex_machine _ wake_init (ex_wake_sched ++ ex_wake_end)); [by apply reach_init|].
  apply (run_default (M := ex_machine) wake_init (ex_wake_sched ++ ex_wake_end) wake_init). by vm_compute.
Defined.

Lemma wake_completes_witness :
  w_pc ex_wake_mid = WIn 0 20 ∧ ∃ σ c', run (M := ex_machine) ex_wake_mid σ = Some c' ∧ w_pc c' = WDone.
Proof.
  split; [by vm_compute|]. apply (wake_completes (P := CV1) 1 10 ltac:(lia) ex_wake_mid).
  apply (run_reachable ex_machine _ wake_init (take 8 ex_wake_sched)); [by apply reach_init|].
  apply (run_default (M := ex_machine) wake_init (take 8 ex_wake_sched) wake_init). by vm_compute.
Defined.
End WakeLatency.
