(* ===== verification/RunPinned.v ===== *)
(** * runPinned: a start barrier and a join

    Model of [runPinned] in [src/bench/benchCommon.hpp], which every benchmark
    uses: it spawns [n] threads that pin themselves, report in [ready] and spin
    on [go]; the calling thread waits for all of them, reads the clock, sets
    [go], joins them and reads the clock again.  [body(i)] is whatever the
    benchmark runs; here it is an interval of time, from its start to its end.
    The clock is [steady_clock]: time passes by [Tick]s. *)

From Stdlib Require Import ZArith Lia.
From S2P Require Import Prelude MachineInt Lts.
Local Open Scope Z_scope.
Local Open Scope astra_scope.

Module RunPinned.

(** A thread: pinning itself, at the [fetch_add], spinning on [go], inside the
    body since [start], finished with the body's interval. *)
Inductive tpc := TPin | TReady | TSpin | TBody (start : Z) | TDone (start stop : Z).

(** The caller: creating thread [length ts], in [pinCoordinatorAway], at the
    loop on [ready], at the store to [go], joining, at [unpin()], returned. *)
Inductive cpc :=
| CSpawn
| CPin
| CWait
| CGo (t0 : Z)
| CJoin (t0 : Z) (i : nat)
| CUnpin (t0 t1 : Z)
| CReturn (elapsed : Z).

Record cfg := mkCfg { ready : Z; go : bool; ts : list tpc; caller : cpc; clock : Z }.

Inductive act := Caller | Thread (i : nat) | Tick (d : nat).

Definition set_caller (c : cfg) (p : cpc) : cfg := mkCfg (ready c) (go c) (ts c) p (clock c).

Definition caller_step (n : nat) (c : cfg) : option cfg :=
  match caller c with
  | CSpawn =>
      if (length (ts c) <? n)%nat
      then Some (mkCfg (ready c) (go c) (ts c ++ [TPin]) CSpawn (clock c))
      else Some (set_caller c CPin)
  | CPin => Some (set_caller c CWait)
  | CWait => Some (if ready c <? Z.of_nat n then c else set_caller c (CGo (clock c)))
  | CGo t0 => Some (mkCfg (ready c) true (ts c) (CJoin t0 0) (clock c))
  | CJoin t0 i =>
      if (i <? length (ts c))%nat
      then match ts c !! i with
           | Some (TDone _ _) => Some (set_caller c (CJoin t0 (S i)))
           | _ => None
           end
      else Some (set_caller c (CUnpin t0 (clock c)))
  | CUnpin t0 t1 => Some (set_caller c (CReturn (t1 - t0)))
  | CReturn _ => None
  end.

Definition thread_step (c : cfg) (i : nat) (p : tpc) : option cfg :=
  let next r q := mkCfg r (go c) (<[i := q]> (ts c)) (caller c) (clock c) in
  match p with
  | TPin => Some (next (ready c) TReady)
  | TReady => Some (next (to_u32 (ready c + 1)) TSpin)
  | TSpin => Some (if negb (go c) then c else next (ready c) (TBody (clock c)))
  | TBody s => Some (next (ready c) (TDone s (clock c)))
  | TDone _ _ => None
  end.

Definition runPinned (n : nat) (c : cfg) (a : act) : option cfg :=
  match a with
  | Caller => caller_step n c
  | Thread i => let? p := ts c !! i in thread_step c i p
  | Tick d => Some (mkCfg (ready c) (go c) (ts c) (caller c) (clock c + Z.of_nat d))
  end.

Definition pinned_machine (n : nat) : machine := Machine cfg act (runPinned n).

Definition init (c : cfg) : Prop := ∃ now, c = mkCfg 0 false [] CSpawn now.

Section Proofs.
Context (n : nat) (Hn : Z.of_nat n < 2 ^ 32).
Abbreviation M := (pinned_machine n).

Definition is_ready (p : tpc) : nat := match p with TPin | TReady => 0 | _ => 1 end.
Definition started (p : tpc) : bool := match p with TBody _ | TDone _ _ => true | _ => false end.
Definition is_done (p : tpc) : bool := match p with TDone _ _ => true | _ => false end.
Definition readies (l : list tpc) : nat := sum_list (is_ready <$> l).

(** When the caller read the clock before the release, if it has. *)
Definition t0_of (p : cpc) : option Z :=
  match p with CGo t0 | CJoin t0 _ | CUnpin t0 _ => Some t0 | _ => None end.

(** The body's interval lies between two points in time. *)
Definition within (lo hi : Z) (p : tpc) : Prop :=
  match p with TBody s => lo <= s <= hi | TDone s e => lo <= s <= e ∧ e <= hi | _ => True end.

Record inv (c : cfg) : Prop := {
  i_ready : ready c = Z.of_nat (readies (ts c));
  i_len : (length (ts c) <= n)%nat;
  i_all : caller c ≠ CSpawn → length (ts c) = n;
  i_go : go c = true ↔ match caller c with CJoin _ _ | CUnpin _ _ | CReturn _ => True | _ => False end;
  i_start : ∀ i p, ts c !! i = Some p → started p = true → go c = true;
  i_barrier : match caller c with CSpawn | CPin | CWait => True | _ => readies (ts c) = n end;
  i_joined : match caller c with
             | CJoin _ i => (i <= n)%nat ∧ ∀ j p, (j < i)%nat → ts c !! j = Some p → is_done p = true
             | CUnpin _ _ | CReturn _ => ∀ j p, ts c !! j = Some p → is_done p = true
             | _ => True
             end;
  i_times : match caller c with
            | CGo t0 => t0 <= clock c
            | CJoin t0 _ => t0 <= clock c ∧ ∀ i p, ts c !! i = Some p → within t0 (clock c) p
            | CUnpin t0 t1 => ∀ i p, ts c !! i = Some p → within t0 t1 p
            | CReturn el => ∃ t0, ∀ i p, ts c !! i = Some p → within t0 (t0 + el) p
            | _ => True
            end;
}.

Lemma readies_cons p l : readies (p :: l) = (is_ready p + readies l)%nat.
Proof. done. Qed.

Lemma readies_le l : (readies l <= length l)%nat.
Proof. induction l as [|p l IH]; [done|]. rewrite readies_cons. destruct p; simpl in *; lia. Qed.

Lemma readies_insert l i p q :
  l !! i = Some p → (readies (<[i := q]> l) + is_ready p = readies l + is_ready q)%nat.
Proof. apply sum_fmap_insert. Qed.

Lemma readies_snoc l p : readies (l ++ [p]) = (readies l + is_ready p)%nat.
Proof. unfold readies. rewrite fmap_app, sum_list_with_app. simpl. unfold id. lia. Qed.

Lemma within_mono lo hi hi' p : within lo hi p → hi <= hi' → within lo hi' p.
Proof. destruct p; simpl; intros; lia. Qed.

Lemma inv_init c : init c → inv c.
Proof. intros [now ->]. by split; simpl; [|lia|..]. Qed.

Lemma inv_tick c d : inv c → inv (mkCfg (ready c) (go c) (ts c) (caller c) (clock c + Z.of_nat d)).
Proof.
  intros [H1 H2 H3 H4 H5 H6 H7 H8]. split; simpl; try done.
  destruct (caller c); simpl in *; try done; [lia|]. destruct H8 as [H8 H8']. split; [lia|].
  intros j p Hp. eapply within_mono; [by eapply H8'|]. lia.
Qed.

Lemma inv_caller c c' : inv c → caller_step n c = Some c' → inv c'.
Proof.
  intros [H1 H2 H3 H4 H5 H6 H7 H8] Hs. unfold caller_step in Hs.
  destruct (caller c) as [| | |t0|t0 i|t0 t1|el] eqn:Ec; simpl in *.
  - destruct (Nat.ltb_spec (length (ts c)) n); injection Hs as <-; split; simpl; try done.
    + rewrite readies_snoc. simpl. lia.
    + rewrite length_app. simpl. lia.
    + intros i p [[Hp _]|[_ <-]]%lookup_snoc_cases; [by eapply H5|done].
    + intros _. lia.
  - specialize (H3 ltac:(done)). injection Hs as <-. by split.
  - specialize (H3 ltac:(done)). destruct (Z.ltb_spec (ready c) (Z.of_nat n)); injection Hs as <-.
    + split; rewrite ?Ec; done.
    + split; simpl; try done. pose proof (readies_le (ts c)). lia.
  - specialize (H3 ltac:(done)). injection Hs as <-. split; simpl; try done.
    + split; [lia|]. intros; lia.
    + split; [done|]. intros i p Hp. destruct (started p) eqn:Hst; [|by destruct p].
      exfalso. by apply H4, (H5 i p).
  - specialize (H3 ltac:(done)). destruct H7 as [H7 H7'], H8 as [H8 H8'].
    destruct (Nat.ltb_spec i (length (ts c))).
    + destruct (ts c !! i) as [[| | | |s e]|] eqn:Ei; try done. injection Hs as <-. split; simpl; try done.
      split; [lia|]. intros j p Hj Hp. destruct (decide (j = i)) as [->|]; [by simplify_eq|].
      apply (H7' j p); [lia|done].
    + injection Hs as <-. split; simpl; try done.
      intros j p Hp. apply (H7' j p); [|done]. apply lookup_lt_Some in Hp. lia.
  - specialize (H3 ltac:(done)). injection Hs as <-. split; simpl; try done. exists t0. intros i p Hp.
    by replace (t0 + (t1 - t0)) with t1 by lia; eapply H8.
  - done.
Qed.

(** A thread moves on: from [p], not finished, to [q]. *)
Lemma inv_next c i p q :
  inv c → ts c !! i = Some p → is_done p = false → (is_ready p <= is_ready q)%nat →
  (started q = true → go c = true) →
  (∀ t0, t0 <= clock c → within t0 (clock c) p → within t0 (clock c) q) →
  inv (mkCfg (ready c + Z.of_nat (is_ready q - is_ready p)) (go c) (<[i := q]> (ts c)) (caller c) (clock c)).
Proof.
  intros [H1 H2 H3 H4 H5 H6 H7 H8] Hi Hnd Hr Hq Hw.
  pose proof (readies_insert _ _ _ q Hi) as Hri. pose proof (readies_le (<[i := q]> (ts c))) as Hle.
  rewrite length_insert in Hle. split; simpl; rewrite ?length_insert; try done.
  - lia.
  - intros j x [(<-&<-&_)|(_&Hx)]%lookup_insert_cases Hst; eauto.
  - destruct (caller c); try done; lia.
  - destruct (caller c); try done.
    + destruct H7 as [H7 H7']. split; [done|]. intros j x Hj [(<-&<-&_)|(_&Hx)]%lookup_insert_cases; [|eauto].
      specialize (H7' _ _ Hj Hi). congruence.
    + specialize (H7 _ _ Hi). congruence.
    + specialize (H7 _ _ Hi). congruence.
  - destruct (caller c); try done.
    + destruct H8 as [H8 H8']. split; [done|].
      intros j x [(<-&<-&_)|(_&Hx)]%lookup_insert_cases; [|eauto]. apply Hw; eauto.
    + specialize (H7 _ _ Hi). congruence.
    + specialize (H7 _ _ Hi). congruence.
Qed.

Lemma inv_thread c i p c' : inv c → ts c !! i = Some p → thread_step c i p = Some c' → inv c'.
Proof using Hn.
  intros Hc Hi Hs. pose proof (λ q, inv_next c i p q Hc Hi) as Hnext.
  pose proof (readies_le (ts c)) as Hle. pose proof (i_len _ Hc) as Hlen. pose proof (i_ready _ Hc) as Hr.
  destruct p as [| | |s|s e]; simpl in Hs; try done.
  - injection Hs as <-. specialize (Hnext TReady). rewrite Z.add_0_r in Hnext. by apply Hnext.
  - injection Hs as <-. specialize (Hnext TSpin). pose proof (readies_insert _ _ _ TSpin Hi) as Hri.
    pose proof (readies_le (<[i := TSpin]> (ts c))). rewrite length_insert in *. simpl in *.
    rewrite uwrap_small by lia. by apply Hnext; [|lia|..].
  - destruct (go c) eqn:Hg; injection Hs as <-; [|done]. specialize (Hnext (TBody (clock c))).
    rewrite Z.add_0_r in Hnext. apply Hnext; try done.
  - injection Hs as <-. specialize (Hnext (TDone s (clock c))). rewrite Z.add_0_r in Hnext.
    apply Hnext; try done. intros _. by apply (i_start _ Hc i (TBody s)).
Qed.

Lemma inv_step c a c' : inv c → runPinned n c a = Some c' → inv c'.
Proof using Hn.
  intros Hc Hs. destruct a as [|i|d]; simpl in Hs.
  - by eapply inv_caller.
  - destruct (ts c !! i) eqn:Hi; [|done]. by eapply inv_thread.
  - injection Hs as <-. by apply inv_tick.
Qed.

Lemma pinned_inv_reachable c : reachable (M := M) init c → inv c.
Proof using Hn. apply invariant; [apply inv_init|]. intros s a s' _ Hi He. by apply (inv_step s a). Qed.

(** The barrier of [runPinned]: a thread is inside or past its body only
    after all [n] threads were created and reported ready, so no body starts
    before the last thread is pinned. *)
Theorem runPinned_barrier c i p :
  reachable (M := M) init c → ts c !! i = Some p → started p = true →
  length (ts c) = n ∧ ready c = Z.of_nat n ∧ Forall (λ q, is_ready q = 1%nat) (ts c).
Proof using Hn.
  intros Hr Hi Hp. pose proof (pinned_inv_reachable c Hr) as [H1 H2 H3 H4 H5 H6 H7 H8].
  pose proof (H5 _ _ Hi Hp) as Hg. apply H4 in Hg.
  assert (readies (ts c) = n) as Hrd by (by destruct (caller c)).
  assert (length (ts c) = n) as Hl by (apply H3; by destruct (caller c)).
  split; [done|]. split; [lia|]. rewrite <- Hl in Hrd. clear -Hrd.
  induction (ts c) as [|q l IH]; [done|]. pose proof (readies_le l). rewrite readies_cons in Hrd. simpl in Hrd.
  assert (is_ready q <= 1)%nat by (destruct q; simpl; lia).
  constructor; [lia|]. apply IH. lia.
Qed.

(** The result of [runPinned]: when it returns, all [n] bodies have run, each
    exactly once, and the time it returns spans all of them: they lie between
    some [t0] and [t0 + elapsed]. *)
Theorem runPinned_returns c elapsed :
  reachable (M := M) init c → caller c = CReturn elapsed →
  length (ts c) = n ∧ ∃ t0, ∀ i, (i < n)%nat → ∃ s e, ts c !! i = Some (TDone s e) ∧
    t0 <= s <= e ∧ e <= t0 + elapsed.
Proof using Hn.
  intros Hr Hc. pose proof (pinned_inv_reachable c Hr) as [H1 H2 H3 H4 H5 H6 H7 H8]. rewrite Hc in *.
  specialize (H3 ltac:(done)). split; [done|]. destruct H8 as [t0 Ht]. exists t0. intros i Hi.
  destruct (lookup_lt_is_Some_2 (ts c) i) as [p Hp]; [lia|].
  specialize (H7 _ _ Hp). specialize (Ht _ _ Hp). destruct p; try done. by exists start, stop.
Qed.

(** Steps that remain. *)
Definition t_work (p : tpc) : nat :=
  match p with TPin => 4 | TReady => 3 | TSpin => 2 | TBody _ => 1 | TDone _ _ => 0 end.
Definition c_work (c : cfg) : nat :=
  match caller c with
  | CSpawn => 6 * (n - length (ts c)) + n + 6
  | CPin => n + 5
  | CWait => n + 4
  | CGo _ => n + 3
  | CJoin _ i => n - i + 2
  | CUnpin _ _ => 1
  | CReturn _ => 0
  end.
Definition total (c : cfg) : nat := c_work c + sum_list (t_work <$> ts c).

Lemma total_thread c i p q r :
  ts c !! i = Some p → (t_work q < t_work p)%nat →
  (total (mkCfg r (go c) (<[i := q]> (ts c)) (caller c) (clock c)) < total c)%nat.
Proof.
  intros Hi Hw. unfold total, c_work. simpl. rewrite length_insert.
  pose proof (sum_fmap_insert t_work (ts c) i p q Hi). lia.
Qed.

(** A thread that has not reported, or any thread after the release, can go on;
    otherwise it is the caller's turn. *)
Lemma thread_moves c i p :
  ts c !! i = Some p → is_done p = false → (p = TSpin → go c = true) →
  ∃ c', runPinned n c (Thread i) = Some c' ∧ (total c' < total c)%nat.
Proof.
  intros Hi Hd Hg. simpl. rewrite Hi.
  destruct p; try done; simpl; try (eexists; split; [done|]; by eapply total_thread; [done|simpl; lia]).
  rewrite (Hg eq_refl). simpl. eexists. split; [done|]. rewrite <- (Hg eq_refl).
  by eapply total_thread; [done|simpl; lia].
Qed.

Lemma not_ready l : (readies l < length l)%nat → ∃ i p, l !! i = Some p ∧ is_ready p = 0%nat.
Proof.
  induction l as [|p l IH]; intros H; [simpl in H; lia|].
  destruct (is_ready p) eqn:E; [by exists 0%nat, p|]. rewrite readies_cons in H. simpl in H.
  destruct IH as (i & q & Hi & Hq); [destruct p; simpl in *; lia|]. by exists (S i), q.
Qed.

Lemma can_move c :
  inv c → (0 < c_work c)%nat →
  ∃ a c', runPinned n c a = Some c' ∧ (total c' < total c)%nat.
Proof.
  intros [H1 H2 H3 H4 H5 H6 H7 H8] Hw. unfold c_work in Hw.
  assert (∀ p, caller_step n c = Some (set_caller c p) →
    (c_work (set_caller c p) < c_work c)%nat → ∃ a c', runPinned n c a = Some c' ∧ (total c' < total c)%nat) as Hcall.
  { intros p Hs Hlt. exists Caller, (set_caller c p). split; [done|]. unfold total. simpl. lia. }
  destruct (caller c) as [| | |t0|t0 i|t0 t1|el] eqn:Ec; [..|lia].
  - destruct (Nat.ltb_spec (length (ts c)) n).
    + exists Caller. simpl. unfold caller_step. rewrite Ec. destruct (Nat.ltb_spec (length (ts c)) n); [|lia].
      eexists. split; [done|]. unfold total, c_work. simpl. rewrite Ec, fmap_app, length_app, sum_list_with_app.
      simpl. unfold id. lia.
    + apply (Hcall CPin); unfold c_work, caller_step; rewrite Ec; simpl.
      * by destruct (Nat.ltb_spec (length (ts c)) n); [lia|].
      * lia.
  - apply (Hcall CWait); unfold c_work, caller_step; rewrite Ec; simpl; [done|lia].
  - specialize (H3 ltac:(done)). destruct (Z.ltb_spec (ready c) (Z.of_nat n)).
    + destruct (not_ready (ts c)) as (i & p & Hi & Hp); [lia|].
      destruct (thread_moves c i p Hi) as (c' & ? & ?); [by destruct p|by intros ->|]. eauto.
    + apply (Hcall (CGo (clock c))); unfold c_work, caller_step; rewrite Ec; simpl; [|lia].
      by destruct (Z.ltb_spec (ready c) (Z.of_nat n)); [lia|].
  - exists Caller. simpl. unfold caller_step. rewrite Ec. eexists. split; [done|].
    unfold total, c_work. simpl. rewrite Ec. lia.
  - specialize (H3 ltac:(done)). destruct H7 as [H7 _]. destruct (Nat.ltb_spec i (length (ts c))).
    + destruct (lookup_lt_is_Some_2 (ts c) i) as [p Hp]; [lia|]. destruct (is_done p) eqn:Hd.
      * apply (Hcall (CJoin t0 (S i))); unfold c_work, caller_step; rewrite Ec; simpl; [|lia].
        destruct (Nat.ltb_spec i (length (ts c))); [|lia]. rewrite Hp. by destruct p.
      * destruct (thread_moves c i p Hp Hd) as (c' & ? & ?); [intros _; by apply H4|]. eauto.
    + apply (Hcall (CUnpin t0 (clock c))); unfold c_work, caller_step; rewrite Ec; simpl; [|lia].
      by destruct (Nat.ltb_spec i (length (ts c))); [lia|].
  - apply (Hcall (CReturn (t1 - t0))); unfold c_work, caller_step; rewrite Ec; simpl; [done|lia].
Qed.

(** [runPinned] returns: from every reachable state boundedly many steps that
    are not spins lead to its return. *)
Theorem runPinned_completes c :
  reachable (M := M) init c →
  ∃ σ c' elapsed, run (M := M) c σ = Some c' ∧ (length σ <= total c)%nat ∧ caller c' = CReturn elapsed.
Proof using Hn.
  intros Hr%pinned_inv_reachable.
  destruct (measure_completes M inv (λ c, ∃ el, caller c = CReturn el) total) with (s := c)
    as (σ & c' & Hrun & Hl & el & Hel); [| |done|by exists σ, c', el].
  - intros s a s'. apply inv_step.
  - intros s Hs. destruct (c_work s) as [|k] eqn:Ek; [left|right; apply can_move; [done|lia]].
    unfold c_work in Ek. destruct (caller s) as [| | | | | |el]; try lia. by exists el.
Qed.
End Proofs.

(** Two threads; time passes while they run. *)
Definition ex_init : cfg := mkCfg 0 false [] CSpawn 100.
Definition ex_sched : list act :=
  replicate 4 Caller ++ [Thread 0; Thread 0; Caller; Thread 1; Thread 1; Caller; Tick 5; Caller;
   Thread 1; Tick 7; Thread 1; Thread 0; Tick 1; Thread 0] ++ replicate 4 Caller.
Definition ex_at (k : nat) : cfg := default ex_init (run (M := pinned_machine 2) ex_init (take k ex_sched)).

Lemma pinned_ex_reach k :
  run (M := pinned_machine 2) ex_init (take k ex_sched) = Some (ex_at k) →
  reachable (M := pinned_machine 2) init (ex_at k).
Proof. intros H. eapply run_reachable; [|exact H]. apply reach_init. by exists 100. Qed.

Lemma runPinned_barrier_witness : length (ts (ex_at 13)) = 2%nat ∧ ready (ex_at 13) = 2.
Proof.
  destruct (runPinned_barrier 2 ltac:(lia) (ex_at 13) 1 (TBody 105)) as (H1 & H2 & _).
  - apply pinned_ex_reach. vm_compute. reflexivity.
  - vm_compute. reflexivity.
  - vm_compute. reflexivity.
  - exact (conj H1 H2).
Defined.

Lemma runPinned_returns_witness : ∃ t0, ∀ i, (i < 2)%nat →
  ∃ s e, ts (ex_at 22) !! i = Some (TDone s e) ∧ t0 <= s <= e ∧ e <= t0 + 13.
Proof.
  destruct (runPinned_returns 2 ltac:(lia) (ex_at 22) 13) as [_ H].
  - apply pinned_ex_reach. vm_compute. reflexivity.
  - vm_compute. reflexivity.
  - exact H.
Defined.

Lemma runPinned_completes_witness : ∃ σ c' elapsed,
  run (M := pinned_machine 2) (ex_at 7) σ = Some c' ∧ caller c' = CReturn elapsed.
Proof.
  destruct (runPinned_completes 2 ltac:(lia) (ex_at 7)) as (σ & c' & el & H1 & _ & H2).
  - apply pinned_ex_reach. vm_compute. reflexivity.
  - exists σ, c', el. exact (conj H1 H2).
Defined.

End RunPinned.
