(* ===== verification/QueueBench.v ===== *)
(** * The throughput measurement of the queue benchmark

    Model of the template [throughput] in [src/bench/QueueComparisonBench.cpp]: [P]
    producers push the values [i + 1 + k * P], [C] consumers pop and sum up, and
    the sum is checked against [N * (N + 1) / 2].  The queue is any [Adapter], run
    step by step; the consumers' and producers' threads are those released by
    [runPinned]. *)

From Stdlib Require Import ZArith Lia.
From S2P Require Import Prelude MachineInt Lts AtomicRingBuffer RingInvariant RingTheorems IndexPool.
From S2P Require Import Adapter RingAdapter BenchHarness.
Local Open Scope Z_scope.
Local Open Scope astra_scope.

Section Code.
Context {Q : Type} `{!Adapter Q} (P C : nat) (N : Z).

Definition perProducer : Z := N / Z.of_nat P.
Definition perConsumer : Z := N / Z.of_nat C.

(** [i + 1 + k * P]: [i + 1] is computed in [unsigned], the rest in [uint64_t]. *)
Definition pushed_value (i : nat) (k : Z) : Z :=
  to_u64 (to_u32 (Z.of_nat i + 1) + to_u64 (k * Z.of_nat P)).

(** The body of thread [i]: at the loop test, inside [push] or [pop], at
    [sum.fetch_add], finished.  [got] is read by no code: the values popped. *)
Inductive bpc :=
| PLoop (i : nat) (k : Z)
| PPush (i : nat) (k : Z)
| PDone (i : nat)
| CLoop (k s : Z) (got : list Z)
| CPop (k s : Z) (got : list Z)
| CAdd (s : Z) (got : list Z)
| CDone (got : list Z).

Record bcfg := mkB { b_q : Q; b_thr : list bpc; b_sum : Z }.

(** One step of the body of thread [t]; [a] decides what the queue leaves open. *)
Definition body_step (c : bcfg) (t : nat) (a : ad_choice Q) (p : bpc) : option bcfg :=
  let next q p' := Some (mkB q (<[t := p']> (b_thr c)) (b_sum c)) in
  match p with
  | PLoop i k =>
      if k <? perProducer
      then let? q := ad_push (b_q c) t (pushed_value i k) in next q (PPush i k)
      else next (b_q c) (PDone i)
  | PPush i k =>
      let? r := ad_thr (b_q c) !! t in
      match r with
      | Pushed => let? q := ad_ret (b_q c) t in next q (PLoop i (to_u64 (k + 1)))
      | _ => let? q := ad_run (b_q c) t a in next q p
      end
  | CLoop k s got =>
      if k <? perConsumer
      then let? q := ad_pop (b_q c) t in next q (CPop k s got)
      else next (b_q c) (CAdd s got)
  | CPop k s got =>
      let? r := ad_thr (b_q c) !! t in
      match r with
      | Popped v => let? q := ad_ret (b_q c) t in next q (CLoop (to_u64 (k + 1)) (to_u64 (s + v)) (v :: got))
      | _ => let? q := ad_run (b_q c) t a in next q p
      end
  | CAdd s got => Some (mkB (b_q c) (<[t := CDone got]> (b_thr c)) (to_u64 (b_sum c + s)))
  | PDone _ | CDone _ => None
  end.

Definition throughput_step (c : bcfg) (ta : nat * ad_choice Q) : option bcfg :=
  let? p := b_thr c !! ta.1 in body_step c ta.1 ta.2 p.

Definition throughput_machine : machine := Machine bcfg (nat * ad_choice Q) throughput_step.

(** The queue and [sum] are fresh; [body(i)] for [i < P] is a producer. *)
Definition throughput_init (fresh : Q → Prop) (c : bcfg) : Prop :=
  fresh (b_q c) ∧ b_sum c = 0 ∧
  b_thr c = ((λ i, PLoop i 0) <$> List.seq 0 P) ++ replicate C (CLoop 0 0 []).

Definition finished (p : bpc) : bool := match p with PDone _ | CDone _ => true | _ => false end.

(** [const uint64_t expect = N * (N + 1) / 2;] and the condition of the check. *)
Definition expect : Z := to_u64 (to_u64 N * to_u64 (N + 1)) / 2.
Definition check_sum (c : bcfg) : bool := b_sum c =? expect.
End Code.
Arguments bcfg : clear implicits.
Arguments throughput_machine Q {_} _ _ _.

(** The number of values of a shape: [N -= N % (uint64_t(s.P) * s.C);] *)
Definition rounded (n : Z) (P C : nat) : Z := to_u64 (n - n mod to_u64 (Z.of_nat P * Z.of_nat C)).

(** ** The values *)

Section Values.
Context (P : nat).

(** The first [k] values of producer [i]. *)
Definition vals (i : nat) (k : Z) : list Z := (λ j, Z.of_nat i + 1 + j * Z.of_nat P) <$> seqZ 0 k.

Lemma vals_succ i k : 0 <= k → vals i (k + 1) = vals i k ++ [Z.of_nat i + 1 + k * Z.of_nat P].
Proof. intros Hk. unfold vals. by rewrite seqZ_app, fmap_app by lia. Qed.

(** The producers' values, all of them, are the numbers from 1 on. *)
Lemma vals_all k : 0 <= k → concat ((λ i, vals i k) <$> List.seq 0 P) ≡ₚ seqZ 1 (Z.of_nat P * k).
Proof.
  intros Hk. pattern k. apply natlike_ind; [| |done].
  - rewrite Z.mul_0_r. simpl. by rewrite concat_nils by (intros i x (? & -> & _)%list_lookup_fmap_Some; done).
  - intros m Hm IH. replace (Z.of_nat P * Z.succ m) with (Z.of_nat P * m + Z.of_nat P) by lia.
    rewrite seqZ_app by lia.
    assert ((λ i, vals i (Z.succ m)) <$> List.seq 0 P = (λ i, vals i m ++ [Z.of_nat i + 1 + m * Z.of_nat P]) <$> List.seq 0 P) as ->.
    { apply list_fmap_ext. intros _ i _. by apply vals_succ. }
    rewrite concat_fmap_snoc, IH. f_equiv. match goal with |- ?a ≡ₚ ?b => assert (a = b) as ->; [|done] end.
    apply list_eq. intros j. rewrite list_lookup_fmap.
    destruct (decide (j < P)%nat).
    + rewrite lookup_seq_lt, lookup_seqZ_lt by lia. simpl. f_equal. lia.
    + by rewrite lookup_seq_ge, lookup_seqZ_ge by lia.
Qed.

(** At most [k] items from each element. *)
Lemma concat_length_le {B} (f : B → list Z) (l : list B) k :
  (∀ i x, l !! i = Some x → Z.of_nat (length (f x)) <= k) →
  Z.of_nat (length (concat (f <$> l))) <= Z.of_nat (length l) * k.
Proof.
  induction l as [|x l IH]; intros H; [done|]. rewrite fmap_cons. cbn [concat length].
  rewrite length_app. specialize (IH (λ i, H (S i))). specialize (H 0%nat x eq_refl). lia.
Qed.

Lemma concat_length_eq {B} (f : B → list Z) (l : list B) k :
  (∀ i x, l !! i = Some x → Z.of_nat (length (f x)) = k) →
  Z.of_nat (length (concat (f <$> l))) = Z.of_nat (length l) * k.
Proof.
  induction l as [|x l IH]; intros H; [done|]. rewrite fmap_cons. cbn [concat length].
  rewrite length_app. specialize (IH (λ i, H (S i))). specialize (H 0%nat x eq_refl). lia.
Qed.

Lemma concat_length_lt {B} (f : B → list Z) (l : list B) k i x :
  (∀ i x, l !! i = Some x → Z.of_nat (length (f x)) <= k) →
  l !! i = Some x → Z.of_nat (length (f x)) < k →
  Z.of_nat (length (concat (f <$> l))) < Z.of_nat (length l) * k.
Proof.
  revert i. induction l as [|y l IH]; intros i H Hi Hx; [done|]. rewrite fmap_cons. cbn [concat length].
  rewrite length_app. pose proof (H 0%nat y eq_refl). destruct i as [|i].
  - injection Hi as ->. pose proof (concat_length_le f l k (λ i, H (S i))). lia.
  - specialize (IH i (λ i, H (S i)) Hi Hx). lia.
Qed.

Lemma length_vals i k : 0 <= k → Z.of_nat (length (vals i k)) = k.
Proof. intros Hk. unfold vals. rewrite length_fmap, length_seqZ. lia. Qed.
End Values.

Section Proofs.
Context {Q : Type} `{!Adapter Q} (P C : nat) (N : Z).
Context (HPC : (0 < P)%nat ∧ (0 < C)%nat ∧ Z.of_nat (P + C) < 2 ^ 32).
Context (HN : 0 <= N < 2 ^ 64) (HdP : (Z.of_nat P | N)) (HdC : (Z.of_nat C | N)).
Context `{!Conserves Q (P + C) (split_roles P)}.
Abbreviation M := (throughput_machine Q P C N).
Abbreviation pP := (perProducer P N).
Abbreviation pC := (perConsumer C N).
Abbreviation vals := (vals P).

Lemma per_thread : N = Z.of_nat P * pP ∧ N = Z.of_nat C * pC ∧ 0 <= pP <= N ∧ 0 <= pC <= N.
Proof using HPC HN HdP HdC.
  destruct HdP as [a Ha], HdC as [b Hb]. unfold perProducer, perConsumer.
  assert (N / Z.of_nat P = a) as -> by (rewrite Ha; apply Z.div_mul; lia).
  assert (N / Z.of_nat C = b) as -> by (rewrite Hb; apply Z.div_mul; lia). nia.
Qed.

Definition pushed (p : bpc) : list Z :=
  match p with PLoop i k => vals i k | PPush i k => vals i (k + 1) | PDone i => vals i pP | _ => [] end.
Definition got_of (p : bpc) : list Z :=
  match p with CLoop _ _ g | CPop _ _ g | CAdd _ g | CDone g => g | _ => [] end.
Definition added_of (p : bpc) : list Z := match p with CDone g => g | _ => [] end.

Lemma pushed_value_exact i k :
  (i < P)%nat → 0 <= k < pP → pushed_value P i k = Z.of_nat i + 1 + k * Z.of_nat P.
Proof using HPC HN HdP HdC.
  intros Hi Hk. destruct per_thread as (E & _ & _). unfold pushed_value.
  rewrite (uwrap_small 32) by lia. rewrite (uwrap_small 64 (k * _)) by nia. apply uwrap_small. nia.
Qed.

(** What holds of thread [t], and where it is in the queue. *)
Definition thread_ok (t : nat) (p : bpc) : Prop :=
  match p with
  | PLoop i k => i = t ∧ (t < P)%nat ∧ 0 <= k <= pP
  | PPush i k => i = t ∧ (t < P)%nat ∧ 0 <= k < pP
  | PDone i => i = t ∧ (t < P)%nat
  | CLoop k s g => (P <= t)%nat ∧ k = Z.of_nat (length g) ∧ k <= pC ∧ s = to_u64 (sumZ g)
  | CPop k s g => (P <= t)%nat ∧ k = Z.of_nat (length g) ∧ k < pC ∧ s = to_u64 (sumZ g)
  | CAdd s g => (P <= t)%nat ∧ Z.of_nat (length g) = pC ∧ s = to_u64 (sumZ g)
  | CDone g => (P <= t)%nat ∧ Z.of_nat (length g) = pC
  end.
Definition inside (p : bpc) (r : phase) : Prop :=
  match p with
  | PPush _ _ => r = Pushing ∨ r = Pushed
  | CPop _ _ _ => r = Popping ∨ ∃ v, r = Popped v
  | _ => r = Outside
  end.

Record binv (c : bcfg Q) : Prop := {
  bi_flow : ad_flow (b_q c) (concat (got_of <$> b_thr c)) (concat (pushed <$> b_thr c));
  bi_len : length (b_thr c) = (P + C)%nat;
  bi_thr : ∀ t p, b_thr c !! t = Some p → thread_ok t p;
  bi_queue : ∀ t p, b_thr c !! t = Some p → ∃ r, ad_thr (b_q c) !! t = Some r ∧ inside p r;
  bi_sum : b_sum c = to_u64 (sumZ (concat (added_of <$> b_thr c)));
}.

(** One thread moves from [p] to [p'], its place in the queue to [r']. *)
Lemma binv_next c t p p' q' r' sum' :
  binv c → b_thr c !! t = Some p → thread_ok t p' → ad_thr q' = <[t := r']> (ad_thr (b_q c)) → inside p' r' →
  ad_flow q' (concat (got_of <$> <[t := p']> (b_thr c))) (concat (pushed <$> <[t := p']> (b_thr c))) →
  sum' = to_u64 (sumZ (concat (added_of <$> <[t := p']> (b_thr c)))) →
  binv (mkB q' (<[t := p']> (b_thr c)) sum').
Proof.
  intros [Hf Hl Ht Hr Hs] Hp Hok Hq Hin Hf' Hs'. split; simpl; [done|by rewrite length_insert| | |done].
  - intros j x [(<-&<-&_)|(_&Hx)]%lookup_insert_cases; eauto.
  - intros j x [(<-&<-&_)|(Hne&Hx)]%lookup_insert_cases.
    + exists r'. split; [|done]. rewrite Hq. destruct (Hr t p Hp) as (r & Hrt & _).
      apply list_lookup_insert_eq. by eapply lookup_lt_Some.
    + rewrite Hq, list_lookup_insert_ne by done. eauto.
Qed.

(** The same when the thread has neither pushed nor popped. *)
Lemma binv_same c t p p' q' r' :
  binv c → b_thr c !! t = Some p → thread_ok t p' → ad_thr q' = <[t := r']> (ad_thr (b_q c)) → inside p' r' →
  ad_flow q' (concat (got_of <$> b_thr c)) (concat (pushed <$> b_thr c)) →
  got_of p' = got_of p → pushed p' = pushed p → added_of p' = added_of p →
  binv (mkB q' (<[t := p']> (b_thr c)) (b_sum c)).
Proof.
  intros Hc Hp Hok Hq Hin Hf Hg Hpu Ha. eapply binv_next; try done.
  - by rewrite (concat_fmap_same got_of _ _ p), (concat_fmap_same pushed _ _ p).
  - rewrite (concat_fmap_same added_of _ _ p) by done. apply (bi_sum _ Hc).
Qed.

(** A loop test that ends the loop does not touch the queue. *)
Lemma stay_idle c t p : binv c → b_thr c !! t = Some p → (∀ r, inside p r → r = Outside) →
  ad_thr (b_q c) = <[t := Outside]> (ad_thr (b_q c)).
Proof.
  intros Hc Hp Hi. destruct (bi_queue _ Hc t p Hp) as (r & Hr & ->%Hi). by rewrite list_insert_id.
Qed.

(** The steps one by one: a call of [push], a step inside a call, the returns. *)
Lemma binv_push c t k q' :
  binv c → b_thr c !! t = Some (PLoop t k) → (t < P)%nat → 0 <= k < pP →
  ad_push (b_q c) t (pushed_value P t k) = Some q' → binv (mkB q' (<[t := PPush t k]> (b_thr c)) (b_sum c)).
Proof using HPC HN HdP HdC.
  intros Hc Hp HtP Hk E. rewrite pushed_value_exact in E by lia.
  eapply binv_next; [done|done|simpl; lia|by eapply push_thr|by left| |].
  - eapply ad_flow_push; [apply (bi_flow _ Hc)|by apply split_pushes|exact E|].
    intros rest Hrest. rewrite (concat_fmap_same got_of _ _ _ (PPush t k) Hp eq_refl).
    pose proof (concat_fmap_insert pushed _ t _ (PPush t k) Hp) as H2. simpl in H2.
    rewrite vals_succ, <- app_assoc in H2 by lia. apply Permutation_app_inv_l in H2.
    rewrite H2. simpl. by rewrite Hrest.
  - rewrite (concat_fmap_same added_of _ _ _ (PPush t k) Hp eq_refl). apply (bi_sum _ Hc).
Qed.

Lemma binv_run c t a p r q' :
  binv c → b_thr c !! t = Some p → ad_thr (b_q c) !! t = Some r → ad_run (b_q c) t a = Some q' →
  binv (mkB q' (<[t := p]> (b_thr c)) (b_sum c)).
Proof.
  intros Hc Hp Hr E. destruct (bi_queue _ Hc t p Hp) as (r0 & Hr0 & Hin). assert (r0 = r) as -> by congruence.
  destruct (run_thr _ _ _ _ _ _ _ (bi_flow _ Hc) E Hr) as (r' & Hq & Hg).
  eapply binv_same; [done|exact Hp|by apply (bi_thr _ Hc)|exact Hq| |by eapply ad_flow_run, E; apply (bi_flow _ Hc)|done..].
  destruct p; simpl in *; try (subst r; by destruct r').
  - destruct Hin as [->| ->]; destruct r'; try done; eauto.
  - destruct Hin as [->|[v ->]]; destruct r'; try done; eauto.
Qed.

Lemma binv_popped c t k s g v q' :
  binv c → b_thr c !! t = Some (CPop k s g) → ad_thr (b_q c) !! t = Some (Popped v) → ad_ret (b_q c) t = Some q' →
  binv (mkB q' (<[t := CLoop (to_u64 (k + 1)) (to_u64 (s + v)) (v :: g)]> (b_thr c)) (b_sum c)).
Proof using HPC HN HdP HdC.
  intros Hc Hp Hr E. pose proof (bi_thr _ Hc t _ Hp) as (HtP & -> & Hk & ->). destruct per_thread as (_ & _ & _ & BC).
  rewrite uwrap_small by lia. eapply binv_next; [done|exact Hp| |by eapply ret_thr|done| |].
  - simpl. split_and!; [done|lia|lia|]. rewrite (Z.add_comm (to_u64 _)), Z.add_comm, uwrap_add_l by lia.
    f_equal. unfold sumZ. simpl. lia.
  - pose proof (ad_flow_ret _ _ _ _ _ _ (bi_flow _ Hc) Hr E) as H. simpl in H.
    eapply ad_flow_perm; [| |exact H].
    + pose proof (concat_fmap_insert got_of _ t _ (CLoop (Z.of_nat (length g) + 1) (to_u64 (to_u64 (sumZ g) + v)) (v :: g)) Hp) as H2.
      simpl in H2. rewrite Permutation_middle in H2. by apply Permutation_app_inv_l in H2.
    + by rewrite (concat_fmap_same pushed _ _ _ _ Hp).
  - rewrite (concat_fmap_same added_of _ _ _ _ Hp) by done. apply (bi_sum _ Hc).
Qed.

Lemma binv_step c ta c' : binv c → throughput_step P C N c ta = Some c' → binv c'.
Proof using HPC HN HdP HdC.
  destruct ta as [t a]. intros Hc He. unfold throughput_step in He. cbn [fst snd] in He.
  destruct (b_thr c !! t) as [p|] eqn:Hp; [|done]. pose proof (bi_thr _ Hc t p Hp) as Hok.
  pose proof (bi_flow _ Hc) as Hf. destruct per_thread as (EP & EC & BP & BC).
  destruct (bi_queue _ Hc t p Hp) as (r & Hr & Hin).
  destruct p as [i k|i k|i|k s g|k s g|s g|g]; cbn [body_step] in He; simpl in Hok, Hin; try done; rewrite ?Hr in He.
  - destruct Hok as (-> & HtP & Hk). destruct (Z.ltb_spec k pP).
    + destruct (ad_push _ _ _) as [q|] eqn:E; [|done]. injection He as <-. apply binv_push; try done. lia.
    + injection He as <-. assert (k = pP) as -> by lia.
      eapply (binv_same c t (PLoop t pP) (PDone t) (b_q c) Outside); try done. by eapply stay_idle.
  - destruct Hok as (-> & HtP & Hk). destruct Hin as [-> | ->].
    + destruct (ad_run _ _ _) as [q|] eqn:E; [|done]. injection He as <-. by eapply binv_run.
    + destruct (ad_ret _ _) as [q|] eqn:E; [|done]. injection He as <-. rewrite uwrap_small by lia.
      eapply (binv_same c t (PPush t k) (PLoop t (k + 1)) q Outside); try done; [simpl; lia|by eapply ret_thr|].
      exact (ad_flow_ret _ _ _ _ _ _ Hf Hr E).
  - destruct Hok as (HtP & -> & Hk & ->). destruct (Z.ltb_spec (Z.of_nat (length g)) pC).
    + destruct (ad_pop _ _) as [q|] eqn:E; [|done]. injection He as <-.
      eapply binv_same; [done|exact Hp|done|by eapply pop_thr|by left| |done..].
      eapply ad_flow_pop; [done|by apply split_pops|done].
    + injection He as <-. eapply (binv_same c t _ _ (b_q c) Outside); [done|exact Hp| |by eapply stay_idle|done..].
      simpl. split_and!; [done|lia|done].
  - destruct Hin as [-> |[v ->]].
    + destruct (ad_run _ _ _) as [q|] eqn:E; [|done]. injection He as <-. by eapply binv_run.
    + destruct (ad_ret _ _) as [q|] eqn:E; [|done]. injection He as <-. by apply binv_popped.
  - destruct Hok as (HtP & Hl & ->). injection He as <-.
    eapply binv_next; [done|exact Hp|done|by eapply stay_idle|done| |].
    + by rewrite (concat_fmap_same got_of _ _ _ _ Hp), (concat_fmap_same pushed _ _ _ _ Hp).
    + pose proof (concat_fmap_insert added_of _ t _ (CDone g) Hp) as H2. simpl in H2.
      rewrite H2, sumZ_app, (bi_sum _ Hc), uwrap_add_l, Z.add_comm by lia.
      by rewrite uwrap_add_l.
Qed.
Context (fresh : Q → Prop) (Hfresh : starts_with (R := split_roles P) fresh []).

Lemma binv_init c : throughput_init P C fresh c → binv c.
Proof using HPC HN HdP HdC Hfresh.
  intros (Hq & Hs & Ht). destruct per_thread as (_ & _ & BP & BC).
  assert (∀ t p, b_thr c !! t = Some p → (p = PLoop t 0 ∧ (t < P)%nat) ∨ (p = CLoop 0 0 [] ∧ (P <= t)%nat)) as Hp.
  { intros t p. rewrite Ht. intros [H|[Hge H]]%lookup_app_Some.
    - left. apply list_lookup_fmap_Some in H as (i & -> & Hi). apply lookup_seq in Hi as [-> ?]. done.
    - right. apply lookup_replicate in H as [-> _]. rewrite length_fmap, length_seq in Hge. done. }
  assert (∀ f, (∀ i, f (PLoop i 0) = []) → f (CLoop 0 0 []) = [] → concat (f <$> b_thr c) = @nil Z) as Hnil.
  { intros f H1 H2. apply concat_nils. intros j x Hx. apply list_lookup_fmap_Some in Hx as (p & -> & Hj).
    by destruct (Hp _ _ Hj) as [[-> _]|[-> _]]. }
  destruct (Hfresh _ Hq) as [Hf Hth].
  assert (length (b_thr c) = (P + C)%nat) as Hl by (by rewrite Ht, length_app, length_fmap, length_seq, length_replicate).
  split.
  - by rewrite !Hnil.
  - done.
  - intros t p Htp. destruct (Hp t p Htp) as [[-> ?]|[-> ?]]; simpl; split_and!; try done; lia.
  - intros t p Htp. exists Outside. split; [|by destruct (Hp t p Htp) as [[-> _]|[-> _]]].
    rewrite Hth. apply lookup_replicate_2. rewrite <- Hl. by eapply lookup_lt_Some.
  - by rewrite Hnil.
Qed.

Lemma binv_reachable c : reachable (M := M) (throughput_init P C fresh) c → binv c.
Proof using HPC HN HdP HdC Hfresh.
  apply invariant; [intros s; apply binv_init|]. intros s a s' _ Hi He. by apply (binv_step s a).
Qed.

(** *** Accounting *)

(** Producers do not pop, consumers do not push. *)
Lemma got_consumers c : binv c → concat (got_of <$> b_thr c) = concat (got_of <$> drop P (b_thr c)).
Proof.
  intros Hc. rewrite <- (take_drop P (b_thr c)) at 1. rewrite fmap_app, concat_app, (concat_nils (_ <$> take _ _)); [done|].
  intros i x (p & -> & Hp)%list_lookup_fmap_Some. apply lookup_take_Some in Hp as [Hp Hi].
  pose proof (bi_thr _ Hc _ _ Hp) as Hok. destruct p; simpl in *; try done; lia.
Qed.

Lemma pushed_producers c : binv c → concat (pushed <$> b_thr c) = concat (pushed <$> take P (b_thr c)).
Proof.
  intros Hc. rewrite <- (take_drop P (b_thr c)) at 1. rewrite fmap_app, concat_app, (concat_nils (_ <$> drop _ _)).
  - by rewrite app_nil_r.
  - intros i x (p & -> & Hp)%list_lookup_fmap_Some. rewrite lookup_drop in Hp.
    pose proof (bi_thr _ Hc _ _ Hp) as Hok. destruct p; simpl in *; try done; lia.
Qed.

Lemma got_each c i p : binv c → drop P (b_thr c) !! i = Some p → Z.of_nat (length (got_of p)) <= pC ∧
  (finished p = true → Z.of_nat (length (got_of p)) = pC).
Proof.
  intros Hc Hp. rewrite lookup_drop in Hp. pose proof (bi_thr _ Hc _ _ Hp) as Hok.
  destruct p; simpl in *; split; try done; try lia; intros; try done; lia.
Qed.

Lemma pushed_each c i p : binv c → take P (b_thr c) !! i = Some p → Z.of_nat (length (pushed p)) <= pP ∧
  (finished p = true → p = PDone i).
Proof using HPC HN HdP HdC.
  intros Hc Hp. apply lookup_take_Some in Hp as [Hp Hi]. pose proof (bi_thr _ Hc _ _ Hp) as Hok.
  destruct per_thread as (_ & _ & BP & _).
  destruct p; simpl in *; rewrite ?length_vals by lia; split; try done; try lia; intros; try done; by destruct Hok as [-> _].
Qed.

Lemma totals c : binv c →
  Z.of_nat (length (concat (got_of <$> b_thr c))) <= N ∧ Z.of_nat (length (concat (pushed <$> b_thr c))) <= N.
Proof using HPC HN HdP HdC.
  intros Hc. destruct per_thread as (EP & EC & _). pose proof (bi_len _ Hc) as Hl.
  rewrite got_consumers, pushed_producers by done. split.
  - rewrite EC at 1. replace (Z.of_nat C) with (Z.of_nat (length (drop P (b_thr c)))) by (rewrite length_drop; lia).
    apply concat_length_le. intros. by eapply got_each.
  - rewrite EP at 1. replace (Z.of_nat P) with (Z.of_nat (length (take P (b_thr c)))) at 1 by (rewrite length_take; lia).
    apply concat_length_le. intros. by eapply pushed_each.
Qed.

(** When all threads are done. *)
Lemma done_pushed c :
  binv c → Forall (λ p, finished p = true) (take P (b_thr c)) → concat (pushed <$> b_thr c) ≡ₚ seqZ 1 N.
Proof using HPC HN HdP HdC.
  intros Hc Hfin. destruct per_thread as (EP & EC & BP & BC). rewrite pushed_producers by done.
  transitivity (seqZ 1 (Z.of_nat P * pP)); [|by rewrite <- EP].
  rewrite <- (vals_all P pP) by lia.
  assert (pushed <$> take P (b_thr c) = (λ i, vals i pP) <$> List.seq 0 P) as ->; [|done].
  apply list_eq. intros i. rewrite !list_lookup_fmap. pose proof (bi_len _ Hc) as Hl.
  destruct (decide (i < P)%nat).
  - rewrite lookup_seq_lt by done.
    destruct (lookup_lt_is_Some_2 (take P (b_thr c)) i) as [p Hp]; [rewrite length_take; lia|].
    rewrite Hp. destruct (pushed_each c i p Hc Hp) as [_ Hpd].
    rewrite (Hpd (Forall_lookup_1 _ _ _ _ Hfin Hp)). done.
  - rewrite lookup_seq_ge by lia. by rewrite lookup_ge_None_2 by (rewrite length_take; lia).
Qed.

Lemma done_got c :
  binv c → Forall (λ p, finished p = true) (drop P (b_thr c)) → Z.of_nat (length (concat (got_of <$> b_thr c))) = N.
Proof using HPC HN HdP HdC.
  intros Hc Hfin. destruct per_thread as (EP & EC & BP & BC). rewrite got_consumers by done.
  rewrite (concat_length_eq got_of _ pC).
  - rewrite length_drop, (bi_len _ Hc). transitivity (Z.of_nat C * pC); [f_equal; lia|done].
  - intros i p Hp. apply (got_each c i p Hc Hp). by apply (Forall_lookup_1 _ _ _ _ Hfin Hp).
Qed.

Lemma all_popped c :
  binv c → Forall (λ p, finished p = true) (b_thr c) → concat (got_of <$> b_thr c) ≡ₚ seqZ 1 N.
Proof using HPC HN HdP HdC.
  intros Hc Hfin. pose proof (done_pushed c Hc (Forall_take _ _ _ Hfin)) as Hpu.
  pose proof (done_got c Hc (Forall_drop _ _ _ Hfin)) as Hlen.
  destruct (ad_flow_held _ _ _ (bi_flow _ Hc)) as [rest Hperm]. rewrite Hpu in Hperm. rewrite <- Hperm.
  apply Permutation_length in Hperm. rewrite length_app, length_seqZ in Hperm.
  destruct rest as [|x l]; [done|simpl in Hperm; lia].
Qed.

Lemma finished_sum c :
  binv c → Forall (λ p, finished p = true) (b_thr c) → b_sum c = to_u64 (N * (N + 1) / 2).
Proof using HPC HN HdP HdC Hfresh.
  intros Hc Hfin. rewrite (bi_sum _ Hc). assert (concat (added_of <$> b_thr c) = concat (got_of <$> b_thr c)) as ->.
  { f_equal. apply list_fmap_ext. intros i p Hp. pose proof (Forall_lookup_1 _ _ _ _ Hfin Hp). by destruct p. }
  rewrite all_popped by done. f_equal. pose proof (sumZ_seqZ N ltac:(lia)) as H. apply Z.div_unique_exact; lia.
Qed.

Lemma finished_check c :
  reachable (M := M) (throughput_init P C fresh) c → Forall (λ p, finished p = true) (b_thr c) →
  N < 2 ^ 32 → check_sum N c = true.
Proof using HPC HN HdP HdC Hfresh.
  intros Hc%binv_reachable Hfin Hlt. unfold check_sum, expect. rewrite finished_sum by done.
  assert (0 <= N * (N + 1) < 2 ^ 64) as Hb by (clear -HN Hlt; nia).
  assert (0 <= N * (N + 1) / 2 < 2 ^ 64) by (split; [apply Z.div_pos|apply Z.div_lt_upper_bound]; lia).
  rewrite (uwrap_small 64 N), (uwrap_small 64 (N + 1)), !uwrap_small by lia. apply Z.eqb_refl.
Qed.

(** C27. The accounting of the queue benchmark, for every queue that conserves
    values: when all threads of [throughput]
    are done, the consumers have popped exactly the values 1..N, each once, and
    [sum] is [N * (N + 1) / 2] modulo 2^64, under every interleaving; for fewer
    than 2^32 values the check of the benchmark passes. *)
Theorem throughput_accounting c :
  reachable (M := M) (throughput_init P C fresh) c → Forall (λ p, finished p = true) (b_thr c) →
  concat (got_of <$> b_thr c) ≡ₚ seqZ 1 N ∧ b_sum c = to_u64 (N * (N + 1) / 2) ∧
  (N < 2 ^ 32 → check_sum N c = true).
Proof using HPC HN HdP HdC Hfresh.
  intros Hr Hfin. pose proof (binv_reachable _ Hr) as Hc.
  split_and!; [by apply all_popped|by apply finished_sum|by eapply finished_check].
Qed.

(** *** Completion *)

Context {cap : Z} `{!Progresses Q (P + C) (split_roles P) cap}.

(** Steps that a thread still has to take outside the queue, with room for those
    inside it. *)
Definition b_work (p : bpc) : nat :=
  let round := (cost + 3)%nat in
  match p with
  | PLoop _ k => round * Z.to_nat (pP - k) + 1
  | PPush _ k => round * Z.to_nat (pP - k) - cost - 1
  | CLoop k _ _ => round * Z.to_nat (pC - k) + 2
  | CPop k _ _ => round * Z.to_nat (pC - k) - cost
  | CAdd _ _ => 1
  | PDone _ | CDone _ => 0
  end.
Definition b_total (c : bcfg Q) : nat := sum_list (b_work <$> b_thr c) + ad_work (b_q c).

Lemma b_total_lt c t p p' q' s' :
  b_thr c !! t = Some p → (ad_work q' + b_work p' < ad_work (b_q c) + b_work p)%nat →
  (b_total (mkB q' (<[t := p']> (b_thr c)) s') < b_total c)%nat.
Proof.
  intros Hp Hlt. unfold b_total. simpl. pose proof (sum_fmap_insert b_work (b_thr c) t p p' Hp). lia.
Qed.

(** One round is left at least. *)
Lemma round_left (a k : Z) : 0 <= k < a →
  ∃ m, ((cost + 3) * Z.to_nat (a - k) = m + cost + 3 ∧ (cost + 3) * Z.to_nat (a - (k + 1)) = m)%nat.
Proof. intros Hk. eexists. split; [|done]. replace (Z.to_nat (a - k)) with (S (Z.to_nat (a - (k + 1)))) by lia. lia. Qed.

(** A thread that is not waiting inside the queue can go on. *)
Lemma outside_moves c t p r a :
  binv c → b_thr c !! t = Some p → finished p = false → ad_thr (b_q c) !! t = Some r → busy r = false →
  ∃ c', throughput_step P C N c (t, a) = Some c' ∧ (b_total c' < b_total c)%nat.
Proof using HPC HN HdP HdC.
  intros Hc Hp Hf Hr Ha. pose proof (bi_thr _ Hc t p Hp) as Hok. destruct (bi_queue _ Hc t p Hp) as (r0 & Hr0 & Hin).
  assert (r0 = r) as -> by congruence. destruct per_thread as (_ & _ & BP & BC). pose proof (bi_flow _ Hc) as Hfl.
  unfold throughput_step. cbn [fst snd]. rewrite Hp.
  destruct p as [i k|i k|i|k s g|k s g|s g|g]; simpl in Hok, Hin, Hf; try done; cbn [body_step]; rewrite ?Hr.
  - destruct Hok as (-> & HtP & Hk). subst r. destruct (Z.ltb_spec k pP).
    + destruct (can_push _ t (pushed_value P t k) _ _ Hfl (proj2 (split_pushes P t) HtP) Hr) as [q E]. rewrite E. eexists. split; [done|].
      eapply b_total_lt; [done|]. pose proof (push_work _ _ _ _ E). cbn [b_work]. destruct (round_left pP k ltac:(lia)) as (m & -> & _). lia.
    + eexists. split; [done|]. eapply b_total_lt; [done|]. cbn [b_work]. lia.
  - destruct Hok as (-> & _ & Hk). destruct Hin as [-> | ->]; [done|].
    destruct (can_ret _ _ _ _ _ Hfl Hr eq_refl) as [q E]. rewrite E. eexists. split; [done|].
    eapply b_total_lt; [done|]. pose proof (ret_work _ _ _ E). cbn [b_work].
    rewrite uwrap_small by lia. destruct (round_left pP k Hk) as (m & -> & ->). lia.
  - destruct Hok as (HtP & -> & Hk & _). subst r. destruct (Z.ltb_spec (Z.of_nat (length g)) pC).
    + destruct (can_pop _ t _ _ Hfl (proj2 (split_pops P t) HtP) Hr) as [q E]. rewrite E. eexists. split; [done|].
      eapply b_total_lt; [done|]. pose proof (pop_work _ _ _ E). cbn [b_work].
      destruct (round_left pC (Z.of_nat (length g)) ltac:(lia)) as (m & -> & _). lia.
    + eexists. split; [done|]. eapply b_total_lt; [done|]. cbn [b_work]. lia.
  - destruct Hok as (_ & -> & Hk & _). destruct Hin as [-> |[v ->]]; [done|].
    destruct (can_ret _ _ _ _ _ Hfl Hr eq_refl) as [q E]. rewrite E. eexists. split; [done|].
    eapply b_total_lt; [done|]. pose proof (ret_work _ _ _ E). cbn [b_work].
    rewrite (uwrap_small 64 (_ + 1)) by lia. destruct (round_left pC (Z.of_nat (length g)) ltac:(lia)) as (m & -> & ->). lia.
  - eexists. split; [done|]. eapply b_total_lt; [done|]. cbn [b_work]. lia.
Qed.

(** A thread that can move inside the queue does so. *)
Lemma inside_moves c t r a q :
  binv c → ad_thr (b_q c) !! t = Some r → busy r = true → ad_run (b_q c) t a = Some q →
  (ad_work q < ad_work (b_q c))%nat →
  ∃ c', throughput_step P C N c (t, a) = Some c' ∧ (b_total c' < b_total c)%nat.
Proof.
  intros Hc Hr Ha He Hlt. pose proof (ad_flow_thread _ _ _ _ _ _ _ (bi_flow _ Hc) Hr) as Ht.
  rewrite <- (bi_len _ Hc) in Ht. apply lookup_lt_is_Some_2 in Ht as [p Hp].
  destruct (bi_queue _ Hc t p Hp) as (r0 & Hr0 & Hin). assert (r0 = r) as -> by congruence.
  unfold throughput_step. cbn [fst snd]. rewrite Hp.
  assert (body_step P C N c t a p = Some (mkB q (<[t := p]> (b_thr c)) (b_sum c))) as ->.
  { destruct p; simpl in Hin; try (by subst r); cbn [body_step]; rewrite Hr, He; by destruct r. }
  eexists. split; [done|]. eapply b_total_lt; [done|]. lia.
Qed.

(** Nobody waits once the other side is done. *)
Lemma not_stuck c :
  binv c → stuck cap (ad_thr (b_q c)) (concat (got_of <$> b_thr c)) (concat (pushed <$> b_thr c)) →
  (∀ t p r, b_thr c !! t = Some p → ad_thr (b_q c) !! t = Some r → finished p = false → busy r = true) →
  Forall (λ p, finished p = true) (b_thr c).
Proof using HPC HN HdP HdC Progresses0.
  intros Hc Hb Hact. destruct per_thread as (EP & EC & BP & BC). pose proof (totals c Hc) as [Hg Hpu].
  apply Forall_lookup_2. intros t p Hp. destruct (finished p) eqn:Hf; [done|]. exfalso.
  destruct (bi_queue _ Hc t p Hp) as (r & Hr & Hin). pose proof (Hact t p r Hp Hr Hf) as Har.
  pose proof cap_nonneg as Hcap.
  destruct (Hb t r Hr Har) as [(-> & Hperm & Hall)|(-> & Hroom & Hall)].
  - assert (Forall (λ p, finished p = true) (take P (b_thr c))) as Hdone.
    { apply Forall_lookup_2. intros j x [Hx Hj]%lookup_take_Some. destruct (finished x) eqn:Hfx; [done|].
      destruct (bi_queue _ Hc j x Hx) as (rx & Hrx & Hinx). pose proof (Hall j rx Hrx (Hact j x rx Hx Hrx Hfx)) as ->.
      pose proof (bi_thr _ Hc j x Hx). destruct x; simpl in *; try done; try lia; by destruct Hinx. }
    pose proof (done_pushed c Hc Hdone) as Hall'. rewrite Hall' in Hperm. apply Permutation_length in Hperm.
    rewrite length_seqZ in Hperm. rewrite got_consumers in Hperm by done.
    pose proof (bi_thr _ Hc t p Hp) as Hok. destruct p; simpl in *; try done; [by destruct Hin|].
    assert (drop P (b_thr c) !! (t - P)%nat = Some (CPop k s got)) as Hd
      by (rewrite lookup_drop; rewrite <- Hp; f_equal; lia).
    pose proof (concat_length_lt got_of (drop P (b_thr c)) pC _ _ (λ i x Hx, proj1 (got_each c i x Hc Hx)) Hd) as Hlt.
    rewrite length_drop, (bi_len _ Hc) in Hlt. replace (P + C - P)%nat with C in Hlt by lia. simpl in Hlt. lia.
  - assert (Forall (λ p, finished p = true) (drop P (b_thr c))) as Hdone.
    { apply Forall_lookup_2. intros j x Hx. rewrite lookup_drop in Hx. destruct (finished x) eqn:Hfx; [done|].
      destruct (bi_queue _ Hc _ x Hx) as (rx & Hrx & Hinx). pose proof (Hall _ rx Hrx (Hact _ x rx Hx Hrx Hfx)) as ->.
      pose proof (bi_thr _ Hc _ x Hx). destruct x; simpl in *; try done; try lia; by destruct Hinx as [|[]]. }
    pose proof (done_got c Hc Hdone). lia.
Qed.

(** The choice of a thread that is outside does not matter, but there is one. *)
Context (any : ad_choice Q).

Lemma b_can_move c :
  binv c → Forall (λ p, finished p = true) (b_thr c) ∨
  ∃ ta c', throughput_step P C N c ta = Some c' ∧ (b_total c' < b_total c)%nat.
Proof using HPC HN HdP HdC any.
  intros Hc. destruct (outside_or_busy finished (b_thr c) (ad_thr (b_q c))) as [(t & p & r & Hp & Hf & Hr & Ha)|Hact].
  { intros t p Hp. destruct (bi_queue _ Hc t p Hp) as (r & Hr & _). eauto. }
  - right. destruct (outside_moves c _ p r any Hc Hp Hf Hr Ha) as (c' & ? & ?). eauto.
  - destruct (moves _ _ _ (bi_flow _ Hc)) as [(t & r & a & q & Hr & Ha & He & Hlt)|Hb].
    + intros t r Hr. pose proof (ad_flow_thread _ _ _ _ _ _ _ (bi_flow _ Hc) Hr) as Ht.
      rewrite <- (bi_len _ Hc) in Ht. apply lookup_lt_is_Some_2 in Ht as [p Hp]. destruct (finished p) eqn:Hf.
      * destruct (bi_queue _ Hc t p Hp) as (r0 & Hr0 & Hin). assert (r0 = r) as -> by congruence.
        destruct p; try done; simpl in Hin; by subst.
      * pose proof (Hact t p r Hp Hr Hf). by destruct r.
    + right. exists (t, a). by eapply inside_moves.
    + left. by apply not_stuck.
Qed.

Lemma binv_completes c :
  binv c → ∃ σ c', run (M := M) c σ = Some c' ∧ (length σ <= b_total c)%nat ∧ Forall (λ p, finished p = true) (b_thr c').
Proof using HPC HN HdP HdC any.
  apply (measure_completes M binv _ b_total); [intros s a s'; apply binv_step|intros s Hs; apply (b_can_move s Hs)].
Qed.

(** The benchmark has finished executions. *)
Lemma throughput_can_finish q :
  fresh q → ∃ c, reachable (M := M) (throughput_init P C fresh) c ∧ Forall (λ p, finished p = true) (b_thr c).
Proof using HPC HN HdP HdC Hfresh Progresses0 any.
  intros Hq. set (c0 := mkB q (((λ i, PLoop i 0) <$> List.seq 0 P) ++ replicate C (CLoop 0 0 [])) 0).
  assert (reachable (M := M) (throughput_init P C fresh) c0) as H0 by (apply reach_init; by split_and!).
  destruct (binv_completes c0) as (σ & c & Hr & _ & Hf); [by eapply binv_reachable|].
  exists c. split; [by eapply run_reachable|done].
Qed.

(** C28. The queue benchmark does not hang, for every queue that makes progress:
    from every reachable state of [throughput] boundedly many steps that are not
    spins lead to a state in which all producers and consumers are done. *)
Theorem throughput_completes c :
  reachable (M := M) (throughput_init P C fresh) c →
  ∃ σ c', run (M := M) c σ = Some c' ∧ (length σ <= b_total c)%nat ∧
    Forall (λ p, finished p = true) (b_thr c').
Proof using HPC HN HdP HdC Hfresh any.
  intros Hc%binv_reachable. by apply binv_completes.
Qed.
End Proofs.

(** ** Two producers, one consumer, four values, two slots *)

Abbreviation exQ := (AstraQ.t 2).
Definition ex_tp : bcfg exQ :=
  mkB (AstraQ.mk (default no_cfg (init_cfg machine_arith 2 BATCH_SIZE 77 3))) [PLoop 0 0; PLoop 1 0; CLoop 0 0 []] 0.
Definition ex_tp_sched : list (nat * unit) :=
  (λ t, (t, tt)) <$> concat (replicate 13 [2; 1; 0]%nat) ++ concat (replicate 5 [2; 0]%nat) ++ replicate 11 2%nat.
Definition ex_tp_at (k : nat) : bcfg exQ :=
  default ex_tp (run (M := throughput_machine exQ 2 1 4) ex_tp (take k ex_tp_sched)).

Lemma ex_tp_reach k :
  run (M := throughput_machine exQ 2 1 4) ex_tp (take k ex_tp_sched) = Some (ex_tp_at k) →
  reachable (M := throughput_machine exQ 2 1 4) (throughput_init 2 1 (AstraQ.fresh 2 3 77)) (ex_tp_at k).
Proof. intros H. eapply run_reachable; [|exact H]. apply reach_init. split_and!; by vm_compute. Qed.

Definition ex_tp_conserves : Conserves exQ (2 + 1) (split_roles 2) :=
  AstraQ.conserves 2 params_pool_2 3 ltac:(lia) (split_roles 2).
Definition ex_tp_progresses : Progresses (Conserves0 := ex_tp_conserves) exQ (2 + 1) (split_roles 2) 2 :=
  AstraQ.progresses 2 params_pool_2 3 ltac:(lia) (split_roles 2).
Lemma ex_tp_fresh : starts_with (Conserves0 := ex_tp_conserves) (AstraQ.fresh 2 3 77) [].
Proof. apply AstraQ.fresh_starts. Qed.

Lemma throughput_accounting_witness :
  b_sum (ex_tp_at 60) = 10 ∧ check_sum 4 (ex_tp_at 60) = true ∧
  concat (got_of <$> b_thr (ex_tp_at 60)) ≡ₚ [1; 2; 3; 4].
Proof.
  destruct (throughput_accounting (Conserves0 := ex_tp_conserves) 2 1 4 ltac:(lia) ltac:(lia) ltac:(by exists 2) ltac:(by exists 4)
    (AstraQ.fresh 2 3 77) ex_tp_fresh (ex_tp_at 60)) as (H1 & H2 & H3).
  - apply ex_tp_reach. by vm_compute.
  - by vm_compute; repeat constructor.
  - split; [exact H2|]. split; [apply H3; lia|exact H1].
Defined.

Lemma throughput_completes_witness : ∃ σ c',
  run (M := throughput_machine exQ 2 1 4) (ex_tp_at 20) σ = Some c' ∧ Forall (λ p, finished p = true) (b_thr c').
Proof.
  destruct (throughput_completes (Conserves0 := ex_tp_conserves) (Progresses0 := ex_tp_progresses) 2 1 4
    ltac:(lia) ltac:(lia) ltac:(by exists 2) ltac:(by exists 4)
    (AstraQ.fresh 2 3 77) ex_tp_fresh tt (ex_tp_at 20)) as (σ & c' & H1 & _ & H2).
  - apply ex_tp_reach. by vm_compute.
  - exists σ, c'. exact (conj H1 H2).
Defined.

(** The number of values handed to a shape is a multiple of [P] and of [C]. *)
Lemma rounded_divides n P C :
  0 <= n < 2 ^ 64 → (0 < P)%nat → (0 < C)%nat → Z.of_nat P * Z.of_nat C < 2 ^ 64 →
  0 <= rounded n P C <= n ∧ (Z.of_nat P | rounded n P C) ∧ (Z.of_nat C | rounded n P C).
Proof.
  intros Hn HP HC Hb. unfold rounded. rewrite (uwrap_small 64 (_ * _)) by nia. set (d := Z.of_nat P * Z.of_nat C) in *.
  assert (0 < d) as Hd by nia. pose proof (Z.mod_pos_bound n d Hd). pose proof (Z.mod_le n d ltac:(lia) Hd).
  rewrite uwrap_small by lia. assert (n - n mod d = d * (n / d)) as ->.
  { pose proof (Z.div_mod n d ltac:(lia)). lia. }
  pose proof (Z.div_pos n d ltac:(lia) Hd). pose proof (Z.mul_div_le n d Hd).
  split; [nia|]. split.
  - exists (Z.of_nat C * (n / d)). unfold d. lia.
  - exists (Z.of_nat P * (n / d)). unfold d. lia.
Qed.

(** From 2^32 values on, [N * (N + 1)] is reduced before it is halved, and the
    expected sum is not the sum of 1..N. *)
Example expect_overflows : expect (2 ^ 32) = 2 ^ 31 ∧ to_u64 (2 ^ 32 * (2 ^ 32 + 1) / 2) = 2 ^ 63 + 2 ^ 31.
Proof. by vm_compute. Qed.
