(* ===== verification/PingPong.v ===== *)
(** * The latency measurement of the queue benchmark

    Model of the template [pingPong] in [src/bench/QueueComparisonBench.cpp]: thread
    0 sends [k + 1] through the queue [req] and waits for the answer in [rep],
    thread 1 forwards what it receives.  Both queues are any [Adapter]. *)

From Stdlib Require Import ZArith Lia.
From S2P Require Import Prelude MachineInt Lts AtomicRingBuffer RingInvariant RingTheorems IndexPool.
From S2P Require Import Adapter RingAdapter Timer Double BenchHarness BenchStats BenchReport.
Local Open Scope Z_scope.
Local Open Scope astra_scope.

Section Code.
Context {Q : Type} `{!Adapter Q} (samples : Z).

(** Thread 0 in round [k]: at the loop test, at the first [__rdtsc()], at
    [req->push(k + 1)] and inside it, at [rep->pop()] and inside it, at the second
    [__rdtsc()] with the value [v]. *)
Inductive tpc :=
| TLoop (k : Z)
| TStart (k : Z)
| TSend (k t0 : Z)
| TPush (k t0 : Z)
| TRecv (k t0 : Z)
| TPop (k t0 : Z)
| TStop (k t0 v : Z)
| TDone.

(** Thread 1: at the loop test, inside [req->pop()], at [rep->push(v)], inside it. *)
Inductive epc :=
| ELoop (k : Z)
| EPop (k : Z)
| ESend (k v : Z)
| EPush (k : Z)
| EDone.

(** [p_rtt]: the two time stamps of each element of [rtt].  [p_seen], [p_got] and
    [p_sent] are read by no code: the answers of thread 0, the values thread 1 has
    received and those it has forwarded. *)
Record pcfg := mkP {
  p_req : Q; p_rep : Q; p_main : tpc; p_echo : epc; p_rtt : list (Z * Z);
  p_seen : list Z; p_got : list Z; p_sent : list Z
}.

(** A step of thread 0, resp. 1; [tsc] is what [__rdtsc()] reads. *)
Inductive pact := Main (a : ad_choice Q) (tsc : Z) | Echo (a : ad_choice Q).

Definition main_step (c : pcfg) (a : ad_choice Q) (tsc : Z) : option pcfg :=
  let next req rep p rtt seen := Some (mkP req rep p (p_echo c) rtt seen (p_got c) (p_sent c)) in
  let stay p := next (p_req c) (p_rep c) p (p_rtt c) (p_seen c) in
  match p_main c with
  | TLoop k => stay (if k <? samples then TStart k else TDone)
  | TStart k => stay (TSend k tsc)
  | TSend k t0 => let? q := ad_push (p_req c) 0 (to_u64 (k + 1)) in next q (p_rep c) (TPush k t0) (p_rtt c) (p_seen c)
  | TPush k t0 =>
      let? r := ad_thr (p_req c) !! 0%nat in
      match r with
      | Pushed => let? q := ad_ret (p_req c) 0 in next q (p_rep c) (TRecv k t0) (p_rtt c) (p_seen c)
      | _ => let? q := ad_run (p_req c) 0 a in next q (p_rep c) (TPush k t0) (p_rtt c) (p_seen c)
      end
  | TRecv k t0 => let? q := ad_pop (p_rep c) 0 in next (p_req c) q (TPop k t0) (p_rtt c) (p_seen c)
  | TPop k t0 =>
      let? r := ad_thr (p_rep c) !! 0%nat in
      match r with
      | Popped v => let? q := ad_ret (p_rep c) 0 in next (p_req c) q (TStop k t0 v) (p_rtt c) (p_seen c ++ [v])
      | _ => let? q := ad_run (p_rep c) 0 a in next (p_req c) q (TPop k t0) (p_rtt c) (p_seen c)
      end
  | TStop k t0 v => next (p_req c) (p_rep c) (TLoop (to_u64 (k + 1))) (p_rtt c ++ [(t0, tsc)]) (p_seen c)
  | TDone => None
  end.

Definition echo_step (c : pcfg) (a : ad_choice Q) : option pcfg :=
  let next req rep p got sent := Some (mkP req rep (p_main c) p (p_rtt c) (p_seen c) got sent) in
  match p_echo c with
  | ELoop k =>
      if k <? samples
      then let? q := ad_pop (p_req c) 1 in next q (p_rep c) (EPop k) (p_got c) (p_sent c)
      else next (p_req c) (p_rep c) EDone (p_got c) (p_sent c)
  | EPop k =>
      let? r := ad_thr (p_req c) !! 1%nat in
      match r with
      | Popped v => let? q := ad_ret (p_req c) 1 in next q (p_rep c) (ESend k v) (p_got c ++ [v]) (p_sent c)
      | _ => let? q := ad_run (p_req c) 1 a in next q (p_rep c) (EPop k) (p_got c) (p_sent c)
      end
  | ESend k v => let? q := ad_push (p_rep c) 1 v in next (p_req c) q (EPush k) (p_got c) (p_sent c ++ [v])
  | EPush k =>
      let? r := ad_thr (p_rep c) !! 1%nat in
      match r with
      | Pushed => let? q := ad_ret (p_rep c) 1 in next (p_req c) q (ELoop (to_u64 (k + 1))) (p_got c) (p_sent c)
      | _ => let? q := ad_run (p_rep c) 1 a in next (p_req c) q (EPush k) (p_got c) (p_sent c)
      end
  | EDone => None
  end.

Definition pingpong_step (c : pcfg) (x : pact) : option pcfg :=
  match x with Main a tsc => main_step c a tsc | Echo a => echo_step c a end.

Definition pingpong_machine : machine := Machine pcfg pact pingpong_step.

(** Both queues are fresh, [rtt] is empty. *)
Definition pingpong_init (freshReq freshRep : Q → Prop) (c : pcfg) : Prop :=
  ∃ req rep, freshReq req ∧ freshRep rep ∧ c = mkP req rep (TLoop 0) (ELoop 0) [] [] [] [].

(** [runPinned] returns when both bodies have. *)
Definition pingpong_done (c : pcfg) : bool :=
  match p_main c, p_echo c with TDone, EDone => true | _, _ => false end.

(** [rtt.push_back(cyclesToNs(t1 - t0))] for every round, sorted. *)
Definition pingpong_result (tscPerNs : double) (c : pcfg) : option (list double) :=
  std_sort ((λ s : Z * Z, cyclesToNs tscPerNs (to_u64 (s.2 - s.1))) <$> p_rtt c).
End Code.
Arguments pcfg : clear implicits.
Arguments pact Q {_}.
Arguments pingpong_machine Q {_} _.

Section Proofs.
Context {Q : Type} `{!Adapter Q} (samples : Z) (Hs : 0 <= samples < 2 ^ 64).
Context {req_cons : Conserves Q 2 (one_to_one 0 1)} {rep_cons : Conserves Q 2 (one_to_one 1 0)}.
Abbreviation M := (pingpong_machine Q samples).
Abbreviation req_flow := (ad_flow (Conserves := req_cons)).
Abbreviation rep_flow := (ad_flow (Conserves := rep_cons)).

(** The round of thread 0, and how many values it has sent and received. *)
Definition sent0 (p : tpc) : Z :=
  match p with
  | TLoop k | TStart k | TSend k _ => k
  | TPush k _ | TRecv k _ | TPop k _ | TStop k _ _ => k + 1
  | TDone => samples
  end.
Definition seen0 (p : tpc) : Z :=
  match p with
  | TLoop k | TStart k | TSend k _ | TPush k _ | TRecv k _ | TPop k _ => k
  | TStop k _ _ => k + 1
  | TDone => samples
  end.
(** The samples it has taken. *)
Definition rtts0 (p : tpc) : Z :=
  match p with
  | TLoop k | TStart k | TSend k _ | TPush k _ | TRecv k _ | TPop k _ | TStop k _ _ => k
  | TDone => samples
  end.
Definition main_ok (p : tpc) : Prop :=
  match p with
  | TLoop k => 0 <= k <= samples
  | TStart k | TSend k _ | TPush k _ | TRecv k _ | TPop k _ => 0 <= k < samples
  | TStop k _ v => 0 <= k < samples ∧ v = k + 1
  | TDone => True
  end.

(** The rounds of thread 1: values received, forwarded; the one in its hand. *)
Definition got1 (p : epc) : Z :=
  match p with ELoop k | EPop k => k | ESend k _ | EPush k => k + 1 | EDone => samples end.
Definition sent1 (p : epc) : Z :=
  match p with ELoop k | EPop k | ESend k _ => k | EPush k => k + 1 | EDone => samples end.
Definition echo_ok (p : epc) : Prop :=
  match p with ELoop k => 0 <= k <= samples | EPop k | ESend k _ | EPush k => 0 <= k < samples | EDone => True end.
Definition in_hand (p : epc) : list Z := match p with ESend _ v => [v] | _ => [] end.

(** Where the threads are in the queues. *)
Definition popping (r : phase) : Prop := r = Popping ∨ ∃ v, r = Popped v.
Definition pushing (r : phase) : Prop := r = Pushing ∨ r = Pushed.
Definition main_req (p : tpc) (r : phase) : Prop := match p with TPush _ _ => pushing r | _ => r = Outside end.
Definition main_rep (p : tpc) (r : phase) : Prop := match p with TPop _ _ => popping r | _ => r = Outside end.
Definition echo_req (p : epc) (r : phase) : Prop := match p with EPop _ => popping r | _ => r = Outside end.
Definition echo_rep (p : epc) (r : phase) : Prop := match p with EPush _ => pushing r | _ => r = Outside end.

Record pinv (c : pcfg Q) : Prop := {
  pi_main : main_ok (p_main c);
  pi_echo : echo_ok (p_echo c);
  pi_req : req_flow (p_req c) (p_got c) (seqZ 1 (sent0 (p_main c)));
  pi_rep : rep_flow (p_rep c) (p_seen c) (p_sent c);
  pi_seen : p_seen c = seqZ 1 (seen0 (p_main c));
  pi_fwd : p_got c = p_sent c ++ in_hand (p_echo c);
  pi_got : Z.of_nat (length (p_got c)) = got1 (p_echo c);
  pi_rtt : Z.of_nat (length (p_rtt c)) = rtts0 (p_main c);
  pi_thr_req : ∃ r0 r1, ad_thr (p_req c) = [r0; r1] ∧ main_req (p_main c) r0 ∧ echo_req (p_echo c) r1;
  pi_thr_rep : ∃ r0 r1, ad_thr (p_rep c) = [r0; r1] ∧ main_rep (p_main c) r0 ∧ echo_rep (p_echo c) r1;
}.

Lemma handed_goes r r' : popping r → goes_on r r' = true → popping r'.
Proof. intros [->|[v ->]] Hg; destruct r'; try done; [by left|right; eauto]. Qed.

Lemma pushing_goes r r' : pushing r → goes_on r r' = true → pushing r'.
Proof. intros [->| ->] Hg; destruct r'; try done; [by left|by right]. Qed.

(** The answer is the value of the round: it was sent, and not received before. *)
Lemma answer_is_round c k v q' :
  pinv c → sent0 (p_main c) = k + 1 → seen0 (p_main c) = k → 0 <= k →
  rep_flow q' (v :: p_seen c) (p_sent c) → v = k + 1.
Proof using Hs.
  intros Hc Hsent Hseen Hk Hf. pose proof (pi_seen _ Hc) as Hs1. rewrite Hseen in Hs1.
  destruct (ad_flow_held _ _ _ Hf) as [rest1 H1]. destruct (ad_flow_held _ _ _ (pi_req _ Hc)) as [rest2 H2].
  rewrite Hsent, (pi_fwd _ Hc), <- H1, Hs1 in H2.
  assert (NoDup (seqZ 1 (k + 1))) as Hnd by apply NoDup_seqZ. rewrite <- H2 in Hnd.
  assert (v ∈ seqZ 1 (k + 1)) as Hv by (rewrite <- H2, !elem_of_app, elem_of_cons; tauto). apply elem_of_seqZ in Hv.
  destruct (decide (v = k + 1)); [done|]. exfalso.
  apply NoDup_app in Hnd as (_ & _ & Hnd). apply NoDup_app in Hnd as (Hnd & _). apply NoDup_app in Hnd as (_ & _ & Hnd).
  apply NoDup_cons in Hnd as [Hnd _]. apply Hnd, elem_of_seqZ. lia.
Qed.

(** A step of thread 0 outside the queues. *)
Lemma pinv_stay c p' rtt' :
  pinv c → main_ok p' → sent0 p' = sent0 (p_main c) → seen0 p' = seen0 (p_main c) →
  Z.of_nat (length rtt') = rtts0 p' →
  (∀ r, main_req (p_main c) r → main_req p' r) → (∀ r, main_rep (p_main c) r → main_rep p' r) →
  pinv (mkP (p_req c) (p_rep c) p' (p_echo c) rtt' (p_seen c) (p_got c) (p_sent c)).
Proof using.
  intros [H1 H2 H3 H4 H5 H6 H7 H8 H9 H10] Hok E1 E2 Hl Hr1 Hr2. split; simpl; rewrite ?E1, ?E2; try done.
  - destruct H9 as (r0 & r1 & ? & ? & ?). exists r0, r1. auto.
  - destruct H10 as (r0 & r1 & ? & ? & ?). exists r0, r1. auto.
Qed.

Lemma pinv_main c a tsc c' : pinv c → main_step samples c a tsc = Some c' → pinv c'.
Proof using Hs.
  intros Hc He. pose proof Hc as [H1 H2 H3 H4 H5 H6 H7 H8 (r0 & r1 & H9 & Hm & Hx) (s0 & s1 & H10 & Hn & Hy)].
  unfold main_step in He. destruct (p_main c) as [k|k|k t0|k t0|k t0|k t0|k t0 v|] eqn:Ep; simpl in *; [..|done];
    rewrite ?H9, ?H10 in He; cbn [lookup list_lookup] in He.
  - injection He as <-. destruct (Z.ltb_spec k samples).
    + apply pinv_stay; rewrite ?Ep; simpl; try done; lia.
    + assert (k = samples) as -> by lia. apply pinv_stay; rewrite ?Ep; simpl; try done; lia.
  - injection He as <-. apply pinv_stay; rewrite ?Ep; simpl; try done; lia.
  - rewrite uwrap_small in He by lia. destruct (ad_push _ _ _) as [q|] eqn:E; [|done]. injection He as <-. split; simpl; try done.
    + eapply (ad_flow_push (Conserves := req_cons)); [exact H3| |exact E|]; [done|]. intros rest Hrest.
      rewrite (seqZ_app 1 k 1) by lia. rewrite Hrest. rewrite Permutation_app_comm. simpl. by rewrite (Z.add_comm 1 k).
    + rewrite (push_thr (Conserves := req_cons) _ _ _ _ E), H9. eexists _, _. split; [done|]. split; [by left|done].
    + by exists s0, s1.
  - destruct Hm as [-> | ->].
    + destruct (ad_run _ _ _) as [q|] eqn:E; [|done]. injection He as <-.
      destruct (run_thr (Conserves := req_cons) _ _ _ Pushing _ _ _ H3 E) as (r' & Hr' & Hg); [by rewrite H9|].
      split; simpl; try done; [by eapply (ad_flow_run (Conserves := req_cons))| |by exists s0, s1].
      rewrite Hr', H9. eexists _, _. split; [done|]. split; [by eapply pushing_goes; [left|]|done].
    + destruct (ad_ret _ _) as [q|] eqn:E; [|done]. injection He as <-. split; simpl; try done.
      * refine (ad_flow_ret (Conserves := req_cons) _ 0 Pushed _ _ _ H3 _ E). by rewrite H9.
      * rewrite (ret_thr (Conserves := req_cons) _ _ _ E), H9. by eexists _, _.
      * by exists s0, s1.
  - destruct (ad_pop _ _) as [q|] eqn:E; [|done]. injection He as <-. split; simpl; try done.
    + by eapply (ad_flow_pop (Conserves := rep_cons)); [exact H4| |exact E].
    + by exists r0, r1.
    + rewrite (pop_thr (Conserves := rep_cons) _ _ _ E), H10. eexists _, _. split; [done|]. split; [by left|done].
  - destruct Hn as [-> |[v ->]].
    + destruct (ad_run _ _ _) as [q|] eqn:E; [|done]. injection He as <-.
      destruct (run_thr (Conserves := rep_cons) _ _ _ Popping _ _ _ H4 E) as (r' & Hr' & Hg); [by rewrite H10|].
      split; simpl; try done; [by eapply (ad_flow_run (Conserves := rep_cons))|by exists r0, r1|].
      rewrite Hr', H10. eexists _, _. split; [done|]. split; [by eapply handed_goes; [left|]|done].
    + destruct (ad_ret _ _) as [q|] eqn:E; [|done]. injection He as <-.
      assert (rep_flow q (v :: p_seen c) (p_sent c)) as Hf.
      { refine (ad_flow_ret (Conserves := rep_cons) _ 0 (Popped v) _ _ _ H4 _ E). by rewrite H10. }
      assert (v = k + 1) as -> by (eapply (answer_is_round c k); rewrite ?Ep; simpl; try done; lia).
      split; simpl; try done; try lia.
      * eapply (ad_flow_perm (Conserves := rep_cons)); [|done|exact Hf]. by rewrite Permutation_app_comm.
      * rewrite H5, (seqZ_app 1 k 1) by lia. simpl. by rewrite (Z.add_comm 1 k).
      * by exists r0, r1.
      * rewrite (ret_thr (Conserves := rep_cons) _ _ _ E), H10. by eexists _, _.
  - injection He as <-. destruct H1 as [Hk ->]. rewrite uwrap_small by lia.
    apply pinv_stay; rewrite ?Ep; simpl; try done; try lia. rewrite length_app. simpl. lia.
Qed.

Lemma pinv_echo c a c' : pinv c → echo_step samples c a = Some c' → pinv c'.
Proof using Hs.
  intros Hc He. pose proof Hc as [H1 H2 H3 H4 H5 H6 H7 H8 (r0 & r1 & H9 & Hm & Hx) (s0 & s1 & H10 & Hn & Hy)].
  unfold echo_step in He. destruct (p_echo c) as [k|k|k v|k|] eqn:Ep; simpl in *; [..|done];
    rewrite ?app_nil_r in H6; rewrite ?H9, ?H10 in He; cbn [lookup list_lookup] in He.
  - destruct (Z.ltb_spec k samples).
    + destruct (ad_pop _ _) as [q|] eqn:E; [|done]. injection He as <-. split; simpl; rewrite ?app_nil_r; try done; try lia.
      * by eapply (ad_flow_pop (Conserves := req_cons)); [exact H3| |exact E].
      * rewrite (pop_thr (Conserves := req_cons) _ _ _ E), H9. eexists _, _. split; [done|]. split; [done|by left].
      * by exists s0, s1.
    + injection He as <-. split; simpl; rewrite ?app_nil_r; try done; try lia; [by exists r0, r1|by exists s0, s1].
  - destruct Hx as [-> |[v ->]].
    + destruct (ad_run _ _ _) as [q|] eqn:E; [|done]. injection He as <-.
      destruct (run_thr (Conserves := req_cons) _ _ _ Popping _ _ _ H3 E) as (r' & Hr' & Hg); [by rewrite H9|].
      split; simpl; rewrite ?app_nil_r; try done; [by eapply (ad_flow_run (Conserves := req_cons))| |by exists s0, s1].
      rewrite Hr', H9. eexists _, _. split; [done|]. split; [done|by eapply handed_goes; [left|]].
    + destruct (ad_ret _ _) as [q|] eqn:E; [|done]. injection He as <-. split; simpl; try done.
      * eapply (ad_flow_perm (Conserves := req_cons)); [apply Permutation_app_comm|done|].
        refine (ad_flow_ret (Conserves := req_cons) _ 1 (Popped v) _ _ _ H3 _ E). by rewrite H9.
      * by rewrite H6.
      * rewrite length_app. simpl. lia.
      * rewrite (ret_thr (Conserves := req_cons) _ _ _ E), H9. by eexists _, _.
      * by exists s0, s1.
  - destruct (ad_push _ _ _) as [q|] eqn:E; [|done]. injection He as <-. split; simpl; rewrite ?app_nil_r; try done.
    + eapply (ad_flow_push (Conserves := rep_cons)); [exact H4| |exact E|]; [done|]. intros rest <-.
      by rewrite (Permutation_app_comm _ [v]).
    + by exists r0, r1.
    + rewrite (push_thr (Conserves := rep_cons) _ _ _ _ E), H10. eexists _, _. split; [done|]. split; [done|by left].
  - destruct Hy as [-> | ->].
    + destruct (ad_run _ _ _) as [q|] eqn:E; [|done]. injection He as <-.
      destruct (run_thr (Conserves := rep_cons) _ _ _ Pushing _ _ _ H4 E) as (r' & Hr' & Hg); [by rewrite H10|].
      split; simpl; rewrite ?app_nil_r; try done; [by eapply (ad_flow_run (Conserves := rep_cons))|by exists r0, r1|].
      rewrite Hr', H10. eexists _, _. split; [done|]. split; [done|by eapply pushing_goes; [left|]].
    + destruct (ad_ret _ _) as [q|] eqn:E; [|done]. injection He as <-. rewrite uwrap_small by lia.
      split; simpl; rewrite ?app_nil_r; try done; try lia.
      * refine (ad_flow_ret (Conserves := rep_cons) _ 1 Pushed _ _ _ H4 _ E). by rewrite H10.
      * by exists r0, r1.
      * rewrite (ret_thr (Conserves := rep_cons) _ _ _ E), H10. by eexists _, _.
Qed.

Context (freshReq freshRep : Q → Prop).
Context (HfReq : starts_with (Conserves0 := req_cons) freshReq []) (HfRep : starts_with (Conserves0 := rep_cons) freshRep []).

Lemma pinv_init c : pingpong_init freshReq freshRep c → pinv c.
Proof using Hs HfReq HfRep.
  intros (req & rep & H1%HfReq & H2%HfRep & ->). destruct H1 as [H1 E1], H2 as [H2 E2].
  split; simpl; try done; try lia; by exists Outside, Outside.
Qed.

Lemma pinv_reachable c : reachable (M := M) (pingpong_init freshReq freshRep) c → pinv c.
Proof using Hs HfReq HfRep.
  apply invariant; [apply pinv_init|]. intros s [a tsc|a] s' _ Hi He; [exact (pinv_main s a tsc s' Hi He)|exact (pinv_echo s a s' Hi He)].
Qed.

(** C29. The ping-pong measurement measures round trips: under every interleaving, and
    for every queue that conserves values (in any order), the answer that thread 0
    receives in round [k] is the value [k + 1] it has sent in that round, so at most
    one message is under way; and when both threads are done there is one sample for
    every round. *)
Theorem pingpong_round_trips c :
  reachable (M := M) (pingpong_init freshReq freshRep) c →
  p_seen c = seqZ 1 (Z.of_nat (length (p_seen c))) ∧
  Z.of_nat (length (p_got c)) - Z.of_nat (length (p_seen c)) <= 1 ∧
  (∀ k t0 v, p_main c = TStop k t0 v → v = k + 1) ∧
  (pingpong_done c = true → Z.of_nat (length (p_rtt c)) = samples).
Proof using Hs HfReq HfRep.
  intros Hc%pinv_reachable. pose proof (pi_main _ Hc) as Hok. pose proof (pi_seen _ Hc) as Hseen.
  assert (0 <= seen0 (p_main c) ∧ sent0 (p_main c) <= seen0 (p_main c) + 1) as [H0 Hle]
    by (destruct (p_main c); simpl in *; lia).
  assert (Z.of_nat (length (p_seen c)) = seen0 (p_main c)) as Hlen by (rewrite Hseen, length_seqZ; lia).
  destruct (ad_flow_held _ _ _ (pi_req _ Hc)) as [rest Hp]. apply Permutation_length in Hp.
  rewrite length_app, length_seqZ in Hp. split_and!.
  - by rewrite Hlen.
  - lia.
  - intros k t0 v E. rewrite E in Hok. apply Hok.
  - intros Hd. rewrite (pi_rtt _ Hc). unfold pingpong_done in Hd. by destruct (p_main c), (p_echo c).
Qed.

(** *** Completion *)

Context {cap : Z} (Hcap : 1 <= cap).
Context {req_prog : Progresses Q 2 (one_to_one 0 1) cap} {rep_prog : Progresses Q 2 (one_to_one 1 0) cap}.
Abbreviation cr := (cost (Progresses := req_prog)).
Abbreviation cp := (cost (Progresses := rep_prog)).
Abbreviation req_work := (ad_work (Progresses := req_prog)).
Abbreviation rep_work := (ad_work (Progresses := rep_prog)).
Abbreviation togo k := ((cr + cp + 7) * Z.to_nat (samples - k))%nat.

Definition main_work (p : tpc) : nat :=
  match p with
  | TLoop k => togo k + 1
  | TStart k => togo k
  | TSend k _ => togo k - 1
  | TPush k _ => togo k - cr - 2
  | TRecv k _ => togo k - cr - 3
  | TPop k _ => togo k - cr - cp - 4
  | TStop k _ _ => togo k - cr - cp - 5
  | TDone => 0
  end.
Definition echo_work (p : epc) : nat :=
  match p with
  | ELoop k => togo k + 1
  | EPop k => togo k - cr
  | ESend k _ => togo k - cr - 1
  | EPush k => togo k - cr - cp - 2
  | EDone => 0
  end.
Definition pp_work (c : pcfg Q) : nat :=
  main_work (p_main c) + echo_work (p_echo c) + req_work (p_req c) + rep_work (p_rep c).

Lemma left_round k : 0 <= k < samples → ∃ m, togo k = (m + cr + cp + 7)%nat ∧ togo (k + 1) = m.
Proof using. intros Hk. eexists. split; [|done]. replace (Z.to_nat (samples - k)) with (S (Z.to_nat (samples - (k + 1)))) by lia. lia. Qed.

Definition decreases (c : pcfg Q) : Prop := ∃ x c', pingpong_step samples c x = Some c' ∧ (pp_work c' < pp_work c)%nat.

(** Waiting inside a queue. *)
Definition main_waits (c : pcfg Q) : Prop :=
  (∃ k t0, p_main c = TPush k t0 ∧ ad_thr (p_req c) !! 0%nat = Some Pushing) ∨
  (∃ k t0, p_main c = TPop k t0 ∧ ad_thr (p_rep c) !! 0%nat = Some Popping).
Definition echo_waits (c : pcfg Q) : Prop :=
  (∃ k, p_echo c = EPop k ∧ ad_thr (p_req c) !! 1%nat = Some Popping) ∨
  (∃ k, p_echo c = EPush k ∧ ad_thr (p_rep c) !! 1%nat = Some Pushing).

Context (any : ad_choice Q).

Lemma main_moves c : pinv c → p_main c = TDone ∨ main_waits c ∨ decreases c.
Proof using Hs any.
  intros Hc. pose proof Hc as [H1 H2 H3 H4 H5 H6 H7 H8 (r0 & r1 & H9 & Hm & Hx) (s0 & s1 & H10 & Hn & Hy)].
  unfold main_waits. rewrite H9, H10. cbn [lookup list_lookup].
  assert (∀ c', main_step samples c any 0 = Some c' → (pp_work c' < pp_work c)%nat → decreases c) as Hgo
    by (intros c' ? ?; by exists (Main any 0), c').
  unfold main_step in Hgo. destruct (p_main c) as [k|k|k t0|k t0|k t0|k t0|k t0 v|] eqn:Ep; simpl in H1, Hm, Hn; [..|by left];
    right; rewrite ?H9, ?H10 in Hgo; cbn [lookup list_lookup] in Hgo.
  - right. eapply Hgo; [done|]. unfold pp_work. rewrite Ep. simpl p_req. simpl p_rep. simpl p_echo. simpl p_main.
    destruct (Z.ltb_spec k samples); cbn [main_work]; lia.
  - right. eapply Hgo; [done|]. unfold pp_work. rewrite Ep. cbn [p_req p_rep p_echo p_main main_work].
    destruct (left_round k H1) as (m & -> & _). lia.
  - right. destruct (can_push _ 0 (to_u64 (k + 1)) _ _ H3 eq_refl) as [q E]; [by rewrite H9, Hm|]. rewrite E in Hgo.
    eapply Hgo; [done|]. pose proof (push_work (Progresses := req_prog) _ _ _ _ E). unfold pp_work. rewrite Ep.
    cbn [p_req p_rep p_echo p_main main_work]. destruct (left_round k H1) as (m & -> & _). lia.
  - destruct Hm as [-> | ->]; [left; left; eauto|]. right.
    destruct (can_ret _ 0 Pushed _ _ H3) as [q E]; [by rewrite H9|done|]. rewrite E in Hgo.
    eapply Hgo; [done|]. pose proof (ret_work (Progresses := req_prog) _ _ _ E). unfold pp_work. rewrite Ep.
    cbn [p_req p_rep p_echo p_main main_work]. destruct (left_round k H1) as (m & -> & _). lia.
  - right. destruct (can_pop _ 0 _ _ H4 eq_refl) as [q E]; [by rewrite H10, Hn|]. rewrite E in Hgo.
    eapply Hgo; [done|]. pose proof (pop_work (Progresses := rep_prog) _ _ _ E). unfold pp_work. rewrite Ep.
    cbn [p_req p_rep p_echo p_main main_work]. destruct (left_round k H1) as (m & -> & _). lia.
  - destruct Hn as [-> |[v ->]]; [left; right; eauto|]. right.
    destruct (can_ret _ 0 (Popped v) _ _ H4) as [q E]; [by rewrite H10|done|]. rewrite E in Hgo.
    eapply Hgo; [done|]. pose proof (ret_work (Progresses := rep_prog) _ _ _ E). unfold pp_work. rewrite Ep.
    cbn [p_req p_rep p_echo p_main main_work]. destruct (left_round k H1) as (m & -> & _). lia.
  - right. eapply Hgo; [done|]. unfold pp_work. rewrite Ep. cbn [p_req p_rep p_echo p_main main_work].
    rewrite uwrap_small by lia. destruct (left_round k (proj1 H1)) as (m & -> & ->). lia.
Qed.

Lemma echo_moves c : pinv c → p_echo c = EDone ∨ echo_waits c ∨ decreases c.
Proof using Hs any.
  intros Hc. pose proof Hc as [H1 H2 H3 H4 H5 H6 H7 H8 (r0 & r1 & H9 & Hm & Hx) (s0 & s1 & H10 & Hn & Hy)].
  unfold echo_waits. rewrite H9, H10. cbn [lookup list_lookup].
  assert (∀ c', echo_step samples c any = Some c' → (pp_work c' < pp_work c)%nat → decreases c) as Hgo
    by (intros c' ? ?; by exists (Echo any), c').
  unfold echo_step in Hgo. destruct (p_echo c) as [k|k|k v|k|] eqn:Ep; simpl in H2, Hx, Hy; [..|by left];
    right; rewrite ?H9, ?H10 in Hgo; cbn [lookup list_lookup] in Hgo.
  - right. destruct (Z.ltb_spec k samples).
    + destruct (can_pop _ 1 _ _ H3 eq_refl) as [q E]; [by rewrite H9, Hx|]. rewrite E in Hgo.
      eapply Hgo; [done|]. pose proof (pop_work (Progresses := req_prog) _ _ _ E). unfold pp_work. rewrite Ep.
      cbn [p_req p_rep p_echo p_main echo_work]. destruct (left_round k ltac:(lia)) as (m & -> & _). lia.
    + eapply Hgo; [done|]. unfold pp_work. rewrite Ep. cbn [p_req p_rep p_echo p_main echo_work]. lia.
  - destruct Hx as [-> |[v ->]]; [left; left; eauto|]. right.
    destruct (can_ret _ 1 (Popped v) _ _ H3) as [q E]; [by rewrite H9|done|]. rewrite E in Hgo.
    eapply Hgo; [done|]. pose proof (ret_work (Progresses := req_prog) _ _ _ E). unfold pp_work. rewrite Ep.
    cbn [p_req p_rep p_echo p_main echo_work]. destruct (left_round k H2) as (m & -> & _). lia.
  - right. destruct (can_push _ 1 v _ _ H4 eq_refl) as [q E]; [by rewrite H10, Hy|]. rewrite E in Hgo.
    eapply Hgo; [done|]. pose proof (push_work (Progresses := rep_prog) _ _ _ _ E). unfold pp_work. rewrite Ep.
    cbn [p_req p_rep p_echo p_main echo_work]. destruct (left_round k H2) as (m & -> & _). lia.
  - destruct Hy as [-> | ->]; [left; right; eauto|]. right.
    destruct (can_ret _ 1 Pushed _ _ H4) as [q E]; [by rewrite H10|done|]. rewrite E in Hgo.
    eapply Hgo; [done|]. pose proof (ret_work (Progresses := rep_prog) _ _ _ E). unfold pp_work. rewrite Ep.
    cbn [p_req p_rep p_echo p_main echo_work]. rewrite uwrap_small by lia. destruct (left_round k H2) as (m & -> & ->). lia.
Qed.

(** A thread that gets on inside a queue. *)
Lemma req_runs c t r a q : pinv c → ad_thr (p_req c) !! t = Some r → busy r = true → ad_run (p_req c) t a = Some q →
  (req_work q < req_work (p_req c))%nat → decreases c.
Proof using.
  intros [_ _ _ _ _ _ _ _ (r0 & r1 & H9 & Hm & Hx) _] Hr Hb E Hlt. rewrite H9 in Hr.
  destruct t as [|[|t]]; simplify_eq/=; [exists (Main a 0)|exists (Echo a)]; simpl; unfold main_step, echo_step.
  - destruct (p_main c) eqn:Ep; simpl in Hm; try (by subst r). rewrite H9. cbn [lookup list_lookup].
    destruct Hm as [-> | ->]; [|done]. rewrite E. eexists. split; [done|]. unfold pp_work. cbn [p_req p_rep p_main p_echo]. rewrite Ep. lia.
  - destruct (p_echo c) eqn:Ep; simpl in Hx; try (by subst r). rewrite H9. cbn [lookup list_lookup].
    destruct Hx as [-> |[v ->]]; [|done]. rewrite E. eexists. split; [done|]. unfold pp_work. cbn [p_req p_rep p_main p_echo]. rewrite Ep. lia.
Qed.

Lemma rep_runs c t r a q : pinv c → ad_thr (p_rep c) !! t = Some r → busy r = true → ad_run (p_rep c) t a = Some q →
  (rep_work q < rep_work (p_rep c))%nat → decreases c.
Proof using.
  intros [_ _ _ _ _ _ _ _ _ (r0 & r1 & H9 & Hm & Hx)] Hr Hb E Hlt. rewrite H9 in Hr.
  destruct t as [|[|t]]; simplify_eq/=; [exists (Main a 0)|exists (Echo a)]; simpl; unfold main_step, echo_step.
  - destruct (p_main c) eqn:Ep; simpl in Hm; try (by subst r). rewrite H9. cbn [lookup list_lookup].
    destruct Hm as [-> |[v ->]]; [|done]. rewrite E. eexists. split; [done|]. unfold pp_work. cbn [p_req p_rep p_main p_echo]. rewrite Ep. lia.
  - destruct (p_echo c) eqn:Ep; simpl in Hx; try (by subst r). rewrite H9. cbn [lookup list_lookup].
    destruct Hx as [-> | ->]; [|done]. rewrite E. eexists. split; [done|]. unfold pp_work. cbn [p_req p_rep p_main p_echo]. rewrite Ep. lia.
Qed.

(** How many values are where. *)
Lemma pp_counts c : pinv c →
  Z.of_nat (length (p_seen c)) = seen0 (p_main c) ∧ Z.of_nat (length (p_sent c)) = sent1 (p_echo c) ∧
  Z.of_nat (length (p_got c)) = got1 (p_echo c) ∧ Z.of_nat (length (seqZ 1 (sent0 (p_main c)))) = sent0 (p_main c) ∧
  seen0 (p_main c) <= sent1 (p_echo c).
Proof using Hs.
  intros Hc. pose proof (pi_main _ Hc) as H1. pose proof (pi_echo _ Hc) as H2.
  assert (Z.of_nat (length (p_seen c)) = seen0 (p_main c)) as E1.
  { rewrite (pi_seen _ Hc), length_seqZ. destruct (p_main c); simpl in *; lia. }
  assert (Z.of_nat (length (p_sent c)) = sent1 (p_echo c)) as E2.
  { pose proof (pi_got _ Hc) as E. rewrite (pi_fwd _ Hc), length_app in E. destruct (p_echo c); simpl in *; lia. }
  destruct (ad_flow_held _ _ _ (pi_rep _ Hc)) as [rest Hp]. apply Permutation_length in Hp. rewrite length_app in Hp.
  split_and!; [done|done|apply (pi_got _ Hc)| |lia]. rewrite length_seqZ. destruct (p_main c); simpl in *; lia.
Qed.

(** Nobody waits for ever: a message that was sent is under way to the other side,
    and there is room for it. *)
Lemma pp_not_stuck c :
  pinv c → p_main c = TDone ∨ main_waits c → p_echo c = EDone ∨ echo_waits c →
  stuck cap (ad_thr (p_req c)) (p_got c) (seqZ 1 (sent0 (p_main c))) →
  stuck cap (ad_thr (p_rep c)) (p_seen c) (p_sent c) → pingpong_done c = true.
Proof using Hs Hcap.
  intros Hc HM HE HR HP. destruct (pp_counts c Hc) as (E1 & E2 & E3 & E4 & E5).
  pose proof (pi_main _ Hc) as Hok. pose proof (pi_echo _ Hc) as Hok'. unfold pingpong_done.
  destruct HM as [Em|[(k & t0 & Em & Hr)|(k & t0 & Em & Hr)]]; rewrite Em in *; simpl in *.
  - destruct HE as [Ee|[(j & Ee & Hq)|(j & Ee & Hq)]]; rewrite Ee in *; simpl in *; [done|exfalso..].
    + destruct (HR 1%nat Popping Hq eq_refl) as [(_ & Hp & _)|(? & _)]; [|done]. apply Permutation_length in Hp. lia.
    + destruct (HP 1%nat Pushing Hq eq_refl) as [(? & _)|(_ & Hp & _)]; [done|]. lia.
  - exfalso. destruct (HR 0%nat Pushing Hr eq_refl) as [(? & _)|(_ & Hp & _)]; [done|].
    destruct (p_echo c); simpl in *; lia.
  - exfalso. destruct (HP 0%nat Popping Hr eq_refl) as [(_ & Hp & Hall)|(? & _)]; [|done]. apply Permutation_length in Hp.
    destruct HE as [Ee|[(j & Ee & Hq)|(j & Ee & Hq)]]; rewrite Ee in *; simpl in *.
    + lia.
    + destruct (HR 1%nat Popping Hq eq_refl) as [(_ & Hp' & _)|(? & _)]; [|done]. apply Permutation_length in Hp'. lia.
    + by specialize (Hall 1%nat Pushing Hq eq_refl).
Qed.

(** In a queue in which everybody waits nobody is about to return. *)
Lemma waiting_phases c : pinv c → p_main c = TDone ∨ main_waits c → p_echo c = EDone ∨ echo_waits c →
  (∀ t r, ad_thr (p_req c) !! t = Some r → returns r = false) ∧ (∀ t r, ad_thr (p_rep c) !! t = Some r → returns r = false).
Proof using.
  intros Hc HM HE. destruct (pi_thr_req _ Hc) as (r0 & r1 & E1 & Hm & Hx). destruct (pi_thr_rep _ Hc) as (s0 & s1 & E2 & Hn & Hy).
  unfold main_waits, echo_waits in HM, HE. rewrite E1, E2 in *. cbn [lookup list_lookup] in HM, HE.
  assert (returns r0 = false ∧ returns s0 = false) as [? ?].
  { destruct HM as [Em|[(k & t0 & Em & Hr)|(k & t0 & Em & Hr)]]; rewrite Em in *; simpl in *; by simplify_eq. }
  assert (returns r1 = false ∧ returns s1 = false) as [? ?].
  { destruct HE as [Ee|[(k & Ee & Hr)|(k & Ee & Hr)]]; rewrite Ee in *; simpl in *; by simplify_eq. }
  split; intros [|[|t]] r Hr; simplify_eq/=; done.
Qed.

Lemma pp_can_move c : pinv c → pingpong_done c = true ∨ decreases c.
Proof using Hs Hcap any.
  intros Hc. destruct (main_moves c Hc) as [HM|[HM|?]]; [| |by right].
  all: destruct (echo_moves c Hc) as [HE|[HE|?]]; [| |by right].
  all: destruct (waiting_phases c Hc ltac:(tauto) ltac:(tauto)) as [W1 W2].
  all: destruct (moves _ _ _ (pi_req _ Hc) W1) as [(t & r & a & q & Hr & Hb & E & Hlt)|HR]; [right; by eapply req_runs|].
  all: destruct (moves _ _ _ (pi_rep _ Hc) W2) as [(t & r & a & q & Hr & Hb & E & Hlt)|HP]; [right; by eapply rep_runs|].
  all: left; apply pp_not_stuck; tauto.
Qed.

(** The ping-pong measurement does not hang: from every reachable state boundedly
    many steps that are not spins lead to the end of both threads, for every queue
    that makes progress and has room for one value. *)
Theorem pingpong_completes c :
  reachable (M := M) (pingpong_init freshReq freshRep) c →
  ∃ σ c', run (M := M) c σ = Some c' ∧ (length σ <= pp_work c)%nat ∧ pingpong_done c' = true ∧
    Z.of_nat (length (p_rtt c')) = samples.
Proof using Hs HfReq HfRep Hcap any.
  intros Hc%pinv_reachable.
  assert (∀ s a s', pinv s → m_exec M s a = Some s' → pinv s') as Hstep.
  { intros s [a tsc|a] s' Hi He; [exact (pinv_main s a tsc s' Hi He)|exact (pinv_echo s a s' Hi He)]. }
  destruct (measure_completes M (λ s, pinv s) (λ s, pinv s ∧ pingpong_done s = true) pp_work Hstep) with (s := c)
    as (σ & c' & Hr & Hl & Hi & Hd); [|done|].
  - intros s Hi. destruct (pp_can_move s Hi); [by left|by right].
  - exists σ, c'. split_and!; try done. rewrite (pi_rtt _ Hi). unfold pingpong_done in Hd. by destruct (p_main c'), (p_echo c').
Qed.

(** The vector that is returned is that of [BenchReport.latencies]. *)
Lemma pingpong_latencies tscPerNs c stamps :
  reachable (M := M) (pingpong_init freshReq freshRep) c → pingpong_done c = true →
  (∀ k, (k < Z.to_nat samples)%nat → p_rtt c !! k = Some (stamps k)) →
  pingpong_result tscPerNs c = latencies tscPerNs stamps samples.
Proof using Hs HfReq HfRep.
  intros Hc%pinv_reachable Hd. apply (latencies_list tscPerNs). rewrite (pi_rtt _ Hc). unfold pingpong_done in Hd.
  by destruct (p_main c), (p_echo c).
Qed.
End Proofs.

(** ** Two round trips through two buffers of two slots *)

Abbreviation exQ := (AstraQ.t 2).
Definition ex_queue : exQ := AstraQ.mk (default no_cfg (init_cfg machine_arith 2 BATCH_SIZE 77 2)).
Definition ex_pp : pcfg exQ := mkP ex_queue ex_queue (TLoop 0) (ELoop 0) [] [] [] [].
Definition ex_pp_round (t0 t1 : Z) : list (pact exQ) :=
  [Main tt t0; Main tt t0; Main tt t0] ++ replicate 5 (Main tt t0) ++ replicate 12 (Echo tt) ++ replicate 6 (Main tt t1) ++ [Main tt t1].
Definition ex_pp_sched : list (pact exQ) := ex_pp_round 100 160 ++ ex_pp_round 200 290 ++ [Main tt 0; Echo tt].
Definition ex_pp_end : pcfg exQ :=
  default ex_pp (run (M := pingpong_machine exQ 2) ex_pp ex_pp_sched).
Definition ex_pp_mid : pcfg exQ :=
  default ex_pp (run (M := pingpong_machine exQ 2) ex_pp (take 20 ex_pp_sched)).

Lemma ex_pp_reach σ c : run (M := pingpong_machine exQ 2) ex_pp σ = Some c →
  reachable (M := pingpong_machine exQ 2) (pingpong_init (AstraQ.fresh 2 2 77) (AstraQ.fresh 2 2 77)) c.
Proof. intros H. eapply run_reachable; [|exact H]. apply reach_init. exists ex_queue, ex_queue. split_and!; by vm_compute. Qed.

Definition ex_pp_cons R : Conserves exQ 2 R := AstraQ.conserves 2 params_pool_2 2 ltac:(lia) R.
Definition ex_pp_prog R : Progresses (Conserves0 := ex_pp_cons R) exQ 2 R 2 := AstraQ.progresses 2 params_pool_2 2 ltac:(lia) R.
Lemma ex_pp_fresh R : starts_with (Conserves0 := ex_pp_cons R) (AstraQ.fresh 2 2 77) [].
Proof. apply AstraQ.fresh_starts. Qed.

Lemma pingpong_round_trips_witness :
  p_rtt ex_pp_end = [(100, 160); (200, 290)] ∧ p_seen ex_pp_end = seqZ 1 2 ∧ Z.of_nat (length (p_rtt ex_pp_end)) = 2.
Proof.
  destruct (pingpong_round_trips (req_cons := ex_pp_cons _) (rep_cons := ex_pp_cons _) 2 ltac:(lia) (AstraQ.fresh 2 2 77) (AstraQ.fresh 2 2 77)
    (ex_pp_fresh _) (ex_pp_fresh _) ex_pp_end) as (H1 & _ & _ & H2).
  - apply (ex_pp_reach ex_pp_sched). by vm_compute.
  - split; [by vm_compute|]. split; [exact H1|]. apply H2. by vm_compute.
Defined.

Lemma pingpong_completes_witness : ∃ σ c',
  run (M := pingpong_machine exQ 2) ex_pp_mid σ = Some c' ∧ pingpong_done c' = true ∧ Z.of_nat (length (p_rtt c')) = 2.
Proof.
  destruct (pingpong_completes (req_cons := ex_pp_cons _) (rep_cons := ex_pp_cons _) 2 ltac:(lia) (AstraQ.fresh 2 2 77) (AstraQ.fresh 2 2 77)
    (ex_pp_fresh _) (ex_pp_fresh _) (cap := 2) ltac:(lia) (req_prog := ex_pp_prog _) (rep_prog := ex_pp_prog _) tt ex_pp_mid)
    as (σ & c' & H1 & _ & H2 & H3).
  - apply (ex_pp_reach (take 20 ex_pp_sched)). by vm_compute.
  - exists σ, c'. exact (conj H1 (conj H2 H3)).
Defined.
