(* ===== verification/QueueCompetitors.v ===== *)
(** * The competitors of the queue benchmark

    The template arguments of [make<Q>] in [main] of
    [src/bench/QueueComparisonBench.cpp], in its order: the two queues of the
    library, the mutex-protected deque, and the six third-party queues, which are
    parameters with the contracts of [LibAdapter.v].  All of them conserve values,
    so the accounting of [throughput] holds for each ([QueueBench.v]), and the round
    trips of [pingPong] are round trips ([PingPong.v]). *)

From Stdlib Require Import ZArith Lia.
From S2P Require Import Prelude MachineInt Lts AtomicRingBuffer RingInvariant RingMachine RingRefinement RingTheorems SpscRingBuffer IndexPool.
From S2P Require Import LockInterface Monitor Adapter MonitorAdapter MutexQueue SpscAdapter RingAdapter LibAdapter QueueBench PingPong.
Local Open Scope Z_scope.

Module QueueCompetitors.
Section Competitors.

(** [static constexpr std::size_t CAP = 1024;] *)
Definition CAP : Z := 1024.

(** [std::mutex], and the third-party queues. *)
Context {L : Type} `{!Lock L} (m : L) (Hm : lk_wf m ∧ lk_free m = true).
Context (rigtorp_mpmc boost_queue moody_cq moody_rwq boost_spsc : lib CAP) (rigtorp_spsc : front_lib CAP).
(** [enqueue] of the unbounded queue fails only when no memory is left. *)
Context (Hcq : ∀ k s v, (lib_push (S := lib_state moody_cq) k s v).2 = true).

Definition astraQ : impl := symmetric (AstraQ.t CAP) (λ n c, ∃ a0, AstraQ.fresh CAP n a0 c).
Definition rigtorpMPMC : impl := over_lib rigtorp_mpmc RigtorpMPMC.
Definition boostQueue : impl := over_lib boost_queue BoostQueue.
Definition moodyCQ : impl := over_lib moody_cq MoodyCQ.
Definition mutexDeque : impl :=
  symmetric (locked MutexDeque.as_container MutexDeque.out_step (MutexDeque.cs_step CAP) L)
    (λ n, unused _ _ _ n m [] MutexDeque.Idle).
Definition astraSPSC : impl :=
  mkImpl (AstraSPSC.t CAP) _ (λ _ c, ∃ a0, AstraSPSC.fresh CAP false a0 c) (λ c, ∃ a0, AstraSPSC.fresh CAP true a0 c).
Definition rigtorpSPSC : impl := over_front rigtorp_spsc RigtorpSPSC.
Definition moodyRWQ : impl := over_lib moody_rwq MoodyRWQ.
Definition boostSPSC : impl := over_lib boost_spsc BoostSPSC.

(** With the flag [spscOnly]. *)
Definition impls : list (impl * bool) :=
  [(astraQ, false); (rigtorpMPMC, false); (boostQueue, false); (moodyCQ, false); (mutexDeque, false);
   (astraSPSC, true); (rigtorpSPSC, true); (moodyRWQ, true); (boostSPSC, true)].

(** A queue that conserves values for every shape it is used with. *)
Definition sound (I : impl * bool) : Prop :=
  ∀ P C, (0 < P)%nat → (0 < C)%nat → (P + C <= 8)%nat → (I.2 = true → P = 1%nat ∧ C = 1%nat) →
    ∃ HC : Conserves (i_q I.1) (P + C) (split_roles P), starts_with (i_fresh I.1 (P + C)) [].

Section Lib.
Context (X : lib CAP) (C : code (lib_state X)) (HC : code_ok C lib_items (λ _ _, False) CAP) (n : nat) (R : roles).

Definition lib_cons : Conserves (lq C) n R := lib_conserves C _ _ _ HC n R (or_introl (λ _ _ H, H)).
Definition lib_prog : Progresses (Conserves0 := lib_cons) (lq C) n R CAP :=
  lib_progresses C _ _ _ HC n R (or_introl (λ _ _ H, H)) eq_refl.

Lemma lib_starts : starts_with (Conserves0 := lib_cons) (i_fresh (over_lib X C) n) [].
Proof. intros c Hc. eapply holding_starts. simpl in Hc. rewrite Hc. split; [done|]. simpl. by rewrite lib_new_empty. Qed.
End Lib.

Lemma lib_sound (X : lib CAP) (C : code (lib_state X)) (spsc : bool) :
  code_ok C lib_items (λ _ _, False) CAP → sound (over_lib X C, spsc).
Proof. intros HC P K _ _ _ _. exists (lib_cons X C HC (P + K) (split_roles P)). apply lib_starts. Qed.

Lemma astraQ_sound : sound (astraQ, false).
Proof.
  intros P C HP HC Hle _. assert (params_ok CAP BATCH_SIZE) as Hpar by by split.
  exists (AstraQ.conserves CAP Hpar (P + C) ltac:(unfold CAP; lia) (split_roles P)). intros c [a0 Hc].
  by eapply AstraQ.fresh_starts.
Qed.

Lemma mutexDeque_sound : sound (mutexDeque, false).
Proof using Hm.
  intros P C HP HC Hle _.
  exists (locked_conserves _ _ _ _ _ (MutexDeque.mq_container_ok CAP) (P + C) (split_roles P)).
  apply unused_starts; try done; apply Hm.
Qed.

(** One producer and one consumer. *)
Lemma spsc_size : 1 <= CAP <= INT_MAX.
Proof using. done. Qed.

Lemma spsc_push i : pushes (split_roles 1) i = true → (i < 2)%nat → i = AstraSPSC.producer false.
Proof using. intros Hi%split_pushes. unfold AstraSPSC.producer. lia. Qed.

Lemma spsc_pop i : pops (split_roles 1) i = true → (i < 2)%nat → i = AstraSPSC.consumer false.
Proof using. intros Hi%split_pops. unfold AstraSPSC.consumer. lia. Qed.

Lemma one_consumer t t' : (t < 2)%nat → (t' < 2)%nat → pops (split_roles 1) t = true → pops (split_roles 1) t' = true → t = t'.
Proof using. intros Ht Ht' H1%split_pops H2%split_pops. lia. Qed.

Lemma astraSPSC_sound : sound (astraSPSC, true).
Proof using.
  intros P C HP HC Hle [-> ->]; [done|].
  exists (AstraSPSC.conserves CAP spsc_size false (split_roles 1) spsc_push spsc_pop). intros c [a0 Hc].
  by eapply AstraSPSC.spsc_fresh_starts.
Qed.

Lemma rigtorpSPSC_sound : sound (rigtorpSPSC, true).
Proof using.
  intros P C HP HC Hle [-> ->]; [done|].
  exists (lib_conserves RigtorpSPSC _ _ _ front_ok 2 (split_roles 1) (or_intror one_consumer)).
  intros c Hc. eapply holding_starts. simpl in Hc. rewrite Hc. split; [done|]. simpl. by rewrite fl_new_empty.
Qed.

(** Every competitor conserves values. *)
Lemma impls_sound : Forall sound impls.
Proof using Hm Hcq.
  repeat apply Forall_cons_2; [..|apply Forall_nil_2].
  - apply astraQ_sound.
  - apply lib_sound, block_ok.
  - apply lib_sound, retry_ok.
  - by apply lib_sound, once_ok.
  - apply mutexDeque_sound.
  - apply astraSPSC_sound.
  - apply rigtorpSPSC_sound.
  - apply lib_sound, retry_ok.
  - apply lib_sound, retry_ok.
Qed.

(** *** Termination *)

(** [throughput<Q>] has executions that come to their end. *)
Definition finishes (I : impl * bool) : Prop :=
  ∀ P C N, (0 < P)%nat → (0 < C)%nat → (P + C <= 8)%nat → (I.2 = true → P = 1%nat ∧ C = 1%nat) →
    0 <= N < 2 ^ 64 → (Z.of_nat P | N) → (Z.of_nat C | N) →
    ∃ c, reachable (M := throughput_machine (i_q I.1) P C N) (throughput_init P C (i_fresh I.1 (P + C))) c ∧
      Forall (λ p, finished p = true) (b_thr c).

Lemma finishes_by (I : impl) P C N (cons : Conserves (i_q I) (P + C) (split_roles P)) cap
    (prog : Progresses (i_q I) (P + C) (split_roles P) cap) (any : ad_choice (i_q I)) q :
  (0 < P)%nat → (0 < C)%nat → (P + C <= 8)%nat → 0 <= N < 2 ^ 64 → (Z.of_nat P | N) → (Z.of_nat C | N) →
  starts_with (i_fresh I (P + C)) [] → i_fresh I (P + C) q →
  ∃ c, reachable (M := throughput_machine (i_q I) P C N) (throughput_init P C (i_fresh I (P + C))) c ∧
    Forall (λ p, finished p = true) (b_thr c).
Proof using.
  intros HP HC Hle HN HdP HdC Hst Hq.
  apply (throughput_can_finish P C N ltac:(lia) HN HdP HdC (i_fresh I (P + C)) Hst any q Hq).
Qed.

Lemma lib_finishes (X : lib CAP) (C : code (lib_state X)) (spsc : bool) :
  code_ok C lib_items (λ _ _, False) CAP → finishes (over_lib X C, spsc).
Proof using.
  intros HC P K N HP HK Hle _ HN HdP HdC.
  apply (finishes_by (over_lib X C) P K N (lib_cons X C HC _ _) CAP (lib_prog X C HC _ _) 0%nat
    (mkLq (lib_new X) (replicate (P + K) AOut))); try done. apply lib_starts.
Qed.

Lemma astraQ_finishes : finishes (astraQ, false).
Proof using.
  intros P C N HP HC Hle _ HN HdP HdC. assert (params_ok CAP BATCH_SIZE) as Hpar by by split.
  assert (CAP * Z.of_nat (P + C) < 2 ^ 64) as Hn by (unfold CAP; lia).
  destruct (init_wrap CAP BATCH_SIZE Hpar 0 (P + C)) as (c & Hc & _).
  refine (finishes_by astraQ P C N (AstraQ.conserves CAP Hpar (P + C) Hn _) CAP (AstraQ.progresses CAP Hpar (P + C) Hn _) tt
    (AstraQ.mk (wrap_cfg c)) HP HC Hle HN HdP HdC _ (ex_intro _ 0 Hc)).
  intros c' [a0 Hc']. exact (AstraQ.fresh_starts CAP Hpar (P + C) Hn (split_roles P) a0 c' Hc').
Qed.

Lemma astraSPSC_finishes : finishes (astraSPSC, true).
Proof using.
  intros P C N HP HC Hle [-> ->] HN HdP HdC; [done|].
  refine (finishes_by astraSPSC 1 1 N (AstraSPSC.conserves CAP spsc_size false _ spsc_push spsc_pop) CAP
    (AstraSPSC.progresses CAP spsc_size false _ spsc_push spsc_pop) tt (AstraSPSC.mk false (Spsc.init_cfg CAP 0))
    HP HC Hle HN HdP HdC _ (ex_intro _ 0 eq_refl)).
  intros c [a0 Hc]. exact (AstraSPSC.spsc_fresh_starts CAP spsc_size false _ spsc_push spsc_pop a0 c Hc).
Qed.

Lemma rigtorpSPSC_finishes : finishes (rigtorpSPSC, true).
Proof using.
  intros P C N HP HC Hle [-> ->] HN HdP HdC; [done|].
  apply (finishes_by rigtorpSPSC 1 1 N (lib_conserves RigtorpSPSC _ _ _ front_ok 2 (split_roles 1) (or_intror one_consumer)) CAP
    (lib_progresses RigtorpSPSC _ _ CAP front_ok 2 (split_roles 1) (or_intror one_consumer) eq_refl) 0%nat
    (mkLq (fl_new rigtorp_spsc) (replicate 2 AOut))); try done.
  intros c Hc. eapply holding_starts. simpl in Hc. rewrite Hc. split; [done|]. simpl. by rewrite fl_new_empty.
Qed.

(** All but the mutex-protected deque, whose threads may fail to get on without
    anybody being blocked. *)
Lemma impls_finish : Forall (λ I, I = (mutexDeque, false) ∨ finishes I) impls.
Proof using Hcq.
  repeat apply Forall_cons_2; [..|apply Forall_nil_2].
  - right. apply astraQ_finishes.
  - right. apply lib_finishes, block_ok.
  - right. apply lib_finishes, retry_ok.
  - right. by apply lib_finishes, once_ok.
  - by left.
  - right. apply astraSPSC_finishes.
  - right. apply rigtorpSPSC_finishes.
  - right. apply lib_finishes, retry_ok.
  - right. apply lib_finishes, retry_ok.
Qed.

(** The accounting of [throughput<Q>] for each of them. *)
Lemma impls_pass I P C N c :
  I ∈ impls → (0 < P)%nat → (0 < C)%nat → (P + C <= 8)%nat → (I.2 = true → P = 1%nat ∧ C = 1%nat) →
  0 <= N < 2 ^ 32 → (Z.of_nat P | N) → (Z.of_nat C | N) →
  reachable (M := throughput_machine (i_q I.1) P C N) (throughput_init P C (i_fresh I.1 (P + C))) c →
  Forall (λ p, finished p = true) (b_thr c) → check_sum N c = true.
Proof using Hm Hcq.
  intros HI HP HC Hle Hspsc HN HdP HdC Hr Hf. pose proof impls_sound as Hs. rewrite Forall_forall in Hs.
  destruct (Hs I HI P C HP HC Hle Hspsc) as [HCons Hst].
  eapply (finished_check P C N); [lia|lia|done|done|exact Hst|exact Hr|done|lia].
Qed.

(** *** The latency measurement *)

Definition echoes (I : impl * bool) : Prop :=
  ∃ (c1 : Conserves (i_q I.1) 2 (one_to_one 0 1)) (c2 : Conserves (i_q I.1) 2 (one_to_one 1 0)),
    starts_with (Conserves0 := c1) (i_fresh I.1 2) [] ∧ starts_with (Conserves0 := c2) (i_rep I.1) [].

Lemma lib_echoes (X : lib CAP) (C : code (lib_state X)) (spsc : bool) :
  code_ok C lib_items (λ _ _, False) CAP → echoes (over_lib X C, spsc).
Proof using. intros HC. exists (lib_cons X C HC 2 _), (lib_cons X C HC 2 _). split; apply lib_starts. Qed.

Lemma astraQ_echoes : echoes (astraQ, false).
Proof using.
  assert (params_ok CAP BATCH_SIZE) as Hpar by by split. assert (CAP * Z.of_nat 2 < 2 ^ 64) as Hn by done.
  exists (AstraQ.conserves CAP Hpar 2 Hn _), (AstraQ.conserves CAP Hpar 2 Hn _).
  split; intros c [a0 Hc]; exact (AstraQ.fresh_starts CAP Hpar 2 Hn _ a0 c Hc).
Qed.

Lemma mutexDeque_echoes : echoes (mutexDeque, false).
Proof using Hm.
  exists (locked_conserves _ _ _ _ _ (MutexDeque.mq_container_ok CAP) 2 _), (locked_conserves _ _ _ _ _ (MutexDeque.mq_container_ok CAP) 2 _).
  split; (apply unused_starts; try done; apply Hm).
Qed.

Lemma astraSPSC_echoes : echoes (astraSPSC, true).
Proof using.
  assert (∀ b i, pushes (one_to_one (AstraSPSC.producer b) (AstraSPSC.consumer b)) i = true → (i < 2)%nat → i = AstraSPSC.producer b) as H1
    by (intros b i Hi _; symmetry; by apply Nat.eqb_eq in Hi).
  assert (∀ b i, pops (one_to_one (AstraSPSC.producer b) (AstraSPSC.consumer b)) i = true → (i < 2)%nat → i = AstraSPSC.consumer b) as H2
    by (intros b i Hi _; symmetry; by apply Nat.eqb_eq in Hi).
  exists (AstraSPSC.conserves CAP spsc_size false _ (H1 false) (H2 false)), (AstraSPSC.conserves CAP spsc_size true _ (H1 true) (H2 true)).
  split; intros c [a0 Hc]; by eapply AstraSPSC.spsc_fresh_starts.
Qed.

Lemma rigtorpSPSC_echoes : echoes (rigtorpSPSC, true).
Proof using.
  assert (∀ a b t t', (t < 2)%nat → (t' < 2)%nat → pops (one_to_one a b) t = true → pops (one_to_one a b) t' = true → t = t') as Hone.
  { intros a b t t' _ _ E1 E2. apply Nat.eqb_eq in E1, E2. congruence. }
  exists (lib_conserves RigtorpSPSC _ _ _ front_ok 2 _ (or_intror (Hone 0 1)%nat)), (lib_conserves RigtorpSPSC _ _ _ front_ok 2 _ (or_intror (Hone 1 0)%nat)).
  split; intros c Hc; eapply holding_starts; simpl in Hc; rewrite Hc; (split; [done|]; simpl; by rewrite fl_new_empty).
Qed.

Lemma impls_echo : Forall echoes impls.
Proof using Hm Hcq.
  repeat apply Forall_cons_2; [..|apply Forall_nil_2].
  - apply astraQ_echoes.
  - apply lib_echoes, block_ok.
  - apply lib_echoes, retry_ok.
  - by apply lib_echoes, once_ok.
  - apply mutexDeque_echoes.
  - apply astraSPSC_echoes.
  - apply rigtorpSPSC_echoes.
  - apply lib_echoes, retry_ok.
  - apply lib_echoes, retry_ok.
Qed.
End Competitors.
End QueueCompetitors.
