(* ===== verification/IndexPoolBench.v ===== *)
(** * The measurement of the index-pool benchmark

    Model of the template [run] in [src/bench/IndexPoolComparisonBench.cpp], for
    every [Adapter]: every thread repeats get an index, increment the plain counter [data[idx].uses],
    return the index; at the end the counters must add up to the number of
    rounds.  The load and the store of the increment are separate steps, so an
    index handed to two threads would lose increments. *)

From Stdlib Require Import ZArith Lia.
From S2P Require Import Prelude MachineInt Lts AtomicRingBuffer RingInvariant RingTheorems IndexPool.
From S2P Require Import Adapter RingAdapter.
Local Open Scope Z_scope.
Local Open Scope astra_scope.

Module IndexPoolBench.

Section Code.
Context {P : Type} `{!Adapter P} (SIZE : Z) (threads : nat) (total : Z).

Definition perThread : Z := total / Z.of_nat threads.

(** The body of a thread in round [k]: at the loop test, inside [get()], at the
    load and the store of [++data[idx].uses], before and inside [put(idx)]. *)
Inductive rpc :=
| RLoop (k : Z)
| RGet (k : Z)
| RLoad (k idx : Z)
| RStore (k idx x : Z)
| RCall (k idx : Z)
| RPut (k : Z)
| RDone.

Record rcfg := mkR { r_pool : P; r_data : list Z; r_thr : list rpc }.

(** [data[idx]]; out of bounds is undefined. *)
Definition data_at (data : list Z) (idx : Z) : option Z :=
  if idx <? 0 then None else data !! Z.to_nat idx.

(** [a] decides what the pool leaves open. *)
Definition body_step (c : rcfg) (t : nat) (a : ad_choice P) (p : rpc) : option rcfg :=
  let next q p' := Some (mkR q (r_data c) (<[t := p']> (r_thr c))) in
  match p with
  | RLoop k =>
      if k <? perThread
      then let? q := ad_pop (r_pool c) t in next q (RGet k)
      else next (r_pool c) RDone
  | RGet k =>
      let? r := ad_thr (r_pool c) !! t in
      match r with
      | Popped idx => let? q := ad_ret (r_pool c) t in next q (RLoad k idx)
      | _ => let? q := ad_run (r_pool c) t a in next q p
      end
  | RLoad k idx => let? x := data_at (r_data c) idx in next (r_pool c) (RStore k idx x)
  | RStore k idx x =>
      let? _ := data_at (r_data c) idx in
      Some (mkR (r_pool c) (<[Z.to_nat idx := to_u64 (x + 1)]> (r_data c)) (<[t := RCall k idx]> (r_thr c)))
  | RCall k idx => let? q := ad_push (r_pool c) t idx in next q (RPut k)
  | RPut k =>
      let? r := ad_thr (r_pool c) !! t in
      match r with
      | Pushed => let? q := ad_ret (r_pool c) t in next q (RLoop (to_u64 (k + 1)))
      | _ => let? q := ad_run (r_pool c) t a in next q p
      end
  | RDone => None
  end.

Definition run_step (c : rcfg) (ta : nat * ad_choice P) : option rcfg :=
  let? p := r_thr c !! ta.1 in body_step c ta.1 ta.2 p.

Definition run_machine : machine := Machine rcfg (nat * ad_choice P) run_step.

(** A fresh pool, constructed before the threads use it, and zeroed counters. *)
Definition run_init (fresh : P → Prop) (c : rcfg) : Prop :=
  fresh (r_pool c) ∧ r_data c = replicate (Z.to_nat SIZE) 0 ∧ r_thr c = replicate threads (RLoop 0).

Definition finished (p : rpc) : bool := match p with RDone => true | _ => false end.

(** [for (i < SIZE) sum += data[i].uses;] and the condition of the check. *)
Definition data_sum (c : rcfg) : Z := foldl (λ s x, to_u64 (s + x)) 0 (r_data c).
Definition check_uses (c : rcfg) : bool := data_sum c =? to_u64 (perThread * Z.of_nat threads).
End Code.
Arguments rcfg : clear implicits.
Arguments run_machine P {_} _ _.

Section Proofs.
Context {P : Type} `{!Adapter P} (SIZE : Z) (threads : nat) (total : Z).
Context (Hth : (0 < threads)%nat) (Htot : 0 <= total < 2 ^ 64).
Context `{!Conserves P threads mpmc}.
Abbreviation M := (run_machine P threads total).
Abbreviation per := (perThread threads total).

Lemma per_bound : 0 <= per ∧ per * Z.of_nat threads <= total.
Proof using Hth Htot.
  unfold perThread. split; [apply Z.div_pos; lia|].
  rewrite Z.mul_comm. apply Z.mul_div_le. lia.
Qed.

(** The index a thread holds, and the increments it has made. *)
Definition held_of (p : rpc) : list Z :=
  match p with RLoad _ i | RStore _ i _ | RCall _ i => [i] | _ => [] end.
Definition count_of (p : rpc) : Z :=
  match p with
  | RLoop k | RGet k | RLoad k _ | RStore k _ _ => k
  | RCall k _ | RPut k => k + 1
  | RDone => per
  end.

Definition thread_ok (data : list Z) (p : rpc) : Prop :=
  match p with
  | RLoop k => 0 <= k <= per
  | RGet k | RLoad k _ | RCall k _ | RPut k => 0 <= k < per
  | RStore k i x => 0 <= k < per ∧ data_at data i = Some x
  | RDone => True
  end.
Definition inside (p : rpc) (r : phase) : Prop :=
  match p with
  | RGet _ => r = Popping ∨ ∃ v, r = Popped v
  | RPut _ => r = Pushing ∨ r = Pushed
  | _ => r = Outside
  end.

Record rinv (c : rcfg P) : Prop := {
  ri_flow : ad_flow (r_pool c) (concat (held_of <$> r_thr c)) (seqZ 0 SIZE);
  ri_len : length (r_thr c) = threads;
  ri_data : length (r_data c) = Z.to_nat SIZE;
  ri_nonneg : Forall (λ x, 0 <= x) (r_data c);
  ri_thr : ∀ t p, r_thr c !! t = Some p → thread_ok (r_data c) p;
  ri_pool : ∀ t p, r_thr c !! t = Some p → ∃ r, ad_thr (r_pool c) !! t = Some r ∧ inside p r;
  ri_sum : sumZ (r_data c) = sumZ (count_of <$> r_thr c);
}.

(** Indexes that are held are in range and held by one thread only. *)
Lemma held_unique c t t' p p' i :
  rinv c → r_thr c !! t = Some p → r_thr c !! t' = Some p' → i ∈ held_of p → i ∈ held_of p' → t = t'.
Proof.
  intros Hc Hp Hp' Hi Hi'. destruct (ad_flow_held _ _ _ (ri_flow _ Hc)) as [rest Hperm].
  assert (NoDup (concat (held_of <$> r_thr c))) as Hnd.
  { assert (NoDup (seqZ 0 SIZE)) as H by apply NoDup_seqZ. rewrite <- Hperm in H. by apply NoDup_app in H as (_ & _ & H). }
  by eapply concat_NoDup_unique.
Qed.

Lemma held_range c t p i : rinv c → r_thr c !! t = Some p → i ∈ held_of p → 0 <= i < SIZE.
Proof.
  intros Hc Hp Hi. destruct (ad_flow_held _ _ _ (ri_flow _ Hc)) as [rest Hperm].
  assert (i ∈ seqZ 0 SIZE) as H; [|apply elem_of_seqZ in H; lia]. rewrite <- Hperm, elem_of_app. right.
  by eapply elem_of_concat_fmap.
Qed.

(** One thread moves from [p] to [p'] without touching the counters. *)
Lemma rinv_next c t p p' q' r' :
  rinv c → r_thr c !! t = Some p → thread_ok (r_data c) p' → ad_thr q' = <[t := r']> (ad_thr (r_pool c)) → inside p' r' →
  ad_flow q' (concat (held_of <$> <[t := p']> (r_thr c))) (seqZ 0 SIZE) →
  count_of p' = count_of p → rinv (mkR q' (r_data c) (<[t := p']> (r_thr c))).
Proof.
  intros [Hf Hl Hd Hnn Ht Hr Hs] Hp Hok Hq Hin Hf' Hcnt. split; simpl; try done; [by rewrite length_insert| | |].
  - intros j x [(<-&<-&_)|(_&Hx)]%lookup_insert_cases; eauto.
  - intros j x [(<-&<-&_)|(Hne&Hx)]%lookup_insert_cases.
    + exists r'. split; [|done]. rewrite Hq. destruct (Hr t p Hp) as (r & Hrt & _).
      apply list_lookup_insert_eq. by eapply lookup_lt_Some.
    + rewrite Hq, list_lookup_insert_ne by done. eauto.
  - rewrite Hs, list_fmap_insert, (sumZ_insert _ t (count_of p)); [lia|]. by rewrite list_lookup_fmap, Hp.
Qed.

Lemma rinv_same c t p p' q' r' :
  rinv c → r_thr c !! t = Some p → thread_ok (r_data c) p' → ad_thr q' = <[t := r']> (ad_thr (r_pool c)) → inside p' r' →
  ad_flow q' (concat (held_of <$> r_thr c)) (seqZ 0 SIZE) →
  held_of p' = held_of p → count_of p' = count_of p → rinv (mkR q' (r_data c) (<[t := p']> (r_thr c))).
Proof.
  intros Hc Hp Hok Hq Hin Hf Hh Hcnt. eapply rinv_next; try done. by rewrite (concat_fmap_same held_of _ _ p).
Qed.

Lemma stay_outside c t p : rinv c → r_thr c !! t = Some p → (∀ r, inside p r → r = Outside) →
  ad_thr (r_pool c) = <[t := Outside]> (ad_thr (r_pool c)).
Proof.
  intros Hc Hp Hi. destruct (ri_pool _ Hc t p Hp) as (r & Hr & ->%Hi). by rewrite list_insert_id.
Qed.

Lemma data_at_range c i : rinv c → 0 <= i < SIZE → ∃ x, data_at (r_data c) i = Some x ∧ r_data c !! Z.to_nat i = Some x ∧ 0 <= x.
Proof.
  intros Hc Hi. unfold data_at. destruct (Z.ltb_spec i 0); [lia|].
  destruct (lookup_lt_is_Some_2 (r_data c) (Z.to_nat i)) as [x Hx]; [rewrite (ri_data _ Hc); lia|].
  exists x. split_and!; try done. by apply (Forall_lookup_1 _ _ _ _ (ri_nonneg _ Hc) Hx).
Qed.

(** The counts are bounded by the rounds, so no counter wraps around. *)
Lemma count_le c i x : rinv c → (count_of <$> r_thr c) !! i = Some x → x <= per.
Proof using Hth Htot.
  intros Hc (p & -> & Hp)%list_lookup_fmap_Some. destruct per_bound as [Hper _].
  pose proof (ri_thr _ Hc i p Hp). destruct p; simpl in *; lia.
Qed.

Lemma counts_lt c t p :
  rinv c → r_thr c !! t = Some p → count_of p < per → sumZ (count_of <$> r_thr c) < per * Z.of_nat threads.
Proof using Hth Htot.
  intros Hc Hp Hlt. pose proof (sumZ_lt (count_of <$> r_thr c) per t (count_of p)) as H.
  rewrite length_fmap, (ri_len _ Hc) in H. apply H; [intros; by eapply count_le| |done]. by rewrite list_lookup_fmap, Hp.
Qed.

Lemma rinv_store c t k i x :
  rinv c → r_thr c !! t = Some (RStore k i x) →
  rinv (mkR (r_pool c) (<[Z.to_nat i := to_u64 (x + 1)]> (r_data c)) (<[t := RCall k i]> (r_thr c))).
Proof using Hth Htot.
  intros Hc Hp. pose proof (ri_thr _ Hc t _ Hp) as [Hk Hx]. pose proof (held_range c t _ i Hc Hp ltac:(by left)) as Hi.
  destruct (data_at_range c i Hc Hi) as (x' & Hx' & Hlk & Hnn). rewrite Hx in Hx'. injection Hx' as <-.
  assert (0 <= x < 2 ^ 64 - 1) as Hxb.
  { destruct per_bound as [_ Hpb].
    assert (sumZ (r_data c) < total) as Hlt; [|pose proof (sumZ_elem _ _ _ (ri_nonneg _ Hc) Hlk); lia].
    rewrite (ri_sum _ Hc). pose proof (counts_lt c t _ Hc Hp) as Hlt. simpl in Hlt. lia. }
  rewrite uwrap_small by lia. pose proof Hc as [Hf Hl Hd Hnn' Ht Hr Hs]. split; simpl.
  - by rewrite (concat_fmap_same held_of _ _ _ _ Hp).
  - by rewrite length_insert.
  - by rewrite length_insert.
  - apply Forall_insert; [done|lia].
  - intros j p [(<-&<-&_)|(Hne&Hj)]%lookup_insert_cases; [done|]. specialize (Ht j p Hj).
    destruct p as [| | |k' i' x'| | |]; simpl in *; try done. destruct Ht as [? Hd']. split; [done|].
    destruct (decide (i' = i)) as [->|Hni]; [destruct Hne; by eapply (held_unique c t j _ _ i Hc Hp Hj); left|].
    unfold data_at in *. destruct (Z.ltb_spec i' 0); [done|]. by rewrite list_lookup_insert_ne by lia.
  - intros j p [(<-&<-&_)|(Hne&Hj)]%lookup_insert_cases; [|eauto]. apply (Hr t _ Hp).
  - rewrite list_fmap_insert, (sumZ_insert (r_data c) _ x), (sumZ_insert _ t k); [simpl; lia| |done].
    by rewrite list_lookup_fmap, Hp.
Qed.

Lemma rinv_run c t a p r q' :
  rinv c → r_thr c !! t = Some p → ad_thr (r_pool c) !! t = Some r → ad_run (r_pool c) t a = Some q' →
  rinv (mkR q' (r_data c) (<[t := p]> (r_thr c))).
Proof.
  intros Hc Hp Hr E. destruct (ri_pool _ Hc t p Hp) as (r0 & Hr0 & Hin). assert (r0 = r) as -> by congruence.
  destruct (run_thr _ _ _ _ _ _ _ (ri_flow _ Hc) E Hr) as (r' & Hq & Hg).
  eapply rinv_same; [done|exact Hp|by apply (ri_thr _ Hc t)|exact Hq| |by eapply ad_flow_run, E; apply (ri_flow _ Hc)|done..].
  destruct p; simpl in *; try (subst r; by destruct r').
  - destruct Hin as [->|[v ->]]; destruct r'; try done; eauto.
  - destruct Hin as [->| ->]; destruct r'; try done; eauto.
Qed.

Lemma rinv_step c ta c' : rinv c → run_step threads total c ta = Some c' → rinv c'.
Proof using Hth Htot.
  destruct ta as [t a]. intros Hc He. unfold run_step in He. cbn [fst snd] in He.
  destruct (r_thr c !! t) as [p|] eqn:Hp; [|done].
  pose proof (ri_thr _ Hc t p Hp) as Hok. pose proof (ri_flow _ Hc) as Hf. destruct per_bound as [Hp0 Hp1].
  assert (per < 2 ^ 64) as Hper by nia. destruct (ri_pool _ Hc t _ Hp) as (r & Hr & Hin).
  destruct p as [k|k|k i|k i x|k i|k|]; cbn [body_step] in He; simpl in Hok, Hin; rewrite ?Hr in He; [..|done].
  - destruct (Z.ltb_spec k per).
    + destruct (ad_pop _ _) as [q|] eqn:E; [|done]. injection He as <-.
      eapply rinv_same; [done|exact Hp|simpl; lia|by eapply pop_thr|by left| |done..]. by eapply ad_flow_pop.
    + injection He as <-. eapply (rinv_same c t _ _ (r_pool c) Outside); [done|exact Hp|done|by eapply stay_outside|done..|].
      simpl. lia.
  - destruct Hin as [->|[i ->]].
    + destruct (ad_run _ _ _) as [q|] eqn:E; [|done]. injection He as <-. by eapply rinv_run.
    + destruct (ad_ret _ _) as [q|] eqn:E; [|done]. injection He as <-.
      eapply rinv_next; [done|exact Hp|done|by eapply ret_thr|done| |done].
      pose proof (ad_flow_ret _ _ _ _ _ _ Hf Hr E) as H. simpl in H. eapply ad_flow_perm; [|done|exact H].
      pose proof (concat_fmap_insert held_of _ t _ (RLoad k i) Hp) as H2. by simpl in H2.
  - destruct (data_at (r_data c) i) as [x|] eqn:Ex; [|done]. injection He as <-.
    eapply rinv_same; [done|exact Hp|done|by eapply stay_outside|done..].
  - destruct (data_at (r_data c) i); [|done]. injection He as <-. by apply rinv_store.
  - destruct (ad_push _ _ _) as [q|] eqn:E; [|done]. injection He as <-.
    eapply rinv_next; [done|exact Hp|done|by eapply push_thr|by left| |done].
    eapply ad_flow_push; [exact Hf|done|exact E|].
    intros rest <-. pose proof (concat_fmap_insert held_of _ t _ (RPut k) Hp) as H2. simpl in H2.
    rewrite <- H2. by rewrite <- Permutation_middle.
  - destruct Hin as [-> | ->].
    + destruct (ad_run _ _ _) as [q|] eqn:E; [|done]. injection He as <-. by eapply rinv_run.
    + destruct (ad_ret _ _) as [q|] eqn:E; [|done]. injection He as <-. rewrite uwrap_small by lia.
      eapply (rinv_same c t _ (RLoop (k + 1)) q Outside); [done|exact Hp|simpl; lia|by eapply ret_thr|done| |done..].
      exact (ad_flow_ret _ _ _ _ _ _ Hf Hr E).
Qed.

Context (fresh : P → Prop) (Hfresh : starts_with (R := mpmc) fresh (seqZ 0 SIZE)).

Lemma rinv_init c : run_init SIZE threads fresh c → rinv c.
Proof using Hth Htot Hfresh.
  intros (Hq & Hd & Ht). destruct per_bound as [Hp0 _]. destruct (Hfresh _ Hq) as [Hf Hth'].
  assert (∀ t p, r_thr c !! t = Some p → p = RLoop 0 ∧ (t < threads)%nat) as Hp
    by (intros t p; rewrite Ht; apply lookup_replicate).
  split.
  - eapply ad_flow_perm; [|done|exact Hf]. rewrite Ht, fmap_replicate. simpl. rewrite concat_nils; [done|].
    by intros i x [-> _]%lookup_replicate.
  - by rewrite Ht, length_replicate.
  - by rewrite Hd, length_replicate.
  - rewrite Hd. apply Forall_replicate. lia.
  - intros t p [-> _]%Hp. simpl. lia.
  - intros t p [-> Hlt]%Hp. exists Outside. split; [|done]. rewrite Hth'. by apply lookup_replicate_2.
  - rewrite Hd, Ht, fmap_replicate. cbn [count_of].
    assert (∀ m, sumZ (replicate m 0) = 0) as Hz by (induction m; [done|]; cbn [replicate]; rewrite sumZ_cons; lia). by rewrite !Hz.
Qed.

Lemma rinv_reachable c : reachable (M := M) (run_init SIZE threads fresh) c → rinv c.
Proof using Hth Htot Hfresh.
  apply invariant; [intros s; apply rinv_init|]. intros s a s' _ Hi He. by apply (rinv_step s a).
Qed.

(** Every thread has made its increments, and none was lost. *)
Lemma finished_uses c :
  rinv c → Forall (λ p, finished p = true) (r_thr c) →
  sumZ (r_data c) = perThread threads total * Z.of_nat threads ∧ check_uses threads total c = true.
Proof using Hth Htot.
  intros Hc Hfin. destruct per_bound as [Hp0 Hp1].
  assert (sumZ (r_data c) = per * Z.of_nat threads) as Hs.
  { assert (sumZ (count_of <$> r_thr c) = per * Z.of_nat (length (r_thr c))) as H.
    { clear -Hfin. induction Hfin as [|p l Hp _ IH]; [simpl; lia|].
      rewrite fmap_cons, sumZ_cons, IH. destruct p; try done. simpl length. simpl count_of. lia. }
    by rewrite (ri_sum _ Hc), H, (ri_len _ Hc). }
  split; [done|]. unfold check_uses, data_sum. rewrite (uwrap_small 64 (_ * _)) by nia. rewrite <- Hs.
  enough (foldl (λ s x, to_u64 (s + x)) 0 (r_data c) = sumZ (r_data c)) as -> by apply Z.eqb_refl.
  rewrite <- (Z.add_0_l (sumZ _)). assert (0 + sumZ (r_data c) < 2 ^ 64) as Hb by lia. revert Hb.
  generalize (Z.le_refl 0). generalize 0 at 2 3 4 5 as s. pose proof (ri_nonneg _ Hc) as Hnn. clear -Hnn.
  induction Hnn as [|x l Hx Hl IH]; intros s Hs Hb; [simpl; lia|].
  rewrite sumZ_cons in *. cbn [foldl].
  pose proof (sumZ_nonneg l Hl).
  rewrite uwrap_small by lia. rewrite IH; lia.
Qed.

(** The accounting of the index-pool benchmark: when all threads of [run] are
    done, the unprotected counters add up to the number of get/return rounds, and
    the check passes: no increment is lost, because no index is ever held by two
    threads. *)
Theorem run_accounting c :
  reachable (M := M) (run_init SIZE threads fresh) c → Forall (λ p, finished p = true) (r_thr c) →
  sumZ (r_data c) = perThread threads total * Z.of_nat threads ∧ check_uses threads total c = true.
Proof using Hth Htot Hfresh. intros Hc%rinv_reachable. by apply finished_uses. Qed.

(** *** Completion *)

Context {cap : Z} `{!Progresses P threads mpmc cap} (Hsize : 0 < SIZE <= cap).

Definition r_work (p : rpc) : nat :=
  let round := (2 * cost + 9)%nat in
  match p with
  | RLoop k => round * Z.to_nat (per - k) + 1
  | RGet k => round * Z.to_nat (per - k) - cost
  | RLoad k _ => round * Z.to_nat (per - k) - cost - 1
  | RStore k _ _ => round * Z.to_nat (per - k) - cost - 2
  | RCall k _ => round * Z.to_nat (per - k) - cost - 3
  | RPut k => round * Z.to_nat (per - k) - 2 * cost - 4
  | RDone => 0
  end.
Definition r_total (c : rcfg P) : nat := sum_list (r_work <$> r_thr c) + ad_work (r_pool c).

Lemma r_total_lt c t p p' q' d' :
  r_thr c !! t = Some p → (ad_work q' + r_work p' < ad_work (r_pool c) + r_work p)%nat →
  (r_total (mkR q' d' (<[t := p']> (r_thr c))) < r_total c)%nat.
Proof.
  intros Hp Hlt. unfold r_total. simpl. pose proof (sum_fmap_insert r_work (r_thr c) t p p' Hp). lia.
Qed.

(** One round is left at least. *)
Lemma run_round_left k : 0 <= k < per →
  ∃ m, ((2 * cost + 9) * Z.to_nat (per - k) = m + 2 * cost + 9 ∧ (2 * cost + 9) * Z.to_nat (per - (k + 1)) = m)%nat.
Proof. intros Hk. eexists. split; [|done]. replace (Z.to_nat (per - k)) with (S (Z.to_nat (per - (k + 1)))) by lia. lia. Qed.

Lemma run_outside_moves c t p r a :
  rinv c → r_thr c !! t = Some p → finished p = false → ad_thr (r_pool c) !! t = Some r → busy r = false →
  ∃ c', run_step threads total c (t, a) = Some c' ∧ (r_total c' < r_total c)%nat.
Proof using Hth Htot.
  intros Hc Hp Hf Hr Ha. pose proof (ri_thr _ Hc t p Hp) as Hok. destruct (ri_pool _ Hc t p Hp) as (r0 & Hr0 & Hin).
  assert (r0 = r) as -> by congruence. destruct per_bound as [Hp0 Hp1]. assert (per < 2 ^ 64) as Hper by nia.
  assert (∀ i, i ∈ held_of p → ∃ x, data_at (r_data c) i = Some x) as Hdata.
  { intros i Hi. destruct (data_at_range c i Hc) as (x & ? & _); [by eapply held_range|eauto]. }
  pose proof (ri_flow _ Hc) as Hfl. unfold run_step. cbn [fst snd]. rewrite Hp.
  destruct p as [k|k|k i|k i x|k i|k|]; simpl in Hok, Hin, Hf, Hdata; try done; cbn [body_step]; rewrite ?Hr.
  - subst r. destruct (Z.ltb_spec k per).
    + destruct (can_pop _ t _ _ Hfl eq_refl Hr) as [q E]. rewrite E. eexists. split; [done|].
      eapply r_total_lt; [done|]. pose proof (pop_work _ _ _ E). cbn [r_work].
      destruct (run_round_left k ltac:(lia)) as (m & -> & _). lia.
    + eexists. split; [done|]. eapply r_total_lt; [done|]. cbn [r_work]. lia.
  - destruct Hin as [->|[i ->]]; [done|]. destruct (can_ret _ _ _ _ _ Hfl Hr eq_refl) as [q E]. rewrite E. eexists. split; [done|].
    eapply r_total_lt; [done|]. pose proof (ret_work _ _ _ E). cbn [r_work]. destruct (run_round_left k Hok) as (m & -> & _). lia.
  - destruct (Hdata i ltac:(by left)) as [x ->]. eexists. split; [done|]. eapply r_total_lt; [done|]. cbn [r_work].
    destruct (run_round_left k Hok) as (m & -> & _). lia.
  - destruct (Hdata i ltac:(by left)) as [y ->]. eexists. split; [done|]. eapply r_total_lt; [done|]. cbn [r_work].
    destruct (run_round_left k (proj1 Hok)) as (m & -> & _). lia.
  - subst r. destruct (can_push _ t i _ _ Hfl eq_refl Hr) as [q E]. rewrite E. eexists. split; [done|].
    eapply r_total_lt; [done|]. pose proof (push_work _ _ _ _ E). cbn [r_work]. destruct (run_round_left k Hok) as (m & -> & _). lia.
  - destruct Hin as [-> | ->]; [done|]. destruct (can_ret _ _ _ _ _ Hfl Hr eq_refl) as [q E]. rewrite E. eexists. split; [done|].
    eapply r_total_lt; [done|]. pose proof (ret_work _ _ _ E). cbn [r_work]. rewrite uwrap_small by lia.
    destruct (run_round_left k Hok) as (m & -> & ->). lia.
Qed.

Lemma run_inside_moves c t r a q :
  rinv c → ad_thr (r_pool c) !! t = Some r → busy r = true → ad_run (r_pool c) t a = Some q →
  (ad_work q < ad_work (r_pool c))%nat →
  ∃ c', run_step threads total c (t, a) = Some c' ∧ (r_total c' < r_total c)%nat.
Proof.
  intros Hc Hr Ha He Hlt. pose proof (ad_flow_thread _ _ _ _ _ _ _ (ri_flow _ Hc) Hr) as Ht.
  rewrite <- (ri_len _ Hc) in Ht. apply lookup_lt_is_Some_2 in Ht as [p Hp].
  destruct (ri_pool _ Hc t p Hp) as (r0 & Hr0 & Hin). assert (r0 = r) as -> by congruence.
  unfold run_step. cbn [fst snd]. rewrite Hp.
  assert (body_step threads total c t a p = Some (mkR q (r_data c) (<[t := p]> (r_thr c)))) as ->.
  { destruct p; simpl in Hin; try (by subst r); cbn [body_step]; rewrite Hr, He; by destruct r. }
  eexists. split; [done|]. eapply r_total_lt; [done|]. lia.
Qed.

(** With no index held, a thread that waits for one finds it, and there is room. *)
Lemma run_not_stuck c :
  rinv c → stuck cap (ad_thr (r_pool c)) (concat (held_of <$> r_thr c)) (seqZ 0 SIZE) →
  (∀ t p r, r_thr c !! t = Some p → ad_thr (r_pool c) !! t = Some r → finished p = false → busy r = true) →
  Forall (λ p, finished p = true) (r_thr c).
Proof using Hth Hsize.
  intros Hc Hb Hact. apply Forall_lookup_2. intros t p Hp. destruct (finished p) eqn:Hf; [done|]. exfalso.
  assert (concat (held_of <$> r_thr c) = []) as Hnil.
  { apply concat_nils. intros j x (q & -> & Hq)%list_lookup_fmap_Some. destruct (finished q) eqn:Hfq; [by destruct q|].
    destruct (ri_pool _ Hc j q Hq) as (r & Hr & Hin). pose proof (Hact j q r Hq Hr Hfq) as Ha.
    destruct q; simpl in *; try done; by subst r. }
  destruct (ri_pool _ Hc t p Hp) as (r & Hr & Hin). pose proof (Hact t p r Hp Hr Hf) as Har. rewrite Hnil in Hb.
  destruct (Hb t r Hr Har) as [(_ & Hperm & _)|(_ & Hroom & _)].
  - apply Permutation_length in Hperm. rewrite length_seqZ in Hperm. simpl in Hperm. lia.
  - rewrite length_seqZ in Hroom. simpl in Hroom. lia.
Qed.

Context (any : ad_choice P).

Lemma r_can_move c :
  rinv c → Forall (λ p, finished p = true) (r_thr c) ∨
  ∃ ta c', run_step threads total c ta = Some c' ∧ (r_total c' < r_total c)%nat.
Proof using Hth Htot Hsize any.
  intros Hc. destruct (outside_or_busy finished (r_thr c) (ad_thr (r_pool c))) as [(t & p & r & Hp & Hf & Hr & Ha)|Hact].
  { intros t p Hp. destruct (ri_pool _ Hc t p Hp) as (r & Hr & _). eauto. }
  - right. destruct (run_outside_moves c _ p r any Hc Hp Hf Hr Ha) as (c' & ? & ?). eauto.
  - destruct (moves _ _ _ (ri_flow _ Hc)) as [(t & r & a & q & Hr & Ha & He & Hlt)|Hb].
    + intros t r Hr. pose proof (ad_flow_thread _ _ _ _ _ _ _ (ri_flow _ Hc) Hr) as Ht.
      rewrite <- (ri_len _ Hc) in Ht. apply lookup_lt_is_Some_2 in Ht as [p Hp]. destruct (finished p) eqn:Hf.
      * destruct (ri_pool _ Hc t p Hp) as (r0 & Hr0 & Hin). assert (r0 = r) as -> by congruence.
        destruct p; try done; simpl in Hin; by subst.
      * pose proof (Hact t p r Hp Hr Hf). by destruct r.
    + right. exists (t, a). by eapply run_inside_moves.
    + left. by apply run_not_stuck.
Qed.

(** The index-pool benchmark does not hang, however many threads share the
    pool: from every reachable state of [run] boundedly many steps that are not
    spins lead to a state in which all threads are done. *)
Theorem run_completes c :
  reachable (M := M) (run_init SIZE threads fresh) c →
  ∃ σ c', run (M := M) c σ = Some c' ∧ (length σ <= r_total c)%nat ∧
    Forall (λ p, finished p = true) (r_thr c').
Proof using Hth Htot Hfresh Hsize any.
  intros Hc%rinv_reachable. apply (measure_completes M rinv _ r_total); [| |done].
  - intros s a s'. apply rinv_step.
  - intros s Hs. apply (r_can_move s Hs).
Qed.

Lemma run_can_finish q :
  fresh q →
  ∃ c, reachable (M := M) (run_init SIZE threads fresh) c ∧ Forall (λ p, finished p = true) (r_thr c) ∧ check_uses threads total c = true.
Proof using Hth Htot Hfresh Hsize Progresses0 any.
  intros Hq. set (c0 := mkR q (replicate (Z.to_nat SIZE) 0) (replicate threads (RLoop 0))).
  assert (reachable (M := M) (run_init SIZE threads fresh) c0) as H0 by (apply reach_init; by split_and!).
  destruct (run_completes c0 H0) as (σ & c & Hr & _ & Hf). pose proof (run_reachable _ _ _ _ _ H0 Hr) as Hc.
  exists c. split_and!; [done..|]. apply finished_uses; [by eapply rinv_reachable|done].
Qed.
End Proofs.

(** ** Three threads, two indexes, two rounds each *)

Abbreviation exP := (AstraQ.t 2).
Definition ex_run : rcfg exP :=
  mkR (AstraQ.mk (default no_cfg (ThreadSafeIndexPool 2 77 3 0))) [0; 0] (replicate 3 (RLoop 0)).
Definition ex_run_sched : list (nat * unit) :=
  (λ t, (t, tt)) <$> concat (replicate 29 [0; 1; 2]%nat) ++ concat (replicate 7 [1; 2]%nat) ++ replicate 3 2%nat.
Definition ex_run_at (k : nat) : rcfg exP :=
  default ex_run (run (M := run_machine exP 3 6) ex_run (take k ex_run_sched)).

Lemma ex_run_reach k :
  run (M := run_machine exP 3 6) ex_run (take k ex_run_sched) = Some (ex_run_at k) →
  reachable (M := run_machine exP 3 6) (run_init 2 3 (AstraQ.fresh_pool 2 3 77)) (ex_run_at k).
Proof. intros H. eapply run_reachable; [|exact H]. apply reach_init. split_and!; by vm_compute. Qed.

Definition ex_run_conserves : Conserves exP 3 mpmc := AstraQ.conserves 2 params_pool_2 3 ltac:(lia) mpmc.
Definition ex_run_progresses : Progresses (Conserves0 := ex_run_conserves) exP 3 mpmc 2 :=
  AstraQ.progresses 2 params_pool_2 3 ltac:(lia) mpmc.
Lemma ex_run_fresh : starts_with (Conserves0 := ex_run_conserves) (AstraQ.fresh_pool 2 3 77) (seqZ 0 2).
Proof. apply AstraQ.fresh_pool_starts. lia. Qed.

Lemma run_accounting_witness :
  r_data (ex_run_at 104) = [3; 3] ∧ sumZ (r_data (ex_run_at 104)) = 6 ∧ check_uses 3 6 (ex_run_at 104) = true.
Proof.
  split; [by vm_compute|].
  apply (run_accounting (Conserves0 := ex_run_conserves) 2 3 6 ltac:(lia) ltac:(lia) (AstraQ.fresh_pool 2 3 77) ex_run_fresh (ex_run_at 104)).
  - apply ex_run_reach. by vm_compute.
  - by vm_compute; repeat constructor.
Defined.

Lemma run_completes_witness : ∃ σ c',
  run (M := run_machine exP 3 6) (ex_run_at 30) σ = Some c' ∧ Forall (λ p, finished p = true) (r_thr c').
Proof.
  destruct (run_completes (Conserves0 := ex_run_conserves) (Progresses0 := ex_run_progresses) 2 3 6 ltac:(lia) ltac:(lia)
    (AstraQ.fresh_pool 2 3 77) ex_run_fresh ltac:(lia) tt (ex_run_at 30)) as (σ & c' & H1 & _ & H2).
  - apply ex_run_reach. by vm_compute.
  - exists σ, c'. exact (conj H1 H2).
Defined.

End IndexPoolBench.
