(* ===== verification/PoolCompetitors.v ===== *)
(** * The competitors of the index-pool benchmark

    The template arguments of [run<P>] in [main] of
    [src/bench/IndexPoolComparisonBench.cpp], in its order: the pool of the library,
    the third-party containers, which are parameters with the contract [LibQueue],
    and the mutex-protected vector.  Each is filled with the indexes by its
    constructor and conserves them, so no index is handed out twice. *)

From Stdlib Require Import ZArith Lia.
From S2P Require Import Prelude MachineInt Lts AtomicRingBuffer RingInvariant RingMachine RingRefinement RingTheorems IndexPool.
From S2P Require Import LockInterface Monitor Adapter MonitorAdapter MutexPool RingAdapter LibAdapter IndexPoolBench.
Import IndexPoolBench.
Local Open Scope Z_scope.

Module PoolCompetitors.
Section Competitors.

(** [static constexpr std::size_t SIZE = 1024;] *)
Definition SIZE : Z := 1024.

Context {L : Type} `{!Lock L} (m : L) (Hm : lk_wf m ∧ lk_free m = true).
Context (rigtorp boost_stack moody : lib SIZE).
(** The constructors of the last two do not look at the result of a push: the stack
    must not fail before it is full, [enqueue] only when no memory is left. *)
Context (Hstack : ∀ k (s : lib_state boost_stack) v, Z.of_nat (length (lib_items s)) < SIZE → (lib_push k s v).2 = true).
Context (Hmoody : ∀ k (s : lib_state moody) v, (lib_push k s v).2 = true).

Definition astraPool : impl := symmetric (AstraQ.t SIZE) (λ n c, ∃ a0, AstraQ.fresh_pool SIZE n a0 c).

(** A pool over a library container, filled by [init] with some choices. *)
Definition filled {X : lib SIZE} (C : code (lib_state X)) (init : list nat → lib_state X → option (lib_state X)) : impl :=
  symmetric (lq C) (λ n c, l_thr c = replicate n AOut ∧ ∃ ks, init ks (lib_new X) = Some (l_q c)).

Definition rigtorpPool : impl := filled (X := rigtorp) RigtorpPool (RigtorpPool_init SIZE).
Definition boostStackPool : impl := filled (X := boost_stack) BoostStackPool (BoostStackPool_init SIZE).
Definition moodyPool : impl := filled (X := moody) MoodyPool (MoodyPool_init SIZE).

Definition mutexVecPool : impl :=
  symmetric (locked MutexVecPool.as_container MutexVecPool.out_step MutexVecPool.cs_step L)
    (λ n c, ∃ free, MutexVecPool.MutexVecPool SIZE = Some free ∧ unused _ _ _ n m free MutexVecPool.Idle c).

Definition impls : list impl := [astraPool; rigtorpPool; boostStackPool; moodyPool; mutexVecPool].

(** A pool that holds the indexes and conserves them, for up to 8 threads. *)
Definition sound (I : impl) : Prop :=
  ∀ t, (0 < t <= 8)%nat → ∃ HC : Conserves (i_q I) t mpmc, starts_with (i_fresh I t) (seqZ 0 SIZE).

Section Filled.
Context {X : lib SIZE} (C : code (lib_state X)) (init : list nat → lib_state X → option (lib_state X)).
Context (HC : code_ok C lib_items (λ _ _, False) SIZE).
Context (Hinit : ∀ ks s, init ks (lib_new X) = Some s → lib_items s ≡ₚ seqZ 0 SIZE).

Definition filled_cons n R : Conserves (lq C) n R := lib_conserves C _ _ _ HC n R (or_introl (λ _ _ H, H)).

Lemma filled_starts n R : starts_with (Conserves0 := filled_cons n R) (i_fresh (filled C init) n) (seqZ 0 SIZE).
Proof using Hinit. intros c [Ht [ks Hk]]. eapply holding_starts. split; [done|]. by eapply Hinit. Qed.

Lemma filled_sound : sound (filled C init).
Proof using HC Hinit. intros t _. exists (filled_cons t mpmc). apply filled_starts. Qed.
End Filled.

Lemma astraPool_sound : sound astraPool.
Proof using.
  intros t Ht. assert (params_ok SIZE BATCH_SIZE) as Hpar by by split.
  exists (AstraQ.conserves SIZE Hpar t ltac:(unfold SIZE; lia) mpmc). intros c [a0 Hc].
  eapply AstraQ.fresh_pool_starts; [lia|exact Hc].
Qed.

Lemma pool_size : 0 <= SIZE <= INT_MAX.
Proof using. done. Qed.

Lemma mutexVecPool_sound : sound mutexVecPool.
Proof using Hm.
  intros t Ht. exists (locked_conserves _ _ _ _ _ MutexVecPool.mp_container_ok t mpmc).
  intros c (free & Hf & Hc). pose proof (eq_trans (eq_sym (MutexVecPool.MutexVecPool_full SIZE pool_size)) Hf) as [= <-].
  eapply unused_starts; [..|exact Hc]; [apply Hm|apply Hm|exact I|reflexivity|reflexivity].
Qed.

Lemma pools_sound : Forall sound impls.
Proof using Hm Hstack Hmoody.
  repeat apply Forall_cons_2; [..|apply Forall_nil_2].
  - apply astraPool_sound.
  - apply filled_sound; [apply block_ok|]. intros ks s. apply RigtorpPool_full; [done|apply lib_new_empty].
  - apply filled_sound; [apply retry_ok|]. intros ks s. apply once_pool_full; [done|done|apply lib_new_empty].
  - apply filled_sound; [by apply once_ok|]. intros ks s. apply once_pool_full; [done|by intros|apply lib_new_empty].
  - apply mutexVecPool_sound.
Qed.

(** *** Termination *)

(** [run<P>] has executions that come to their end. *)
Definition finishes (I : impl) : Prop :=
  ∀ t total, (0 < t <= 8)%nat → 0 <= total < 2 ^ 64 →
    ∃ c, reachable (M := run_machine (i_q I) t total) (run_init SIZE t (i_fresh I t)) c ∧ Forall (λ p, finished p = true) (r_thr c).

Lemma pool_finishes_by (I : impl) t total (cons : Conserves (i_q I) t mpmc)
    (prog : Progresses (i_q I) t mpmc SIZE) (any : ad_choice (i_q I)) q :
  (0 < t <= 8)%nat → 0 <= total < 2 ^ 64 → starts_with (i_fresh I t) (seqZ 0 SIZE) → i_fresh I t q →
  ∃ c, reachable (M := run_machine (i_q I) t total) (run_init SIZE t (i_fresh I t)) c ∧ Forall (λ p, finished p = true) (r_thr c).
Proof using.
  intros Ht Htot Hst Hq. assert (0 < t)%nat as H0 by lia. assert (0 < SIZE <= SIZE) as Hs by done.
  destruct (run_can_finish SIZE t total H0 Htot (i_fresh I t) Hst Hs any q Hq) as (c & Hr & Hf & _). eauto.
Qed.

Lemma filled_finishes {X : lib SIZE} (C : code (lib_state X)) init :
  code_ok C lib_items (λ _ _, False) SIZE → (∀ ks s, init ks (lib_new X) = Some s → lib_items s ≡ₚ seqZ 0 SIZE) →
  (∃ ks s, init ks (lib_new X) = Some s) → finishes (filled C init).
Proof using.
  intros HC Hinit (ks & s & Hk) t total Ht Htot.
  apply (pool_finishes_by (filled C init) t total (filled_cons C HC t mpmc)
    (lib_progresses C _ _ _ HC t mpmc (or_introl (λ _ _ H, H)) eq_refl) 0%nat (mkLq s (replicate t AOut))); [done|done| |by split; eauto].
  by apply filled_starts.
Qed.

Lemma astraPool_finishes : finishes astraPool.
Proof using.
  intros t total Ht Htot. assert (params_ok SIZE BATCH_SIZE) as Hpar by by split.
  assert (SIZE * Z.of_nat t < 2 ^ 64) as Hn by (unfold SIZE; lia). assert (0 < t)%nat as H0 by lia.
  destruct (pool_constructed_lemma SIZE Hpar t Hn 0 0 H0) as (c & Hc & _).
  refine (pool_finishes_by astraPool t total (AstraQ.conserves SIZE Hpar t Hn mpmc) (AstraQ.progresses SIZE Hpar t Hn mpmc) tt
    (AstraQ.mk (wrap_cfg c)) Ht Htot _ (ex_intro _ 0 Hc)).
  intros c' [a0 Hc']. exact (AstraQ.fresh_pool_starts SIZE Hpar t Hn mpmc a0 H0 c' Hc').
Qed.

Lemma pools_finish : Forall (λ I, I = mutexVecPool ∨ finishes I) impls.
Proof using Hstack Hmoody.
  repeat apply Forall_cons_2; [..|apply Forall_nil_2].
  - right. apply astraPool_finishes.
  - right. apply filled_finishes; [apply block_ok| |by apply RigtorpPool_ends, lib_new_empty].
    intros ks s. apply RigtorpPool_full; [done|apply lib_new_empty].
  - right. apply filled_finishes; [apply retry_ok| |by apply once_pool_ends, lib_new_empty].
    intros ks s. apply once_pool_full; [done|done|apply lib_new_empty].
  - right. apply filled_finishes; [by apply once_ok| |apply once_pool_ends, lib_new_empty; by intros].
    intros ks s. apply once_pool_full; [done|by intros|apply lib_new_empty].
  - by left.
Qed.

(** The accounting of [run<P>] for each of them. *)
Lemma pools_pass I t total c :
  I ∈ impls → (0 < t <= 8)%nat → 0 <= total < 2 ^ 64 →
  reachable (M := run_machine (i_q I) t total) (run_init SIZE t (i_fresh I t)) c →
  Forall (λ p, finished p = true) (r_thr c) → check_uses t total c = true.
Proof using Hm Hstack Hmoody.
  intros HI Ht Htot Hr Hf. pose proof pools_sound as Hs. rewrite Forall_forall in Hs. destruct (Hs I HI t Ht) as [HC Hst].
  eapply (finished_uses SIZE t total); [lia|done| |done]. eapply (rinv_reachable SIZE t total); [lia|done|exact Hst|exact Hr].
Qed.
End Competitors.
End PoolCompetitors.
