(* ===== verification/QueueMain.v ===== *)
(** * The queue benchmark as a program

    Model of [main] in [src/bench/QueueComparisonBench.cpp], with its list of
    competitors, the shapes, and the two measurements seen from outside:
    [throughput] takes a number of nanoseconds and makes a check, [pingPong] takes
    two time stamps per round trip.  What a call takes and finds is an argument;
    the check is that of an execution of [QueueBench.v] on the competitor's queue
    ([QueueCompetitors.v]). *)

From Stdlib Require Import ZArith Lia Ascii String.
From S2P Require Import Prelude MachineInt Decimal Lts AtomicRingBuffer RingInvariant RingTheorems IndexPool.
From S2P Require Import LockInterface SpinlockBench Monitor MutexQueue Adapter MonitorAdapter LibAdapter RingAdapter.
From S2P Require Import Timer Double BenchHarness BenchStats BenchReport Printf QueueBench PingPong QueueCompetitors.
From S2P Require Import BenchProcess.
Local Open Scope Z_scope.
Local Open Scope astra_scope.

Module QueueMain.

Record Competitor := mkCompetitor { c_name : text; c_note : text; spscOnly : bool }.

Definition make (name note : string) (spsc : bool) : Competitor := mkCompetitor (str name) (str note) spsc.

Definition astraQ : Competitor := make "AstraLib AtomicRingBuffer" "" false.

Definition all : list Competitor :=
  [ astraQ;
    make "rigtorp::MPMCQueue" "" false;
    make "boost::lockfree::queue" "" false;
    make "moodycamel::ConcurrentQueue" "(unbounded, not FIFO)" false;
    make "std::mutex + std::deque" "" false;
    make "AstraLib spscRingBuffer" "(SPSC only)" true;
    make "rigtorp::SPSCQueue" "(SPSC only)" true;
    make "moodycamel::ReaderWriterQ" "(SPSC only)" true;
    make "boost::lockfree::spsc_queue" "(SPSC only)" true ].

Record Shape := mkShape { P : nat; C : nat; base : Z }.
Definition shapes : list Shape :=
  [mkShape 1 1 4000000; mkShape 2 2 4000000; mkShape 4 4 4000000; mkShape 4 1 2000000; mkShape 1 4 2000000].

(** The calls of the two function pointers of a competitor. *)
Inductive call :=
| Tput (c : Competitor) (P C : nat) (N : Z)
| Lat (c : Competitor) (samples : Z).

(** What a call finds: the elapsed time, the condition of its check, the time
    stamps around each round trip. *)
Record outcome := mkOutcome { o_ns : Z; o_ok : bool; o_stamps : nat → Z * Z }.

Section Main.
Context (env : list (event call) → call → outcome) (s : setup).
Abbreviation log := (list (event call)).
Abbreviation g := (s_knobs s).

(** [throughput<Q>] and [pingPong<Q>]. *)
Definition tput (c : Competitor) (P C : nat) (N : Z) (w : log) : log * double :=
  let '(w', o) := perform env o_ok (Tput c P C N) w in (w', rate N (o_ns o)).

Definition lat (c : Competitor) (samples : Z) (w : log) : option (log * list double) :=
  let '(w', o) := perform env (λ _, true) (Lat c samples) w in
  let? r := latencies (s_tscPerNs s) (o_stamps o) samples in Some (w', r).

Definition title (sh : Shape) : text := show (Z.of_nat (P sh)) ++ str "P/" ++ show (Z.of_nat (C sh)) ++ str "C".

(** [s.P + s.C + 1 > coreCount()]: the shape is skipped. *)
Definition too_big (sh : Shape) : bool := coreCount (s_cpus s) <? Z.of_nat (P sh + C sh + 1).

(** [if (c.spscOnly && !spsc) continue;] *)
Definition used (sh : Shape) : list Competitor :=
  let spsc := ((P sh =? 1) && (C sh =? 1))%nat in
  List.filter (λ c, negb (spscOnly c && negb spsc)) all.

Definition rows (us : list Competitor) (st : list Stat) : list Row :=
  zip_with (λ c x, mkRow (c_name c) (Plain (c_note c)) (Some x)) us st.

(** The body of the loop over the shapes. *)
Definition run_shape (sh : Shape) (w : log) : option log :=
  if too_big sh then Some (w ++ [Said (skipped (title sh) (Z.of_nat (P sh + C sh + 1)) ++ str ", have " ++ show (coreCount (s_cpus s)))])
  else
    let? n := scaled g (base sh) 1000 in
    let N := rounded n (P sh) (C sh) in
    let fns := (λ c, tput c (P sh) (C sh) N) <$> used sh in
    let? r := interleaved_stats (g_reps g) fns (w ++ [Opened (title sh) 600]) in
    Some (r.1 ++ [Table (title sh) (str "M ops/s") (printTable true (rows (used sh) r.2)); Closed]).

(** The body of the loop over the competitors of the second part. *)
Definition run_latency (samples : Z) (c : Competitor) (w : log) : option log :=
  let? r1 := lat c (samples / 10) (w ++ [Opened (c_name c) 300]) in
  let? r2 := lat c samples r1.1 in
  let? cols := latency_columns r2.2 (literal 50 2) (literal 99 2) (literal 999 3) in
  Some (r2.1 ++ [Latency (c_name c) cols; Closed]).

Definition part2 (w : log) : option log :=
  if coreCount (s_cpus s) <? 3 then Some (w ++ [Said (skipped [] 3)])
  else let? samples := scaled g 200000 1000 in
       for_each (run_latency samples) all (w ++ [Said (columns "p50" "p99" "p99.9")]).

(** What [main] does: the whole log. *)
Definition body : option log :=
  let? w1 := for_each run_shape shapes [Said (printPreamble s (str "AtomicRingBuffer vs concurrent queues  (uint64_t payload, capacity 1024)"));
    Said (str "[1] Throughput, M ops/s (higher is better)")] in
  let? w2 := part2 (w1 ++ [Said (str "[2] Handoff latency, ping-pong round trip in ns (lower is better)")]) in
  Some w2.

(** The process: the watchdog is started at time [t], and [main] goes through its
    events and returns [finish()], unless the watchdog ends the process before. *)
Definition main (t : Z) : option (proc call) := let? w := body in Some (start t w).
End Main.

(** ** The calls that a run makes *)

(** They do not depend on the outcomes: for every shape that fits, rounds over the
    competitors that can be used, one more than [g_reps]; then a short and a long
    latency measurement of every competitor. *)
Definition shape_calls (s : setup) (sh : Shape) : list call :=
  if too_big s sh then []
  else match scaled (s_knobs s) (base sh) 1000 with
       | Some n => concat (replicate (S (Z.to_nat (g_reps (s_knobs s))))
                     ((λ c, Tput c (P sh) (C sh) (rounded n (P sh) (C sh))) <$> used sh))
       | None => []
       end.

Definition latency_calls (s : setup) : list call :=
  if coreCount (s_cpus s) <? 3 then []
  else match scaled (s_knobs s) 200000 1000 with
       | Some n => concat ((λ c, [Lat c (n / 10); Lat c n]) <$> all)
       | None => []
       end.

Definition main_calls (s : setup) : list call :=
  concat (shape_calls s <$> shapes) ++ latency_calls s.

(** ** Theorems *)

Lemma shape_sizes sh : sh ∈ shapes → (0 < P sh)%nat ∧ (0 < C sh)%nat ∧ (P sh * C sh <= 16)%nat ∧ (P sh + C sh <= 8)%nat.
Proof. intros Hs. repeat (apply elem_of_cons in Hs as [->|Hs]; [simpl; lia|]). by apply not_elem_of_nil in Hs. Qed.

Lemma rounded_range n sh :
  sh ∈ shapes → 1000 <= n < 2 ^ 64 → let N := rounded n (P sh) (C sh) in
  0 < N < 2 ^ 64 ∧ (Z.of_nat (P sh) | N) ∧ (Z.of_nat (C sh) | N).
Proof.
  intros Hs Hn N. destruct (shape_sizes sh Hs) as (HP & HC & Hb & _).
  destruct (rounded_divides n (P sh) (C sh)) as (H1 & H2 & H3); [lia|done|done|lia|]. fold N in H1, H2, H3.
  split; [|done]. split; [|lia]. unfold N, rounded. rewrite (uwrap_small 64 (_ * _)) by lia.
  pose proof (Z.mod_pos_bound n (Z.of_nat (P sh) * Z.of_nat (C sh)) ltac:(lia)). rewrite uwrap_small; lia.
Qed.

Section Run.
Context (env : list (event call) → call → outcome) (s : setup) (Hs : setup_ok s).
(** The clock does not go backwards, and the latency samples fit in memory. *)
Context (Hns : ∀ w c, 0 <= o_ns (env w c) < 2 ^ 63).
Context (Hmem : ∀ n, scaled (s_knobs s) 200000 1000 = Some n → n <= 2 ^ 53).

(** The outcome of a logged call is one that [env] gives. *)
Definition outcomes (e : event call) : Prop :=
  match e with
  | Called (Tput c P C N) ok => ∃ w, ok = o_ok (env w (Tput c P C N))
  | Called (Lat _ _) ok => ok = true
  | _ => True
  end.

Lemma run_shape_does sh : sh ∈ shapes → does outcomes (run_shape env s sh) (shape_calls s sh).
Proof using Hs Hns.
  intros Hsh. unfold run_shape, shape_calls. destruct (too_big s sh); [by apply says_does|].
  destruct (scaled_range (s_knobs s) (base sh) 1000 (so_scale s Hs) ltac:(lia)) as (n & -> & Hn).
  destruct (rounded_range n sh Hsh Hn) as [HN _]. set (N := rounded n (P sh) (C sh)) in *.
  intros w. refine (table_does outcomes (λ w, w) (λ w, w) (λ _, True) (g_reps (s_knobs s))
    ((λ c, tput env c (P sh) (C sh) N) <$> used sh) ((λ c, Tput c (P sh) (C sh) N) <$> used sh)
    (title sh) 600 (str "M ops/s") (λ _ st, Some (rows (used sh) st)) (so_reps s Hs) _ _ _ _ I I (λ _, I) w).
  - done.
  - intros f w' (c & -> & _)%list_elem_of_fmap _. split; [done|]. unfold tput, perform. simpl. apply rate_number; [lia|apply Hns|lia].
  - apply Forall2_fmap_l, Forall2_fmap_r, Forall_Forall2_diag, Forall_forall. intros c _ w'. eexists. split; [done|]. simpl. eauto.
  - intros. by eexists.
Qed.

Lemma run_latency_does n c : scaled (s_knobs s) 200000 1000 = Some n →
  does outcomes (run_latency env s n c) [Lat c (n / 10); Lat c n].
Proof using Hs Hmem.
  intros Hn w. pose proof (Hmem n Hn). destruct (scaled_range (s_knobs s) 200000 1000 (so_scale s Hs) ltac:(lia)) as (n' & Hn' & Hb).
  assert (n' = n) as -> by congruence. unfold run_latency, lat, perform.
  assert (0 < n / 10) by (apply Z.div_str_pos; lia).
  edestruct latencies_spec as (r1 & -> & _); [apply (so_tsc s Hs)|done|]. cbn [fst].
  edestruct (latencies_spec (s_tscPerNs s)) as (r2 & -> & Hl); [apply (so_tsc s Hs)| |]; [lia|]. cbn [fst snd].
  destruct (latency_columns_spec r2 (literal 50 2) (literal 99 2) (literal 999 3)) as (a & b & c' & m & ->); [lia|apply percentages..|].
  eexists [Opened (c_name c) 300; Called (Lat c (n / 10)) true; Called (Lat c n) true; Latency (c_name c) [a; b; c'; m]; Closed].
  rewrite <- !app_assoc. split_and!; [done|done|done|]. by repeat constructor.
Qed.

Lemma queue_part2_does : does outcomes (part2 env s) (latency_calls s).
Proof using Hs Hmem.
  unfold part2, latency_calls. destruct (coreCount (s_cpus s) <? 3); [by apply says_does|].
  destruct (scaled_range (s_knobs s) 200000 1000 (so_scale s Hs) ltac:(lia)) as (n & Hn & _). rewrite Hn.
  apply (seq_does outcomes (λ w, Some (w ++ [Said _])) (for_each (run_latency env s n) all) []); [by apply says_does|].
  apply (for_each_does outcomes (run_latency env s n) (λ c, [Lat c (n / 10); Lat c n])). intros c _. by apply run_latency_does.
Qed.

Lemma queue_main_does : ∃ w, body env s = Some w ∧ calls w = main_calls s ∧
  deadlines false w = Some false ∧ Forall outcomes w.
Proof using Hs Hns Hmem.
  unfold body, main_calls.
  match goal with |- context [for_each _ _ ?w] =>
    destruct (for_each_does outcomes (run_shape env s) (shape_calls s) shapes run_shape_does w) as (e1 & -> & H1 & H2 & H3) end.
  match goal with |- context [part2 env s ?w] => destruct (queue_part2_does w) as (e2 & -> & H4 & H5 & H6) end.
  eexists. split; [done|]. rewrite !calls_app, !deadlines_app, calls_heading, calls_said, H1, H4, app_nil_r. cbn [deadlines]. rewrite H2.
  split; [done|]. split; [done|]. rewrite !Forall_app. split_and!; try done; by repeat constructor.
Qed.

(** What a call needs: the values are divided evenly among the threads and there
    are some, every thread and the coordinator have a core of their own, and a queue
    for one producer and one consumer has just these. *)
Definition valid_call (c : call) : Prop :=
  match c with
  | Tput q P C N =>
      q ∈ all ∧ (0 < P)%nat ∧ (0 < C)%nat ∧ (Z.of_nat P | N) ∧ (Z.of_nat C | N) ∧ 0 < N < 2 ^ 64 ∧
      Z.of_nat (P + C + 1) <= coreCount (s_cpus s) ∧ (spscOnly q = true → P = 1%nat ∧ C = 1%nat)
  | Lat q n => q ∈ all ∧ 0 < n ∧ 3 <= coreCount (s_cpus s)
  end.

Lemma used_spec sh c : c ∈ used sh → c ∈ all ∧ (spscOnly c = true → P sh = 1%nat ∧ C sh = 1%nat).
Proof.
  intros Hc. unfold used in Hc. apply list_elem_of_In, filter_In in Hc as [Hin Hc]. split; [by apply list_elem_of_In|].
  intros Ho. rewrite Ho in Hc. destruct (Nat.eqb_spec (P sh) 1), (Nat.eqb_spec (C sh) 1); done.
Qed.

Lemma queue_main_calls_valid : Forall valid_call (main_calls s).
Proof using Hs.
  apply Forall_app. split; apply Forall_forall; intros c Hc.
  - apply in_concat_fmap in Hc as (sh & Hsh & Hc).
    unfold shape_calls, too_big in Hc. destruct (Z.ltb_spec (coreCount (s_cpus s)) (Z.of_nat (P sh + C sh + 1))); [by apply not_elem_of_nil in Hc|].
    destruct (scaled_range (s_knobs s) (base sh) 1000 (so_scale s Hs) ltac:(lia)) as (n & En & Hn). rewrite En in Hc.
    apply in_rounds, list_elem_of_fmap in Hc as (q & -> & Hq). destruct (used_spec sh q Hq) as [Ha Ho].
    destruct (rounded_range n sh Hsh Hn) as (HN & HP & HC). destruct (shape_sizes sh Hsh) as (H1 & H2 & _). done.
  - unfold latency_calls in Hc. destruct (Z.ltb_spec (coreCount (s_cpus s)) 3); [by apply not_elem_of_nil in Hc|].
    destruct (scaled_range (s_knobs s) 200000 1000 (so_scale s Hs) ltac:(lia)) as (n & En & Hn). rewrite En in Hc.
    apply in_concat_fmap in Hc as (q & Hq & Hc).
    assert (0 < n / 10) by (apply Z.div_str_pos; lia).
    repeat (apply elem_of_cons in Hc as [->|Hc]; [split_and!; [done|lia|lia]|]). by apply not_elem_of_nil in Hc.
Qed.

(** ** The queues in the benchmark *)

Lemma tput_small q P C N : Tput q P C N ∈ main_calls s → (P + C <= 8)%nat.
Proof using.
  clear Hmem. intros Hin. unfold main_calls in Hin. apply elem_of_app in Hin as [Hin|Hin].
  - apply in_concat_fmap in Hin as (sh & Hsh & Hin). unfold shape_calls in Hin.
    destruct (too_big s sh); [by apply not_elem_of_nil in Hin|]. destruct (scaled (s_knobs s) (base sh) 1000); [|by apply not_elem_of_nil in Hin].
    apply in_rounds, list_elem_of_fmap in Hin as (q' & Hq & _). injection Hq as _ -> -> _. by apply shape_sizes.
  - unfold latency_calls in Hin. destruct (coreCount (s_cpus s) <? 3); [by apply not_elem_of_nil in Hin|].
    destruct (scaled (s_knobs s) 200000 1000); [|by apply not_elem_of_nil in Hin].
    apply in_concat_fmap in Hin as (q' & _ & Hin). repeat (apply elem_of_cons in Hin as [[=]|Hin]). by apply not_elem_of_nil in Hin.
Qed.

(** The template arguments of the competitors: [make<AstraQ>("AstraLib ..."] and so
    on, and what an outcome of [tput] is: the check at the end of an execution of
    [throughput<Q>] whose threads have all finished. *)
Context (args : list (impl * bool)).

Definition env_runs : Prop :=
  ∀ w q I P C N, (q, I) ∈ zip all args → Tput q P C N ∈ main_calls s →
    ∃ c, reachable (M := throughput_machine (i_q I.1) P C N) (throughput_init P C (i_fresh I.1 (P + C))) c ∧
      Forall (λ p, finished p = true) (b_thr c) ∧ o_ok (env w (Tput q P C N)) = check_sum N c.

(** The flags agree with those of the competitors, and every queue is sound. *)
Definition args_ok : Prop :=
  spscOnly <$> all = snd <$> args ∧ Forall QueueCompetitors.sound args.

Lemma all_args q : args_ok → q ∈ all → ∃ I, (q, I) ∈ zip all args ∧ spscOnly q = I.2 ∧ QueueCompetitors.sound I.
Proof using.
  intros [Hflags Hsound] [i Hi]%list_elem_of_lookup. assert ((spscOnly <$> all) !! i = Some (spscOnly q)) as Hl by (by rewrite list_lookup_fmap, Hi).
  rewrite Hflags in Hl. apply list_lookup_fmap_Some in Hl as (I & Hflag & HI). exists I. split_and!.
  - apply list_elem_of_lookup. exists i. by rewrite lookup_zip_with, Hi; simpl; rewrite HI.
  - done.
  - by eapply (Forall_lookup_1 _ _ _ _ Hsound).
Qed.

Lemma queue_tput_passes w q P C N :
  args_ok → env_runs → Tput q P C N ∈ main_calls s → N < 2 ^ 32 → o_ok (env w (Tput q P C N)) = true.
Proof using Hs.
  intros Hargs Henv Hin HN. pose proof queue_main_calls_valid as Hv. rewrite Forall_forall in Hv.
  destruct (Hv _ Hin) as (Hq & HP & HC & HdP & HdC & HNr & Hcores & Hspsc).
  destruct (all_args q Hargs Hq) as (I & HI & Hflag & Hsnd). destruct (Henv w q I P C N HI Hin) as (c & Hr & Hf & ->).
  destruct (Hsnd P C HP HC (tput_small _ _ _ _ Hin)) as [HCons Hst]; [by rewrite <- Hflag|].
  pose proof (tput_small _ _ _ _ Hin). clear Hmem Hns.
  eapply (finished_check P C N); [lia|lia|done|done|exact Hst|exact Hr|done|lia].
Qed.

(** C30. The queue benchmark as a program.  Assume: at least one repetition and a
    plausible frequency of the counter ([setup_ok]); measured times are not negative,
    and the latency samples fit in memory; every competitor conserves values, and the
    outcome of a call of [tput] that returns is that of a finished execution
    ([args_ok], [env_runs]); fewer than 2^32 values go through a queue.  Then [main] has
    no undefined behaviour; it makes exactly the calls [main_calls], each meeting the
    requirements of its measurement, under deadlines that are closed again; no
    accounting check fails, and it returns 0.  The process ends with that status, or
    with status 3 after a deadline was over; while it runs, [main] can get to its end if
    its calls return; and if one does not return, the watchdog ends the process
    ([fate]). *)
Theorem queue_main_passes :
  args_ok → env_runs → (∀ q P C N, Tput q P C N ∈ main_calls s → N < 2 ^ 32) →
  ∃ w, body env s = Some w ∧ calls w = main_calls s ∧ Forall valid_call (calls w) ∧
    deadlines false w = Some false ∧ (∀ c ok, Called c ok ∈ w → ok = true) ∧ finish (g_failures w) = 0 ∧
    ∀ t p, reachable (M := proc_machine) (λ p, main env s t = Some p) p → fate w p.
Proof using Hs Hns Hmem.
  intros Hargs Henv Hsmall. destruct queue_main_does as (w & H1 & H2 & H3 & H4). exists w.
  assert (∀ c ok, Called c ok ∈ w → ok = true) as Hall.
  { intros c ok Hin. rewrite Forall_forall in H4. pose proof (H4 _ Hin) as Ho. apply called_in in Hin. rewrite H2 in Hin.
    destruct c as [q P C N|q n]; simpl in Ho; [|done]. destruct Ho as [w' ->]. by apply queue_tput_passes; eauto. }
  split_and!; [done|done|rewrite H2; apply queue_main_calls_valid|done|done|by apply finish_all|].
  unfold main. rewrite H1. intros t p. by apply process_fate.
Qed.

(** The stamps of a latency measurement are those of a finished execution of
    [pingPong<Q>]. *)
Definition env_pings : Prop :=
  ∀ w q I n, (q, I) ∈ zip all args → Lat q n ∈ main_calls s →
    ∃ c, reachable (M := pingpong_machine (i_q I.1) n) (pingpong_init (i_fresh I.1 2) (i_rep I.1)) c ∧
      pingpong_done c = true ∧ ∀ k, (k < Z.to_nat n)%nat → p_rtt c !! k = Some (o_stamps (env w (Lat q n)) k).

Lemma lat_call_small q n : Lat q n ∈ main_calls s → 0 < n < 2 ^ 64.
Proof using Hs Hmem.
  intros Hin. pose proof queue_main_calls_valid as Hv. rewrite Forall_forall in Hv. destruct (Hv _ Hin) as (_ & Hn & _).
  split; [done|]. unfold main_calls in Hin. apply elem_of_app in Hin as [Hin|Hin].
  - apply in_concat_fmap in Hin as (sh & _ & Hin). unfold shape_calls in Hin. destruct (too_big s sh); [by apply not_elem_of_nil in Hin|].
    destruct (scaled (s_knobs s) (base sh) 1000); [|by apply not_elem_of_nil in Hin].
    by apply in_rounds, list_elem_of_fmap in Hin as (q' & [=] & _).
  - unfold latency_calls in Hin. destruct (coreCount (s_cpus s) <? 3); [by apply not_elem_of_nil in Hin|].
    destruct (scaled (s_knobs s) 200000 1000) as [m|] eqn:E; [|by apply not_elem_of_nil in Hin]. pose proof (Hmem m eq_refl) as Hm.
    apply in_concat_fmap in Hin as (q' & _ & Hin).
    assert (n <= m) as Hle; [|lia].
    repeat (apply elem_of_cons in Hin as [[= _ ->]|Hin]; [pose proof (Z.mul_div_le m 10 ltac:(lia)); lia|]). by apply not_elem_of_nil in Hin.
Qed.

(** What the second part of the queue benchmark reports: for every competitor, the
    samples are the times of the round trips of a finished run of [pingPong], one for
    each, in ascending order, and in each the answer was the value sent. *)
Lemma queue_latency_of_round_trips w q I n :
  Forall QueueCompetitors.echoes args → env_pings → (q, I) ∈ zip all args → Lat q n ∈ main_calls s →
  ∃ c w' r, reachable (M := pingpong_machine (i_q I.1) n) (pingpong_init (i_fresh I.1 2) (i_rep I.1)) c ∧
    lat env s q n w = Some (w', r) ∧ pingpong_result (s_tscPerNs s) c = Some r ∧
    Z.of_nat (length r) = n ∧ p_seen c = seqZ 1 n.
Proof using Hs Hmem.
  intros Hech Henv HqI Hin. destruct (Henv w q I n HqI Hin) as (c & Hr & Hd & Hst). pose proof (lat_call_small q n Hin) as Hn.
  apply elem_of_zip_r in HqI. rewrite Forall_forall in Hech. destruct (Hech I HqI) as (c1 & c2 & H1 & H2).
  assert (0 <= n < 2 ^ 64) as Hn' by lia.
  pose proof (pingpong_latencies n Hn' _ _ H1 H2 (s_tscPerNs s) c _ Hr Hd Hst) as Hres.
  pose proof (pinv_reachable n Hn' _ _ H1 H2 c Hr) as Hpi.
  destruct (latencies_spec (s_tscPerNs s) (o_stamps (env w (Lat q n))) n (so_tsc s Hs) ltac:(lia)) as (r & Hl & Hlen).
  exists c, (w ++ [Called (Lat q n) true]), r. split_and!; [done|unfold lat, perform; by rewrite Hl|by rewrite Hres|done|].
  rewrite (pi_seen _ _ Hpi). unfold pingpong_done in Hd. by destruct (p_main c), (p_echo c).
Qed.
End Run.

(** ** Three cores, two repetitions, a thousand values *)

Definition ex_setup : setup := mkSetup (mkKnobs 4000 1 2 false) [0; 1; 2] (of_u64 3).
Definition ex_outcomes (w : list (event call)) (c : call) : outcome :=
  mkOutcome (1000 + Z.of_nat (length w) mod 100) true (λ k, (5, 5 + 3 * Z.of_nat k)).

Lemma queue_ex_setup_ok : setup_ok ex_setup.
Proof. split; [done|done|]. eexists _, _. split; [vm_compute; reflexivity|by vm_compute; split]. Qed.

Lemma queue_ex_outcomes_ns w c : 0 <= o_ns (ex_outcomes w c) < 2 ^ 63.
Proof. simpl. pose proof (Z.mod_pos_bound (Z.of_nat (length w)) 100). lia. Qed.

Lemma queue_ex_setup_mem n : scaled (s_knobs ex_setup) 200000 1000 = Some n → n <= 2 ^ 53.
Proof. intros [= <-]. by vm_compute. Qed.

Lemma ex_setup_tput : Forall (λ c, match c with Tput _ P C N => P = 1%nat ∧ C = 1%nat ∧ N = 1000 | _ => True end) (main_calls ex_setup).
Proof. vm_compute. by repeat constructor. Qed.

(** Third-party queues that are bounded lists and an unbounded bag, and the
    benchmark's TTAS lock in the place of [std::mutex]. *)
#[local] Existing Instance TTAS.ttas_lock.
Definition list_lib : lib QueueCompetitors.CAP := mkLib _ (list Z) _ [] eq_refl.
Definition bag_of : lib QueueCompetitors.CAP := mkLib _ bag _ (Bag []) eq_refl.
Definition list_front : front_lib QueueCompetitors.CAP := mkFrontLib _ (list Z) _ [] eq_refl.
Definition ex_args : list (impl * bool) :=
  QueueCompetitors.impls TTAS.create list_lib list_lib bag_of list_lib list_lib list_front.

Lemma queue_ex_args_ok : args_ok ex_args.
Proof. split; [done|]. by apply QueueCompetitors.impls_sound. Qed.
(** A run of [throughput<MutexDeque>]: push and pop in turn. *)
Definition ex_deque : bcfg (i_q (QueueCompetitors.mutexDeque TTAS.create)) :=
  mkB (mkLocked (mkM TTAS.create [] (MOut <$> replicate 2 MutexDeque.Idle))) [PLoop 0 0; CLoop 0 0 []] 0.
Abbreviation deque_machine := (throughput_machine (i_q (QueueCompetitors.mutexDeque TTAS.create)) 1 1 1000).
Definition ex_deque_sched : list (m_act deque_machine) :=
  concat (replicate 1000 (replicate 6 (0%nat, tt) ++ replicate 7 (1%nat, tt))) ++ [(0%nat, tt); (1%nat, tt); (1%nat, tt)].

Lemma ex_deque_finishes : ∃ c, reachable (M := deque_machine)
    (throughput_init 1 1 (i_fresh (QueueCompetitors.mutexDeque TTAS.create) 2)) c ∧
  Forall (λ p, finished p = true) (b_thr c).
Proof.
  exists (default ex_deque (run (M := deque_machine) ex_deque ex_deque_sched)). split.
  - eapply run_reachable; [|apply (run_default (M := deque_machine)); vm_compute; reflexivity].
    by apply reach_init; split_and!.
  - apply Forall_forall. intros p Hp. apply list_elem_of_In in Hp. revert p Hp. apply forallb_forall. by vm_compute.
Qed.

Lemma queue_ex_env_runs : env_runs ex_outcomes ex_setup ex_args.
Proof.
  intros w q I P C N HqI Hin. pose proof ex_setup_tput as Hf. rewrite Forall_forall in Hf. destruct (Hf _ Hin) as (-> & -> & ->).
  assert (I ∈ ex_args) as HI by (apply elem_of_zip_r in HqI; done).
  assert (∃ c, reachable (M := throughput_machine (i_q I.1) 1 1 1000) (throughput_init 1 1 (i_fresh I.1 2)) c ∧
    Forall (λ p, finished p = true) (b_thr c)) as (c & Hr & Hfin).
  { pose proof (QueueCompetitors.impls_finish TTAS.create list_lib list_lib bag_of list_lib list_lib list_front ltac:(done)) as Hl.
    rewrite Forall_forall in Hl. destruct (Hl I HI) as [-> |Hfi]; [apply ex_deque_finishes|].
    apply Hfi; try done; [lia..|by exists 1000|by exists 1000]. }
  exists c. split_and!; [done..|]. symmetry. simpl.
  apply (QueueCompetitors.impls_pass TTAS.create ltac:(done) list_lib list_lib bag_of list_lib list_lib list_front ltac:(done) I 1 1 1000 c);
    try done; try lia; by exists 1000.
Qed.

Lemma queue_main_passes_witness : ∃ w, body ex_outcomes ex_setup = Some w ∧ calls w = main_calls ex_setup ∧
  length (main_calls ex_setup) = 45%nat ∧ calls w !! 0%nat = Some (Tput astraQ 1 1 1000) ∧
  calls w !! 44%nat = Some (Lat (make "boost::lockfree::spsc_queue" "(SPSC only)" true) 1000) ∧
  (∀ c ok, Called c ok ∈ w → ok = true) ∧ finish (g_failures w) = 0 ∧
  ∀ t p, reachable (M := proc_machine) (λ p, main ex_outcomes ex_setup t = Some p) p → fate w p.
Proof.
  destruct (queue_main_passes ex_outcomes ex_setup queue_ex_setup_ok queue_ex_outcomes_ns queue_ex_setup_mem ex_args
    queue_ex_args_ok queue_ex_env_runs) as (w & H1 & H2 & _ & _ & H5 & H6 & H7).
  - intros q P C N Hin. pose proof ex_setup_tput as Hf. rewrite Forall_forall in Hf. destruct (Hf _ Hin) as (_ & _ & ->). lia.
  - exists w. split; [exact H1|]. split; [exact H2|]. split; [reflexivity|]. rewrite H2. split; [reflexivity|].
    split; [reflexivity|]. split; [exact H5|]. split; [exact H6|exact H7].
Defined.

(** Without a repetition there is nothing to summarize. *)
Example queue_main_no_reps :
  body ex_outcomes (mkSetup (mkKnobs 4000 1 0 false) [0; 1; 2] (of_u64 3)) = None.
Proof. by vm_compute. Qed.

(** On one core everything is skipped. *)
Example queue_main_one_core : ∃ w,
  body ex_outcomes (mkSetup (mkKnobs 1 1 7 false) [0] (of_u64 3)) = Some w ∧ finish (g_failures w) = 0 ∧ calls w = [] ∧ length w = 9%nat.
Proof. eexists. split; [vm_compute; reflexivity|]. by vm_compute. Qed.
End QueueMain.
