(* ===== verification/IndexPoolMain.v ===== *)
(** * The index-pool benchmark as a program

    Model of [main] in [src/bench/IndexPoolComparisonBench.cpp] with its
    competitors and thread counts; [run] is seen from outside, as a call that takes
    a number of nanoseconds and makes a check, that of an execution of
    [IndexPoolBench.v] on the competitor's pool ([PoolCompetitors.v]). *)

From Stdlib Require Import ZArith Lia Ascii String.
From S2P Require Import Prelude MachineInt Decimal Lts AtomicRingBuffer RingInvariant RingTheorems IndexPool.
From S2P Require Import LockInterface SpinlockBench Monitor MutexPool Adapter MonitorAdapter LibAdapter RingAdapter.
From S2P Require Import Timer Double BenchHarness BenchStats BenchReport Printf IndexPoolBench PoolCompetitors.
From S2P Require Import BenchProcess.
Local Open Scope Z_scope.
Local Open Scope astra_scope.

Module IndexPoolMain.
Import IndexPoolBench.

Record Competitor := mkCompetitor { c_name : text; c_note : text }.

Definition astraPool : Competitor := mkCompetitor (str "AstraLib ThreadSafeIndexPool") (str "(FIFO)").

Definition all : list Competitor :=
  [ astraPool;
    mkCompetitor (str "rigtorp::MPMCQueue<int>") (str "(FIFO)");
    mkCompetitor (str "boost::lockfree::stack<int>") (str "(LIFO)");
    mkCompetitor (str "moodycamel::ConcurrentQueue") (str "(unordered)");
    mkCompetitor (str "std::mutex + std::vector") (str "(LIFO)") ].

(** A call [c.fn(t, total, c.name)], and what it finds. *)
Record call := Run { r_c : Competitor; r_threads : nat; r_total : Z }.
Record outcome := mkOutcome { o_ns : Z; o_ok : bool }.

Section Main.
Context (env : list (event call) → call → outcome) (s : setup).
Abbreviation log := (list (event call)).
Abbreviation g := (s_knobs s).

(** [run<P>]: [double(perThread * threads) * 1e3 / double(ns)]. *)
Definition fn (c : Competitor) (threads : nat) (total : Z) (w : log) : log * double :=
  let '(w', o) := perform env o_ok (Run c threads total) w in
  (w', rate (to_u64 (perThread threads total * Z.of_nat threads)) (o_ns o)).

Definition threadCounts : list nat := [1; 2; 4; 8]%nat.

(** The body of the loop over the thread counts. *)
Definition run_count (total : Z) (t : nat) (w : log) : option log :=
  if coreCount (s_cpus s) <? Z.of_nat (t + 1) then Some (w ++ [Said (skipped (threads_title t) (Z.of_nat (t + 1)))])
  else
    let fns := (λ c, fn c t total) <$> all in
    let? r := interleaved_stats (g_reps g) fns (w ++ [Opened (threads_title t) 600]) in
    let rows := zip_with (λ c x, mkRow (c_name c) (Plain (c_note c)) (Some x)) all r.2 in
    Some (r.1 ++ [Table (threads_title t) (str "M pair/s") (printTable true rows); Closed]).

(** What [main] does: the whole log. *)
Definition body : option log :=
  let? total := scaled g 4000000 1000 in
  for_each (run_count total) threadCounts [Said (printPreamble s (str "ThreadSafeIndexPool vs other free lists  (pool size 1024)"));
    Said (str "[1] get+return throughput, M pairs/s (higher is better)")].

(** The process: the watchdog is started at time [t], and [main] goes through its
    events and returns [finish()], unless the watchdog ends the process before. *)
Definition main (t : Z) : option (proc call) := let? w := body in Some (start t w).
End Main.

(** ** The calls that a run makes *)

Definition count_calls (s : setup) (total : Z) (t : nat) : list call :=
  if coreCount (s_cpus s) <? Z.of_nat (t + 1) then []
  else concat (replicate (S (Z.to_nat (g_reps (s_knobs s)))) ((λ c, Run c t total) <$> all)).

Definition main_calls (s : setup) : list call :=
  match scaled (s_knobs s) 4000000 1000 with
  | Some total => concat (count_calls s total <$> threadCounts)
  | None => []
  end.

(** ** Theorems *)

Section Proofs.
Context (env : list (event call) → call → outcome) (s : setup) (Hs : setup_ok s).
Context (Hns : ∀ w c, 0 <= o_ns (env w c) < 2 ^ 63).

Definition outcomes (e : event call) : Prop :=
  match e with Called c ok => ∃ w, ok = o_ok (env w c) | _ => True end.

Lemma counts_small t : t ∈ threadCounts → (0 < t <= 8)%nat.
Proof. intros Ht. repeat (apply elem_of_cons in Ht as [->|Ht]; [lia|]). by apply not_elem_of_nil in Ht. Qed.

Lemma pairs_range t total :
  t ∈ threadCounts → 1000 <= total < 2 ^ 64 → 0 < to_u64 (perThread t total * Z.of_nat t) < 2 ^ 64.
Proof.
  intros Ht%counts_small Hb. unfold perThread. pose proof (Z.mul_div_le total (Z.of_nat t) ltac:(lia)).
  assert (0 < total / Z.of_nat t) by (apply Z.div_str_pos; lia). rewrite uwrap_small; nia.
Qed.

Lemma pool_run_count_does total t :
  t ∈ threadCounts → 1000 <= total < 2 ^ 64 → does outcomes (run_count env s total t) (count_calls s total t).
Proof using Hs Hns.
  intros Ht Hb. unfold run_count, count_calls. destruct (_ <? _); [by apply says_does|].
  pose proof (pairs_range t total Ht Hb). intros w.
  refine (table_does outcomes (λ w, w) (λ w, w) (λ _, True) (g_reps (s_knobs s))
    ((λ c, fn env c t total) <$> all) ((λ c, Run c t total) <$> all) (threads_title t) 600 (str "M pair/s")
    (λ _ st, Some (zip_with (λ c x, mkRow (c_name c) (Plain (c_note c)) (Some x)) all st)) (so_reps s Hs) _ _ _ _ I I (λ _, I) w).
  - done.
  - intros f w' (c & -> & _)%list_elem_of_fmap _. split; [done|]. unfold fn, perform. simpl. apply rate_number; [lia|apply Hns|lia].
  - apply Forall2_fmap_l, Forall2_fmap_r, Forall_Forall2_diag, Forall_forall. intros c _ w'. eexists. split; [done|]. simpl. eauto.
  - intros. by eexists.
Qed.

Lemma pool_main_does : ∃ w, body env s = Some w ∧ calls w = main_calls s ∧
  deadlines false w = Some false ∧ Forall outcomes w.
Proof using Hs Hns.
  unfold body, main_calls. destruct (scaled_range (s_knobs s) 4000000 1000 (so_scale s Hs) ltac:(lia)) as (total & -> & Hb).
  match goal with |- context [for_each _ _ ?w] =>
    destruct (for_each_does outcomes (run_count env s total) (count_calls s total) threadCounts
      (λ t Ht, pool_run_count_does total t Ht Hb) w) as (e & -> & H1 & H2 & H3) end.
  eexists. split; [done|]. rewrite calls_app, calls_heading, H1. split; [done|]. split; [done|]. by repeat constructor.
Qed.

(** What a call needs: every thread and the coordinator have a core of their own,
    and there is something to do. *)
Definition valid_call (c : call) : Prop :=
  r_c c ∈ all ∧ (0 < r_threads c <= 8)%nat ∧ Z.of_nat (r_threads c + 1) <= coreCount (s_cpus s) ∧ 1000 <= r_total c < 2 ^ 64.

Lemma pool_main_calls_valid : Forall valid_call (main_calls s).
Proof using Hs.
  unfold main_calls. destruct (scaled_range (s_knobs s) 4000000 1000 (so_scale s Hs) ltac:(lia)) as (total & -> & Hb).
  apply Forall_forall. intros c (t & Ht & Hc)%in_concat_fmap. unfold count_calls in Hc.
  destruct (Z.ltb_spec (coreCount (s_cpus s)) (Z.of_nat (t + 1))); [by apply not_elem_of_nil in Hc|].
  apply in_rounds, list_elem_of_fmap in Hc as (q & -> & Hq). pose proof (counts_small t Ht).
  split_and!; simpl; done || lia.
Qed.

(** The template arguments of the competitors, [&run<AstraPool>] and so on, and what
    an outcome is: the check at the end of an execution of [run<P>] whose threads
    have all finished. *)
Context (args : list impl).

Definition env_runs : Prop :=
  ∀ w q I t total, (q, I) ∈ zip all args → Run q t total ∈ main_calls s →
    ∃ c, reachable (M := run_machine (i_q I) t total) (run_init 1024 t (i_fresh I t)) c ∧
      Forall (λ p, finished p = true) (r_thr c) ∧ o_ok (env w (Run q t total)) = check_uses t total c.

Definition args_ok : Prop := length args = length all ∧ Forall PoolCompetitors.sound args.

Lemma pool_call_passes w c : args_ok → env_runs → c ∈ main_calls s → o_ok (env w c) = true.
Proof using Hs.
  intros [Hlen Hsound] Henv Hin. pose proof pool_main_calls_valid as Hv. rewrite Forall_forall in Hv.
  destruct (Hv _ Hin) as (Hq & Ht & _ & Htot). destruct c as [q t total]. cbn [r_c r_threads r_total] in *.
  apply list_elem_of_lookup in Hq as [i Hi]. assert (i < length args)%nat as Hlt by (rewrite Hlen; by eapply lookup_lt_Some).
  apply lookup_lt_is_Some_2 in Hlt as [I HI].
  destruct (Henv w q I t total) as (c & Hr & Hf & ->); [|done|].
  { apply list_elem_of_lookup. exists i. by rewrite lookup_zip_with, Hi; simpl; rewrite HI. }
  destruct (Forall_lookup_1 _ _ _ _ Hsound HI t Ht) as [HC Hst].
  eapply (finished_uses 1024 t total); [lia|lia| |done]. eapply (rinv_reachable 1024 t total); [lia|lia|exact Hst|exact Hr].
Qed.

(** C31. The index-pool benchmark as a program.  Assume: at least one repetition
    ([setup_ok]); measured times are not negative; every competitor conserves its
    indexes, and the outcome of a call that returns is that of a finished execution
    ([args_ok], [env_runs]).  Then [main] has no undefined behaviour; it makes exactly
    the calls [main_calls], each with a core per thread and one for the coordinator,
    under a deadline that is closed again; no accounting check fails, and it returns 0.
    The process ends with that status, or with status 3 after a deadline was over; while
    it runs, [main] can get to its end if its calls return; and if one does not return,
    the watchdog ends the process ([fate]). *)
Theorem index_pool_main_runs :
  args_ok → env_runs → ∃ w, body env s = Some w ∧ calls w = main_calls s ∧ Forall valid_call (calls w) ∧
    deadlines false w = Some false ∧ (∀ c ok, Called c ok ∈ w → ok = true) ∧ finish (g_failures w) = 0 ∧
    ∀ t p, reachable (M := proc_machine) (λ p, main env s t = Some p) p → fate w p.
Proof using Hs Hns.
  intros Hargs Henv. destruct pool_main_does as (w & H1 & H2 & H3 & H4). exists w.
  assert (∀ c ok, Called c ok ∈ w → ok = true) as Hall.
  { intros c ok Hin. rewrite Forall_forall in H4. destruct (H4 _ Hin) as [w' ->].
    apply called_in in Hin. rewrite H2 in Hin. by apply pool_call_passes. }
  split_and!; [done|done|rewrite H2; apply pool_main_calls_valid|done|done|by apply finish_all|].
  unfold main. rewrite H1. intros t p. by apply process_fate.
Qed.
End Proofs.

(** ** Two cores, one repetition *)

Definition ex_setup : setup := mkSetup (mkKnobs 4000 1 1 false) [0; 4] (of_u64 3).
Definition ex_outcomes (w : list (event call)) (c : call) : outcome := mkOutcome (Z.of_nat (length w) mod 100) true.

Lemma pool_ex_setup_ok : setup_ok ex_setup.
Proof. split; [done|done|]. eexists _, _. split; [vm_compute; reflexivity|by vm_compute; split]. Qed.

Lemma pool_ex_outcomes_ns w c : 0 <= o_ns (ex_outcomes w c) < 2 ^ 63.
Proof. simpl. pose proof (Z.mod_pos_bound (Z.of_nat (length w)) 100). lia. Qed.

(** Third-party containers that are a bounded list and an unbounded bag, and the
    benchmark's TTAS lock in the place of [std::mutex]. *)
#[local] Existing Instance TTAS.ttas_lock.
Definition pool_list : lib PoolCompetitors.SIZE := mkLib _ (list Z) _ [] eq_refl.
Definition pool_bag : lib PoolCompetitors.SIZE := mkLib _ bag _ (Bag []) eq_refl.
Definition ex_args : list impl := PoolCompetitors.impls TTAS.create pool_list pool_list pool_bag.

Lemma pool_list_push k (s : lib_state pool_list) v :
  Z.of_nat (length (lib_items s)) < PoolCompetitors.SIZE → (lib_push k s v).2 = true.
Proof. simpl. unfold bounded_push. intros H. by rewrite (proj2 (Z.ltb_lt _ _)). Qed.

Lemma pool_ex_args_ok : args_ok ex_args.
Proof. split; [done|]. apply PoolCompetitors.pools_sound; [done|apply pool_list_push|done]. Qed.

(** A run of [run<MutexVecPool>] by one thread. *)
Definition ex_vec : rcfg (i_q (PoolCompetitors.mutexVecPool TTAS.create)) :=
  mkR (mkLocked (mkM TTAS.create (seqZ 0 1024) (MOut <$> replicate 1 MutexVecPool.Idle))) (replicate 1024 0) [RLoop 0].
Abbreviation vec_machine := (run_machine (i_q (PoolCompetitors.mutexVecPool TTAS.create)) 1 1000).
Definition ex_vec_sched : list (m_act vec_machine) := replicate (14 * 1000 + 1) (0%nat, tt).

Lemma ex_vec_finishes : ∃ c, reachable (M := vec_machine)
    (run_init 1024 1 (i_fresh (PoolCompetitors.mutexVecPool TTAS.create) 1)) c ∧ Forall (λ p, finished p = true) (r_thr c).
Proof.
  exists (default ex_vec (run (M := vec_machine) ex_vec ex_vec_sched)). split.
  - eapply run_reachable; [|apply (run_default (M := vec_machine)); vm_compute; reflexivity].
    apply reach_init. split; [|done]. eexists. split; [apply (MutexVecPool.MutexVecPool_full 1024); done|reflexivity].
  - apply Forall_forall. intros p Hp. apply list_elem_of_In in Hp. revert p Hp. apply forallb_forall. by vm_compute.
Qed.

Lemma pool_ex_env_runs : env_runs ex_outcomes ex_setup ex_args.
Proof.
  intros w q I t total HqI Hin.
  assert (Forall (λ c, r_threads c = 1%nat ∧ r_total c = 1000) (main_calls ex_setup)) as Hf by (vm_compute; by repeat constructor).
  rewrite Forall_forall in Hf. destruct (Hf _ Hin) as [Ht Htot]. simpl in Ht, Htot. subst.
  assert (I ∈ ex_args) as HI by (by apply elem_of_zip_r in HqI).
  assert (∃ c, reachable (M := run_machine (i_q I) 1 1000) (run_init 1024 1 (i_fresh I 1)) c ∧
    Forall (λ p, finished p = true) (r_thr c)) as (c & Hr & Hfin).
  { pose proof (PoolCompetitors.pools_finish TTAS.create pool_list pool_list pool_bag pool_list_push ltac:(done)) as Hl.
    rewrite Forall_forall in Hl. destruct (Hl I HI) as [-> |Hfi]; [apply ex_vec_finishes|]. apply Hfi; lia. }
  exists c. split_and!; [done..|]. symmetry. simpl.
  apply (PoolCompetitors.pools_pass TTAS.create ltac:(done) pool_list pool_list pool_bag pool_list_push ltac:(done) I 1 1000 c); try done; lia.
Qed.

Lemma index_pool_main_runs_witness : ∃ w, body ex_outcomes ex_setup = Some w ∧ calls w = (λ c, Run c 1 1000) <$> (all ++ all) ∧
  finish (g_failures w) = 0 ∧ ∀ t p, reachable (M := proc_machine) (λ p, main ex_outcomes ex_setup t = Some p) p → fate w p.
Proof.
  destruct (index_pool_main_runs ex_outcomes ex_setup pool_ex_setup_ok pool_ex_outcomes_ns ex_args pool_ex_args_ok pool_ex_env_runs)
    as (w & H1 & H2 & _ & _ & _ & H6 & H7).
  exists w. split; [exact H1|]. split; [rewrite H2; reflexivity|]. split; [exact H6|exact H7].
Defined.
End IndexPoolMain.
