(* ===== verification/SpinlockMain.v ===== *)
(** * The spin-lock benchmark as a program

    Model of [main] in [src/bench/SpinlockComparisonBench.cpp], and of [runLock]
    around its worker loop: the duration in cycles, the totals, the check and the
    three figures of a sample.  The lambdas that [interleaved] calls also append to
    [fair] and [hand], so the state of the run is the log with these two vectors.
    What the workers counted is an argument; the theorem takes it from an execution
    of the worker loop ([LockInterface.v]) with the competitor's lock. *)

From Stdlib Require Import ZArith Lia Ascii String SpecFloat.
From S2P Require Import Prelude MachineInt Decimal Lts LockInterface Spinlock SpinlockBench.
From S2P Require Import Timer Double BenchHarness BenchStats BenchReport Printf.
From S2P Require Import BenchProcess.
Local Open Scope Z_scope.
Local Open Scope astra_scope.

Module SpinlockMain.

(** The names of the competitors; the functions are instances of [runLock]. *)
Definition all : list text :=
  [str "AstraLib Spinlock"; str "AstraLib Spinlock(wait=16)"; str "TTAS spinlock"; str "pthread_spin_lock"; str "std::mutex"].

Record CS := mkCS { label : text; iters : Z }.
Definition sections : list CS :=
  [mkCS (str "tiny critical section (counter++)") 0; mkCS (str "~100-iteration critical section") 100].
Definition threadCounts : list nat := [1; 2; 4; 8]%nat.

(** A call [all[k].fn(t, cs.iters, durNs, all[k].name)], and what its threads leave
    behind: the elapsed time, [per], [shared->counter] and [shared->handoffs]. *)
Record call := Run { r_name : text; r_threads : nat; r_iters : Z; r_durNs : Z }.
Record outcome := mkOutcome { o_ns : Z; o_per : list Z; o_counter : Z; o_handoffs : Z }.

(** [struct Sample] and the end of [runLock]. *)
Record Sample := mkSample { mops : double; fairness : double; handoffsM : double }.

Definition sample (o : outcome) : Sample :=
  let '(total, lo, hi) := tally (o_per o) in
  mkSample (rate total (o_ns o)) (if hi =? 0 then S754_zero false else div (of_u64 lo) (of_u64 hi))
           (rate (o_handoffs o) (o_ns o)).

(** [BENCH_CHECK(shared->counter == total, ...)] *)
Definition check_counter (o : outcome) : bool := o_counter o =? (tally (o_per o)).1.1.

Section Main.
Context (env : list (event call) → call → outcome) (s : setup).
Abbreviation log := (list (event call)).
Abbreviation g := (s_knobs s).

(** [int64_t(scaled(200, 10)) * 1'000'000], which must not overflow, and
    [uint64_t(double(durNs) * g_tscPerNs)]. *)
Definition durNs : option Z :=
  let? n := scaled g 200 10 in
  let d := to_i64 n * 1000000 in
  if to_i64 d =? d then Some d else None.
Definition durCycles (d : Z) : option Z := to_uint (mul (of_i64 d) (s_tscPerNs s)).

Record state := mkState { st_log : log; fair : list (list double); hand : list (list double) }.

(** The lambda of competitor [k]. *)
Definition fn (k : nat) (name : text) (t : nat) (cs : CS) (d : Z) (w : state) : state * double :=
  let '(l, o) := perform env check_counter (Run name t (iters cs) d) (st_log w) in
  let x := sample o in
  (mkState l (alter (λ v, v ++ [fairness x]) k (fair w)) (alter (λ v, v ++ [handoffsM x]) k (hand w)), mops x).

(** The note of a row, without the sample of the warm-up:
    [fair[k].begin() + 1] is past the end of an empty vector. *)
Definition note_of (t : nat) (w : state) (k : nat) : option remark :=
  if (1 <? t)%nat then
    match fair w !! k, hand w !! k with
    | Some (_ :: f), Some (_ :: h) =>
        let? a := summarize f in let? b := summarize h in Some (Fairness (median a) (median b))
    | _, _ => None
    end
  else Some (Plain []).

(** The rows, from competitor [k] on. *)
Fixpoint rows_from (t : nat) (w : state) (k : nat) (names : list text) (st : list Stat) : option (list Row) :=
  match names, st with
  | n :: names', x :: st' =>
      let? note := note_of t w k in
      let? rest := rows_from t w (S k) names' st' in Some (mkRow n note (Some x) :: rest)
  | _, _ => Some []
  end.

(** The body of the loop over the thread counts. *)
Definition run_count (cs : CS) (d : Z) (t : nat) (w : log) : option log :=
  if coreCount (s_cpus s) <? Z.of_nat (t + 1) then Some (w ++ [Said (skipped (threads_title t) (Z.of_nat (t + 1)))])
  else
    let? _ := durCycles d in
    let fns := imap (λ k name, fn k name t cs d) all in
    let start := mkState (w ++ [Opened (threads_title t) 600]) (replicate (length all) []) (replicate (length all) []) in
    let? r := interleaved_stats (g_reps g) fns start in
    let? rows := rows_from t r.1 0 all r.2 in
    Some (st_log r.1 ++ [Table (threads_title t) (str "M acq/s") (printTable true rows); Closed]).

Definition heading (cs : CS) : text :=
  str "[" ++ label cs ++ str "]  throughput in M acquisitions/s (higher is better), fairness = min/max per-thread share, handoffs = owner changes/s".

(** The body of the loop over the critical sections. *)
Definition run_section (d : Z) (cs : CS) (w : log) : option log :=
  for_each (run_count cs d) threadCounts (w ++ [Said (heading cs)]).

(** What [main] does: the whole log. *)
Definition body : option log :=
  let? d := durNs in
  for_each (run_section d) sections
    [Said (printPreamble s (str "Spinlock vs other locks  (fixed-duration runs, one thread per physical core)"))].

(** The process: the watchdog is started at time [t], and [main] goes through its
    events and returns [finish()], unless the watchdog ends the process before. *)
Definition main (t : Z) : option (proc call) := let? w := body in Some (start t w).
End Main.

(** ** The calls that a run makes *)

Definition count_calls (s : setup) (d : Z) (cs : CS) (t : nat) : list call :=
  if coreCount (s_cpus s) <? Z.of_nat (t + 1) then []
  else concat (replicate (S (Z.to_nat (g_reps (s_knobs s)))) ((λ n, Run n t (iters cs) d) <$> all)).

Definition main_calls (s : setup) : list call :=
  match durNs s with
  | Some d => concat ((λ cs, concat (count_calls s d cs <$> threadCounts)) <$> sections)
  | None => []
  end.

(** ** Samples are numbers *)

Record outcome_ok (o : outcome) : Prop := {
  oo_ns : 0 < o_ns o < 2 ^ 63;
  oo_per : Forall (λ n, 0 <= n < 2 ^ 64) (o_per o);
  oo_handoffs : 0 <= o_handoffs o < 2 ^ 64;
}.

Lemma tally_range per total lo hi :
  Forall (λ n, 0 <= n < 2 ^ 64) per → 0 <= total < 2 ^ 64 → 0 <= lo < 2 ^ 64 → 0 <= hi < 2 ^ 64 →
  let '(t, l, h) := tally_from (total, lo, hi) per in 0 <= t < 2 ^ 64 ∧ 0 <= l < 2 ^ 64 ∧ 0 <= h < 2 ^ 64.
Proof.
  intros Hper. revert total lo hi. induction Hper as [|n per Hn _ IH]; intros total lo hi Ht Hl Hh; cbn [tally_from]; [done|].
  apply IH; [apply uwrap_range; lia|lia|lia].
Qed.

Lemma sample_numbers o : outcome_ok o →
  is_nan (mops (sample o)) = false ∧ is_nan (fairness (sample o)) = false ∧ is_nan (handoffsM (sample o)) = false.
Proof.
  intros [Hns Hper Hh]. unfold sample, tally. pose proof (tally_range (o_per o) 0 (2 ^ 64 - 1) 0 Hper ltac:(lia) ltac:(lia) ltac:(lia)) as Ht.
  destruct (tally_from _ _) as [[t l] h]. destruct Ht as (Ht & Hl & Hhi). simpl. split_and!.
  - apply rate_number; lia.
  - destruct (Z.eqb_spec h 0); [done|]. pose proof (of_u64_within 64 h ltac:(lia) ltac:(lia)) as Hw.
    destruct (of_u64_cases 64 l Hl ltac:(lia)) as [->|Hw']; [by destruct Hw as (m & e & -> & _)|].
    exact (within_not_nan _ _ _ (div_within _ _ _ _ _ _ Hw' Hw ltac:(lia) ltac:(lia))).
  - apply rate_number; lia.
Qed.

(** ** Theorems *)

Abbreviation numbers := (Forall (λ x, is_nan x = false)).

(** The vectors of the fairness and handoff samples. *)
Definition vectors_ok (w : state) : Prop :=
  length (fair w) = length all ∧ length (hand w) = length all ∧ Forall numbers (fair w) ∧ Forall numbers (hand w).

Lemma alter_numbers k x vs : is_nan x = false → Forall numbers vs → Forall numbers (alter (λ v, v ++ [x]) k vs).
Proof. intros Hx Hvs. apply Forall_alter; [done|]. intros v _ Hv. apply Forall_app. split; [done|by repeat constructor]. Qed.

(** How often [k] occurs in a schedule. *)
Definition times (k : nat) (σ : list nat) : nat := length (filter (λ i, i = k) σ).

Lemma times_schedule k g_reps : (k < length all)%nat → times k (schedule g_reps (length all)) = S (Z.to_nat g_reps).
Proof.
  intros Hk. unfold times, schedule. rewrite filter_app, length_app.
  assert (length (filter (λ i, i = k) (List.seq 0 (length all))) = 1%nat) as H1
    by (simpl in Hk; do 5 (destruct k as [|k]; [done|]); lia).
  rewrite H1. f_equal. induction (Z.to_nat g_reps) as [|r IH]; [done|]. cbn [replicate concat].
  rewrite filter_app, length_app, H1, IH. done.
Qed.

Section Proofs.
Context (env : list (event call) → call → outcome) (s : setup) (Hs : setup_ok s).
Context (Henv : ∀ w c, outcome_ok (env w c)).
(** The time stamp counter runs at less than 2^10 ticks per nanosecond, and a run
    lasts less than 11 days. *)
Context (Htsc : within (-10) 10 (s_tscPerNs s)) (Hdur : ∀ n, scaled (s_knobs s) 200 10 = Some n → n <= 10 ^ 9).

Definition outcomes (e : event call) : Prop :=
  match e with Called c ok => ∃ w, ok = check_counter (env w c) | _ => True end.

Lemma durations : ∃ d, durNs s = Some d ∧ 0 < d <= 10 ^ 15 ∧ is_Some (durCycles s d).
Proof using Hs Htsc Hdur.
  unfold durNs. destruct (scaled_range (s_knobs s) 200 10 (so_scale s Hs) ltac:(lia)) as (n & Hn & Hb). rewrite Hn.
  pose proof (Hdur n Hn). rewrite (swrap_small 64 ltac:(lia) n), (swrap_small 64 ltac:(lia) (n * _)), Z.eqb_refl by lia.
  eexists. split; [done|]. split; [lia|]. unfold durCycles, of_i64. fold (of_u64 (n * 1000000)).
  pose proof (mul_within _ _ _ _ _ _ (of_u64_within 50 (n * 1000000) ltac:(lia) ltac:(lia)) Htsc ltac:(lia) ltac:(lia)) as Hm.
  destruct (to_uint_within _ _ _ Hm ltac:(lia)) as (v & -> & _). by eexists.
Qed.

Section Table.
Context (t : nat) (cs : CS) (d : Z).
Abbreviation fns := (imap (λ k name, fn env k name t cs d) all).

Lemma fns_lookup k f : fns !! k = Some f → ∃ n, all !! k = Some n ∧ f = fn env k n t cs d.
Proof. rewrite list_lookup_imap. destruct (all !! k) as [n|]; [|done]. intros [= <-]. eauto. Qed.

Lemma fn_ok k n w : vectors_ok w → vectors_ok (fn env k n t cs d w).1 ∧ is_nan (fn env k n t cs d w).2 = false.
Proof using Henv.
  intros (H1 & H2 & H3 & H4). unfold fn, perform. cbn [fst snd].
  set (o := env _ _). destruct (sample_numbers o (Henv _ _)) as (N1 & N2 & N3).
  split; [|done]. split_and!; simpl; rewrite ?length_alter; try done; by apply alter_numbers.
Qed.

(** Each call of competitor [k] appends one sample to its vectors. *)
Lemma run_calls_vectors σ w k :
  (k < length all)%nat → vectors_ok w → let w' := (run_calls fns σ w).1 in
  (∀ v, fair w !! k = Some v → ∃ u, fair w' !! k = Some (v ++ u) ∧ length u = times k σ) ∧
  (∀ v, hand w !! k = Some v → ∃ u, hand w' !! k = Some (v ++ u) ∧ length u = times k σ).
Proof using Henv.
  intros Hk. revert w. induction σ as [|i σ IH]; intros w Hw; cbn [run_calls].
  { split; intros v Hv; exists []; by rewrite app_nil_r. }
  destruct (fns !! i) as [f|] eqn:Ef.
  - destruct (fns_lookup i f Ef) as (n & _ & ->). destruct (fn_ok i n w Hw) as [Hw' _].
    destruct (IH _ Hw') as [IHf IHh]. cbv zeta. cbn [fst snd]. unfold times. unfold fn, perform in *. cbn [fst snd] in *.
    set (x := sample _) in *. cbn [fair hand] in IHf, IHh.
    destruct (decide (i = k)) as [->|Hne].
    + rewrite filter_cons_True by done. split; intros v Hv.
      * destruct (IHf (v ++ [fairness x])) as (u & -> & Hu); [by rewrite list_lookup_alter_eq, Hv|].
        exists (fairness x :: u). rewrite <- app_assoc. split; [done|]. cbn [length]. by rewrite Hu.
      * destruct (IHh (v ++ [handoffsM x])) as (u & -> & Hu); [by rewrite list_lookup_alter_eq, Hv|].
        exists (handoffsM x :: u). rewrite <- app_assoc. split; [done|]. cbn [length]. by rewrite Hu.
    + rewrite filter_cons_False by done. split; intros v Hv; [apply IHf|apply IHh]; by rewrite list_lookup_alter_ne.
  - assert (i ≠ k) as Hne.
    { intros ->. apply lookup_ge_None in Ef. rewrite length_imap in Ef. lia. }
    unfold times. rewrite filter_cons_False by done. by apply IH.
Qed.

(** After the runs every note can be made. *)
Lemma note_of_total w0 k :
  (k < length all)%nat → let start := mkState w0 (replicate (length all) []) (replicate (length all) []) in
  is_Some (note_of t (run_calls fns (schedule (g_reps (s_knobs s)) (length fns)) start).1 k).
Proof using Hs Henv.
  intros Hk start. assert (vectors_ok start) as Hstart by (split_and!; [done|done|by repeat constructor|by repeat constructor]).
  pose proof (so_reps s Hs) as Hr. set (σ := schedule _ _).
  assert (length fns = length all) as Hl by done.
  assert (times k σ = S (Z.to_nat (g_reps (s_knobs s)))) as Ht by (unfold σ; rewrite Hl; by apply times_schedule).
  destruct (run_calls_vectors σ start k Hk Hstart) as [Hf Hh].
  destruct (Hf []) as (f & Ef & Lf); [by apply lookup_replicate|]. destruct (Hh []) as (h & Eh & Lh); [by apply lookup_replicate|].
  destruct (run_calls_Forall fns (λ x, is_nan x = false) vectors_ok) with (σ := σ) (w := start) as [(_ & _ & Nf & Nh) _]; [|done|].
  { intros fn0 w' (i & Hi)%list_elem_of_lookup_1 Hw'. destruct (fns_lookup i fn0 Hi) as (n & _ & ->). by apply fn_ok. }
  pose proof (Forall_lookup_1 _ _ _ _ Nf Ef) as NF. pose proof (Forall_lookup_1 _ _ _ _ Nh Eh) as NH. cbn [app] in *.
  unfold note_of. destruct (1 <? t)%nat; [|by eexists]. rewrite Ef, Eh.
  destruct f as [|f0 f]; [simpl in Lf; lia|]. destruct h as [|h0 h]; [simpl in Lh; lia|].
  apply Forall_cons in NF as [_ NF]. apply Forall_cons in NH as [_ NH].
  destruct (summarize_total f) as [a ->]; [intros ->; simpl in Lf; lia|done|].
  destruct (summarize_total h) as [b ->]; [intros ->; simpl in Lh; lia|done|]. by eexists.
Qed.

Lemma rows_from_total w names k st :
  (∀ j, (j < k + length names)%nat → is_Some (note_of t w j)) → is_Some (rows_from t w k names st).
Proof.
  revert k st. induction names as [|n names IH]; intros k st H; cbn [rows_from]; [by eexists|].
  destruct st as [|x st]; [by eexists|]. destruct (H k) as [note ->]; [simpl; lia|].
  destruct (IH (S k) st) as [rest ->]; [intros j Hj; apply H; simpl; lia|]. by eexists.
Qed.
End Table.

Lemma spin_run_count_does cs d t :
  is_Some (durCycles s d) → does outcomes (run_count env s cs d t) (count_calls s d cs t).
Proof using Hs Henv.
  intros [cyc Hcyc]. unfold run_count, count_calls. destruct (_ <? _); [by apply says_does|]. rewrite Hcyc. intros w.
  refine (table_does outcomes (λ l, mkState l (replicate (length all) []) (replicate (length all) [])) st_log vectors_ok
    (g_reps (s_knobs s)) (imap (λ k name, fn env k name t cs d) all) ((λ n, Run n t (iters cs) d) <$> all)
    (threads_title t) 600 (str "M acq/s") (λ w st, rows_from t w 0 all st) (so_reps s Hs) _ _ _ _ I I (λ _, I) w).
  - intros w'. split; [done|]. split_and!; [done|done|by repeat constructor|by repeat constructor].
  - intros f w' (i & Hi)%list_elem_of_lookup_1 Hw'. destruct (fns_lookup t cs d i f Hi) as (n & _ & ->). by apply fn_ok.
  - apply Forall2_same_length_lookup_2; [done|]. intros i f c Hf Hc w'.
    destruct (fns_lookup t cs d i f Hf) as (n & Hn & ->). rewrite list_lookup_fmap, Hn in Hc. injection Hc as <-.
    eexists. split; [done|]. simpl. eauto.
  - intros w' st _ _. apply rows_from_total. intros j Hj. by apply note_of_total.
Qed.

Lemma spin_main_does : ∃ w, body env s = Some w ∧ calls w = main_calls s ∧
  deadlines false w = Some false ∧ Forall outcomes w.
Proof using Hs Henv Htsc Hdur.
  unfold body, main_calls. destruct durations as (d & -> & _ & Hd).
  match goal with |- context [for_each _ _ ?w0] =>
    destruct (for_each_does outcomes (run_section env s d) (λ cs, concat (count_calls s d cs <$> threadCounts)) sections) with (w := w0)
      as (e & -> & H1 & H2 & H3) end;
    [|by eexists; split; [done|]; rewrite calls_app, calls_said, H1; split; [done|]; split; [done|]; constructor].
  intros cs _. apply (seq_does outcomes (λ w, Some (w ++ [Said (heading cs)])) (for_each (run_count env s cs d) threadCounts) []).
  - by apply says_does.
  - apply (for_each_does outcomes (run_count env s cs d) (count_calls s d cs) threadCounts). intros t _. by apply spin_run_count_does.
Qed.

(** What a call needs. *)
Definition valid_call (c : call) : Prop :=
  r_name c ∈ all ∧ (0 < r_threads c <= 8)%nat ∧ Z.of_nat (r_threads c + 1) <= coreCount (s_cpus s) ∧ 0 < r_durNs c <= 10 ^ 15.

Lemma spin_main_calls_valid : Forall valid_call (main_calls s).
Proof using Hs Htsc Hdur.
  unfold main_calls. destruct durations as (d & -> & Hd & _). apply Forall_forall.
  intros c (cs & _ & (t & Ht & Hc)%in_concat_fmap)%in_concat_fmap. unfold count_calls in Hc.
  destruct (Z.ltb_spec (coreCount (s_cpus s)) (Z.of_nat (t + 1))); [by apply not_elem_of_nil in Hc|].
  apply in_rounds, list_elem_of_fmap in Hc as (q & -> & Hq).
  assert (0 < t <= 8)%nat.
  { clear -Ht. repeat (apply elem_of_cons in Ht as [->|Ht]; [lia|]). by apply not_elem_of_nil in Ht. }
  split_and!; simpl; done || lia.
Qed.

(** What the workers leave behind when all have left their loop. *)
Definition run_of (I : lock_impl) (cs : Z) (n : nat) (o : outcome) : Prop :=
  ∃ c, reachable (M := worker_machine cs) (worker_init (li_new I) n) c ∧ per_thread (w_thr c) = Some (o_per o) ∧
    counter (w_shared c) = o_counter o.

(** The template arguments of the competitors: [&runLock<AstraDefault>] and so on. *)
Context (args : list lock_impl) (Hargs : length args = length all ∧ Forall lock_sound args).

Definition env_runs : Prop :=
  ∀ w c I, (r_name c, I) ∈ zip all args → c ∈ main_calls s → run_of I (r_iters c) (r_threads c) (env w c).

Lemma run_of_check I cs n o : lock_sound I → run_of I cs n o → check_counter o = true.
Proof using.
  intros [Hwf Hf] (c & Hr & Hper & Hc). unfold check_counter.
  rewrite <- Hc, (counter_total cs (li_new I) n c (o_per o)) by done. apply Z.eqb_refl.
Qed.

(** C32. The spin-lock benchmark as a program.  Assume: at least one repetition and a
    frequency of the counter below 2^10 ticks per nanosecond; the duration of a run,
    [scaled(200, 10)] ms, is at most 10^9 ms, so that it does not overflow in
    nanoseconds; measured times are positive; every competitor is a lock, and the outcome
    of a call that returns is that of a finished execution ([env_runs]).  Then [main] has
    no undefined behaviour, notes on fairness included; it makes exactly the calls
    [main_calls], under deadlines that are closed again; no check fails, and it returns 0.
    The process ends with that status, or with status 3 after a deadline was over; while
    it runs, [main] can get to its end if its calls return; and if one does not return,
    the watchdog ends the process ([fate]). *)
Theorem spinlock_main_runs :
  env_runs → ∃ w, body env s = Some w ∧ calls w = main_calls s ∧ Forall valid_call (calls w) ∧
    deadlines false w = Some false ∧ (∀ c ok, Called c ok ∈ w → ok = true) ∧ finish (g_failures w) = 0 ∧
    ∀ t p, reachable (M := proc_machine) (λ p, main env s t = Some p) p → fate w p.
Proof using Hs Henv Htsc Hdur Hargs.
  intros Hruns. destruct spin_main_does as (w & H1 & H2 & H3 & H4). exists w. pose proof spin_main_calls_valid as Hv.
  assert (∀ c ok, Called c ok ∈ w → ok = true) as Hall.
  { intros c ok Hin. pose proof Hv as Hv'. rewrite Forall_forall in H4. rewrite Forall_forall in Hv'. destruct (H4 _ Hin) as [w' ->].
    apply called_in in Hin. rewrite H2 in Hin. destruct (Hv' _ Hin) as [[i Hi]%list_elem_of_lookup _].
    destruct Hargs as [Hlen Hsound]. destruct (lookup_lt_is_Some_2 args i) as [I HI]; [rewrite Hlen; by eapply lookup_lt_Some|].
    apply (run_of_check I (r_iters c) (r_threads c)); [by eapply (Forall_lookup_1 _ _ _ _ Hsound)|]. apply Hruns; [|done].
    apply list_elem_of_lookup. exists i. by rewrite lookup_zip_with, Hi; simpl; rewrite HI. }
  split_and!; [done|done|by rewrite H2|done|done|by apply finish_all|].
  unfold main. rewrite H1. intros t p. by apply process_fate.
Qed.
End Proofs.

(** ** Three cores, one repetition, the first worker gets the lock once *)

Definition ex_setup : setup := mkSetup (mkKnobs 20 1 1 false) [0; 1; 2] (of_u64 3).
Definition ex_outcomes (w : list (event call)) (c : call) : outcome :=
  mkOutcome 1000 (1 :: replicate (pred (r_threads c)) 0) 1 1.

Lemma spin_ex_setup_ok : setup_ok ex_setup.
Proof. split; [done|done|]. eexists _, _. split; [vm_compute; reflexivity|by vm_compute; split]. Qed.

Lemma ex_outcomes_ok w c : outcome_ok (ex_outcomes w c).
Proof. split; simpl; [lia| |lia]. constructor; [lia|]. apply Forall_replicate. lia. Qed.

(** The locks of the competitors, the benchmark's TTAS lock in the place of the spin
    lock of the C library. *)
#[local] Existing Instance TTAS.ttas_lock.
Definition ex_locks : list lock_impl := locks TTAS.create.

Lemma ex_locks_ok : length ex_locks = length all ∧ Forall lock_sound ex_locks.
Proof. split; [done|]. by apply locks_sound. Qed.

(** One round of worker 0, then all leave; [k] steps from [WGo] to the next test. *)
Definition one_round (n k : nat) : list wact := WGo 0 :: replicate k (WRun 0) ++ (WStop <$> List.seq 0 n).

Definition round_ends (I : lock_impl) (cs : Z) (n k : nat) : bool :=
  match run (M := worker_machine cs) (mkW (li_new I) shared_init (replicate n (WLoop 0))) (one_round n k) with
  | Some c => bool_decide (per_thread (w_thr c) = Some (1 :: replicate (pred n) 0)) && (counter (w_shared c) =? 1)
  | None => false
  end.

Lemma acquired_once I cs n o k :
  round_ends I cs n k = true → o_per o = 1 :: replicate (pred n) 0 → o_counter o = 1 → run_of I cs n o.
Proof.
  intros Hk Hper Hc. unfold round_ends in Hk. destruct (run _ _) as [c|] eqn:Er; [|done].
  apply andb_true_iff in Hk as [Hp%bool_decide_eq_true Hcnt%Z.eqb_eq]. exists c. split_and!; [|by rewrite Hper|by rewrite Hc].
  eapply run_reachable; [|exact Er]. by apply reach_init.
Qed.

(** Each of the locks, critical sections and numbers of threads of the example. *)
Lemma ex_rounds : Forall (λ I, Forall (λ cs, Forall (λ n, ∃ k, round_ends I cs n k = true) [1; 2]%nat) [0; 100]) ex_locks.
Proof.
  assert (∀ I cs n, existsb (round_ends I cs n) (List.seq 0 400) = true → ∃ k, round_ends I cs n k = true) as H.
  { intros I cs n (k & _ & Hk)%existsb_exists. by exists k. }
  repeat constructor; apply H; vm_compute; reflexivity.
Qed.

Lemma spin_ex_env_runs : env_runs ex_outcomes ex_setup ex_locks.
Proof.
  assert (Forall (λ c, r_threads c ∈ [1; 2]%nat ∧ r_iters c ∈ [0; 100]) (main_calls ex_setup)) as Hf.
  { apply (Forall_impl (λ c, bool_decide (r_threads c ∈ [1; 2]%nat) && bool_decide (r_iters c ∈ [0; 100]) = true)).
    - vm_compute. by repeat constructor.
    - intros c [H1 H2]%andb_true_iff. by split; eapply bool_decide_eq_true_1. }
  intros w c I HI Hin. rewrite Forall_forall in Hf. destruct (Hf _ Hin) as [Hn Hcs]. apply elem_of_zip_r in HI.
  pose proof ex_rounds as Hr. rewrite Forall_forall in Hr. specialize (Hr I HI). rewrite Forall_forall in Hr.
  specialize (Hr _ Hcs). rewrite Forall_forall in Hr. destruct (Hr _ Hn) as [k Hk]. by apply (acquired_once I _ _ _ k).
Qed.

Lemma spin_ex_setup_tsc : within (-10) 10 (s_tscPerNs ex_setup).
Proof. eexists _, _. split; [vm_compute; reflexivity|by vm_compute; split]. Qed.

Lemma ex_setup_dur n : scaled (s_knobs ex_setup) 200 10 = Some n → n <= 10 ^ 9.
Proof. intros [= <-]. by vm_compute. Qed.

Lemma spinlock_main_runs_witness : ∃ w, body ex_outcomes ex_setup = Some w ∧
  calls w = main_calls ex_setup ∧ length (main_calls ex_setup) = 40%nat ∧ finish (g_failures w) = 0 ∧
  ∀ t p, reachable (M := proc_machine) (λ p, main ex_outcomes ex_setup t = Some p) p → fate w p.
Proof.
  destruct (spinlock_main_runs ex_outcomes ex_setup spin_ex_setup_ok ex_outcomes_ok spin_ex_setup_tsc ex_setup_dur
    ex_locks ex_locks_ok spin_ex_env_runs) as (w & H1 & H2 & _ & _ & _ & H6 & H7).
  exists w. split; [exact H1|]. split; [exact H2|]. split; [reflexivity|]. split; [exact H6|exact H7].
Defined.

(** With a large [ASTRA_BENCH_MULT] the duration in nanoseconds overflows [int64_t]. *)
Example spinlock_duration_overflows :
  body ex_outcomes (mkSetup (mkKnobs 1 50000000000 7 false) [0; 1; 2] (of_u64 3)) = None.
Proof. by vm_compute. Qed.

(** The note of the second row leaves out the warm-up: with two workers, the call
    with 17 events before it is the warm-up, the one with 22 the sample. *)
Example spinlock_note :
  let o w (c : call) := mkOutcome 1000 [Z.of_nat (length w); 10] (Z.of_nat (length w) + 10) 0 in
  ∃ w, body o (mkSetup (mkKnobs 20 1 1 false) [0; 1; 2] (of_u64 3)) = Some w ∧ finish (g_failures w) = 0 ∧
    omap (λ e, match e with Table _ _ (_ :: StatLine _ _ _ _ n :: _) => Some n | _ => None end) w !! 1%nat =
      Some (Fairness (div (of_u64 10) (of_u64 22)) (of_u64 0)).
Proof. eexists. split; [vm_compute; reflexivity|]. by vm_compute. Qed.
End SpinlockMain.
