(* ===== verification/ThreadPoolMain.v ===== *)
(** * The thread-pool benchmark as a program

    Model of [competitors], [runWorkers] and [main] in
    [src/bench/ThreadPoolComparisonBench.cpp].  [burst] and [wakeLatency] are seen
    from outside: the first takes a number of nanoseconds and makes a check, the
    second takes two time stamps per sample; the theorems take them from executions of
    [ThreadPoolBench.v] and [WakeLatency.v] with the competitor's pool. *)

From Stdlib Require Import ZArith Lia Ascii String.
From S2P Require Import Prelude MachineInt Decimal Lts ThreadPool CondvarPool ThreadPoolBench.
From S2P Require Import Timer Double BenchHarness BenchStats BenchReport Printf WakeLatency.
From S2P Require Import BenchProcess.
Local Open Scope Z_scope.
Local Open Scope astra_scope.

Module ThreadPoolMain.

(** [competitors<W>()]: the names; the functions are instances for [W] workers. *)
Definition competitors : list text := [str "AstraLib ThreadPool"; str "BS::thread_pool"; str "condvar pool"].

(** [c.burst(N, heavy, c.name)] and [c.wake(samples)] for pools of [W] workers. *)
Inductive call :=
| Burst (name : text) (W : nat) (N : Z) (heavy : bool)
| Wake (name : text) (W : nat) (samples : Z).
Record outcome := mkOutcome { o_ns : Z; o_ok : bool; o_stamps : nat → Z * Z }.

Section Main.
Context (env : list (event call) → call → outcome) (s : setup).
Abbreviation log := (list (event call)).
Abbreviation g := (s_knobs s).

(** [burst<P>]: [double(N) * 1e3 / double(t1 - t0)]. *)
Definition burst (name : text) (W : nat) (N : Z) (heavy : bool) (w : log) : log * double :=
  let '(w', o) := perform env o_ok (Burst name W N heavy) w in (w', rate N (o_ns o)).

(** [wakeLatency<P>]; every sample waits for [uint64_t(200'000 * g_tscPerNs)] cycles. *)
Definition spin_200us : option Z := to_uint (mul (of_i64 200000) (s_tscPerNs s)).
Definition wake (name : text) (W : nat) (samples : Z) (w : log) : option (log * list double) :=
  let? _ := spin_200us in
  let '(w', o) := perform env (λ _, true) (Wake name W samples) w in
  let? r := latencies (s_tscPerNs s) (o_stamps o) samples in Some (w', r).

Definition title (W : nat) (heavy : bool) : text :=
  show (Z.of_nat W) ++ str " workers, " ++ str (if heavy then "~1 us" else "empty") ++ str " tasks".

(** The body of the loop over light and heavy tasks. *)
Definition run_tasks (W : nat) (heavy : bool) (w : log) : option log :=
  let? N := scaled g (if heavy then 100000 else 200000) 1000 in
  let fns := (λ c, burst c W N heavy) <$> competitors in
  let? r := interleaved_stats (g_reps g) fns (w ++ [Opened (title W heavy) 600]) in
  let rows := zip_with (λ c x, mkRow c (Plain []) (Some x)) competitors r.2 in
  Some (r.1 ++ [Table (title W heavy) (str "M task/s") (printTable true rows); Closed]).

Definition runWorkers (W : nat) (w : log) : option log :=
  if coreCount (s_cpus s) <? Z.of_nat (W + 2) then Some (w ++ [Said (skipped (show (Z.of_nat W) ++ str " workers") (Z.of_nat (W + 2)))])
  else for_each (run_tasks W) [false; true] w.

(** The body of the loop over the competitors of the second part. *)
Definition run_wake (samples : Z) (c : text) (w : log) : option log :=
  let? r1 := wake c 4 (samples / 10) (w ++ [Opened c 300]) in
  let? r2 := wake c 4 samples r1.1 in
  let? cols := latency_columns r2.2 (literal 50 2) (literal 90 2) (literal 99 2) in
  Some (r2.1 ++ [Latency c cols; Closed]).

Definition part2 (w : log) : option log :=
  if coreCount (s_cpus s) <? 4 + 2 then Some (w ++ [Said (skipped [] 6)])
  else let? samples := scaled g 2000 200 in
       for_each (run_wake samples) competitors (w ++ [Said (columns "p50" "p90" "p99")]).

(** [g_taskCycles = uint64_t(1000 * g_tscPerNs)] *)
Definition taskCycles : option Z := to_uint (mul (of_i64 1000) (s_tscPerNs s)).

(** What [main] does: the whole log. *)
Definition body : option log :=
  let? _ := taskCycles in
  let? w1 := for_each runWorkers [2; 4; 8]%nat
    [Said (printPreamble s (str "ThreadPool vs other thread pools  (submitter pinned; pool threads unpinned)")); Said (str "[1] Burst throughput, M tasks/s (higher is better)")] in
  part2 (w1 ++ [Said (str "[2] Wake latency, idle pool → task start in ns (lower is better), 4 workers")]).

(** The process: the watchdog is started at time [t], and [main] goes through its
    events and returns [finish()], unless the watchdog ends the process before. *)
Definition main (t : Z) : option (proc call) := let? w := body in Some (start t w).
End Main.

(** ** The calls that a run makes *)

Definition tasks_calls (s : setup) (W : nat) (heavy : bool) : list call :=
  match scaled (s_knobs s) (if heavy then 100000 else 200000) 1000 with
  | Some N => concat (replicate (S (Z.to_nat (g_reps (s_knobs s)))) ((λ c, Burst c W N heavy) <$> competitors))
  | None => []
  end.
Definition workers_calls (s : setup) (W : nat) : list call :=
  if coreCount (s_cpus s) <? Z.of_nat (W + 2) then [] else concat (tasks_calls s W <$> [false; true]).
Definition wake_calls (s : setup) : list call :=
  if coreCount (s_cpus s) <? 4 + 2 then []
  else match scaled (s_knobs s) 2000 200 with
       | Some n => concat ((λ c, [Wake c 4 (n / 10); Wake c 4 n]) <$> competitors)
       | None => []
       end.
Definition main_calls (s : setup) : list call := concat (workers_calls s <$> [2; 4; 8]%nat) ++ wake_calls s.

(** ** Theorems *)

Section Proofs.
Context (env : list (event call) → call → outcome) (s : setup) (Hs : setup_ok s).
Context (Hns : ∀ w c, 0 <= o_ns (env w c) < 2 ^ 63).
Context (Hmem : ∀ n, scaled (s_knobs s) 2000 200 = Some n → n <= 2 ^ 53).
(** The time stamp counter runs at less than 2^10 ticks per nanosecond. *)
Context (Htsc : within (-10) 10 (s_tscPerNs s)).

(** The outcome of a logged call is one that [env] gives. *)
Definition outcomes (e : event call) : Prop :=
  match e with
  | Called (Burst n W N h) ok => ∃ w, ok = o_ok (env w (Burst n W N h))
  | Called (Wake _ _ _) ok => ok = true
  | _ => True
  end.

Lemma cycles_defined n : 0 < n < 2 ^ 30 → is_Some (to_uint (mul (of_i64 n) (s_tscPerNs s))).
Proof using Htsc.
  intros Hn. unfold of_i64. fold (of_u64 n).
  pose proof (mul_within _ _ _ _ _ _ (of_u64_within 30 n Hn ltac:(lia)) Htsc ltac:(lia) ltac:(lia)) as Hm.
  destruct (to_uint_within _ _ _ Hm ltac:(lia)) as (v & -> & _). by eexists.
Qed.

Lemma run_tasks_does W heavy : does outcomes (run_tasks env s W heavy) (tasks_calls s W heavy).
Proof using Hs Hns.
  unfold run_tasks, tasks_calls.
  destruct (scaled_range (s_knobs s) (if heavy then 100000 else 200000) 1000 (so_scale s Hs) ltac:(lia)) as (N & -> & HN).
  intros w. refine (table_does outcomes (λ w, w) (λ w, w) (λ _, True) (g_reps (s_knobs s))
    ((λ c, burst env c W N heavy) <$> competitors) ((λ c, Burst c W N heavy) <$> competitors)
    (title W heavy) 600 (str "M task/s") (λ _ st, Some (zip_with (λ c x, mkRow c (Plain []) (Some x)) competitors st))
    (so_reps s Hs) _ _ _ _ I I (λ _, I) w).
  - done.
  - intros f w' (c & -> & _)%list_elem_of_fmap _. split; [done|]. unfold burst, perform. simpl. apply rate_number; [lia|apply Hns|lia].
  - apply Forall2_fmap_l, Forall2_fmap_r, Forall_Forall2_diag, Forall_forall. intros c _ w'. eexists. split; [done|]. simpl. eauto.
  - intros. by eexists.
Qed.

Lemma run_wake_does n c : scaled (s_knobs s) 2000 200 = Some n →
  does outcomes (run_wake env s n c) [Wake c 4 (n / 10); Wake c 4 n].
Proof using Hs Hmem Htsc.
  intros Hn w. pose proof (Hmem n Hn). destruct (scaled_range (s_knobs s) 2000 200 (so_scale s Hs) ltac:(lia)) as (n' & Hn' & Hb).
  assert (n' = n) as -> by congruence. unfold run_wake, wake, perform, spin_200us.
  destruct (cycles_defined 200000 ltac:(lia)) as [cyc ->]. assert (0 < n / 10) by (apply Z.div_str_pos; lia).
  edestruct latencies_spec as (r1 & -> & _); [apply (so_tsc s Hs)|done|]. cbn [fst].
  edestruct (latencies_spec (s_tscPerNs s)) as (r2 & -> & Hl); [apply (so_tsc s Hs)| |]; [lia|]. cbn [fst snd].
  destruct (latency_columns_spec r2 (literal 50 2) (literal 90 2) (literal 99 2)) as (a & b & c' & m & ->); [lia|apply percentages..|].
  eexists [Opened c 300; Called (Wake c 4 (n / 10)) true; Called (Wake c 4 n) true; Latency c [a; b; c'; m]; Closed].
  rewrite <- !app_assoc. split_and!; [done|done|done|]. by repeat constructor.
Qed.

Lemma tp_part2_does : does outcomes (part2 env s) (wake_calls s).
Proof using Hs Hmem Htsc.
  unfold part2, wake_calls. destruct (coreCount (s_cpus s) <? 4 + 2); [by apply says_does|].
  destruct (scaled_range (s_knobs s) 2000 200 (so_scale s Hs) ltac:(lia)) as (n & Hn & _). rewrite Hn.
  apply (seq_does outcomes (λ w, Some (w ++ [Said _])) (for_each (run_wake env s n) competitors) []); [by apply says_does|].
  apply (for_each_does outcomes (run_wake env s n) (λ c, [Wake c 4 (n / 10); Wake c 4 n])). intros c _. by apply run_wake_does.
Qed.

Lemma runWorkers_does W : does outcomes (runWorkers env s W) (workers_calls s W).
Proof using Hs Hns.
  unfold runWorkers, workers_calls. destruct (_ <? _); [by apply says_does|].
  apply (for_each_does outcomes (run_tasks env s W) (tasks_calls s W)). intros h _. apply run_tasks_does.
Qed.

(** What a call needs: the submitter, the workers and a dispatcher have a core each,
    and there is something to do. *)
Definition valid_call (c : call) : Prop :=
  match c with
  | Burst n W N _ => n ∈ competitors ∧ (0 < W)%nat ∧ Z.of_nat W + 2 <= coreCount (s_cpus s) ∧ 0 < N < 2 ^ 64
  | Wake n W samples => n ∈ competitors ∧ W = 4%nat ∧ 6 <= coreCount (s_cpus s) ∧ 0 < samples
  end.

Lemma tp_main_calls_valid : Forall valid_call (main_calls s).
Proof using Hs.
  apply Forall_app. split; apply Forall_forall; intros c Hc.
  - apply in_concat_fmap in Hc as (W & HW & Hc). unfold workers_calls in Hc.
    destruct (Z.ltb_spec (coreCount (s_cpus s)) (Z.of_nat (W + 2))); [by apply not_elem_of_nil in Hc|].
    apply in_concat_fmap in Hc as (heavy & _ & Hc). unfold tasks_calls in Hc.
    destruct (scaled_range (s_knobs s) (if heavy then 100000 else 200000) 1000 (so_scale s Hs) ltac:(lia)) as (N & EN & HN).
    rewrite EN in Hc. apply in_rounds, list_elem_of_fmap in Hc as (q & -> & Hq).
    assert (0 < W)%nat by (repeat (apply elem_of_cons in HW as [->|HW]; [lia|]); by apply not_elem_of_nil in HW).
    split_and!; done || lia.
  - unfold wake_calls in Hc. destruct (Z.ltb_spec (coreCount (s_cpus s)) (4 + 2)); [by apply not_elem_of_nil in Hc|].
    destruct (scaled_range (s_knobs s) 2000 200 (so_scale s Hs) ltac:(lia)) as (n & En & Hn). rewrite En in Hc.
    apply in_concat_fmap in Hc as (q & Hq & Hc). assert (0 < n / 10) by (apply Z.div_str_pos; lia).
    repeat (apply elem_of_cons in Hc as [->|Hc]; [split_and!; [done|done|lia|lia]|]). by apply not_elem_of_nil in Hc.
Qed.

Lemma tp_main_does : ∃ w, body env s = Some w ∧ calls w = main_calls s ∧
  deadlines false w = Some false ∧ Forall outcomes w.
Proof using Hs Hns Hmem Htsc.
  unfold body, taskCycles. destruct (cycles_defined 1000 ltac:(lia)) as [cyc ->].
  match goal with |- context [for_each _ _ ?w] =>
    destruct (for_each_does outcomes (runWorkers env s) (workers_calls s) [2; 4; 8]%nat (λ W _, runWorkers_does W) w)
      as (e1 & -> & H1 & H2 & H3) end.
  match goal with |- context [part2 env s ?w] => destruct (tp_part2_does w) as (e2 & -> & H4 & H5 & H6) end.
  eexists. split; [done|]. rewrite <- app_assoc. split_and!.
  - by rewrite !calls_app, calls_heading, calls_said, H1, H4.
  - by rewrite !deadlines_app; cbn [deadlines]; rewrite H2.
  - rewrite !Forall_app. split_and!; try done; by repeat constructor.
Qed.

(** The template arguments of the competitors for [W] workers: [AstraPool<W>] and so
    on, and what an outcome of [burst] is: the check at the end of an execution. *)
Context (args : nat → list TaskPool) (Hargs : ∀ W, W ∈ [2; 4; 8]%nat → length (args W) = length competitors).

Definition env_runs : Prop :=
  ∀ w n W N heavy (P : TaskPool), (n, P) ∈ zip competitors (args W) → Burst n W N heavy ∈ main_calls s →
    ∃ c, reachable (M := burst_machine (P := P) N) (λ c, c = ThreadPoolBench.burst) c ∧
      b_pc c = BDone (o_ok (env w (Burst n W N heavy))).

Lemma burst_workers n W N heavy : Burst n W N heavy ∈ main_calls s → W ∈ [2; 4; 8]%nat.
Proof using.
  intros [(W' & HW & Hc)%in_concat_fmap|Hc]%elem_of_app.
  - unfold workers_calls in Hc. destruct (_ <? _) in Hc; [by apply not_elem_of_nil in Hc|].
    apply in_concat_fmap in Hc as (h & _ & Hc). unfold tasks_calls in Hc.
    destruct (scaled _ _ _) in Hc; [|by apply not_elem_of_nil in Hc]. by apply in_rounds, list_elem_of_fmap in Hc as (q & [= -> -> -> ->] & _).
  - unfold wake_calls in Hc. destruct (_ <? _) in Hc; [by apply not_elem_of_nil in Hc|].
    destruct (scaled _ _ _) in Hc; [|by apply not_elem_of_nil in Hc]. apply in_concat_fmap in Hc as (q & _ & Hc).
    repeat (apply elem_of_cons in Hc as [[=]|Hc]). by apply not_elem_of_nil in Hc.
Qed.

(** C33. The thread-pool benchmark as a program.  Assume: at least one repetition and a
    frequency of the counter below 2^10 ticks per nanosecond; measured times are not
    negative, and the latency samples fit in memory; every competitor keeps the promises
    of [TaskPool], and the outcome of a call of [burst] that returns is that of a finished
    execution ([env_runs]; for [ThreadPool] this means executions that interleave its
    accesses to memory).  Then [main] has no undefined behaviour; it makes exactly the
    calls [main_calls], each with enough cores for the submitter, the workers and a
    dispatcher, under deadlines that are closed again; no accounting check fails, and it
    returns 0.  The process ends with that status, or with status 3 after a deadline was
    over; while it runs, [main] can get to its end if its calls return; and if one does
    not return, as after the wake-up that [ThreadPool] can lose on x86, the watchdog ends
    the process ([fate]). *)
Theorem thread_pool_main_runs :
  env_runs → ∃ w, body env s = Some w ∧ calls w = main_calls s ∧ Forall valid_call (calls w) ∧
    deadlines false w = Some false ∧ (∀ c ok, Called c ok ∈ w → ok = true) ∧ finish (g_failures w) = 0 ∧
    ∀ t p, reachable (M := proc_machine) (λ p, main env s t = Some p) p → fate w p.
Proof using Hs Hns Hmem Htsc Hargs.
  intros Henv. destruct tp_main_does as (w & H1 & H2 & H3 & H4). exists w. pose proof tp_main_calls_valid as Hv.
  assert (∀ c ok, Called c ok ∈ w → ok = true) as Hall.
  { intros c ok Hin. rewrite Forall_forall in H4. pose proof (H4 _ Hin) as Ho. destruct c as [n W N h|]; simpl in Ho; [|done].
    destruct Ho as [w' ->]. apply called_in in Hin. rewrite H2 in Hin.
    pose proof Hv as Hv'. rewrite Forall_forall in Hv'. destruct (Hv' _ Hin) as ([i Hi]%list_elem_of_lookup & _ & _ & HN).
    destruct (lookup_lt_is_Some_2 (args W) i) as [P HP];
      [rewrite (Hargs W (burst_workers _ _ _ _ Hin)); by eapply lookup_lt_Some|].
    destruct (Henv w' n W N h P) as (c & Hr & Hd); [|done|].
    { apply list_elem_of_lookup. exists i. by rewrite lookup_zip_with, Hi; simpl; rewrite HP. }
    pose proof (bench_reach N ltac:(lia) c Hr) as Hb. pose proof (bi_pc _ _ Hb) as Hok. unfold b_ok in Hok. by rewrite Hd in Hok. }
  split_and!; [done|done|by rewrite H2|done|done|by apply finish_all|].
  unfold main. rewrite H1. intros t p. by apply process_fate.
Qed.

(** What the second part reports: the samples are the times from the submission of a
    task to its start in a finished run of [wakeLatency], one for each task. *)
Lemma tp_latency_of_tasks w (P : TaskPool) n samples cyc c :
  spin_200us s = Some cyc → 0 < samples < 2 ^ 64 →
  reachable (M := WakeLatency.wake_machine (P := P) samples cyc) (λ c, c = WakeLatency.wake_init) c →
  WakeLatency.w_pc c = WakeLatency.WDone →
  (∀ k, (k < Z.to_nat samples)%nat → WakeLatency.w_out c !! k = Some (o_stamps (env w (Wake n 4 samples)) k)) →
  ∃ w' r, wake env s n 4 samples w = Some (w', r) ∧ WakeLatency.wakeLatency (s_tscPerNs s) c = Some r ∧
    Z.of_nat (length r) = samples.
Proof using Hs.
  intros Hcyc Hn Hr Hd Hst. pose proof (WakeLatency.wake_latencies samples cyc ltac:(lia) (s_tscPerNs s) c _ Hr Hd Hst) as Hres.
  destruct (latencies_spec (s_tscPerNs s) (o_stamps (env w (Wake n 4 samples))) samples (so_tsc s Hs) ltac:(lia)) as (r & Hl & Hlen).
  exists (w ++ [Called (Wake n 4 samples) true]), r. unfold wake, perform. rewrite Hcyc, Hl. split_and!; [done|by rewrite Hres|done].
Qed.
End Proofs.

(** ** Six cores, one repetition *)

Definition ex_setup : setup := mkSetup (mkKnobs 200 1 1 false) [0; 1; 2; 3; 4; 5] (of_u64 3).
Definition ex_outcomes (ok : bool) (w : list (event call)) (c : call) : outcome :=
  mkOutcome 5000 (ok || negb (length w =? 7)%nat) (λ k, (7, 7 + 30 * Z.of_nat k)).

Lemma tp_ex_setup_ok : setup_ok ex_setup.
Proof. split; [done|done|]. eexists _, _. split; [vm_compute; reflexivity|by vm_compute; split]. Qed.

Lemma tp_ex_outcomes_ns ok w c : 0 <= o_ns (ex_outcomes ok w c) < 2 ^ 63.
Proof. simpl. lia. Qed.

Lemma tp_ex_setup_mem n : scaled (s_knobs ex_setup) 2000 200 = Some n → n <= 2 ^ 53.
Proof. intros [= <-]. by vm_compute. Qed.

Lemma tp_ex_setup_tsc : within (-10) 10 (s_tscPerNs ex_setup).
Proof. eexists _, _. split; [vm_compute; reflexivity|by vm_compute; split]. Qed.

(** The pools of the competitors, the condition-variable pool in the place of
    [BS::thread_pool]. *)
Definition pools (thread_pool : nat → TaskPool) (W : nat) : list TaskPool :=
  match decide (Pool.count_ok W) with
  | left HW => [AstraPool W HW; BSPool thread_pool W; CVPool W HW]
  | right _ => []
  end.
Definition ex_thread_pool (W : nat) : TaskPool :=
  match decide (Pool.count_ok W) with left HW => CVPool W HW | right _ => CVPool 1 bench_one_worker end.

Lemma pools_length thread_pool W : W ∈ [2; 4; 8]%nat → length (pools thread_pool W) = length competitors.
Proof.
  intros HW. assert (Pool.count_ok W) as Hc.
  { unfold Pool.count_ok, INT_MAX. repeat (apply elem_of_cons in HW as [->|HW]; [lia|]). by apply not_elem_of_nil in HW. }
  unfold pools. by destruct (decide (Pool.count_ok W)).
Qed.

(** Every execution of [burst] can be completed, so there is one. *)
Lemma tp_ex_env_runs : env_runs (ex_outcomes true) ex_setup (pools ex_thread_pool).
Proof.
  intros w n W N heavy P _ Hin. pose proof (tp_main_calls_valid ex_setup tp_ex_setup_ok) as Hv. rewrite Forall_forall in Hv.
  destruct (Hv _ Hin) as (_ & _ & _ & HN).
  destruct (burst_finishes (P := P) N ltac:(lia) ThreadPoolBench.burst) as (σ & c & Hr & Hd); [by apply (bench_reach N ltac:(lia)), reach_init|].
  exists c. split; [|exact Hd]. by eapply (run_reachable (burst_machine (P := P) N)); [apply reach_init|exact Hr].
Qed.

Lemma thread_pool_main_runs_witness : ∃ w, body (ex_outcomes true) ex_setup = Some w ∧
  calls w = main_calls ex_setup ∧ length (main_calls ex_setup) = 30%nat ∧ finish (g_failures w) = 0 ∧
  ∀ t p, reachable (M := proc_machine) (λ p, main (ex_outcomes true) ex_setup t = Some p) p → fate w p.
Proof.
  destruct (thread_pool_main_runs (ex_outcomes true) ex_setup tp_ex_setup_ok (tp_ex_outcomes_ns true) tp_ex_setup_mem tp_ex_setup_tsc
    (pools ex_thread_pool) (pools_length ex_thread_pool) tp_ex_env_runs) as (w & H1 & H2 & _ & _ & _ & H6 & H7).
  exists w. split; [exact H1|]. split; [exact H2|]. split; [reflexivity|]. split; [exact H6|exact H7].
Defined.

(** One failed check makes the exit status 1; the columns of a latency row. *)
Example thread_pool_one_failure : ∃ w, body (ex_outcomes false) ex_setup = Some w ∧
  finish (g_failures w) = 1 ∧ all_passed w = false ∧
  last (omap (λ e, match e with Latency n cols => Some (n, cols) | _ => None end) w) =
    Some (str "condvar pool", of_u64 <$> [1000; 1790; 1970; 1990]).
Proof. eexists. split; [vm_compute; reflexivity|]. by vm_compute. Qed.
End ThreadPoolMain.
