(* ===== verification/PoolTSO.v ===== *)
(** * The dispatcher's gate under x86-TSO

    [ThreadPool.v] interleaves the accesses to memory.  The headers are written
    for x86, whose processors delay stores: a store enters the store buffer of
    its thread and reaches memory later; a load looks in the own buffer first; a
    locked instruction waits until the own buffer is empty, and so does a system
    call on a futex, which takes a lock in the kernel.

    This file models the protocol between [assignTask], the destructor and the gate
    of [taskDispatcher] in [src/include/AstraLib/Threading/ThreadPool.hpp] at that
    level: [while (running)], [taskGate.waiter()], the loop while there are tasks,
    [taskGate.reset()], the second [isEmpty()], [signaler()], and in the destructor
    [running = false], [taskGate.signaler()] and [join].  The queue is
    the number of unread tickets: [enqueue] and [dequeue] begin with a locked
    [fetch_add], [isEmpty] is a plain load; handing a task to a worker does not
    touch the gate and is one step.  [running] is a plain [bool]: it is read and
    written by plain loads and stores, once per evaluation in the source.

    The store of [reset()] can be delayed past the loads after it.  [tso_lost_wakeup]
    and [tso_destructor_hangs] show the two consequences, [tso_delayed_reset] that
    there is no other cause. *)

From Stdlib Require Import ZArith Lia.
From S2P Require Import Prelude Lts.
Local Open Scope Z_scope.
Local Open Scope astra_scope.

Module PoolTSO.

(** The dispatcher: the test of the outer loop, the load and the system call of
    [waiter], blocked in it, the two conditions of the inner loop, [dequeue] and the
    hand-over, the [isEmpty] after the loop, [reset], the second [isEmpty], the store
    and the system call of its own [signaler]. *)
Inductive dpc :=
| DLoop
| DLoad
| DCall
| DAsleep
| DRunning
| DInner
| DDequeue
| DOuter
| DReset
| DRecheck
| DSelfStore
| DSelfWake
| DReturned.

(** A client in [assignTask]: outside, before the store of [signaler()], before
    its system call. *)
Inductive apc := AIdle | AStore | AWake.

(** The destructor: not called, before the store and before the system call of
    [signaler()], in [join()], and returned. *)
Inductive tpc := TAlive | TStore | TWake | TJoin | TDone.

(** A buffered store: to the flag, or [running = false]. *)
Inductive write := WFlag (x : Z) | WStop.

(** The flag and [running] in memory, the unread tickets, the store buffers (oldest
    store first; dispatcher and clients store to the flag only), whether the
    dispatcher is blocked in the kernel, and the tasks handed over. *)
Record cfg := mkCfg {
  flag : Z;
  running : bool;
  queue : nat;
  d_buf : list Z;
  d_pc : dpc;
  asleep : bool;
  clients : list (apc * list Z);
  t_pc : tpc;
  t_buf : list write;
  handed : nat;
}.

Inductive act :=
| Dispatcher
| FlushD
| Assign (a : nat)
| Client (a : nat)
| FlushA (a : nat)
| Destructor
| FlushT
| Interrupt.

(** A load of the flag by the dispatcher sees its own latest store. *)
Definition load (c : cfg) : Z := default (flag c) (last (d_buf c)).

Definition with_d (c : cfg) (p : dpc) : cfg :=
  mkCfg (flag c) (running c) (queue c) (d_buf c) p (asleep c) (clients c) (t_pc c) (t_buf c) (handed c).
Definition store_d (c : cfg) (x : Z) (p : dpc) : cfg :=
  mkCfg (flag c) (running c) (queue c) (d_buf c ++ [x]) p (asleep c) (clients c) (t_pc c) (t_buf c) (handed c).
Definition with_asleep (c : cfg) (w : bool) : cfg :=
  mkCfg (flag c) (running c) (queue c) (d_buf c) (d_pc c) w (clients c) (t_pc c) (t_buf c) (handed c).

(** The own buffer is empty. *)
Definition drained {A} (buf : list A) : bool := match buf with [] => true | _ => false end.

Definition dispatcher (c : cfg) : option cfg :=
  match d_pc c with
  | DLoop => Some (with_d c (if running c then DLoad else DReturned))
  | DLoad => Some (with_d c (if load c =? 1 then DRunning else DCall))
  | DCall =>
      if drained (d_buf c)
      then if flag c =? 0 then Some (with_asleep (with_d c DAsleep) true) else Some (with_d c DLoad)
      else None
  | DAsleep => if asleep c then None else Some (with_d c DLoad)
  | DRunning => Some (with_d c (if running c then DInner else DOuter))
  | DInner => Some (with_d c (match queue c with O => DOuter | S _ => DDequeue end))
  | DDequeue =>
      if drained (d_buf c)
      then match queue c with
           | S q => Some (mkCfg (flag c) (running c) q (d_buf c) DRunning (asleep c) (clients c) (t_pc c) (t_buf c)
                                (S (handed c)))
           | O => None
           end
      else None
  | DOuter => Some (with_d c (match queue c with O => DReset | S _ => DLoop end))
  | DReset => Some (store_d c 0 DRecheck)
  | DRecheck => Some (with_d c (match queue c with O => DLoop | S _ => DSelfStore end))
  | DSelfStore => Some (store_d c 1 DSelfWake)
  | DSelfWake => if drained (d_buf c) then Some (with_asleep (with_d c DLoop) false) else None
  | DReturned => None
  end.

Definition set_client (c : cfg) (a : nat) (x : apc * list Z) (w : bool) (q : nat) : cfg :=
  mkCfg (flag c) (running c) q (d_buf c) (d_pc c) w (<[a := x]> (clients c)) (t_pc c) (t_buf c) (handed c).

Definition with_t (c : cfg) (p : tpc) (b : list write) : cfg :=
  mkCfg (flag c) (running c) (queue c) (d_buf c) (d_pc c) (asleep c) (clients c) p b (handed c).

(** [~ThreadPool]. *)
Definition destructor (c : cfg) : option cfg :=
  match t_pc c with
  | TAlive => Some (with_t c TStore (t_buf c ++ [WStop]))
  | TStore => Some (with_t c TWake (t_buf c ++ [WFlag 1]))
  | TWake => if drained (t_buf c) then Some (with_asleep (with_t c TJoin (t_buf c)) false) else None
  | TJoin => match d_pc c with DReturned => Some (with_t c TDone (t_buf c)) | _ => None end
  | TDone => None
  end.

(** The oldest store of the destructor reaches memory. *)
Definition flush_t (c : cfg) : option cfg :=
  match t_buf c with
  | WFlag x :: b => Some (mkCfg x (running c) (queue c) (d_buf c) (d_pc c) (asleep c) (clients c) (t_pc c) b (handed c))
  | WStop :: b => Some (mkCfg (flag c) false (queue c) (d_buf c) (d_pc c) (asleep c) (clients c) (t_pc c) b (handed c))
  | [] => None
  end.

Definition exec (c : cfg) (x : act) : option cfg :=
  match x with
  | Dispatcher => dispatcher c
  | FlushD =>
      match d_buf c with
      | v :: b => Some (mkCfg v (running c) (queue c) b (d_pc c) (asleep c) (clients c) (t_pc c) (t_buf c) (handed c))
      | [] => None
      end
  | Assign a =>
      match clients c !! a with
      | Some (AIdle, b) => if drained b then Some (set_client c a (AStore, b) (asleep c) (S (queue c))) else None
      | _ => None
      end
  | Client a =>
      match clients c !! a with
      | Some (AStore, b) => Some (set_client c a (AWake, b ++ [1]) (asleep c) (queue c))
      | Some (AWake, b) => if drained b then Some (set_client c a (AIdle, b) false (queue c)) else None
      | _ => None
      end
  | FlushA a =>
      match clients c !! a with
      | Some (p, v :: b) =>
          Some (mkCfg v (running c) (queue c) (d_buf c) (d_pc c) (asleep c) (<[a := (p, b)]> (clients c)) (t_pc c)
                      (t_buf c) (handed c))
      | _ => None
      end
  | Destructor => destructor c
  | FlushT => flush_t c
  | Interrupt => Some (with_asleep c false)
  end.

Definition tso_machine : machine := Machine cfg act exec.

Definition init (n : nat) : cfg := mkCfg 0 true 0 [] DLoop false (replicate n (AIdle, [])) TAlive [] 0.

(** No call of [assignTask] is under way, and the dispatcher sleeps. *)
Definition quiet (c : cfg) : Prop :=
  d_pc c = DAsleep ∧ asleep c = true ∧ d_buf c = [] ∧ Forall (λ x, x = (AIdle, [])) (clients c).

(** A wake-up was lost: a task is in the queue, all calls of [assignTask] have
    returned, every store has reached memory, the dispatcher sleeps, and the
    destructor has not been called. *)
Definition lost (c : cfg) : Prop := (0 < queue c)%nat ∧ quiet c ∧ t_pc c = TAlive.

(** The destructor waits in [join()] for a dispatcher that sleeps. *)
Definition hung (c : cfg) : Prop := t_pc c = TJoin ∧ t_buf c = [] ∧ quiet c.

(** No further call of [assignTask]. *)
Definition no_assign (σ : list act) : Prop := ∀ a, Assign a ∉ σ.

Lemma no_assign_cons x σ : no_assign (x :: σ) → (∀ a, x ≠ Assign a) ∧ no_assign σ.
Proof. intros H. split; [intros a ->|intros a]; specialize (H a); rewrite elem_of_cons in H; naive_solver. Qed.

(** A property that every step but a call of [assignTask] preserves. *)
Lemma run_no_assign (P : cfg → Prop) c σ c' :
  (∀ c x c', P c → (∀ a, x ≠ Assign a) → exec c x = Some c' → P c') →
  P c → run (M := tso_machine) c σ = Some c' → no_assign σ → P c'.
Proof.
  intros Hs. revert c. induction σ as [|x σ IH]; intros c Hc Hr Hn; simpl in Hr; [by simplify_eq|].
  apply no_assign_cons in Hn as [Hx Hn]. destruct (exec c x) as [c1|] eqn:E; [|done]. eauto.
Qed.

(** Clients that are outside [assignTask] do nothing but call it. *)
Lemma idle_clients c x c' a :
  Forall (λ x, x = (AIdle, [])) (clients c) → x = Client a ∨ x = FlushA a → exec c x = Some c' → False.
Proof.
  intros Hc [-> | ->] He; simpl in He; destruct (clients c !! a) as [y|] eqn:E; try done;
    by rewrite (Forall_lookup_1 _ _ _ _ Hc E) in He.
Qed.

(** The dispatcher does not reach [dequeue]: it is awake only to find the flag 0, or
    [running] false. *)
Definition starved (q h : nat) (c : cfg) : Prop :=
  queue c = q ∧ handed c = h ∧ (0 < q)%nat ∧ d_buf c = [] ∧ Forall (λ x, x = (AIdle, [])) (clients c) ∧
  ((running c = true ∧ flag c = 0 ∧ (d_pc c = DAsleep ∨ d_pc c = DLoad ∨ d_pc c = DCall) ∧
    (t_pc c = TAlive ∧ t_buf c = [] ∨ t_pc c = TStore ∧ t_buf c = [WStop] ∨ t_pc c = TWake ∧ t_buf c = [WStop; WFlag 1])) ∨
   (running c = false ∧ d_pc c ≠ DInner ∧ d_pc c ≠ DDequeue ∧ d_pc c ≠ DReset ∧ d_pc c ≠ DRecheck ∧
    d_pc c ≠ DSelfStore ∧ d_pc c ≠ DSelfWake ∧ t_pc c ≠ TAlive ∧ WStop ∉ t_buf c)).

Lemma starved_exec q h c x c' :
  starved q h c → (∀ a, x ≠ Assign a) → exec c x = Some c' → starved q h c'.
Proof.
  intros (Hq & Hh & Hpos & Hb & Hc & Hd) Hx He. destruct x as [| |a|a|a| | |]; simpl in He.
  - unfold dispatcher, load in He. rewrite Hb in He. simpl in He.
    destruct Hd as [(Hr & Hf & Hp & Ht)|(Hr & Hp)].
    + destruct Hp as [Hp|[Hp|Hp]]; rewrite Hp, ?Hf in He; simpl in He.
      * destruct (asleep c); [done|]. injection He as <-. split_and!; try done. left. split_and!; auto.
      * injection He as <-. split_and!; try done. left. split_and!; auto.
      * injection He as <-. split_and!; try done. left. split_and!; auto.
    + destruct Hp as (H1 & H2 & H3 & H4 & H5 & H6 & H7 & H8).
      destruct (d_pc c) eqn:Hp; try done; rewrite ?Hr in He; repeat case_match; simplify_eq;
        split_and!; try done; right; split_and!; try done; lia.
  - by rewrite Hb in He.
  - by destruct (Hx a).
  - exfalso. apply (idle_clients c (Client a) c' a); auto.
  - exfalso. apply (idle_clients c (FlushA a) c' a); auto.
  - unfold destructor in He. destruct Hd as [(Hr & Hf & Hp & Ht)|(Hr & H1 & H2 & H3 & H4 & H5 & H6 & H7 & H8)].
    + destruct Ht as [[Ht E]|[[Ht E]|[Ht E]]]; rewrite Ht, E in He; simplify_eq; split_and!; try done; left; split_and!; auto.
    + destruct (t_pc c) eqn:Et; try done.
      * injection He as <-. split_and!; try done. right. split_and!; try done. simpl. intros [|Hin]%elem_of_app; [done|].
        by apply list_elem_of_singleton in Hin.
      * destruct (drained (t_buf c)); [|done]. injection He as <-. by split_and!; try done; right; split_and!.
      * destruct (d_pc c) eqn:Hp; try done. injection He as <-. split_and!; try done; right; split_and!; try done;
          simpl; by rewrite Hp.
  - unfold flush_t in He. destruct Hd as [(Hr & Hf & Hp & Ht)|(Hr & H1 & H2 & H3 & H4 & H5 & H6 & H7 & H8)].
    + destruct Ht as [[Ht E]|[[Ht E]|[Ht E]]]; rewrite E in He; simplify_eq; split_and!; try done; right; split_and!;
        simpl; try done; try (destruct Hp as [->|[->| ->]]; done); try (by rewrite Ht); rewrite ?elem_of_cons, ?elem_of_nil; intuition done.
    + destruct (t_buf c) as [|[v|] b] eqn:Eb; simplify_eq; split_and!; try done; right; split_and!; simpl; try done;
        intros ?; apply H8; by apply elem_of_cons; auto.
  - injection He as <-. by split_and!.
Qed.

(** The dispatcher is about to sleep or asleep, the flag is 0, and the destructor has
    made its last call. *)
Definition joining (c : cfg) : Prop :=
  flag c = 0 ∧ t_pc c = TJoin ∧ t_buf c = [] ∧ d_buf c = [] ∧ Forall (λ x, x = (AIdle, [])) (clients c) ∧
  (d_pc c = DAsleep ∨ d_pc c = DLoad ∨ d_pc c = DCall).

Lemma joining_exec c x c' : joining c → (∀ a, x ≠ Assign a) → exec c x = Some c' → joining c'.
Proof.
  intros (Hf & Ht & Htb & Hb & Hc & Hp) Hx He. destruct x as [| |a|a|a| | |]; simpl in He.
  - unfold dispatcher, load in He. rewrite Hb in He.
    destruct Hp as [Hp|[Hp|Hp]]; rewrite Hp in He; simpl in He; rewrite ?Hf in He; repeat case_match; simplify_eq;
      split_and!; simpl; auto.
  - by rewrite Hb in He.
  - by destruct (Hx a).
  - exfalso. apply (idle_clients c (Client a) c' a); auto.
  - exfalso. apply (idle_clients c (FlushA a) c' a); auto.
  - unfold destructor in He. rewrite Ht in He. by destruct Hp as [Hp|[Hp|Hp]]; rewrite Hp in He.
  - unfold flush_t in He. by rewrite Htb in He.
  - injection He as <-. by split_and!.
Qed.

(** The first schedule: after the first task the dispatcher's [flag = 0] is still in
    its store buffer when the second [isEmpty()] reads an empty queue; a client
    enqueues, stores 1 and wakes nobody; then the delayed 0 overwrites the 1, and
    the dispatcher, which reads its own store, goes to sleep. *)
Definition lost_sched : list act :=
  [Assign 0; Client 0; FlushA 0; Client 0] ++ replicate 10 Dispatcher ++
  [Assign 0; Client 0; FlushA 0; Client 0; FlushD] ++ replicate 3 Dispatcher.

(** The second: the dispatcher has read [running] once more before the delayed 0
    overwrites the 1 of the destructor. *)
Definition hung_sched : list act :=
  [Assign 0; Client 0; FlushA 0; Client 0] ++ replicate 11 Dispatcher ++
  [Destructor; Destructor; FlushT; FlushT; FlushD; Destructor] ++ replicate 2 Dispatcher.

(** C8. A wake-up can be lost on x86: [taskGate.reset()] is a plain store and the
    [isEmpty()] after it two plain loads, so the store may reach memory after the
    loads; with one client there is an execution after which a submitted task
    stays in the queue while the dispatcher sleeps.  The next step can only be
    another call of [assignTask], the destructor or an interrupted system call, and
    whatever happens without another call of [assignTask], the task is never handed
    to a worker. *)
Theorem tso_lost_wakeup :
  ∃ σ c, run (M := tso_machine) (init 1) σ = Some c ∧ lost c ∧ handed c = 1%nat ∧
    (∀ x c', exec c x = Some c' → x = Interrupt ∨ x = Destructor ∨ ∃ a, x = Assign a) ∧
    ∀ σ' c', run (M := tso_machine) c σ' = Some c' → no_assign σ' → queue c' = queue c ∧ handed c' = handed c.
Proof.
  eexists lost_sched, (mkCfg 0 true 1 [] DAsleep true [(AIdle, [])] TAlive [] 1).
  assert (Forall (λ x : apc * list Z, x = (AIdle, [])) [(AIdle, [])]) as Hc by by repeat constructor.
  split; [by vm_compute|]. split; [by split; [simpl; lia|]|]. split_and!; try done.
  - intros x c' He. destruct x as [| |a|a|a| | |]; eauto; try done; exfalso.
    + by apply (idle_clients _ (Client a) c' a) in He; [|exact Hc|left].
    + by apply (idle_clients _ (FlushA a) c' a) in He; [|exact Hc|right].
  - intros σ' c' Hr Hn. apply (run_no_assign (starved 1 1)) in Hr as (Hq & Hh & _); try done; [apply starved_exec|].
    split_and!; try done; [lia|]. left. split_and!; auto.
Qed.

(** C9. The destructor can hang on x86: [taskGate.reset()] is a plain store and the
    loads of [isEmpty()] and [running] after it may be made before it reaches memory;
    then the 0 overwrites the 1 of the destructor's [signaler()].  With one client
    there is an execution after which every task has been handed to a worker and all
    calls of [assignTask] have returned, the dispatcher sleeps and [~ThreadPool] waits
    for it in [join()]; without another call of [assignTask] on the pool that is being
    destroyed, neither ever returns, interrupted system calls or not. *)
Theorem tso_destructor_hangs :
  ∃ σ c, run (M := tso_machine) (init 1) σ = Some c ∧ hung c ∧ queue c = 0%nat ∧ handed c = 1%nat ∧
    ∀ σ' c', run (M := tso_machine) c σ' = Some c' → no_assign σ' → t_pc c' = TJoin ∧ d_pc c' ≠ DReturned.
Proof.
  eexists hung_sched, (mkCfg 0 false 0 [] DAsleep true [(AIdle, [])] TJoin [] 1).
  assert (Forall (λ x : apc * list Z, x = (AIdle, [])) [(AIdle, [])]) as Hc by by repeat constructor.
  split; [by vm_compute|]. split_and!; try done.
  intros σ' c' Hr Hn. apply (run_no_assign joining) in Hr as (_ & Ht & _ & _ & _ & Hp); try done; [|apply joining_exec|].
  - split; [done|]. by destruct Hp as [->|[->| ->]].
  - split_and!; auto.
Qed.

(** ** The cause

    A step of the dispatcher that reads the queue again while the 0 of [reset()] is
    still in its store buffer. *)
Definition late (c : cfg) (x : act) : Prop := x = Dispatcher ∧ d_pc c = DRecheck ∧ d_buf c ≠ [].

(** Some thread has yet to have its 1 in memory: a client, or the destructor after
    [running = false]. *)
Definition unsignalled (c : cfg) : Prop :=
  ∃ a b, clients c !! a = Some (AStore, b) ∨ clients c !! a = Some (AWake, 1 :: b).
Definition stopping (c : cfg) : Prop := t_pc c = TStore ∨ t_buf c = [WFlag 1].

(** Some thread has yet to make the system call that wakes the dispatcher. *)
Definition waking (c : cfg) : Prop := t_pc c = TWake ∨ ∃ a b, clients c !! a = Some (AWake, b).

(** Where the flag in memory is 1; before and in the system call; and outside the
    loop over the tasks. *)
Definition open_at (p : dpc) : bool :=
  match p with DRunning | DInner | DDequeue | DOuter | DReset => true | _ => false end.
Definition wait_at (p : dpc) : bool := match p with DLoad | DCall | DAsleep => true | _ => false end.
Definition outer_at (p : dpc) : bool := match p with DLoop => true | _ => wait_at p end.

(** The states of the destructor, its buffer and [running]. *)
Definition t_state (p : tpc) (b : list write) (r : bool) : bool :=
  match p, b, r with
  | TAlive, [], true | TStore, [WStop], true | TStore, [], false
  | TWake, [WStop; WFlag 1], true | TWake, [WFlag 1], false | TWake, [], false
  | TJoin, [], false | TDone, [], false => true
  | _, _, _ => false
  end.

Record tinv (c : cfg) : Prop := {
  ti_buf : d_buf c = [] ∨ (d_pc c = DRecheck ∧ d_buf c = [0]) ∨ (d_pc c = DSelfWake ∧ d_buf c = [1]);
  ti_flag : flag c = 0 ∨ flag c = 1;
  ti_client : ∀ a p b, clients c !! a = Some (p, b) → b = [] ∨ (p = AWake ∧ b = [1]);
  ti_open : open_at (d_pc c) = true → flag c = 1;
  ti_self : d_pc c = DSelfWake → d_buf c = [] → flag c = 1;
  ti_outer : outer_at (d_pc c) = true → (0 < queue c)%nat → flag c = 1 ∨ unsignalled c;
  ti_stop : wait_at (d_pc c) = true → running c = false → flag c = 1 ∨ stopping c;
  ti_asleep : asleep c = true → d_pc c = DAsleep;
  ti_wake : asleep c = true → flag c = 1 → waking c;
  ti_t : t_state (t_pc c) (t_buf c) (running c) = true;
}.

Lemma tinv_init n : tinv (init n).
Proof.
  split; simpl; try done; try (by left); [|lia].
  intros a p b [[= -> ->] _]%lookup_replicate. by left.
Qed.

(** The dispatcher, awake and with an empty buffer, moves on to [p]. *)
Lemma tinv_move c p q h :
  tinv c → d_buf c = [] → (d_pc c = DAsleep → asleep c = false) → (open_at p = true ∨ p = DSelfWake → flag c = 1) →
  (outer_at p = true → (0 < q)%nat → flag c = 1 ∨ unsignalled c) →
  (wait_at p = true → running c = false → flag c = 1 ∨ stopping c) →
  tinv (mkCfg (flag c) (running c) q (d_buf c) p (asleep c) (clients c) (t_pc c) (t_buf c) h).
Proof.
  intros [Hb Hf Hc Ho Hs Hq Hst Ha Hw Ht] Hnil Haw Hop Hout Hstop.
  assert (asleep c = false) as Hna by (destruct (asleep c); [|done]; by rewrite Haw in * by by apply Ha).
  split; simpl; rewrite ?Hna; auto; done.
Qed.

(** The dispatcher stores into its empty buffer. *)
Lemma tinv_store c p x :
  tinv c → d_buf c = [] → d_pc c ≠ DAsleep → (p = DRecheck ∧ x = 0) ∨ (p = DSelfWake ∧ x = 1) → tinv (store_d c x p).
Proof.
  intros [Hb Hf Hc Ho Hs Hq Hst Ha Hw Ht] Hnil Hd Hp.
  assert (asleep c = false) as Hna by (destruct (asleep c); [|done]; by specialize (Ha eq_refl)).
  split; simpl; rewrite ?Hna, ?Hnil; auto; destruct Hp as [[-> ->]|[-> ->]]; simpl; auto; done.
Qed.

Ltac tso_move :=
  apply tinv_move; try done; try (intros; congruence); try (by intros [|]); try (by simpl; intros; lia); auto.

Lemma tinv_dispatcher c c' : tinv c → ¬ late c Dispatcher → dispatcher c = Some c' → tinv c'.
Proof.
  intros Hi Hl He. unfold dispatcher in He.
  assert (∀ p, p ≠ DSelfWake → d_pc c = p → d_buf c = []) as Hnil.
  { intros p H2 Hp. pose proof (ti_buf _ Hi) as Hb. destruct Hb as [?|[[Hd Hb]|[? _]]]; [done| |congruence].
    destruct Hl. split_and!; [done|done|by rewrite Hb]. }
  pose proof (ti_outer _ Hi) as Hout. pose proof (ti_open _ Hi) as Hop. pose proof (ti_self _ Hi) as Hself.
  pose proof (ti_stop _ Hi) as Hst.
  destruct (d_pc c) eqn:Hp; simpl in Hout, Hop, Hst; try (assert (d_buf c = []) as Hb by (refine (Hnil _ _ eq_refl); done)).
  - injection He as <-. destruct (running c) eqn:Er; tso_move.
  - injection He as <-. unfold load. rewrite Hb. simpl. destruct (Z.eqb_spec (flag c) 1); tso_move.
  - rewrite Hb in He. simpl in He. destruct (Z.eqb_spec (flag c) 0); injection He as <-; [|tso_move].
    destruct Hi as [H1 H2 H3 H4 H5 H6 H7 H8 H9 H10]. rewrite Hp in H6, H7. split; simpl; auto; try done. intros _ ?. lia.
  - destruct (asleep c) eqn:Ha; [done|]. injection He as <-. tso_move.
  - injection He as <-. destruct (running c) eqn:Er; tso_move.
  - injection He as <-. destruct (queue c) eqn:Eq; tso_move.
  - rewrite Hb in He. simpl in He. destruct (queue c) eqn:Eq; [done|]. injection He as <-. rewrite <- Hb. tso_move.
  - injection He as <-. destruct (queue c) eqn:Eq; tso_move.
  - injection He as <-. apply tinv_store; auto. congruence.
  - injection He as <-. destruct (queue c) eqn:Eq; tso_move.
  - injection He as <-. apply tinv_store; auto. congruence.
  - destruct (d_buf c) as [|x b] eqn:Eb; simpl in He; [|done]. injection He as <-.
    destruct Hi as [H1 H2 H3 H4 H5 H6 H7 H8 H9 H10]. split; simpl; auto; done.
  - done.
Qed.

(** A client moves on. *)
Lemma unsignalled_insert c a x w q :
  unsignalled c → (∀ b', clients c !! a ≠ Some (AStore, b')) → (∀ b', clients c !! a ≠ Some (AWake, 1 :: b')) →
  unsignalled (set_client c a x w q).
Proof.
  intros (j & b' & Hj) H1 H2. exists j, b'. simpl.
  rewrite list_lookup_insert_ne; [done|]. intros ->. destruct Hj; [by eapply H1|by eapply H2].
Qed.

Lemma tinv_client c a p p' b b' w q :
  tinv c → clients c !! a = Some (p, b) → (w = true → asleep c = true) → (b' = [] ∨ (p' = AWake ∧ b' = [1])) →
  ((0 < q)%nat → flag c = 1 ∨ unsignalled (set_client c a (p', b') w q) ∨ outer_at (d_pc c) = false) →
  (w = true → p ≠ AWake ∨ p' = AWake) →
  tinv (set_client c a (p', b') w q).
Proof.
  intros [H1 H2 H3 H4 H5 H6 H7 H8 H9 H10] Ha Hw Hb Hq Hwk. split; simpl; auto.
  - intros j x y [(<-&[= <- <-]&_)|(_&Hj)]%lookup_insert_cases; eauto.
  - intros Ho Hq'. destruct (Hq Hq') as [?|[?|?]]; [by left|by right|congruence].
  - intros Hwt Hf. destruct (H9 (Hw Hwt) Hf) as [Ht|(j & y & Hj)]; [by left|right]. destruct (decide (a = j)) as [<-|].
    + destruct (Hwk Hwt) as [Hne| ->]; [congruence|]. exists a, b'. apply list_lookup_insert_eq. by eapply lookup_lt_Some.
    + exists j, y. simpl. by rewrite list_lookup_insert_ne.
Qed.

(** The destructor moves on. *)
Lemma tinv_destructor c c' : tinv c → destructor c = Some c' → tinv c'.
Proof.
  intros [H1 H2 H3 H4 H5 H6 H7 H8 H9 H10] He. unfold destructor, stopping, waking in *.
  destruct (t_pc c) eqn:Et; simpl in H10; try done.
  - injection He as <-. destruct (t_buf c); [|done]. destruct (running c) eqn:Er; [|done].
    split; simpl; auto; try (by intros ? ?; congruence); [|by rewrite Er].
    intros Ha Hf. right. by destruct (H9 Ha Hf) as [|].
  - injection He as <-. split; simpl; auto; unfold stopping, waking; simpl; auto.
    + intros Hp Hr. right. right. rewrite Hr in H10. by destruct (t_buf c) as [|[] []].
    + by destruct (t_buf c) as [|[] []], (running c).
  - destruct (t_buf c) eqn:Eb; simpl in He; [|done]. injection He as <-. split; simpl; auto; try done; unfold stopping; simpl.
    intros Hp Hr. destruct (H7 Hp Hr) as [|[|]]; [by left|done..].
  - destruct (d_pc c) eqn:Hp; try done. injection He as <-.
    split; simpl; rewrite ?Hp; auto; try done; unfold waking; simpl.
    intros Ha Hf. right. by destruct (H9 Ha Hf) as [|].
Qed.

Lemma tinv_flush_t c c' : tinv c → flush_t c = Some c' → tinv c'.
Proof.
  intros [H1 H2 H3 H4 H5 H6 H7 H8 H9 H10] He. unfold flush_t in He.
  destruct (t_buf c) as [|[v|] b] eqn:Eb; [done|..]; injection He as <-.
  - destruct (t_pc c) eqn:Et; simpl in H10; try done; [|by destruct v as [|[]|], b, (running c)..].
    assert (v = 1 ∧ b = [] ∧ running c = false) as (-> & -> & Hr) by (by destruct v as [|[]|], b, (running c)).
    split; simpl; auto; try (by rewrite Et, Hr); intros _ _; by left.
  - destruct (t_pc c) eqn:Et; simpl in H10; try done.
    + destruct b; [|done]. split; simpl; rewrite ?Et; auto; [intros _ _; right; by left|].
      intros Ha Hf. destruct (H9 Ha Hf) as [|(a & b & Hab)]; [congruence|right; by exists a, b].
    + assert (b = [WFlag 1]) as -> by (by destruct b as [|[[|[]|]|] []], (running c)).
      split; simpl; rewrite ?Et; auto; intros _ _; [right; by right|by left].
Qed.

Lemma tinv_exec c x c' : tinv c → ¬ late c x → exec c x = Some c' → tinv c'.
Proof.
  intros Hi Hl He. destruct x as [| |a|a|a| | |]; simpl in He.
  - by eapply tinv_dispatcher.
  - destruct Hi as [H1 H2 H3 H4 H5 H6 H7 H8 H9 H10]. destruct (d_buf c) as [|v b] eqn:Eb; [done|]. injection He as <-.
    destruct H1 as [?|[[Hd [= -> ->]]|[Hd [= -> ->]]]]; [done|..]; rewrite Hd in *; split; simpl; rewrite ?Hd; auto; try done;
      intros Ha; by specialize (H8 Ha).
  - destruct (clients c !! a) as [[[] b]|] eqn:Ea; try done. destruct b; simpl in He; [|done]. injection He as <-.
    apply (tinv_client c a AIdle AStore [] []); try done; [by left| |by left].
    intros _. right. left. exists a, []. left. apply list_lookup_insert_eq. by eapply lookup_lt_Some.
  - destruct (clients c !! a) as [[[] b]|] eqn:Ea; try done.
    + injection He as <-. destruct (ti_client _ Hi _ _ _ Ea) as [->|[? _]]; [|done].
      apply (tinv_client c a AStore AWake [] [1]); try done; [by right| |by left].
      intros _. right. left. exists a, []. right. apply list_lookup_insert_eq. by eapply lookup_lt_Some.
    + destruct b; simpl in He; [|done]. injection He as <-. apply (tinv_client c a AWake AIdle [] []); try done; [by left|].
      intros Hq. destruct (outer_at (d_pc c)) eqn:Ho; [|by auto].
      destruct (ti_outer _ Hi Ho Hq) as [?|Hu]; [by left|right; left]. apply unsignalled_insert; [done|congruence..].
  - destruct (clients c !! a) as [[q [|v b]]|] eqn:Ea; try done. injection He as <-.
    pose proof Hi as [H1 H2 H3 H4 H5 H6 H7 H8 H9 H10]. destruct (H3 _ _ _ Ea) as [?|[-> [= -> ->]]]; [done|].
    split; simpl; auto.
    + intros j p' b' [(<-&[= <- <-]&_)|(_&Hj)]%lookup_insert_cases; [by left|eauto].
    + intros _ _. right. exists a, []. apply list_lookup_insert_eq. by eapply lookup_lt_Some.
  - by eapply tinv_destructor.
  - by eapply tinv_flush_t.
  - injection He as <-. destruct Hi as [H1 H2 H3 H4 H5 H6 H7 H8 H9 H10]. by split.
Qed.

(** An execution whose end violates the invariant has a [late] step. *)
Lemma tinv_run_or_late c σ c' :
  tinv c → run (M := tso_machine) c σ = Some c' →
  tinv c' ∨ ∃ σ1 x σ2 c1, σ = σ1 ++ x :: σ2 ∧ run (M := tso_machine) c σ1 = Some c1 ∧ late c1 x.
Proof.
  revert c. induction σ as [|x σ IH]; intros c Hi Hr; simpl in Hr; [left; by simplify_eq|].
  destruct (exec c x) as [c1|] eqn:E; [|done].
  assert (late c x ∨ ¬ late c x) as [Hl|Hl].
  { unfold late. destruct x, (d_pc c), (d_buf c); intuition done. }
  - right. by exists [], x, σ, c.
  - destruct (IH c1 (tinv_exec _ _ _ Hi Hl E) Hr) as [?|(σ1 & y & σ2 & c2 & -> & Hr2 & Hl2)]; [by left|right].
    exists (x :: σ1), y, σ2, c2. split_and!; [done| |done]. simpl. by rewrite E.
Qed.

(** In a state with the invariant, a dispatcher that sleeps with a task in the queue
    or with the destructor in [join] will be woken by a client. *)
Lemma tinv_quiet c : tinv c → quiet c → (queue c = 0%nat ∨ t_pc c = TWake) ∧ t_pc c ≠ TJoin.
Proof.
  intros [H1 H2 H3 H4 H5 H6 H7 H8 H9 H10] (Hd & Ha & _ & Hall). rewrite Hd in H6, H7.
  assert (∀ a p b, clients c !! a = Some (p, b) → p = AIdle) as Hidle.
  { intros a p b Hab. pose proof (Forall_lookup_1 _ _ _ _ Hall Hab). congruence. }
  assert (flag c = 1 → t_pc c = TWake) as Hf.
  { intros Hf. destruct (H9 Ha Hf) as [|(a & b & Hab)]; [done|]. by specialize (Hidle _ _ _ Hab). }
  split.
  - destruct (queue c) eqn:Eq; [by left|right]. destruct (H6 eq_refl ltac:(lia)) as [Hf1|(a & b & [Hab|Hab])].
    + by apply Hf.
    + by specialize (Hidle _ _ _ Hab).
    + by specialize (Hidle _ _ _ Hab).
  - intros Ht. rewrite Ht in *. destruct (t_buf c) eqn:Eb, (running c) eqn:Er; simpl in H10; try done.
    destruct (H7 eq_refl eq_refl) as [Hf1|[?|?]]; [specialize (Hf Hf1); congruence|congruence..].
Qed.

(** C10. The delayed store of [reset()] is the only cause of both failures: every
    execution of the code, with any number of clients, that ends with a lost wake-up
    or with the destructor waiting for a sleeping dispatcher contains a step in which
    the dispatcher makes its second [isEmpty()] while the 0 of [taskGate.reset()] is
    still in its store buffer. *)
Theorem tso_delayed_reset n σ c :
  run (M := tso_machine) (init n) σ = Some c → lost c ∨ hung c →
  ∃ σ1 σ2 c1, σ = σ1 ++ Dispatcher :: σ2 ∧ run (M := tso_machine) (init n) σ1 = Some c1 ∧
    d_pc c1 = DRecheck ∧ d_buf c1 ≠ [].
Proof.
  intros Hr Hbad. destruct (tinv_run_or_late _ _ _ (tinv_init n) Hr) as [Hi|(σ1 & x & σ2 & c1 & -> & Hr1 & -> & Hp & Hb)].
  - exfalso. destruct Hbad as [(Hq & Hs & Ht)|(Ht & _ & Hs)]; destruct (tinv_quiet c Hi Hs) as [[H|H] H']; [lia|congruence..].
  - by exists σ1, σ2, c1.
Qed.

(** Both executions above. *)
Lemma tso_delayed_reset_witness :
  (∃ σ1 σ2 c1, lost_sched = σ1 ++ Dispatcher :: σ2 ∧ run (M := tso_machine) (init 1) σ1 = Some c1 ∧
     d_pc c1 = DRecheck ∧ d_buf c1 ≠ []) ∧
  (∃ σ1 σ2 c1, hung_sched = σ1 ++ Dispatcher :: σ2 ∧ run (M := tso_machine) (init 1) σ1 = Some c1 ∧
     d_pc c1 = DRecheck ∧ d_buf c1 ≠ []).
Proof.
  split.
  - eapply tso_delayed_reset; [vm_compute; reflexivity|]. left. repeat constructor.
  - eapply tso_delayed_reset; [vm_compute; reflexivity|]. right. repeat constructor.
Defined.

End PoolTSO.
