(* ===== verification/WorkerTSO.v ===== *)
(** * The hand-over to a worker under x86-TSO

    [PoolTSO.v] shows that the dispatcher's own gate is not safe with the store
    buffers of x86.  This file looks at the other gate: the dispatcher hands a task
    to a [Worker] of [src/include/AstraLib/Threading/ThreadPool.hpp] through
    [poolFlag] (compare-and-swap), [task] and the worker's gate, and the worker
    gives all three back with plain stores.  Here the order of the stores is enough:
    a thread's stores reach memory in program order, so a dispatcher that sees
    [poolFlag == 0] finds the gate closed and the task cleared.

    One worker and the dispatcher, while the pool is running; tasks are not empty.
    A locked instruction, a fence and a system call wait until the own buffer is
    empty; a load sees the own latest store first. *)

From Stdlib Require Import ZArith Lia.
From S2P Require Import Prelude Lts.
Local Open Scope Z_scope.
Local Open Scope astra_scope.

Module WorkerTSO.

(** The stores that are buffered. *)
Inductive write := WFlag (x : Z) | WPool (x : Z) | WTask (f : option nat).

Record mem := mkMem { flag : Z; poolFlag : Z; task : option nat }.

Definition commit (w : write) (s : mem) : mem :=
  match w with
  | WFlag x => mkMem x (poolFlag s) (task s)
  | WPool x => mkMem (flag s) x (task s)
  | WTask f => mkMem (flag s) (poolFlag s) f
  end.

(** What a thread with buffer [b] reads. *)
Definition view (b : list write) (s : mem) : mem := foldl (λ s w, commit w s) s b.

(** [thread_loop]: [flag.load], the system call of [waiter], blocked in it,
    [if (task)], the call, [task = nullptr], [gate.reset()], [poolFlag.store(0)],
    the fence. *)
Inductive kpc := KLoad | KCall | KAsleep | KTest | KRun | KClear | KReset | KFree | KFence.

(** The dispatcher: [compare_exchange_strong], the assignment of the task, and the
    store and the system call of [signaler]. *)
Inductive dpc := DCas | DTask (id : nat) | DStore | DWake.

Record cfg := mkCfg {
  memory : mem;
  w_buf : list write;
  w_pc : kpc;
  d_buf : list write;
  d_pc : dpc;
  asleep : bool;
  handed : list nat;
  executed : list nat;
}.

Definition drained (b : list write) : bool := match b with [] => true | _ => false end.

(** One step of the worker. *)
Definition thread_loop (c : cfg) : option cfg :=
  let s := view (w_buf c) (memory c) in
  let go b p z e := Some (mkCfg (memory c) b p (d_buf c) (d_pc c) z (handed c) (executed c ++ e)) in
  let goto p := go (w_buf c) p (asleep c) [] in
  let store w p := go (w_buf c ++ [w]) p (asleep c) [] in
  match w_pc c with
  | KLoad => goto (if flag s =? 1 then KTest else KCall)
  | KCall =>
      if drained (w_buf c)
      then if flag (memory c) =? 0 then go (w_buf c) KAsleep true [] else goto KLoad
      else None
  | KAsleep => if asleep c then None else goto KLoad
  | KTest => goto (match task s with Some _ => KRun | None => KLoad end)
  | KRun => let? id := task s in go (w_buf c) KClear (asleep c) [id]
  | KClear => store (WTask None) KReset
  | KReset => store (WFlag 0) KFree
  | KFree => store (WPool 0) KFence
  | KFence => if drained (w_buf c) then goto KLoad else None
  end.

(** One step of the dispatcher, which has task [id] for the next free worker. *)
Definition activate (c : cfg) (id : nat) : option cfg :=
  let go s b p z h := Some (mkCfg s (w_buf c) (w_pc c) b p z h (executed c)) in
  match d_pc c with
  | DCas =>
      if drained (d_buf c)
      then if poolFlag (memory c) =? 0
           then go (commit (WPool 1) (memory c)) (d_buf c) (DTask id) (asleep c) (handed c ++ [id])
           else go (memory c) (d_buf c) DCas (asleep c) (handed c)
      else None
  | DTask f => go (memory c) (d_buf c ++ [WTask (Some f)]) DStore (asleep c) (handed c)
  | DStore => go (memory c) (d_buf c ++ [WFlag 1]) DWake (asleep c) (handed c)
  | DWake => if drained (d_buf c) then go (memory c) (d_buf c) DCas false (handed c) else None
  end.

Inductive act := Worker | FlushW | Dispatcher (id : nat) | FlushD | Interrupt.

Definition exec (c : cfg) (a : act) : option cfg :=
  match a with
  | Worker => thread_loop c
  | FlushW =>
      match w_buf c with
      | w :: b => Some (mkCfg (commit w (memory c)) b (w_pc c) (d_buf c) (d_pc c) (asleep c) (handed c) (executed c))
      | [] => None
      end
  | Dispatcher id => activate c id
  | FlushD =>
      match d_buf c with
      | w :: b => Some (mkCfg (commit w (memory c)) (w_buf c) (w_pc c) b (d_pc c) (asleep c) (handed c) (executed c))
      | [] => None
      end
  | Interrupt => Some (mkCfg (memory c) (w_buf c) (w_pc c) (d_buf c) (d_pc c) false (handed c) (executed c))
  end.

Definition tso_machine : machine := Machine cfg act exec.

(** The worker waits and is free. *)
Definition init : cfg := mkCfg (mkMem 0 0 None) [] KLoad [] DCas false [] [].

(** ** The phases of a hand-over

    Memory, the two buffers, the two program counters, and the task that was handed
    over and has not been executed. *)

Definition waits (p : kpc) : bool := match p with KLoad | KCall | KAsleep | KFence => true | _ => false end.
Definition opens (p : kpc) : bool := waits p || match p with KTest | KRun => true | _ => false end.
Definition between (d : dpc) : bool := match d with DCas | DWake => true | _ => false end.

Inductive phase : mem → list write → kpc → list write → dpc → option nat → Prop :=
| ph_idle p d : waits p = true → between d = true → phase (mkMem 0 0 None) [] p [] d None
| ph_claimed id p : waits p = true → phase (mkMem 0 1 None) [] p [] (DTask id) (Some id)
| ph_task id p : waits p = true → phase (mkMem 0 1 None) [] p [WTask (Some id)] DStore (Some id)
| ph_task' id p : waits p = true → phase (mkMem 0 1 (Some id)) [] p [] DStore (Some id)
| ph_signal id p : waits p = true → phase (mkMem 0 1 None) [] p [WTask (Some id); WFlag 1] DWake (Some id)
| ph_signal' id p : waits p = true → phase (mkMem 0 1 (Some id)) [] p [WFlag 1] DWake (Some id)
| ph_open id p d :
    opens p = true → between d = true → phase (mkMem 1 1 (Some id)) [] p [] d (Some id)
| ph_ran id d : between d = true → phase (mkMem 1 1 (Some id)) [] KClear [] d None
| ph_cleared id d : between d = true → phase (mkMem 1 1 (Some id)) [WTask None] KReset [] d None
| ph_cleared' d : between d = true → phase (mkMem 1 1 None) [] KReset [] d None
| ph_reset id d : between d = true → phase (mkMem 1 1 (Some id)) [WTask None; WFlag 0] KFree [] d None
| ph_reset' d : between d = true → phase (mkMem 1 1 None) [WFlag 0] KFree [] d None
| ph_reset'' d : between d = true → phase (mkMem 0 1 None) [] KFree [] d None
| ph_freed id d : between d = true → phase (mkMem 1 1 (Some id)) [WTask None; WFlag 0; WPool 0] KFence [] d None
| ph_freed' d : between d = true → phase (mkMem 1 1 None) [WFlag 0; WPool 0] KFence [] d None
| ph_freed'' d : between d = true → phase (mkMem 0 1 None) [WPool 0] KFence [] d None.

Record hinv (c : cfg) : Prop := {
  ti_phase : ∃ pend, phase (memory c) (w_buf c) (w_pc c) (d_buf c) (d_pc c) pend ∧
                     handed c = executed c ++ option_list pend;
  ti_asleep : asleep c = true → w_pc c = KAsleep;
  ti_signal : asleep c = true → flag (memory c) = 1 → d_pc c = DWake;
}.

(** Split a phase into the program counters it allows. *)
Ltac phases Hp :=
  destruct Hp as [p d Hw Hd|id p Hw|id p Hw|id p Hw|id p Hw|id p Hw|id p d Hw Hd|id d Hd|id d Hd|d Hd|id d Hd|d Hd|d Hd|id d Hd|d Hd|d Hd];
  try (destruct p; try done).

(** A configuration that is in a phase, with a worker that is not asleep. *)
Ltac in_phase Ha :=
  split; simpl in *;
  [ eexists; split; [by constructor|by rewrite ?app_nil_r, <- ?app_assoc]
  | try done; try (let H := fresh in intros H; by specialize (Ha H))
  | try done; try (let H := fresh in intros H; by specialize (Ha H)) ].

Lemma hinv_worker c c' : hinv c → thread_loop c = Some c' → hinv c'.
Proof.
  intros [(pend & Hp & Hh) Ha Hs] He. destruct c as [s wb wp db dp z h e]. simpl in *. subst h.
  phases Hp.
  all: unfold thread_loop in He; simpl in He; step_inv He; in_phase Ha.
Qed.

Lemma hinv_dispatcher c id c' : hinv c → activate c id = Some c' → hinv c'.
Proof.
  intros [(pend & Hp & Hh) Ha Hs] He. destruct c as [s wb wp db dp z h e]. simpl in *. subst h.
  destruct Hp; try (destruct d; try done).
  all: unfold activate in He; simpl in He; step_inv He; in_phase Ha.
Qed.

Lemma hinv_exec c a c' : hinv c → exec c a = Some c' → hinv c'.
Proof.
  intros Hi He. destruct a as [| |id| |]; simpl in He.
  - by eapply hinv_worker.
  - destruct Hi as [(pend & Hp & Hh) Ha Hs]. destruct c as [s wb wp db dp z h e]. simpl in *. subst h.
    phases Hp; simplify_eq; in_phase Ha.
  - by eapply hinv_dispatcher.
  - destruct Hi as [(pend & Hp & Hh) Ha Hs]. destruct c as [s wb wp db dp z h e]. simpl in *. subst h.
    phases Hp; simplify_eq; in_phase Ha.
  - simplify_eq. destruct Hi as [Hp _ _]. by split.
Qed.

Lemma hinv_reach c : reachable (M := tso_machine) (λ c, c = init) c → hinv c.
Proof.
  revert c. apply invariant; [|intros c a c' _; apply hinv_exec].
  intros c ->. split; [|done..]. exists None. split; [by constructor|done].
Qed.

(** C11. While the pool is running and tasks are not empty, the hand-over to a worker is
    safe on x86: the tasks are executed in the order in
    which they were handed over, each once and at most one behind; a dispatcher that
    finds [poolFlag] 0 in memory finds the gate closed, the task cleared and the
    previous task executed; and if neither the worker nor a store buffer can move and
    the dispatcher is not in the middle of a hand-over, everything that was handed over
    has been executed and the worker is free. *)
Theorem worker_handover_tso c :
  reachable (M := tso_machine) (λ c, c = init) c →
  (∃ pend, handed c = executed c ++ option_list pend) ∧
  (poolFlag (memory c) = 0 → handed c = executed c ∧ flag (memory c) = 0 ∧ task (memory c) = None) ∧
  (exec c Worker = None → exec c FlushW = None → exec c FlushD = None → d_pc c = DCas →
   handed c = executed c ∧ poolFlag (memory c) = 0).
Proof.
  intros [(pend & Hp & Hh) Ha Hs]%hinv_reach. split; [by exists pend|].
  destruct c as [s wb wp db dp z h e]. simpl in *. subst h. split.
  - intros Hf. destruct Hp; simpl in Hf; try done. by rewrite app_nil_r.
  - intros Hw H1 H2 Hdc. destruct Hp as [p d Hw' _| | | | | |id p d Hw' _|id|id| |id| | |id| |]; try done.
    + by rewrite app_nil_r.
    + exfalso. unfold thread_loop in Hw. simpl in Hw. destruct p; simpl in *; try done.
      destruct z; [|done]. by rewrite (Hs eq_refl eq_refl) in Hdc.
Qed.

(** Two tasks in a row; the first one's stores are still in the worker's buffer when
    the dispatcher spins on [poolFlag]. *)
Definition tso_sched : list act :=
  [Dispatcher 7; Dispatcher 0; Dispatcher 0; FlushD; FlushD; Dispatcher 0] ++ replicate 6 Worker ++
  [Dispatcher 8] ++ replicate 3 FlushW ++ replicate 2 Worker ++
  [Worker; Dispatcher 8; Dispatcher 0; Dispatcher 0; FlushD; FlushD; Dispatcher 0] ++ replicate 7 Worker ++ replicate 3 FlushW ++
  replicate 3 Worker.
Definition tso_end : cfg := default init (run (M := tso_machine) init tso_sched).

Lemma worker_handover_tso_witness :
  handed tso_end = [7; 8]%nat ∧ handed tso_end = executed tso_end ∧ poolFlag (memory tso_end) = 0.
Proof.
  split; [by vm_compute|].
  apply (worker_handover_tso tso_end); try by vm_compute.
  apply (run_reachable tso_machine _ init tso_sched); [by apply reach_init|].
  apply (run_default (M := tso_machine)). by vm_compute.
Defined.

End WorkerTSO.
