(* ===== verification/Layout.v ===== *)
(** * Memory layout: one cache line per shared variable

    Model of the layout of [PaddedAtomic] ([src/include/AstraLib/Atomic/
    paddedAtomic.hpp]), [Slot] ([atomicRingBuffer.hpp]) and [spscSlot]
    ([spscRingBuffer.hpp]): the members of a class are placed in order, each at
    the next multiple of its alignment, and the size is rounded up to the
    alignment of the class (Itanium C++ ABI). *)

From Stdlib Require Import ZArith Lia.
From S2P Require Import Prelude MachineInt.
Local Open Scope Z_scope.
Local Open Scope astra_scope.

(** Size and alignment of a type. *)
Record layout := mkLayout { sizeof : Z; alignof : Z }.

Definition round_up (x a : Z) : Z := (x + a - 1) / a * a.

(** The offsets of the members and the end of the last one. *)
Fixpoint place (pos : Z) (members : list layout) : list Z * Z :=
  match members with
  | [] => ([], pos)
  | m :: ms =>
      let o := round_up pos (alignof m) in
      let r := place (o + sizeof m) ms in (o :: r.1, r.2)
  end.

(** A struct declared [alignas(n)]. *)
Definition struct (n : Z) (members : list layout) : layout :=
  let a := foldr Z.max n (alignof <$> members) in
  mkLayout (round_up (place 0 members).2 a) a.

Definition offsets (members : list layout) : list Z := (place 0 members).1.

Definition int_layout : layout := mkLayout 4 4.
Definition int64_layout : layout := mkLayout 8 8.

(** [char padding[64 - sizeof(std::atomic<T>)];] must have at least one element. *)
Definition PaddedAtomic_layout (t : layout) : option layout :=
  if 64 - sizeof t <=? 0 then None
  else Some (struct 64 [t; mkLayout (64 - sizeof t) 1]).

(** [static_assert(sizeof(T) <= 128 - sizeof(seq))] *)
Definition Slot_layout (t : layout) : option layout :=
  if sizeof t <=? 128 - sizeof int64_layout then Some (struct 64 [int64_layout; t]) else None.

Definition spscSlot_layout (t : layout) : layout := struct 128 [t; int_layout].

(** Every C++ type: the alignment is a power of two and divides the size. *)
Definition valid (t : layout) : Prop :=
  0 < sizeof t ∧ (∃ k, 0 <= k ∧ alignof t = 2 ^ k) ∧ (alignof t | sizeof t).

Lemma round_up_spec x a : 0 < a → x <= round_up x a < x + a ∧ (a | round_up x a).
Proof.
  intros Ha. unfold round_up. split; [|by exists ((x + a - 1) / a)].
  pose proof (Z.div_mod (x + a - 1) a ltac:(lia)). pose proof (Z.mod_pos_bound (x + a - 1) a Ha). lia.
Qed.

Lemma round_up_unique x a y : 0 < a → (a | y) → x <= y < x + a → round_up x a = y.
Proof.
  intros Ha [k ->] H. destruct (round_up_spec x a Ha) as [Hb [j Hj]]. rewrite Hj in Hb |- *.
  assert (j = k) as ->; [|done]. assert ((j - k) * a < 1 * a) by lia. assert ((k - j) * a < 1 * a) by lia.
  apply Z.mul_lt_mono_pos_r in H0; [|done]. apply Z.mul_lt_mono_pos_r in H1; [|done]. lia.
Qed.

(** A type of at most 120 bytes is aligned to 1, 2, ..., 64. *)
Lemma small_alignment t :
  valid t → sizeof t <= 120 →
  alignof t = 1 ∨ alignof t = 2 ∨ alignof t = 4 ∨ alignof t = 8 ∨ alignof t = 16 ∨ alignof t = 32 ∨ alignof t = 64.
Proof.
  intros (Hs & (k & Hk & Ha) & [j Hj]) Hle.
  assert (k <= 6) as Hk6.
  { destruct (Z.le_gt_cases k 6) as [|Hgt]; [done|]. pose proof (Z.pow_le_mono_r 2 7 k ltac:(lia) ltac:(lia)) as Hp.
    change (2 ^ 7) with 128 in Hp. rewrite Ha in Hj. generalize dependent (2 ^ k). intros p Ha Hj Hp.
    assert (1 <= j) by nia. nia. }
  assert (k = 0 ∨ k = 1 ∨ k = 2 ∨ k = 3 ∨ k = 4 ∨ k = 5 ∨ k = 6) as Hc by lia. rewrite Ha.
  destruct Hc as [->|[->|[->|[->|[->|[->| ->]]]]]]; vm_compute; tauto.
Qed.

(** C40. Cache lines: every [PaddedAtomic] fills exactly one line of 64 bytes; a
    slot of [AtomicRingBuffer], for every element type that passes the static
    assertion, is aligned to a line and fills one or two of them, and the element
    lies behind the sequence number and inside the slot.  So two slots, or a slot
    and a ticket counter, never share a line. *)
Theorem layout_no_sharing t :
  valid t →
  (sizeof t < 64 → PaddedAtomic_layout t = Some (mkLayout 64 64)) ∧
  (sizeof t <= 120 → ∃ s, Slot_layout t = Some s ∧ alignof s = 64 ∧ (sizeof s = 64 ∨ sizeof s = 128) ∧
     ∃ o, offsets [int64_layout; t] = [0; o] ∧ 8 <= o ∧ (alignof t | o) ∧ o + sizeof t <= sizeof s) ∧
  (120 < sizeof t → Slot_layout t = None).
Proof.
  intros Hv. pose proof Hv as (Hs & _ & Hd). split_and!.
  - intros Hlt. unfold PaddedAtomic_layout. destruct (Z.leb_spec (64 - sizeof t) 0); [lia|].
    pose proof (small_alignment t Hv ltac:(lia)) as Ha. f_equal. unfold struct.
    assert (foldr Z.max 64 (alignof <$> [t; mkLayout (64 - sizeof t) 1]) = 64) as ->.
    { simpl. lia. }
    f_equal. cbn [place sizeof alignof fst snd].
    assert (0 < alignof t) as Hp by lia.
    rewrite (round_up_unique 0 (alignof t) 0) by (try apply Z.divide_0_r; lia).
    rewrite (round_up_unique (0 + sizeof t) 1 (sizeof t)) by (try apply Z.divide_1_l; lia).
    apply round_up_unique; [lia|by exists 1|lia].
  - intros Hle. pose proof (small_alignment t Hv Hle) as Ha. unfold Slot_layout. change (128 - sizeof int64_layout) with 120.
    destruct (Z.leb_spec (sizeof t) 120); [|lia]. eexists. split; [done|].
    set (a := alignof t) in *. set (o := round_up 8 a).
    assert (0 < a) as Hp by lia.
    assert (place 0 [int64_layout; t] = ([0; o], o + sizeof t)) as Hpl by done.
    destruct (round_up_spec 8 a Hp) as [Ho Hdo]. fold o in Ho, Hdo.
    assert (o + sizeof t <= 128) as Hend.
    { destruct Hd as [j Hj]. fold a in Hj. clear Hpl. subst o.
      destruct Ha as [Ha|[Ha|[Ha|[Ha|[Ha|[Ha|Ha]]]]]]; rewrite Ha in Hj |- *;
        match goal with |- round_up 8 ?n + _ <= _ =>
          let v := eval vm_compute in (round_up 8 n) in change (round_up 8 n) with v end; lia. }
    unfold struct, offsets. rewrite Hpl. cbn [fst snd sizeof alignof].
    assert (foldr Z.max 64 (alignof <$> [int64_layout; t]) = 64) as ->.
    { simpl. fold a. lia. }
    destruct (round_up_spec (o + sizeof t) 64 ltac:(lia)) as [Hr [j Hj]].
    split_and!; [done|lia|]. exists o. split_and!; [done|lia|done|lia].
  - intros Hgt. unfold Slot_layout. change (128 - sizeof int64_layout) with 120.
    destruct (Z.leb_spec (sizeof t) 120); [lia|done].
Qed.

(** [int] in a [PaddedAtomic], [std::function<void()>] (32 bytes) and a struct of
    120 bytes in a slot. *)
Lemma layout_no_sharing_witness :
  PaddedAtomic_layout int_layout = Some (mkLayout 64 64) ∧
  Slot_layout (mkLayout 32 8) = Some (mkLayout 64 64) ∧ Slot_layout (mkLayout 120 8) = Some (mkLayout 128 64).
Proof.
  split; [|split; reflexivity]. apply (layout_no_sharing int_layout); [|simpl; lia].
  split; [simpl; lia|]. split; [by exists 2|by exists 1].
Defined.

(** The slots of [spscRingBuffer] are aligned to and fill multiples of 128 bytes. *)
Lemma spscSlot_lines t : valid t → alignof t <= 128 → alignof (spscSlot_layout t) = 128 ∧ (128 | sizeof (spscSlot_layout t)).
Proof.
  intros (_ & (k & Hk & Ha) & _) Hle. unfold spscSlot_layout, struct.
  assert (foldr Z.max 128 (alignof <$> [t; int_layout]) = 128) as -> by (simpl; lia).
  split; [done|]. by apply round_up_spec.
Qed.
