(* ===== verification/Demo.v ===== *)
(** * The demo programs

    Model of [src/demo/atomicRingBufferDemo.cpp] and [src/demo/timerDemo.cpp]: one
    thread that uses the library and prints what it gets.  The buffers are the real
    ones, 1024 slots and a batch array of 50 elements, run step by step
    ([RingAlone.call_alone]); the value that a fresh slot holds and the readings of
    the time stamp counter are arguments. *)

From Stdlib Require Import ZArith Lia Ascii String SpecFloat.
From S2P Require Import Prelude MachineInt Decimal Lts AtomicRingBuffer RingAlone Timer.
Local Open Scope Z_scope.
Local Open Scope astra_scope.

Module Demo.

(** ** atomicRingBufferDemo.cpp *)

(** [struct IntStruct { int a; }]: moving copies it, its destructor does nothing. *)
Record IntStruct := mkIntStruct { a : Z }.
#[local] Instance elem_IntStruct : Elem IntStruct := {| moved_from v := v; trivially_destructible := true |}.

(** [AtomicRingBuffer<A, 1024>] with fresh elements [a0], used by one thread. *)
Definition buffer_1024 {A} `{!Elem A} (a0 : A) : option (cfg A) := init_cfg machine_arith 1024 50 a0 1.

(** A call of a member function by the only thread; the steps of the longest call,
    [batchDequeue(10)], are fewer than 64. *)
Definition member {A} `{!Elem A} (o : op A) (c : cfg A) : option (cfg A * pc A) :=
  call_alone machine_arith 1024 50 64 0 o c.

Definition enqueue {A} `{!Elem A} (k : enq_kind) (v : A) (c : cfg A) : option (cfg A) :=
  let? r := member (OpEnqueue k v) c in
  match r.2 with EnqReturn => Some r.1 | _ => None end.

Definition dequeue {A} `{!Elem A} (c : cfg A) : option (cfg A * A) :=
  let? r := member OpDequeue c in
  match r.2 with DeqReturn _ v => Some (r.1, v) | _ => None end.

(** [batchDequeue(count)] returns a pointer to the array inside the buffer. *)
Definition batchDequeue {A} `{!Elem A} (count : Z) (c : cfg A) : option (cfg A) :=
  let? r := member (OpBatchDequeue count) c in
  match r.2 with BatchReturn _ => Some r.1 | _ => None end.

Definition isEmpty {A} `{!Elem A} (write_first : bool) (c : cfg A) : option (cfg A * bool) :=
  let? r := member (OpIsEmpty write_first) c in
  match r.2 with EmptyReturn b => Some (r.1, b) | _ => None end.

(** [for(int i = 0; i < 10; i++) intBuffer.enqueue(i);] *)
Fixpoint enqueue_all (vs : list Z) (c : cfg Z) : option (cfg Z) :=
  match vs with
  | [] => Some c
  | v :: vs' => let? c' := enqueue EnqCopy v c in enqueue_all vs' c'
  end.

(** [std::cout << arrayPtr->at(i) << " "] for [i < 10]; [at] throws out of range. *)
Definition print_batch (c : cfg Z) : option text :=
  let? vs := mapM (λ i, batchDequeueArray (c_ring c) !! i) (List.seq 0 10) in
  Some (concat ((λ v, show v ++ str " ") <$> vs)).

(** The first half of [main]: one value through each buffer. *)
Definition single_values (intBuffer : cfg Z) (structBuffer : cfg IntStruct) : option (cfg Z * list text) :=
  let? intBuffer := enqueue EnqMove 42 intBuffer in
  let? r := dequeue intBuffer in
  let line1 := str "Dequeued value: " ++ show r.2 in
  let? structBuffer := enqueue EnqEmplace (mkIntStruct 1) structBuffer in
  let? e := dequeue structBuffer in
  Some (r.1, [line1; str "Dequeued struct: " ++ show (a e.2)]).

(** The second half: ten values in one batch, then [clearBuffer] and [isEmpty]. *)
Definition batch_values (write_first : bool) (intBuffer : cfg Z) : option (list text) :=
  let? intBuffer := enqueue_all (Z.of_nat <$> List.seq 0 10) intBuffer in
  let? intBuffer := batchDequeue 10 intBuffer in
  let? line := print_batch intBuffer in
  let? intBuffer := exec machine_arith 1024 50 intBuffer Clear in
  let? em := isEmpty write_first intBuffer in
  Some ([str "Batch dequeued numbers: "; line] ++ (if em.2 then [str "Returns true if buffer is empty"] else [])).

(** The lines that [main] prints; [garbage] is what fresh elements hold. *)
Definition main (garbage : Z) (write_first : bool) : option (list text) :=
  intBuffer ← buffer_1024 garbage;
  structBuffer ← buffer_1024 (mkIntStruct 0);
  r ← single_values intBuffer structBuffer;
  ls ← batch_values write_first r.1;
  Some (r.2 ++ ls).

(** The demo returns, on any contents of the fresh memory and for both orders in
    which [isEmpty] may load the counters, and prints what its comments announce. *)
Theorem demo_prints garbage write_first :
  main garbage write_first =
  Some [str "Dequeued value: 42"; str "Dequeued struct: 1"; str "Batch dequeued numbers: ";
        str "0 1 2 3 4 5 6 7 8 9 "; str "Returns true if buffer is empty"].
Proof. destruct write_first; vm_compute; reflexivity. Qed.

(** ** timerDemo.cpp *)

(** The two measurements: the counter at each [start()] and inside each [write()]. *)
Definition timerDemo (uninit t1 t2 s1 w1 s2 w2 : Z) : (Z * double * double) * (Z * double * double) :=
  let timer := Timer_init uninit t1 t2 in
  let timer := start timer s1 in
  let first := write_values timer w1 in
  let timer := start timer s2 in
  (first, write_values timer w2).

(** The second measurement starts afresh: it does not depend on the first, nor on
    the uninitialised [startTime]. *)
Theorem timer_demo_independent u u' t1 t2 s1 s1' w1 w1' s2 w2 :
  (timerDemo u t1 t2 s1 w1 s2 w2).2 = (timerDemo u' t1 t2 s1' w1' s2 w2).2 ∧
  (timerDemo u t1 t2 s1 w1 s2 w2).2.1.1 = to_u64 (w2 - s2).
Proof. split; reflexivity. Qed.
End Demo.
